(* ===== verification/_CoqProject ===== *)
-Q . S2P
Prelude.v
Errors.v
RuntimeState.v
Pool.v
GoText.v
StrictJson.v
Response.v
GoValue.v
Descriptor.v
Operation.v
H1.v
Serialize.v
Marshal.v
Payload.v
Identifiers.v
H2Frame.v
H2Session.v
H2System.v
H2Wire.v
H2Inbound.v
H2Handshake.v
Observer.v
Telemetry.v
Proxy.v
GoURL.v
Config.v
Endpoint.v
RawTransport.v
EndToEnd.v
Runtime.v
Closing.v
Tlsx.v
Dial.v
Construct.v
ManualTime.v
Recorder.v
Scripted.v
Otel.v
