(* ===== verification/Prelude.v ===== *)
(** * Verification of the Repost Go client runtime

    The program (the Go module under src/) is the runtime of a client that sends
    webhooks.  A generated client hands a schema descriptor and an input to
    [Runtime.Send]; the runtime admits the operation against its limits (state.go),
    resolves credential and idempotency key, serializes the input against the
    descriptor (descriptor.go, serialize.go, ordered.go), and runs at most
    [maxAttempts] attempts through a transport (operation.go), which takes
    connections from a pool (internal/pool), perhaps through a proxy
    (internal/proxyconnect), writes HTTP/1.1 or HTTP/2 (internal/h1, internal/h2) and
    builds bounded responses (response_factory.go).  A response is validated with a
    strict JSON parser (operation_response.go, internal/strictjson) and becomes a result
    or a classified error (errors.go).  What happens is told to an observer on its own
    goroutine (observer.go) and to telemetry hooks (telemetry.go).

    ** The files, in dependency order

    - [Prelude]: bytes, machine integers, results, automation, sums over lists.
    - [Errors] (errors.go, parts of config.go, runtime.go, operation.go): the error
      value, its codes, category and message.
    - [RuntimeState] (state.go): the runtime state as a record, each critical
      section as a function of it, and, in Module [Concurrent], a step relation in
      which admissions, calls, releases and the shutdown interleave.
    - [Pool] (internal/pool/pool.go): the pool with its entries in a heap, because
      leases and buckets share them; each critical section is a function; Module
      [System] is the step relation of all goroutines that use the pool.
    - [GoText]: what the code uses of unicode/utf8, strings, strconv and time.
    - [StrictJson] (internal/strictjson/parser.go): the scanner function by
      function, the decoder of encoding/json it calls, and in Module [Grammar] an
      independent JSON grammar with limits.
    - [Response] (transport.go, operation_response.go, response_factory.go,
      internal/wirelimits): responses, their normalization, snapshot, validation and
      Retry-After.
    - [GoValue]: Go values as package reflect shows them, in a memory in which maps,
      slices and pointers share parts and may be cyclic.
    - [Descriptor] (descriptor.go, version.go, the issue collection of
      serialize.go): descriptors, the handshake, bounded validation issues.
    - [Operation] (operation.go): the send operation in a monad that threads the
      world it changes and may leave early.  What it meets, contexts, clocks, hooks,
      the transport, the outcome of a select, is an [environment] asked again at
      every use.  Module [Protocol] is the abstract retry protocol that the loop
      refines.  The serializer is the class [Codec]; it returns, panics or overflows
      the stack, and then the process ends.
    - [H1] (internal/h1/h1.go): writing requests to any writer and reading responses
      from any byte stream and buffer size; compress/gzip is the class [Gzip] with
      its laws.
    - [Serialize] (serialize.go, optional.go, [OrderedObject.Set]): the walk of an
      input along its model, the check of JSON values with its record of active
      ancestors, defaults and generators; a computation ends with a value, an error
      or a generator's panic, or does not end.
    - [Marshal] (ordered.go, [marshalEnvelope]): the JSON text of a payload and the
      encoder with a limit; encoding/json on other values is the class [Encoder].
    - [Payload]: the instance of [Codec] that [Serialize] and [Marshal] make, and
      what follows for the requests of a send.
    - [Identifiers] (generators.go, internal/cuid2): UUIDs and cuids from random
      bytes.
    - [H2Frame] (internal/h2/framing.go): frames, header blocks and responses of HTTP/2;
      golang.org/x/net/http2 and hpack are classes.
    - [H2Session] (internal/h2/session.go): the state of a session and each critical
      section as a function of it.
    - [H2System]: the step relation of all goroutines of a session, requests, reader,
      writer and control frames, with the invariant of a session.
    - [H2Wire], [H2Inbound]: the frames that a session writes, and the answers as a
      function of the frames that the peer sent.
    - [H2Handshake] (internal/h2/session.go, [NewSession]): the exchange of settings over a
      connection that may fail, and the announced limit on header lists.
    - [Observer] (observer.go): the dispatcher, its goroutine and the callers of emit,
      flush and close as a step relation, with sleeping and waking written out.
    - [Telemetry] (telemetry.go): events and spans of a send as a function of its trace,
      with hooks that may panic, and an automaton for each.
    - [Proxy] (internal/proxyconnect): the CONNECT exchange with its challenge.
    - [GoURL]: what the code uses of net/url and net/netip.
    - [Config] (config.go, transport_options.go): the snapshot of the options and of the
      environment of the process.
    - [Endpoint]: a grammar of base URIs and of the endpoints they stand for, apart from
      the functions of config.go.
    - [RawTransport] (transport_raw.go, transport_errors.go): [Send] over both protocols,
      dialling, replay and the mapping of errors and responses to outcomes.
    - [EndToEnd]: the requests of a configured runtime, on the wire.
    - [Runtime] (runtime.go): [Send] with admission and release, and the calculus that
      shows an operation to be a path of [RuntimeState.Concurrent].
    - [Closing] (runtime.go): [Close], with the runtime state and the dispatcher side by
      side and any number of callers.
    - [Tlsx] (internal/tlsx, the construction of transport_raw.go): encrypted keys, TLS
      configurations and [newRawTransport]; AES, PBKDF2 and the parsers of keys and
      certificates are classes.
    - [Dial] (internal/tlsx): the addresses of a dial, and the race of the dials as a step
      relation.
    - [Construct] (runtime.go, transport.go, config.go): [NewRuntime] and
      [NewHTTPTransport], which put the parts together, and the default entropy.
    - [ManualTime] (reposttest/manual.go): the manual clock and its schedulers, as a step
      relation of the goroutines that sleep, advance and wait.
    - [Recorder] (reposttest/observer.go): the recording observer with the events of many
      sends and the callers that wait for them.
    - [Scripted] (reposttest/transport.go, controls.go): the scripted transport, responses
      that are settled by hand, and sequences of values.
    - [Otel] (otel/bridge.go): the calls of the tracing bridge on its spans and the
      measurements of the metrics observer, and what they are to be for a send, from its
      trace and its error.

    ** What the theorems show

    - The runtime never exceeds its limits in any interleaving, drains before it is
      closed, and returns every reservation ([RuntimeState]).
    - A leased connection is open and, when exclusive, not shared; every connection
      is closed exactly once; the per-origin cap holds; nothing panics ([Pool]).
    - The strict parser accepts exactly the documented language and always comes to a
      verdict ([StrictJson]).
    - A response becomes a result exactly when it is a valid echo of the request, and
      an error never denies an acceptance that the status leaves open ([Response]).
    - A send returns unless the serializer overflows the stack on its input, follows the
      retry protocol, sends the same request in every attempt, ends every attempt it
      starts, never claims that a message was not delivered when the outcome of an
      attempt left its acceptance possible, where failures of DNS, connecting, proxy and
      TLS are taken as proof that nothing was sent, and waits bounded times
      ([Operation]).
    - The HTTP/1.1 reader inverts the writer of a server, is independent of
      buffering, and is bounded on every input; requests cannot be split by their
      values; commitment is reported exactly when a body byte was taken ([H1]).
    - Serialization ends on every input of finite nesting when the defaults are no
      objects, with a payload of the type of its model, an aggregate that counts its
      issues, or a plain error for which some value is no object; the check of JSON values
      ends on every value and accepts exactly the finite ones without a flaw; an input
      that holds itself under a model field is not detected and does not end
      ([Serialize]).
    - The bounded encoder agrees with MarshalJSON up to its limit, and a reader gets
      back what was put into an envelope ([Marshal]); so the body of every request is
      the envelope of a typed payload, and inputs of finite nesting do not overflow the
      stack ([Payload]).
    - Identifiers of operations and cuids are well formed ([Identifiers]).
    - An HTTP/2 session stays consistent in every interleaving, never sends beyond the
      windows it was granted, writes each request as its headers and its body in order,
      answers it by what the peer sent on its stream, settles the streams that GOAWAY
      leaves out, and once it is closed answers every request in at most eleven steps of
      the request, in every run that does not neglect it ([H2System], [H2Wire],
      [H2Inbound]); it starts exactly when the server opens with valid settings
      ([H2Handshake]).
    - Every event that the dispatcher accepts is handled once and in order or counted as
      dropped, and whoever waits for the dispatcher is woken ([Observer]); the events and
      spans of a send tell what it did, whatever the hooks do ([Telemetry]).
    - A tunnel is made only by a 200, credentials are sent only after a challenge and no
      connection is leaked ([Proxy]).
    - A base URI is accepted exactly when the grammar derives it ([Endpoint]); every
      accepted configuration lets the runtime work, and its requests can be written
      ([Config], [EndToEnd]).
    - An attempt reports bytes as committed when it wrote them, unless its connection was
      asked for a client certificate, repeats a request only
      when nothing of an answer has arrived, and gives the operation an outcome it takes,
      but for the exceptions that are stated ([RawTransport]).
    - A send returns what it reserved on every path ([Runtime]); [Close] leaves nothing
      running and can return to all its callers, the callback among them ([Closing]).
    - A key is decrypted exactly when the file holds it under the passphrase, and the
      construction of a transport fails exactly on refused or unreadable options ([Tlsx]);
      the dials to n addresses of a host come to an end in at most 2n+1 steps and leave
      one connection or none ([Dial]).
    - A runtime is refused exactly for a fault, with a configuration error that names the
      option at fault, and never with a panic; one that is made has valid limits, admits a
      first operation, and its sends return as those of [Operation] do ([Construct]).
    - A sleep of the manual clock returns only when the clock has reached it, and is not
      forgotten, as long as no sum of times has wrapped around ([ManualTime]); the recorder knows when all sends are over ([Recorder]); a
      pending response is settled once, and the send that waits for it gets it
      ([Scripted]).
    - The OpenTelemetry SDK sees one span per send with one span per attempt in it, each
      marked with the error it ended with, and a measurement of the operation and of every
      attempt and delay ([Otel]).

    ** Fuel and bounds

    Loops that are not structural take fuel, and a theorem shows that the fuel is
    never used up: the JSON scanner gets the length of its input, which every turn
    shortens; the attempt loop gets [maxAttempts], and the last attempt always
    leaves; the HTTP/1.1 loops get the length of the input, the field limit or the
    limit on informational responses; decompression gets one turn per byte that may
    be kept; the check of JSON values gets the size of the memory reachable from the
    value.  The fuel of the walk over models is the nesting of models that is
    followed, which is the depth of the stack: it is never used up on an input of smaller
    nesting, on a cyclic input every fuel is, and a send whose serializer uses it up ends
    the process ([Operation], [Payload]).  Step relations need none: the theorems that something ends
    give a measure that a step lowers as long as it has not.  The default entropy takes
    one turn per random byte.  64-bit integers are [Z] with the wrap-around written out
    where the code computes on values it does not bound.

    ** Not modelled

    The default clocks and timers, which wrap package time; contexts and goroutines as
    such, whose answers and interleavings are environments and step relations; the options
    of the bridge and the fixed and failing generators of reposttest, which only put
    values into closures; texts of errors that are only shown; golang.org/x/net/http2,
    hpack, compress/gzip, encoding/asn1, encoding/pem, crypto/x509, PBKDF2, AES and the
    OpenTelemetry SDK, which are parameters with the laws that are used. *)
From Stdlib Require Export ZArith Lia.
From stdpp Require Export base list gmap strings numbers.
Export stdpp.list_basics.list stdpp.list_relations.list stdpp.list_misc.list
  stdpp.list_monad.list stdpp.list_numbers.list.
From Stdlib Require Ascii String.

#[global] Open Scope Z_scope.

(** ** Bytes and strings

    A Go [string] and a Go [[]byte] are both sequences of bytes; a byte is the
    integer it stores (0 to 255), so that arithmetic on characters is
    arithmetic on [Z]. *)

Abbreviation bytes := (list Z).

Declare Scope go_scope.
Delimit Scope go_scope with go.

(** [B s] is the byte sequence of a Go string literal. *)
Definition B (s : String.string) : bytes :=
  List.map (fun a => Z.of_N (Ascii.N_of_ascii a)) (String.list_ascii_of_string s).
#[global] Arguments B : simpl never.

(** [len(s)] for strings, slices of bytes and every other slice. *)
Definition len {A} (l : list A) : Z := Z.of_nat (length l).

(** Equality tests on decidable types, as booleans. *)
Definition eqb {A} `{EqDecision A} (x y : A) : bool := bool_decide (x = y).
Infix "==?" := eqb (at level 70, no associativity) : go_scope.
#[global] Open Scope go_scope.

(** [lo <= c && c <= hi], the shape of every character-class test. *)
Definition between (lo c hi : Z) : bool := (lo <=? c) && (c <=? hi).

Definition is_byte (c : Z) : Prop := 0 <= c < 256.

(** ** Machine integers *)

Definition MaxInt32 : Z := 2147483647.
Definition MaxUint32 : Z := 4294967295.
Definition MaxInt64 : Z := 9223372036854775807.
Definition MinInt64 : Z := -9223372036854775808.

(** Two's complement wrap-around of a 64-bit signed result. *)
Definition wrap64 (z : Z) : Z :=
  (z - MinInt64) mod 18446744073709551616 + MinInt64.

(** [time.Time.Sub] on times in nanoseconds, which saturates. *)
Definition timeSub (a b : Z) : Z := Z.max MinInt64 (Z.min MaxInt64 (a - b)).

Definition in_int64 (z : Z) : Prop := MinInt64 <= z <= MaxInt64.

Lemma wrap64_id z : in_int64 z -> wrap64 z = z.
Proof.
  unfold in_int64, wrap64, MinInt64, MaxInt64. intros H.
  rewrite Z.mod_small; lia.
Qed.

Lemma wrap64_range z : in_int64 (wrap64 z).
Proof.
  unfold in_int64, wrap64, MinInt64, MaxInt64.
  pose proof (Z.mod_pos_bound (z - -9223372036854775808) 18446744073709551616).
  lia.
Qed.

(** ** Results: a Go [(value, error)] pair in which exactly one is set *)

Inductive result (E A : Type) : Type :=
| Ok (a : A)
| Err (e : E).
Arguments Ok {E A} a.
Arguments Err {E A} e.

#[export] Instance result_ret {E} : MRet (result E) := fun A a => Ok a.
#[export] Instance result_bind {E} : MBind (result E) :=
  fun A B f m => match m with Ok a => f a | Err e => Err e end.

Definition is_ok {E A} (r : result E A) : bool :=
  match r with Ok _ => true | Err _ => false end.

Lemma bind_ok {E A C} (f : A -> result E C) m c :
  mbind f m = Ok c <-> exists a, m = Ok a /\ f a = Ok c.
Proof.
  split; destruct m as [a|e]; cbn; [eauto | discriminate | |];
    intros (a' & H & H'); congruence.
Qed.

Lemma bind_err {E A C} (f : A -> result E C) m e :
  mbind f m = Err e <-> m = Err e \/ exists a, m = Ok a /\ f a = Err e.
Proof.
  split; destruct m as [a|e']; cbn; intros H; [eauto | | |].
  - left. congruence.
  - destruct H as [H | (a' & H & H')]; congruence.
  - destruct H as [H | (a' & H & H')]; congruence.
Qed.

(** ** Automation *)

(** Development-wide hint database: the lemmas that close common side goals. *)
Create HintDb go.
#[export] Hint Resolve wrap64_range : go.

(** Split every [if] and [match] of the goal or of the named hypothesis,
    keeping the equation of each scrutinee. *)
Ltac split_goal :=
  repeat (case_match; simplify_eq/=; try done).
Ltac split_hyp H :=
  repeat (match type of H with
          | context [match ?x with _ => _ end] => destruct x eqn:?
          end; simplify_eq/=; try done).

(** Right-nested normal form of appended lists. *)
Ltac norm_app := cbn [app]; repeat (rewrite <- app_assoc; cbn [app]).

(** Turn boolean equalities on decidable types into propositions. *)
Lemma eqb_true {A} `{EqDecision A} (x y : A) : (x ==? y) = true <-> x = y.
Proof. unfold eqb. apply bool_decide_eq_true. Qed.
Lemma eqb_false {A} `{EqDecision A} (x y : A) : (x ==? y) = false <-> x <> y.
Proof. unfold eqb. apply bool_decide_eq_false. Qed.
Lemma eqb_true_1 {A} `{EqDecision A} (x y : A) : (x ==? y) = true -> x = y.
Proof. apply eqb_true. Qed.
Lemma eqb_false_1 {A} `{EqDecision A} (x y : A) : (x ==? y) = false -> x <> y.
Proof. apply eqb_false. Qed.
Lemma eqb_refl {A} `{EqDecision A} (x : A) : (x ==? x) = true.
Proof. by apply eqb_true. Qed.

Ltac destruct_bools :=
  repeat match goal with
  | H : (_ ==? _) = true |- _ => apply eqb_true_1 in H
  | H : (_ ==? _) = false |- _ => apply eqb_false_1 in H
  | H : (_ && _)%bool = true |- _ => apply andb_true_iff in H as [? ?]
  | H : (_ || _)%bool = false |- _ => apply orb_false_iff in H as [? ?]
  | H : negb _ = true |- _ => apply negb_true_iff in H
  | H : negb _ = false |- _ => apply negb_false_iff in H
  end.

(** Comparisons of integers, as propositions; [zlia] decides arithmetic over them. *)
Ltac zbool :=
  repeat match goal with
  | H : (_ <? _) = true |- _ => apply Z.ltb_lt in H
  | H : (_ <? _) = false |- _ => apply Z.ltb_ge in H
  | H : (_ <=? _) = true |- _ => apply Z.leb_le in H
  | H : (_ <=? _) = false |- _ => apply Z.leb_gt in H
  | H : (_ =? _) = true |- _ => apply Z.eqb_eq in H
  | H : (_ =? _) = false |- _ => apply Z.eqb_neq in H
  end.
Ltac zlia := destruct_bools; zbool; lia.

(** ** Transition systems *)

(** Rule induction: what holds initially and is kept by every step holds of
    every reachable state. *)
Lemma rtc_invariant {A} (R : relation A) (P : A -> Prop) x y :
  P x -> (forall a b, P a -> R a b -> P b) -> rtc R x y -> P y.
Proof. intros Hx Hstep Hr. induction Hr; eauto. Qed.

(** ** Lists *)

Lemma Forall_elem {A} (P : A -> Prop) (l : list A) x : Forall P l -> x ∈ l -> P x.
Proof. intros H [i Hi]%list_elem_of_lookup. by eapply Forall_lookup_1. Qed.

(** ** Sums over lists *)

(** [zsum f l] adds [f x] over the elements of [l]. *)
Fixpoint zsum {A} (f : A -> Z) (l : list A) : Z :=
  match l with
  | [] => 0
  | x :: l' => f x + zsum f l'
  end.

Lemma zsum_app {A} (f : A -> Z) l1 l2 :
  zsum f (l1 ++ l2) = zsum f l1 + zsum f l2.
Proof. induction l1; cbn; lia. Qed.

Lemma zsum_insert {A} (f : A -> Z) (l : list A) i x y :
  l !! i = Some x -> zsum f (<[i:=y]> l) = zsum f l - f x + f y.
Proof.
  revert i; induction l as [|a l IH]; intros [|i] H; simplify_eq/=; [lia|].
  rewrite (IH i H). lia.
Qed.

Lemma zsum_nonneg {A} (f : A -> Z) (l : list A) :
  (forall x, x ∈ l -> 0 <= f x) -> 0 <= zsum f l.
Proof.
  induction l as [|a l IH]; cbn; intros H; [lia|].
  pose proof (H a ltac:(left)). specialize (IH ltac:(intros; apply H; by right)). lia.
Qed.

Lemma zsum_elem_le {A} (f : A -> Z) (l : list A) x :
  (forall x, x ∈ l -> 0 <= f x) -> x ∈ l -> f x <= zsum f l.
Proof.
  intros H Hx. induction Hx as [x l|x a l Hx IH]; cbn.
  - pose proof (zsum_nonneg f l ltac:(intros; apply H; by right)). lia.
  - pose proof (H a ltac:(left)). specialize (IH ltac:(intros; apply H; by right)). lia.
Qed.

Lemma zsum_ext {A} (f g : A -> Z) (l : list A) :
  (forall x, x ∈ l -> f x = g x) -> zsum f l = zsum g l.
Proof.
  induction l as [|a l IH]; cbn; intros H; [done|].
  rewrite (H a ltac:(left)), IH; [done|]. intros; apply H; by right.
Qed.

Lemma zsum_zero {A} (f : A -> Z) (l : list A) :
  (forall x, x ∈ l -> 0 <= f x) -> zsum f l = 0 -> forall x, x ∈ l -> f x = 0.
Proof.
  intros H H0 x Hx. pose proof (zsum_elem_le f l x H Hx). pose proof (H x Hx). lia.
Qed.

Lemma zsum_all_zero {A} (f : A -> Z) (l : list A) :
  (forall x, x ∈ l -> f x = 0) -> zsum f l = 0.
Proof.
  intros H. rewrite (zsum_ext f (fun _ => 0) l H). clear H. by induction l.
Qed.

Lemma len_nonneg {A} (l : list A) : 0 <= len l.
Proof. unfold len. lia. Qed.

Lemma len_app {A} (l1 l2 : list A) : len (l1 ++ l2) = len l1 + len l2.
Proof. unfold len. rewrite length_app. lia. Qed.
#[export] Hint Resolve len_nonneg : go.
