(* ===== verification/Errors.v ===== *)
(** * The public error catalogue (errors.go)

    Stable codes, the [Error] value every operation fails with, its frozen
    message, category and structured-log rendering.  The string-typed
    enumerations of the source are inductive types with the source's constants
    as constructors; the codes a caller can also make up ([ErrorCode],
    [FailureReason], [CauseCategory], whose zero value is the empty string)
    have one more constructor for any other string. *)
From S2P Require Import Prelude.

(** errors.go, [ErrorCode]. *)
Inductive ErrorCode : Type :=
| ErrorCodeConfiguration | ErrorCodeClosed | ErrorCodeValidation
| ErrorCodeSerialization | ErrorCodeRequestTooLarge | ErrorCodeDNS
| ErrorCodeConnect | ErrorCodeProxy | ErrorCodeTLS | ErrorCodeIO
| ErrorCodeAttemptTimeout | ErrorCodeOperationDeadline | ErrorCodeCancelled
| ErrorCodeOverloaded | ErrorCodeRateLimited | ErrorCodeHTTPRejected
| ErrorCodeServerFailure | ErrorCodeResponseTooLarge
| ErrorCodeResponseProtocol | ErrorCodeDescriptorVersion
| ErrorCodeOther (s : bytes).

(** The zero value [""] of [ErrorCode]. *)
Definition ErrorCodeNone : ErrorCode := ErrorCodeOther [].

(** errors.go, [DeliveryState]. *)
Inductive DeliveryState : Type :=
| DeliveryStateNotSent | DeliveryStatePossiblySent | DeliveryStateAccepted
| DeliveryStateRejected | DeliveryStateCancelledUnknown
| DeliveryStateNone.

(** errors.go, [ErrorCategory]. *)
Inductive ErrorCategory : Type :=
| ErrorCategoryConfiguration | ErrorCategoryValidation
| ErrorCategorySerialization | ErrorCategoryTransport | ErrorCategoryPublish
| ErrorCategoryDescriptorVersion
| ErrorCategoryNone.

(** errors.go, [FailureReason]. *)
Inductive FailureReason : Type :=
| FailureReasonDNSNotFound | FailureReasonDNSTimeout
| FailureReasonConnectRefused | FailureReasonConnectTimeout
| FailureReasonConnectionReset | FailureReasonConnectionClosed
| FailureReasonTLSUntrusted | FailureReasonTLSCertificateExpired
| FailureReasonTLSCertificateNotYetValid | FailureReasonTLSHostnameMismatch
| FailureReasonTLSNegotiation | FailureReasonProxyAuthRequired
| FailureReasonProxyConnectFailed | FailureReasonUnknown
| FailureReasonOther (s : bytes).

Definition FailureReasonNone : FailureReason := FailureReasonOther [].

(** errors.go, [CauseCategory]. *)
Inductive CauseCategory : Type :=
| CauseCategoryAPIKeyProvider | CauseCategoryDefaultGenerator
| CauseCategoryIdempotencyGenerator | CauseCategoryRetryEntropy
| CauseCategoryDNSResolver | CauseCategoryProxyCredentialProvider
| CauseCategoryTLSProvider | CauseCategoryCustomTransport
| CauseCategoryResponseBody | CauseCategoryObserver
| CauseCategoryHTTPRuntime | CauseCategoryTransportClose
| CauseCategorySchedulerClose | CauseCategoryOperationExecutorClose
| CauseCategoryDNSExecutorClose | CauseCategoryProxyCredentialExecutorClose
| CauseCategoryTLSExecutorClose | CauseCategoryTerminalSettlementClose
| CauseCategoryObserverClose | CauseCategoryUnknown
| CauseCategoryNone.

(** errors.go, [ValidationIssueCode]. *)
Inductive ValidationIssueCode : Type :=
| ValidationIssueCodeRequired | ValidationIssueCodeNullNotAllowed
| ValidationIssueCodeTypeMismatch | ValidationIssueCodeOutOfRange
| ValidationIssueCodeNonFinite | ValidationIssueCodeInvalidDatetime
| ValidationIssueCodeInvalidEnum | ValidationIssueCodeInvalidJSON
| ValidationIssueCodeInvalidUnicode | ValidationIssueCodeCollectionLimit
| ValidationIssueCodeCycle.

(** errors.go, [ConfigurationIssueCode]; [ConfigurationIssueCodeNone] is the
    empty string [baseURIPortIssue] returns for "no issue". *)
Inductive ConfigurationIssueCode : Type :=
| ConfigurationIssueCodeMissing | ConfigurationIssueCodeConflict
| ConfigurationIssueCodeInvalidValue | ConfigurationIssueCodeOutOfRange
| ConfigurationIssueCodeUnsupported | ConfigurationIssueCodeResourceMismatch
| ConfigurationIssueCodeNone.

(** errors.go, [ClientOptionKey]. *)
Inductive ClientOptionKey : Type :=
| ClientOptionKeyAPIKey | ClientOptionKeyAPIKeyProvider
| ClientOptionKeyBaseURI | ClientOptionKeyConnectTimeout
| ClientOptionKeyAttemptTimeout | ClientOptionKeyOperationTimeout
| ClientOptionKeyMaxAttempts | ClientOptionKeyMaxInFlightOperations
| ClientOptionKeyMaxBufferedBytes | ClientOptionKeyRetryBaseDelay
| ClientOptionKeyRetryMaxDelay | ClientOptionKeyHTTPTransportOptions
| ClientOptionKeyTransport | ClientOptionKeyExecutor
| ClientOptionKeyScheduler | ClientOptionKeyObserver
| ClientOptionKeyObserverExecutor | ClientOptionKeyTelemetry
| ClientOptionKeyDefaultValueGenerators
| ClientOptionKeyIdempotencyKeyGenerator | ClientOptionKeyMonotonicClock
| ClientOptionKeyWallClock | ClientOptionKeyRetryEntropy
| ClientOptionKeyUserAgentSuffix.

#[export] Instance ErrorCode_eq_dec : EqDecision ErrorCode.
Proof. solve_decision. Defined.
#[export] Instance DeliveryState_eq_dec : EqDecision DeliveryState.
Proof. solve_decision. Defined.
#[export] Instance ErrorCategory_eq_dec : EqDecision ErrorCategory.
Proof. solve_decision. Defined.
#[export] Instance FailureReason_eq_dec : EqDecision FailureReason.
Proof. solve_decision. Defined.
#[export] Instance CauseCategory_eq_dec : EqDecision CauseCategory.
Proof. solve_decision. Defined.
#[export] Instance ValidationIssueCode_eq_dec : EqDecision ValidationIssueCode.
Proof. solve_decision. Defined.
#[export] Instance ConfigurationIssueCode_eq_dec : EqDecision ConfigurationIssueCode.
Proof. solve_decision. Defined.
#[export] Instance ClientOptionKey_eq_dec : EqDecision ClientOptionKey.
Proof. solve_decision. Defined.

(** errors.go, [ValidationIssue]. *)
Record ValidationIssue := mkValidationIssue {
  ValidationIssue_Code : ValidationIssueCode;
  ValidationIssue_Path : bytes
}.

(** errors.go, [ConfigurationIssue]. *)
Record ConfigurationIssue := mkConfigurationIssue {
  ConfigurationIssue_Code : ConfigurationIssueCode;
  ConfigurationIssue_OptionKeys : list ClientOptionKey
}.

(** errors.go, [Error]. *)
Record Error := mkError {
  Error_Code : ErrorCode;
  Error_DeliveryState : DeliveryState;
  Error_Retryable : bool;
  Error_OperationID : bytes;
  Error_IdempotencyKey : bytes;
  Error_AttemptCount : Z;
  Error_HTTPStatus : Z;
  Error_FailureReason : FailureReason;
  Error_CauseCategory : CauseCategory;
  Error_CompressedBytes : Z;
  Error_DecompressedBytes : Z;
  Error_ResponseHeaderFields : Z;
  Error_ResponseHeaderBytes : Z;
  Error_Truncated : bool;
  Error_ValidationIssues : list ValidationIssue;
  Error_ConfigurationIssues : list ConfigurationIssue;
  Error_IssueCount : Z;
  Error_IssuesTruncated : bool
}.

(** [Error{Code: c, DeliveryState: d, OperationID: o, IdempotencyKey: k,
    AttemptCount: n}]: the literal most error paths build. *)
Definition Error_lit (c : ErrorCode) (d : DeliveryState) (o k : bytes) (n : Z) : Error :=
  mkError c d false o k n 0 FailureReasonNone CauseCategoryNone 0 0 0 0 false
    [] [] 0 false.

(** Assignments to single fields of an [Error]. *)
Definition set_DeliveryState (d : DeliveryState) (e : Error) : Error :=
  let '(mkError c _ r o k n h f u cb db hf hb t v g ic it) := e in
  mkError c d r o k n h f u cb db hf hb t v g ic it.
Definition set_Code (c : ErrorCode) (e : Error) : Error :=
  let '(mkError _ d r o k n h f u cb db hf hb t v g ic it) := e in
  mkError c d r o k n h f u cb db hf hb t v g ic it.
Definition set_Retryable (r : bool) (e : Error) : Error :=
  let '(mkError c d _ o k n h f u cb db hf hb t v g ic it) := e in
  mkError c d r o k n h f u cb db hf hb t v g ic it.
Definition set_FailureReason (f : FailureReason) (e : Error) : Error :=
  let '(mkError c d r o k n h _ u cb db hf hb t v g ic it) := e in
  mkError c d r o k n h f u cb db hf hb t v g ic it.
Definition set_CauseCategory (u : CauseCategory) (e : Error) : Error :=
  let '(mkError c d r o k n h f _ cb db hf hb t v g ic it) := e in
  mkError c d r o k n h f u cb db hf hb t v g ic it.
Definition set_OperationID (o : bytes) (e : Error) : Error :=
  let '(mkError c d r _ k n h f u cb db hf hb t v g ic it) := e in
  mkError c d r o k n h f u cb db hf hb t v g ic it.
Definition set_ResponseHeaders (hf hb : Z) (e : Error) : Error :=
  let '(mkError c d r o k n h f u cb db _ _ t v g ic it) := e in
  mkError c d r o k n h f u cb db hf hb t v g ic it.
(** [e.OperationID, e.IdempotencyKey, e.AttemptCount = o, k, n]. *)
Definition set_identity (o k : bytes) (n : Z) (e : Error) : Error :=
  let '(mkError c d r _ _ _ h f u cb db hf hb t v g ic it) := e in
  mkError c d r o k n h f u cb db hf hb t v g ic it.

(** errors.go, method [Error] of [Error]: the frozen public message. *)
Definition Error_Error (e : option Error) : bytes :=
  match e with
  | None => []
  | Some e =>
    match Error_Code e with
    | ErrorCodeConfiguration => B "Invalid transport configuration"
    | ErrorCodeClosed => B "Client is closed"
    | ErrorCodeValidation => B "Message validation failed"
    | ErrorCodeSerialization => B "Message serialization failed"
    | ErrorCodeRequestTooLarge => B "Request exceeds the size limit"
    | ErrorCodeDNS => B "DNS resolution failed"
    | ErrorCodeConnect => B "Connection failed"
    | ErrorCodeProxy => B "Proxy connection failed"
    | ErrorCodeTLS => B "TLS negotiation failed"
    | ErrorCodeIO => B "Transport I/O failed"
    | ErrorCodeAttemptTimeout => B "Transport attempt timed out"
    | ErrorCodeOperationDeadline => B "Operation deadline exceeded"
    | ErrorCodeCancelled => B "Operation cancelled"
    | ErrorCodeOverloaded => B "Transport is at capacity"
    | ErrorCodeRateLimited => B "Request was rate limited"
    | ErrorCodeHTTPRejected => B "Request was rejected"
    | ErrorCodeServerFailure => B "Server failed to process the request"
    | ErrorCodeResponseTooLarge => B "Response exceeds the size limit"
    | ErrorCodeResponseProtocol => B "Response protocol is invalid"
    | ErrorCodeDescriptorVersion => B "Descriptor version is not supported"
    | ErrorCodeOther _ => []
    end
  end.

(** errors.go, methods [String] and [Format] of [Error], for a verb; [quote] is what fmt
    writes for [%q]. *)
Definition Error_String (e : option Error) : bytes := Error_Error e.
Definition Error_Format (quote : bytes -> bytes) (e : option Error) (verb : Z) : bytes :=
  if verb =? 113 then quote (Error_Error e) else Error_Error e.

(** errors.go, method [Category] of [Error]. *)
Definition Error_Category (e : option Error) : ErrorCategory :=
  match e with
  | None => ErrorCategoryNone
  | Some e =>
    match Error_Code e with
    | ErrorCodeConfiguration | ErrorCodeClosed => ErrorCategoryConfiguration
    | ErrorCodeValidation => ErrorCategoryValidation
    | ErrorCodeSerialization | ErrorCodeRequestTooLarge => ErrorCategorySerialization
    | ErrorCodeDNS | ErrorCodeConnect | ErrorCodeProxy | ErrorCodeTLS | ErrorCodeIO
    | ErrorCodeAttemptTimeout | ErrorCodeOperationDeadline | ErrorCodeCancelled
    | ErrorCodeOverloaded => ErrorCategoryTransport
    | ErrorCodeRateLimited | ErrorCodeHTTPRejected | ErrorCodeServerFailure
    | ErrorCodeResponseTooLarge | ErrorCodeResponseProtocol => ErrorCategoryPublish
    | ErrorCodeDescriptorVersion => ErrorCategoryDescriptorVersion
    | ErrorCodeOther _ => ErrorCategoryNone
    end
  end.

(** One attribute of a structured log value. *)
Inductive LogAttr : Type :=
| LogCode (c : ErrorCode)
| LogCategory (c : ErrorCategory)
| LogDelivery (d : DeliveryState)
| LogBool (name : bytes) (b : bool)
| LogInt (name : bytes) (n : Z).

(** errors.go, method [LogValue] of [Error]. *)
Definition Error_LogValue (e : option Error) : list LogAttr :=
  match e with
  | None => []
  | Some e =>
    (match Error_Category (Some e) with
     | ErrorCategoryNone => []
     | c => [LogCode (Error_Code e); LogCategory c]
     end) ++
    (match Error_DeliveryState e with
     | DeliveryStateNone => []
     | d => [LogDelivery d]
     end) ++
    [LogBool (B "retryable") (Error_Retryable e);
     LogInt (B "attempt_count") (Error_AttemptCount e);
     LogInt (B "http_status") (Error_HTTPStatus e);
     LogInt (B "compressed_bytes") (Error_CompressedBytes e);
     LogInt (B "decompressed_bytes") (Error_DecompressedBytes e);
     LogInt (B "response_header_fields") (Error_ResponseHeaderFields e);
     LogInt (B "response_header_bytes") (Error_ResponseHeaderBytes e);
     LogBool (B "truncated") (Error_Truncated e)]
  end.

(** errors.go, [IsRetryable]. *)
Definition IsRetryable (e : option Error) : bool :=
  match e with None => false | Some e => Error_Retryable e end.

(** config.go, [configurationError]. *)
Definition configurationError (code : ConfigurationIssueCode) (keys : list ClientOptionKey) : Error :=
  mkError ErrorCodeConfiguration DeliveryStateNotSent false [] [] 0 0
    FailureReasonNone CauseCategoryNone 0 0 0 0 false []
    [mkConfigurationIssue code keys] 1 false.

(** operation.go, [hookConfigurationError]. *)
Definition hookConfigurationError (state : DeliveryState) (operationID key : bytes)
    (attempts : Z) (option : ClientOptionKey) (cause : CauseCategory) : Error :=
  mkError ErrorCodeConfiguration state false operationID key attempts 0
    FailureReasonNone cause 0 0 0 0 false []
    [mkConfigurationIssue ConfigurationIssueCodeInvalidValue [option]] 1 false.

(** runtime.go, [cancelledError] and [operationError]. *)
Definition cancelledError (d : DeliveryState) : Error :=
  Error_lit ErrorCodeCancelled d [] [] 0.
Definition operationError (c : ErrorCode) : Error :=
  Error_lit c DeliveryStateNotSent [] [] 0.

(** A code of the catalogue, as opposed to a string a caller made up. *)
Definition catalogued (c : ErrorCode) : bool :=
  match c with ErrorCodeOther _ => false | _ => true end.

(** Printing an error shows its code and nothing else that it holds, whatever the verb. *)
Lemma printing_shows_the_code quote verb e e' : Error_Code e = Error_Code e' ->
  Error_Format quote (Some e) verb = Error_Format quote (Some e') verb /\ Error_String (Some e) = Error_String (Some e').
Proof. intros He. unfold Error_Format, Error_String, Error_Error. by rewrite He. Qed.

(** Every catalogued code has a message and a category, and no other code has
    either: the message and the category never disagree on what is known. *)
Lemma catalogue_complete e :
  (catalogued (Error_Code e) = true <-> Error_Error (Some e) <> []) /\
  (catalogued (Error_Code e) = true <-> Error_Category (Some e) <> ErrorCategoryNone).
Proof. unfold Error_Error, Error_Category. destruct (Error_Code e); naive_solver. Qed.
