(* ===== verification/RuntimeState.v ===== *)
(** * Admission control and lifecycle of the runtime (state.go)

    The shared state of a [Runtime]: in-flight and buffered-byte accounting,
    diagnostic counters, and the closing protocol.  Every critical section of
    the source is one definition; [Concurrent] interleaves them. *)
From S2P Require Import Prelude Errors.

Definition requestWorkspaceBytes : Z := 1048576.
Definition responseWorkspaceBytes : Z := 1048576.
Definition parserScratchBytes : Z := 262144.
Definition initialOperationReservationBytes : Z :=
  requestWorkspaceBytes + responseWorkspaceBytes + parserScratchBytes.
Definition maximumDiagnosticCounter : Z := 9007199254740991.

(** state.go, [RuntimeDiagnostics]. *)
Record RuntimeDiagnostics := mkDiagnostics {
  InFlightOperations : Z;
  BufferedBytes : Z;
  ConcurrencyOverloadRejections : Z;
  ByteOverloadRejections : Z;
  ResponseHeaderLimitFailures : Z;
  ResponseCloseFailures : Z;
  DroppedObserverEvents : Z;
  ObserverFailures : Z;
  TelemetryFailures : Z;
  Closed : bool
}.

(** state.go, [runtimeState].  [wg] is the counter of the wait group and
    [closeDone] whether the channel of that name has been closed; the monotonic
    clock is an input of the operations that call it. *)
Record runtimeState := mkRuntimeState {
  maxInFlightOperations : Z;
  maxBufferedBytes : Z;
  operationTimeout : Z;
  diagnostics : RuntimeDiagnostics;
  closing : bool;
  closeDone : bool;
  wg : Z
}.

(** state.go, [operationPermit], without the contexts it carries. *)
Record operationPermit := mkPermit {
  activeCalls : Z;
  releaseRequested : bool;
  heldBytes : Z;
  startedNanos : Z;
  exclusiveDeadline : Z;
  released : bool
}.

Definition set_diagnostics (d : RuntimeDiagnostics) (s : runtimeState) : runtimeState :=
  mkRuntimeState (maxInFlightOperations s) (maxBufferedBytes s) (operationTimeout s)
    d (closing s) (closeDone s) (wg s).
Definition set_wg (n : Z) (s : runtimeState) : runtimeState :=
  mkRuntimeState (maxInFlightOperations s) (maxBufferedBytes s) (operationTimeout s)
    (diagnostics s) (closing s) (closeDone s) n.

(** Assignment of the two accounted quantities. *)
Definition set_usage (n b : Z) (d : RuntimeDiagnostics) : RuntimeDiagnostics :=
  mkDiagnostics n b (ConcurrencyOverloadRejections d) (ByteOverloadRejections d)
    (ResponseHeaderLimitFailures d) (ResponseCloseFailures d) (DroppedObserverEvents d)
    (ObserverFailures d) (TelemetryFailures d) (Closed d).

(** state.go, [newRuntimeState]. *)
Definition newRuntimeState (maxOps maxBytes timeout : Z) : runtimeState :=
  mkRuntimeState maxOps maxBytes timeout
    (mkDiagnostics 0 0 0 0 0 0 0 0 0 false) false false 0.

(** state.go, [saturatingAdd]: the new value of the counter. *)
Definition saturatingAdd (counter delta : Z) : Z :=
  if (delta <=? 0) || (maximumDiagnosticCounter <=? counter) then counter
  else if wrap64 (maximumDiagnosticCounter - counter) <? delta
  then maximumDiagnosticCounter
  else wrap64 (counter + delta).

(** state.go, [addNanosSaturated]. *)
Definition addNanosSaturated (value delta : Z) : Z :=
  if (0 <? delta) && (wrap64 (MaxInt64 - delta) <? value) then MaxInt64
  else if (delta <? 0) && (value <? wrap64 (MinInt64 - delta)) then MinInt64
  else wrap64 (value + delta).

(** Counter increments of [RuntimeDiagnostics]. *)
Definition bump_concurrency_overload (d : RuntimeDiagnostics) : RuntimeDiagnostics :=
  mkDiagnostics (InFlightOperations d) (BufferedBytes d)
    (saturatingAdd (ConcurrencyOverloadRejections d) 1) (ByteOverloadRejections d)
    (ResponseHeaderLimitFailures d) (ResponseCloseFailures d) (DroppedObserverEvents d)
    (ObserverFailures d) (TelemetryFailures d) (Closed d).
Definition bump_byte_overload (d : RuntimeDiagnostics) : RuntimeDiagnostics :=
  mkDiagnostics (InFlightOperations d) (BufferedBytes d)
    (ConcurrencyOverloadRejections d) (saturatingAdd (ByteOverloadRejections d) 1)
    (ResponseHeaderLimitFailures d) (ResponseCloseFailures d) (DroppedObserverEvents d)
    (ObserverFailures d) (TelemetryFailures d) (Closed d).

(** state.go, [recordResponseHeaderLimitFailure], [recordResponseCloseFailure],
    [addDroppedObserverEvents], [addObserverFailure], [addTelemetryFailure]. *)
Definition recordResponseHeaderLimitFailure (s : runtimeState) : runtimeState :=
  let d := diagnostics s in
  set_diagnostics (mkDiagnostics (InFlightOperations d) (BufferedBytes d)
    (ConcurrencyOverloadRejections d) (ByteOverloadRejections d)
    (saturatingAdd (ResponseHeaderLimitFailures d) 1) (ResponseCloseFailures d)
    (DroppedObserverEvents d) (ObserverFailures d) (TelemetryFailures d) (Closed d)) s.
Definition recordResponseCloseFailure (s : runtimeState) : runtimeState :=
  let d := diagnostics s in
  set_diagnostics (mkDiagnostics (InFlightOperations d) (BufferedBytes d)
    (ConcurrencyOverloadRejections d) (ByteOverloadRejections d)
    (ResponseHeaderLimitFailures d) (saturatingAdd (ResponseCloseFailures d) 1)
    (DroppedObserverEvents d) (ObserverFailures d) (TelemetryFailures d) (Closed d)) s.
Definition addDroppedObserverEvents (delta : Z) (s : runtimeState) : runtimeState :=
  let d := diagnostics s in
  set_diagnostics (mkDiagnostics (InFlightOperations d) (BufferedBytes d)
    (ConcurrencyOverloadRejections d) (ByteOverloadRejections d)
    (ResponseHeaderLimitFailures d) (ResponseCloseFailures d)
    (saturatingAdd (DroppedObserverEvents d) delta) (ObserverFailures d)
    (TelemetryFailures d) (Closed d)) s.
Definition addObserverFailure (s : runtimeState) : runtimeState :=
  let d := diagnostics s in
  set_diagnostics (mkDiagnostics (InFlightOperations d) (BufferedBytes d)
    (ConcurrencyOverloadRejections d) (ByteOverloadRejections d)
    (ResponseHeaderLimitFailures d) (ResponseCloseFailures d) (DroppedObserverEvents d)
    (saturatingAdd (ObserverFailures d) 1) (TelemetryFailures d) (Closed d)) s.
Definition addTelemetryFailure (s : runtimeState) : runtimeState :=
  let d := diagnostics s in
  set_diagnostics (mkDiagnostics (InFlightOperations d) (BufferedBytes d)
    (ConcurrencyOverloadRejections d) (ByteOverloadRejections d)
    (ResponseHeaderLimitFailures d) (ResponseCloseFailures d) (DroppedObserverEvents d)
    (ObserverFailures d) (saturatingAdd (TelemetryFailures d) 1) (Closed d)) s.

(** state.go, [admit].  Inputs: whether the deadline context has already
    expired, the answer of the monotonic clock ([None] when the hook panicked)
    and [time.Until] of the caller's deadline, if it has one. *)
Definition admitOperation (s : runtimeState) (deadlineExpired : bool) (clock : option Z)
    (untilParent : option Z) : runtimeState * result Error operationPermit :=
  let d := diagnostics s in
  if closing s || Closed d then
    (s, Err (Error_lit ErrorCodeClosed DeliveryStateNotSent [] [] 0))
  else if maxInFlightOperations s <=? InFlightOperations d then
    (set_diagnostics (bump_concurrency_overload d) s,
     Err (Error_lit ErrorCodeOverloaded DeliveryStateNotSent [] [] 0))
  else if maxBufferedBytes s - initialOperationReservationBytes <? BufferedBytes d then
    (set_diagnostics (bump_byte_overload d) s,
     Err (Error_lit ErrorCodeOverloaded DeliveryStateNotSent [] [] 0))
  else if deadlineExpired then
    (s, Err (Error_lit ErrorCodeOperationDeadline DeliveryStateNotSent [] [] 0))
  else
    match clock with
    | None =>
      (s, Err (hookConfigurationError DeliveryStateNotSent [] [] 0
                 ClientOptionKeyMonotonicClock CauseCategoryUnknown))
    | Some started =>
      let deadline := addNanosSaturated started (operationTimeout s) in
      let deadline :=
        match untilParent with
        | None => deadline
        | Some until =>
          let remaining := if until <? 0 then 0 else until in
          let parent := addNanosSaturated started remaining in
          if parent <? deadline then parent else deadline
        end in
      (set_wg (wg s + 1)
         (set_diagnostics
            (set_usage (InFlightOperations d + 1)
               (BufferedBytes d + initialOperationReservationBytes) d) s),
       Ok (mkPermit 0 false initialOperationReservationBytes started deadline false))
    end.

(** state.go, [release]: the section under [ownershipMu], and whether the
    caller goes on to [finishRelease]. *)
Definition release (p : operationPermit) : operationPermit * bool :=
  let finalize := (activeCalls p =? 0) && negb (released p) in
  (mkPermit (activeCalls p) true (heldBytes p) (startedNanos p) (exclusiveDeadline p)
     (if finalize then true else released p), finalize).

(** state.go, [beginCall]. *)
Definition beginCall (p : operationPermit) : operationPermit :=
  mkPermit (activeCalls p + 1) (releaseRequested p) (heldBytes p) (startedNanos p)
    (exclusiveDeadline p) (released p).

(** state.go, [endCall]: the section under [ownershipMu], and whether the
    caller goes on to [finishRelease]. *)
Definition endCall (p : operationPermit) : operationPermit * bool :=
  let n := activeCalls p - 1 in
  let finalize := (n =? 0) && releaseRequested p && negb (released p) in
  (mkPermit n (releaseRequested p) (heldBytes p) (startedNanos p) (exclusiveDeadline p)
     (if finalize then true else released p), finalize).

(** state.go, [finishRelease]: the section under [state.mu]; the wait group is
    signalled afterwards by [wgDone]. *)
Definition finishRelease (p : operationPermit) (s : runtimeState) : runtimeState :=
  let d := diagnostics s in
  set_diagnostics (set_usage (InFlightOperations d - 1) (BufferedBytes d - heldBytes p) d) s.
Definition wgDone (s : runtimeState) : runtimeState := set_wg (wg s - 1) s.

(** state.go, [shrinkRequest]. *)
Definition shrinkRequest (serializedBytes : Z) (p : operationPermit) (s : runtimeState)
    : operationPermit * runtimeState :=
  if (serializedBytes <? 0) || (requestWorkspaceBytes <=? serializedBytes) then (p, s)
  else
    let releasedBytes := requestWorkspaceBytes - serializedBytes in
    let d := diagnostics s in
    (mkPermit (activeCalls p) (releaseRequested p) (heldBytes p - releasedBytes)
       (startedNanos p) (exclusiveDeadline p) (released p),
     set_diagnostics (set_usage (InFlightOperations d) (BufferedBytes d - releasedBytes) d) s).

(** state.go, [snapshot]. *)
Definition snapshot (s : runtimeState) : RuntimeDiagnostics := diagnostics s.

(** state.go, [beginClose]. *)
Definition beginClose (s : runtimeState) : runtimeState * bool :=
  if closing s || Closed (diagnostics s) then (s, false)
  else (mkRuntimeState (maxInFlightOperations s) (maxBufferedBytes s) (operationTimeout s)
          (diagnostics s) true (closeDone s) (wg s), true).

(** state.go, [waitForOperations] returns when the counter is zero, and
    [waitUntilClosed] when the channel is closed. *)
Definition waitForOperations (s : runtimeState) : bool := wg s =? 0.
Definition waitUntilClosed (s : runtimeState) : bool := closeDone s.

(** state.go, [finishClose]; [None] is the panic of closing a closed channel. *)
Definition finishClose (s : runtimeState) : option runtimeState :=
  let d := diagnostics s in
  if Closed d then Some s
  else if closeDone s then None
  else Some (mkRuntimeState (maxInFlightOperations s) (maxBufferedBytes s) (operationTimeout s)
    (mkDiagnostics (InFlightOperations d) (BufferedBytes d) (ConcurrencyOverloadRejections d)
       (ByteOverloadRejections d) (ResponseHeaderLimitFailures d) (ResponseCloseFailures d)
       (DroppedObserverEvents d) (ObserverFailures d) (TelemetryFailures d) true)
    (closing s) true (wg s)).

(** ** Saturating arithmetic *)

(** The counter never leaves [0, 2^53 - 1] and never decreases. *)
Lemma saturatingAdd_bounds c d :
  0 <= c <= maximumDiagnosticCounter -> in_int64 d ->
  saturatingAdd c d = Z.min maximumDiagnosticCounter (c + Z.max 0 d).
Proof.
  unfold saturatingAdd, in_int64, maximumDiagnosticCounter, MinInt64, MaxInt64.
  intros Hc Hd. rewrite (wrap64_id (9007199254740991 - c)) by (unfold in_int64, MinInt64, MaxInt64; lia).
  destruct (d <=? 0) eqn:?; [cbn; lia|].
  destruct (9007199254740991 <=? c) eqn:?; [cbn; lia|]. cbn.
  destruct (9007199254740991 - c <? d) eqn:?; [lia|].
  rewrite wrap64_id by (unfold in_int64, MinInt64, MaxInt64; lia). lia.
Qed.

(** The exclusive deadline of an operation is the exact sum, clamped to the
    64-bit range instead of wrapped. *)
Lemma addNanosSaturated_clamp_aux v d :
  in_int64 v -> in_int64 d ->
  addNanosSaturated v d = Z.max MinInt64 (Z.min MaxInt64 (v + d)).
Proof.
  unfold addNanosSaturated, in_int64. intros Hv Hd.
  destruct (0 <? d) eqn:Hpos; cbn.
  - rewrite (wrap64_id (MaxInt64 - d)) by (unfold in_int64, MinInt64, MaxInt64 in *; lia).
    destruct (MaxInt64 - d <? v) eqn:?; [unfold MinInt64, MaxInt64 in *; lia|].
    destruct (d <? 0) eqn:?; [lia|]. cbn.
    rewrite wrap64_id by (unfold in_int64, MinInt64, MaxInt64 in *; lia).
    unfold MinInt64, MaxInt64 in *; lia.
  - destruct (d <? 0) eqn:Hneg; cbn.
    + rewrite (wrap64_id (MinInt64 - d)) by (unfold in_int64, MinInt64, MaxInt64 in *; lia).
      destruct (v <? MinInt64 - d) eqn:?; [unfold MinInt64, MaxInt64 in *; lia|].
      rewrite wrap64_id by (unfold in_int64, MinInt64, MaxInt64 in *; lia).
      unfold MinInt64, MaxInt64 in *; lia.
    + rewrite wrap64_id by (unfold in_int64, MinInt64, MaxInt64 in *; lia).
      unfold MinInt64, MaxInt64 in *; lia.
Qed.

(** ** Interleavings

    Goroutines share one [runtimeState] and each admitted operation has one
    permit.  A step is one critical section; the two sections of
    [finishRelease] (the accounting under [state.mu], then [wg.Done]) are
    separate steps, so any interleaving between them is covered. *)
Module Concurrent.

(** How far the release of a permit has gone. *)
Inductive phase := Held | Finalizing | Settled | Done.

Record slot := mkSlot {
  slot_permit : operationPermit;
  slot_shrunk : bool;   (** [shrinkRequest] has been called *)
  slot_phase : phase
}.

(** Where the goroutine that won [beginClose] stands in [Runtime.Close]. *)
Inductive closer := CloserIdle | CloserWaiting | CloserDrained | CloserFinished.

Record system := mkSystem {
  sys_state : runtimeState;
  sys_slots : list slot;
  sys_closer : closer
}.

Definition after_finalize (finalize : bool) (ph : phase) : phase :=
  if finalize then Finalizing else ph.

(** Steps.  [beginCall] and [shrinkRequest] are called by the operation's own
    goroutine before its deferred [release] runs (operation.go, [sendAdmitted]),
    [shrinkRequest] once; [endCall] by the goroutine of a call that began;
    [release] may be called any number of times. *)
Inductive step : system -> system -> Prop :=
| step_admit s sl c dl clk par s' p :
    admitOperation s dl clk par = (s', Ok p) ->
    step (mkSystem s sl c) (mkSystem s' (sl ++ [mkSlot p false Held]) c)
| step_reject s sl c dl clk par s' e :
    admitOperation s dl clk par = (s', Err e) ->
    step (mkSystem s sl c) (mkSystem s' sl c)
| step_beginCall s sl c i p sh :
    sl !! i = Some (mkSlot p sh Held) -> releaseRequested p = false ->
    step (mkSystem s sl c) (mkSystem s (<[i := mkSlot (beginCall p) sh Held]> sl) c)
| step_endCall s sl c i p sh ph p' fin :
    sl !! i = Some (mkSlot p sh ph) -> 0 < activeCalls p -> endCall p = (p', fin) ->
    step (mkSystem s sl c)
         (mkSystem s (<[i := mkSlot p' sh (after_finalize fin ph)]> sl) c)
| step_release s sl c i p sh ph p' fin :
    sl !! i = Some (mkSlot p sh ph) -> release p = (p', fin) ->
    step (mkSystem s sl c)
         (mkSystem s (<[i := mkSlot p' sh (after_finalize fin ph)]> sl) c)
| step_finishRelease s sl c i p sh :
    sl !! i = Some (mkSlot p sh Finalizing) ->
    step (mkSystem s sl c)
         (mkSystem (finishRelease p s) (<[i := mkSlot p sh Settled]> sl) c)
| step_wgDone s sl c i p sh :
    sl !! i = Some (mkSlot p sh Settled) ->
    step (mkSystem s sl c) (mkSystem (wgDone s) (<[i := mkSlot p sh Done]> sl) c)
| step_shrink s sl c i p n p' s' :
    sl !! i = Some (mkSlot p false Held) -> releaseRequested p = false ->
    shrinkRequest n p s = (p', s') ->
    step (mkSystem s sl c) (mkSystem s' (<[i := mkSlot p' true Held]> sl) c)
| step_recordHeaderLimit s sl c :
    step (mkSystem s sl c) (mkSystem (recordResponseHeaderLimitFailure s) sl c)
| step_recordClose s sl c :
    step (mkSystem s sl c) (mkSystem (recordResponseCloseFailure s) sl c)
| step_dropped s sl c n :
    in_int64 n ->
    step (mkSystem s sl c) (mkSystem (addDroppedObserverEvents n s) sl c)
| step_observer s sl c :
    step (mkSystem s sl c) (mkSystem (addObserverFailure s) sl c)
| step_telemetry s sl c :
    step (mkSystem s sl c) (mkSystem (addTelemetryFailure s) sl c)
| step_beginClose s sl c s' :
    beginClose s = (s', true) ->
    step (mkSystem s sl c) (mkSystem s' sl CloserWaiting)
| step_drained s sl :
    waitForOperations s = true ->
    step (mkSystem s sl CloserWaiting) (mkSystem s sl CloserDrained)
| step_finishClose s sl s' :
    finishClose s = Some s' ->
    step (mkSystem s sl CloserDrained) (mkSystem s' sl CloserFinished).

Definition initial (maxOps maxBytes timeout : Z) : system :=
  mkSystem (newRuntimeState maxOps maxBytes timeout) [] CloserIdle.

Definition reachable (maxOps maxBytes timeout : Z) (y : system) : Prop :=
  rtc step (initial maxOps maxBytes timeout) y.

(** What each permit contributes to the shared counters. *)
Definition slot_ops (x : slot) : Z :=
  match slot_phase x with Held | Finalizing => 1 | _ => 0 end.
Definition slot_bytes (x : slot) : Z :=
  match slot_phase x with Held | Finalizing => heldBytes (slot_permit x) | _ => 0 end.
Definition slot_wg (x : slot) : Z :=
  match slot_phase x with Done => 0 | _ => 1 end.

Definition phase_eqb (a b : phase) : bool :=
  match a, b with
  | Held, Held | Finalizing, Finalizing | Settled, Settled | Done, Done => true
  | _, _ => false
  end.

(** A permit on its own: the ownership fields agree with the phase, and what it
    holds is at least the response workspace and the parser scratch space. *)
Definition slot_ok (x : slot) : Prop :=
  let p := slot_permit x in
  0 <= activeCalls p /\
  released p = negb (phase_eqb (slot_phase x) Held) /\
  (released p = true -> activeCalls p = 0 /\ releaseRequested p = true) /\
  (releaseRequested p = true -> released p = false -> 0 < activeCalls p) /\
  responseWorkspaceBytes + parserScratchBytes <= heldBytes p <= initialOperationReservationBytes /\
  (slot_shrunk x = false -> heldBytes p = initialOperationReservationBytes).

Definition counter_ok (c : Z) : Prop := 0 <= c <= maximumDiagnosticCounter.

Definition counters_ok (d : RuntimeDiagnostics) : Prop :=
  counter_ok (ConcurrencyOverloadRejections d) /\ counter_ok (ByteOverloadRejections d) /\
  counter_ok (ResponseHeaderLimitFailures d) /\ counter_ok (ResponseCloseFailures d) /\
  counter_ok (DroppedObserverEvents d) /\ counter_ok (ObserverFailures d) /\
  counter_ok (TelemetryFailures d).

(** The closing protocol: flags, channel and drain agree. *)
Definition closer_ok (s : runtimeState) (c : closer) : Prop :=
  closing s = (match c with CloserIdle => false | _ => true end) /\
  Closed (diagnostics s) = (match c with CloserFinished => true | _ => false end) /\
  closeDone s = Closed (diagnostics s) /\
  (match c with CloserDrained | CloserFinished => wg s = 0 | _ => True end).

Record inv (maxOps maxBytes : Z) (y : system) : Prop := {
  inv_limits : maxInFlightOperations (sys_state y) = maxOps /\
               maxBufferedBytes (sys_state y) = maxBytes;
  inv_slots : Forall slot_ok (sys_slots y);
  inv_ops : InFlightOperations (diagnostics (sys_state y)) = zsum slot_ops (sys_slots y);
  inv_bytes : BufferedBytes (diagnostics (sys_state y)) = zsum slot_bytes (sys_slots y);
  inv_wg : wg (sys_state y) = zsum slot_wg (sys_slots y);
  inv_max_ops : InFlightOperations (diagnostics (sys_state y)) <= Z.max 0 maxOps;
  inv_max_bytes : BufferedBytes (diagnostics (sys_state y)) <= Z.max 0 maxBytes;
  inv_counters : counters_ok (diagnostics (sys_state y));
  inv_closer : closer_ok (sys_state y) (sys_closer y)
}.

Lemma saturatingAdd_ok c d : counter_ok c -> in_int64 d -> counter_ok (saturatingAdd c d).
Proof.
  intros Hc Hd. unfold counter_ok in *. rewrite saturatingAdd_bounds by done.
  unfold maximumDiagnosticCounter in *. lia.
Qed.

Lemma in_int64_1 : in_int64 1.
Proof. unfold in_int64, MinInt64, MaxInt64. lia. Qed.

Lemma slot_wg_nonneg x : 0 <= slot_wg x.
Proof. unfold slot_wg. destruct (slot_phase x); lia. Qed.
Lemma slot_ops_nonneg x : 0 <= slot_ops x.
Proof. unfold slot_ops. destruct (slot_phase x); lia. Qed.
Lemma slot_bytes_nonneg x : slot_ok x -> 0 <= slot_bytes x.
Proof.
  unfold slot_ok, slot_bytes, responseWorkspaceBytes, parserScratchBytes.
  destruct (slot_phase x); lia.
Qed.

Create HintDb runtime.
#[local] Hint Resolve saturatingAdd_ok in_int64_1 slot_wg_nonneg slot_ops_nonneg
  slot_bytes_nonneg : runtime.

(** A drained runtime has no permit left that could still signal. *)
Lemma drained_no_slot (sl : list slot) i x :
  zsum slot_wg sl = 0 -> sl !! i = Some x -> slot_phase x = Done.
Proof.
  intros H0 Hi.
  assert (slot_wg x = 0) as Hx.
  { eapply zsum_zero; eauto using list_elem_of_lookup_2 with runtime. }
  unfold slot_wg in Hx. destruct (slot_phase x); [lia..|done].
Qed.

(** Replacing one permit: the shared state moves by the difference of its
    contributions, and no contribution grows. *)
Lemma inv_replace mo mb s s' sl c i x x' :
  inv mo mb (mkSystem s sl c) -> sl !! i = Some x -> slot_ok x' ->
  maxInFlightOperations s' = maxInFlightOperations s ->
  maxBufferedBytes s' = maxBufferedBytes s ->
  InFlightOperations (diagnostics s') = InFlightOperations (diagnostics s) - slot_ops x + slot_ops x' ->
  BufferedBytes (diagnostics s') = BufferedBytes (diagnostics s) - slot_bytes x + slot_bytes x' ->
  wg s' = wg s - slot_wg x + slot_wg x' ->
  slot_ops x' <= slot_ops x -> slot_bytes x' <= slot_bytes x ->
  counters_ok (diagnostics s') -> closer_ok s' c ->
  inv mo mb (mkSystem s' (<[i := x']> sl) c).
Proof.
  intros [[Hl1 Hl2] Hsl Ho Hb Hw Hmo Hmb Hc Hcl] Hi Hx' E1 E2 E3 E4 E5 L1 L2 Hc' Hcl'.
  cbn in *. constructor; cbn; try done.
  - split; congruence.
  - by apply Forall_insert.
  - rewrite (zsum_insert _ _ _ _ _ Hi). lia.
  - rewrite (zsum_insert _ _ _ _ _ Hi). lia.
  - rewrite (zsum_insert _ _ _ _ _ Hi). lia.
  - lia.
  - lia.
Qed.

(** A change of a permit that leaves the shared state alone. *)
Lemma inv_local mo mb s sl c i x x' :
  inv mo mb (mkSystem s sl c) -> sl !! i = Some x -> slot_ok x' ->
  slot_ops x' = slot_ops x -> slot_bytes x' = slot_bytes x -> slot_wg x' = slot_wg x ->
  inv mo mb (mkSystem s (<[i := x']> sl) c).
Proof.
  intros H Hi Hx' E1 E2 E3.
  eapply inv_replace; eauto; try lia; [apply (inv_counters _ _ _ H) | apply (inv_closer _ _ _ H)].
Qed.

(** A step that touches only counters. *)
Lemma inv_counters_only mo mb s s' sl c :
  inv mo mb (mkSystem s sl c) ->
  maxInFlightOperations s' = maxInFlightOperations s ->
  maxBufferedBytes s' = maxBufferedBytes s ->
  InFlightOperations (diagnostics s') = InFlightOperations (diagnostics s) ->
  BufferedBytes (diagnostics s') = BufferedBytes (diagnostics s) ->
  Closed (diagnostics s') = Closed (diagnostics s) ->
  closing s' = closing s -> closeDone s' = closeDone s -> wg s' = wg s ->
  counters_ok (diagnostics s') ->
  inv mo mb (mkSystem s' sl c).
Proof.
  intros [[Hl1 Hl2] Hsl Ho Hb Hw Hmo Hmb Hc Hcl] E1 E2 E3 E4 E5 E6 E7 E8 Hc'. cbn in *.
  constructor; cbn; try done; try congruence; [split; congruence|].
  unfold closer_ok in *. rewrite E5, E6, E7, E8. done.
Qed.

Lemma admit_ok_inv s dl clk par s' p :
  admitOperation s dl clk par = (s', Ok p) ->
  closing s = false /\ Closed (diagnostics s) = false /\
  InFlightOperations (diagnostics s) < maxInFlightOperations s /\
  BufferedBytes (diagnostics s) <= maxBufferedBytes s - initialOperationReservationBytes /\
  s' = set_wg (wg s + 1) (set_diagnostics
         (set_usage (InFlightOperations (diagnostics s) + 1)
            (BufferedBytes (diagnostics s) + initialOperationReservationBytes) (diagnostics s)) s) /\
  activeCalls p = 0 /\ releaseRequested p = false /\ released p = false /\
  heldBytes p = initialOperationReservationBytes.
Proof.
  unfold admitOperation. intros H. split_hyp H; destruct_bools; cbn; repeat split; try done; lia.
Qed.

Lemma inv_admit mo mb s sl c dl clk par s' p :
  inv mo mb (mkSystem s sl c) -> admitOperation s dl clk par = (s', Ok p) ->
  inv mo mb (mkSystem s' (sl ++ [mkSlot p false Held]) c).
Proof.
  intros [[Hl1 Hl2] Hsl Ho Hb Hw Hmo Hmb Hc Hcl] H. cbn in *.
  apply admit_ok_inv in H as (Hcg & Hcd & Hlt & Hle & -> & Ha & Hr & Hrl & Hh).
  assert (slot_ok (mkSlot p false Held)) as Hok.
  { unfold slot_ok; cbn. rewrite Ha, Hr, Hrl, Hh.
    unfold initialOperationReservationBytes, requestWorkspaceBytes, responseWorkspaceBytes,
      parserScratchBytes. repeat split; try done; lia. }
  assert (slot_bytes (mkSlot p false Held) = initialOperationReservationBytes) as Hbytes by exact Hh.
  constructor; cbn; try done; rewrite ?zsum_app; cbn [zsum slot_ops slot_wg slot_phase]; try lia.
  - apply Forall_app; split; [done|]. by constructor.
  - unfold closer_ok in *. cbn in *. destruct c; try done; destruct Hcl; congruence.
Qed.

Lemma inv_reject mo mb s sl c dl clk par s' e :
  inv mo mb (mkSystem s sl c) -> admitOperation s dl clk par = (s', Err e) ->
  inv mo mb (mkSystem s' sl c).
Proof.
  intros HI H. unfold admitOperation in H. split_hyp H; try done;
    (eapply inv_counters_only; [exact HI|..]; try done; cbn);
    destruct (inv_counters _ _ _ HI) as (?&?&?&?&?&?&?);
    unfold counters_ok; cbn in *; eauto 10 with runtime.
Qed.

Lemma inv_finalize mo mb s sl c i p sh ph p' fin :
  inv mo mb (mkSystem s sl c) -> sl !! i = Some (mkSlot p sh ph) ->
  (fin = true -> ph = Held) -> heldBytes p' = heldBytes p ->
  slot_ok (mkSlot p' sh (after_finalize fin ph)) ->
  inv mo mb (mkSystem s (<[i := mkSlot p' sh (after_finalize fin ph)]> sl) c).
Proof.
  intros HI Hi Hfin Hh Hok.
  eapply inv_local; [exact HI|exact Hi|done|..];
    destruct fin; cbn in *; try rewrite (Hfin eq_refl); try done;
    unfold slot_bytes; cbn; try done; destruct ph; done.
Qed.

Lemma slot_ok_endCall p sh ph p' fin :
  slot_ok (mkSlot p sh ph) -> 0 < activeCalls p -> endCall p = (p', fin) ->
  (fin = true -> ph = Held) /\ heldBytes p' = heldBytes p /\
  slot_ok (mkSlot p' sh (after_finalize fin ph)).
Proof.
  unfold slot_ok, endCall; cbn. intros (Ha & Hr & Hrel & Hpend & Hb & Hs) Hpos [= <- <-].
  destruct (released p) eqn:Er; [destruct (Hrel eq_refl); lia|]. cbn.
  destruct ph; try discriminate.
  destruct (activeCalls p - 1 =? 0) eqn:En, (releaseRequested p) eqn:Eq; cbn;
    repeat split; try done; try lia; rewrite ?Er; try done; intros; lia.
Qed.

Lemma slot_ok_release p sh ph p' fin :
  slot_ok (mkSlot p sh ph) -> release p = (p', fin) ->
  (fin = true -> ph = Held) /\ heldBytes p' = heldBytes p /\
  slot_ok (mkSlot p' sh (after_finalize fin ph)).
Proof.
  unfold slot_ok, release; cbn. intros (Ha & Hr & Hrel & Hpend & Hb & Hs) [= <- <-].
  destruct (released p) eqn:Er; cbn.
  - rewrite andb_false_r; cbn. repeat split; try done; try lia; naive_solver.
  - destruct ph; try discriminate.
    destruct (activeCalls p =? 0) eqn:En; cbn; repeat split; try done; try lia; intros; lia.
Qed.

Lemma slot_ok_of mo mb s sl c i x :
  inv mo mb (mkSystem s sl c) -> sl !! i = Some x -> slot_ok x.
Proof. intros HI Hi. eapply Forall_lookup_1; [apply (inv_slots _ _ _ HI)|exact Hi]. Qed.

Lemma inv_finishRelease mo mb s sl c i p sh :
  inv mo mb (mkSystem s sl c) -> sl !! i = Some (mkSlot p sh Finalizing) ->
  inv mo mb (mkSystem (finishRelease p s) (<[i := mkSlot p sh Settled]> sl) c).
Proof.
  intros HI Hi. pose proof (slot_ok_of _ _ _ _ _ _ _ HI Hi) as Hok.
  pose proof (slot_bytes_nonneg _ Hok) as Hnn.
  eapply inv_replace; eauto; cbn in *; try lia.
  - apply (inv_counters _ _ _ HI).
  - apply (inv_closer _ _ _ HI).
Qed.

Lemma inv_wgDone mo mb s sl c i p sh :
  inv mo mb (mkSystem s sl c) -> sl !! i = Some (mkSlot p sh Settled) ->
  inv mo mb (mkSystem (wgDone s) (<[i := mkSlot p sh Done]> sl) c).
Proof.
  intros HI Hi. pose proof (slot_ok_of _ _ _ _ _ _ _ HI Hi) as Hok.
  eapply inv_replace; eauto; cbn in *; try lia; [apply (inv_counters _ _ _ HI)|].
  destruct (inv_closer _ _ _ HI) as (Hc1 & Hc2 & Hc3 & Hc4); cbn in *.
  pose proof (inv_wg _ _ _ HI) as Hw; cbn in Hw.
  assert (wg s <> 0) as Hne.
  { intros H0. rewrite Hw in H0. by pose proof (drained_no_slot _ _ _ H0 Hi). }
  unfold closer_ok; cbn. destruct c; done.
Qed.

Lemma inv_shrink mo mb s sl c i p n p' s' :
  inv mo mb (mkSystem s sl c) -> sl !! i = Some (mkSlot p false Held) ->
  shrinkRequest n p s = (p', s') ->
  inv mo mb (mkSystem s' (<[i := mkSlot p' true Held]> sl) c).
Proof.
  intros HI Hi H. pose proof (slot_ok_of _ _ _ _ _ _ _ HI Hi) as Hok.
  unfold slot_ok in Hok; cbn in Hok. destruct Hok as (Ha & Hr & Hrel & Hp & Hb & Hs).
  specialize (Hs eq_refl).
  unfold shrinkRequest in H. split_hyp H; destruct_bools.
  - by eapply inv_local; eauto.
  - eapply inv_replace; eauto; cbn; try lia.
    + unfold slot_ok; cbn. unfold initialOperationReservationBytes, requestWorkspaceBytes in *.
      split_and!; try done; lia.
    + apply (inv_counters _ _ _ HI).
    + apply (inv_closer _ _ _ HI).
Qed.

Lemma inv_beginCall mo mb s sl c i p sh :
  inv mo mb (mkSystem s sl c) -> sl !! i = Some (mkSlot p sh Held) ->
  releaseRequested p = false ->
  inv mo mb (mkSystem s (<[i := mkSlot (beginCall p) sh Held]> sl) c).
Proof.
  intros HI Hi Hnr. pose proof (slot_ok_of _ _ _ _ _ _ _ HI Hi) as Hok.
  eapply inv_local; eauto. unfold slot_ok in *; cbn in *. rewrite Hnr in *.
  destruct Hok as (Ha & Hr & Hrel & Hp & Hb & Hs). rewrite Hr in *. cbn in *.
  repeat split; try done; lia.
Qed.

Lemma inv_close_steps mo mb s sl c c' s' :
  inv mo mb (mkSystem s sl c) ->
  maxInFlightOperations s' = maxInFlightOperations s ->
  maxBufferedBytes s' = maxBufferedBytes s ->
  InFlightOperations (diagnostics s') = InFlightOperations (diagnostics s) ->
  BufferedBytes (diagnostics s') = BufferedBytes (diagnostics s) ->
  wg s' = wg s -> counters_ok (diagnostics s') -> closer_ok s' c' ->
  inv mo mb (mkSystem s' sl c').
Proof.
  intros [[Hl1 Hl2] Hsl Ho Hb Hw Hmo Hmb Hc Hcl] E1 E2 E3 E4 E5 Hc' Hcl'. cbn in *.
  constructor; cbn; try done; try congruence. split; congruence.
Qed.

Lemma inv_counter_step mo mb s sl c s' :
  inv mo mb (mkSystem s sl c) ->
  s' = recordResponseHeaderLimitFailure s \/ s' = recordResponseCloseFailure s \/
  (exists n, in_int64 n /\ s' = addDroppedObserverEvents n s) \/
  s' = addObserverFailure s \/ s' = addTelemetryFailure s ->
  inv mo mb (mkSystem s' sl c).
Proof.
  intros HI Hs'. pose proof (inv_counters _ _ _ HI) as (?&?&?&?&?&?&?); cbn in *.
  destruct Hs' as [-> | [-> | [(n & Hn & ->) | [-> | ->]]]];
    (eapply inv_counters_only; [exact HI|..]; try done);
    unfold counters_ok; cbn; eauto 10 with runtime.
Qed.

Lemma inv_step mo mb y y' : inv mo mb y -> step y y' -> inv mo mb y'.
Proof.
  intros HI Hstep. destruct Hstep.
  - eauto using inv_admit.
  - eauto using inv_reject.
  - eauto using inv_beginCall.
  - pose proof (slot_ok_of _ _ _ _ _ _ _ HI H) as Hok.
    edestruct slot_ok_endCall as (?&?&?); eauto. eauto using inv_finalize.
  - pose proof (slot_ok_of _ _ _ _ _ _ _ HI H) as Hok.
    edestruct slot_ok_release as (?&?&?); eauto. eauto using inv_finalize.
  - eauto using inv_finishRelease.
  - eauto using inv_wgDone.
  - eauto using inv_shrink.
  - eapply inv_counter_step; eauto.
  - eapply inv_counter_step; eauto.
  - eapply inv_counter_step; eauto 6.
  - eapply inv_counter_step; eauto 6.
  - eapply inv_counter_step; eauto 6.
  - unfold beginClose in H. split_hyp H. destruct_bools.
    eapply inv_close_steps; [exact HI|..]; try done; [apply (inv_counters _ _ _ HI)|].
    destruct (inv_closer _ _ _ HI) as (?&?&?&?); cbn in *. unfold closer_ok; cbn. done.
  - eapply inv_close_steps; [exact HI|..]; try done; [apply (inv_counters _ _ _ HI)|].
    destruct (inv_closer _ _ _ HI) as (?&?&?&?); cbn in *.
    unfold waitForOperations in H. unfold closer_ok; cbn. repeat split; try done. lia.
  - destruct (inv_closer _ _ _ HI) as (?&?&?&?); cbn in *. unfold finishClose in H.
    split_hyp H; try congruence.
    eapply inv_close_steps; [exact HI|..]; try done. apply (inv_counters _ _ _ HI).
Qed.

Lemma inv_initial mo mb t : inv mo mb (initial mo mb t).
Proof.
  constructor; cbn; try done; try lia.
Qed.

Lemma inv_reachable mo mb t y : reachable mo mb t y -> inv mo mb y.
Proof.
  apply rtc_invariant; eauto using inv_initial, inv_step.
Qed.

(** C1. In every state the runtime can reach, whatever the interleaving of
    admissions, calls, releases and the shutdown, the operations in flight and the
    bytes reserved stay within the configured limits and equal what the live
    operations hold, and every diagnostic counter stays in its range. *)
Theorem admission_within_limits mo mb t y :
  1 <= mo -> initialOperationReservationBytes <= mb -> reachable mo mb t y ->
  let d := diagnostics (sys_state y) in
  0 <= InFlightOperations d <= mo /\ 0 <= BufferedBytes d <= mb /\
  InFlightOperations d = zsum slot_ops (sys_slots y) /\
  BufferedBytes d = zsum slot_bytes (sys_slots y) /\
  counters_ok d.
Proof.
  intros Hmo Hmb Hr d. pose proof (inv_reachable _ _ _ _ Hr) as HI.
  destruct HI as [_ Hsl Ho Hb _ Hmo' Hmb' Hc _]. fold d in Ho, Hb, Hmo', Hmb', Hc.
  pose proof (zsum_nonneg slot_ops (sys_slots y) ltac:(auto with runtime)).
  pose proof (zsum_nonneg slot_bytes (sys_slots y)
    ltac:(intros x Hx; by apply slot_bytes_nonneg, (Forall_elem _ _ _ Hsl))).
  unfold initialOperationReservationBytes, requestWorkspaceBytes, responseWorkspaceBytes,
    parserScratchBytes in Hmb.
  split_and!; try done; lia.
Qed.

(** Once the shutdown has finished, no operation is in flight, no byte is
    reserved and no later admission succeeds. *)
Theorem closed_runtime_is_drained mo mb t y :
  reachable mo mb t y -> Closed (diagnostics (sys_state y)) = true ->
  InFlightOperations (diagnostics (sys_state y)) = 0 /\
  BufferedBytes (diagnostics (sys_state y)) = 0 /\
  Forall (fun x => slot_phase x = Done) (sys_slots y) /\
  (forall dl clk par, admitOperation (sys_state y) dl clk par =
     (sys_state y, Err (Error_lit ErrorCodeClosed DeliveryStateNotSent [] [] 0))).
Proof.
  intros Hr Hclosed. destruct (inv_reachable _ _ _ _ Hr) as [_ Hsl Ho Hb Hw _ _ _ Hcl].
  destruct Hcl as (Hcg & Hcd & _ & Hdr).
  destruct (sys_closer y); try congruence.
  rewrite Hdr in Hw. symmetry in Hw.
  assert (Forall (fun x => slot_phase x = Done) (sys_slots y)) as Hall.
  { apply Forall_lookup_2. intros i x Hi. by eapply drained_no_slot. }
  assert (forall f, (forall x, slot_phase x = Done -> f x = 0) -> zsum f (sys_slots y) = 0) as Hz.
  { intros f Hf. apply zsum_all_zero. intros x Hx. apply Hf. by apply (Forall_elem _ _ _ Hall). }
  split_and!; [rewrite Ho|rewrite Hb|done|]; try (apply Hz; intros x; unfold slot_ops, slot_bytes; by intros ->).
  intros dl clk par. unfold admitOperation. by rewrite Hcg, Hcd.
Qed.

(** *** Progress of released permits *)

(** Steps a released permit still has to take. *)
Definition slot_rank (x : slot) : Z :=
  match slot_phase x with Held => 3 | Finalizing => 2 | Settled => 1 | Done => 0 end.

Definition slot_finished (x : slot) : Prop :=
  releaseRequested (slot_permit x) = true /\ activeCalls (slot_permit x) = 0.

Lemma slot_rank_nonneg x : 0 <= slot_rank x.
Proof. unfold slot_rank. destruct (slot_phase x); lia. Qed.
#[local] Hint Resolve slot_rank_nonneg : runtime.

(** A permit that is released but not yet done has a step that brings it closer. *)
Lemma settle_progress mo mb y :
  inv mo mb y -> Forall slot_finished (sys_slots y) -> 0 < zsum slot_rank (sys_slots y) ->
  exists y', step y y' /\ Forall slot_finished (sys_slots y') /\
    zsum slot_rank (sys_slots y') < zsum slot_rank (sys_slots y) /\ sys_closer y' = sys_closer y /\
    DroppedObserverEvents (diagnostics (sys_state y')) = DroppedObserverEvents (diagnostics (sys_state y)).
Proof.
  intros HI Hfin Hpos.
  destruct (decide (Exists (fun x => slot_rank x <> 0) (sys_slots y))) as [Hex|Hno].
  2:{ apply not_Exists_Forall in Hno; [|solve_decision].
      rewrite zsum_all_zero in Hpos; [lia|].
      intros x Hx. apply (Forall_elem _ _ _ Hno) in Hx. cbn in Hx. lia. }
  apply Exists_exists in Hex as (x & [i Hi]%list_elem_of_lookup & Hx).
  destruct y as [s sl c]; cbn in *.
  pose proof (slot_ok_of _ _ _ _ _ _ _ HI Hi) as (_ & Hr & _ & Hp & _).
  pose proof (Forall_lookup_1 _ _ _ _ Hfin Hi) as Hf.
  destruct x as [p sh ph]; cbn in *. destruct Hf as [Hrq Hac]; cbn in *.
  destruct ph; cbn in *; [specialize (Hp Hrq Hr); lia| | |done].
  - eexists. split; [by apply step_finishRelease|]. cbn. split_and!; [by apply Forall_insert| |done|done].
    rewrite (zsum_insert _ _ _ _ _ Hi). cbn. lia.
  - eexists. split; [by apply step_wgDone|]. cbn. split_and!; [by apply Forall_insert| |done|done].
    rewrite (zsum_insert _ _ _ _ _ Hi). cbn. lia.
Qed.

Lemma settle_all mo mb y :
  inv mo mb y -> Forall slot_finished (sys_slots y) ->
  exists y', rtc step y y' /\ Forall (fun x => slot_phase x = Done) (sys_slots y').
Proof.
  remember (Z.to_nat (zsum slot_rank (sys_slots y))) as n eqn:En.
  revert y En. induction (lt_wf n) as [n _ IH]. intros y En HI Hfin.
  pose proof (zsum_nonneg slot_rank (sys_slots y) ltac:(auto with runtime)) as Hnn.
  destruct (decide (zsum slot_rank (sys_slots y) = 0)) as [H0|Hne].
  - exists y. split; [apply rtc_refl|]. apply Forall_lookup_2. intros i x Hi.
    assert (slot_rank x = 0) as Hx
      by (eapply zsum_zero; eauto using list_elem_of_lookup_2 with runtime).
    unfold slot_rank in Hx. by destruct (slot_phase x).
  - destruct (settle_progress mo mb y HI Hfin ltac:(lia)) as (y1 & Hs & Hf1 & Hlt & _).
    pose proof (zsum_nonneg slot_rank (sys_slots y1) ltac:(auto with runtime)).
    destruct (IH (Z.to_nat (zsum slot_rank (sys_slots y1))) ltac:(lia) y1 eq_refl
                (inv_step _ _ _ _ HI Hs) Hf1) as (y2 & Hr & Hd).
    exists y2. split; [by eapply rtc_l|done].
Qed.

(** From every reachable state in which each admitted operation has been
    released, a finite sequence of steps of the outstanding calls returns every
    reservation. *)
Theorem released_operations_settle mo mb t y :
  reachable mo mb t y -> Forall slot_finished (sys_slots y) ->
  exists y', rtc step y y' /\
    InFlightOperations (diagnostics (sys_state y')) = 0 /\
    BufferedBytes (diagnostics (sys_state y')) = 0 /\
    waitForOperations (sys_state y') = true.
Proof.
  intros Hr Hfin. destruct (settle_all mo mb y (inv_reachable _ _ _ _ Hr) Hfin) as (y' & Hs & Hd).
  exists y'. split; [done|].
  assert (inv mo mb y') as [_ _ Ho Hb Hw _ _ _ _].
  { eapply inv_reachable. unfold reachable. by transitivity y. }
  unfold waitForOperations. rewrite Ho, Hb, Hw.
  split_and!; [| |apply Z.eqb_eq]; apply zsum_all_zero;
    intros x Hx; apply (Forall_elem _ _ _ Hd) in Hx; cbn in Hx;
    unfold slot_ops, slot_bytes, slot_wg; by rewrite Hx.
Qed.

(** *** A concrete run: one operation is admitted, shrunk to its 10-byte body,
    released, accounted back, and the runtime is closed. *)

Definition run_permit : operationPermit :=
  mkPermit 0 false initialOperationReservationBytes 5 1005 false.
Definition run_admitted : system :=
  mkSystem (fst (admitOperation (newRuntimeState 2 4194304 1000) false (Some 5) None))
    [mkSlot run_permit false Held] CloserIdle.
Definition run_released : system :=
  mkSystem (sys_state run_admitted)
    [mkSlot (fst (release run_permit)) false Finalizing] CloserIdle.
Definition run_closed : system :=
  let s := wgDone (finishRelease run_permit (sys_state run_admitted)) in
  let s := fst (beginClose s) in
  mkSystem (default s (finishClose s))
    [mkSlot (fst (release run_permit)) false Done] CloserFinished.

Lemma run_admitted_reachable : reachable 2 4194304 1000 run_admitted.
Proof.
  eapply rtc_once.
  apply (step_admit (newRuntimeState 2 4194304 1000) [] CloserIdle false (Some 5) None). reflexivity.
Qed.

Lemma run_released_reachable : reachable 2 4194304 1000 run_released.
Proof.
  eapply rtc_r; [apply run_admitted_reachable|].
  by apply (step_release (sys_state run_admitted) [mkSlot run_permit false Held] CloserIdle 0%nat
    run_permit false Held (fst (release run_permit)) true).
Qed.

Lemma run_closed_reachable : reachable 2 4194304 1000 run_closed.
Proof.
  set (p := fst (release run_permit)). set (s0 := sys_state run_admitted).
  eapply rtc_r; [eapply rtc_r; [eapply rtc_r; [eapply rtc_r; [eapply rtc_r;
    [apply run_released_reachable|]|]|]|]|].
  - by apply (step_finishRelease s0 [mkSlot p false Finalizing] CloserIdle 0%nat p false).
  - by apply (step_wgDone (finishRelease p s0) [mkSlot p false Settled] CloserIdle 0%nat p false).
  - by eapply step_beginClose.
  - by eapply step_drained.
  - by eapply step_finishClose.
Qed.

Lemma admission_within_limits_witness :
  0 <= InFlightOperations (diagnostics (sys_state run_admitted)) <= 2 /\
  BufferedBytes (diagnostics (sys_state run_admitted)) = 2359296.
Proof.
  split; [|reflexivity].
  apply (admission_within_limits 2 4194304 1000 run_admitted);
    [lia | vm_compute; discriminate | apply run_admitted_reachable].
Defined.

Lemma closed_runtime_is_drained_witness :
  InFlightOperations (diagnostics (sys_state run_closed)) = 0.
Proof.
  apply (closed_runtime_is_drained 2 4194304 1000 run_closed);
    [apply run_closed_reachable | reflexivity].
Defined.

Lemma released_operations_settle_witness :
  exists y', rtc step run_released y' /\
    InFlightOperations (diagnostics (sys_state y')) = 0 /\
    BufferedBytes (diagnostics (sys_state y')) = 0 /\
    waitForOperations (sys_state y') = true.
Proof.
  apply (released_operations_settle 2 4194304 1000 run_released);
    [apply run_released_reachable | by repeat constructor].
Defined.

End Concurrent.

(** Adding a duration to an instant yields the mathematical sum clamped to the
    range of int64, for all 64-bit operands. *)
Theorem addNanosSaturated_clamps v d :
  in_int64 v -> in_int64 d ->
  addNanosSaturated v d = Z.max MinInt64 (Z.min MaxInt64 (v + d)).
Proof. apply addNanosSaturated_clamp_aux. Qed.

Lemma addNanosSaturated_clamps_witness :
  addNanosSaturated 9223372036854775000 1000000 = MaxInt64.
Proof.
  rewrite (addNanosSaturated_clamps 9223372036854775000 1000000);
    [reflexivity | split; vm_compute; discriminate | split; vm_compute; discriminate].
Defined.
