(* ===== verification/Pool.v ===== *)
(** * The per-origin connection pool (internal/pool/pool.go)

    Entries are shared objects: the pool's map and the leases hold pointers to
    them.  The model keeps them in a heap indexed by pointer, so a change made
    through a lease is seen through the pool.  Each critical section under
    [Pool.mu] is one definition; [System] interleaves them. *)
From S2P Require Import Prelude.

(** pool.go, [Mode]. *)
Inductive Mode := Exclusive | Shared.
#[export] Instance Mode_eq_dec : EqDecision Mode.
Proof. solve_decision. Defined.

(** pool.go, [Options], without the clock, which is an input of each call. *)
Record Options := mkOptions {
  MaxConnections : Z;
  Lifetime : Z;
  IdleTimeout : Z
}.

(** pool.go, [entry].  A resource is named by a number; times are nanoseconds. *)
Record entry := mkEntry {
  resource : nat;
  mode : Mode;
  createdAt : Z;
  lastIdleAt : Z;
  active : Z;
  acquisitions : Z;
  retiring : bool
}.

(** pool.go, [Pool], with the heap of its entries and the log of the resources
    [Close] was called on.  [notify] names the current notification channel and
    [notifyClosed] tells whether that channel is closed; every channel with a
    smaller name is closed. *)
Record Pool := mkPool {
  options : Options;
  entries : gmap bytes (list nat);
  pending : gmap bytes Z;
  notify : nat;
  notifyClosed : bool;
  closed : bool;
  heap : list entry;
  closeLog : list nat
}.

Definition set_heap (h : list entry) (p : Pool) : Pool :=
  mkPool (options p) (entries p) (pending p) (notify p) (notifyClosed p) (closed p) h (closeLog p).
Definition log_close (rs : list nat) (p : Pool) : Pool :=
  mkPool (options p) (entries p) (pending p) (notify p) (notifyClosed p) (closed p)
    (heap p) (closeLog p ++ rs).
Definition set_pending (m : gmap bytes Z) (p : Pool) : Pool :=
  mkPool (options p) (entries p) m (notify p) (notifyClosed p) (closed p) (heap p) (closeLog p).
Definition set_entries (m : gmap bytes (list nat)) (p : Pool) : Pool :=
  mkPool (options p) m (pending p) (notify p) (notifyClosed p) (closed p) (heap p) (closeLog p).

(** Reading [p.entries[key]] and [p.pending[key]]: the zero value when absent. *)
Definition bucket (p : Pool) (key : bytes) : list nat := default [] (entries p !! key).
Definition pend (p : Pool) (key : bytes) : Z := default 0 (pending p !! key).

(** [if len(kept) == 0 { delete(m, key) } else { m[key] = kept }]. *)
Definition store_bucket (key : bytes) (kept : list nat) (m : gmap bytes (list nat))
    : gmap bytes (list nat) :=
  match kept with [] => delete key m | _ => <[key := kept]> m end.

Definition retire (e : entry) : entry :=
  mkEntry (resource e) (mode e) (createdAt e) (lastIdleAt e) (active e) (acquisitions e) true.

(** pool.go, [New]. *)
Definition New (o : Options) : Pool := mkPool o ∅ ∅ 0 false false [] [].

(** pool.go, [expireLocked], its loop: the kept pointers, the heap with the
    newly retiring entries, and the resources closed. *)
Fixpoint expireLoop (o : Options) (now : Z) (ptrs : list nat) (h : list entry)
    : list nat * list entry * list nat :=
  match ptrs with
  | [] => ([], h, [])
  | i :: rest =>
    match h !! i with
    | None => expireLoop o now rest h
    | Some e =>
      let expired :=
        (Lifetime o <=? timeSub now (createdAt e)) ||
        ((active e =? 0) && (IdleTimeout o <=? timeSub now (lastIdleAt e))) in
      let e := if expired then retire e else e in
      let h := <[i := e]> h in
      if retiring e && (active e =? 0) then
        let '(kept, h, cl) := expireLoop o now rest h in (kept, h, resource e :: cl)
      else
        let '(kept, h, cl) := expireLoop o now rest h in (i :: kept, h, cl)
    end
  end.

Definition expireLocked (key : bytes) (now : Z) (p : Pool) : Pool :=
  let '(kept, h, cl) := expireLoop (options p) now (bucket p key) (heap p) in
  log_close cl (set_heap h (set_entries (store_bucket key kept (entries p)) p)).

(** pool.go, [availableLocked].  [reusable i] is the answer of the resource of
    entry [i] to [Reusable], [None] when the resource has no such method. *)
Fixpoint availableLoop (reusable : nat -> option bool) (ptrs : list nat) (h : list entry)
    : list entry * option nat :=
  match ptrs with
  | [] => (h, None)
  | i :: rest =>
    match h !! i with
    | None => availableLoop reusable rest h
    | Some e =>
      let e := match reusable i with Some false => retire e | _ => e end in
      let h := <[i := e]> h in
      if negb (retiring e) && ((mode e ==? Shared) || (active e =? 0)) then (h, Some i)
      else availableLoop reusable rest h
    end
  end.

Definition availableLocked (reusable : nat -> option bool) (key : bytes) (p : Pool)
    : Pool * option nat :=
  let '(h, found) := availableLoop reusable (bucket p key) (heap p) in (set_heap h p, found).

(** pool.go, [signalLocked]; [None] is the panic of closing a closed channel. *)
Definition signalLocked (p : Pool) : option Pool :=
  if closed p then Some p
  else if notifyClosed p then None
  else Some (mkPool (options p) (entries p) (pending p) (S (notify p)) false (closed p)
               (heap p) (closeLog p)).

(** How one turn of the loop of [Acquire] ends under the lock. *)
Inductive acquireOutcome :=
| AcquireClosed                         (** return [ErrClosed] *)
| AcquireLease (i : nat) (reused : bool)
| AcquireDial                           (** unlock and dial *)
| AcquireWait (channel : nat).          (** unlock and wait on [notify] *)

(** pool.go, [Acquire], lines 86 to 101 and 124 to 125: one turn under the lock. *)
Definition acquireLocked (key : bytes) (now : Z) (reusable : nat -> option bool) (p : Pool)
    : Pool * acquireOutcome :=
  let p := expireLocked key now p in
  if closed p then (p, AcquireClosed)
  else
    let '(p, found) := availableLocked reusable key p in
    match found with
    | Some i =>
      match heap p !! i with
      | None => (p, AcquireWait (notify p))
      | Some e =>
        let n := (acquisitions e + 1) mod 18446744073709551616 in
        let e := mkEntry (resource e) (mode e) (createdAt e) (lastIdleAt e)
                   (active e + 1) n (retiring e) in
        (set_heap (<[i := e]> (heap p)) p, AcquireLease i (1 <? n))
      end
    | None =>
      if len (bucket p key) + pend p key <? MaxConnections (options p) then
        (set_pending (<[key := pend p key + 1]> (pending p)) p, AcquireDial)
      else (p, AcquireWait (notify p))
    end.

(** What the dial callback returned. *)
Inductive dialResult := DialFailed | Dialed (r : nat) (m : Mode).

Inductive dialOutcome := DialError | DialClosed | DialLease (i : nat).

(** pool.go, [Acquire], lines 103 to 122: after the dial. *)
Definition dialLocked (key : bytes) (now : Z) (d : dialResult) (p : Pool)
    : option (Pool * dialOutcome) :=
  let n := pend p key - 1 in
  let m := <[key := n]> (pending p) in
  let p := set_pending (if n =? 0 then delete key m else m) p in
  p ← signalLocked p;
  Some match d with
  | DialFailed => (p, DialError)
  | Dialed r md =>
    if closed p then (log_close [r] p, DialClosed)
    else
      let created := mkEntry r md now now 1 1 false in
      let i := length (heap p) in
      (set_entries (<[key := bucket p key ++ [i]]> (entries p)) (set_heap (heap p ++ [created]) p),
       DialLease i)
  end.

(** pool.go, [removeLocked]: drops the first occurrence of the pointer. *)
Fixpoint removeFirst (i : nat) (ptrs : list nat) : list nat :=
  match ptrs with
  | [] => []
  | j :: rest => if j ==? i then rest else j :: removeFirst i rest
  end.

Definition removeLocked (key : bytes) (i : nat) (p : Pool) : Pool :=
  set_entries (store_bucket key (removeFirst i (bucket p key)) (entries p)) p.

(** pool.go, the body of [Lease.Release] under the lock, run once per lease. *)
Definition releaseLocked (key : bytes) (i : nat) (reusable : bool) (now : Z) (p : Pool)
    : option Pool :=
  match heap p !! i with
  | None => Some p
  | Some e =>
    let a := active e - 1 in
    let r := retiring e || (negb reusable || closed p) in
    let e := mkEntry (resource e) (mode e) (createdAt e)
               (if a =? 0 then now else lastIdleAt e) a (acquisitions e) r in
    let p := set_heap (<[i := e]> (heap p)) p in
    let p := if (a =? 0) && r then log_close [resource e] (removeLocked key i p) else p in
    signalLocked p
  end.

(** pool.go, [Close], its inner loop over one bucket. *)
Fixpoint closeLoop (ptrs : list nat) (h : list entry) : list nat * list entry * list nat :=
  match ptrs with
  | [] => ([], h, [])
  | i :: rest =>
    match h !! i with
    | None => closeLoop rest h
    | Some e =>
      let h := <[i := retire e]> h in
      let '(kept, h, cl) := closeLoop rest h in
      if active e =? 0 then (kept, h, resource e :: cl) else (i :: kept, h, cl)
    end
  end.

(** The outer loop, over the buckets in the order [keys] of the map iteration. *)
Fixpoint closeBuckets (keys : list bytes) (p : Pool) : Pool :=
  match keys with
  | [] => p
  | key :: rest =>
    let '(kept, h, cl) := closeLoop (bucket p key) (heap p) in
    closeBuckets rest
      (log_close cl (set_heap h (set_entries (store_bucket key kept (entries p)) p)))
  end.

(** pool.go, [Close]; [keys] is the iteration order of the map. *)
Definition Close (keys : list bytes) (p : Pool) : option Pool :=
  if closed p then Some p
  else
    let p := mkPool (options p) (entries p) (pending p) (notify p) (notifyClosed p) true
               (heap p) (closeLog p) in
    let p := closeBuckets keys p in
    if notifyClosed p then None
    else Some (mkPool (options p) (entries p) (pending p) (notify p) true (closed p)
                 (heap p) (closeLog p)).

(** ** Heap changes that only retire entries *)

Definition same_core (e e' : entry) : Prop :=
  resource e' = resource e /\ mode e' = mode e /\ createdAt e' = createdAt e /\
  lastIdleAt e' = lastIdleAt e /\ active e' = active e /\ acquisitions e' = acquisitions e /\
  (retiring e = true -> retiring e' = true).

Definition heap_le (h h' : list entry) : Prop := Forall2 same_core h h'.

#[export] Instance same_core_refl : Reflexive same_core.
Proof. intros e. unfold same_core. done. Qed.
#[export] Instance same_core_trans : Transitive same_core.
Proof. intros a b c. unfold same_core. intuition congruence. Qed.
#[export] Instance heap_le_refl : Reflexive heap_le.
Proof. intros h. unfold heap_le. by apply Forall_Forall2_diag, Forall_true. Qed.
#[export] Instance heap_le_trans : Transitive heap_le.
Proof. intros a b c. unfold heap_le. by apply transitivity. Qed.

Lemma same_core_retire e : same_core e (retire e).
Proof. unfold same_core. done. Qed.

Lemma heap_le_insert h i e e' : h !! i = Some e -> same_core e e' -> heap_le h (<[i := e']> h).
Proof.
  intros Hi He. unfold heap_le. rewrite <- (list_insert_id h i e Hi) at 1.
  apply Forall2_insert; [apply heap_le_refl|done].
Qed.

Lemma heap_le_lookup h h' i e : heap_le h h' -> h !! i = Some e ->
  exists e', h' !! i = Some e' /\ same_core e e'.
Proof. intros H Hi. by eapply Forall2_lookup_l in H. Qed.

Lemma heap_le_lookup_r h h' i e' : heap_le h h' -> h' !! i = Some e' ->
  exists e, h !! i = Some e /\ same_core e e'.
Proof. intros H Hi. by eapply Forall2_lookup_r in H. Qed.

Lemma heap_le_length h h' : heap_le h h' -> length h' = length h.
Proof. intros H. symmetry. by eapply Forall2_length. Qed.

Lemma heap_le_resources h h' : heap_le h h' -> resource <$> h' = resource <$> h.
Proof. induction 1 as [|e e' h h' He Hh IH]; cbn; [done|]. destruct He as (-> & _). by f_equal. Qed.

(** Two entries with one resource are one entry. *)
Lemma resource_inj h i j e e' :
  NoDup (resource <$> h) -> h !! i = Some e -> h !! j = Some e' ->
  resource e = resource e' -> i = j.
Proof.
  intros Hnd Hi Hj Hr. eapply (NoDup_lookup (resource <$> h) i j (resource e)); [done|..];
    rewrite list_lookup_fmap; [rewrite Hi|rewrite Hj]; cbn; congruence.
Qed.

(** ** What a pass over one bucket does

    [shrunk ptrs h kept h' cl]: the pass kept [kept], closed the resources
    [cl] of the entries it dropped, all of them idle, and at most retired
    entries in the heap. *)
Record shrunk (ptrs : list nat) (h : list entry) (kept : list nat) (h' : list entry)
    (cl : list nat) : Prop := {
  shrunk_heap : heap_le h h';
  shrunk_kept : kept `sublist_of` ptrs;
  shrunk_dropped : forall i e, i ∈ ptrs -> h !! i = Some e -> i ∉ kept ->
    active e = 0 /\ resource e ∈ cl;
  shrunk_closed : forall r, r ∈ cl -> exists i e,
    i ∈ ptrs /\ (i ∉ kept) /\ h !! i = Some e /\ resource e = r;
  shrunk_nodup : NoDup cl
}.

Lemma shrunk_nil h : shrunk [] h [] h [].
Proof.
  split; [done|constructor|..].
  - intros i e Hi. by apply elem_of_nil in Hi.
  - intros r Hr. by apply elem_of_nil in Hr.
  - constructor.
Qed.

(** One more pointer in front of a pass, kept or dropped. *)
Lemma shrunk_keep i e e1 rest h kept h' cl :
  NoDup (i :: rest) -> h !! i = Some e -> same_core e e1 ->
  shrunk rest (<[i := e1]> h) kept h' cl ->
  shrunk (i :: rest) h (i :: kept) h' cl.
Proof.
  intros [Hni Hnd]%NoDup_cons Hi He [Hh Hk Hd Hc Hn].
  assert (forall j, j ∈ rest -> <[i := e1]> h !! j = h !! j) as Hsame.
  { intros j Hj. apply list_lookup_insert_ne. by intros ->. }
  split; [|by apply sublist_skip|..|done].
  - transitivity (<[i := e1]> h); [by eapply heap_le_insert|done].
  - intros j e' Hj Hj' Hjk. apply elem_of_cons in Hj as [->|Hj].
    { destruct Hjk. left. }
    apply (Hd j); [done|by rewrite Hsame|]. intros Hin. apply Hjk. by right.
  - intros r Hr. destruct (Hc r Hr) as (j & e' & Hj & Hjk & Hj' & <-).
    exists j, e'. rewrite Hsame in Hj' by done.
    split_and!; [by right| |done|done].
    intros [->|?]%elem_of_cons; done.
Qed.

Lemma shrunk_drop i e e1 rest h kept h' cl :
  NoDup (i :: rest) -> NoDup (resource <$> h) -> h !! i = Some e -> same_core e e1 ->
  active e = 0 -> shrunk rest (<[i := e1]> h) kept h' cl ->
  shrunk (i :: rest) h kept h' (resource e :: cl).
Proof.
  intros [Hni Hnd]%NoDup_cons Hres Hi He Ha [Hh Hk Hd Hc Hn].
  assert (forall j, j ∈ rest -> <[i := e1]> h !! j = h !! j) as Hsame.
  { intros j Hj. apply list_lookup_insert_ne. by intros ->. }
  assert (i ∉ kept) as Hik.
  { intros Hin. apply Hni. eapply elem_of_submseteq; [done|]. by apply sublist_submseteq. }
  split.
  - transitivity (<[i := e1]> h); [by eapply heap_le_insert|done].
  - by apply sublist_cons.
  - intros j e' Hj Hj' Hjk. apply elem_of_cons in Hj as [->|Hj].
    + rewrite Hi in Hj'. injection Hj' as <-. split; [done|left].
    + destruct (Hd j e') as [? ?]; [done|by rewrite Hsame|done|]. split; [done|by right].
  - intros r [->|Hr]%elem_of_cons.
    + exists i, e. split_and!; [left|done|done|done].
    + destruct (Hc r Hr) as (j & e' & Hj & Hjk & Hj' & <-).
      exists j, e'. rewrite Hsame in Hj' by done. split_and!; [by right|done|done|done].
  - constructor; [|done]. intros Hin.
    destruct (Hc _ Hin) as (j & e' & Hj & _ & Hj' & Hr). rewrite Hsame in Hj' by done.
    rewrite (resource_inj h i j e e' Hres Hi Hj' (eq_sym Hr)) in Hni. done.
Qed.

Lemma resources_insert (h : list entry) (i : nat) e e1 :
  h !! i = Some e -> same_core e e1 -> resource <$> (<[i := e1]> h) = resource <$> h.
Proof. intros Hi He. by apply heap_le_resources, (heap_le_insert h i e). Qed.

Lemma expireLoop_shrunk o now ptrs h kept h' cl :
  NoDup ptrs -> NoDup (resource <$> h) -> (forall i, i ∈ ptrs -> is_Some (h !! i)) ->
  expireLoop o now ptrs h = (kept, h', cl) -> shrunk ptrs h kept h' cl.
Proof.
  revert h kept h' cl. induction ptrs as [|i rest IH]; intros h kept h' cl Hnd Hres Hval H; cbn in H.
  { simplify_eq. apply shrunk_nil. }
  destruct (Hval i ltac:(left)) as [e Hi]. rewrite Hi in H.
  set (exp := _ || _) in H. set (e1 := if exp then retire e else e) in H.
  assert (same_core e e1) as He by (unfold e1; destruct exp; [apply same_core_retire|done]).
  destruct (expireLoop o now rest (<[i := e1]> h)) as [[kept1 h1] cl1] eqn:E.
  assert (shrunk rest (<[i := e1]> h) kept1 h1 cl1) as Hs.
  { apply IH; [by apply NoDup_cons in Hnd as [_ ?]| |..|done].
    - by rewrite (resources_insert _ _ e).
    - intros j Hj. apply lookup_lt_is_Some. rewrite length_insert.
      apply lookup_lt_is_Some, Hval. by right. }
  assert (resource e1 = resource e /\ active e1 = active e) as [Hr1 Ha1] by (unfold same_core in He; tauto).
  destruct (retiring e1 && (active e1 =? 0)) eqn:Eb; simplify_eq.
  - rewrite Hr1. eapply shrunk_drop; eauto. destruct_bools. lia.
  - eapply shrunk_keep; eauto.
Qed.

Lemma closeLoop_shrunk ptrs h kept h' cl :
  NoDup ptrs -> NoDup (resource <$> h) -> (forall i, i ∈ ptrs -> is_Some (h !! i)) ->
  closeLoop ptrs h = (kept, h', cl) ->
  shrunk ptrs h kept h' cl /\
  (forall i e, i ∈ kept -> h' !! i = Some e -> retiring e = true /\ active e <> 0).
Proof.
  revert h kept h' cl. induction ptrs as [|i rest IH]; intros h kept h' cl Hnd Hres Hval H; cbn in H.
  { simplify_eq. split; [apply shrunk_nil|]. intros i e Hi. by apply elem_of_nil in Hi. }
  destruct (Hval i ltac:(left)) as [e Hi]. rewrite Hi in H.
  pose proof (same_core_retire e) as He.
  destruct (closeLoop rest (<[i := retire e]> h)) as [[kept1 h1] cl1] eqn:E.
  destruct (IH (<[i := retire e]> h) kept1 h1 cl1) as [Hs Hk].
  { by apply NoDup_cons in Hnd as [_ ?]. }
  { by rewrite (resources_insert _ _ e). }
  { intros j Hj. apply lookup_lt_is_Some. rewrite length_insert.
    apply lookup_lt_is_Some, Hval. by right. }
  { done. }
  destruct (active e =? 0) eqn:Eb; simplify_eq.
  - split; [|done]. eapply shrunk_drop; eauto. lia.
  - split; [by eapply shrunk_keep|].
    intros j e' [->|Hj]%elem_of_cons Hj'; [|by eapply Hk].
    destruct (heap_le_lookup _ _ i (retire e) (shrunk_heap _ _ _ _ _ Hs)) as (e'' & Hl & Hsc).
    { apply list_lookup_insert_eq. by eapply lookup_lt_Some. }
    rewrite Hl in Hj'. simplify_eq.
    destruct Hsc as (_ & _ & _ & _ & Ha & _ & Hr). cbn in *. split; [by apply Hr|]. lia.
Qed.

Lemma availableLoop_spec reusable ptrs h h' found :
  availableLoop reusable ptrs h = (h', found) ->
  heap_le h h' /\
  (forall i, found = Some i -> i ∈ ptrs /\ exists e, h' !! i = Some e /\
     retiring e = false /\ (mode e = Shared \/ active e = 0)).
Proof.
  revert h h' found. induction ptrs as [|i rest IH]; intros h h' found H; cbn in H.
  { simplify_eq. done. }
  destruct (h !! i) as [e|] eqn:Hi.
  2:{ destruct (IH _ _ _ H) as [? Hf]. split; [done|].
      intros j Hj. destruct (Hf j Hj). split; [by right|done]. }
  set (e1 := match reusable i with Some false => retire e | _ => e end) in H.
  assert (same_core e e1) as He.
  { unfold e1. destruct (reusable i) as [[]|]; [done|apply same_core_retire|done]. }
  clearbody e1.
  assert (heap_le h (<[i := e1]> h)) as Hle by by eapply heap_le_insert.
  destruct (negb (retiring e1) && _) eqn:Eb.
  - simplify_eq. split; [done|]. intros j [= <-]. split; [left|]. exists e1.
    split; [apply list_lookup_insert_eq; by eapply lookup_lt_Some|].
    apply andb_true_iff in Eb as [Er%negb_true_iff [Em%eqb_true_1|Ea]%orb_true_iff];
      (split; [exact Er|]); [left; exact Em|right; lia].
  - destruct (IH _ _ _ H) as [? Hf]. split; [by transitivity (<[i := e1]> h)|].
    intros j Hj. destruct (Hf j Hj). split; [by right|done].
Qed.

(** ** Interleavings of acquisitions, dials, releases and [Close] *)
Module System.

(** pool.go, [Lease]; [l_released] is its [sync.Once]. *)
Record lease := mkLease {
  l_key : bytes;
  l_entry : nat;
  l_reused : bool;
  l_released : bool
}.

(** The pool, the leases handed out, the keys of the dials in flight (one per
    occurrence), the key each heap entry was created for, and the next resource
    a dial will create. *)
Record system := mkSystem {
  sys_pool : Pool;
  sys_leases : list lease;
  sys_dials : list bytes;
  sys_origins : list bytes;
  sys_next : nat
}.

(** One critical section each.  A dial creates a new resource ([DialFunc]
    "creates one resource for an origin"). *)
Inductive step : system -> system -> Prop :=
| step_lease p ls ds os n key now reu p' i r :
    acquireLocked key now reu p = (p', AcquireLease i r) ->
    step (mkSystem p ls ds os n) (mkSystem p' (ls ++ [mkLease key i r false]) ds os n)
| step_dial p ls ds os n key now reu p' :
    acquireLocked key now reu p = (p', AcquireDial) ->
    step (mkSystem p ls ds os n) (mkSystem p' ls (ds ++ [key]) os n)
| step_wait p ls ds os n key now reu p' c :
    acquireLocked key now reu p = (p', AcquireWait c) ->
    step (mkSystem p ls ds os n) (mkSystem p' ls ds os n)
| step_refused p ls ds os n key now reu p' :
    acquireLocked key now reu p = (p', AcquireClosed) ->
    step (mkSystem p ls ds os n) (mkSystem p' ls ds os n)
| step_dial_failed p ls ds os n j key now p' o :
    ds !! j = Some key -> dialLocked key now DialFailed p = Some (p', o) ->
    step (mkSystem p ls ds os n) (mkSystem p' ls (delete j ds) os n)
| step_dial_closed p ls ds os n j key now m p' :
    ds !! j = Some key -> dialLocked key now (Dialed n m) p = Some (p', DialClosed) ->
    step (mkSystem p ls ds os n) (mkSystem p' ls (delete j ds) os (S n))
| step_dialed p ls ds os n j key now m p' i :
    ds !! j = Some key -> dialLocked key now (Dialed n m) p = Some (p', DialLease i) ->
    step (mkSystem p ls ds os n)
         (mkSystem p' (ls ++ [mkLease key i false false]) (delete j ds) (os ++ [key]) (S n))
| step_release p ls ds os n j key i r reusable now p' :
    ls !! j = Some (mkLease key i r false) ->
    releaseLocked key i reusable now p = Some p' ->
    step (mkSystem p ls ds os n)
         (mkSystem p' (<[j := mkLease key i r true]> ls) ds os n)
| step_close p ls ds os n keys p' :
    keys ≡ₚ (map_to_list (entries p)).*1 -> Close keys p = Some p' ->
    step (mkSystem p ls ds os n) (mkSystem p' ls ds os n).

Definition initial (o : Options) : system := mkSystem (New o) [] [] [] 0.
Definition reachable (o : Options) (y : system) : Prop := rtc step (initial o) y.

(** Leases of entry [i] not released yet, and dials in flight for [key]. *)
Definition holds (i : nat) (l : lease) : Z :=
  if (l_entry l ==? i) && negb (l_released l) then 1 else 0.
Definition holders (ls : list lease) (i : nat) : Z := zsum (holds i) ls.
Definition dialing (ds : list bytes) (key : bytes) : Z :=
  zsum (fun k => if k ==? key then 1 else 0) ds.

(** The invariant, without the clause that only holds once [Close] is over. *)
Record inv0 (max : Z) (p : Pool) (ls : list lease) (ds os : list bytes) (n : nat) : Prop := {
  i_opt : MaxConnections (options p) = max;
  i_len : length os = length (heap p);
  i_bucket : forall k i, i ∈ bucket p k -> os !! i = Some k;
  i_nodup : forall k, NoDup (bucket p k);
  i_pend : forall k, pend p k = dialing ds k;
  i_cap : forall k, len (bucket p k) + pend p k <= Z.max 0 max;
  i_lease : forall l, l ∈ ls -> l_released l = false -> os !! l_entry l = Some (l_key l);
  i_active : forall i e, heap p !! i = Some e -> active e = holders ls i;
  i_excl : forall i e, heap p !! i = Some e -> mode e = Exclusive -> active e <= 1;
  i_in : forall k i e, i ∈ bucket p k -> heap p !! i = Some e -> resource e ∉ closeLog p;
  i_out : forall i k e, os !! i = Some k -> heap p !! i = Some e -> i ∉ bucket p k ->
    active e = 0 /\ resource e ∈ closeLog p;
  i_res : NoDup (resource <$> heap p);
  i_fresh : forall r, r ∈ resource <$> heap p \/ r ∈ closeLog p -> (r < n)%nat;
  i_log : NoDup (closeLog p)
}.

(** After [Close]: whatever is still in the pool is leased and on its way out. *)
Definition closed_ok (p : Pool) : Prop :=
  notifyClosed p = closed p /\
  (closed p = true -> forall k i e, i ∈ bucket p k -> heap p !! i = Some e ->
     retiring e = true /\ active e <> 0).

Definition inv (max : Z) (y : system) : Prop :=
  inv0 max (sys_pool y) (sys_leases y) (sys_dials y) (sys_origins y) (sys_next y) /\
  closed_ok (sys_pool y).

(** *** Buckets *)

Lemma bucket_store p key kept k :
  bucket (set_entries (store_bucket key kept (entries p)) p) k =
  if k ==? key then kept else bucket p k.
Proof.
  unfold bucket, store_bucket, set_entries; cbn.
  destruct (k ==? key) eqn:E; destruct_bools; subst.
  - destruct kept; [by rewrite lookup_delete_eq|by rewrite lookup_insert_eq].
  - destruct kept; [by rewrite lookup_delete_ne|by rewrite lookup_insert_ne].
Qed.

Lemma holds_nonneg i l : 0 <= holds i l.
Proof. unfold holds. destruct (_ && _); lia. Qed.
Lemma holders_nonneg ls i : 0 <= holders ls i.
Proof. apply zsum_nonneg. intros; apply holds_nonneg. Qed.

Lemma bucket_valid max p ls ds os n k i :
  inv0 max p ls ds os n -> i ∈ bucket p k -> is_Some (heap p !! i).
Proof.
  intros H Hi. apply (i_bucket _ _ _ _ _ _ H) in Hi. apply lookup_lt_is_Some.
  rewrite <- (i_len _ _ _ _ _ _ H). by eapply lookup_lt_Some.
Qed.

(** The effect of a pass over one bucket on the invariant. *)
Lemma inv0_shrink max p ls ds os n key kept h' cl :
  inv0 max p ls ds os n -> shrunk (bucket p key) (heap p) kept h' cl ->
  inv0 max (log_close cl (set_heap h' (set_entries (store_bucket key kept (entries p)) p)))
    ls ds os n.
Proof.
  intros H [Hh Hk Hd Hc Hn].
  assert (forall k, bucket (log_close cl (set_heap h' (set_entries (store_bucket key kept (entries p)) p))) k
            = if k ==? key then kept else bucket p k) as Hb by (intros k; apply (bucket_store p)).
  assert (forall k i, i ∈ (if k ==? key then kept else bucket p k) -> i ∈ bucket p k) as Hsub.
  { intros k i. destruct (k ==? key) eqn:E; [|done]. destruct_bools; subst.
    intros Hi. eapply elem_of_submseteq; [done|]. by apply sublist_submseteq. }
  constructor; cbn.
  - apply H.
  - rewrite (heap_le_length _ _ Hh). apply H.
  - intros k i. rewrite Hb. intros Hi. by eapply i_bucket, Hsub.
  - intros k. rewrite Hb. destruct (k ==? key) eqn:E; [|apply H].
    eapply sublist_NoDup; [|done]. apply H.
  - apply H.
  - intros k. rewrite Hb. pose proof (i_cap _ _ _ _ _ _ H k) as Hcap.
    destruct (k ==? key) eqn:E; [|done]. destruct_bools; subst.
    apply sublist_length in Hk. unfold len, pend in *; cbn. lia.
  - apply H.
  - intros i e' Hi. destruct (heap_le_lookup_r _ _ _ _ Hh Hi) as (e & He & Hsc).
    destruct Hsc as (_ & _ & _ & _ & -> & _). by apply (i_active _ _ _ _ _ _ H).
  - intros i e' Hi Hm. destruct (heap_le_lookup_r _ _ _ _ Hh Hi) as (e & He & Hsc).
    destruct Hsc as (_ & Hm' & _ & _ & -> & _). apply (i_excl _ _ _ _ _ _ H i e He). congruence.
  - intros k i e'. rewrite Hb. intros Hi Hi'.
    destruct (heap_le_lookup_r _ _ _ _ Hh Hi') as (e & He & (-> & _)).
    rewrite elem_of_app. intros [Hin|Hin].
    { by apply (i_in _ _ _ _ _ _ H k i e); [apply Hsub|..]. }
    destruct (Hc _ Hin) as (j & e2 & Hj & Hjk & Hj2 & Hr).
    assert (j = i) as -> by (eapply resource_inj; [apply (i_res _ _ _ _ _ _ H)|done..]).
    apply (i_bucket _ _ _ _ _ _ H) in Hj.
    pose proof (i_bucket _ _ _ _ _ _ H k i (Hsub k i Hi)) as Hk'.
    rewrite Hj in Hk'. injection Hk' as <-. by rewrite eqb_refl in Hi.
  - intros i k e' Hos Hi' Hni. rewrite Hb in Hni.
    destruct (heap_le_lookup_r _ _ _ _ Hh Hi') as (e & He & (-> & _ & _ & _ & -> & _)).
    rewrite elem_of_app.
    destruct (decide (i ∈ bucket p k)) as [Hin|Hnin].
    + destruct (k ==? key) eqn:E; destruct_bools; [|done]. subst.
      destruct (Hd i e Hin He Hni). auto.
    + destruct (i_out _ _ _ _ _ _ H i k e Hos He Hnin). auto.
  - rewrite (heap_le_resources _ _ Hh). apply H.
  - intros r. rewrite (heap_le_resources _ _ Hh), elem_of_app. intros [Hr|[Hr|Hr]];
      [apply (i_fresh _ _ _ _ _ _ H); by auto..|].
    destruct (Hc _ Hr) as (j & e2 & _ & _ & Hj2 & <-).
    apply (i_fresh _ _ _ _ _ _ H). left. apply list_elem_of_fmap. exists e2. split; [done|].
    apply list_elem_of_lookup. eauto.
  - apply NoDup_app. split_and!; [apply H| |done].
    intros r Hr1 Hr2. destruct (Hc _ Hr2) as (j & e2 & Hj & _ & Hj2 & <-).
    by apply (i_in _ _ _ _ _ _ H key j e2).
Qed.

Lemma inv0_expire max p ls ds os n key now :
  inv0 max p ls ds os n -> inv0 max (expireLocked key now p) ls ds os n.
Proof.
  intros H. unfold expireLocked.
  destruct (expireLoop _ _ _ _) as [[kept h'] cl] eqn:E.
  apply inv0_shrink; [done|]. eapply expireLoop_shrunk; [apply H|apply H| |done].
  intros i Hi. by eapply bucket_valid.
Qed.

Lemma closed_ok_expire max p ls ds os n key now :
  inv0 max p ls ds os n -> closed_ok p -> closed_ok (expireLocked key now p).
Proof.
  intros H [Hn Hc]. unfold expireLocked.
  destruct (expireLoop _ _ _ _) as [[kept h'] cl] eqn:E.
  assert (shrunk (bucket p key) (heap p) kept h' cl) as Hs.
  { eapply expireLoop_shrunk; [apply H|apply H| |done]. intros i Hi. by eapply bucket_valid. }
  split; [done|]. cbn. intros Hcl k i e' Hi Hi'.
  destruct (heap_le_lookup_r _ _ _ _ (shrunk_heap _ _ _ _ _ Hs) Hi') as (e & He & Hsc).
  destruct Hsc as (_ & _ & _ & _ & -> & _ & Hr).
  destruct (Hc Hcl k i e) as [? ?]; [|done|].
  - change (i ∈ bucket (set_entries (store_bucket key kept (entries p)) p) k) in Hi.
    rewrite bucket_store in Hi. destruct (k ==? key) eqn:Ek; destruct_bools; [|done]. subst.
    eapply elem_of_submseteq; [done|]. apply sublist_submseteq, Hs.
  - split; [by apply Hr|done].
Qed.

(** Retiring entries does not disturb the invariant. *)
Lemma inv0_heap_le max p ls ds os n h' :
  inv0 max p ls ds os n -> heap_le (heap p) h' -> inv0 max (set_heap h' p) ls ds os n.
Proof.
  intros H Hh. constructor; cbn; try apply H.
  - rewrite (heap_le_length _ _ Hh). apply H.
  - intros i e' Hi. destruct (heap_le_lookup_r _ _ _ _ Hh Hi) as (e & He & Hsc).
    destruct Hsc as (_ & _ & _ & _ & -> & _). by apply (i_active _ _ _ _ _ _ H).
  - intros i e' Hi Hm. destruct (heap_le_lookup_r _ _ _ _ Hh Hi) as (e & He & Hsc).
    destruct Hsc as (_ & Hm' & _ & _ & -> & _). apply (i_excl _ _ _ _ _ _ H i e He). congruence.
  - intros k i e' Hi Hi'. destruct (heap_le_lookup_r _ _ _ _ Hh Hi') as (e & He & (-> & _)).
    by eapply (i_in _ _ _ _ _ _ H).
  - intros i k e' Hos Hi' Hni.
    destruct (heap_le_lookup_r _ _ _ _ Hh Hi') as (e & He & (-> & _ & _ & _ & -> & _)).
    by eapply (i_out _ _ _ _ _ _ H).
  - rewrite (heap_le_resources _ _ Hh). apply H.
  - rewrite (heap_le_resources _ _ Hh). apply H.
Qed.

(** Changing the number of holders of one entry that is in the pool. *)
Lemma inv0_hold max p ls ls' ds os n i k e e' :
  inv0 max p ls ds os n -> heap p !! i = Some e -> i ∈ bucket p k ->
  resource e' = resource e -> mode e' = mode e ->
  active e' = holders ls' i -> (forall j, j <> i -> holders ls' j = holders ls j) ->
  (mode e = Exclusive -> active e' <= 1) ->
  (forall l, l ∈ ls' -> l_released l = false -> os !! l_entry l = Some (l_key l)) ->
  inv0 max (set_heap (<[i := e']> (heap p)) p) ls' ds os n.
Proof.
  intros H Hi Hik Hr Hm Ha Hj Hex Hl.
  assert (forall j x, <[i := e']> (heap p) !! j = Some x ->
            (j = i /\ x = e') \/ (j <> i /\ heap p !! j = Some x)) as Hcase.
  { intros j x Hx. destruct (decide (j = i)) as [->|Hne].
    - rewrite list_lookup_insert_eq in Hx by (by eapply lookup_lt_Some). left. by simplify_eq.
    - rewrite list_lookup_insert_ne in Hx by done. by right. }
  assert (resource <$> (<[i := e']> (heap p)) = resource <$> heap p) as Hres.
  { rewrite list_fmap_insert, Hr. apply list_insert_id. by rewrite list_lookup_fmap, Hi. }
  constructor; cbn; try apply H; try (rewrite Hres; apply H); try done.
  - rewrite length_insert. apply H.
  - intros j x Hx. destruct (Hcase _ _ Hx) as [[-> ->]|[Hne Hx']]; [done|].
    rewrite Hj by done. by apply (i_active _ _ _ _ _ _ H).
  - intros j x Hx Hmx. destruct (Hcase _ _ Hx) as [[-> ->]|[Hne Hx']].
    + apply Hex. congruence.
    + by apply (i_excl _ _ _ _ _ _ H j x).
  - intros k' j x Hjk Hx. destruct (Hcase _ _ Hx) as [[-> ->]|[Hne Hx']].
    + rewrite Hr. by apply (i_in _ _ _ _ _ _ H k' i e).
    + by apply (i_in _ _ _ _ _ _ H k' j x).
  - intros j k' x Hos Hx Hni. destruct (Hcase _ _ Hx) as [[-> ->]|[Hne Hx']].
    + pose proof (i_bucket _ _ _ _ _ _ H _ _ Hik). by assert (k' = k) as -> by congruence.
    + by apply (i_out _ _ _ _ _ _ H j k' x).
Qed.

Lemma holders_app ls l i : holders (ls ++ [l]) i = holders ls i + holds i l.
Proof. unfold holders. rewrite zsum_app. cbn. lia. Qed.

Lemma holds_live key i r j : holds j (mkLease key i r false) = if i ==? j then 1 else 0.
Proof. unfold holds; cbn. by rewrite andb_true_r. Qed.

Lemma in_lease_app (ls : list lease) l x : x ∈ ls ++ [l] -> x ∈ ls \/ x = l.
Proof. rewrite elem_of_app, list_elem_of_singleton. tauto. Qed.

Lemma inv_lease max p ls ds os n key now reu p' i r :
  inv0 max p ls ds os n -> closed_ok p ->
  acquireLocked key now reu p = (p', AcquireLease i r) ->
  inv0 max p' (ls ++ [mkLease key i r false]) ds os n /\ closed_ok p'.
Proof.
  intros H Hc Hacq. unfold acquireLocked in Hacq.
  pose proof (inv0_expire _ _ _ _ _ _ key now H) as H1.
  pose proof (closed_ok_expire _ _ _ _ _ _ key now H Hc) as Hc1.
  set (p1 := expireLocked key now p) in *. clearbody p1.
  destruct (closed p1) eqn:Ecl; [done|]. unfold availableLocked in Hacq.
  destruct (availableLoop reu (bucket p1 key) (heap p1)) as [h2 found] eqn:Ea.
  destruct (availableLoop_spec _ _ _ _ _ Ea) as [Hle Hf].
  pose proof (inv0_heap_le _ _ _ _ _ _ _ H1 Hle) as H2.
  destruct found as [i0|]; [|by destruct (_ <? _)].
  destruct (Hf i0 eq_refl) as (Hib & e & He & Hret & Hav).
  cbn in Hacq. rewrite He in Hacq. simplify_eq.
  split; [|by split; [apply Hc1|cbn; congruence]].
  eapply (inv0_hold _ (set_heap h2 p1) ls _ _ _ _ i key e); try done; cbn.
  - rewrite holders_app, holds_live, eqb_refl, (i_active _ _ _ _ _ _ H2 i e He). lia.
  - intros j Hj. rewrite holders_app, holds_live.
    destruct (i ==? j) eqn:E; destruct_bools; [congruence|lia].
  - intros Hm. destruct Hav; [congruence|lia].
  - intros l [Hl| ->]%in_lease_app Hlr; [by apply (i_lease _ _ _ _ _ _ H)|]. cbn. by apply (i_bucket _ _ _ _ _ _ H1).
Qed.

Lemma dialing_app ds k key : dialing (ds ++ [k]) key = dialing ds key + (if k ==? key then 1 else 0).
Proof. unfold dialing. rewrite zsum_app. cbn. lia. Qed.

Lemma dialing_delete (ds : list bytes) j k key :
  ds !! j = Some k -> dialing (delete j ds) key = dialing ds key - (if k ==? key then 1 else 0).
Proof.
  unfold dialing. intros Hj. rewrite <- (take_drop_middle _ _ _ Hj) at 2.
  rewrite delete_take_drop, !zsum_app. cbn. lia.
Qed.

Lemma dialing_nonneg ds key : 0 <= dialing ds key.
Proof. apply zsum_nonneg. intros k _. destruct (_ ==? _); lia. Qed.

(** A turn of [Acquire] that ends without a lease. *)
Lemma inv_no_lease max p ls ds os n key now reu p' out :
  inv0 max p ls ds os n -> closed_ok p ->
  acquireLocked key now reu p = (p', out) ->
  match out with
  | AcquireLease _ _ => True
  | AcquireDial => inv0 max p' ls (ds ++ [key]) os n /\ closed_ok p'
  | _ => inv0 max p' ls ds os n /\ closed_ok p'
  end.
Proof.
  intros H Hc Hacq. unfold acquireLocked in Hacq.
  pose proof (inv0_expire _ _ _ _ _ _ key now H) as H1.
  pose proof (closed_ok_expire _ _ _ _ _ _ key now H Hc) as Hc1.
  set (p1 := expireLocked key now p) in *. clearbody p1.
  destruct (closed p1) eqn:Ecl; [by simplify_eq|]. unfold availableLocked in Hacq.
  destruct (availableLoop reu (bucket p1 key) (heap p1)) as [h2 found] eqn:Ea.
  destruct (availableLoop_spec _ _ _ _ _ Ea) as [Hle _].
  pose proof (inv0_heap_le _ _ _ _ _ _ _ H1 Hle) as H2.
  assert (closed_ok (set_heap h2 p1)) as Hc2 by (split; [apply Hc1|cbn; congruence]).
  destruct found as [i0|]; [cbn in Hacq; destruct (h2 !! i0); by simplify_eq|].
  destruct (_ <? _) eqn:Elt in Hacq; simplify_eq; [|done].
  split; [|done]. constructor; cbn; try apply H2.
  - intros k. rewrite dialing_app. unfold pend; cbn.
    rewrite lookup_insert. destruct (key ==? k) eqn:E; destruct_bools.
    + subst. rewrite decide_True by done. cbn.
      change (default 0 (pending p1 !! k)) with (pend p1 k).
      rewrite (i_pend _ _ _ _ _ _ H1 k). lia.
    + rewrite decide_False by done. pose proof (i_pend _ _ _ _ _ _ H1 k) as Hp.
      unfold pend in Hp. lia.
  - intros k. unfold pend; cbn. rewrite lookup_insert. case_decide; cbn.
    + subst. change (options (set_heap h2 p1)) with (options p1) in Elt.
      rewrite (i_opt _ _ _ _ _ _ H1) in Elt. unfold pend, bucket in *; cbn in *. lia.
    + apply (i_cap _ _ _ _ _ _ H1).
Qed.

Lemma signal_ok p : closed_ok p -> exists p', signalLocked p = Some p' /\
  options p' = options p /\ entries p' = entries p /\ pending p' = pending p /\
  closed p' = closed p /\ heap p' = heap p /\ closeLog p' = closeLog p /\
  notifyClosed p' = notifyClosed p /\ (closed p = false -> notify p' = S (notify p)).
Proof.
  intros [Hn _]. unfold signalLocked. destruct (closed p) eqn:E; [by eexists|].
  rewrite Hn. eexists. split; [done|]. cbn. split_and!; congruence.
Qed.

(** Replacing a pool by one that differs in its notification channel only. *)
Lemma inv_channel max p p' ls ds os n :
  options p' = options p -> entries p' = entries p -> pending p' = pending p ->
  heap p' = heap p -> closeLog p' = closeLog p ->
  inv0 max p ls ds os n -> inv0 max p' ls ds os n.
Proof.
  destruct p, p'. cbn. intros -> -> -> -> -> H. destruct H. by constructor.
Qed.

Lemma closed_ok_channel p p' :
  entries p' = entries p -> heap p' = heap p -> closed p' = closed p ->
  notifyClosed p' = notifyClosed p -> closed_ok p -> closed_ok p'.
Proof.
  unfold closed_ok, bucket. intros -> -> -> ->. done.
Qed.

Definition settle_dial (key : bytes) (p : Pool) : Pool :=
  set_pending (let m := <[key := pend p key - 1]> (pending p) in
    if pend p key - 1 =? 0 then delete key m else m) p.

(** A dial that ends gives its share of the cap back. *)
Lemma inv_settle_dial max p ls ds os n j key :
  inv0 max p ls ds os n -> ds !! j = Some key ->
  inv0 max (settle_dial key p) ls (delete j ds) os n /\
  len (bucket p key) + pend (settle_dial key p) key < Z.max 0 max.
Proof.
  intros H Hj.
  assert (forall k, pend (settle_dial key p) k = pend p k - (if key ==? k then 1 else 0)) as Hpend.
  { intros k. unfold settle_dial, pend; cbn.
    destruct (_ =? 0) eqn:E0; destruct (key ==? k) eqn:E; destruct_bools; subst;
      rewrite ?lookup_delete_eq, ?lookup_delete_ne, ?lookup_insert_eq, ?lookup_insert_ne by done;
      cbn; unfold pend in *; lia. }
  split.
  - constructor; try apply H.
    + intros k. rewrite Hpend, (dialing_delete _ _ _ _ Hj), (i_pend _ _ _ _ _ _ H). done.
    + intros k. rewrite Hpend. pose proof (i_cap _ _ _ _ _ _ H k) as Hcap.
      unfold bucket in *; cbn in *. destruct (_ ==? _); lia.
  - rewrite Hpend, eqb_refl. pose proof (i_cap _ _ _ _ _ _ H key). lia.
Qed.

Lemma dialLocked_unfold key now d p :
  dialLocked key now d p =
  (p ← signalLocked (settle_dial key p);
   Some match d with
   | DialFailed => (p, DialError)
   | Dialed r md =>
     if closed p then (log_close [r] p, DialClosed)
     else
       let i := length (heap p) in
       (set_entries (<[key := bucket p key ++ [i]]> (entries p))
          (set_heap (heap p ++ [mkEntry r md now now 1 1 false]) p), DialLease i)
   end).
Proof. done. Qed.

Lemma settle_closed_ok key p : closed_ok p -> closed_ok (settle_dial key p).
Proof. done. Qed.

Lemma fresh_not_in max p ls ds os n :
  inv0 max p ls ds os n -> (n ∉ closeLog p) /\ (n ∉ resource <$> heap p).
Proof.
  intros H. split; intros Hin; pose proof (i_fresh _ _ _ _ _ _ H n); naive_solver lia.
Qed.

Lemma inv_log_fresh max p ls ds os n :
  inv0 max p ls ds os n -> inv0 max (log_close [n] p) ls ds os (S n).
Proof.
  intros H. destruct (fresh_not_in _ _ _ _ _ _ H) as [Hnl Hnh].
  constructor; cbn; try apply H.
  - intros k i e Hi He. rewrite elem_of_app, list_elem_of_singleton. intros [Hin|Hin].
    + by apply (i_in _ _ _ _ _ _ H k i e).
    + apply Hnh. rewrite <- Hin. apply list_elem_of_fmap. exists e.
      split; [done|]. by eapply list_elem_of_lookup_2.
  - intros i k e Hos He Hni. destruct (i_out _ _ _ _ _ _ H i k e Hos He Hni).
    split; [done|]. apply elem_of_app. by left.
  - intros r. rewrite elem_of_app, list_elem_of_singleton. intros [Hr|[Hr| ->]]; [..|lia];
      (enough (r < n)%nat by lia); apply (i_fresh _ _ _ _ _ _ H); auto.
  - apply NoDup_app. split_and!; [apply H| |apply NoDup_singleton].
    intros r Hr ->%list_elem_of_singleton. done.
Qed.

(** A fresh entry joins the bucket of its key with one lease. *)
Lemma inv_add_entry max p ls ds os n key now md :
  inv0 max p ls ds os n -> len (bucket p key) + pend p key < Z.max 0 max ->
  let i := length (heap p) in
  inv0 max (set_entries (<[key := bucket p key ++ [i]]> (entries p))
              (set_heap (heap p ++ [mkEntry n md now now 1 1 false]) p))
    (ls ++ [mkLease key i false false]) ds (os ++ [key]) (S n).
Proof.
  intros H Hcap i. destruct (fresh_not_in _ _ _ _ _ _ H) as [Hnl Hnh].
  set (p' := set_entries _ _). set (e0 := mkEntry n md now now 1 1 false) in *.
  assert (forall k, bucket p' k = if k ==? key then bucket p k ++ [i] else bucket p k) as Hb.
  { intros k. unfold p', bucket at 1; cbn. rewrite lookup_insert.
    destruct (k ==? key) eqn:E; destruct_bools; subst;
      [by rewrite decide_True|by rewrite decide_False]. }
  assert (forall k j, j ∈ bucket p' k -> j ∈ bucket p k \/ (j = i /\ k = key)) as Hin.
  { intros k j. rewrite Hb. destruct (k ==? key) eqn:E; destruct_bools; [|auto].
    subst. rewrite elem_of_app, list_elem_of_singleton. intros [?| ->]; auto. }
  assert (forall k j, j ∈ bucket p k -> (j < i)%nat) as Hlt.
  { intros k j Hj. apply (i_bucket _ _ _ _ _ _ H) in Hj. unfold i.
    rewrite <- (i_len _ _ _ _ _ _ H). by eapply lookup_lt_Some. }
  assert (forall j e, (heap p ++ [e0]) !! j = Some e ->
            (heap p !! j = Some e /\ (j < i)%nat) \/ (j = i /\ e = e0)) as Hcase.
  { intros j e [Hj|[Hge Hj]]%lookup_app_Some.
    - left. split; [done|by eapply lookup_lt_Some].
    - apply list_lookup_singleton_Some in Hj as [Hz <-]. right. unfold i. split; [lia|done]. }
  assert (forall l, l ∈ ls -> l_released l = false -> l_entry l <> i) as Hls.
  { intros l Hl Hr. pose proof (i_lease _ _ _ _ _ _ H l Hl Hr) as Ho.
    apply lookup_lt_Some in Ho. rewrite (i_len _ _ _ _ _ _ H) in Ho. fold i in Ho. lia. }
  assert (holders ls i = 0) as H0.
  { apply zsum_all_zero. intros l Hl. unfold holds.
    destruct (l_entry l ==? i) eqn:E, (l_released l) eqn:Er; try done.
    destruct_bools. by destruct (Hls l Hl Er). }
  constructor; cbn; try apply H.
  - rewrite !length_app, (i_len _ _ _ _ _ _ H). done.
  - intros k j [Hj|[-> ->]]%Hin.
    + apply lookup_app_l_Some. by apply (i_bucket _ _ _ _ _ _ H).
    + unfold i. rewrite <- (i_len _ _ _ _ _ _ H). apply list_lookup_middle. done.
  - intros k. rewrite Hb. destruct (k ==? key); [|apply H].
    apply NoDup_app. split_and!; [apply H| |apply NoDup_singleton].
    intros j Hj ->%list_elem_of_singleton. apply Hlt in Hj. lia.
  - intros k. rewrite Hb. pose proof (i_cap _ _ _ _ _ _ H k) as Hc. unfold pend in *; cbn in *.
    destruct (k ==? key) eqn:E; destruct_bools; subst; [|done].
    rewrite len_app. change (len [i]) with 1. lia.
  - intros l [Hl| ->]%in_lease_app Hr; cbn.
    + apply lookup_app_l_Some. by apply (i_lease _ _ _ _ _ _ H).
    + unfold i. rewrite <- (i_len _ _ _ _ _ _ H). by apply list_lookup_middle.
  - intros j e Hj. rewrite holders_app, holds_live.
    destruct (Hcase _ _ Hj) as [[Hj' Hjlt]|[-> ->]].
    + rewrite (i_active _ _ _ _ _ _ H j e Hj').
      destruct (i ==? j) eqn:E; destruct_bools; [lia|lia].
    + rewrite eqb_refl, H0. done.
  - intros j e Hj Hm. destruct (Hcase _ _ Hj) as [[Hj' _]|[-> ->]]; [|cbn; lia].
    by apply (i_excl _ _ _ _ _ _ H j e).
  - intros k j e [Hj|[-> ->]]%Hin Hj'; destruct (Hcase _ _ Hj') as [[Hj2 Hjlt]|[Hji ->]].
    + by apply (i_in _ _ _ _ _ _ H k j e).
    + subst. apply Hlt in Hj. lia.
    + lia.
    + done.
  - intros j k e Hos Hj Hni. rewrite Hb in Hni.
    destruct (Hcase _ _ Hj) as [[Hj' Hjlt]|[-> ->]].
    + apply (i_out _ _ _ _ _ _ H j k e); [|done|].
      * rewrite lookup_app_l in Hos; [done|]. rewrite (i_len _ _ _ _ _ _ H). done.
      * intros Hjk. apply Hni. destruct (k ==? key); [|done]. apply elem_of_app. by left.
    + unfold i in Hos. rewrite <- (i_len _ _ _ _ _ _ H), list_lookup_middle in Hos by done.
      injection Hos as <-. rewrite eqb_refl in Hni. destruct Hni.
      apply elem_of_app. right. by apply list_elem_of_singleton.
  - rewrite fmap_app. apply NoDup_app. split_and!; [apply H| |apply NoDup_singleton].
    intros r Hr ->%list_elem_of_singleton. done.
  - intros r. rewrite fmap_app, elem_of_app. change (resource <$> [e0]) with [n].
    rewrite list_elem_of_singleton. intros [[Hr| ->]|Hr]; [|lia|]; (enough (r < n)%nat by lia);
      apply (i_fresh _ _ _ _ _ _ H); auto.
Qed.

Lemma inv_dial_end max p ls ds os n j key now d p' out :
  inv0 max p ls ds os n -> closed_ok p -> ds !! j = Some key ->
  (forall r m, d = Dialed r m -> r = n) ->
  dialLocked key now d p = Some (p', out) ->
  match out with
  | DialError => inv0 max p' ls (delete j ds) os n /\ closed_ok p'
  | DialClosed => inv0 max p' ls (delete j ds) os (S n) /\ closed_ok p'
  | DialLease i =>
    inv0 max p' (ls ++ [mkLease key i false false]) (delete j ds) (os ++ [key]) (S n) /\ closed_ok p'
  end.
Proof.
  intros H Hc Hj Hfresh Hd. rewrite dialLocked_unfold in Hd.
  destruct (inv_settle_dial _ _ _ _ _ _ _ _ H Hj) as [H1 Hcap].
  pose proof (settle_closed_ok key _ Hc) as Hc1.
  destruct (signal_ok _ Hc1) as (p2 & Hs & Eo & Ee & Ep & Ec & Eh & El & En & _).
  rewrite Hs in Hd. cbn in Hd.
  pose proof (inv_channel _ _ _ _ _ _ _ Eo Ee Ep Eh El H1) as H2.
  pose proof (closed_ok_channel _ _ Ee Eh Ec En Hc1) as Hc2.
  assert (bucket p key = bucket p2 key) as Hb by (unfold bucket; by rewrite Ee).
  assert (pend (settle_dial key p) key = pend p2 key) as Hp by (unfold pend; by rewrite Ep).
  rewrite Hb, Hp in Hcap. clear Hs H1 Hc1 H Hc Eo Ee Ep Ec Eh El En Hb Hp.
  destruct d as [|r md]; [by simplify_eq|].
  pose proof (Hfresh r md eq_refl) as ->. clear Hfresh.
  destruct (closed p2) eqn:Ecl; simplify_eq.
  - split; [by apply inv_log_fresh|]. by apply (closed_ok_channel p2).
  - split; [by apply inv_add_entry|]. split; [apply Hc2|]. cbn. congruence.
Qed.

Lemma removeFirst_spec i ptrs :
  NoDup ptrs -> removeFirst i ptrs `sublist_of` ptrs /\ (i ∉ removeFirst i ptrs) /\
  (forall j, j ∈ ptrs -> j <> i -> j ∈ removeFirst i ptrs).
Proof.
  induction ptrs as [|j rest IH]; intros Hnd; cbn.
  { split_and!; [constructor|by intros ?%elem_of_nil|done]. }
  apply NoDup_cons in Hnd as [Hj Hnd]. destruct (IH Hnd) as (Hs & Hn & Hk).
  destruct (j ==? i) eqn:E; destruct_bools; subst.
  - split_and!; [by apply sublist_cons|done|].
    intros k [->|Hk']%elem_of_cons Hne; done.
  - split_and!; [by apply sublist_skip| |].
    + by intros [->|?]%elem_of_cons.
    + intros k [->|Hk']%elem_of_cons Hne; [left|right; auto].
Qed.

Lemma shrunk_removeFirst i e ptrs h :
  NoDup ptrs -> i ∈ ptrs -> h !! i = Some e -> active e = 0 ->
  shrunk ptrs h (removeFirst i ptrs) h [resource e].
Proof.
  intros Hnd Hin Hi Ha. destruct (removeFirst_spec i ptrs Hnd) as (Hs & Hn & Hk).
  split; [done|done|..|apply NoDup_singleton].
  - intros j e' Hj Hj' Hni. destruct (decide (j = i)) as [->|Hne]; [|by destruct Hni; auto].
    simplify_eq. split; [done|]. by apply list_elem_of_singleton.
  - intros r ->%list_elem_of_singleton. by exists i, e.
Qed.

Lemma holders_release (ls : list lease) j key i r :
  ls !! j = Some (mkLease key i r false) ->
  forall k, holders (<[j := mkLease key i r true]> ls) k = holders ls k - (if i ==? k then 1 else 0).
Proof.
  intros Hj k. unfold holders. rewrite (zsum_insert _ _ _ _ _ Hj), holds_live.
  unfold holds at 2; cbn. rewrite andb_false_r. lia.
Qed.

(** A live lease points into the pool. *)
Lemma lease_in_pool max p ls ds os n (j : nat) key i r :
  inv0 max p ls ds os n -> ls !! j = Some (mkLease key i r false) ->
  exists e, heap p !! i = Some e /\ i ∈ bucket p key /\ 0 < active e.
Proof.
  intros H Hj. assert (mkLease key i r false ∈ ls) as Hin by (by eapply list_elem_of_lookup_2).
  pose proof (i_lease _ _ _ _ _ _ H _ Hin eq_refl) as Hos; cbn in Hos.
  assert (is_Some (heap p !! i)) as [e He].
  { apply lookup_lt_is_Some. rewrite <- (i_len _ _ _ _ _ _ H). by eapply lookup_lt_Some. }
  assert (0 < active e) as Hpos.
  { rewrite (i_active _ _ _ _ _ _ H i e He).
    pose proof (zsum_elem_le (holds i) ls _ ltac:(intros; apply holds_nonneg) Hin) as Hle.
    rewrite holds_live, eqb_refl in Hle. unfold holders. lia. }
  exists e. split_and!; [done| |done].
  destruct (decide (i ∈ bucket p key)) as [|Hni]; [done|].
  destruct (i_out _ _ _ _ _ _ H i key e Hos He Hni). lia.
Qed.

Lemma lease_list_release (ls : list lease) (os : list bytes) j key i r l :
  (forall l, l ∈ ls -> l_released l = false -> os !! l_entry l = Some (l_key l)) ->
  l ∈ <[j := mkLease key i r true]> ls -> l_released l = false ->
  os !! l_entry l = Some (l_key l).
Proof.
  intros H Hl Hr. apply H; [|done].
  apply list_elem_of_lookup in Hl as [m Hm].
  apply list_lookup_insert_Some in Hm as [(-> & <- & _)|(_ & Hm)]; [done|].
  by eapply list_elem_of_lookup_2.
Qed.

Lemma inv_release max p ls ds os n j key i r reusable now p' :
  inv0 max p ls ds os n -> closed_ok p -> ls !! j = Some (mkLease key i r false) ->
  releaseLocked key i reusable now p = Some p' ->
  inv0 max p' (<[j := mkLease key i r true]> ls) ds os n /\ closed_ok p'.
Proof.
  intros H Hc Hj Hrel. unfold releaseLocked in Hrel.
  destruct (lease_in_pool _ _ _ _ _ _ _ _ _ _ H Hj) as (e & He & Hib & Hpos).
  rewrite He in Hrel.
  set (ret := retiring e || _) in Hrel. set (e' := mkEntry _ _ _ _ _ _ _) in Hrel.
  set (ls' := <[j := _]> ls).
  pose proof (holders_release _ _ _ _ _ Hj) as Hh. fold ls' in Hh.
  assert (inv0 max (set_heap (<[i := e']> (heap p)) p) ls' ds os n) as H1.
  { eapply (inv0_hold _ _ ls _ _ _ _ i key e); try done; cbn.
    - rewrite Hh, eqb_refl, (i_active _ _ _ _ _ _ H i e He). done.
    - intros k Hk. rewrite Hh. destruct (i ==? k) eqn:E; destruct_bools; [congruence|lia].
    - intros Hm. pose proof (i_excl _ _ _ _ _ _ H i e He Hm). lia.
    - intros l. eapply lease_list_release. apply H. }
  set (p1 := set_heap (<[i := e']> (heap p)) p) in *.
  assert (heap p1 !! i = Some e') as He' by (apply list_lookup_insert_eq; by eapply lookup_lt_Some).
  assert (forall k m x, m ∈ bucket p1 k -> m <> i -> heap p1 !! m = Some x -> closed p = true ->
            retiring x = true /\ active x <> 0) as Hothers.
  { intros k m x Hm Hne Hx Hcl. unfold p1 in Hx; cbn in Hx. rewrite list_lookup_insert_ne in Hx by done.
    by eapply Hc. }
  destruct ((active e - 1 =? 0) && ret) eqn:Ez.
  - assert (inv0 max (log_close [resource e'] (removeLocked key i p1)) ls' ds os n) as H2.
    { apply (inv0_shrink _ p1 _ _ _ _ key (removeFirst i (bucket p1 key)) (heap p1) [resource e'] H1).
      apply shrunk_removeFirst; [apply H1|done|done|]. destruct_bools. cbn. lia. }
    assert (closed_ok (log_close [resource e'] (removeLocked key i p1))) as Hc2.
    { split; [apply Hc|]. intros Hcl k m x Hm Hx.
      change (m ∈ bucket (set_entries (store_bucket key (removeFirst i (bucket p1 key)) (entries p1)) p1) k) in Hm.
      rewrite bucket_store in Hm. destruct (removeFirst_spec i (bucket p1 key) (i_nodup _ _ _ _ _ _ H1 key)) as (Hs & Hn & _).
      destruct (decide (m = i)) as [->|Hne].
      - destruct (k ==? key) eqn:E; [done|]. destruct_bools.
        pose proof (i_bucket _ _ _ _ _ _ H1 k i Hm). pose proof (i_bucket _ _ _ _ _ _ H1 key i Hib). congruence.
      - apply (Hothers k m x); try done. destruct (k ==? key) eqn:E; destruct_bools; [|done].
        subst. eapply elem_of_submseteq; [done|]. by apply sublist_submseteq. }
    destruct (signal_ok _ Hc2) as (p2 & Hs & Eo & Ee & Ep & Ec & Eh & El & En & _).
    rewrite Hs in Hrel. simplify_eq. split; [by eapply inv_channel|by eapply closed_ok_channel].
  - assert (closed_ok p1) as Hc2.
    { split; [apply Hc|]. intros Hcl k m x Hm Hx. change (closed p1) with (closed p) in Hcl.
      destruct (decide (m = i)) as [->|Hne]; [|by eapply Hothers].
      rewrite He' in Hx. simplify_eq.
      assert (ret = true) as Hret by (unfold ret; rewrite Hcl; by rewrite !orb_true_r).
      rewrite Hret, andb_true_r in Ez. split; [exact Hret|]. cbn. lia. }
    destruct (signal_ok _ Hc2) as (p2 & Hs & Eo & Ee & Ep & Ec & Eh & El & En & _).
    rewrite Hs in Hrel. simplify_eq. split; [by eapply inv_channel|by eapply closed_ok_channel].
Qed.

(** *** [Close] *)

(** Every entry left in the bucket of [k] is leased and retiring. *)
Definition drained (p : Pool) (k : bytes) : Prop :=
  forall i e, i ∈ bucket p k -> heap p !! i = Some e -> retiring e = true /\ active e <> 0.

Definition close_bucket (key : bytes) (p : Pool) : Pool :=
  let '(kept, h, cl) := closeLoop (bucket p key) (heap p) in
  log_close cl (set_heap h (set_entries (store_bucket key kept (entries p)) p)).

Lemma closeBuckets_cons key rest p :
  closeBuckets (key :: rest) p = closeBuckets rest (close_bucket key p).
Proof. cbn. unfold close_bucket. by destruct (closeLoop _ _) as [[kept h] cl]. Qed.

Lemma close_bucket_spec max p ls ds os n key :
  inv0 max p ls ds os n ->
  inv0 max (close_bucket key p) ls ds os n /\
  notifyClosed (close_bucket key p) = notifyClosed p /\
  closed (close_bucket key p) = closed p /\
  (forall k, k = key \/ drained p k -> drained (close_bucket key p) k).
Proof.
  intros H. unfold close_bucket. destruct (closeLoop _ _) as [[kept h] cl] eqn:E.
  destruct (closeLoop_shrunk _ _ _ _ _ (i_nodup _ _ _ _ _ _ H key) (i_res _ _ _ _ _ _ H)
              (fun i Hi => bucket_valid _ _ _ _ _ _ _ _ H Hi) E) as [Hs Hk].
  split_and!; [by apply inv0_shrink|done|done|].
  intros k Hor i e Hi He.
  change (i ∈ bucket (set_entries (store_bucket key kept (entries p)) p) k) in Hi.
  rewrite bucket_store in Hi. destruct (k ==? key) eqn:Ek; destruct_bools; [by apply (Hk i)|].
  destruct Hor as [?|Hd]; [done|].
  destruct (heap_le_lookup_r _ _ _ _ (shrunk_heap _ _ _ _ _ Hs) He) as (e0 & He0 & Hsc).
  destruct (Hd i e0 Hi He0) as [Hr Ha].
  destruct Hsc as (_ & _ & _ & _ & -> & _ & Hret). auto.
Qed.

Lemma closeBuckets_spec max ls ds os n keys p :
  inv0 max p ls ds os n ->
  inv0 max (closeBuckets keys p) ls ds os n /\
  notifyClosed (closeBuckets keys p) = notifyClosed p /\
  closed (closeBuckets keys p) = closed p /\
  (forall k, k ∈ keys \/ drained p k -> drained (closeBuckets keys p) k).
Proof.
  revert p. induction keys as [|key rest IH]; intros p H.
  { split_and!; [done..|]. intros k [Hk|Hd]; [by apply elem_of_nil in Hk|done]. }
  rewrite closeBuckets_cons.
  destruct (close_bucket_spec _ _ _ _ _ _ key H) as (H1 & Hn1 & Hc1 & Hd1).
  destruct (IH _ H1) as (H2 & Hn2 & Hc2 & Hd2).
  split_and!; [done|congruence|congruence|].
  intros k [[->|Hk]%elem_of_cons|Hd]; auto.
Qed.

(** A key the iteration does not visit has an empty bucket. *)
Lemma bucket_key p keys k :
  keys ≡ₚ (map_to_list (entries p)).*1 -> k ∈ keys \/ bucket p k = [].
Proof.
  intros Hp. destruct (entries p !! k) as [b|] eqn:E; [left|right; unfold bucket; by rewrite E].
  rewrite Hp. apply list_elem_of_fmap. exists (k, b). split; [done|]. by apply elem_of_map_to_list.
Qed.

Lemma Close_ok max p ls ds os n keys :
  inv0 max p ls ds os n -> closed_ok p -> keys ≡ₚ (map_to_list (entries p)).*1 ->
  exists p', Close keys p = Some p' /\ closed p' = true /\
    inv0 max p' ls ds os n /\ closed_ok p'.
Proof.
  intros H Hc Hp. unfold Close. destruct (closed p) eqn:Ecl; [by exists p|].
  set (p1 := mkPool _ _ _ _ _ true _ _).
  assert (inv0 max p1 ls ds os n) as H1 by by eapply (inv_channel _ p).
  destruct (closeBuckets_spec _ _ _ _ _ keys _ H1) as (H2 & Hn2 & Hc2 & Hd2).
  destruct Hc as [Hnc _]. change (notifyClosed p1) with (notifyClosed p) in Hn2.
  rewrite Hn2, Hnc, Ecl. eexists. split; [done|]. cbn in *. split_and!; [done| |].
  - by eapply (inv_channel _ (closeBuckets keys p1)).
  - split; [done|]. intros _ k. apply Hd2. destruct (bucket_key p keys k Hp) as [?|Hb]; [by left|].
    right. intros i e Hi. change (bucket p1 k) with (bucket p k) in Hi. rewrite Hb in Hi.
    by apply elem_of_nil in Hi.
Qed.

(** *** The invariant holds of every reachable state *)

Lemma pool_inv_initial o : inv (MaxConnections o) (initial o).
Proof.
  assert (forall k, bucket (New o) k = []) as Hb.
  { intros k. unfold bucket; cbn. by rewrite lookup_empty. }
  assert (forall k, pend (New o) k = 0) as Hp.
  { intros k. unfold pend; cbn. by rewrite lookup_empty. }
  split; [|split; [done|discriminate]].
  constructor; cbn; intros; rewrite ?Hb, ?Hp in *; try done;
    try lia; try apply NoDup_nil_2.
  all: try (by apply elem_of_nil in H).
  all: try (by apply elem_of_nil in H0).
  - change (len (@nil nat)) with 0. lia.
  - by destruct H as [H%elem_of_nil|H%elem_of_nil].
Qed.

Lemma pool_inv_step max y y' : inv max y -> step y y' -> inv max y'.
Proof.
  intros [H Hc] Hs. destruct Hs; cbn in *.
  - by eapply inv_lease.
  - by apply (inv_no_lease _ _ _ _ _ _ _ _ _ _ _ H Hc) in H0.
  - by apply (inv_no_lease _ _ _ _ _ _ _ _ _ _ _ H Hc) in H0.
  - by apply (inv_no_lease _ _ _ _ _ _ _ _ _ _ _ H Hc) in H0.
  - assert (o = DialError) as ->.
    { rewrite dialLocked_unfold in H1. destruct (signalLocked _); cbn in H1; by simplify_eq. }
    by eapply (inv_dial_end _ _ _ _ _ _ _ _ _ DialFailed _ DialError).
  - eapply (inv_dial_end _ _ _ _ _ _ _ _ _ (Dialed n m) _ DialClosed); try done. by intros ?? [= <- <-].
  - eapply (inv_dial_end _ _ _ _ _ _ _ _ _ (Dialed n m) _ (DialLease i)); try done. by intros ?? [= <- <-].
  - by eapply inv_release.
  - destruct (Close_ok _ _ _ _ _ _ _ H Hc H0) as (p2 & Hp2 & _ & H2 & Hc2).
    rewrite Hp2 in H1. by simplify_eq.
Qed.

Lemma pool_inv_reachable o y : reachable o y -> inv (MaxConnections o) y.
Proof. apply rtc_invariant; [apply pool_inv_initial|apply pool_inv_step]. Qed.

(** *** A concrete run, used to exercise the theorems

    Two acquisitions of one origin with a cap of one, a dial in between, a
    release, the second acquisition, [Close], and the last release. *)
Definition o1 : Options := mkOptions 1 100 50.
Definition k1 : bytes := B "https:443".

Lemma step_to y y' y'' : reachable o1 y -> step y y' -> y' = y'' -> reachable o1 y''.
Proof. intros H Hs <-. eapply rtc_r; done. Qed.

Definition e_held (ret : bool) (idle : Z) (acq : Z) : entry := mkEntry 0 Exclusive 5 idle 1 acq ret.
Definition dialed_pool : Pool :=
  mkPool o1 (<[k1 := [0%nat]]> ∅) ∅ 1 false false [e_held false 5 1] [].
Definition s_dialed : system := mkSystem dialed_pool [mkLease k1 0 false false] [] [k1] 1.

Lemma s_dialed_reachable : reachable o1 s_dialed.
Proof.
  eapply step_to; [eapply step_to; [apply rtc_refl|..]|..].
  - apply (step_dial _ _ _ _ _ k1 3 (fun _ => None)). vm_compute. reflexivity.
  - reflexivity.
  - apply (step_dialed _ _ _ _ _ 0 k1 5 Exclusive); vm_compute; reflexivity.
  - vm_compute. reflexivity.
Qed.

Definition closed_pool : Pool :=
  mkPool o1 (<[k1 := [0%nat]]> ∅) ∅ 1 true true [e_held true 5 1] [].
Definition s_closed : system := mkSystem closed_pool [mkLease k1 0 false false] [] [k1] 1.

Lemma s_closed_reachable : reachable o1 s_closed.
Proof.
  eapply step_to; [apply s_dialed_reachable| |].
  - apply (step_close _ _ _ _ _ [k1]); vm_compute; reflexivity.
  - vm_compute. reflexivity.
Qed.

Definition done_pool : Pool :=
  mkPool o1 ∅ ∅ 1 true true [mkEntry 0 Exclusive 5 9 0 1 true] [0%nat].
Definition s_done : system := mkSystem done_pool [mkLease k1 0 false true] [] [k1] 1.

Lemma s_done_reachable : reachable o1 s_done.
Proof.
  eapply step_to; [apply s_closed_reachable| |].
  - apply (step_release _ _ _ _ _ 0 k1 0 false true 9); vm_compute; reflexivity.
  - vm_compute. reflexivity.
Qed.

(** *** What the pool promises *)

(** C7. For every origin the open connections plus the dials in flight never exceed
    MaxConnections, and the pending counter equals the number of dials in flight. *)
Theorem pool_respects_cap o y key :
  reachable o y -> 0 <= MaxConnections o ->
  let p := sys_pool y in
  len (bucket p key) + pend p key <= MaxConnections o /\
  pend p key = dialing (sys_dials y) key /\ 0 <= pend p key.
Proof.
  intros [H _]%pool_inv_reachable Ho p.
  pose proof (i_cap _ _ _ _ _ _ H key). pose proof (i_pend _ _ _ _ _ _ H key) as Hp.
  pose proof (dialing_nonneg (sys_dials y) key). subst p. split_and!; [lia|done|lia].
Qed.

Lemma pool_respects_cap_witness :
  len (bucket dialed_pool k1) + pend dialed_pool k1 <= 1 /\ len (bucket dialed_pool k1) = 1.
Proof.
  split; [|vm_compute; reflexivity].
  apply (pool_respects_cap o1 s_dialed k1 s_dialed_reachable). vm_compute. discriminate.
Defined.

(** C5. In every interleaving of acquisitions, dials, releases, expiries and Close,
    a resource that a live lease holds is still in the pool and has not been closed,
    its entry counts exactly its live leases, and an exclusive resource has no
    second live lease. *)
Theorem leased_resource_is_open o y (j : nat) l :
  reachable o y -> sys_leases y !! j = Some l -> l_released l = false ->
  exists e, heap (sys_pool y) !! l_entry l = Some e /\
    l_entry l ∈ bucket (sys_pool y) (l_key l) /\
    (resource e ∉ closeLog (sys_pool y)) /\
    active e = holders (sys_leases y) (l_entry l) /\ 0 < active e /\
    (mode e = Exclusive -> forall m l', sys_leases y !! m = Some l' ->
       l_released l' = false -> l_entry l' = l_entry l -> m = j).
Proof.
  intros [H _]%pool_inv_reachable Hj Hr. destruct l as [key i r rel]. cbn in Hr. subst rel.
  destruct (lease_in_pool _ _ _ _ _ _ _ _ _ _ H Hj) as (e & He & Hib & Hpos).
  exists e. cbn. pose proof (i_active _ _ _ _ _ _ H i e He) as Ha.
  split_and!; [done|done|by apply (i_in _ _ _ _ _ _ H key i e)|done|done|].
  intros Hm m [k' i' r' rel'] Hl' Hr' Hi'. cbn in *. subst rel' i'.
  pose proof (i_excl _ _ _ _ _ _ H i e He Hm) as Hex. rewrite Ha in Hex.
  destruct (decide (m = j)) as [|Hne]; [done|]. exfalso.
  pose proof (holders_release _ _ _ _ _ Hj i) as Hh. rewrite eqb_refl in Hh.
  pose proof (zsum_elem_le (holds i) (<[j := mkLease key i r true]> (sys_leases y)) (mkLease k' i r' false)
                ltac:(intros; apply holds_nonneg)) as Hle.
  rewrite holds_live, eqb_refl in Hle. unfold holders in *.
  enough (1 <= zsum (holds i) (<[j := mkLease key i r true]> (sys_leases y))) by lia.
  apply Hle. apply (list_elem_of_lookup_2 _ m). by rewrite list_lookup_insert_ne.
Qed.

Lemma leased_resource_is_open_witness :
  exists e, heap closed_pool !! 0%nat = Some e /\ (resource e ∉ closeLog closed_pool).
Proof.
  destruct (leased_resource_is_open o1 s_closed 0 (mkLease k1 0 false false) s_closed_reachable
              eq_refl eq_refl) as (e & He & _ & Hc & _).
  exists e. split; [exact He|exact Hc].
Defined.

(** C6. No pooled resource is closed twice or lost: each is either open in its
    bucket or closed once and idle, and after Close, when all leases are released,
    every resource of the pool has been closed. *)
Theorem resources_closed_exactly_once o y :
  reachable o y ->
  NoDup (closeLog (sys_pool y)) /\
  (forall i e, heap (sys_pool y) !! i = Some e ->
     (exists k, i ∈ bucket (sys_pool y) k /\ (resource e ∉ closeLog (sys_pool y))) \/
     (resource e ∈ closeLog (sys_pool y) /\ active e = 0)) /\
  (closed (sys_pool y) = true ->
   (forall l, l ∈ sys_leases y -> l_released l = true) ->
   forall i e, heap (sys_pool y) !! i = Some e -> resource e ∈ closeLog (sys_pool y)).
Proof.
  intros [H Hc]%pool_inv_reachable.
  assert (forall i e, heap (sys_pool y) !! i = Some e ->
     (exists k, i ∈ bucket (sys_pool y) k /\ (resource e ∉ closeLog (sys_pool y))) \/
     (resource e ∈ closeLog (sys_pool y) /\ active e = 0)) as Hall.
  { intros i e He. destruct (sys_origins y !! i) as [k|] eqn:Ek.
    - destruct (decide (i ∈ bucket (sys_pool y) k)) as [Hin|Hni].
      + left. exists k. split; [done|]. by apply (i_in _ _ _ _ _ _ H k i e).
      + right. destruct (i_out _ _ _ _ _ _ H i k e Ek He Hni). done.
    - apply lookup_ge_None in Ek. rewrite (i_len _ _ _ _ _ _ H) in Ek.
      apply lookup_lt_Some in He. lia. }
  split_and!; [apply H|done|].
  intros Hcl Hrel i e He. destruct (Hall i e He) as [(k & Hin & _)|[? _]]; [|done].
  destruct Hc as [_ Hc]. destruct (Hc Hcl k i e Hin He) as [_ Ha]. destruct Ha.
  rewrite (i_active _ _ _ _ _ _ H i e He). apply zsum_all_zero.
  intros l Hl. unfold holds. rewrite (Hrel l Hl). by rewrite andb_false_r.
Qed.

Lemma resources_closed_exactly_once_witness :
  0%nat ∈ closeLog (sys_pool s_done) /\ closed (sys_pool s_done) = true.
Proof.
  split; [|reflexivity].
  destruct (resources_closed_exactly_once o1 s_done s_done_reachable) as (_ & _ & Hall).
  apply (Hall eq_refl) with (i := 0%nat) (e := mkEntry 0 Exclusive 5 9 0 1 true); [|reflexivity].
  intros l Hl. apply list_elem_of_singleton in Hl as ->. reflexivity.
Defined.

(** In every reachable state finishing a dial, releasing a lease and Close run
    to completion (the notification channel is never closed twice), and a release on
    an open pool wakes the waiters. *)
Theorem pool_never_panics o y :
  reachable o y ->
  (forall j key now d, sys_dials y !! j = Some key ->
     is_Some (dialLocked key now d (sys_pool y))) /\
  (forall j l reusable now, sys_leases y !! j = Some l -> l_released l = false ->
     exists p', releaseLocked (l_key l) (l_entry l) reusable now (sys_pool y) = Some p' /\
       (closed (sys_pool y) = false -> notify p' = S (notify (sys_pool y)))) /\
  (forall keys, keys ≡ₚ (map_to_list (entries (sys_pool y))).*1 ->
     exists p', Close keys (sys_pool y) = Some p' /\ closed p' = true /\ notifyClosed p' = true).
Proof.
  intros [H Hc]%pool_inv_reachable. split_and!.
  - intros j key now d _. rewrite dialLocked_unfold.
    destruct (signal_ok _ (settle_closed_ok key _ Hc)) as (p' & -> & _). by eexists.
  - intros j [key i r rel] reusable now Hj Hr. cbn in Hr. subst rel. cbn.
    destruct (lease_in_pool _ _ _ _ _ _ _ _ _ _ H Hj) as (e & He & _).
    unfold releaseLocked. rewrite He. unfold signalLocked.
    destruct Hc as [Hn _]. destruct (_ && _); cbn; (destruct (closed (sys_pool y)); [by eexists|]);
      rewrite Hn; by eexists.
  - intros keys Hp. destruct (Close_ok _ _ _ _ _ _ _ H Hc Hp) as (p' & Hp' & Hcl & _ & Hc').
    exists p'. split_and!; [done..|]. destruct Hc' as [-> _]. done.
Qed.

Lemma pool_never_panics_witness :
  is_Some (releaseLocked k1 0 true 7 dialed_pool) /\ is_Some (Close [k1] dialed_pool).
Proof.
  destruct (pool_never_panics o1 s_dialed s_dialed_reachable) as (_ & Hr & Hc). split.
  - destruct (Hr 0%nat (mkLease k1 0 false false) true 7 eq_refl eq_refl) as (p & Hp & _).
    exists p. exact Hp.
  - destruct (Hc [k1] ltac:(vm_compute; reflexivity)) as (p & Hp & _). exists p. exact Hp.
Defined.

(** With a cap of one and an idle entry whose resource turns out not to be
    reusable, an acquisition retires the entry and waits for a notification,
    although repeating the turn at once would close the entry and dial. *)
Theorem wait_after_retiring_idle_entry key reu now p i e :
  closed p = false -> MaxConnections (options p) = 1 -> bucket p key = [i] -> pend p key = 0 ->
  heap p !! i = Some e -> active e = 0 -> retiring e = false ->
  timeSub now (createdAt e) < Lifetime (options p) ->
  timeSub now (lastIdleAt e) < IdleTimeout (options p) ->
  reu i = Some false ->
  exists p', acquireLocked key now reu p = (p', AcquireWait (notify p)) /\
    (forall reu', (acquireLocked key now reu' p').2 = AcquireDial).
Proof.
  intros Hcl Hmax Hb Hp He Ha Hr Hlt Hit Hreu.
  destruct p as [[mc lt it] es pd nt nc cl h lg]. cbn in *. subst mc cl.
  assert (es !! key = Some [i]) as Hes.
  { unfold bucket in Hb; cbn in Hb. destruct (es !! key); cbn in Hb; by simplify_eq. }
  assert ((i < length h)%nat) as Hlen by by eapply lookup_lt_Some.
  assert ((lt <=? timeSub now (createdAt e)) = false) as L1 by lia.
  assert ((it <=? timeSub now (lastIdleAt e)) = false) as L2 by lia.
  unfold acquireLocked, expireLocked. rewrite Hb. cbn. rewrite He, L1, L2, Ha. cbn.
  rewrite Hr. cbn. unfold availableLocked, bucket; cbn.
  rewrite lookup_insert_eq. cbn. rewrite list_lookup_insert_eq by done. rewrite Hreu. cbn.
  unfold bucket, pend in *; cbn in *. rewrite lookup_insert_eq, Hp. cbn.
  eexists. split; [reflexivity|]. intros reu'. cbn.
  rewrite lookup_insert_eq. cbn.
  rewrite list_lookup_insert_eq by (by rewrite length_insert). cbn. rewrite L1, Ha, L2. cbn.
  rewrite Ha. cbn. rewrite lookup_delete_eq. cbn. rewrite Hp, lookup_delete_eq. reflexivity.
Qed.

Definition idle_pool : Pool :=
  mkPool o1 (<[k1 := [0%nat]]> ∅) ∅ 2 false false [mkEntry 0 Shared 5 7 0 1 false] [].

Lemma wait_after_retiring_idle_entry_witness :
  exists p', acquireLocked k1 8 (fun _ => Some false) idle_pool = (p', AcquireWait 2) /\
    (acquireLocked k1 8 (fun _ => None) p').2 = AcquireDial.
Proof.
  destruct (wait_after_retiring_idle_entry k1 (fun _ => Some false) 8 idle_pool 0
              (mkEntry 0 Shared 5 7 0 1 false)) as (p' & Hp & Hd);
    [vm_compute; reflexivity..|].
  exists p'. split; [exact Hp|apply Hd].
Defined.

End System.
