(* ===== verification/GoText.v ===== *)
(** * What the code uses of Go's text packages

    UTF-8 decoding ([unicode/utf8] and [range] over a string), the functions of
    [strings] and [strconv] the wire code calls, and the HTTP date layout of
    [time].  Strings are byte lists. *)
From S2P Require Import Prelude.

(** ** UTF-8 *)

Definition cont (c : Z) : bool := between 128 c 191.

(** [utf8.DecodeRune]: the rune and its width; [None] for an invalid prefix,
    which Go reports as [RuneError] with width one. *)
Definition decodeRune (s : bytes) : option (Z * nat) :=
  match s with
  | [] => None
  | a :: s1 =>
    if between 0 a 127 then Some (a, 1%nat)
    else match s1 with
    | [] => None
    | b :: s2 =>
      if between 194 a 223 then
        if cont b then Some (Z.land a 31 * 64 + Z.land b 63, 2%nat) else None
      else match s2 with
      | [] => None
      | c :: s3 =>
        if between 224 a 239 then
          if between (if a =? 224 then 160 else 128) b (if a =? 237 then 159 else 191) && cont c
          then Some (Z.land a 15 * 4096 + Z.land b 63 * 64 + Z.land c 63, 3%nat) else None
        else match s3 with
        | [] => None
        | d :: _ =>
          if between 240 a 244 &&
             between (if a =? 240 then 144 else 128) b (if a =? 244 then 143 else 191) &&
             cont c && cont d
          then Some (Z.land a 7 * 262144 + Z.land b 63 * 4096 + Z.land c 63 * 64 + Z.land d 63, 4%nat)
          else None
        end
      end
    end
  end.

Definition RuneError : Z := 65533.

(** One turn of [for i, r := range s]: the byte [s[i]], the rune [r], and
    whether the bytes at [i] are valid UTF-8. *)
Record range_item := mkItem { start_byte : Z; rune : Z; rune_ok : bool }.

Definition first_item (a : Z) (s : bytes) : range_item * nat :=
  match decodeRune (a :: s) with
  | Some (r, w) => (mkItem a r true, pred w)
  | None => (mkItem a RuneError false, 0%nat)
  end.

(** The turns of the loop; [skip] bytes belong to the rune already taken. *)
Fixpoint range_from (skip : nat) (s : bytes) : list range_item :=
  match s with
  | [] => []
  | a :: s' =>
    match skip with
    | S k => range_from k s'
    | O => let '(it, k) := first_item a s' in it :: range_from k s'
    end
  end.
Definition range (s : bytes) : list range_item := range_from 0 s.

(** [utf8.Valid], [utf8.RuneCount]. *)
Definition utf8_Valid (s : bytes) : bool := forallb rune_ok (range s).
Definition RuneCount (s : bytes) : Z := len (range s).

(** [utf8.AppendRune] of a scalar value; surrogates and values out of range
    become [RuneError]. *)
Definition encodeRune (r : Z) : bytes :=
  if between 0 r 127 then [r]
  else if between 128 r 2047 then [192 + Z.shiftr r 6; 128 + Z.land r 63]
  else if between 65536 r 1114111 then
    [240 + Z.shiftr r 18; 128 + Z.land (Z.shiftr r 12) 63;
     128 + Z.land (Z.shiftr r 6) 63; 128 + Z.land r 63]
  else if between 2048 r 65535 && negb (between 55296 r 57343) then
    [224 + Z.shiftr r 12; 128 + Z.land (Z.shiftr r 6) 63; 128 + Z.land r 63]
  else [239; 191; 189].

(** ** strings *)

(** The case fold of a rune, as far as ASCII is concerned: the Kelvin sign folds
    to [k] and the long s to [s]; every other rune outside ASCII folds to a rune
    outside ASCII. *)
Definition fold_rune (r : Z) : Z :=
  if between 65 r 90 then r + 32
  else if r =? 8490 then 107
  else if r =? 383 then 115
  else r.

(** [strings.EqualFold(s, t)] for an ASCII literal [t]. *)
Definition EqualFold (s t : bytes) : bool :=
  (map (fun it => fold_rune (rune it)) (range s)) ==? (map fold_rune t).

(** [unicode.ToLower], as far as ASCII is concerned: the Kelvin sign becomes [k]
    and the dotted capital I becomes [i]; every other rune outside ASCII becomes a
    rune outside ASCII (kept here: results are compared with ASCII literals). *)
Definition lower_rune (r : Z) : Z :=
  if between 65 r 90 then r + 32
  else if r =? 8490 then 107
  else if r =? 304 then 105
  else r.

(** [strings.ToLower]. *)
Definition ToLower (s : bytes) : bytes :=
  concat (map (fun it => encodeRune (lower_rune (rune it))) (range s)).

Definition is_ows (c : Z) : bool := (c =? 32) || (c =? 9).

Fixpoint trimLeft (s : bytes) : bytes :=
  match s with
  | c :: s' => if is_ows c then trimLeft s' else s
  | [] => []
  end.

(** [strings.Trim(s, " \t")]. *)
Definition trimOWS (s : bytes) : bytes := rev (trimLeft (rev (trimLeft s))).

(** [strings.Cut(s, sep)] for a one-byte separator: before, after, found. *)
Fixpoint Cut (s : bytes) (sep : Z) : bytes * bytes * bool :=
  match s with
  | [] => ([], [], false)
  | c :: s' =>
    if c =? sep then ([], s', true)
    else let '(a, b, ok) := Cut s' sep in (c :: a, b, ok)
  end.

(** [strings.IndexByte(s, c) >= 0]. *)
Definition ContainsByte (s : bytes) (c : Z) : bool := existsb (Z.eqb c) s.

Fixpoint HasPrefix (s pre : bytes) : bool :=
  match pre, s with
  | [], _ => true
  | p :: pre', c :: s' => (c =? p) && HasPrefix s' pre'
  | _ :: _, [] => false
  end.

(** ** strconv *)

Definition isDigit (c : Z) : bool := between 48 c 57.

Definition digits_value (s : bytes) : Z := fold_left (fun v c => v * 10 + (c - 48)) s 0.

(** [strconv.ParseUint(s, 10, bits)]; [None] for a syntax or range error.  In
    base 10 no underscore and no prefix is accepted. *)
Definition ParseUint10 (s : bytes) (bits : Z) : option Z :=
  if match s with [] => true | _ => false end || negb (forallb isDigit s) then None
  else let v := digits_value s in if v <? 2 ^ bits then Some v else None.

(** A decimal number, as [%d] prints it; a number has at most as many digits as bits. *)
Fixpoint decimal (fuel : nat) (n : Z) : bytes :=
  match fuel with
  | O => []
  | S fuel => if n <? 10 then [48 + n] else decimal fuel (n / 10) ++ [48 + n mod 10]
  end.
Definition Itoa (n : Z) : bytes := decimal (S (Z.to_nat (Z.log2 n))) n.

Definition hexDigit (c : Z) : option Z :=
  if between 48 c 57 then Some (c - 48)
  else if between 97 c 102 then Some (c - 97 + 10)
  else if between 65 c 70 then Some (c - 65 + 10)
  else None.

Fixpoint hex_value (v : Z) (s : bytes) : option Z :=
  match s with
  | [] => Some v
  | c :: s' => match hexDigit c with Some d => hex_value (v * 16 + d) s' | None => None end
  end.

(** [strconv.ParseUint(s, 16, bits)]. *)
Definition ParseUint16 (s : bytes) (bits : Z) : option Z :=
  match s with
  | [] => None
  | _ => match hex_value 0 s with
         | Some v => if v <? 2 ^ bits then Some v else None
         | None => None
         end
  end.

(** ** time *)

(** Days since 1 January 1970 of a date of the proleptic Gregorian calendar. *)
Definition days_from_civil (y m d : Z) : Z :=
  let y' := if m <=? 2 then y - 1 else y in
  let era := y' / 400 in
  let yoe := y' - era * 400 in
  let mp := (m + 9) mod 12 in
  let doy := (153 * mp + 2) / 5 + d - 1 in
  let doe := yoe * 365 + yoe / 4 - yoe / 100 + doy in
  era * 146097 + doe - 719468.

Definition leap (y : Z) : bool := (y mod 4 =? 0) && (negb (y mod 100 =? 0) || (y mod 400 =? 0)).

Definition daysIn (y m : Z) : Z :=
  if m =? 2 then (if leap y then 29 else 28)
  else if existsb (Z.eqb m) [4; 6; 9; 11] then 30 else 31.

Definition weekdays : list bytes :=
  [B "Thu"; B "Fri"; B "Sat"; B "Sun"; B "Mon"; B "Tue"; B "Wed"].
Definition months : list bytes :=
  [B "Jan"; B "Feb"; B "Mar"; B "Apr"; B "May"; B "Jun";
   B "Jul"; B "Aug"; B "Sep"; B "Oct"; B "Nov"; B "Dec"].

(** The name of the day of the week, by days since 1 January 1970 (a Thursday). *)
Definition weekday (days : Z) : bytes := nth (Z.to_nat (days mod 7)) weekdays [].

Definition two (n : Z) : bytes := [48 + n / 10; 48 + n mod 10].
Definition four (n : Z) : bytes := two (n / 100) ++ two (n mod 100).

(** A valid civil date and time of a year of four digits. *)
Record civil := mkCivil { c_year : Z; c_month : Z; c_day : Z; c_hour : Z; c_min : Z; c_sec : Z }.

Definition civil_ok (c : civil) : bool :=
  between 0 (c_year c) 9999 && between 1 (c_month c) 12 &&
  between 1 (c_day c) (daysIn (c_year c) (c_month c)) &&
  between 0 (c_hour c) 23 && between 0 (c_min c) 59 && between 0 (c_sec c) 59.

Definition civil_days (c : civil) : Z := days_from_civil (c_year c) (c_month c) (c_day c).

(** Nanoseconds since 1 January 1970 UTC. *)
Definition civil_nanos (c : civil) : Z :=
  (civil_days c * 86400 + c_hour c * 3600 + c_min c * 60 + c_sec c) * 1000000000.

(** [time.Time{}]: 1 January of year 1. *)
Definition zeroTime : Z := civil_nanos (mkCivil 1 1 1 0 0 0).

(** [t.UTC().Format("Mon, 02 Jan 2006 15:04:05 GMT")]. *)
Definition formatHTTPDate (c : civil) : bytes :=
  weekday (civil_days c) ++ B ", " ++ two (c_day c) ++ B " " ++
  nth (Z.to_nat (c_month c - 1)) months [] ++ B " " ++ four (c_year c) ++ B " " ++
  two (c_hour c) ++ B ":" ++ two (c_min c) ++ B ":" ++ two (c_sec c) ++ B " GMT".

Definition sub (s : bytes) (i n : nat) : bytes := take n (drop i s).

Fixpoint month_index (names : list bytes) (s : bytes) (i : Z) : Z :=
  match names with
  | [] => 0
  | n :: rest => if n ==? s then i else month_index rest s (i + 1)
  end.

(** The fields of a date in the canonical layout.  What [time.Parse] accepts
    beside it is refused by the comparison with [Format] that follows. *)
Definition dateFields (s : bytes) : civil :=
  mkCivil (digits_value (sub s 12 4)) (month_index months (sub s 8 3) 1)
    (digits_value (sub s 5 2)) (digits_value (sub s 17 2)) (digits_value (sub s 20 2))
    (digits_value (sub s 23 2)).

(** [date, err := time.Parse(layout, s)] with
    [err == nil && date.UTC().Format(layout) == s]. *)
Definition strictHTTPDate (s : bytes) : option Z :=
  let c := dateFields s in
  if civil_ok c && (formatHTTPDate c ==? s) then Some (civil_nanos c) else None.

(** ** Facts *)

Lemma betweenP lo c hi : between lo c hi = true <-> lo <= c <= hi.
Proof. unfold between. rewrite andb_true_iff, !Z.leb_le. lia. Qed.

Lemma digits_value_snoc s c : digits_value (s ++ [c]) = digits_value s * 10 + (c - 48).
Proof. unfold digits_value. by rewrite fold_left_app. Qed.

Lemma ParseUint10_range s bits n : ParseUint10 s bits = Some n -> 0 <= n < 2 ^ bits.
Proof.
  unfold ParseUint10. destruct (_ || _) eqn:Eb; [done|]. apply orb_false_iff in Eb as [_ Eb%negb_false_iff].
  destruct (digits_value s <? 2 ^ bits) eqn:El; [|done]. intros [= <-]. split; [|lia]. clear El.
  induction s as [|c s IH] using rev_ind; [done|]. rewrite digits_value_snoc.
  rewrite forallb_app in Eb. cbn in Eb. unfold isDigit in *. rewrite !andb_true_iff, betweenP in Eb.
  destruct Eb as [Eb [Hc _]]. specialize (IH Eb). lia.
Qed.

Lemma decimal_spec fuel n : 0 <= n -> n < 2 ^ Z.of_nat fuel -> n <> 0 \/ fuel <> O ->
  forallb isDigit (decimal fuel n) = true /\ decimal fuel n <> [] /\ digits_value (decimal fuel n) = n.
Proof.
  revert n. induction fuel as [|fuel IH]; intros n Hn Hb Hf.
  { change (2 ^ Z.of_nat 0) with 1 in Hb. lia. }
  rewrite Nat2Z.inj_succ, Z.pow_succ_r in Hb by lia. cbn [decimal].
  destruct (n <? 10) eqn:E.
  - split_and!; [|done|unfold digits_value; cbn; lia]. cbn. unfold isDigit.
    rewrite (proj2 (betweenP 48 (48 + n) 57)) by lia. done.
  - pose proof (Z.div_mod n 10 ltac:(lia)). pose proof (Z.mod_pos_bound n 10 ltac:(lia)).
    destruct (IH (n / 10)) as (H1 & H2 & H3); [lia|lia|lia|].
    split_and!; [|by destruct (decimal fuel (n / 10))|rewrite digits_value_snoc, H3; lia].
    rewrite forallb_app, H1. cbn. unfold isDigit. by rewrite (proj2 (betweenP 48 (48 + n mod 10) 57)) by lia.
Qed.

(** Reading back a number that was printed. *)
Lemma ParseUint10_Itoa n bits : 0 <= n < 2 ^ bits -> ParseUint10 (Itoa n) bits = Some n.
Proof.
  intros Hn. destruct (decimal_spec (S (Z.to_nat (Z.log2 n))) n) as (H1 & H2 & H3); [lia| |by right|].
  { rewrite Nat2Z.inj_succ, Z2Nat.id by apply Z.log2_nonneg.
    destruct (decide (n = 0)) as [->|]; [done|]. apply Z.log2_spec. lia. }
  unfold ParseUint10, Itoa. rewrite H1, H3. destruct (decimal _ n) eqn:E; [done|]. cbn [orb negb].
  by rewrite (proj2 (Z.ltb_lt n (2 ^ bits))) by lia.
Qed.

(** A test on the first byte of each rune that only ASCII passes is a test on
    every byte. *)
Lemma range_ascii (f : Z -> bool) s :
  (forall c, f c = true -> 0 <= c <= 127) ->
  forallb (fun it => f (start_byte it)) (range s) = forallb f s.
Proof.
  intros Hf. unfold range. induction s as [|a s IH]; [done|]. cbn. unfold first_item.
  destruct (f a) eqn:Ea.
  - assert (between 0 a 127 = true) as Hb by (apply betweenP, Hf, Ea).
    cbn. rewrite Hb. cbn. by rewrite Ea, IH.
  - cbn. destruct (if between 0 a 127 then _ else _) as [[r w]|]; cbn; by rewrite Ea.
Qed.

Lemma digits_two n : 0 <= n -> digits_value (two n) = n.
Proof. intros H. unfold digits_value, two; cbn. pose proof (Z.div_mod n 10). lia. Qed.

Lemma digits_four n : 0 <= n -> digits_value (four n) = n.
Proof.
  intros H. unfold digits_value, four, two; cbn.
  pose proof (Z.div_mod n 100). pose proof (Z.div_mod (n / 100) 10).
  pose proof (Z.div_mod (n mod 100) 10). lia.
Qed.

Lemma weekday_three days : exists a b c, weekday days = [a; b; c].
Proof.
  unfold weekday. pose proof (Z.mod_pos_bound days 7 ltac:(lia)) as Hb.
  assert (days mod 7 = 0 \/ days mod 7 = 1 \/ days mod 7 = 2 \/ days mod 7 = 3 \/
          days mod 7 = 4 \/ days mod 7 = 5 \/ days mod 7 = 6) as Hc by lia.
  destruct Hc as [->|[->|[->|[->|[->|[->| ->]]]]]]; vm_compute; eauto.
Qed.

Lemma month_three m : 1 <= m <= 12 -> exists a b c,
  nth (Z.to_nat (m - 1)) months [] = [a; b; c] /\ month_index months [a; b; c] 1 = m.
Proof.
  intros Hm.
  assert (m = 1 \/ m = 2 \/ m = 3 \/ m = 4 \/ m = 5 \/ m = 6 \/ m = 7 \/ m = 8 \/ m = 9 \/
          m = 10 \/ m = 11 \/ m = 12) as Hc by lia.
  repeat (destruct Hc as [->|Hc]; [vm_compute; eauto 10|]). subst. vm_compute. eauto 10.
Qed.

Lemma strictHTTPDate_format c :
  civil_ok c = true -> strictHTTPDate (formatHTTPDate c) = Some (civil_nanos c).
Proof.
  intros Hok. assert (dateFields (formatHTTPDate c) = c) as Hf.
  - unfold civil_ok in Hok. rewrite !andb_true_iff, !betweenP in Hok. destruct Hok as (((((Hy & Hm) & Hd) & Hh) & Hi) & Hs).
    destruct (weekday_three (civil_days c)) as (w1 & w2 & w3 & Hw).
    destruct (month_three (c_month c) Hm) as (m1 & m2 & m3 & Hmo & Hmi).
    unfold formatHTTPDate. rewrite Hw, Hmo. destruct c as [y m d h i s]. cbn [c_year c_month c_day c_hour c_min c_sec] in *.
    transitivity (mkCivil (digits_value (four y)) (month_index months [m1; m2; m3] 1)
      (digits_value (two d)) (digits_value (two h)) (digits_value (two i)) (digits_value (two s)));
      [reflexivity|].
    rewrite digits_four, Hmi, !digits_two by lia. done.
  - unfold strictHTTPDate. by rewrite Hf, Hok, eqb_refl.
Qed.

(** Every accepted text is the format of the date it stands for. *)
Lemma strictHTTPDate_canonical s t :
  strictHTTPDate s = Some t ->
  exists c, civil_ok c = true /\ s = formatHTTPDate c /\ t = civil_nanos c.
Proof.
  unfold strictHTTPDate. intros H. destruct (_ && _) eqn:E; simplify_eq.
  apply andb_true_iff in E as [E1 E2%eqb_true_1]. eauto.
Qed.

(** *** UTF-8 *)

Lemma cont_high c : cont c = true -> 128 <= c.
Proof. intros H%betweenP. lia. Qed.

(** A rune is decoded from its own bytes alone; a rune of one byte is ASCII and
    every byte of a longer one is not. *)
Lemma decodeRune_spec s r w :
  decodeRune s = Some (r, w) ->
  exists p, length p = w /\ (1 <= w)%nat /\ s = p ++ drop w s /\
    (forall t, decodeRune (p ++ t) = Some (r, w)) /\
    ((exists c, p = [c] /\ r = c /\ 0 <= c <= 127) \/ ((2 <= w)%nat /\ Forall (fun c => 128 <= c) p)).
Proof.
  intros H. destruct s as [|a s1]; cbn in H; [done|].
  destruct (between 0 a 127) eqn:Ea.
  { simplify_eq. exists [r]. cbn. rewrite drop_0. split_and!; [done|lia|done| |].
    - intros t. by rewrite Ea.
    - left. exists r. split_and!; try done; apply betweenP in Ea; lia. }
  destruct s1 as [|b s2]; [done|]. destruct (between 194 a 223) eqn:Ea2.
  { destruct (cont b) eqn:Eb; [|done]. simplify_eq. exists [a; b]. cbn. rewrite drop_0.
    split_and!; [done|lia|done| |].
    - intros t. by rewrite Ea, Ea2, Eb.
    - right. apply betweenP in Ea2. apply cont_high in Eb. split; [lia|]. repeat constructor; lia. }
  destruct s2 as [|c s3]; [done|]. destruct (between 224 a 239) eqn:Ea3.
  { destruct (_ && cont c) eqn:Eb; [|done]. simplify_eq. exists [a; b; c]. cbn. rewrite drop_0.
    split_and!; [done|lia|done| |].
    - intros t. by rewrite Ea, Ea2, Ea3, Eb.
    - right. apply andb_true_iff in Eb as [Eb Ec%cont_high]. apply betweenP in Ea3, Eb. split; [lia|].
      repeat constructor; try lia. destruct (a =? 224), (a =? 237); lia. }
  destruct s3 as [|d s4]; [done|]. destruct (_ && cont d) eqn:Eb; [|done]. simplify_eq.
  exists [a; b; c; d]. cbn. rewrite drop_0. split_and!; [done|lia|done| |].
  - intros t. by rewrite Ea, Ea2, Ea3, Eb.
  - right. rewrite !andb_true_iff in Eb. destruct Eb as (((E1 & E2) & Ec%cont_high) & Ed%cont_high).
    apply betweenP in E1, E2. split; [lia|]. repeat constructor; try lia.
    destruct (a =? 240), (a =? 244); lia.
Qed.

Lemma range_from_drop k s : range_from k s = range (drop k s).
Proof. unfold range. revert k. induction s as [|a s IH]; intros [|k]; cbn; try done. Qed.

Lemma utf8_Valid_cons a s :
  utf8_Valid (a :: s) =
  match decodeRune (a :: s) with
  | Some (_, w) => utf8_Valid (drop w (a :: s))
  | None => false
  end.
Proof.
  unfold utf8_Valid. unfold range at 1. cbn [range_from]. unfold first_item.
  destruct (decodeRune (a :: s)) as [[r w]|] eqn:E; [|done].
  destruct (decodeRune_spec _ _ _ E) as (p & _ & Hw & _). destruct w as [|w]; [lia|].
  cbn [forallb rune_ok andb pred drop]. by rewrite range_from_drop.
Qed.

(** An ASCII byte cuts a valid text into valid texts. *)
Lemma utf8_Valid_split a c b :
  0 <= c <= 127 -> utf8_Valid (a ++ c :: b) = true -> utf8_Valid a = true /\ utf8_Valid b = true.
Proof.
  intros Hc. revert b.
  induction a as [a IH] using (induction_ltof1 _ length). unfold ltof in IH. intros b H.
  destruct a as [|x a]; cbn [app] in H; rewrite utf8_Valid_cons in H.
  { cbn in H. rewrite (proj2 (betweenP 0 c 127)) in H by lia. cbn in H. by rewrite drop_0 in H. }
  destruct (decodeRune (x :: a ++ c :: b)) as [[r w]|] eqn:E; [|done].
  destruct (decodeRune_spec _ _ _ E) as (p & Hp & Hw & Hs & Hd & Hor).
  assert (w <= length (x :: a))%nat as Hle.
  { destruct Hor as [(y & -> & _)|[_ Hhigh]]; [cbn in *; lia|].
    destruct (decide (w <= length (x :: a))%nat) as [|Hn]; [done|exfalso].
    assert (p !! length (x :: a) = Some c) as Hl.
    { assert ((x :: a ++ c :: b) !! length (x :: a) = Some c) as Hl
        by (rewrite app_comm_cons; apply list_lookup_middle; done).
      rewrite Hs, lookup_app_l in Hl by lia. done. }
    eapply Forall_lookup_1 in Hhigh; [|exact Hl]. cbn in Hhigh. lia. }
  assert (exists q, x :: a = p ++ q) as [q Hq].
  { exists (drop w (x :: a)). rewrite app_comm_cons, drop_app_le in Hs by done.
    rewrite app_assoc in Hs. by apply app_inj_2 in Hs as [? _]. }
  rewrite app_comm_cons, Hq, <- app_assoc, drop_app_length' in H by done.
  destruct (IH q ltac:(rewrite Hq, length_app; lia) b H) as [H1 H2]. split; [|done].
  rewrite Hq. destruct p as [|y p]; [cbn in *; lia|]. cbn [app].
  rewrite utf8_Valid_cons, app_comm_cons, Hd, <- Hp, drop_app_length. done.
Qed.

Lemma between_out lo c hi : ~ (lo <= c <= hi) -> between lo c hi = false.
Proof. rewrite <- betweenP. by destruct (between lo c hi). Qed.

Ltac dlia := Z.to_euclidean_division_equations; lia.

(** Encoding a decoded rune gives its bytes back. *)
Lemma encodeRune_decodeRune s r w :
  decodeRune s = Some (r, w) -> 0 <= r <= 1114111 /\ encodeRune r = take w s.
Proof.
  assert (forall x, Z.land x 63 = x mod 64) as H63 by (intros; by apply (Z.land_ones _ 6)).
  assert (forall x, Z.land x 31 = x mod 32) as H31 by (intros; by apply (Z.land_ones _ 5)).
  assert (forall x, Z.land x 15 = x mod 16) as H15 by (intros; by apply (Z.land_ones _ 4)).
  assert (forall x, Z.land x 7 = x mod 8) as H7 by (intros; by apply (Z.land_ones _ 3)).
  assert (forall x, Z.shiftr x 6 = x / 64) as S6 by (intros; by apply Z.shiftr_div_pow2).
  assert (forall x, Z.shiftr x 12 = x / 4096) as S12 by (intros; by apply Z.shiftr_div_pow2).
  assert (forall x, Z.shiftr x 18 = x / 262144) as S18 by (intros; by apply Z.shiftr_div_pow2).
  intros H. unfold encodeRune. rewrite !H63, S6, S12, S18. unfold decodeRune, cont in H.
  destruct s as [|a s1]; [done|]. destruct (between 0 a 127) eqn:Ea.
  { simplify_eq. rewrite Ea. apply betweenP in Ea. split; [dlia|]. cbn. by rewrite take_0. }
  destruct s1 as [|b s2]; [done|]. destruct (between 194 a 223) eqn:Ea2.
  { destruct (between 128 b 191) eqn:Eb; [|done]. apply betweenP in Ea2, Eb. rewrite H31, H63 in H. simplify_eq.
    rewrite (between_out 0) by dlia. rewrite (proj2 (betweenP 128 _ 2047)) by dlia.
    cbn. rewrite take_0. split; [dlia|]. repeat (f_equal; try dlia). }
  destruct s2 as [|c s3]; [done|]. destruct (between 224 a 239) eqn:Ea3.
  { destruct (_ && between 128 c 191) eqn:Eb; [|done]. apply andb_true_iff in Eb as [Eb Ec].
    apply betweenP in Ea3, Eb, Ec. rewrite H15, !H63 in H. simplify_eq.
    assert (128 <= b <= 191 /\ (a = 224 -> 160 <= b) /\ (a = 237 -> b <= 159)) as (Hb & Hlo & Hhi).
    { destruct (a =? 224) eqn:E1, (a =? 237) eqn:E2; lia. }
    rewrite (between_out 0) by dlia.
    rewrite (between_out 128) by dlia.
    rewrite (between_out 65536) by dlia.
    rewrite (proj2 (betweenP 2048 _ 65535)) by dlia.
    rewrite (between_out 55296) by dlia.
    cbn. rewrite take_0. split; [dlia|]. repeat (f_equal; try dlia). }
  destruct s3 as [|d s4]; [done|]. destruct (_ && between 128 d 191) eqn:Eb; [|done].
  rewrite !andb_true_iff in Eb. destruct Eb as (((E1 & Eb) & Ec) & Ed). apply betweenP in E1, Eb, Ec, Ed.
  rewrite H7, !H63 in H. simplify_eq.
  assert (128 <= b <= 191 /\ (a = 240 -> 144 <= b) /\ (a = 244 -> b <= 143)) as (Hb & Hlo & Hhi).
  { destruct (a =? 240) eqn:E2, (a =? 244) eqn:E3; lia. }
  rewrite (between_out 0) by dlia.
  rewrite (between_out 128) by dlia.
  rewrite (proj2 (betweenP 65536 _ 1114111)) by dlia.
  cbn. rewrite take_0. split; [dlia|]. repeat (f_equal; try dlia).
Qed.

Lemma utf8_Valid_app a b : utf8_Valid a = true -> utf8_Valid b = true -> utf8_Valid (a ++ b) = true.
Proof.
  intros Ha Hb. revert Ha. induction a as [a IH] using (induction_ltof1 _ length). unfold ltof in IH.
  destruct a as [|x a]; [done|]. cbn [app]. rewrite !utf8_Valid_cons.
  destruct (decodeRune (x :: a)) as [[r w]|] eqn:E; [|done].
  destruct (decodeRune_spec _ _ _ E) as (p & Hp & Hw & Hs & Hd & _). revert Hs.
  set (q := drop w (x :: a)). intros Hs Hq. rewrite app_comm_cons, Hs, <- app_assoc, Hd, drop_app_length' by done.
  apply IH; [rewrite Hs, length_app; lia|done].
Qed.

(** A string is cut into runes and invalid bytes. *)
Definition piece_ok (x : bytes * range_item) : Prop :=
  if rune_ok x.2 then 0 <= rune x.2 /\ encodeRune (rune x.2) = x.1 /\ utf8_Valid x.1 = true
  else rune x.2 = RuneError /\ length x.1 = 1%nat.
Lemma range_pieces s : exists ps,
  s = concat (map fst ps) /\ range s = map snd ps /\ Forall piece_ok ps.
Proof.
  induction s as [s IH] using (induction_ltof1 _ length). unfold ltof in IH.
  destruct s as [|a s]; [by exists []|]. unfold range. cbn [range_from]. unfold first_item.
  destruct (decodeRune (a :: s)) as [[r w]|] eqn:E.
  - destruct (decodeRune_spec _ _ _ E) as (p & Hp & Hw & Hs & Hd & _).
    destruct (encodeRune_decodeRune _ _ _ E) as [Hr Hen].
    destruct (IH (drop w (a :: s))) as (ps & Hc & Hrange & Hps).
    { rewrite Hs at 2. rewrite length_app, Hp. lia. }
    exists ((p, mkItem a r true) :: ps). cbn [map concat fst snd]. rewrite <- Hc, <- Hrange, range_from_drop. split_and!.
    + done.
    + by destruct w as [|w]; [lia|].
    + constructor; [|done]. unfold piece_ok. cbn [fst snd rune_ok rune]. split_and!; [lia| |].
      * rewrite Hen. rewrite Hs at 1. by rewrite <- Hp, take_app_length.
      * destruct p as [|y p]; [cbn in Hp; lia|]. rewrite utf8_Valid_cons.
        specialize (Hd []). rewrite app_nil_r in Hd. by rewrite Hd, <- Hp, drop_all.
  - destruct (IH s) as (ps & Hc & Hrange & Hps); [cbn; lia|].
    exists (([a], mkItem a RuneError false) :: ps). cbn [map concat fst snd]. rewrite <- Hc, range_from_drop, drop_0, <- Hrange.
    split_and!; [done|done|]. by constructor.
Qed.
