(* ===== verification/StrictJson.v ===== *)
(** * The strict JSON parser (internal/strictjson/parser.go)

    The scanner is translated function by function; its position is the
    remaining input [s.data[s.index:]].  [Grammar] is the JSON grammar with the
    limits of the package as a relation between syntax trees and texts, and the
    theorems say that the scanner accepts that language. *)
From S2P Require Import Prelude GoText.

#[local] Set Warnings "-register-all".

(** parser.go, the limits. *)
Definition MaxDocumentBytes : Z := 1048576.
Definition MaxNestingDepth : Z := 32.
Definition MaxTokens : Z := 10000.
Definition MaxFieldNameUTF8Bytes : Z := 64.
Definition MaxScalarStringUTF8Bytes : Z := 8192.
Definition MaxScalarStringChars : Z := 8192.
Definition MaxNumberChars : Z := 128.
Definition MaxMembersPerObject : Z := 16.

(** parser.go, [Failure].  The package never reports [FailureNone]; the model
    uses it for an exhausted fuel, which [Parse_total] excludes. *)
Inductive Failure := FailureNone | FailureProtocol | FailureLimit.
#[export] Instance Failure_eq_dec : EqDecision Failure.
Proof. solve_decision. Defined.

(** parser.go, [Error.Error]. *)
Definition Failure_Error (e : option Failure) : bytes :=
  match e with
  | Some FailureLimit => B "JSON limit exceeded"
  | _ => B "invalid JSON"
  end.

Definition protocolError {A} : result Failure A := Err FailureProtocol.
Definition limitError {A} : result Failure A := Err FailureLimit.

(** parser.go, [scanner]: [rest] is [data[index:]]. *)
Record scanner := mkScanner { rest : bytes; tokens : Z }.

Definition set_rest (r : bytes) (s : scanner) : scanner := mkScanner r (tokens s).

Definition is_ws (c : Z) : bool := (c =? 32) || (c =? 9) || (c =? 10) || (c =? 13).

Fixpoint skip_ws (r : bytes) : bytes :=
  match r with
  | c :: r' => if is_ws c then skip_ws r' else r
  | [] => []
  end.

(** parser.go, [whitespace]. *)
Definition whitespace (s : scanner) : scanner := set_rest (skip_ws (rest s)) s.

(** parser.go, [token]. *)
Definition token (s : scanner) : result Failure scanner :=
  let n := tokens s + 1 in
  if MaxTokens <? n then limitError else Ok (mkScanner (rest s) n).

(** parser.go, [consume]; [None] leaves the position as it was. *)
Definition consume (c : Z) (r : bytes) : option bytes :=
  match r with
  | x :: r' => if x =? c then Some r' else None
  | [] => None
  end.

Fixpoint skip_digits (r : bytes) : bytes :=
  match r with
  | c :: r' => if isDigit c then skip_digits r' else r
  | [] => []
  end.

Definition starts_digit (r : bytes) : bool :=
  match r with c :: _ => isDigit c | [] => false end.

(** parser.go, [hexUnit]; four digits fit the [uint16]. *)
Definition hexUnit (r : bytes) : option Z :=
  if len r <? 4 then None else hex_value 0 (take 4 r).

Definition short_escape (c : Z) : bool := existsb (Z.eqb c) (34 :: B "\/bfnrt").
#[local] Arguments short_escape : simpl never.

(** parser.go, [escape]: [r] starts at the backslash. *)
Definition escape (r : bytes) : result Failure bytes :=
  if len r <=? 1 then protocolError
  else
    let c := nth 1 r 0 in
    if short_escape c then Ok (drop 2 r)
    else if c =? 117 then
      match hexUnit (drop 2 r) with
      | None => protocolError
      | Some value =>
        let r := drop 6 r in
        if between 55296 value 56319 then
          if (len r <? 6) || negb (nth 0 r 0 =? 92) || negb (nth 1 r 0 =? 117) then protocolError
          else match hexUnit (drop 2 r) with
               | None => protocolError
               | Some low => if between 56320 low 57343 then Ok (drop 6 r) else protocolError
               end
        else if between 56320 value 57343 then protocolError
        else Ok r
      end
    else protocolError.

(** parser.go, the loop of [string]: the input after the closing quote. *)
Fixpoint scan_string (fuel : nat) (r : bytes) : result Failure bytes :=
  match fuel with
  | O => Err FailureNone
  | S fuel =>
    match r with
    | [] => protocolError
    | c :: r' =>
      if c =? 34 then Ok r'
      else if c =? 92 then r'' ← escape r; scan_string fuel r''
      else if c <? 32 then protocolError
      else scan_string fuel r'
    end
  end.

(** ** encoding/json, as the package uses it *)

(** The value of a two-byte escape. *)
Definition short_value (c : Z) : option Z :=
  if c =? 34 then Some 34 else if c =? 92 then Some 92 else if c =? 47 then Some 47
  else if c =? 98 then Some 8 else if c =? 102 then Some 12 else if c =? 110 then Some 10
  else if c =? 114 then Some 13 else if c =? 116 then Some 9 else None.

(** [getu4]: the code unit of the escape [\uXXXX] at the head of [r]. *)
Definition getu4 (r : bytes) : option Z :=
  match r with
  | a :: b :: r' => if (a =? 92) && (b =? 117) then hexUnit r' else None
  | _ => None
  end.

(** [json.Unmarshal] of a string literal into a Go string, on the text between
    the quotes: escapes are replaced, an unpaired surrogate and invalid UTF-8
    become U+FFFD. *)
Fixpoint unquote (fuel : nat) (r : bytes) : option bytes :=
  match fuel with
  | O => None
  | S fuel =>
    match r with
    | [] => Some []
    | c :: r' =>
      if c =? 92 then
        match getu4 r with
        | Some u =>
          if between 55296 u 57343 then
            match getu4 (drop 6 r) with
            | Some l =>
              if between 55296 u 56319 && between 56320 l 57343 then
                let x := (u - 55296) * 1024 + (l - 56320) + 65536 in
                out ← unquote fuel (drop 12 r); Some (encodeRune x ++ out)
              else out ← unquote fuel (drop 6 r); Some (encodeRune RuneError ++ out)
            | None => out ← unquote fuel (drop 6 r); Some (encodeRune RuneError ++ out)
            end
          else out ← unquote fuel (drop 6 r); Some (encodeRune u ++ out)
        | None =>
          match r' with
          | [] => None
          | e :: r'' => v ← short_value e; out ← unquote fuel r''; Some (v :: out)
          end
        end
      else if (c =? 34) || (c <? 32) then None
      else match decodeRune r with
           | Some (_, w) => out ← unquote fuel (drop w r); Some (take w r ++ out)
           | None => out ← unquote fuel r'; Some (encodeRune RuneError ++ out)
           end
    end
  end.

(** The text of [r] before its suffix [r']. *)
Definition before (r r' : bytes) : bytes := take (length r - length r') r.

(** ** The scanner *)

(** parser.go, [string]: the position is at the opening quote. *)
Definition string (fieldName : bool) (s : scanner) : result Failure (bytes * scanner) :=
  let body := tail (rest s) in
  r ← scan_string (S (length body)) body;
  let lit := removelast (before body r) in
  match unquote (S (length lit)) lit with
  | None => protocolError
  | Some value =>
    if if fieldName then MaxFieldNameUTF8Bytes <? len value
       else (MaxScalarStringUTF8Bytes <? len value) || (MaxScalarStringChars <? RuneCount value)
    then limitError
    else Ok (value, set_rest r s)
  end.

(** parser.go, [literal]. *)
Definition literal (value : bytes) (s : scanner) : result Failure scanner :=
  if negb (take (length value) (rest s) ==? value) then protocolError
  else s ← token s; Ok (set_rest (drop (length value) (rest s)) s).

(** parser.go, [number], lines 290 to 301: the integer part. *)
Definition number_int (r : bytes) : result Failure bytes :=
  match consume 48 r with
  | Some r' => if starts_digit r' then protocolError else Ok r'
  | None =>
    match r with
    | [] => protocolError
    | d :: _ => if between 49 d 57 then Ok (skip_digits r) else protocolError
    end
  end.

(** parser.go, [number], lines 302 to 309: the fraction. *)
Definition number_frac (r : bytes) : result Failure bytes :=
  match consume 46 r with
  | Some r' => if starts_digit r' then Ok (skip_digits r') else protocolError
  | None => Ok r
  end.

(** parser.go, [number], lines 310 to 321: the exponent. *)
Definition number_exp (r : bytes) : result Failure bytes :=
  match r with
  | e :: r' =>
    if (e =? 101) || (e =? 69) then
      let r' := match r' with
                | c :: r'' => if (c =? 43) || (c =? 45) then r'' else r'
                | [] => r'
                end in
      if starts_digit r' then Ok (skip_digits r') else protocolError
    else Ok r
  | [] => Ok r
  end.

(** parser.go, [number], lines 287 to 321: the input after the number. *)
Definition number_lex (r : bytes) : result Failure bytes :=
  match consume 45 r with
  | Some [] => protocolError
  | sign =>
    r ← number_int (default r sign);
    r ← number_frac r;
    number_exp r
  end.

(** parser.go, [number]. *)
Definition number (s : scanner) : result Failure scanner :=
  r ← number_lex (rest s);
  if MaxNumberChars <? len (rest s) - len r then limitError else token (set_rest r s).

(** parser.go, [value], the loop of [object] and the loop of [array]. *)
Fixpoint value (fuel : nat) (depth : Z) (s : scanner) : result Failure scanner :=
  match fuel with
  | O => Err FailureNone
  | S fuel =>
    let s := whitespace s in
    match rest s with
    | [] => protocolError
    | c :: r =>
      if c =? 123 then object fuel (depth + 1) s
      else if c =? 91 then array fuel (depth + 1) s
      else if c =? 34 then s ← token s; p ← string false s; Ok p.2
      else if c =? 116 then literal (B "true") s
      else if c =? 102 then literal (B "false") s
      else if c =? 110 then literal (B "null") s
      else number s
    end
  end
with object (fuel : nat) (depth : Z) (s : scanner) : result Failure scanner :=
  match fuel with
  | O => Err FailureNone
  | S fuel =>
    if MaxNestingDepth <? depth then limitError
    else
      s ← token s;
      let s := whitespace (set_rest (tail (rest s)) s) in
      match consume 125 (rest s) with
      | Some r => token (set_rest r s)
      | None => members fuel depth 1 [] s
      end
  end
with members (fuel : nat) (depth n : Z) (keys : list bytes) (s : scanner)
    : result Failure scanner :=
  match fuel with
  | O => Err FailureNone
  | S fuel =>
    let s := whitespace s in
    match consume 34 (rest s) with
    | None => protocolError
    | Some _ =>
      s ← token s;
      p ← string true s;
      let key := p.1 in
      if bool_decide (key ∈ keys) then protocolError
      else if MaxMembersPerObject <? n then limitError
      else
        let s := whitespace p.2 in
        match consume 58 (rest s) with
        | None => protocolError
        | Some r =>
          s ← value fuel depth (set_rest r s);
          let s := whitespace s in
          match consume 125 (rest s) with
          | Some r => token (set_rest r s)
          | None =>
            match consume 44 (rest s) with
            | Some r => members fuel depth (n + 1) (key :: keys) (set_rest r s)
            | None => protocolError
            end
          end
        end
    end
  end
with array (fuel : nat) (depth : Z) (s : scanner) : result Failure scanner :=
  match fuel with
  | O => Err FailureNone
  | S fuel =>
    if MaxNestingDepth <? depth then limitError
    else
      s ← token s;
      let s := whitespace (set_rest (tail (rest s)) s) in
      match consume 93 (rest s) with
      | Some r => token (set_rest r s)
      | None => elements fuel depth s
      end
  end
with elements (fuel : nat) (depth : Z) (s : scanner) : result Failure scanner :=
  match fuel with
  | O => Err FailureNone
  | S fuel =>
    s ← value fuel depth s;
    let s := whitespace s in
    match consume 93 (rest s) with
    | Some r => token (set_rest r s)
    | None =>
      match consume 44 (rest s) with
      | Some r => elements fuel depth (set_rest r s)
      | None => protocolError
      end
    end
  end.

(** Enough fuel for every document: each byte is entered by at most three nested
    calls. *)
Definition fuel_for (r : bytes) : nat := 3 * length r + 3.

(** parser.go, [parse]. *)
Definition parse (s : scanner) : result Failure scanner :=
  let s := whitespace s in
  s ← value (fuel_for (rest s)) 0 s;
  let s := whitespace s in
  match rest s with [] => Ok s | _ => protocolError end.

(** ** The decoder of encoding/json, with [UseNumber] *)

(** What [Decode] stores in an [any].  A Go map is the list of its assignments in
    order: a later assignment to a key wins. *)
Inductive any :=
| AnyNil
| AnyBool (b : bool)
| AnyNumber (text : bytes)
| AnyString (value : bytes)
| AnySlice (elems : list any)
| AnyMap (fields : list (bytes * any)).

(** [value, present := m[key]]. *)
Fixpoint map_get (fields : list (bytes * any)) (key : bytes) : option any :=
  match fields with
  | [] => None
  | (k, v) :: rest =>
    match map_get rest key with
    | Some w => Some w
    | None => if k ==? key then Some v else None
    end
  end.

Definition decode_string (r : bytes) : option (bytes * bytes) :=
  match scan_string (S (length r)) r with
  | Ok r' =>
    let lit := removelast (before r r') in
    v ← unquote (S (length lit)) lit; Some (v, r')
  | Err _ => None
  end.

Definition decode_literal (text : bytes) (v : any) (r : bytes) : option (any * bytes) :=
  if take (length text) r ==? text then Some (v, drop (length text) r) else None.

(** [json.Decoder.Decode]: the first value of the input and what follows it. *)
Fixpoint decode_value (fuel : nat) (r : bytes) : option (any * bytes) :=
  match fuel with
  | O => None
  | S fuel =>
    let r := skip_ws r in
    match r with
    | [] => None
    | c :: r' =>
      if c =? 123 then
        let r' := skip_ws r' in
        match consume 125 r' with
        | Some r'' => Some (AnyMap [], r'')
        | None => '(fs, r'') ← decode_members fuel r'; Some (AnyMap fs, r'')
        end
      else if c =? 91 then
        let r' := skip_ws r' in
        match consume 93 r' with
        | Some r'' => Some (AnySlice [], r'')
        | None => '(vs, r'') ← decode_elements fuel r'; Some (AnySlice vs, r'')
        end
      else if c =? 34 then '(v, r'') ← decode_string r'; Some (AnyString v, r'')
      else if c =? 116 then decode_literal (B "true") (AnyBool true) r
      else if c =? 102 then decode_literal (B "false") (AnyBool false) r
      else if c =? 110 then decode_literal (B "null") AnyNil r
      else match number_lex r with
           | Ok r'' => Some (AnyNumber (before r r''), r'')
           | Err _ => None
           end
    end
  end
with decode_members (fuel : nat) (r : bytes) : option (list (bytes * any) * bytes) :=
  match fuel with
  | O => None
  | S fuel =>
    r ← consume 34 (skip_ws r);
    '(k, r) ← decode_string r;
    r ← consume 58 (skip_ws r);
    '(v, r) ← decode_value fuel r;
    let r := skip_ws r in
    match consume 125 r with
    | Some r => Some ([(k, v)], r)
    | None =>
      r ← consume 44 r;
      '(fs, r) ← decode_members fuel r; Some ((k, v) :: fs, r)
    end
  end
with decode_elements (fuel : nat) (r : bytes) : option (list any * bytes) :=
  match fuel with
  | O => None
  | S fuel =>
    '(v, r) ← decode_value fuel r;
    let r := skip_ws r in
    match consume 93 r with
    | Some r => Some ([v], r)
    | None =>
      r ← consume 44 r;
      '(vs, r) ← decode_elements fuel r; Some (v :: vs, r)
    end
  end.

Definition Decode (data : bytes) : option any :=
  '(v, _) ← decode_value (fuel_for data) data; Some v.

(** parser.go, [Parse]. *)
Definition Parse (data : bytes) : result Failure any :=
  if MaxDocumentBytes <? len data then limitError
  else if ((3 <=? len data) && (take 3 data ==? [239; 187; 191])) || negb (utf8_Valid data)
  then protocolError
  else
    _ ← parse (mkScanner data 0);
    match Decode data with
    | None => protocolError
    | Some v => Ok v
    end.

Example Parse_example :
  Parse (B " {") = protocolError /\
  Parse (B "[1, -2.5e+3 ,true]") =
    Ok (AnySlice [AnyNumber (B "1"); AnyNumber (B "-2.5e+3"); AnyBool true]) /\
  Parse (B "01") = protocolError /\
  Parse ([34] ++ B "a\u00e9\ud83d\ude00" ++ [34]) =
    Ok (AnyString [97; 195; 169; 240; 159; 152; 128]).
Proof. vm_compute. done. Qed.

(** ** The grammar *)
Module Grammar.

(** A character of a string literal: a byte as it is, a two-byte escape, a code
    unit that is no surrogate, a surrogate pair. *)
Inductive schar :=
| Raw (c : Z)
| Short (c : Z)
| Unit (h : bytes)
| Pair (h l : bytes).

Definition unit_value (h : bytes) : Z := default 0 (hex_value 0 h).

Definition schar_ok (x : schar) : Prop :=
  match x with
  | Raw c => 32 <= c /\ c <> 34 /\ c <> 92
  | Short c => short_escape c = true
  | Unit h => length h = 4%nat /\ is_Some (hex_value 0 h) /\ between 55296 (unit_value h) 57343 = false
  | Pair h l =>
    length h = 4%nat /\ length l = 4%nat /\ is_Some (hex_value 0 h) /\ is_Some (hex_value 0 l) /\
    between 55296 (unit_value h) 56319 = true /\ between 56320 (unit_value l) 57343 = true
  end.

Definition schar_text (x : schar) : bytes :=
  match x with
  | Raw c => [c]
  | Short c => [92; c]
  | Unit h => 92 :: 117 :: h
  | Pair h l => 92 :: 117 :: h ++ 92 :: 117 :: l
  end.

Definition schar_value (x : schar) : bytes :=
  match x with
  | Raw c => [c]
  | Short c => [default 0 (short_value c)]
  | Unit h => encodeRune (unit_value h)
  | Pair h l => encodeRune ((unit_value h - 55296) * 1024 + (unit_value l - 56320) + 65536)
  end.

Definition text (cs : list schar) : bytes := concat (map schar_text cs).
Definition str_value (cs : list schar) : bytes := concat (map schar_value cs).
#[local] Arguments text : simpl never.
#[local] Arguments str_value : simpl never.

(** The number grammar of RFC 8259. *)
Definition digits (ds : bytes) : Prop := ds <> [] /\ Forall (fun c => isDigit c = true) ds.

Definition jint (b : bytes) : Prop :=
  b = [48] \/ exists d ds, b = d :: ds /\ 49 <= d <= 57 /\ Forall (fun c => isDigit c = true) ds.
Definition jfrac (b : bytes) : Prop := b = [] \/ exists ds, b = 46 :: ds /\ digits ds.
Definition jexp (b : bytes) : Prop :=
  b = [] \/ exists e sg ds, b = e :: sg ++ ds /\ (e = 101 \/ e = 69) /\
    (sg = [] \/ sg = [43] \/ sg = [45]) /\ digits ds.
Definition jnumber (b : bytes) : Prop :=
  exists sg i f e, b = sg ++ i ++ f ++ e /\ (sg = [] \/ sg = [45]) /\ jint i /\ jfrac f /\ jexp e.

Inductive tree :=
| TLit (b : bytes)
| TNum (b : bytes)
| TStr (cs : list schar)
| TArr (ts : list tree)
| TObj (ms : list (list schar * tree)).

Definition ws (w : bytes) : Prop := Forall (fun c => is_ws c = true) w.

(** [jvalue t b]: [b] is a text of the tree [t], without surrounding white space. *)
Inductive jvalue : tree -> bytes -> Prop :=
| j_lit b : b ∈ [B "true"; B "false"; B "null"] -> jvalue (TLit b) b
| j_num b : jnumber b -> jvalue (TNum b) b
| j_str cs : Forall schar_ok cs -> jvalue (TStr cs) (34 :: text cs ++ [34])
| j_arr0 w : ws w -> jvalue (TArr []) (91 :: w ++ [93])
| j_arr ts b : jelems ts b -> jvalue (TArr ts) (91 :: b ++ [93])
| j_obj0 w : ws w -> jvalue (TObj []) (123 :: w ++ [125])
| j_obj ms b : jmembers ms b -> jvalue (TObj ms) (123 :: b ++ [125])
with jelems : list tree -> bytes -> Prop :=
| e_one w1 t b w2 : ws w1 -> jvalue t b -> ws w2 -> jelems [t] (w1 ++ b ++ w2)
| e_cons w1 t b w2 ts bs : ws w1 -> jvalue t b -> ws w2 -> jelems ts bs ->
    jelems (t :: ts) (w1 ++ b ++ w2 ++ 44 :: bs)
with jmembers : list (list schar * tree) -> bytes -> Prop :=
| m_one w0 cs w1 w2 t b w3 : ws w0 -> Forall schar_ok cs -> ws w1 -> ws w2 -> jvalue t b -> ws w3 ->
    jmembers [(cs, t)] (w0 ++ 34 :: text cs ++ 34 :: w1 ++ 58 :: w2 ++ b ++ w3)
| m_cons w0 cs w1 w2 t b w3 ms bs :
    ws w0 -> Forall schar_ok cs -> ws w1 -> ws w2 -> jvalue t b -> ws w3 -> jmembers ms bs ->
    jmembers ((cs, t) :: ms)
      (w0 ++ 34 :: text cs ++ 34 :: w1 ++ 58 :: w2 ++ b ++ w3 ++ 44 :: bs).

Scheme jvalue_ind' := Induction for jvalue Sort Prop
with jelems_ind' := Induction for jelems Sort Prop
with jmembers_ind' := Induction for jmembers Sort Prop.
Combined Scheme grammar_ind from jvalue_ind', jelems_ind', jmembers_ind'.

Definition document (t : tree) (data : bytes) : Prop :=
  exists w1 b w2, data = w1 ++ b ++ w2 /\ ws w1 /\ jvalue t b /\ ws w2.

(** The number of tokens of a tree and the limits, by recursion on the tree. *)
Fixpoint ntok (t : tree) : Z :=
  match t with
  | TLit _ | TNum _ | TStr _ => 1
  | TArr ts => 2 + zsum ntok ts
  | TObj ms => 2 + zsum (fun m => 1 + ntok m.2) ms
  end.

(** [fits d t]: [t] may stand [d] levels deep. *)
Fixpoint fits (d : Z) (t : tree) : Prop :=
  match t with
  | TLit _ => True
  | TNum b => len b <= MaxNumberChars
  | TStr cs => len (str_value cs) <= MaxScalarStringUTF8Bytes /\
      RuneCount (str_value cs) <= MaxScalarStringChars
  | TArr ts => d + 1 <= MaxNestingDepth /\ foldr (fun t P => fits (d + 1) t /\ P) True ts
  | TObj ms => d + 1 <= MaxNestingDepth /\ len ms <= MaxMembersPerObject /\
      NoDup (map (fun m => str_value m.1) ms) /\
      foldr (fun m P => (len (str_value m.1) <= MaxFieldNameUTF8Bytes /\ fits (d + 1) m.2) /\ P)
        True ms
  end.

(** The Go value of a tree. *)
Fixpoint to_any (t : tree) : any :=
  match t with
  | TLit b => if b ==? B "true" then AnyBool true else if b ==? B "false" then AnyBool false else AnyNil
  | TNum b => AnyNumber b
  | TStr cs => AnyString (str_value cs)
  | TArr ts => AnySlice (map to_any ts)
  | TObj ms => AnyMap (map (fun m => (str_value m.1, to_any m.2)) ms)
  end.

(** ** Lexical facts *)

Lemma skip_ws_split r : exists w, r = w ++ skip_ws r /\ ws w.
Proof.
  induction r as [|c r (w & Hr & Hw)]; cbn; [exists []; split; [done|constructor]|].
  destruct (is_ws c) eqn:E; [|exists []; split; [done|constructor]].
  exists (c :: w). cbn. split; [by rewrite <- Hr|by constructor].
Qed.

Lemma skip_ws_app w r : ws w -> skip_ws (w ++ r) = skip_ws r.
Proof. induction 1 as [|c w Hc Hw IH]; cbn; [done|]. by rewrite Hc. Qed.

(** [r] does not start with white space. *)
Definition solid (r : bytes) : Prop := match r with c :: _ => is_ws c = false | [] => True end.

Lemma skip_ws_solid r : solid r -> skip_ws r = r.
Proof. destruct r as [|c r]; cbn; [done|]. by intros ->. Qed.

Lemma skip_ws_exact w r : ws w -> solid r -> skip_ws (w ++ r) = r.
Proof. intros Hw Hr. by rewrite skip_ws_app, skip_ws_solid. Qed.

Lemma skip_ws_length r : (length (skip_ws r) <= length r)%nat.
Proof. destruct (skip_ws_split r) as (w & Hr & _). rewrite Hr at 2. rewrite length_app. lia. Qed.

Lemma skip_digits_split r :
  exists ds, r = ds ++ skip_digits r /\ Forall (fun c => isDigit c = true) ds.
Proof.
  induction r as [|c r (w & Hr & Hw)]; cbn; [exists []; split; [done|constructor]|].
  destruct (isDigit c) eqn:E; [|exists []; split; [done|constructor]].
  exists (c :: w). cbn. split; [by rewrite <- Hr|by constructor].
Qed.

Lemma skip_digits_exact ds r :
  Forall (fun c => isDigit c = true) ds -> starts_digit r = false -> skip_digits (ds ++ r) = r.
Proof.
  induction 1 as [|c ds Hc Hds IH]; cbn; intros Hr; [|rewrite Hc; auto].
  destruct r as [|c r]; cbn in *; [done|]. by rewrite Hr.
Qed.

Lemma consume_Some c r r' : consume c r = Some r' <-> r = c :: r'.
Proof.
  destruct r as [|x r]; cbn; [done|]. destruct (x =? c) eqn:E; split; intros H; simplify_eq.
  - f_equal. lia.
  - done.
  - lia.
Qed.

Lemma starts_digits r : starts_digit r = true -> exists ds, r = ds ++ skip_digits r /\ digits ds.
Proof.
  intros H. destruct (skip_digits_split r) as (ds & Hr & Hd). exists ds. split; [done|].
  split; [|done]. intros ->. destruct r as [|c r]; cbn in *; [done|].
  rewrite H in Hr. destruct (skip_digits_split r) as (ds' & Hr' & _).
  apply (f_equal length) in Hr, Hr'. rewrite length_app in Hr'. cbn in Hr. lia.
Qed.

(** What may follow a number. *)
Definition num_stop (r : bytes) : Prop :=
  match r with
  | c :: _ => isDigit c = false /\ c <> 46 /\ c <> 101 /\ c <> 69
  | [] => True
  end.

Lemma number_int_sound r r' : number_int r = Ok r' -> exists b, r = b ++ r' /\ jint b.
Proof.
  unfold number_int. destruct (consume 48 r) as [r1|] eqn:E48.
  - apply consume_Some in E48 as ->. destruct (starts_digit r1); intros; simplify_eq.
    exists [48]. split; [done|by left].
  - destruct r as [|d r]; [done|]. destruct (between 49 d 57) eqn:Eb; [|done]. intros H. cbn in H.
    apply betweenP in Eb. assert (isDigit d = true) as Hd by (apply betweenP; lia).
    rewrite Hd in H. simplify_eq. destruct (skip_digits_split r) as (ds & Hl & Hds).
    exists (d :: ds). cbn. split; [by rewrite <- Hl|]. right. by exists d, ds.
Qed.

Lemma number_frac_sound r r' : number_frac r = Ok r' -> exists b, r = b ++ r' /\ jfrac b.
Proof.
  unfold number_frac. destruct (consume 46 r) as [r1|] eqn:E.
  - apply consume_Some in E as ->. destruct (starts_digit r1) eqn:Es; [|done]. intros ?.
    destruct (starts_digits _ Es) as (ds & Hr & Hds). simplify_eq.
    exists (46 :: ds). cbn. split; [by rewrite <- Hr|]. right. by exists ds.
  - intros ?. simplify_eq. exists []. split; [done|by left].
Qed.

Lemma number_exp_sound r r' : number_exp r = Ok r' -> exists b, r = b ++ r' /\ jexp b.
Proof.
  unfold number_exp. destruct r as [|e r]; intros H; [simplify_eq; exists []; split; [done|by left]|].
  destruct ((e =? 101) || (e =? 69)) eqn:Ee.
  2:{ simplify_eq. exists []. split; [done|by left]. }
  assert (exists sg r1, r = sg ++ r1 /\ (sg = [] \/ sg = [43] \/ sg = [45]) /\
            (if starts_digit r1 then Ok (skip_digits r1) else protocolError) = Ok r')
    as (sg & r1 & -> & Hsg & H1).
  { destruct r as [|c r]; [by exists [], []; auto|].
    destruct ((c =? 43) || (c =? 45)) eqn:Ec; [|by exists [], (c :: r); auto].
    exists [c], r. split_and!; [done| |done].
    apply orb_true_iff in Ec as [?|?]; right; [left|right]; f_equal; lia. }
  destruct (starts_digit r1) eqn:Es; [|done].
  destruct (starts_digits _ Es) as (ds & Hr & Hds). simplify_eq.
  exists (e :: sg ++ ds). cbn. split; [by rewrite <- app_assoc, <- Hr|].
  right. exists e, sg, ds. split_and!; try done.
  apply orb_true_iff in Ee as [?|?]; [left|right]; lia.
Qed.

Lemma number_lex_sound r r' : number_lex r = Ok r' -> exists b, r = b ++ r' /\ jnumber b.
Proof.
  unfold number_lex. intros H.
  assert (exists sg r0, r = sg ++ r0 /\ (sg = [] \/ sg = [45]) /\
    (r ← number_int r0; r ← number_frac r; number_exp r) = Ok r') as (sg & r0 & -> & Hsg & H0).
  { destruct (consume 45 r) as [r1|] eqn:E; [|by exists [], r; auto].
    apply consume_Some in E as ->. exists [45], r1. destruct r1; [done|]. auto. }
  clear H. apply bind_ok in H0 as (r1 & (i & -> & Hi)%number_int_sound & H1).
  apply bind_ok in H1 as (r2 & (f & -> & Hf)%number_frac_sound & H2).
  apply number_exp_sound in H2 as (e & -> & He).
  exists (sg ++ i ++ f ++ e). rewrite <- !app_assoc. split; [done|]. by exists sg, i, f, e.
Qed.

Lemma digits_start ds r : digits ds -> starts_digit (ds ++ r) = true.
Proof. intros [Hne Hd]. destruct Hd; [done|]. cbn. done. Qed.

Lemma num_stop_digit r : num_stop r -> starts_digit r = false.
Proof. destruct r; cbn; [done|]. tauto. Qed.

Lemma jexp_start e r : jexp e -> num_stop r -> starts_digit (e ++ r) = false /\ consume 46 (e ++ r) = None.
Proof.
  intros [->|(c & sg & ds & -> & Hc & _ & _)] Hr.
  - destruct r as [|c r]; cbn in *; [done|]. destruct Hr as (? & ? & _). split; [done|].
    destruct (c =? 46) eqn:E; [lia|done].
  - cbn. destruct Hc as [-> | ->]; done.
Qed.

Lemma number_exp_complete e r : jexp e -> num_stop r -> number_exp (e ++ r) = Ok r.
Proof.
  intros [->|(c & sg & ds & -> & Hc & Hsg & Hds)] Hr.
  - destruct r as [|c r]; cbn in *; [done|]. destruct Hr as (_ & _ & H1 & H2).
    by rewrite (proj2 (Z.eqb_neq c 101)), (proj2 (Z.eqb_neq c 69)).
  - cbn. assert ((c =? 101) || (c =? 69) = true) as -> by (destruct Hc as [-> | ->]; done).
    assert ((match (sg ++ ds) ++ r with
             | c0 :: r'' => if (c0 =? 43) || (c0 =? 45) then r'' else (sg ++ ds) ++ r
             | [] => (sg ++ ds) ++ r end) = ds ++ r) as ->.
    { destruct Hsg as [->|[-> | ->]]; cbn; [|done|done].
      destruct Hds as [Hne Hd]. destruct Hd as [|d ds Hd Hds]; [done|]. cbn.
      apply betweenP in Hd. by rewrite (proj2 (Z.eqb_neq d 43)), (proj2 (Z.eqb_neq d 45)) by lia. }
    rewrite digits_start by done. destruct Hds as [_ Hd].
    by rewrite skip_digits_exact by auto using num_stop_digit.
Qed.

Lemma number_lex_complete b r : jnumber b -> num_stop r -> number_lex (b ++ r) = Ok r.
Proof.
  intros (sg & i & f & e & -> & Hsg & Hi & Hf & He) Hr. rewrite <- !app_assoc.
  destruct (jexp_start e r He Hr) as [Hed He46].
  assert (number_frac (f ++ e ++ r) = Ok (e ++ r)) as Hfr.
  { unfold number_frac. destruct Hf as [->|(ds & -> & Hds)]; cbn; [by rewrite He46|].
    rewrite digits_start by done. destruct Hds as [_ Hd]. by rewrite skip_digits_exact. }
  assert (starts_digit (f ++ e ++ r) = false) as Hfd.
  { destruct Hf as [->|(ds & -> & Hds)]; [done|]. done. }
  assert (number_int (i ++ f ++ e ++ r) = Ok (f ++ e ++ r) /\
          (exists x xs, i = x :: xs /\ 48 <= x <= 57)) as [Hin (x & xs & Hx & Hxr)].
  { unfold number_int. destruct Hi as [->|(d & ds & -> & Hd & Hds)].
    - cbn. rewrite Hfd. split; [done|]. exists 48, []. split; [done|lia].
    - split; [|exists d, ds; split; [done|lia]]. cbn.
      rewrite (proj2 (Z.eqb_neq d 48)) by lia. rewrite (proj2 (betweenP 49 d 57)) by lia.
      assert (isDigit d = true) as -> by (apply betweenP; lia). by rewrite skip_digits_exact. }
  assert (match consume 45 (sg ++ i ++ f ++ e ++ r) with
          | Some [] => protocolError
          | sign => r ← number_int (default (sg ++ i ++ f ++ e ++ r) sign); r ← number_frac r; number_exp r
          end = (r ← number_int (i ++ f ++ e ++ r); r ← number_frac r; number_exp r)) as Hs.
  { subst i. destruct Hsg as [->| ->]; cbn; [|done]. by rewrite (proj2 (Z.eqb_neq x 45)) by lia. }
  unfold number_lex. rewrite Hs, Hin. cbn. rewrite Hfr. cbn. by apply number_exp_complete.
Qed.

(** *** String literals *)

Lemma hexUnit_Some r v :
  hexUnit r = Some v <-> exists h r', r = h ++ r' /\ length h = 4%nat /\ hex_value 0 h = Some v.
Proof.
  unfold hexUnit. split.
  - destruct (len r <? 4) eqn:E; [done|]. intros H. exists (take 4 r), (drop 4 r).
    rewrite take_drop, length_take. unfold len in E. split_and!; [done|lia|done].
  - intros (h & r' & -> & Hl & Hv).
    destruct (len (h ++ r') <? 4) eqn:E.
    + apply Z.ltb_lt in E. rewrite len_app in E. unfold len in E. rewrite Hl in E. lia.
    + by rewrite take_app_length'.
Qed.

Lemma escape_sound r r' :
  escape (92 :: r) = Ok r' -> exists x, schar_ok x /\ 92 :: r = schar_text x ++ r'.
Proof.
  unfold escape. destruct (len _ <=? 1) eqn:El; [done|].
  destruct r as [|c r]; [done|]. cbn [nth drop].
  destruct (short_escape c) eqn:Es.
  { intros [= <-]. exists (Short c). cbn. by rewrite drop_0. }
  destruct (c =? 117) eqn:Ec; [|done]. assert (c = 117) as -> by lia. rewrite drop_0.
  destruct (hexUnit r) as [v|] eqn:Eh; [|done].
  apply hexUnit_Some in Eh as (h & r1 & -> & Hl & Hv). rewrite drop_app_length' by done.
  destruct (between 55296 v 56319) eqn:Ehi.
  - destruct (_ || _) eqn:Eo; [done|]. apply orb_false_iff in Eo as [Eo E2]. apply orb_false_iff in Eo as [E0 E1].
    destruct r1 as [|x [|y r1]]; [done|done|]. cbn [nth drop] in *. rewrite drop_0.
    assert (x = 92) as -> by (destruct (x =? 92) eqn:?; [lia|done]).
    assert (y = 117) as -> by (destruct (y =? 117) eqn:?; [lia|done]).
    destruct (hexUnit r1) as [low|] eqn:Eh2; [|done].
    apply hexUnit_Some in Eh2 as (h2 & r2 & -> & Hl2 & Hv2). rewrite drop_app_length' by done.
    destruct (between 56320 low 57343) eqn:Elo; [|done]. intros [= <-].
    exists (Pair h h2). cbn. rewrite <- app_assoc. unfold unit_value. rewrite Hv, Hv2. cbn. eauto 10.
  - destruct (between 56320 v 57343) eqn:Elo; [done|]. intros [= <-].
    exists (Unit h). cbn. unfold unit_value. rewrite Hv. cbn. split_and!; [done|eauto| |done].
    unfold between in *. lia.
Qed.

Lemma scan_string_sound fuel r r' :
  scan_string fuel r = Ok r' -> exists cs, r = text cs ++ 34 :: r' /\ Forall schar_ok cs.
Proof.
  revert r. induction fuel as [|fuel IH]; intros r H; cbn in H; [done|].
  destruct r as [|c r]; [done|]. destruct (c =? 34) eqn:E34.
  { assert (c = 34) as -> by lia. simplify_eq. exists []. split; [done|constructor]. }
  destruct (c =? 92) eqn:E92.
  - assert (c = 92) as -> by lia. apply bind_ok in H as (r1 & (x & Hx & ->)%escape_sound & H1).
    apply IH in H1 as (cs & -> & Hcs). exists (x :: cs). change (text (x :: cs)) with (schar_text x ++ text cs). rewrite <- app_assoc.
    split; [done|by constructor].
  - destruct (c <? 32) eqn:E32; [done|]. apply IH in H as (cs & -> & Hcs).
    exists (Raw c :: cs). split; [done|]. constructor; [|done]. cbn. lia.
Qed.

Lemma escape_complete x r :
  schar_ok x -> (forall c, x <> Raw c) -> escape (schar_text x ++ r) = Ok r.
Proof.
  intros Hx Hraw. destruct x as [c|c|h|h l]; [by destruct (Hraw c)|..]; cbn in Hx.
  - cbn [schar_text app]. unfold escape. assert ((len (92 :: c :: r) <=? 1) = false) as -> by (apply Z.leb_gt; unfold len; cbn [length]; lia).
    cbn [nth drop]. by rewrite Hx.
  - destruct Hx as (Hl & [v Hv] & Hb). unfold unit_value in Hb. rewrite Hv in Hb. cbn in Hb.
    cbn [schar_text app]. unfold escape.
    assert ((len (92 :: 117 :: h ++ r) <=? 1) = false) as -> by (apply Z.leb_gt; unfold len; cbn [length]; lia).
    cbn [nth drop]. change (short_escape 117) with false. change (117 =? 117) with true. rewrite drop_0.
    rewrite (proj2 (hexUnit_Some (h ++ r) v)) by eauto. rewrite drop_app_length' by done.
    assert (between 55296 v 56319 = false /\ between 56320 v 57343 = false) as [-> ->]
      by (unfold between in *; lia). done.
  - destruct Hx as (Hl & Hl2 & [v Hv] & [v2 Hv2] & Hb & Hb2).
    unfold unit_value in Hb, Hb2. rewrite Hv in Hb. rewrite Hv2 in Hb2. cbn in Hb, Hb2.
    cbn [schar_text app]. rewrite <- app_assoc. cbn [app]. unfold escape.
    assert ((len (92 :: 117 :: h ++ 92 :: 117 :: l ++ r) <=? 1) = false) as -> by (apply Z.leb_gt; unfold len; cbn [length]; lia).
    cbn [nth drop]. change (short_escape 117) with false. change (117 =? 117) with true. rewrite drop_0.
    rewrite (proj2 (hexUnit_Some (h ++ _) v)) by eauto. rewrite drop_app_length' by done.
    rewrite Hb. assert ((len (92 :: 117 :: l ++ r) <? 6) = false) as ->.
    { apply Z.ltb_ge. unfold len; cbn [length]. rewrite length_app. lia. }
    cbn [nth drop orb negb]. change (92 =? 92) with true. change (117 =? 117) with true. cbn [orb negb].
    rewrite drop_0, (proj2 (hexUnit_Some (l ++ r) v2)) by eauto. rewrite drop_app_length' by done.
    by rewrite Hb2.
Qed.

Lemma schar_text_cons x : schar_ok x -> exists c r, schar_text x = c :: r /\ c <> 34 /\
  ((exists c', x = Raw c' /\ c = c' /\ r = [] /\ c <> 92 /\ 32 <= c) \/ (c = 92 /\ forall c', x <> Raw c')).
Proof.
  intros H. destruct x as [c|c|h|h l]; cbn in *.
  - exists c, []. destruct H as (? & ? & ?). split_and!; [done|done|]. left. by exists c.
  - exists 92, [c]. split_and!; [done|lia|]. by right.
  - exists 92, (117 :: h). split_and!; [done|lia|]. by right.
  - exists 92, (117 :: h ++ 92 :: 117 :: l). split_and!; [done|lia|]. by right.
Qed.

Lemma scan_string_complete fuel cs r :
  Forall schar_ok cs -> (length (text cs) < fuel)%nat ->
  scan_string fuel (text cs ++ 34 :: r) = Ok r.
Proof.
  intros Hcs. revert fuel. induction Hcs as [|x cs Hx Hcs IH]; intros [|fuel] Hf; [lia|done|lia|].
  change (text (x :: cs)) with (schar_text x ++ text cs) in *. rewrite length_app in Hf.
  destruct (schar_text_cons x Hx) as (c & t & Ht & Hne & Hor). rewrite Ht in Hf. cbn in Hf.
  rewrite <- app_assoc. cbn [scan_string].
  destruct (schar_text x ++ text cs ++ 34 :: r) as [|c' r'] eqn:E; [by rewrite Ht in E|].
  rewrite Ht in E. cbn in E. injection E as <- Er. rewrite (proj2 (Z.eqb_neq c 34)) by done.
  destruct Hor as [(c' & -> & <- & -> & Hn92 & Hge)|[-> Hraw]].
  - rewrite (proj2 (Z.eqb_neq c 92)) by done. rewrite (proj2 (Z.ltb_ge c 32)) by lia.
    rewrite <- Er. apply IH. cbn in Hf. lia.
  - cbn [Z.eqb Pos.eqb]. rewrite <- Er, app_comm_cons, <- Ht, escape_complete by done.
    cbn. apply IH. lia.
Qed.

Definition ascii (c : Z) : Prop := 0 <= c <= 127.

Lemma utf8_Valid_ascii a b : Forall ascii a -> utf8_Valid (a ++ b) = utf8_Valid b.
Proof.
  induction 1 as [|c a Hc Ha IH]; [done|]. cbn [app]. rewrite utf8_Valid_cons. cbn [decodeRune].
  rewrite (proj2 (betweenP 0 c 127)) by done. cbn [drop]. by rewrite drop_0.
Qed.

Lemma hex_value_ascii v h u : hex_value v h = Some u -> Forall ascii h.
Proof.
  revert v. induction h as [|c h IH]; intros v H; [constructor|]. cbn in H.
  destruct (hexDigit c) as [d|] eqn:E; [|done]. constructor; [|by eapply IH].
  unfold hexDigit in E. unfold ascii.
  destruct (between 48 c 57) eqn:E1; [apply betweenP in E1; lia|].
  destruct (between 97 c 102) eqn:E2; [apply betweenP in E2; lia|].
  destruct (between 65 c 70) eqn:E3; [apply betweenP in E3; lia|done].
Qed.

Lemma short_escape_value c :
  short_escape c = true -> ascii c /\ c <> 117 /\ exists v, short_value c = Some v.
Proof.
  unfold short_escape. intros H. apply existsb_exists in H as (x & Hx & E%Z.eqb_eq). subst x.
  change (34 :: B "\/bfnrt") with [34; 92; 47; 98; 102; 110; 114; 116] in Hx.
  unfold ascii. cbn in Hx.
  repeat (destruct Hx as [<-|Hx]; [split; [lia|]; split; [lia|]; eexists; reflexivity|]). done.
Qed.

(** Bytes outside ASCII are raw characters. *)
Lemma raw_prefix p q cs :
  Forall (fun c => 128 <= c) p -> Forall schar_ok cs -> text cs = p ++ q ->
  exists cs', cs = map Raw p ++ cs' /\ text cs' = q /\ Forall schar_ok cs'.
Proof.
  intros Hp. revert cs. induction Hp as [|c p Hc Hp IH]; intros cs Hcs Ht; [by exists cs|].
  destruct Hcs as [|x cs Hx Hcs]; [done|].
  change (text (x :: cs)) with (schar_text x ++ text cs) in Ht.
  destruct (schar_text_cons x Hx) as (c0 & t & Ht0 & _ & Hor). rewrite Ht0 in Ht. cbn in Ht.
  injection Ht as -> Ht. destruct Hor as [(c' & -> & <- & -> & _)|[-> _]]; [|lia].
  destruct (IH cs Hcs Ht) as (cs' & -> & <- & Hcs'). by exists cs'.
Qed.

Lemma text_app a b : text (a ++ b) = text a ++ text b.
Proof. unfold text. by rewrite map_app, concat_app. Qed.
Lemma str_value_app a b : str_value (a ++ b) = str_value a ++ str_value b.
Proof. unfold str_value. by rewrite map_app, concat_app. Qed.
Lemma text_raw p : text (map Raw p) = p.
Proof. unfold text. induction p as [|c p IH]; cbn; [done|]. by rewrite IH. Qed.
Lemma str_value_raw p : str_value (map Raw p) = p.
Proof. unfold str_value. induction p as [|c p IH]; cbn; [done|]. by rewrite IH. Qed.

(** One step of [unquote] per character, over the rest of the text. *)
Lemma unquote_raw fuel p r q w rest' :
  (forall t, decodeRune (p ++ t) = Some (r, w)) -> length p = w ->
  (exists c p', p = c :: p' /\ c <> 92 /\ c <> 34 /\ 32 <= c) ->
  unquote fuel q = Some rest' -> unquote (S fuel) (p ++ q) = Some (p ++ rest').
Proof.
  intros Hd Hw (c & p' & -> & H1 & H2 & H3) Hq. specialize (Hd q). cbn [app] in *. cbn [unquote].
  rewrite (proj2 (Z.eqb_neq c 92)), (proj2 (Z.eqb_neq c 34)), (proj2 (Z.ltb_ge c 32)) by lia.
  cbn [orb]. rewrite Hd, <- Hw, !app_comm_cons, drop_app_length, take_app_length, Hq. done.
Qed.

Lemma unquote_escape fuel x q rest' :
  schar_ok x -> (forall c, x <> Raw c) -> unquote fuel q = Some rest' ->
  unquote (S fuel) (schar_text x ++ q) = Some (schar_value x ++ rest').
Proof.
  intros Hx Hraw Hq. destruct x as [c|c|h|h l]; [by destruct (Hraw c)|..]; cbn in Hx.
  - destruct (short_escape_value c Hx) as (_ & Hn & v & Hv). cbn.
    rewrite (proj2 (Z.eqb_neq c 117)) by done. by rewrite Hv, Hq.
  - destruct Hx as (Hl & [v Hv] & Hb). unfold schar_value, unit_value in *. rewrite Hv in *. cbn [default from_option id] in *.
    cbn [schar_text app unquote getu4]. change (92 =? 92) with true. change (117 =? 117) with true. cbn [andb].
    rewrite (proj2 (hexUnit_Some (h ++ q) v)) by eauto. rewrite Hb. cbn [drop].
    rewrite drop_app_length' by done. by rewrite Hq.
  - destruct Hx as (Hl & Hl2 & [v Hv] & [v2 Hv2] & Hb & Hb2). unfold schar_value, unit_value in *.
    rewrite Hv, Hv2 in *. cbn [default from_option id] in *.
    cbn [schar_text app]. rewrite <- app_assoc. cbn [app unquote getu4].
    change (92 =? 92) with true. change (117 =? 117) with true. cbn [andb].
    rewrite (proj2 (hexUnit_Some (h ++ _) v)) by eauto.
    assert (between 55296 v 57343 = true) as -> by (unfold between in *; lia).
    cbn [drop]. rewrite drop_app_length' by done. cbn [getu4].
    change (92 =? 92) with true. change (117 =? 117) with true. cbn [andb].
    rewrite (proj2 (hexUnit_Some (l ++ q) v2)) by eauto. rewrite Hb, Hb2. cbn [andb].
    assert (drop 10 (h ++ 92 :: 117 :: l ++ q) = q) as ->; [|by rewrite Hq].
    replace (h ++ 92 :: 117 :: l ++ q) with ((h ++ 92 :: 117 :: l) ++ q) by by rewrite <- app_assoc.
    apply drop_app_length'. rewrite length_app; cbn. lia.
Qed.

Lemma schar_text_ascii x : schar_ok x -> (forall c, x <> Raw c) -> Forall ascii (schar_text x).
Proof.
  intros Hx Hraw. assert (ascii 92 /\ ascii 117) as [H1 H2] by (unfold ascii; lia).
  destruct x as [c|c|h|h l]; [by destruct (Hraw c)|..]; cbn in *.
  - destruct (short_escape_value c Hx) as (Ha & _). do 2 (apply Forall_cons; split; [done|]). apply Forall_nil_2.
  - destruct Hx as (_ & [v Hv] & _). do 2 (apply Forall_cons; split; [done|]). by eapply hex_value_ascii.
  - destruct Hx as (_ & _ & [v Hv] & [v2 Hv2] & _). do 2 (apply Forall_cons; split; [done|]).
    apply Forall_app. split; [by eapply hex_value_ascii|].
    do 2 (apply Forall_cons; split; [done|]). by eapply hex_value_ascii.
Qed.

Lemma unquote_text fuel cs :
  Forall schar_ok cs -> utf8_Valid (text cs) = true -> (length (text cs) < fuel)%nat ->
  unquote fuel (text cs) = Some (str_value cs).
Proof.
  revert cs. induction fuel as [|fuel IH]; intros cs Hcs Hv Hf; [lia|].
  destruct Hcs as [|x cs Hx Hcs]; [done|].
  change (text (x :: cs)) with (schar_text x ++ text cs) in *.
  change (str_value (x :: cs)) with (schar_value x ++ str_value cs).
  destruct (schar_text_cons x Hx) as (c & t & Ht & Hne & Hor).
  rewrite length_app in Hf. destruct Hor as [(c' & -> & <- & -> & Hn92 & Hge)|[-> Hraw]].
  2:{ rewrite utf8_Valid_ascii in Hv by by apply schar_text_ascii.
      apply unquote_escape; [done|done|]. apply IH; [done|done|]. rewrite Ht in Hf; cbn in Hf. lia. }
  cbn [schar_text app length] in *. rewrite utf8_Valid_cons in Hv.
  destruct (decodeRune (c :: text cs)) as [[r w]|] eqn:E; [|done].
  destruct (decodeRune_spec _ _ _ E) as (p & Hp & Hw & Hs & Hd & Hpr).
  assert (exists p', p = c :: p') as [p' ->].
  { destruct p as [|a p']; [cbn in Hp; lia|]. cbn in Hs. injection Hs as <- _. eauto. }
  set (q := drop w (c :: text cs)) in *.
  assert (exists cs', Raw c :: cs = map Raw (c :: p') ++ cs' /\ text cs' = q /\ Forall schar_ok cs')
    as (cs' & Heq & Hq & Hcs').
  { destruct Hpr as [(a & [= -> ->] & _)|[_ Hhigh]].
    - exists cs. subst w q. cbn. rewrite drop_0. done.
    - apply raw_prefix; [done|by constructor|]. exact Hs. }
  change (schar_value (Raw c) ++ str_value cs) with (str_value (Raw c :: cs)).
  change (c :: text cs) with (text (Raw c :: cs)). rewrite Heq, text_app, str_value_app, text_raw, str_value_raw.
  apply (unquote_raw _ _ r _ w); [done|done|by exists c, p'|].
  apply IH; [done|by rewrite Hq|]. rewrite Hq. unfold q. rewrite length_drop. cbn. lia.
Qed.

(** ** The scanner accepts only the grammar *)

#[local] Arguments string : simpl never.
#[local] Arguments number : simpl never.
#[local] Arguments literal : simpl never.
#[local] Arguments token : simpl never.

(** [r] is the end of a valid text. *)
Definition good (r : bytes) : Prop := exists pre, utf8_Valid (pre ++ r) = true.

Lemma good_app a r : good (a ++ r) -> good r.
Proof. intros [pre H]. exists (pre ++ a). by rewrite <- app_assoc. Qed.
Lemma good_cons c r : good (c :: r) -> good r.
Proof. apply (good_app [c]). Qed.
Lemma good_skip_ws r : good r -> good (skip_ws r).
Proof. destruct (skip_ws_split r) as (w & Hr & _). rewrite Hr at 1. apply good_app. Qed.

Lemma good_string b r : good (34 :: b ++ 34 :: r) -> utf8_Valid b = true.
Proof.
  intros [pre H]. apply utf8_Valid_split in H as [_ H]; [|lia].
  by apply utf8_Valid_split in H as [H _]; [|lia].
Qed.

Definition string_over (fieldName : bool) (v : bytes) : bool :=
  if fieldName then MaxFieldNameUTF8Bytes <? len v
  else (MaxScalarStringUTF8Bytes <? len v) || (MaxScalarStringChars <? RuneCount v).

Lemma before_app a r : before (a ++ r) r = a.
Proof. unfold before. rewrite length_app, Nat.add_sub. apply take_app_length. Qed.

Lemma literal_text cs r : removelast (before (text cs ++ 34 :: r) r) = text cs.
Proof.
  replace (text cs ++ 34 :: r) with ((text cs ++ [34]) ++ r) by by rewrite <- app_assoc.
  rewrite before_app. apply removelast_last.
Qed.

Lemma string_spec fieldName cs r k :
  Forall schar_ok cs -> good (34 :: text cs ++ 34 :: r) ->
  string fieldName (mkScanner (34 :: text cs ++ 34 :: r) k) =
  if string_over fieldName (str_value cs) then limitError else Ok (str_value cs, mkScanner r k).
Proof.
  intros Hcs Hg. unfold string. cbn [rest tail].
  rewrite scan_string_complete by (done || (rewrite length_app; lia)). cbn [mbind result_bind].
  rewrite literal_text, unquote_text by (done || lia || by eapply good_string). done.
Qed.

Lemma string_sound fieldName r k v s' :
  good (34 :: r) -> string fieldName (mkScanner (34 :: r) k) = Ok (v, s') ->
  exists cs, r = text cs ++ 34 :: rest s' /\ Forall schar_ok cs /\ v = str_value cs /\
    tokens s' = k /\ string_over fieldName v = false.
Proof.
  intros Hg H. pose proof H as H'. unfold string in H'. apply bind_ok in H' as (r1 & Hs & _).
  apply scan_string_sound in Hs as (cs & Hr & Hcs). cbn in Hr. subst r.
  rewrite string_spec in H by done. destruct (string_over _ _) eqn:E; [done|].
  injection H as <- <-. exists cs. done.
Qed.

Lemma token_ok s s' :
  token s = Ok s' <-> tokens s + 1 <= MaxTokens /\ s' = mkScanner (rest s) (tokens s + 1).
Proof.
  unfold token. destruct (MaxTokens <? tokens s + 1) eqn:E; split.
  - done.
  - intros [? _]. lia.
  - intros [= <-]. split; [lia|done].
  - by intros [_ ->].
Qed.

Lemma literal_sound v s s' :
  literal v s = Ok s' ->
  rest s = v ++ rest s' /\ tokens s' = tokens s + 1 /\ tokens s' <= MaxTokens.
Proof.
  unfold literal. destruct (negb _) eqn:E; [done|]. apply negb_false_iff, eqb_true_1 in E.
  intros (s1 & [Ht ->]%token_ok & [= <-])%bind_ok. cbn. split; [|lia].
  rewrite <- E at 1. symmetry. apply take_drop.
Qed.

(** The clauses of [fits] for the elements and the members. *)
Definition fit_elems (d : Z) (ts : list tree) : Prop := foldr (fun t P => fits d t /\ P) True ts.
Definition fit_members (d : Z) (ms : list (list schar * tree)) : Prop :=
  foldr (fun m P => (len (str_value m.1) <= MaxFieldNameUTF8Bytes /\ fits d m.2) /\ P) True ms.
Definition keys_of (ms : list (list schar * tree)) : list bytes := map (fun m => str_value m.1) ms.
Definition tok_elems (ts : list tree) : Z := zsum ntok ts.
Definition tok_members (ms : list (list schar * tree)) : Z := zsum (fun m => 1 + ntok m.2) ms.

Definition reads_value (d : Z) (s s' : scanner) : Prop :=
  exists w t b, rest s = w ++ b ++ rest s' /\ ws w /\ jvalue t b /\ fits d t /\
    tokens s' = tokens s + ntok t /\ tokens s' <= MaxTokens.
Definition reads_elems (d : Z) (s s' : scanner) : Prop :=
  exists ts b, rest s = b ++ 93 :: rest s' /\ jelems ts b /\ fit_elems d ts /\
    tokens s' = tokens s + tok_elems ts + 1 /\ tokens s' <= MaxTokens.
Definition reads_members (d n : Z) (keys : list bytes) (s s' : scanner) : Prop :=
  exists ms b, rest s = b ++ 125 :: rest s' /\ jmembers ms b /\ fit_members d ms /\
    NoDup (keys_of ms) /\ (forall k, k ∈ keys_of ms -> k ∉ keys) /\ n - 1 + len ms <= MaxMembersPerObject /\
    tokens s' = tokens s + tok_members ms + 1 /\ tokens s' <= MaxTokens.

Lemma whitespace_split s : exists w, rest s = w ++ rest (whitespace s) /\ ws w /\
  tokens (whitespace s) = tokens s.
Proof. destruct (skip_ws_split (rest s)) as (w & Hr & Hw). by exists w. Qed.

Lemma ws_nil : ws [].
Proof. constructor. Qed.
#[local] Hint Resolve ws_nil good_skip_ws : core.

Lemma scalar_sound c r k s' d :
  good (c :: r) ->
  (if c =? 34 then s ← token (mkScanner (c :: r) k); p ← string false s; Ok p.2
   else if c =? 116 then literal (B "true") (mkScanner (c :: r) k)
   else if c =? 102 then literal (B "false") (mkScanner (c :: r) k)
   else if c =? 110 then literal (B "null") (mkScanner (c :: r) k)
   else number (mkScanner (c :: r) k)) = Ok s' ->
  reads_value d (mkScanner (c :: r) k) s'.
Proof.
  intros Hg H. destruct (c =? 34) eqn:E34.
  { assert (c = 34) as -> by lia.
    apply bind_ok in H as (s1 & [Ht ->]%token_ok & H). cbn in Ht, H.
    apply bind_ok in H as ([v s2] & Hs & [= <-]).
    apply (string_sound _ _ _ _ _ Hg) in Hs as (cs & -> & Hcs & -> & Htok & Hov).
    exists [], (TStr cs), (34 :: text cs ++ [34]). cbn [rest tokens snd app] in *.
    cbn in Hov. apply orb_false_iff in Hov as [Ho1 Ho2]. rewrite <- app_assoc.
    split_and!; [done|done|by constructor|..]; cbn; try (split; lia); lia. }
  assert (forall v, v ∈ [B "true"; B "false"; B "null"] -> literal v (mkScanner (c :: r) k) = Ok s' ->
            reads_value d (mkScanner (c :: r) k) s') as Hlit.
  { intros v Hv (Hr & Ht & Hm)%literal_sound. exists [], (TLit v), v. cbn in *.
    split_and!; try done. by constructor. }
  destruct (c =? 116); [by apply (Hlit (B "true")); [left|]|].
  destruct (c =? 102); [by apply (Hlit (B "false")); [right; left|]|].
  destruct (c =? 110); [by apply (Hlit (B "null")); [do 2 right; left|]|].
  unfold number in H. apply bind_ok in H as (r1 & (b & Hr & Hb)%number_lex_sound & H).
  cbn [rest] in *. destruct (MaxNumberChars <? _) eqn:El; [done|].
  apply token_ok in H as [Ht ->]. rewrite Hr in El |- *. rewrite len_app in El.
  exists [], (TNum b), b. cbn in *. split_and!; try done; [by constructor|lia].
Qed.

Lemma reads_value_ws d s s' : reads_value d (whitespace s) s' -> reads_value d s s'.
Proof.
  intros (w & t & b & Hr & Hw & Hj & Hf & Ht & Hm).
  destruct (whitespace_split s) as (w0 & Hr0 & Hw0 & _).
  exists (w0 ++ w), t, b. rewrite Hr0, Hr, <- app_assoc.
  split_and!; try done. by apply Forall_app.
Qed.

Section sound_step.
Context (fuel : nat).
Context (IHv : forall d s s', good (rest s) -> value fuel d s = Ok s' -> reads_value d s s').

Lemma members_sound_step
  (IHm : forall d n keys s s', good (rest s) -> members fuel d n keys s = Ok s' ->
           reads_members d n keys s s') d n keys s s' :
  good (rest s) -> members (S fuel) d n keys s = Ok s' -> reads_members d n keys s s'.
Proof.
  intros Hg H. cbn [members] in H. destruct (whitespace_split s) as (w0 & Hr0 & Hw0 & Ht0).
  apply good_skip_ws in Hg. change (skip_ws (rest s)) with (rest (whitespace s)) in Hg.
  destruct (whitespace s) as [r0 k0]. cbn [rest tokens] in *.
  destruct (consume 34 r0) as [r|] eqn:E34; [|done]. apply consume_Some in E34 as ->.
  apply bind_ok in H as (s1 & [Htk ->]%token_ok & H).
  apply bind_ok in H as ([key s2] & Hs & H). cbn [rest tokens fst snd] in *.
  pose proof Hg as Hg'. apply (string_sound _ _ _ _ _ Hg') in Hs as (cs & -> & Hcs & Hkey & Htk2 & Hov).
  destruct (bool_decide (key ∈ keys)) eqn:Edup; [done|]. apply bool_decide_eq_false in Edup.
  destruct (MaxMembersPerObject <? n) eqn:En; [done|].
  destruct (whitespace_split s2) as (w1 & Hr1 & Hw1 & Ht1).
  apply good_cons, good_app, good_cons in Hg. rewrite Hr1 in Hg. apply good_app in Hg.
  destruct (whitespace s2) as [r3 k3]. cbn [rest tokens] in *.
  destruct (consume 58 r3) as [r4|] eqn:E58; [|done]. apply consume_Some in E58 as ->.
  apply good_cons in Hg.
  apply bind_ok in H as (s5 & Hv & H).
  apply IHv in Hv as (w2 & t & b & Hr4 & Hw2 & Hj & Hf & Ht5 & Hm5); [|done]. unfold set_rest in *. cbn [rest tokens] in *.
  rewrite Hr4 in Hg. do 2 apply good_app in Hg.
  destruct (whitespace_split s5) as (w3 & Hr5 & Hw3 & Ht3). rewrite Hr5 in Hg. apply good_app in Hg.
  destruct (whitespace s5) as [r6 k6]. cbn [rest tokens] in *. cbn in Hov.
  assert (len (str_value cs) <= MaxFieldNameUTF8Bytes) as Hfield by (subst key; lia).
  destruct (consume 125 r6) as [r7|] eqn:E125.
  - apply consume_Some in E125 as ->. apply token_ok in H as [Htk7 ->]. unfold set_rest in *. cbn [rest tokens] in *.
    exists [(cs, t)], (w0 ++ 34 :: text cs ++ 34 :: w1 ++ 58 :: w2 ++ b ++ w3).
    rewrite Hr0, Hr1, Hr4, Hr5. split_and!; cbn.
    + by norm_app.
    + by constructor.
    + done.
    + apply NoDup_singleton.
    + intros k ->%list_elem_of_singleton. by subst key.
    + change (len [(cs, t)]) with 1. lia.
    + unfold tok_members; cbn. lia.
    + lia.
  - destruct (consume 44 r6) as [r7|] eqn:E44; [|done]. apply consume_Some in E44 as ->.
    apply good_cons in Hg.
    apply IHm in H as (ms & bs & Hr7 & Hjm & Hfm & Hnd & Hnk & Hn & Ht7 & Hm7); [|done].
    unfold set_rest in *. cbn [rest tokens] in *.
    exists ((cs, t) :: ms), (w0 ++ 34 :: text cs ++ 34 :: w1 ++ 58 :: w2 ++ b ++ w3 ++ 44 :: bs).
    rewrite Hr0, Hr1, Hr4, Hr5, Hr7. split_and!; cbn.
    + by norm_app.
    + by constructor.
    + done.
    + constructor; [|done]. intros Hin. apply Hnk in Hin. apply Hin. subst key. left.
    + intros k [->|Hk]%elem_of_cons; [by subst key|]. intros Hin. apply (Hnk k Hk). by right.
    + unfold len in *. cbn [length]. lia.
    + unfold tok_members in *; cbn. lia.
    + lia.
Qed.

Lemma elements_sound_step
  (IHe : forall d s s', good (rest s) -> elements fuel d s = Ok s' -> reads_elems d s s') d s s' :
  good (rest s) -> elements (S fuel) d s = Ok s' -> reads_elems d s s'.
Proof.
  intros Hg H. cbn [elements] in H. apply bind_ok in H as (s5 & Hv & H).
  apply IHv in Hv as (w2 & t & b & Hr4 & Hw2 & Hj & Hf & Ht5 & Hm5); [|done].
  rewrite Hr4 in Hg. do 2 apply good_app in Hg.
  destruct (whitespace_split s5) as (w3 & Hr5 & Hw3 & Ht3). rewrite Hr5 in Hg. apply good_app in Hg.
  destruct (whitespace s5) as [r6 k6]. cbn [rest tokens] in *.
  destruct (consume 93 r6) as [r7|] eqn:E93.
  - apply consume_Some in E93 as ->. apply token_ok in H as [Htk7 ->]. unfold set_rest in *. cbn [rest tokens] in *.
    exists [t], (w2 ++ b ++ w3). rewrite Hr4, Hr5. norm_app. unfold tok_elems; cbn.
    split_and!; try done; [by constructor|lia].
  - destruct (consume 44 r6) as [r7|] eqn:E44; [|done]. apply consume_Some in E44 as ->.
    apply good_cons in Hg.
    apply IHe in H as (ts & bs & Hr7 & Hje & Hfe & Ht7 & Hm7); [|done]. unfold set_rest in *. cbn [rest tokens] in *.
    exists (t :: ts), (w2 ++ b ++ w3 ++ 44 :: bs). rewrite Hr4, Hr5, Hr7. norm_app. unfold tok_elems in *; cbn.
    split_and!; try done; [by constructor|lia].
Qed.
End sound_step.

(** The nesting check, the two brackets and their tokens. *)
Lemma object_sound_step fuel
  (IHm : forall d n keys s s', good (rest s) -> members fuel d n keys s = Ok s' ->
           reads_members d n keys s s') d r k s' :
  good (123 :: r) -> object (S fuel) (d + 1) (mkScanner (123 :: r) k) = Ok s' ->
  reads_value d (mkScanner (123 :: r) k) s'.
Proof.
  intros Hg H. cbn [object] in H. destruct (MaxNestingDepth <? d + 1) eqn:Ed; [done|].
  apply bind_ok in H as (s1 & [Htk ->]%token_ok & H). unfold set_rest in *. cbn [rest tokens tail] in *.
  apply good_cons in Hg. destruct (whitespace_split (mkScanner r (k + 1))) as (w & Hr & Hw & Ht).
  destruct (whitespace (mkScanner r (k + 1))) as [r1 k1]. cbn [rest tokens] in *.
  rewrite Hr in Hg. pose proof (good_app _ _ Hg) as Hg1.
  destruct (consume 125 r1) as [r2|] eqn:E.
  - apply consume_Some in E as ->. apply token_ok in H as [Htk2 ->]. unfold set_rest in *. cbn [rest tokens] in *.
    exists [], (TObj []), (123 :: w ++ [125]). cbn. rewrite Hr, <- app_assoc.
    split_and!; try done; try lia; [by constructor|]. apply NoDup_nil_2.
  - apply IHm in H as (ms & b & Hr1 & Hjm & Hf & Hnd & _ & Hn & Ht1 & Hm1); [|done]. cbn [rest tokens] in *.
    exists [], (TObj ms), (123 :: (w ++ b) ++ [125]).
    change (ntok (TObj ms)) with (2 + tok_members ms). cbn [rest tokens].
    split_and!; [by rewrite Hr, Hr1; norm_app|done| | |lia|done].
    + constructor. clear -Hjm Hw. destruct Hjm; rewrite app_assoc; constructor; try done; by apply Forall_app.
    + cbn [fits]. split_and!; [lia|lia|done|done].
Qed.

Lemma array_sound_step fuel
  (IHe : forall d s s', good (rest s) -> elements fuel d s = Ok s' -> reads_elems d s s') d r k s' :
  good (91 :: r) -> array (S fuel) (d + 1) (mkScanner (91 :: r) k) = Ok s' ->
  reads_value d (mkScanner (91 :: r) k) s'.
Proof.
  intros Hg H. cbn [array] in H. destruct (MaxNestingDepth <? d + 1) eqn:Ed; [done|].
  apply bind_ok in H as (s1 & [Htk ->]%token_ok & H). unfold set_rest in *. cbn [rest tokens tail] in *.
  apply good_cons in Hg. destruct (whitespace_split (mkScanner r (k + 1))) as (w & Hr & Hw & Ht).
  destruct (whitespace (mkScanner r (k + 1))) as [r1 k1]. cbn [rest tokens] in *.
  rewrite Hr in Hg. pose proof (good_app _ _ Hg) as Hg1.
  destruct (consume 93 r1) as [r2|] eqn:E.
  - apply consume_Some in E as ->. apply token_ok in H as [Htk2 ->]. unfold set_rest in *. cbn [rest tokens] in *.
    exists [], (TArr []), (91 :: w ++ [93]). cbn. rewrite Hr, <- app_assoc.
    split_and!; try done; try lia. by constructor.
  - apply IHe in H as (ts & b & Hr1 & Hje & Hf & Ht1 & Hm1); [|done]. cbn [rest tokens] in *.
    exists [], (TArr ts), (91 :: (w ++ b) ++ [93]).
    change (ntok (TArr ts)) with (2 + tok_elems ts). cbn [rest tokens].
    split_and!; [by rewrite Hr, Hr1; norm_app|done| | |lia|done].
    + constructor. clear -Hje Hw. destruct Hje; rewrite app_assoc; constructor; try done; by apply Forall_app.
    + cbn [fits]. split; [lia|done].
Qed.

Lemma scanner_sound fuel :
  (forall d s s', good (rest s) -> value fuel d s = Ok s' -> reads_value d s s') /\
  (forall d r k s', good (123 :: r) -> object fuel (d + 1) (mkScanner (123 :: r) k) = Ok s' ->
     reads_value d (mkScanner (123 :: r) k) s') /\
  (forall d n keys s s', good (rest s) -> members fuel d n keys s = Ok s' ->
     reads_members d n keys s s') /\
  (forall d r k s', good (91 :: r) -> array fuel (d + 1) (mkScanner (91 :: r) k) = Ok s' ->
     reads_value d (mkScanner (91 :: r) k) s') /\
  (forall d s s', good (rest s) -> elements fuel d s = Ok s' -> reads_elems d s s').
Proof.
  induction fuel as [|fuel (IHv & IHo & IHm & IHa & IHe)]; [done|].
  split_and!.
  - intros d s s' Hg H. cbn [value] in H. apply reads_value_ws.
    apply good_skip_ws in Hg. change (skip_ws (rest s)) with (rest (whitespace s)) in Hg.
    destruct (whitespace s) as [[|c r] k]; [done|]. cbn [rest] in *.
    destruct (c =? 123) eqn:E1; [assert (c = 123) as -> by lia; by apply IHo|].
    destruct (c =? 91) eqn:E2; [assert (c = 91) as -> by lia; by apply IHa|].
    by apply scalar_sound.
  - apply object_sound_step, IHm.
  - by apply members_sound_step.
  - apply array_sound_step, IHe.
  - by apply elements_sound_step.
Qed.

(** ** The scanner accepts the whole grammar *)

(** What may follow a value. *)
Definition stop (r : bytes) : Prop :=
  match r with
  | [] => True
  | c :: _ => is_ws c = true \/ c = 44 \/ c = 93 \/ c = 125
  end.

Lemma is_ws_cases c : is_ws c = true -> c = 32 \/ c = 9 \/ c = 10 \/ c = 13.
Proof. unfold is_ws. lia. Qed.

Lemma stop_num r : stop r -> num_stop r.
Proof.
  destruct r as [|c r]; cbn; [done|].
  intros [H%is_ws_cases|H]; [destruct H as [->|[->|[->| ->]]]|destruct H as [->|[->| ->]]]; done.
Qed.

Lemma stop_ws w c r : ws w -> c = 44 \/ c = 93 \/ c = 125 -> stop (w ++ c :: r).
Proof. intros Hw Hc. destruct Hw; cbn; auto. Qed.

Lemma whitespace_exact w c q k : ws w -> is_ws c = false ->
  whitespace (mkScanner (w ++ c :: q) k) = mkScanner (c :: q) k.
Proof. intros Hw Hc. unfold whitespace, set_rest; cbn. by rewrite skip_ws_exact. Qed.

Lemma whitespace_idem s : whitespace (whitespace s) = whitespace s.
Proof.
  unfold whitespace, set_rest; cbn. f_equal. apply skip_ws_solid.
  induction (rest s) as [|c r IH]; cbn; [done|]. destruct (is_ws c) eqn:E; done.
Qed.

Lemma value_whitespace fuel d s : value fuel d (whitespace s) = value fuel d s.
Proof. destruct fuel; [done|]. cbn [value]. by rewrite whitespace_idem. Qed.
Lemma elements_whitespace fuel d s : elements fuel d (whitespace s) = elements fuel d s.
Proof. destruct fuel; [done|]. cbn [elements]. by rewrite value_whitespace. Qed.
Lemma members_whitespace fuel d n ks s : members fuel d n ks (whitespace s) = members fuel d n ks s.
Proof. destruct fuel; [done|]. cbn [members]. by rewrite whitespace_idem. Qed.

(** The first byte of a value. *)
Definition opens (c : Z) : Prop := is_ws c = false /\ c <> 93 /\ c <> 125 /\ c <> 44.

Lemma jnumber_head b : jnumber b -> exists c q, b = c :: q /\ (c = 45 \/ 48 <= c <= 57).
Proof.
  intros (sg & i & f & e & -> & Hsg & Hi & _).
  assert (exists c q, i = c :: q /\ 48 <= c <= 57) as (c & q & -> & Hc).
  { destruct Hi as [->|(d & ds & -> & ? & _)]; eexists _, _; (split; [done|]); lia. }
  destruct Hsg as [->| ->]; eexists _, _; (split; [done|]); auto.
Qed.

Lemma number_first_solid c : c = 45 \/ 48 <= c <= 57 -> opens c.
Proof. unfold opens, is_ws. lia. Qed.

Lemma literal_cases b : b ∈ [B "true"; B "false"; B "null"] ->
  b = [116; 114; 117; 101] \/ b = [102; 97; 108; 115; 101] \/ b = [110; 117; 108; 108].
Proof. rewrite !elem_of_cons, elem_of_nil. intros [->|[->|[->|[]]]]; auto. Qed.

Lemma jvalue_head t b : jvalue t b -> exists c q, b = c :: q /\ opens c.
Proof.
  intros H. destruct H as [b Hb|b Hb| | | | | ];
    try (eexists _, _; split; [done|]; unfold opens; cbn; lia).
  - apply literal_cases in Hb as [->|[->| ->]]; (eexists _, _; split; [done|]; unfold opens; cbn; lia).
  - destruct (jnumber_head b Hb) as (c & q & -> & Hc). eauto using number_first_solid.
Qed.

Lemma jelems_head ts b : jelems ts b -> exists w c q, b = w ++ c :: q /\ ws w /\ opens c.
Proof.
  intros H. destruct H as [w1 t b w2 Hw Hv|w1 t b w2 ts bs Hw Hv];
    destruct (jvalue_head t b Hv) as (c & q & -> & Hc); exists w1, c; eexists; (split; [by norm_app|]); done.
Qed.

Lemma jmembers_head ms b : jmembers ms b -> exists w q, b = w ++ 34 :: q /\ ws w.
Proof. intros H. destruct H; eauto. Qed.

Lemma consume_ne c x r : x <> c -> consume c (x :: r) = None.
Proof. intros H. cbn. by rewrite (proj2 (Z.eqb_neq x c)). Qed.

Lemma token_spec s : tokens s + 1 <= MaxTokens -> token s = Ok (mkScanner (rest s) (tokens s + 1)).
Proof. intros H. by apply token_ok. Qed.

(** [value] in front of a bracket. *)
Lemma value_object fuel d w q k : ws w ->
  value (S fuel) d (mkScanner (w ++ 123 :: q) k) = object fuel (d + 1) (mkScanner (123 :: q) k).
Proof. intros Hw. cbn [value]. by rewrite whitespace_exact. Qed.
Lemma value_array fuel d w q k : ws w ->
  value (S fuel) d (mkScanner (w ++ 91 :: q) k) = array fuel (d + 1) (mkScanner (91 :: q) k).
Proof. intros Hw. cbn [value]. by rewrite whitespace_exact. Qed.

Lemma value_literal fuel d w b r k :
  ws w -> b ∈ [B "true"; B "false"; B "null"] -> k + 1 <= MaxTokens ->
  value (S fuel) d (mkScanner (w ++ b ++ r) k) = Ok (mkScanner r (k + 1)).
Proof.
  intros Hw Hb Hk.
  assert (forall v, literal v (mkScanner (v ++ r) k) = Ok (mkScanner r (k + 1))) as Hl.
  { intros v. unfold literal; cbn [rest]. rewrite take_app_length, eqb_refl. cbn [negb].
    rewrite token_spec by done. cbn. unfold set_rest; cbn. by rewrite drop_app_length. }
  apply literal_cases in Hb as [->|[->| ->]]; cbn [value app];
    rewrite whitespace_exact by done; cbn [rest]; exact (Hl _).
Qed.

Lemma value_number fuel d w b r k :
  ws w -> jnumber b -> stop r -> len b <= MaxNumberChars -> k + 1 <= MaxTokens ->
  value (S fuel) d (mkScanner (w ++ b ++ r) k) = Ok (mkScanner r (k + 1)).
Proof.
  intros Hw Hb Hr Hl Hk. destruct (jnumber_head b Hb) as (c & q & -> & Hc).
  destruct (number_first_solid c Hc) as (Hs & _). cbn [value]. cbn [app].
  rewrite whitespace_exact by done. cbn [rest].
  assert (forall x, x = 123 \/ x = 91 \/ x = 34 \/ x = 116 \/ x = 102 \/ x = 110 -> (c =? x) = false) as Hne.
  { intros x Hx. apply Z.eqb_neq. lia. }
  rewrite !Hne by tauto. unfold number. cbn [rest].
  rewrite (app_comm_cons q r c), number_lex_complete by eauto using stop_num. cbn [mbind result_bind].
  rewrite len_app. assert ((MaxNumberChars <? len (c :: q) + len r - len r) = false) as -> by lia.
  by rewrite token_spec.
Qed.

Lemma value_string fuel d w cs r k :
  ws w -> Forall schar_ok cs -> good (34 :: text cs ++ 34 :: r) ->
  len (str_value cs) <= MaxScalarStringUTF8Bytes -> RuneCount (str_value cs) <= MaxScalarStringChars ->
  k + 1 <= MaxTokens ->
  value (S fuel) d (mkScanner (w ++ 34 :: text cs ++ 34 :: r) k) = Ok (mkScanner r (k + 1)).
Proof.
  intros Hw Hcs Hg H1 H2 Hk. cbn [value]. rewrite whitespace_exact by done. cbn [rest].
  change (34 =? 123) with false. change (34 =? 91) with false. change (34 =? 34) with true. cbn iota.
  rewrite token_spec by done. cbn [mbind result_bind rest tokens]. rewrite string_spec by done.
  assert (string_over false (str_value cs) = false) as -> by (cbn; lia). done.
Qed.

(** The three parts of the completeness statement. *)
Definition accepts_value (t : tree) (b : bytes) : Prop :=
  forall d w r k fuel, ws w -> fits d t -> k + ntok t <= MaxTokens -> good (b ++ r) -> stop r ->
    (3 * length (b ++ r) + 1 <= fuel)%nat ->
    value fuel d (mkScanner (w ++ b ++ r) k) = Ok (mkScanner r (k + ntok t)).
Definition accepts_elems (ts : list tree) (b : bytes) : Prop :=
  forall d r k fuel, fit_elems d ts -> k + tok_elems ts + 1 <= MaxTokens -> good (b ++ 93 :: r) ->
    (3 * length (b ++ 93%Z :: r) + 2 <= fuel)%nat ->
    elements fuel d (mkScanner (b ++ 93 :: r) k) = Ok (mkScanner r (k + tok_elems ts + 1)).
Definition accepts_members (ms : list (list schar * tree)) (b : bytes) : Prop :=
  forall d n keys r k fuel, fit_members d ms -> NoDup (keys_of ms) ->
    (forall x, x ∈ keys_of ms -> x ∉ keys) -> n - 1 + len ms <= MaxMembersPerObject ->
    k + tok_members ms + 1 <= MaxTokens -> good (b ++ 125 :: r) ->
    (3 * length (b ++ 125%Z :: r) + 2 <= fuel)%nat ->
    members fuel d n keys (mkScanner (b ++ 125 :: r) k) = Ok (mkScanner r (k + tok_members ms + 1)).

Lemma ntok_pos t : 1 <= ntok t.
Proof.
  revert t. fix IH 1. intros [b|b|cs|ts|ms]; cbn; try lia.
  - enough (0 <= zsum ntok ts) by lia. induction ts as [|t ts IHt]; cbn; [lia|]. pose proof (IH t). lia.
  - enough (0 <= zsum (fun m => 1 + ntok m.2) ms) by lia.
    induction ms as [|[c t] ms IHt]; cbn; [lia|]. pose proof (IH t). lia.
Qed.

Lemma tok_elems_nonneg ts : 0 <= tok_elems ts.
Proof. apply zsum_nonneg. intros t _. pose proof (ntok_pos t). lia. Qed.
Lemma tok_members_nonneg ms : 0 <= tok_members ms.
Proof. apply zsum_nonneg. intros m _. pose proof (ntok_pos m.2). lia. Qed.

Lemma accept_empty_array w : ws w -> accepts_value (TArr []) (91 :: w ++ [93]).
Proof.
  intros Hw d w0 r k fuel Hw0 Hf Hk Hg Hr Hfuel. cbn in Hf, Hk, Hfuel.
  destruct fuel as [|[|fuel]]; [lia|lia|]. norm_app. rewrite value_array by done. cbn [array].
  assert ((MaxNestingDepth <? d + 1) = false) as -> by lia.
  rewrite token_spec by (cbn; lia). unfold set_rest. cbn [mbind result_bind rest tokens tail].
  rewrite whitespace_exact by done. cbn [rest tokens consume]. change (93 =? 93) with true. cbn iota.
  rewrite token_spec by (cbn; lia). cbn. do 2 f_equal. lia.
Qed.

Lemma accept_empty_object w : ws w -> accepts_value (TObj []) (123 :: w ++ [125]).
Proof.
  intros Hw d w0 r k fuel Hw0 Hf Hk Hg Hr Hfuel. cbn in Hf, Hk, Hfuel.
  destruct fuel as [|[|fuel]]; [lia|lia|]. norm_app. rewrite value_object by done. cbn [object].
  assert ((MaxNestingDepth <? d + 1) = false) as -> by lia.
  rewrite token_spec by (cbn; lia). unfold set_rest. cbn [mbind result_bind rest tokens tail].
  rewrite whitespace_exact by done. cbn [rest tokens consume]. change (125 =? 125) with true. cbn iota.
  rewrite token_spec by (cbn; lia). cbn. do 2 f_equal. lia.
Qed.

Lemma accept_array ts b :
  jelems ts b -> accepts_elems ts b -> accepts_value (TArr ts) (91 :: b ++ [93]).
Proof.
  intros Hj IH d w r k fuel Hw Hf Hk Hg Hr Hfuel.
  change (ntok (TArr ts)) with (2 + tok_elems ts) in *. cbn [fits] in Hf. destruct Hf as [Hd Hf].
  pose proof (tok_elems_nonneg ts). rewrite <- app_comm_cons, <- app_assoc in *. cbn [app] in *.
  cbn [length] in Hfuel. destruct fuel as [|[|fuel]]; [lia|lia|].
  rewrite value_array by done. cbn [array].
  assert ((MaxNestingDepth <? d + 1) = false) as -> by lia.
  rewrite token_spec by (cbn; lia). unfold set_rest. cbn [mbind result_bind rest tokens tail].
  assert (consume 93 (rest (whitespace (mkScanner (b ++ 93 :: r) (k + 1)))) = None) as ->.
  { destruct (jelems_head ts b Hj) as (w' & c & q & -> & Hw' & Hs & H93 & _). norm_app.
    rewrite whitespace_exact by done. by apply consume_ne. }
  rewrite elements_whitespace. rewrite IH; [f_equal; f_equal; lia|done|lia| |lia].
  by apply good_cons in Hg.
Qed.

Lemma accept_object ms b :
  jmembers ms b -> accepts_members ms b -> accepts_value (TObj ms) (123 :: b ++ [125]).
Proof.
  intros Hj IH d w r k fuel Hw Hf Hk Hg Hr Hfuel.
  change (ntok (TObj ms)) with (2 + tok_members ms) in *. cbn [fits] in Hf.
  destruct Hf as (Hd & Hn & Hnd & Hf).
  pose proof (tok_members_nonneg ms). rewrite <- app_comm_cons, <- app_assoc in *. cbn [app] in *.
  cbn [length] in Hfuel. destruct fuel as [|[|fuel]]; [lia|lia|].
  rewrite value_object by done. cbn [object].
  assert ((MaxNestingDepth <? d + 1) = false) as -> by lia.
  rewrite token_spec by (cbn; lia). unfold set_rest. cbn [mbind result_bind rest tokens tail].
  assert (consume 125 (rest (whitespace (mkScanner (b ++ 125 :: r) (k + 1)))) = None) as ->.
  { destruct (jmembers_head ms b Hj) as (w' & q & -> & Hw'). norm_app.
    rewrite whitespace_exact by done. by apply consume_ne. }
  rewrite members_whitespace. rewrite IH; [f_equal; f_equal; lia|done|done| |lia|lia| |lia].
  - intros x _ Hx. by apply elem_of_nil in Hx.
  - by apply good_cons in Hg.
Qed.

(** One element: the value, then the closing bracket or a comma. *)
Lemma elements_step fuel d w1 b w2 c q t k :
  accepts_value t b -> ws w1 -> ws w2 -> c = 44 \/ c = 93 -> fits d t ->
  k + ntok t <= MaxTokens -> good (w1 ++ b ++ w2 ++ c :: q) ->
  (3 * length (b ++ w2 ++ c :: q) + 1 <= fuel)%nat ->
  elements (S fuel) d (mkScanner (w1 ++ b ++ w2 ++ c :: q) k) =
  if c =? 93 then token (mkScanner q (k + ntok t)) else elements fuel d (mkScanner q (k + ntok t)).
Proof.
  intros Hv Hw1 Hw2 Hc Hf Hk Hg Hfuel. cbn [elements].
  rewrite (Hv d w1 (w2 ++ c :: q) k fuel); [|done|done|lia|by apply good_app in Hg|apply stop_ws; [done|lia]|done].
  cbn [mbind result_bind]. rewrite whitespace_exact by (done || (unfold is_ws; lia)). cbn [rest].
  destruct Hc as [-> | ->]; done.
Qed.

Lemma members_step fuel d n keys w0 cs w1 w2 b w3 c q t k :
  accepts_value t b -> Forall schar_ok cs -> ws w0 -> ws w1 -> ws w2 -> ws w3 -> c = 44 \/ c = 125 ->
  len (str_value cs) <= MaxFieldNameUTF8Bytes -> fits d t -> str_value cs ∉ keys ->
  n <= MaxMembersPerObject -> k + 1 + ntok t <= MaxTokens ->
  good (w0 ++ 34 :: text cs ++ 34 :: w1 ++ 58 :: w2 ++ b ++ w3 ++ c :: q) ->
  (3 * length (b ++ w3 ++ c :: q) + 1 <= fuel)%nat ->
  members (S fuel) d n keys
    (mkScanner (w0 ++ 34 :: text cs ++ 34 :: w1 ++ 58 :: w2 ++ b ++ w3 ++ c :: q) k) =
  if c =? 125 then token (mkScanner q (k + 1 + ntok t))
  else members fuel d (n + 1) (str_value cs :: keys) (mkScanner q (k + 1 + ntok t)).
Proof.
  intros Hv Hcs Hw0 Hw1 Hw2 Hw3 Hc Hl Hf Hkeys Hn Hk Hg Hfuel. cbn [members].
  apply good_app in Hg. pose proof (ntok_pos t).
  rewrite whitespace_exact by done. cbn [rest consume]. change (34 =? 34) with true. cbn iota.
  rewrite token_spec by (cbn; lia). cbn [mbind result_bind rest tokens]. rewrite string_spec by done.
  assert (string_over true (str_value cs) = false) as -> by (cbn; lia). cbn [mbind result_bind fst snd].
  rewrite bool_decide_eq_false_2 by done. assert ((MaxMembersPerObject <? n) = false) as -> by lia.
  rewrite whitespace_exact by done. cbn [rest consume]. change (58 =? 58) with true. cbn iota.
  unfold set_rest. cbn [tokens].
  apply good_cons, good_app, good_cons, good_app, good_cons, good_app in Hg.
  rewrite (Hv d w2 (w3 ++ c :: q) (k + 1) fuel); [|done|done|lia|done|apply stop_ws; [done|lia]|done].
  cbn [mbind result_bind]. rewrite whitespace_exact by (done || (unfold is_ws; lia)). cbn [rest].
  destruct Hc as [-> | ->]; done.
Qed.

#[local] Ltac lens :=
  repeat match goal with
  | H : context [length (_ ++ _)] |- _ => rewrite !length_app in H
  | H : context [length (_ :: _)] |- _ => progress cbn [length] in H
  | |- context [length (_ ++ _)] => rewrite !length_app
  | |- context [length (_ :: _)] => progress cbn [length]
  end; lia.

Lemma tok_elems_cons t ts : tok_elems (t :: ts) = ntok t + tok_elems ts.
Proof. done. Qed.
Lemma tok_members_cons cs t ms : tok_members ((cs, t) :: ms) = 1 + ntok t + tok_members ms.
Proof. done. Qed.

Lemma accept_last_elem w1 t b w2 :
  ws w1 -> accepts_value t b -> ws w2 -> accepts_elems [t] (w1 ++ b ++ w2).
Proof.
  intros Hw1 IH Hw2 d r k [|fuel] Hf Hk Hg Hfuel; [lia|].
  rewrite tok_elems_cons in *. change (tok_elems []) with 0 in *. destruct Hf as [Hf _].
  rewrite <- !app_assoc in *.
  rewrite (elements_step _ _ _ _ _ _ _ t) by first [done|by right|lia|lens].
  change (93 =? 93) with true. cbn iota. rewrite token_spec by (cbn; lia). cbn [rest tokens].
  do 2 f_equal. lia.
Qed.

Lemma accept_more_elems w1 t b w2 ts bs :
  ws w1 -> accepts_value t b -> ws w2 -> accepts_elems ts bs ->
  accepts_elems (t :: ts) (w1 ++ b ++ w2 ++ 44 :: bs).
Proof.
  intros Hw1 IH Hw2 IHs d r k [|fuel] Hf Hk Hg Hfuel; [lia|].
  rewrite tok_elems_cons in *. destruct Hf as [Hf Hfs]. pose proof (tok_elems_nonneg ts).
  revert Hg Hfuel. norm_app. intros Hg Hfuel.
  rewrite (elements_step _ _ _ _ _ _ _ t) by first [done|by left|lia|lens].
  change (44 =? 93) with false. cbn iota. rewrite IHs; [do 2 f_equal; lia|done|lia| |lens].
  do 3 apply good_app in Hg. by apply good_cons in Hg.
Qed.

Lemma accept_last_member w0 cs w1 w2 t b w3 :
  ws w0 -> Forall schar_ok cs -> ws w1 -> ws w2 -> accepts_value t b -> ws w3 ->
  accepts_members [(cs, t)] (w0 ++ 34 :: text cs ++ 34 :: w1 ++ 58 :: w2 ++ b ++ w3).
Proof.
  intros Hw0 Hcs Hw1 Hw2 IH Hw3 d n keys r k [|fuel] Hf Hnd Hkeys Hn Hk Hg Hfuel; [lia|].
  rewrite tok_members_cons in *. change (tok_members []) with 0 in *. destruct Hf as [[Hl Hf] _].
  change (len [(cs, t)]) with 1 in Hn. assert (str_value cs ∉ keys) by (apply Hkeys; left).
  revert Hg Hfuel. norm_app. intros Hg Hfuel.
  rewrite (members_step _ _ _ _ _ _ _ _ _ _ _ _ t) by first [done|by right|lia|lens].
  change (125 =? 125) with true. cbn iota. rewrite token_spec by (cbn; lia). cbn [rest tokens].
  do 2 f_equal. lia.
Qed.

Lemma accept_more_members w0 cs w1 w2 t b w3 ms bs :
  ws w0 -> Forall schar_ok cs -> ws w1 -> ws w2 -> accepts_value t b -> ws w3 ->
  accepts_members ms bs ->
  accepts_members ((cs, t) :: ms)
    (w0 ++ 34 :: text cs ++ 34 :: w1 ++ 58 :: w2 ++ b ++ w3 ++ 44 :: bs).
Proof.
  intros Hw0 Hcs Hw1 Hw2 IH Hw3 IHs d n keys r k [|fuel] Hf Hnd Hkeys Hn Hk Hg Hfuel; [lia|].
  pose proof (tok_members_nonneg ms). rewrite tok_members_cons in *. destruct Hf as [[Hl Hf] Hfs].
  unfold len in Hn; cbn [length] in Hn. assert (str_value cs ∉ keys) by (apply Hkeys; left).
  apply NoDup_cons in Hnd as [Hnin Hnd].
  revert Hg Hfuel. norm_app. intros Hg Hfuel.
  rewrite (members_step _ _ _ _ _ _ _ _ _ _ _ _ t) by first [done|by left|lia|lens].
  change (44 =? 125) with false. cbn iota.
  rewrite IHs; [do 2 f_equal; lia|done|done| |unfold len; lia|lia| |lens].
  - intros x Hx [->|Hin]%elem_of_cons; [done|]. apply (Hkeys x); [by right|done].
  - apply good_app, good_cons, good_app, good_cons, good_app, good_cons in Hg.
    do 3 apply good_app in Hg. by apply good_cons in Hg.
Qed.

Lemma grammar_accepted :
  (forall t b, jvalue t b -> accepts_value t b) /\
  (forall ts b, jelems ts b -> accepts_elems ts b) /\
  (forall ms b, jmembers ms b -> accepts_members ms b).
Proof.
  apply grammar_ind.
  - intros b Hb d w r k [|fuel] Hw Hf Hk Hg Hr Hfuel; [lia|]. by apply value_literal.
  - intros b Hb d w r k [|fuel] Hw Hf Hk Hg Hr Hfuel; [lia|]. by apply value_number.
  - intros cs Hcs d w r k [|fuel] Hw Hf Hk Hg Hr Hfuel; [lia|].
    rewrite <- app_comm_cons, <- app_assoc in *. cbn [app] in *. destruct Hf. by apply value_string.
  - intros; by apply accept_empty_array.
  - intros; by apply accept_array.
  - intros; by apply accept_empty_object.
  - intros; by apply accept_object.
  - intros; by apply accept_last_elem.
  - intros; by apply accept_more_elems.
  - intros; by apply accept_last_member.
  - intros; by apply accept_more_members.
Qed.

(** ** Enough fuel *)

Lemma escape_fuel r : escape r <> Err FailureNone.
Proof.
  unfold escape, protocolError. intros H.
  repeat match type of H with context [match ?x with _ => _ end] => destruct x end; done.
Qed.

Lemma scan_string_fuel fuel r : (length r < fuel)%nat -> scan_string fuel r <> Err FailureNone.
Proof.
  revert r. induction fuel as [|fuel IH]; intros r Hf; [lia|]. cbn.
  destruct r as [|c r]; [done|]. cbn [length] in Hf.
  destruct (c =? 34); [done|]. destruct (c =? 92) eqn:E.
  - assert (c = 92) as -> by lia. intros [H|(r1 & Hr1 & H)]%bind_err; [by apply escape_fuel in H|].
    apply escape_sound in Hr1 as (x & Hx & Ht). revert H. apply IH.
    destruct (schar_text_cons x Hx) as (c' & t & Ht' & _). rewrite Ht' in Ht.
    apply (f_equal length) in Ht. rewrite length_app in Ht. cbn [length] in Ht. lia.
  - destruct (c <? 32); [done|]. apply IH. lia.
Qed.

Lemma string_fuel fn s : string fn s <> Err FailureNone.
Proof.
  unfold string. intros [H|(r1 & _ & H)]%bind_err; [by apply scan_string_fuel in H; [|lia]|].
  destruct (unquote _ _); [|done]. by destruct (if fn then _ else _).
Qed.

Lemma token_fuel s : token s <> Err FailureNone.
Proof. unfold token. by destruct (_ <? _). Qed.

Lemma literal_fuel v s : literal v s <> Err FailureNone.
Proof.
  unfold literal. destruct (negb _); [done|]. intros [H|(s1 & _ & H)]%bind_err; [|done].
  by apply token_fuel in H.
Qed.

Lemma number_fuel s : number s <> Err FailureNone.
Proof.
  unfold number. intros [H|(r1 & _ & H)]%bind_err.
  - unfold number_lex, number_int, number_frac, number_exp, protocolError in H.
    repeat match type of H with
    | context [match ?x with _ => _ end] => destruct x; cbn in H; try done
    end.
  - destruct (_ <? _); [done|]. by apply token_fuel in H.
Qed.

Lemma reads_value_length d s s' :
  reads_value d s s' -> (length (rest s') < length (rest (whitespace s)))%nat /\ (good (rest s) -> good (rest s')).
Proof.
  intros (w & t & b & Hr & Hw & Hj & _).
  destruct (jvalue_head t b Hj) as (c & q & -> & Hc & _). split.
  - unfold whitespace; cbn. rewrite Hr. cbn [app]. rewrite skip_ws_exact by done. lens.
  - rewrite Hr. by intros H%good_app%good_app.
Qed.

Lemma whitespace_length s : (length (rest (whitespace s)) <= length (rest s))%nat.
Proof. apply skip_ws_length. Qed.

Lemma good_whitespace s : good (rest s) -> good (rest (whitespace s)).
Proof. apply good_skip_ws. Qed.

Definition enough_value (fuel : nat) : Prop := forall d s, good (rest s) ->
  (3 * length (rest (whitespace s)) + 1 <= fuel)%nat -> value fuel d s <> Err FailureNone.
Definition enough_elems (fuel : nat) : Prop := forall d s, good (rest s) ->
  (3 * length (rest (whitespace s)) + 2 <= fuel)%nat -> elements fuel d s <> Err FailureNone.
Definition enough_members (fuel : nat) : Prop := forall d n keys s, good (rest s) ->
  (3 * length (rest (whitespace s)) + 2 <= fuel)%nat -> members fuel d n keys s <> Err FailureNone.

(** After a value: its closing bracket, or a comma and the next turn. *)
Lemma after_value_fuel close s (next : scanner -> result Failure scanner) :
  (forall r, consume 44 (rest (whitespace s)) = Some r -> next (set_rest r (whitespace s)) <> Err FailureNone) ->
  match consume close (rest (whitespace s)) with
  | Some r => token (set_rest r (whitespace s))
  | None =>
    match consume 44 (rest (whitespace s)) with
    | Some r => next (set_rest r (whitespace s))
    | None => protocolError
    end
  end <> Err FailureNone.
Proof.
  intros H. destruct (consume close _); [apply token_fuel|].
  destruct (consume 44 _) eqn:E; [by apply H|done].
Qed.

Lemma elements_fuel_step fuel : enough_value fuel -> enough_elems fuel -> enough_elems (S fuel).
Proof.
  intros Hv He d s Hg Hf. cbn [elements]. intros [H|(s1 & H1 & H)]%bind_err.
  - revert H. apply Hv; [done|lia].
  - apply scanner_sound, reads_value_length in H1 as [Hlen Hg1]; [|done].
    revert H. apply after_value_fuel. intros r Hr. apply He.
    + apply (good_cons 44). apply consume_Some in Hr. cbn. rewrite <- Hr. by apply good_whitespace, Hg1.
    + apply consume_Some, (f_equal length) in Hr. cbn [length] in Hr.
      pose proof (whitespace_length s1). pose proof (whitespace_length (set_rest r (whitespace s1))).
      unfold set_rest in *. cbn [rest] in *. lia.
Qed.

Lemma members_fuel_step fuel : enough_value fuel -> enough_members fuel -> enough_members (S fuel).
Proof.
  intros Hv Hm d n keys s Hg Hf. cbn [members]. apply good_whitespace in Hg.
  destruct (whitespace s) as [r0 k0]. cbn [rest] in *.
  destruct (consume 34 r0) as [r|] eqn:E; [|done]. apply consume_Some in E as ->.
  intros [H|(s1 & [_ ->]%token_ok & H)]%bind_err; [by apply token_fuel in H|].
  apply bind_err in H as [H|([key s2] & Hs & H)]; [by apply string_fuel in H|].
  cbn [rest tokens fst snd] in *. pose proof Hg as Hg'.
  apply (string_sound _ _ _ _ _ Hg') in Hs as (cs & -> & _).
  apply good_cons, good_app, good_cons, good_whitespace in Hg.
  pose proof (whitespace_length s2) as Hl2. destruct (bool_decide _); [done|]. destruct (_ <? n); [done|].
  destruct (whitespace s2) as [r3 k3]. cbn [rest] in *.
  destruct (consume 58 r3) as [r4|] eqn:E; [|done]. apply consume_Some in E as ->. unfold set_rest in H. cbn [tokens] in H.
  apply good_cons in Hg. apply bind_err in H as [H|(s5 & H1 & H)].
  - revert H. apply Hv; [done|]. pose proof (whitespace_length (mkScanner r4 k3)). cbn [rest] in *. lens.
  - apply scanner_sound, reads_value_length in H1 as [Hlen Hg1]; [|done].
    pose proof (whitespace_length (mkScanner r4 k3)) as Hl4. cbn [rest] in *.
    revert H. apply after_value_fuel with (next := members fuel d (n + 1) (key :: keys)). intros r Hr. apply Hm.
    + apply (good_cons 44). apply consume_Some in Hr. cbn. rewrite <- Hr. by apply good_whitespace, Hg1.
    + apply consume_Some, (f_equal length) in Hr. cbn [length] in Hr.
      pose proof (whitespace_length s5). pose proof (whitespace_length (set_rest r (whitespace s5))).
      unfold set_rest in *. cbn [rest] in *. lens.
Qed.

Lemma scanner_fuel fuel :
  enough_value fuel /\ enough_elems fuel /\ enough_members fuel /\
  (forall d r k, good r -> (3 * length r + 3 <= fuel)%nat ->
     object fuel d (mkScanner (123 :: r) k) <> Err FailureNone) /\
  (forall d r k, good r -> (3 * length r + 3 <= fuel)%nat ->
     array fuel d (mkScanner (91 :: r) k) <> Err FailureNone).
Proof.
  induction fuel as [|fuel (IHv & IHe & IHm & IHo & IHa)].
  { split_and!; repeat intro; lia. }
  split_and!; [|by apply elements_fuel_step|by apply members_fuel_step|..].
  - intros d s Hg Hf. cbn [value]. apply good_whitespace in Hg.
    destruct (whitespace s) as [[|c r] k]; [done|]. cbn [rest length] in *. apply good_cons in Hg.
    destruct (c =? 123) eqn:E1; [assert (c = 123) as -> by lia; apply IHo; [done|lia]|].
    destruct (c =? 91) eqn:E2; [assert (c = 91) as -> by lia; apply IHa; [done|lia]|].
    destruct (c =? 34).
    { intros [H|(s1 & _ & H)]%bind_err; [by apply token_fuel in H|].
      apply bind_err in H as [H|(p & _ & H)]; [by apply string_fuel in H|done]. }
    destruct (c =? 116); [apply literal_fuel|]. destruct (c =? 102); [apply literal_fuel|].
    destruct (c =? 110); [apply literal_fuel|]. apply number_fuel.
  - intros d r k Hg Hf. cbn [object]. destruct (_ <? d); [done|].
    intros [H|(s1 & [_ ->]%token_ok & H)]%bind_err; [by apply token_fuel in H|].
    unfold set_rest in H; cbn [rest tail tokens] in H.
    destruct (consume 125 _); [by apply token_fuel in H|]. rewrite members_whitespace in H. revert H.
    apply IHm; [done|]. pose proof (whitespace_length (mkScanner r (k + 1))). cbn [rest] in *. lia.
  - intros d r k Hg Hf. cbn [array]. destruct (_ <? d); [done|].
    intros [H|(s1 & [_ ->]%token_ok & H)]%bind_err; [by apply token_fuel in H|].
    unfold set_rest in H; cbn [rest tail tokens] in H.
    destruct (consume 93 _); [by apply token_fuel in H|]. rewrite elements_whitespace in H. revert H.
    apply IHe; [done|]. pose proof (whitespace_length (mkScanner r (k + 1))). cbn [rest] in *. lia.
Qed.

(** ** The decoder yields the value of the tree *)

Definition decodes_value (t : tree) (b : bytes) : Prop :=
  forall w r fuel, ws w -> good (b ++ r) -> stop r -> (2 * length (b ++ r) < fuel)%nat ->
    decode_value fuel (w ++ b ++ r) = Some (to_any t, r).
Definition decodes_elems (ts : list tree) (b : bytes) : Prop :=
  forall r fuel, good (b ++ 93 :: r) -> (2 * length (b ++ 93%Z :: r) + 1 < fuel)%nat ->
    decode_elements fuel (b ++ 93 :: r) = Some (map to_any ts, r).
Definition decodes_members (ms : list (list schar * tree)) (b : bytes) : Prop :=
  forall r fuel, good (b ++ 125 :: r) -> (2 * length (b ++ 125%Z :: r) + 1 < fuel)%nat ->
    decode_members fuel (b ++ 125 :: r) = Some (map (fun m => (str_value m.1, to_any m.2)) ms, r).

Lemma decode_string_text cs r :
  Forall schar_ok cs -> good (34 :: text cs ++ 34 :: r) ->
  decode_string (text cs ++ 34 :: r) = Some (str_value cs, r).
Proof.
  intros Hcs Hg. unfold decode_string.
  rewrite scan_string_complete by (done || (rewrite length_app; lia)).
  rewrite literal_text, unquote_text by (done || lia || by eapply good_string). done.
Qed.

#[local] Arguments decode_string : simpl never.
#[local] Arguments decode_literal : simpl never.

Lemma skip_ws_idem r : skip_ws (skip_ws r) = skip_ws r.
Proof. pose proof (whitespace_idem (mkScanner r 0)) as H. by injection H. Qed.
Lemma decode_value_ws fuel r : decode_value fuel (skip_ws r) = decode_value fuel r.
Proof. destruct fuel; [done|]. cbn [decode_value]. by rewrite skip_ws_idem. Qed.
Lemma decode_elements_ws fuel r : decode_elements fuel (skip_ws r) = decode_elements fuel r.
Proof. destruct fuel; [done|]. cbn [decode_elements]. by rewrite decode_value_ws. Qed.
Lemma decode_members_ws fuel r : decode_members fuel (skip_ws r) = decode_members fuel r.
Proof. destruct fuel; [done|]. cbn [decode_members]. by rewrite skip_ws_idem. Qed.

Lemma decodes_literal b : b ∈ [B "true"; B "false"; B "null"] -> decodes_value (TLit b) b.
Proof.
  intros Hb w r [|fuel] Hw _ _ Hf; [lia|]. clear Hf.
  assert (forall v x, decode_literal v x (v ++ r) = Some (x, r)) as Hl.
  { intros v x. unfold decode_literal. by rewrite take_app_length, eqb_refl, drop_app_length. }
  apply literal_cases in Hb as [->|[->| ->]]; cbn [decode_value app];
    rewrite skip_ws_exact by done; exact (Hl _ _).
Qed.

Lemma decodes_number b : jnumber b -> decodes_value (TNum b) b.
Proof.
  intros Hb w r [|fuel] Hw _ Hr Hf; [lia|]. clear Hf. destruct (jnumber_head b Hb) as (c & q & -> & Hc).
  destruct (number_first_solid c Hc) as (Hs & _). cbn [decode_value app].
  rewrite skip_ws_exact by done.
  assert (forall x, x = 123 \/ x = 91 \/ x = 34 \/ x = 116 \/ x = 102 \/ x = 110 -> (c =? x) = false) as Hne.
  { intros x Hx. apply Z.eqb_neq. lia. }
  rewrite !Hne by tauto. rewrite (app_comm_cons q r c), number_lex_complete by eauto using stop_num.
  by rewrite before_app.
Qed.

Lemma decodes_string cs : Forall schar_ok cs -> decodes_value (TStr cs) (34 :: text cs ++ [34]).
Proof.
  intros Hcs w r [|fuel] Hw Hg _ Hf; [lia|]. clear Hf. revert Hg. norm_app. intros Hg. cbn [decode_value].
  rewrite skip_ws_exact by done. change (34 =? 123) with false. change (34 =? 91) with false.
  change (34 =? 34) with true. cbn iota. by rewrite decode_string_text.
Qed.

Lemma decodes_array0 w : ws w -> decodes_value (TArr []) (91 :: w ++ [93]).
Proof.
  intros Hw w0 r [|fuel] Hw0 _ _ Hf; [lia|]. norm_app. cbn [decode_value]. rewrite skip_ws_exact by done.
  change (91 =? 123) with false. change (91 =? 91) with true. cbn iota. by rewrite skip_ws_exact.
Qed.

Lemma decodes_object0 w : ws w -> decodes_value (TObj []) (123 :: w ++ [125]).
Proof.
  intros Hw w0 r [|fuel] Hw0 _ _ Hf; [lia|]. norm_app. cbn [decode_value]. rewrite skip_ws_exact by done.
  change (123 =? 123) with true. cbn iota. by rewrite skip_ws_exact.
Qed.

Lemma decodes_array ts b : jelems ts b -> decodes_elems ts b -> decodes_value (TArr ts) (91 :: b ++ [93]).
Proof.
  intros Hj IH w r [|fuel] Hw Hg _ Hf; [lia|]. revert Hg Hf. norm_app. intros Hg Hf. cbn [decode_value].
  rewrite skip_ws_exact by done. change (91 =? 123) with false. change (91 =? 91) with true. cbn iota.
  destruct (jelems_head ts b Hj) as (w' & c & q & Hb & Hw' & Hs & H93 & _).
  assert (consume 93 (skip_ws (b ++ 93 :: r)) = None) as ->.
  { rewrite Hb. norm_app. rewrite skip_ws_exact by done. by apply consume_ne. }
  rewrite decode_elements_ws, IH; [done|by apply good_cons in Hg|]. cbn [length] in Hf. lia.
Qed.

Lemma decodes_object ms b : jmembers ms b -> decodes_members ms b -> decodes_value (TObj ms) (123 :: b ++ [125]).
Proof.
  intros Hj IH w r [|fuel] Hw Hg _ Hf; [lia|]. revert Hg Hf. norm_app. intros Hg Hf. cbn [decode_value].
  rewrite skip_ws_exact by done. change (123 =? 123) with true. cbn iota.
  destruct (jmembers_head ms b Hj) as (w' & q & Hb & Hw').
  assert (consume 125 (skip_ws (b ++ 125 :: r)) = None) as ->.
  { rewrite Hb. norm_app. rewrite skip_ws_exact by done. by apply consume_ne. }
  rewrite decode_members_ws, IH; [done|by apply good_cons in Hg|]. cbn [length] in Hf. lia.
Qed.

Lemma decode_elements_step fuel w1 b w2 c q t :
  decodes_value t b -> ws w1 -> ws w2 -> c = 44 \/ c = 93 ->
  good (w1 ++ b ++ w2 ++ c :: q) -> (2 * length (b ++ w2 ++ c :: q) < fuel)%nat ->
  decode_elements (S fuel) (w1 ++ b ++ w2 ++ c :: q) =
  if c =? 93 then Some ([to_any t], q)
  else '(vs, r) ← decode_elements fuel q; Some (to_any t :: vs, r).
Proof.
  intros Hv Hw1 Hw2 Hc Hg Hf. cbn [decode_elements].
  rewrite (Hv w1 (w2 ++ c :: q) fuel) by first [done|by apply good_app in Hg|apply stop_ws; [done|lia]].
  cbn [mbind option_bind]. rewrite skip_ws_exact by first [done|cbn; unfold is_ws; lia].
  destruct Hc as [-> | ->]; done.
Qed.

Lemma decode_members_step fuel w0 cs w1 w2 b w3 c q t :
  decodes_value t b -> Forall schar_ok cs -> ws w0 -> ws w1 -> ws w2 -> ws w3 -> c = 44 \/ c = 125 ->
  good (w0 ++ 34 :: text cs ++ 34 :: w1 ++ 58 :: w2 ++ b ++ w3 ++ c :: q) ->
  (2 * length (b ++ w3 ++ c :: q) < fuel)%nat ->
  decode_members (S fuel) (w0 ++ 34 :: text cs ++ 34 :: w1 ++ 58 :: w2 ++ b ++ w3 ++ c :: q) =
  if c =? 125 then Some ([(str_value cs, to_any t)], q)
  else '(fs, r) ← decode_members fuel q; Some ((str_value cs, to_any t) :: fs, r).
Proof.
  intros Hv Hcs Hw0 Hw1 Hw2 Hw3 Hc Hg Hf. cbn [decode_members]. apply good_app in Hg.
  rewrite skip_ws_exact by done. cbn [consume]. change (34 =? 34) with true. cbn [mbind option_bind].
  rewrite decode_string_text by done. cbn [mbind option_bind].
  rewrite skip_ws_exact by done. cbn [consume]. change (58 =? 58) with true. cbn [mbind option_bind].
  apply good_cons, good_app, good_cons, good_app, good_cons, good_app in Hg.
  rewrite (Hv w2 (w3 ++ c :: q) fuel) by first [done|apply stop_ws; [done|lia]].
  cbn [mbind option_bind]. rewrite skip_ws_exact by first [done|cbn; unfold is_ws; lia].
  destruct Hc as [-> | ->]; done.
Qed.

Lemma grammar_decoded :
  (forall t b, jvalue t b -> decodes_value t b) /\
  (forall ts b, jelems ts b -> decodes_elems ts b) /\
  (forall ms b, jmembers ms b -> decodes_members ms b).
Proof.
  apply grammar_ind; eauto using decodes_literal, decodes_number, decodes_string, decodes_array0,
    decodes_array, decodes_object0, decodes_object.
  - intros w1 t b w2 Hw1 _ IH Hw2 r [|fuel] Hg Hf; [lia|]. revert Hg Hf. norm_app. intros Hg Hf.
    by rewrite (decode_elements_step _ _ _ _ _ _ t) by first [done|by right|lens].
  - intros w1 t b w2 ts bs Hw1 _ IH Hw2 _ IHs r [|fuel] Hg Hf; [lia|]. revert Hg Hf. norm_app. intros Hg Hf.
    rewrite (decode_elements_step _ _ _ _ _ _ t) by first [done|by left|lens].
    change (44 =? 93) with false. cbn iota. rewrite IHs; [done| |lens].
    do 3 apply good_app in Hg. by apply good_cons in Hg.
  - intros w0 cs w1 w2 t b w3 Hw0 Hcs Hw1 Hw2 _ IH Hw3 r [|fuel] Hg Hf; [lia|].
    revert Hg Hf. norm_app. intros Hg Hf.
    by rewrite (decode_members_step _ _ _ _ _ _ _ _ _ t) by first [done|by right|lens].
  - intros w0 cs w1 w2 t b w3 ms bs Hw0 Hcs Hw1 Hw2 _ IH Hw3 _ IHs r [|fuel] Hg Hf; [lia|].
    revert Hg Hf. norm_app. intros Hg Hf.
    rewrite (decode_members_step _ _ _ _ _ _ _ _ _ t) by first [done|by left|lens].
    change (44 =? 125) with false. cbn iota. rewrite IHs; [done| |lens].
    apply good_app, good_cons, good_app, good_cons, good_app, good_cons in Hg.
    do 3 apply good_app in Hg. by apply good_cons in Hg.
Qed.

(** ** The parser *)

Definition bom (data : bytes) : bool := (3 <=? len data) && (take 3 data ==? [239; 187; 191]).

Lemma stop_end w : ws w -> stop (w ++ []).
Proof. intros Hw. destruct Hw; cbn; auto. Qed.

Lemma ws_solid_nil w : ws w -> skip_ws w = [].
Proof. intros Hw. rewrite <- (app_nil_r w). by apply skip_ws_exact. Qed.

Lemma skip_ws_nil r : skip_ws r = [] -> ws r.
Proof. intros H. destruct (skip_ws_split r) as (w & Hr & Hw). rewrite H, app_nil_r in Hr. by subst. Qed.

Lemma parse_sound data s : utf8_Valid data = true -> parse (mkScanner data 0) = Ok s ->
  exists t, document t data /\ fits 0 t /\ ntok t <= MaxTokens.
Proof.
  intros Hv H. assert (good data) as Hg by by exists [].
  unfold parse in H. apply bind_ok in H as (s1 & H1 & H).
  rewrite value_whitespace in H1. apply scanner_sound in H1; [|done].
  destruct H1 as (w & t & b & Hr & Hw & Hj & Hf & Ht & Hm). cbn [rest tokens] in *.
  destruct (rest (whitespace s1)) eqn:E; [|done]. apply skip_ws_nil in E.
  exists t. split_and!; [by exists w, b, (rest s1)|done|lia].
Qed.

(** Decoding a text without white space around it. *)
Lemma Decode_text t b : utf8_Valid b = true -> jvalue t b -> Decode b = Some (to_any t).
Proof.
  intros Hv Hj. unfold Decode. pose proof (proj1 grammar_decoded t b Hj [] [] (fuel_for b)) as H.
  rewrite app_nil_r in H. cbn [app] in H. rewrite H; try done; [by exists []|unfold fuel_for; lia].
Qed.

Lemma parse_complete data t : utf8_Valid data = true ->
  document t data -> fits 0 t -> ntok t <= MaxTokens ->
  is_ok (parse (mkScanner data 0)) = true /\ Decode data = Some (to_any t).
Proof.
  intros Hv (w1 & b & w2 & -> & Hw1 & Hj & Hw2) Hf Ht.
  assert (good (b ++ w2)) as Hg by (apply (good_app w1); by exists []).
  assert (stop w2) as Hst by (rewrite <- (app_nil_r w2); by apply stop_end). split.
  - unfold parse. rewrite value_whitespace.
    destruct (jvalue_head t b Hj) as (c & q & Hb & Hc & _).
    assert (rest (whitespace (mkScanner (w1 ++ b ++ w2) 0)) = b ++ w2) as Hrest.
    { unfold whitespace; cbn. subst b. by rewrite skip_ws_exact. }
    rewrite (proj1 grammar_accepted t b Hj 0 w1 w2 0); try done; [|unfold fuel_for; rewrite Hrest; lia].
    cbn [mbind result_bind]. unfold whitespace; cbn. by rewrite ws_solid_nil.
  - unfold Decode. rewrite (proj1 grammar_decoded t b Hj w1 w2); try done.
    unfold fuel_for. lens.
Qed.

(** C29. Parse accepts a document exactly when it is at most 1 MiB of valid UTF-8
    without byte order mark that the JSON grammar derives from a tree within the
    nesting, token, string, number and member limits and without duplicate keys, and
    it returns the value of that tree. *)
Theorem Parse_accepts_strict_json data v :
  Parse data = Ok v <->
  len data <= MaxDocumentBytes /\ bom data = false /\ utf8_Valid data = true /\
  exists t, document t data /\ fits 0 t /\ ntok t <= MaxTokens /\ v = to_any t.
Proof.
  unfold Parse. fold (bom data). split.
  - destruct (MaxDocumentBytes <? len data) eqn:El; [done|].
    destruct (bom data); [done|]. destruct (utf8_Valid data) eqn:Ev; [|done]. cbn [orb negb].
    intros (s & Hs & H)%bind_ok. destruct (parse_sound data s Ev Hs) as (t & Hd & Hf & Ht).
    destruct (parse_complete data t Ev Hd Hf Ht) as [_ Hdec]. rewrite Hdec in H. simplify_eq.
    split_and!; [lia|done|done|]. by exists t.
  - intros (Hl & -> & Hv & t & Hd & Hf & Ht & ->). rewrite Hv.
    assert ((MaxDocumentBytes <? len data) = false) as -> by lia. cbn [orb negb].
    destruct (parse_complete data t Hv Hd Hf Ht) as [Hok Hdec].
    destruct (parse _); [|done]. cbn [mbind result_bind]. by rewrite Hdec.
Qed.

(** Parse always comes to a verdict: on no input does the scanner run out of
    the fuel that stands for its recursion and loops. *)
Theorem Parse_total data : Parse data <> Err FailureNone.
Proof.
  unfold Parse. destruct (_ <? _); [done|]. destruct (_ || _) eqn:E; [done|].
  apply orb_false_iff in E as [_ Ev%negb_false_iff]. assert (good data) as Hg by by exists [].
  intros [H|(s & _ & H)]%bind_err; [|by destruct (Decode data)].
  unfold parse in H. apply bind_err in H as [H|(s & _ & H)]; [|by destruct (rest (whitespace s))].
  revert H. apply scanner_fuel; [by apply good_whitespace|].
  unfold fuel_for. pose proof (whitespace_length (whitespace (mkScanner data 0))). lia.
Qed.

End Grammar.
