(* ===== verification/Response.v ===== *)
(** * Attempt responses (transport.go, operation_response.go, response_factory.go,
    internal/wirelimits/limits.go)

    The data exchanged with a transport, the bounded construction and the
    snapshot of a response, its validation into a [SendResult] or a classified
    [Error], and the Retry-After header. *)
From S2P Require Import Prelude Errors GoText StrictJson.

(** limits.go *)
Definition BodyBytes : Z := 1048576.
Definition ErrorBodyBytes : Z := 65536.
Definition ExpansionRatio : Z := 100.
Definition HeaderFields : Z := 100.
Definition HeaderBytes : Z := 65536.
Definition HeaderNameBytes : Z := 256.
Definition HeaderValueBytes : Z := 8192.

(** transport.go, the constants; durations are nanoseconds. *)
Definition maxPayloadBytes : Z := 1048576.
Definition retryAfterCap : Z := 60000000000.
Definition statusConflict : Z := 409.
Definition statusProxyAuthRequired : Z := 407.
Definition statusTooManyRequests : Z := 429.

(** transport.go, [SendResult] and [HeaderField]. *)
Record SendResult := mkSendResult { ID : bytes; Type_ : bytes; CustomerID : bytes; Timestamp : bytes }.
Record HeaderField := mkHeader { Name : bytes; Value : bytes }.

#[export] Instance HeaderField_eq_dec : EqDecision HeaderField.
Proof. solve_decision. Defined.
#[export] Instance SendResult_eq_dec : EqDecision SendResult.
Proof. solve_decision. Defined.

(** transport.go, [AttemptResponse].  [Headers] and [Body] are [None] when the
    slice is nil; times are nanoseconds since 1970; [closer] names the
    [attemptResponseCloser] the response shares with its snapshots. *)
Record AttemptResponse := mkResponse {
  Status : Z;
  Headers : option (list HeaderField);
  Body : option bytes;
  CompressedBytes : Z;
  DecompressedBytes : Z;
  Truncated : bool;
  HeadersReceivedAt : Z;
  HeadersReceivedAtSet : bool;
  HeaderClockFailed : bool;
  protocolViolation : bool;
  limitViolation : bool;
  incomplete : bool;
  retryForbidden : bool;
  headerLimitViolation : bool;
  attemptFailureCode : ErrorCode;
  attemptFailureReason : FailureReason;
  normalized : bool;
  closer : option nat
}.

(** A nil slice ranges and measures as the empty one. *)
Definition headers_of (r : AttemptResponse) : list HeaderField := default [] (Headers r).
Definition body_of (r : AttemptResponse) : bytes := default [] (Body r).

(** Assignments to single fields. *)
Definition set_Body (b : bytes) (r : AttemptResponse) : AttemptResponse :=
  let '(mkResponse s h _ cb db t ha hs hf pv lv ic rf hl fc fr nm cl) := r in
  mkResponse s h (Some b) cb db t ha hs hf pv lv ic rf hl fc fr nm cl.
Definition set_CompressedBytes (n : Z) (r : AttemptResponse) : AttemptResponse :=
  let '(mkResponse s h b _ db t ha hs hf pv lv ic rf hl fc fr nm cl) := r in
  mkResponse s h b n db t ha hs hf pv lv ic rf hl fc fr nm cl.
Definition set_DecompressedBytes (n : Z) (r : AttemptResponse) : AttemptResponse :=
  let '(mkResponse s h b cb _ t ha hs hf pv lv ic rf hl fc fr nm cl) := r in
  mkResponse s h b cb n t ha hs hf pv lv ic rf hl fc fr nm cl.
Definition set_Truncated (v : bool) (r : AttemptResponse) : AttemptResponse :=
  let '(mkResponse s h b cb db _ ha hs hf pv lv ic rf hl fc fr nm cl) := r in
  mkResponse s h b cb db v ha hs hf pv lv ic rf hl fc fr nm cl.
Definition set_HeaderTime (at_ : Z) (st fl : bool) (r : AttemptResponse) : AttemptResponse :=
  let '(mkResponse s h b cb db t _ _ _ pv lv ic rf hl fc fr nm cl) := r in
  mkResponse s h b cb db t at_ st fl pv lv ic rf hl fc fr nm cl.
Definition set_protocolViolation (r : AttemptResponse) : AttemptResponse :=
  let '(mkResponse s h b cb db t ha hs hf _ lv ic rf hl fc fr nm cl) := r in
  mkResponse s h b cb db t ha hs hf true lv ic rf hl fc fr nm cl.
Definition set_limitViolation (r : AttemptResponse) : AttemptResponse :=
  let '(mkResponse s h b cb db t ha hs hf pv _ ic rf hl fc fr nm cl) := r in
  mkResponse s h b cb db t ha hs hf pv true ic rf hl fc fr nm cl.
Definition set_retryForbidden (v : bool) (r : AttemptResponse) : AttemptResponse :=
  let '(mkResponse s h b cb db t ha hs hf pv lv ic _ hl fc fr nm cl) := r in
  mkResponse s h b cb db t ha hs hf pv lv ic v hl fc fr nm cl.
Definition set_headerLimitViolation (r : AttemptResponse) : AttemptResponse :=
  let '(mkResponse s h b cb db t ha hs hf pv lv ic rf _ fc fr nm cl) := r in
  mkResponse s h b cb db t ha hs hf pv lv ic rf true fc fr nm cl.

(** transport.go, [AttemptFailure] and [AttemptOutcome]. *)
Record AttemptFailure := mkFailure {
  Failure_Code : ErrorCode;
  Failure_FailureReason : FailureReason;
  Failure_Committed : bool;
  Failure_causeCategory : CauseCategory
}.
Record AttemptOutcome := mkOutcome {
  Outcome_Response : option AttemptResponse;
  Outcome_Failure : option AttemptFailure
}.

(** ** Headers *)

(** operation_response.go, [headerValues]. *)
Definition headerValues (headers : list HeaderField) (name : bytes) : list bytes :=
  map (fun h => trimOWS (Value h)) (List.filter (fun h => EqualFold (Name h) name) headers).

(** operation_response.go, [headerCounts]. *)
Definition headerCounts (headers : list HeaderField) : Z * Z :=
  (len headers, zsum (fun h => len (Name h) + 2 + len (Value h) + 2) headers).

(** response_factory.go, [responseHeadersExceedLimit]. *)
Definition responseHeadersExceedLimit (headers : list HeaderField) (fields size : Z) : bool :=
  (HeaderFields <? fields) || (HeaderBytes <? size) ||
  existsb (fun h => (HeaderNameBytes <? len (Name h)) || (HeaderValueBytes <? len (Value h))) headers.

Definition token_char (c : Z) : bool :=
  between 97 c 122 || between 65 c 90 || between 48 c 57 || ContainsByte (B "!#$%&'*+-.^_`|~") c.

(** response_factory.go, [validResponseHeaderName]. *)
Definition validResponseHeaderName (name : bytes) : bool :=
  if (name ==? []) || (HeaderNameBytes <? len name) then false
  else forallb (fun it => token_char (start_byte it)) (range name).

(** response_factory.go, [validResponseHeaderValue]. *)
Definition validResponseHeaderValue (value : bytes) : bool :=
  if (HeaderValueBytes <? len value) || negb (utf8_Valid value) then false
  else forallb (fun it => (rune it =? 9) || negb ((rune it <? 32) || (rune it =? 127))) (range value).

(** response_factory.go, [validateResponseHeaders]: fields, size, valid. *)
Definition validateResponseHeaders (headers : list HeaderField) : Z * Z * bool :=
  let '(fields, size) := headerCounts headers in
  (fields, size,
   if responseHeadersExceedLimit headers fields size then false
   else forallb (fun h => validResponseHeaderName (Name h) && validResponseHeaderValue (Value h)) headers).

(** response_factory.go, [responseContentEncoding]. *)
Definition responseContentEncoding (headers : list HeaderField) : bytes * bool :=
  match headerValues headers (B "content-encoding") with
  | [] => (B "identity", true)
  | [v] => let value := ToLower v in (value, (value ==? B "identity") || (value ==? B "gzip"))
  | _ => ([], false)
  end.

(** operation_response.go, [validJSONContentType]. *)
Definition validJSONContentType (headers : list HeaderField) : bool :=
  match headerValues headers (B "content-type") with
  | [value] =>
    if negb (forallb (fun it => (start_byte it =? 9) || between 32 (start_byte it) 126) (range value))
    then false
    else
      let '(mediaType, parameter, hasParameter) := Cut (trimOWS value) 59 in
      if negb (EqualFold (trimOWS mediaType) (B "application/json")) then false
      else if negb hasParameter then true
      else if ContainsByte parameter 59 then false
      else
        let '(name, charset, ok) := Cut parameter 61 in
        if negb ok || negb (EqualFold (trimOWS name) (B "charset")) then false
        else
          let charset := trimOWS charset in
          let charset :=
            if (2 <=? len charset) && (nth 0 charset 0 =? 34) &&
               (nth (length charset - 1) charset 0 =? 34)
            then take (length charset - 2) (drop 1 charset) else charset in
          EqualFold charset (B "utf-8")
  | _ => false
  end.

(** ** Construction *)

(** response_factory.go, [markResponseHeaderViolation]. *)
Definition markResponseHeaderViolation (fields headerBytes : Z) (r : AttemptResponse) : AttemptResponse :=
  set_Body []
    (if responseHeadersExceedLimit (headers_of r) fields headerBytes
     then set_headerLimitViolation (set_retryForbidden true (set_limitViolation r))
     else set_protocolViolation r).

(** response_factory.go, [responseExceedsLimits]; the division of [int64]
    truncates and wraps around. *)
Definition responseExceedsLimits (r : AttemptResponse) : bool :=
  if (maxPayloadBytes <? len (body_of r)) || (maxPayloadBytes <? CompressedBytes r) ||
     (maxPayloadBytes <? DecompressedBytes r) then true
  else if CompressedBytes r =? 0 then 0 <? DecompressedBytes r
  else
    let q := wrap64 (Z.quot (DecompressedBytes r) (CompressedBytes r)) in
    (ExpansionRatio <? q) ||
    ((q =? ExpansionRatio) && (0 <? Z.rem (DecompressedBytes r) (CompressedBytes r))).

Definition not_success (status : Z) : bool := (status <? 200) || (300 <=? status).

Section gzip.
(** [compress/gzip] on a source of bytes, read through [io.LimitReader] with the
    given limit: [None] when [NewReader] fails, else the bytes read, whether
    reading or closing failed, and what is left of the source. *)
Variable gzipRead : bytes -> Z -> option (bytes * bool * bool * Z).

(** response_factory.go, [decodeAttemptResponseBody]; [None] is an error. *)
Definition decodeAttemptResponseBody (encoding wireBody : bytes) : option bytes :=
  if encoding ==? B "identity" then Some wireBody
  else match gzipRead wireBody (maxPayloadBytes + 2) with
       | None => None
       | Some (decoded, readErr, closeErr, remaining) =>
         if readErr || closeErr || negb (remaining =? 0) then None else Some decoded
       end.

(** response_factory.go, [normalizeAttemptResponse].  The result carries the
    closers that were closed; [None] is the error "invalid attempt response".
    [headers] and [wireBody] are [None] when nil. *)
Definition normalizeAttemptResponse (status : Z) (headers : option (list HeaderField))
    (wireBody : option bytes) (compressedLimit : Z) (c : nat)
    : option AttemptResponse * list nat :=
  match headers, wireBody with
  | Some headers, Some wireBody =>
    if (status <? 100) || (599 <? status) then (None, [c])
    else
      let response := mkResponse status (Some headers) (Some []) 0 0 false zeroTime false false
                        false false false false false ErrorCodeNone FailureReasonNone true (Some c) in
      let '(fields, headerBytes, valid) := validateResponseHeaders headers in
      if negb valid then (Some (markResponseHeaderViolation fields headerBytes response), [])
      else
        let '(encoding, valid) := responseContentEncoding headers in
        if negb valid then (Some (set_protocolViolation response), [])
        else
          let response := set_CompressedBytes (len wireBody) response in
          if compressedLimit <? len wireBody then
            let response :=
              if encoding ==? B "identity"
              then set_limitViolation (set_DecompressedBytes (len wireBody) response)
              else set_protocolViolation response in
            (Some (set_retryForbidden (not_success status) response), [])
          else
            match decodeAttemptResponseBody encoding wireBody with
            | None =>
              (Some (set_retryForbidden (not_success status)
                       (set_protocolViolation (set_DecompressedBytes 0 response))), [])
            | Some decoded =>
              let response := set_DecompressedBytes (len decoded) response in
              if (maxPayloadBytes <? len decoded) ||
                 ((0 <? len wireBody) && (len wireBody * ExpansionRatio <? len decoded)) then
                (Some (set_retryForbidden (not_success status) (set_protocolViolation response)), [])
              else if not_success status then
                (Some (set_Truncated (ErrorBodyBytes <? len decoded) response), [])
              else (Some (set_Body decoded response), [])
            end
  | _, _ => (None, [c])
  end.
End gzip.

(** response_factory.go, [snapshotAttemptResponse]. *)
Definition snapshotAttemptResponse (response : option AttemptResponse) : option AttemptResponse :=
  match response with
  | None => None
  | Some snapshot =>
    let snapshot :=
      match Headers snapshot with
      | None => snapshot
      | Some headers =>
        let '(fields, headerBytes, valid) := validateResponseHeaders headers in
        if negb valid then markResponseHeaderViolation fields headerBytes snapshot else snapshot
      end in
    Some
      (if negb (normalized snapshot) && negb (protocolViolation snapshot) &&
          negb (limitViolation snapshot) && responseExceedsLimits snapshot then
         if (responseContentEncoding (headers_of snapshot)).1 ==? B "gzip"
         then set_protocolViolation snapshot else set_limitViolation snapshot
       else snapshot)
  end.

(** ** Validation *)

Definition message_char (c : Z) : bool :=
  between 65 c 90 || between 97 c 122 || between 48 c 57 || (c =? 95) || (c =? 45).

(** operation_response.go, [messageIDPattern]. *)
Definition messageID_match (s : bytes) : bool :=
  HasPrefix s (B "msg_") &&
  between 1 (len (drop 4 s)) 124 && forallb message_char (drop 4 s).

(** operation_response.go, [responseStatusRetryable]. *)
Definition responseStatusRetryable (status : Z) : bool :=
  ((200 <=? status) && (status <? 300)) || (status =? statusConflict) ||
  (status =? statusTooManyRequests) || ((500 <=? status) && (status <=? 599)).

(** operation_response.go, [decodeSendResult]. *)
Definition decodeSendResult (body : bytes) : result Failure SendResult :=
  match Parse body with
  | Err e => Err e
  | Ok (AnyMap object) =>
    let stringField name :=
      match map_get object name with Some (AnyString text) => Some text | _ => None end in
    match stringField (B "id"), stringField (B "type"), stringField (B "customerId"),
          stringField (B "timestamp") with
    | Some id, Some eventType, Some customerID, Some timestamp =>
      Ok (mkSendResult id eventType customerID timestamp)
    | _, _, _, _ => Err FailureProtocol
    end
  | Ok _ => Err FailureProtocol
  end.

(** operation_response.go, [validateAttemptResponse], lines 26 to 47: a status
    outside 2xx. *)
Definition classifyStatus (r : AttemptResponse) (base : Error) : Error :=
  let base := set_Retryable (responseStatusRetryable (Status r))
                (set_DeliveryState DeliveryStatePossiblySent base) in
  let base :=
    if (300 <=? Status r) && (Status r <? 400) then
      set_DeliveryState DeliveryStateRejected (set_Code ErrorCodeHTTPRejected base)
    else if Status r =? statusProxyAuthRequired then
      set_FailureReason FailureReasonProxyAuthRequired
        (set_DeliveryState DeliveryStateNotSent (set_Code ErrorCodeProxy base))
    else if Status r =? statusTooManyRequests then
      set_DeliveryState DeliveryStateRejected (set_Code ErrorCodeRateLimited base)
    else if Status r =? statusConflict then set_Code ErrorCodeHTTPRejected base
    else if 500 <=? Status r then set_Code ErrorCodeServerFailure base
    else set_DeliveryState DeliveryStateRejected (set_Code ErrorCodeHTTPRejected base) in
  if retryForbidden r then set_Retryable false base else base.

(** operation_response.go, [validateAttemptResponse]. *)
Definition validateAttemptResponse (r : AttemptResponse) (sentType customerID timestamp : bytes)
    : result Error SendResult :=
  let base := mkError ErrorCodeNone DeliveryStateNone false [] [] 0 (Status r) FailureReasonNone
                CauseCategoryNone (CompressedBytes r) (DecompressedBytes r) 0 0 (Truncated r)
                [] [] 0 false in
  if negb (attemptFailureCode r ==? ErrorCodeNone) then
    Err (set_FailureReason (attemptFailureReason r)
           (set_Retryable true (set_DeliveryState DeliveryStatePossiblySent
              (set_Code (attemptFailureCode r) base))))
  else
    let base :=
      if headerLimitViolation r then
        let '(fields, size) := headerCounts (headers_of r) in set_ResponseHeaders fields size base
      else base in
    if not_success (Status r) then Err (classifyStatus r base)
    else
      let base := set_Retryable (responseStatusRetryable (Status r))
                    (set_DeliveryState DeliveryStatePossiblySent (set_Code ErrorCodeResponseProtocol base)) in
      let tooLarge := set_Retryable false (set_Code ErrorCodeResponseTooLarge base) in
      if limitViolation r ||
         (negb (normalized r) && negb (protocolViolation r) && responseExceedsLimits r) then Err tooLarge
      else if protocolViolation r then Err (set_Retryable false base)
      else if Truncated r && negb (incomplete r) then Err tooLarge
      else if negb (validJSONContentType (headers_of r)) || (body_of r ==? []) ||
              negb (utf8_Valid (body_of r)) then Err base
      else
        match decodeSendResult (body_of r) with
        | Err kind => Err (if kind ==? FailureLimit then tooLarge else base)
        | Ok result =>
          if negb (messageID_match (ID result)) || negb (Type_ result ==? sentType) ||
             negb (CustomerID result ==? customerID) || negb (Timestamp result ==? timestamp)
          then Err base else Ok result
        end.

(** ** Retry-After *)

(** operation_response.go, [retryAfterValue]. *)
Definition retryAfterValue (headers : list HeaderField) : option bytes :=
  match headerValues headers (B "retry-after") with
  | [] => None
  | v :: vs => if v ==? [] then None else if forallb (fun x => x ==? v) vs then Some v else None
  end.

(** operation_response.go, [parseRetryAfterDelta]: delay, valid, needsWall. *)
Definition parseRetryAfterDelta (value : bytes) : Z * bool * bool :=
  let allDigits := negb (value ==? []) && forallb (fun it => isDigit (start_byte it)) (range value) in
  if negb allDigits then (0, false, true)
  else match ParseUint10 value 63 with
       | Some seconds =>
         if (seconds =? 0) || (Z.quot MaxInt64 1000000000 <? seconds) then (0, false, false)
         else (seconds * 1000000000, true, false)
       | None => (0, false, false)
       end.

(** operation_response.go, [parseRetryAfterDate]. *)
Definition parseRetryAfterDate (value : bytes) (wallNow : Z) : Z * bool :=
  match strictHTTPDate value with
  | None => (0, false)
  | Some date =>
    if negb (wallNow <? date) then (0, false)
    else let delay := timeSub date wallNow in (delay, 0 <? delay)
  end.

(** operation_response.go, [parseRetryAfterHeaders]. *)
Definition parseRetryAfterHeaders (headers : list HeaderField) (wallNow : Z) : Z * bool :=
  match retryAfterValue headers with
  | None => (0, false)
  | Some value =>
    let '(delay, valid, needsWall) := parseRetryAfterDelta value in
    if negb needsWall then (delay, valid) else parseRetryAfterDate value wallNow
  end.

(** operation_response.go, [responseNeedsWallSnapshot]. *)
Definition responseNeedsWallSnapshot (headers : list HeaderField) : bool :=
  match retryAfterValue headers with
  | None => false
  | Some value =>
    let '(_, _, needsWall) := parseRetryAfterDelta value in
    needsWall && match strictHTTPDate value with Some _ => true | None => false end
  end.

(** operation_response.go, [responseNeedsWallSnapshotForStatus]. *)
Definition responseNeedsWallSnapshotForStatus (status : Z) (headers : list HeaderField) : bool :=
  responseStatusRetryable status && responseNeedsWallSnapshot headers.

(** operation_response.go, [snapshotResponseWallTime].  [wall] is what the
    callback of the request answers when asked, [None] without a callback. *)
Definition snapshotResponseWallTime (wall : option (Z * bool)) (status : Z)
    (headers : list HeaderField) : Z * bool * bool :=
  if negb (responseNeedsWallSnapshotForStatus status headers) then (zeroTime, false, false)
  else match wall with
       | None => (zeroTime, false, true)
       | Some (at_, st) => (at_, st, negb st)
       end.

(** response_factory.go, [NewAttemptResponse]. *)
Definition NewAttemptResponse gzipRead (wall : option (Z * bool)) (status : Z)
    (headers : option (list HeaderField)) (wireBody : option bytes) (c : nat)
    : option AttemptResponse * list nat :=
  match normalizeAttemptResponse gzipRead status headers wireBody maxPayloadBytes c with
  | (Some response, cl) =>
    let '(at_, st, failed) := snapshotResponseWallTime wall status (headers_of response) in
    (Some (set_HeaderTime at_ st failed response), cl)
  | (None, cl) => (None, cl)
  end.

(** operation.go, [responseMayHaveBeenAccepted]. *)
Definition responseMayHaveBeenAccepted (status : Z) : bool :=
  ((200 <=? status) && (status <? 300)) || (status =? statusConflict) || (500 <=? status).

(** ** Facts *)

Lemma decodeSendResult_ok body res :
  decodeSendResult body = Ok res <->
  exists fields, Parse body = Ok (AnyMap fields) /\
    map_get fields (B "id") = Some (AnyString (ID res)) /\
    map_get fields (B "type") = Some (AnyString (Type_ res)) /\
    map_get fields (B "customerId") = Some (AnyString (CustomerID res)) /\
    map_get fields (B "timestamp") = Some (AnyString (Timestamp res)).
Proof.
  unfold decodeSendResult. split.
  - destruct (Parse body) as [v|e]; [|done]. destruct v; try done.
    intros H. exists fields. split; [done|].
    destruct (map_get fields (B "id")) as [[]|]; try done.
    destruct (map_get fields (B "type")) as [[]|]; try done.
    destruct (map_get fields (B "customerId")) as [[]|]; try done.
    destruct (map_get fields (B "timestamp")) as [[]|]; try done.
    by simplify_eq.
  - intros (fields & -> & -> & -> & -> & ->). by destruct res.
Qed.

Lemma Parse_body body v : Parse body = Ok v -> body <> [] /\ utf8_Valid body = true.
Proof.
  intros H. split.
  - intros ->. vm_compute in H. done.
  - unfold Parse in H. destruct (_ <? _); [done|].
    destruct (utf8_Valid body); [done|]. rewrite orb_true_r in H. done.
Qed.

(** The claims a response must meet to be a success. *)
Definition success_response (r : AttemptResponse) : Prop :=
  200 <= Status r < 300 /\ attemptFailureCode r = ErrorCodeNone /\
  limitViolation r = false /\ protocolViolation r = false /\
  (Truncated r = true -> incomplete r = true) /\
  (normalized r = false -> responseExceedsLimits r = false) /\
  validJSONContentType (headers_of r) = true.

(** C30. A response is turned into a SendResult exactly when it is an unflagged 2xx
    response within the limits whose content type is JSON and whose body is a strict
    JSON object that carries a well-formed message id and echoes the type, customer
    and timestamp that were sent. *)
Theorem validateAttemptResponse_success r sentType customerID timestamp res :
  validateAttemptResponse r sentType customerID timestamp = Ok res <->
  success_response r /\ messageID_match (ID res) = true /\
  Type_ res = sentType /\ CustomerID res = customerID /\ Timestamp res = timestamp /\
  exists fields, Parse (body_of r) = Ok (AnyMap fields) /\
    map_get fields (B "id") = Some (AnyString (ID res)) /\
    map_get fields (B "type") = Some (AnyString sentType) /\
    map_get fields (B "customerId") = Some (AnyString customerID) /\
    map_get fields (B "timestamp") = Some (AnyString timestamp).
Proof.
  unfold validateAttemptResponse, success_response. split.
  - destruct (attemptFailureCode r ==? ErrorCodeNone) eqn:Ef; [|done]. apply eqb_true_1 in Ef. cbn [negb].
    destruct (not_success (Status r)) eqn:Es; [done|].
    destruct (limitViolation r) eqn:El; [done|]. cbn [orb].
    destruct (protocolViolation r) eqn:Ep; [rewrite andb_false_r; by destruct (_ && _)|].
    destruct (negb (normalized r) && negb false && responseExceedsLimits r) eqn:En; [done|].
    destruct (Truncated r && negb (incomplete r)) eqn:Et; [done|].
    destruct (_ || _ || _) eqn:Ec; [done|].
    destruct (decodeSendResult (body_of r)) as [res'|e] eqn:Ed; [|done].
    destruct (_ || _ || _ || _) eqn:Em; [done|]. intros [= ->].
    rewrite !orb_false_iff, !negb_false_iff in Em. destruct Em as (((Em & E1) & E2) & E3).
    apply eqb_true_1 in E1, E2, E3. subst sentType customerID timestamp.
    rewrite !orb_false_iff, negb_false_iff in Ec. unfold not_success in Es.
    apply decodeSendResult_ok in Ed. split_and!; try done; try lia.
    + destruct (Truncated r), (incomplete r); done.
    + destruct (normalized r); [done|]. by destruct (responseExceedsLimits r).
    + tauto.
  - intros ((Hs & Hf & Hl & Hp & Ht & Hn & Hc) & Hm & <- & <- & <- & fields & Hparse & Hfields).
    rewrite Hf, eqb_refl, Hl, Hp, Hc. cbn [negb orb andb].
    assert (not_success (Status r) = false) as -> by (unfold not_success; lia).
    assert (negb (normalized r) && true && responseExceedsLimits r = false) as ->
      by (destruct (normalized r); [done|by rewrite Hn]).
    assert (Truncated r && negb (incomplete r) = false) as ->
      by (destruct (Truncated r); [by rewrite Ht|done]).
    destruct (Parse_body _ _ Hparse) as [Hne ->].
    assert ((body_of r ==? []) = false) as -> by (unfold eqb; by apply bool_decide_eq_false).
    cbn [negb orb]. rewrite (proj2 (decodeSendResult_ok (body_of r) res)) by by exists fields.
    by rewrite Hm, !eqb_refl.
Qed.

(** What the error of a response says; no other failure than a proxy's is known not
    to have been sent. *)
Lemma validateAttemptResponse_fails r sentType customerID timestamp e :
  validateAttemptResponse r sentType customerID timestamp = Err e ->
  (Error_DeliveryState e = DeliveryStatePossiblySent \/
   Error_DeliveryState e = DeliveryStateRejected \/ Error_DeliveryState e = DeliveryStateNotSent) /\
  (Error_DeliveryState e = DeliveryStatePossiblySent <->
   attemptFailureCode r <> ErrorCodeNone \/ responseMayHaveBeenAccepted (Status r) = true) /\
  (Error_Retryable e = true ->
   attemptFailureCode r <> ErrorCodeNone \/ responseStatusRetryable (Status r) = true) /\
  Error_HTTPStatus e = Status r /\
  (Error_DeliveryState e = DeliveryStateNotSent -> Error_Code e = ErrorCodeProxy).
Proof.
  unfold validateAttemptResponse. destruct (attemptFailureCode r ==? ErrorCodeNone) eqn:Ef; cbn [negb].
  2:{ apply eqb_false_1 in Ef. intros [= <-]. cbn. split_and!; first [done | auto; split; auto]. }
  set (base := if headerLimitViolation r then _ else _).
  assert (Error_HTTPStatus base = Status r) as Hst by (unfold base; by destruct (headerLimitViolation r)).
  clearbody base. apply eqb_true_1 in Ef.
  destruct (not_success (Status r)) eqn:Es.
  - intros [= <-]. unfold classifyStatus, not_success, responseMayHaveBeenAccepted in *.
    destruct base; cbn in Hst; subst.
    destruct (_ && (Status r <? 400)) eqn:E1; [|destruct (Status r =? statusProxyAuthRequired) eqn:E2;
      [|destruct (Status r =? statusTooManyRequests) eqn:E3; [|destruct (Status r =? statusConflict) eqn:E4;
        [|destruct (500 <=? Status r) eqn:E5]]]];
      unfold statusProxyAuthRequired, statusTooManyRequests, statusConflict in *;
      destruct (retryForbidden r); cbn; (split; [tauto|]); (split; [|split; [first [done|tauto]|split; [done|first [done|intros; congruence]]]]);
      (split; [first [done|intros _; right; lia]|first [done|intros [?|H]; [done|lia]]]).
  - assert (responseMayHaveBeenAccepted (Status r) = true) as Hacc.
    { unfold responseMayHaveBeenAccepted, not_success in *. lia. }
    set (b1 := set_Retryable _ (set_DeliveryState _ (set_Code _ base))).
    set (b2 := set_Retryable false (set_Code _ b1)).
    enough (validate_rest : forall e', e' = b1 \/ e' = b2 \/ e' = set_Retryable false b1 ->
      (Error_DeliveryState e' = DeliveryStatePossiblySent) /\
      (Error_Retryable e' = true -> responseStatusRetryable (Status r) = true) /\
      Error_HTTPStatus e' = Status r).
    + intros H. destruct (validate_rest e) as (Hd & Hr & Hs).
      { repeat match type of H with context [if ?x then _ else _] => destruct x; [simplify_eq; tauto|] end.
        destruct (decodeSendResult _) as [x|k]; [|destruct (k ==? FailureLimit); simplify_eq; tauto].
        destruct (negb _ || _ || _ || _); simplify_eq; tauto. }
      split_and!; [by left|split; auto|intros; right; auto|exact Hs|congruence].
    + intros e' He. subst b1 b2. destruct base; cbn in Hst; subst. destruct He as [->|[-> | ->]]; by cbn.
Qed.

(** Only a 2xx response is a success. *)
Lemma validateAttemptResponse_2xx r sentType customerID timestamp res :
  validateAttemptResponse r sentType customerID timestamp = Ok res ->
  responseMayHaveBeenAccepted (Status r) = true.
Proof.
  unfold validateAttemptResponse. destruct (negb _); [done|].
  destruct (not_success (Status r)) eqn:Es; [done|]. intros _.
  unfold responseMayHaveBeenAccepted, not_success in *. lia.
Qed.

(** A response error claims that the request was not accepted only when the
    status rules acceptance out, it is retryable only for a retryable status or a
    failed attempt, and it carries the status. *)
Theorem validateAttemptResponse_error r sentType customerID timestamp e :
  validateAttemptResponse r sentType customerID timestamp = Err e ->
  (Error_DeliveryState e = DeliveryStatePossiblySent \/
   Error_DeliveryState e = DeliveryStateRejected \/ Error_DeliveryState e = DeliveryStateNotSent) /\
  (Error_DeliveryState e = DeliveryStatePossiblySent <->
   attemptFailureCode r <> ErrorCodeNone \/ responseMayHaveBeenAccepted (Status r) = true) /\
  (Error_Retryable e = true ->
   attemptFailureCode r <> ErrorCodeNone \/ responseStatusRetryable (Status r) = true) /\
  Error_HTTPStatus e = Status r.
Proof. intros H. pose proof (validateAttemptResponse_fails _ _ _ _ _ H). tauto. Qed.

(** *** Snapshots *)

Definition headers_valid (headers : list HeaderField) : bool := (validateResponseHeaders headers).2.

(** The headers of a snapshot pass. *)
Definition headers_pass (r : AttemptResponse) : Prop :=
  match Headers r with Some hs => headers_valid hs = true | None => True end.

(** The size check of a snapshot. *)
Definition check_sizes (r : AttemptResponse) : AttemptResponse :=
  if negb (normalized r) && negb (protocolViolation r) && negb (limitViolation r) &&
     responseExceedsLimits r then
    if (responseContentEncoding (headers_of r)).1 ==? B "gzip" then set_protocolViolation r
    else set_limitViolation r
  else r.

Lemma snapshot_headers_valid r :
  headers_pass r -> snapshotAttemptResponse (Some r) = Some (check_sizes r).
Proof.
  unfold headers_pass, headers_valid. intros Hv. unfold snapshotAttemptResponse.
  destruct (Headers r) as [hs|] eqn:Hh; [|done].
  destruct (validateResponseHeaders hs) as [[f n] v]. cbn in Hv. subst v. done.
Qed.

Lemma check_sizes_spec r :
  let s := check_sizes r in
  Status s = Status r /\ Headers s = Headers r /\ closer s = closer r /\
  attemptFailureCode s = attemptFailureCode r /\ check_sizes s = s /\
  (limitViolation s = false -> protocolViolation s = false ->
   s = r /\ (normalized s = false -> responseExceedsLimits s = false)).
Proof.
  intros s. assert (s = check_sizes r) as Hs by done. clearbody s. unfold check_sizes in Hs.
  destruct (negb (normalized r) && negb (protocolViolation r) && negb (limitViolation r) &&
            responseExceedsLimits r) eqn:Ex; [destruct (_ ==? _) eqn:Eg|]; subst s.
  - unfold check_sizes. destruct r; cbn. rewrite andb_false_r. done.
  - unfold check_sizes. destruct r; cbn. rewrite andb_false_r. done.
  - unfold check_sizes. rewrite Ex. split_and!; try done. intros Hl Hp. split; [done|].
    intros Hn. by rewrite Hn, Hl, Hp in Ex.
Qed.

(** A response marked for its headers. *)
Lemma mark_spec f n r hs :
  Headers r = Some hs ->
  let m := markResponseHeaderViolation f n r in
  Status m = Status r /\ Headers m = Some hs /\ closer m = closer r /\
  attemptFailureCode m = attemptFailureCode r /\ protocolViolation m || limitViolation m = true /\
  markResponseHeaderViolation f n m = m.
Proof.
  intros Hh. unfold markResponseHeaderViolation, headers_of. destruct r; cbn in Hh. subst.
  cbn [Headers default from_option id].
  destruct (responseHeadersExceedLimit hs f n) eqn:Ex; cbn; rewrite Ex; cbn; rewrite ?orb_true_r; done.
Qed.

Lemma snapshot_headers_invalid r hs f n :
  Headers r = Some hs -> validateResponseHeaders hs = (f, n, false) ->
  snapshotAttemptResponse (Some r) = Some (markResponseHeaderViolation f n r).
Proof.
  intros Hh Hv. unfold snapshotAttemptResponse. rewrite Hh, Hv. cbn [negb].
  destruct (mark_spec f n r hs Hh) as (_ & _ & _ & _ & Hviol & _).
  set (m := markResponseHeaderViolation f n r) in *. clearbody m.
  assert (negb (normalized m) && negb (protocolViolation m) && negb (limitViolation m) &&
          responseExceedsLimits m = false) as ->; [|done].
  destruct (protocolViolation m), (limitViolation m); rewrite ?andb_false_r; done.
Qed.

(** A snapshot is idempotent, keeps status, headers and closer, and when it
    carries no violation flag it is the response itself, its headers are valid and
    its sizes are within the limits. *)
Theorem snapshotAttemptResponse_guards r s :
  snapshotAttemptResponse (Some r) = Some s ->
  snapshotAttemptResponse (Some s) = Some s /\
  Status s = Status r /\ Headers s = Headers r /\ closer s = closer r /\
  attemptFailureCode s = attemptFailureCode r /\
  (limitViolation s = false -> protocolViolation s = false ->
   s = r /\ (forall hs, Headers s = Some hs -> headers_valid hs = true) /\
   (normalized s = false -> responseExceedsLimits s = false)).
Proof.
  intros Hs. assert (headers_pass r \/ exists hs f n, Headers r = Some hs /\
    validateResponseHeaders hs = (f, n, false)) as [Hpass|(hs & f & n & Hh & Hv)].
  { unfold headers_pass, headers_valid. destruct (Headers r) as [hs|]; [|by left].
    destruct (validateResponseHeaders hs) as [[f n] []] eqn:E; [by left|right]. by exists hs, f, n. }
  - rewrite snapshot_headers_valid in Hs by done. injection Hs as <-.
    destruct (check_sizes_spec r) as (H1 & H2 & H3 & H4 & H5 & H6).
    rewrite snapshot_headers_valid, H5 by (unfold headers_pass in *; by rewrite H2).
    split_and!; try done. intros Hl Hp. destruct (H6 Hl Hp) as [Heq Hn]. split_and!; try done.
    intros hs Hhs. unfold headers_pass in Hpass. rewrite <- H2, Hhs in Hpass. done.
  - rewrite (snapshot_headers_invalid r hs f n) in Hs by done. injection Hs as <-.
    destruct (mark_spec f n r hs Hh) as (H1 & H2 & H3 & H4 & Hviol & Hid).
    rewrite (snapshot_headers_invalid _ hs f n), Hid by done. split_and!; try done; [congruence|].
    intros Hl Hp. by rewrite Hl, Hp in Hviol.
Qed.

(** A hand-made response that claims more than it may. *)
Definition oversized : AttemptResponse :=
  mkResponse 202 (Some [mkHeader (B "content-type") (B "application/json")]) (Some (B "{}"))
    2 2000 false zeroTime false false false false false false false ErrorCodeNone FailureReasonNone
    false None.

Lemma snapshotAttemptResponse_guards_witness :
  let s := set_limitViolation oversized in
  snapshotAttemptResponse (Some oversized) = Some s /\ snapshotAttemptResponse (Some s) = Some s.
Proof.
  split; [vm_compute; reflexivity|].
  apply (snapshotAttemptResponse_guards oversized). vm_compute. reflexivity.
Defined.

(** *** Construction *)

Definition clean (r : AttemptResponse) : Prop :=
  limitViolation r = false /\ protocolViolation r = false.

(** What every constructed response satisfies. *)
Definition constructed (status : Z) (hs : list HeaderField) (limit : Z) (c : nat) (r : AttemptResponse) : Prop :=
  closer r = Some c /\ Status r = status /\ Headers r = Some hs /\ normalized r = true /\
  is_Some (Body r) /\ len (body_of r) <= maxPayloadBytes /\
  (body_of r <> [] -> 200 <= status < 300 /\ clean r) /\
  (clean r -> headers_valid hs = true /\ CompressedBytes r <= limit /\
   DecompressedBytes r <= maxPayloadBytes /\
   (0 < CompressedBytes r -> DecompressedBytes r <= CompressedBytes r * ExpansionRatio)) /\
  snapshotAttemptResponse (Some r) = Some r.

Lemma snapshot_normalized r hs :
  Headers r = Some hs -> headers_valid hs = true -> normalized r = true ->
  snapshotAttemptResponse (Some r) = Some r.
Proof.
  intros Hh Hv Hn. rewrite snapshot_headers_valid by (unfold headers_pass; by rewrite Hh).
  unfold check_sizes. by rewrite Hn.
Qed.

Lemma constructed_violation status hs limit c r :
  headers_valid hs = true -> Headers r = Some hs -> Body r = Some [] -> normalized r = true ->
  closer r = Some c -> Status r = status -> ~ clean r -> constructed status hs limit c r.
Proof.
  intros Hv Hh Hb Hn Hc Hs Hcl. unfold constructed, body_of. rewrite Hb. cbn.
  split_and!; try done; by eapply snapshot_normalized.
Qed.

Lemma constructed_marked status hs limit c r f n :
  validateResponseHeaders hs = (f, n, false) -> Headers r = Some hs -> Body r = Some [] ->
  normalized r = true -> closer r = Some c -> Status r = status ->
  constructed status hs limit c (markResponseHeaderViolation f n r).
Proof.
  intros Hv Hh Hb Hn Hc Hs. destruct (mark_spec f n r hs Hh) as (H1 & H2 & H3 & H4 & H5 & H6).
  unfold constructed. rewrite (snapshot_headers_invalid _ hs f n), H6, H1, H2, H3 by done.
  assert (normalized (markResponseHeaderViolation f n r) = true /\
          Body (markResponseHeaderViolation f n r) = Some []) as [Hn' Hb'].
  { unfold markResponseHeaderViolation. destruct (responseHeadersExceedLimit _ _ _); by destruct r. }
  unfold body_of. rewrite Hb'. cbn. split_and!; try done.
  intros [Hl Hp]. by rewrite Hl, Hp in H5.
Qed.

(** Constructing a response either fails and closes its closer, or yields a
    response whose body is at most 1 MiB, is kept only for an unflagged 2xx status,
    whose sizes and expansion ratio are within the limits unless it is flagged, and
    which a snapshot leaves unchanged. *)
Theorem normalizeAttemptResponse_bounds gz status headers wireBody limit c :
  match normalizeAttemptResponse gz status headers wireBody limit c with
  | (None, cl) => cl = [c] /\ (headers = None \/ wireBody = None \/ ~ 100 <= status <= 599)
  | (Some r, cl) => cl = [] /\ 100 <= status <= 599 /\
      exists hs, headers = Some hs /\ constructed status hs limit c r
  end.
Proof.
  unfold normalizeAttemptResponse.
  destruct headers as [hs|]; [|by auto]. destruct wireBody as [wire|]; [|by auto].
  destruct (_ || _) eqn:Es; [split; [done|]; do 2 right; lia|].
  set (r0 := mkResponse _ _ _ _ _ _ _ _ _ _ _ _ _ _ _ _ _ _).
  assert (forall r, constructed status hs limit c r ->
    (@nil nat) = [] /\ 100 <= status <= 599 /\
    exists hs0, Some hs = Some hs0 /\ constructed status hs0 limit c r) as Hleaf
    by (intros r Hr; split_and!; [done|lia|lia|by exists hs]).
  destruct (validateResponseHeaders hs) as [[f n] v] eqn:Ev. destruct v; cbn [negb].
  2:{ by apply Hleaf, constructed_marked. }
  assert (headers_valid hs = true) as Hv by (unfold headers_valid; by rewrite Ev).
  destruct (responseContentEncoding hs) as [enc []]; cbn [negb].
  2:{ apply Hleaf, constructed_violation; try done. by intros [_ H]. }
  destruct (limit <? len wire) eqn:El.
  { destruct (enc ==? B "identity"); apply Hleaf, constructed_violation; try done; intros [H1 H2]; done. }
  destruct (decodeAttemptResponseBody gz enc wire) as [decoded|].
  2:{ apply Hleaf, constructed_violation; try done. by intros [_ H]. }
  destruct ((maxPayloadBytes <? len decoded) || _) eqn:Eb.
  { apply Hleaf, constructed_violation; try done. by intros [_ H]. }
  unfold not_success in *.
  destruct ((status <? 200) || (300 <=? status)) eqn:En; apply Hleaf;
    (split_and!; [done|done|done|done|by eexists|first [done|cbn; lia]|..|by eapply snapshot_normalized]);
    cbn; intros; try done; unfold clean; cbn; split_and!; try done; lia.
Qed.

(** *** Retry-After *)

Definition all_digits (v : bytes) : bool := negb (v ==? []) && forallb isDigit v.

Lemma range_digits v : forallb (fun it => isDigit (start_byte it)) (range v) = forallb isDigit v.
Proof. apply range_ascii. intros c H%betweenP. lia. Qed.

Lemma digits_value_from v n : 0 <= n -> forallb isDigit v = true ->
  0 <= fold_left (fun v c => v * 10 + (c - 48)) v n.
Proof.
  revert n. induction v as [|c v IH]; intros n Hn Hd; cbn in *; [done|].
  apply andb_true_iff in Hd as [Hc%betweenP Hd]. apply IH; [lia|done].
Qed.

Lemma parseRetryAfterDelta_digits v : all_digits v = true ->
  parseRetryAfterDelta v =
  if between 1 (digits_value v) 9223372036 then (digits_value v * 1000000000, true, false)
  else (0, false, false).
Proof.
  unfold all_digits, parseRetryAfterDelta, ParseUint10. rewrite range_digits.
  destruct v as [|c v]; [done|]. intros [_ H]%andb_true_iff. rewrite H.
  change (c :: v ==? []) with false. cbn [negb andb orb].
  pose proof (digits_value_from (c :: v) 0 ltac:(lia) H) as Hpos. fold (digits_value (c :: v)) in Hpos.
  change (Z.quot MaxInt64 1000000000) with 9223372036. unfold between.
  destruct (digits_value (c :: v) <? 2 ^ 63) eqn:E.
  - destruct ((digits_value (c :: v) =? 0) || (9223372036 <? digits_value (c :: v))) eqn:E2;
      destruct ((1 <=? digits_value (c :: v)) && (digits_value (c :: v) <=? 9223372036)) eqn:E3; try done; lia.
  - assert ((digits_value (c :: v) <=? 9223372036) = false) as ->; [|by rewrite andb_false_r].
    apply Z.leb_gt. apply Z.ltb_ge in E. change (2 ^ 63) with 9223372036854775808 in E. lia.
Qed.

Lemma parseRetryAfterDelta_other v : all_digits v = false -> parseRetryAfterDelta v = (0, false, true).
Proof. unfold all_digits, parseRetryAfterDelta. rewrite range_digits. by intros ->. Qed.

Lemma formatHTTPDate_not_digits c : all_digits (formatHTTPDate c) = false.
Proof.
  unfold formatHTTPDate, all_digits. destruct (weekday_three (civil_days c)) as (a & b & d & Hw).
  rewrite Hw. assert (isDigit a = false) as Ha; [|cbn [app forallb]; by rewrite Ha, andb_false_r].
  unfold weekday in Hw. pose proof (Z.mod_pos_bound (civil_days c) 7 ltac:(lia)).
  assert (a ∈ [84; 70; 83; 77; 87]) as Hin.
  { destruct (Z.to_nat (civil_days c mod 7)) as [|[|[|[|[|[|[|n]]]]]]] eqn:E; [..|lia];
      cbn in Hw; injection Hw as <- <- <-; apply (bool_decide_unpack _); vm_compute; done. }
  rewrite !elem_of_cons, elem_of_nil in Hin. destruct Hin as [->|[->|[->|[->|[->|[]]]]]]; done.
Qed.

(** A Retry-After value yields a delay exactly when it is a decimal number of
    seconds that fits a duration or a canonical HTTP date later than the wall clock,
    the delay is that of the value, and it is a positive 64-bit duration. *)
Theorem parseRetryAfterHeaders_exact headers v now d :
  retryAfterValue headers = Some v ->
  (parseRetryAfterHeaders headers now = (d, true) <->
   (all_digits v = true /\ 1 <= digits_value v <= 9223372036 /\ d = digits_value v * 1000000000) \/
   (exists c, civil_ok c = true /\ v = formatHTTPDate c /\ now < civil_nanos c /\
      d = timeSub (civil_nanos c) now)) /\
  (parseRetryAfterHeaders headers now = (d, true) -> 0 < d <= MaxInt64).
Proof.
  intros Hv. unfold parseRetryAfterHeaders. rewrite Hv.
  destruct (all_digits v) eqn:Ed.
  - rewrite (parseRetryAfterDelta_digits v Ed). destruct (between 1 (digits_value v) 9223372036) eqn:Eb; cbn [negb].
    + apply betweenP in Eb. unfold MaxInt64. split; [|intros [= <-]; lia]. split.
      * intros [= <-]. by left.
      * intros [(_ & _ & ->)|(c & _ & -> & _)]; [done|]. by rewrite formatHTTPDate_not_digits in Ed.
    + split; [|done]. split; [done|].
      intros [(_ & Hr%betweenP & _)|(c & _ & -> & _)]; [congruence|]. by rewrite formatHTTPDate_not_digits in Ed.
  - rewrite (parseRetryAfterDelta_other v Ed). cbn [negb]. unfold parseRetryAfterDate.
    assert (forall t, now < t -> 0 < timeSub t now <= MaxInt64) as Hsub.
    { intros t Ht. unfold timeSub, MinInt64, MaxInt64. lia. }
    destruct (strictHTTPDate v) as [t|] eqn:Es.
    + destruct (strictHTTPDate_canonical v t Es) as (c & Hok & -> & ->).
      destruct (now <? civil_nanos c) eqn:En; cbn [negb].
      * specialize (Hsub (civil_nanos c) ltac:(lia)).
        assert ((0 <? timeSub (civil_nanos c) now) = true) as -> by lia.
        split; [|intros [= <-]; lia]. split.
        -- intros [= <-]. right. exists c. split_and!; try done. lia.
        -- intros [(? & _)|(c' & Hok' & Heq & _ & ->)]; [done|].
           rewrite Heq, (strictHTTPDate_format c' Hok') in Es. injection Es as ->. done.
      * split; [|done]. split; [done|].
        intros [(? & _)|(c' & Hok' & Heq & Hlt & ->)]; [done|].
        rewrite Heq, (strictHTTPDate_format c' Hok') in Es. injection Es as Es. lia.
    + split; [|done]. split; [done|]. intros [(? & _)|(c' & Hok' & -> & _)]; [done|].
      by rewrite strictHTTPDate_format in Es.
Qed.

Lemma parseRetryAfterHeaders_exact_witness :
  parseRetryAfterHeaders [mkHeader (B "Retry-After") (B "Sun, 06 Nov 1994 08:49:37 GMT")]
    (civil_nanos (mkCivil 1994 11 6 8 49 30)) = (7000000000, true).
Proof.
  apply (parseRetryAfterHeaders_exact _ (B "Sun, 06 Nov 1994 08:49:37 GMT")); [vm_compute; reflexivity|].
  right. exists (mkCivil 1994 11 6 8 49 37). vm_compute. done.
Defined.

Lemma validateAttemptResponse_error_witness :
  exists e, validateAttemptResponse (set_limitViolation oversized) (B "a") (B "b") (B "c") = Err e /\
    Error_DeliveryState e = DeliveryStatePossiblySent.
Proof.
  eexists. split; [vm_compute; reflexivity|].
  refine (proj2 (proj1 (proj2 (validateAttemptResponse_error (set_limitViolation oversized)
            (B "a") (B "b") (B "c") _ _))) _); [vm_compute; reflexivity|right; reflexivity].
Defined.
