(* ===== verification/GoValue.v ===== *)
(** * Go values as the serializer meets them (package reflect)

    An input is an arbitrary Go value.  Maps, slices and pointers refer to memory,
    so that values can share parts and be cyclic; the serializer looks at values
    through their kind and their memory only. *)
From S2P Require Import Prelude GoText.

(** optional.go, [optionalState]. *)
Inductive optionalState := optionalAbsent | optionalPresent | optionalNull.

(** A field of a struct type: its [repost] tag, whether it is exported, and
    whether its type is an interface. *)
Record structField := mkStructField { Tag : bytes; Exported : bool; IsInterface : bool }.

(** A value in an interface.  [VNil] is the nil interface; a nil map, slice or
    pointer has a type and is not [VNil].  A slice is an array in memory, an offset
    and a length.  [VString] is any type of kind string but [json.Number] and
    [generatedDateTime]; [VTime] carries the text of the time in UTC in the
    timestamp layout; [VFloat] tells whether the number is finite.  [VOther] is a
    value of any other kind (channel, function, complex number and so on). *)
Inductive gv :=
| VNil
| VBool (b : bool)
| VInt (n : Z)
| VUint (n : Z)
| VFloat (finite : bool) (text : bytes)
| VString (s : bytes)
| VNumber (s : bytes)
| VGenerated (s : bytes)
| VTime (text : bytes)
| VOptional (state : optionalState) (v : gv)
| VStruct (fields : list (structField * gv))
| VArray (elems : list gv)
| VSlice (at_ : option (nat * nat)) (n : nat)
| VMap (at_ : option nat) (stringToAny : bool)
| VPointer (at_ : option nat)
| VOther.

(** Keys of maps: only strings matter. *)
Inductive mapKey := KString (s : bytes) | KOther.

(** What an address holds: an array, a map with its entries in iteration order, or
    a variable. *)
Inductive object :=
| OArray (elems : list gv)
| OMap (entries : list (mapKey * gv))
| OVar (isInterface : bool) (v : gv).

Abbreviation memory := (gmap nat object).

(** [reflect.Kind], as far as it is told apart. *)
Inductive kind :=
| KindInvalid | KindBool | KindInt | KindUint | KindFloat | KindString | KindStruct | KindArray
| KindSlice | KindMap | KindPointer | KindOther.
#[export] Instance kind_eq_dec : EqDecision kind.
Proof. solve_decision. Defined.

Definition kindOf (v : gv) : kind :=
  match v with
  | VNil => KindInvalid
  | VBool _ => KindBool
  | VInt _ => KindInt
  | VUint _ => KindUint
  | VFloat _ _ => KindFloat
  | VString _ | VNumber _ | VGenerated _ => KindString
  | VTime _ | VOptional _ _ | VStruct _ => KindStruct
  | VArray _ => KindArray
  | VSlice _ _ => KindSlice
  | VMap _ _ => KindMap
  | VPointer _ => KindPointer
  | VOther => KindOther
  end.

(** [rv.String()] of a value of kind string. *)
Definition stringOf (v : gv) : bytes :=
  match v with VString s | VNumber s | VGenerated s => s | _ => [] end.

Section memory.
Context (h : memory).

(** The elements of an array or of a slice that is not nil. *)
Definition elements (v : gv) : list gv :=
  match v with
  | VArray elems => elems
  | VSlice (Some (a, off)) n =>
    match h !! a with Some (OArray elems) => take n (drop off elems) | _ => [] end
  | _ => []
  end.

(** The entries of a map; a nil map has none. *)
Definition entries (v : gv) : list (mapKey * gv) :=
  match v with
  | VMap (Some a) _ => match h !! a with Some (OMap es) => es | _ => [] end
  | _ => []
  end.

(** [rv.Elem().Interface()] of a pointer that is not nil. *)
Definition pointee (v : gv) : gv :=
  match v with
  | VPointer (Some a) => match h !! a with Some (OVar _ v) => v | _ => VNil end
  | _ => VNil
  end.
End memory.

(** serialize.go, [isNilValue]. *)
Definition isNilValue (v : gv) : bool :=
  match v with
  | VNil | VMap None _ | VPointer None | VSlice None _ => true
  | _ => false
  end.
