(* ===== verification/Descriptor.v ===== *)
(** * Descriptors and validation issues (descriptor.go, version.go and the issue
    bookkeeping of serialize.go)

    The descriptor data a generated client hands over, the handshake that
    [Send] performs on it, and the bounded collection of validation issues with
    its conversion into a public error. *)
From S2P Require Import Prelude Errors GoText StrictJson GoValue.

(** ** Descriptor data *)

(** descriptor.go, [DefaultSpec]. *)
Record DefaultSpec := mkDefaultSpec { Default_Kind : bytes; Default_Value : gv }.

(** descriptor.go, [FieldDescriptor]. *)
Record FieldDescriptor := mkField {
  SchemaName : bytes;
  WireName : bytes;
  ScalarKind : bytes;
  DescriptorID : bytes;
  RequiredInInput : bool;
  NullableInInput : bool;
  IsList : bool;
  Default : option DefaultSpec;
  FieldName : bytes;
  Wire : bytes;
  FieldModel : bytes;
  Enum : option (gmap bytes bytes)
}.

(** descriptor.go, [ModelDescriptor], [EventDescriptor], [SchemaDescriptor]. *)
Record ModelDescriptor := mkModel { Fields : list FieldDescriptor }.
Record EventDescriptor := mkEvent { EventType : bytes; EventModel : bytes }.
Record SchemaDescriptor := mkSchema {
  FormatVersion : Z;
  Enums : gmap bytes (gmap bytes bytes);
  Models : gmap bytes ModelDescriptor;
  Webhooks : gmap bytes (gmap bytes EventDescriptor)
}.

(** version.go, [DescriptorFormatVersion]. *)
Definition DescriptorFormatVersion : Z := 2.

(** ** Paths *)

Definition path_start (c : Z) : bool := between 65 c 90 || between 97 c 122 || (c =? 95) || (c =? 36).
Definition path_char (c : Z) : bool := path_start c || between 48 c 57.

(** serialize.go, [pathIdentifier]. *)
Definition pathIdentifier (key : bytes) : bool :=
  match key with c :: rest => path_start c && forallb path_char rest | [] => false end.

Definition hex_digit (n : Z) : Z := if n <? 10 then 48 + n else 87 + n.

(** serialize.go, [quoteJSONString], one turn of its loop. *)
Definition quote_rune (r : Z) : bytes :=
  if r =? 34 then [92; 34] else if r =? 92 then [92; 92] else if r =? 8 then [92; 98]
  else if r =? 12 then [92; 102] else if r =? 10 then [92; 110] else if r =? 13 then [92; 114]
  else if r =? 9 then [92; 116]
  else if r <? 32 then [92; 117; 48; 48; hex_digit (r / 16); hex_digit (r mod 16)]
  else encodeRune r.

Definition quoteJSONString (value : bytes) : bytes :=
  34 :: concat (map (fun it => quote_rune (rune it)) (range value)) ++ [34].

(** serialize.go, [appendPath]. *)
Definition appendPath (path key : bytes) : bytes :=
  if pathIdentifier key then path ++ B "." ++ key else path ++ B "[" ++ quoteJSONString key ++ B "]".

(** ** Validation issues *)

(** serialize.go, [serializerValidationError], without its message. *)
Record serializerValidationError := mkIssue { code : bytes; issueCode : bytes; path : bytes }.

(** serialize.go, [validationError]. *)
Definition validationError (c p : bytes) : serializerValidationError := mkIssue c c p.

(** serialize.go, the bounds. *)
Definition maxValidationIssues : Z := 32.
Definition maxValidationIssuePathBytes : Z := 1024.
Definition maxValidationPathBytes : Z := 16384.
Definition validationPathMarker : bytes := B ".<truncated>".

(** serialize.go, [serializerValidationErrors]. *)
Record serializerValidationErrors := mkIssues {
  issues : list serializerValidationError;
  issueCount : Z;
  totalPathBytes : Z
}.

(** serialize.go, [newSerializerValidationErrors]. *)
Definition newSerializerValidationErrors : serializerValidationErrors := mkIssues [] 0 0.

(** What [errors.As] finds in an error: an aggregate, an issue, or neither. *)
Inductive serializerError :=
| AggregateError (e : serializerValidationErrors)
| IssueError (e : serializerValidationError)
| OtherError.

(** serialize.go, [saturatingValidationIssueCount]. *)
Definition saturatingValidationIssueCount (current increment : Z) : Z :=
  if increment <=? 0 then current
  else if MaxInt32 - increment <=? current then MaxInt32
  else current + increment.

(** [utf8.RuneStart]. *)
Definition RuneStart (c : Z) : bool := negb (Z.land c 192 =? 128).

(** serialize.go, [truncateValidationPath], its first loop. *)
Fixpoint rune_boundary (p : bytes) (n : nat) : nat :=
  match n with
  | O => O
  | S n' => if RuneStart (nth n p 0) then n else rune_boundary p n'
  end.

(** Its second loop, on the reversed prefix: drops bytes until a separator or
    one byte is left. *)
Fixpoint drop_segment (rp : bytes) : bytes :=
  match rp with
  | c :: ((_ :: _) as rp') => if (c =? 46) || (c =? 93) then rp else drop_segment rp'
  | _ => rp
  end.

(** [strings.TrimSuffix(prefix, ".")], on the reversed prefix. *)
Definition trim_dot (rp : bytes) : bytes :=
  match rp with c :: rp' => if c =? 46 then rp' else rp | [] => [] end.

(** serialize.go, [truncateValidationPath]. *)
Definition truncateValidationPath (p : bytes) : bytes :=
  if len p <=? maxValidationIssuePathBytes then p
  else
    let prefixBytes :=
      rune_boundary p (Z.to_nat (maxValidationIssuePathBytes - len validationPathMarker)) in
    let prefix := take prefixBytes p in
    let next := nth prefixBytes p 0 in
    let prefix :=
      if negb (next =? 46) && negb (next =? 91)
      then rev (trim_dot (drop_segment (rev prefix))) else prefix in
    prefix ++ validationPathMarker.

(** serialize.go, [retain]. *)
Definition retain (issue : serializerValidationError) (e : serializerValidationErrors)
    : serializerValidationErrors :=
  if maxValidationIssues <=? len (issues e) then e
  else
    let p := truncateValidationPath (path issue) in
    if maxValidationPathBytes <? totalPathBytes e + len p then e
    else mkIssues (issues e ++ [mkIssue (code issue) (issueCode issue) p]) (issueCount e)
           (totalPathBytes e + len p).

Definition set_issueCount (n : Z) (e : serializerValidationErrors) : serializerValidationErrors :=
  mkIssues (issues e) n (totalPathBytes e).

(** serialize.go, [merge]. *)
Definition merge (other e : serializerValidationErrors) : serializerValidationErrors :=
  fold_left (fun e i => retain i e) (issues other)
    (set_issueCount (saturatingValidationIssueCount (issueCount e) (issueCount other)) e).

(** serialize.go, [add]. *)
Definition add (err : serializerError) (e : serializerValidationErrors)
    : serializerValidationErrors * bool :=
  match err with
  | AggregateError other => (merge other e, true)
  | IssueError issue =>
    (retain issue (set_issueCount (saturatingValidationIssueCount (issueCount e) 1) e), true)
  | OtherError => (e, false)
  end.

(** operation.go, [serializerOperationError]: its [mapIssue]. *)
Definition mapIssue (v : option serializerValidationError) : ValidationIssue :=
  match v with
  | None => mkValidationIssue ValidationIssueCodeTypeMismatch (B "$")
  | Some v =>
    let c :=
      if issueCode v ==? B "REQUIRED_FIELD" then ValidationIssueCodeRequired
      else if (issueCode v ==? B "NULL_NOT_ALLOWED") || (issueCode v ==? B "NULL_LIST_ELEMENT")
           then ValidationIssueCodeNullNotAllowed
      else if issueCode v ==? B "TYPE_MISMATCH" then ValidationIssueCodeTypeMismatch
      else if issueCode v ==? B "NON_FINITE_NUMBER" then ValidationIssueCodeNonFinite
      else if issueCode v ==? B "INVALID_JSON" then ValidationIssueCodeInvalidJSON
      else if issueCode v ==? B "CYCLE" then ValidationIssueCodeCycle
      else if issueCode v ==? B "INVALID_UNICODE" then ValidationIssueCodeInvalidUnicode
      else ValidationIssueCodeTypeMismatch in
    mkValidationIssue c (path v)
  end.

(** operation.go, [serializerOperationError]. *)
Definition serializerOperationError (err : serializerError) (operationID key : bytes) : Error :=
  let '(vs, count) :=
    match err with
    | AggregateError e => (map (fun i => mapIssue (Some i)) (issues e), issueCount e)
    | IssueError i => ([mapIssue (Some i)], 1)
    | OtherError => ([mapIssue None], 1)
    end in
  mkError ErrorCodeValidation DeliveryStateNotSent false operationID key 0 0 FailureReasonNone
    CauseCategoryNone 0 0 0 0 false vs [] count (negb (count =? len vs)).

(** ** The handshake *)

(** descriptor.go, [sortedKeys]: the order of [sort.Strings]. *)
Fixpoint bytes_le (a b : bytes) : bool :=
  match a, b with
  | [], _ => true
  | _ :: _, [] => false
  | x :: a', y :: b' => (x <? y) || ((x =? y) && bytes_le a' b')
  end.
Fixpoint insert_key (k : bytes) (ks : list bytes) : list bytes :=
  match ks with
  | [] => [k]
  | x :: ks' => if bytes_le k x then k :: ks else x :: insert_key k ks'
  end.
Definition sortedKeys {A} (m : gmap bytes A) : list bytes :=
  foldr insert_key [] (map_to_list m).*1.

(** serialize.go, [scalarKinds]. *)
Definition scalarKinds : list bytes :=
  [B "string"; B "boolean"; B "int64"; B "float64"; B "datetime"; B "json"; B "enum"; B "model"].

(** serialize.go, [isV2Field]. *)
Definition isV2Field (f : FieldDescriptor) : bool := negb (SchemaName f ==? []).

(** The errors of the handshake: the two directions of a version mismatch, a
    format-1 field, and the validation errors by code. *)
Inductive descriptorError :=
| UnsupportedDescriptorVersion
| OutdatedDescriptorVersion
| GeneratedSourceOutdated (modelName : bytes) (index : nat)
| DescriptorIssue (e : serializerValidationError).

(** version.go, [AssertDescriptorVersion]; [None] is no error. *)
Definition AssertDescriptorVersion (declared : Z) : option descriptorError :=
  if declared =? DescriptorFormatVersion then None
  else if DescriptorFormatVersion <? declared then Some UnsupportedDescriptorVersion
  else Some OutdatedDescriptorVersion.

(** serialize.go, [validateFieldDescriptor]. *)
Definition validateFieldDescriptor (f : FieldDescriptor) (p : bytes) : option descriptorError :=
  if negb (isV2Field f) then None
  else if bool_decide (ScalarKind f ∈ scalarKinds) then None
  else Some (DescriptorIssue (validationError (B "UNKNOWN_SCALAR_KIND") p)).

(** descriptor.go, [validateDescriptorReference]. *)
Definition validateDescriptorReference (models : gmap bytes ModelDescriptor)
    (enums : gmap bytes (gmap bytes bytes)) (modelName : bytes) (index : nat) (f : FieldDescriptor)
    : option descriptorError :=
  let isEnum := ScalarKind f ==? B "enum" in
  let isModel := ScalarKind f ==? B "model" in
  if negb isEnum && negb isModel then None
  else
    let known := if isEnum then bool_decide (is_Some (enums !! DescriptorID f))
                 else bool_decide (is_Some (models !! DescriptorID f)) in
    if known && negb (DescriptorID f ==? []) then None
    else Some (DescriptorIssue (validationError (B "INVALID_DESCRIPTOR_REFERENCE")
           (appendPath (B "$.models") modelName ++ B ".fields[" ++
            Itoa (Z.of_nat index) ++ B "].descriptorId"))).

(** The first error of a loop. *)
Fixpoint first_error {A E} (check : A -> option E) (l : list A) : option E :=
  match l with
  | [] => None
  | x :: l' => match check x with Some e => Some e | None => first_error check l' end
  end.

Fixpoint indexed {A} (i : nat) (l : list A) : list (nat * A) :=
  match l with [] => [] | x :: l' => (i, x) :: indexed (S i) l' end.

(** descriptor.go, [ValidateSchemaDescriptor], lines 103 to 112: one field. *)
Definition validateField (s : SchemaDescriptor) (modelName : bytes) (x : nat * FieldDescriptor)
    : option descriptorError :=
  let '(index, f) := x in
  if negb (isV2Field f) then Some (GeneratedSourceOutdated modelName index)
  else match validateFieldDescriptor f (appendPath (B "$") (SchemaName f)) with
       | Some e => Some e
       | None => validateDescriptorReference (Models s) (Enums s) modelName index f
       end.

(** descriptor.go, [validateModelDescriptorReferences]: the fields of format 1 are
    passed over. *)
Definition validateModelDescriptorReferences (models : gmap bytes ModelDescriptor)
    (enums : gmap bytes (gmap bytes bytes)) : option descriptorError :=
  first_error (fun modelName =>
    first_error (fun '(index, f) =>
      if negb (isV2Field f) then None
      else match validateFieldDescriptor f (appendPath (B "$") (SchemaName f)) with
           | Some e => Some e
           | None => validateDescriptorReference models enums modelName index f
           end) (indexed 0 (default [] (Fields <$> models !! modelName)))) (sortedKeys models).

(** descriptor.go, [ValidateSchemaDescriptor], lines 117 to 123: one event. *)
Definition validateEvent (s : SchemaDescriptor) (group : bytes)
    (members : gmap bytes EventDescriptor) (member : bytes) : option descriptorError :=
  match members !! member with
  | None => None
  | Some event =>
    if bool_decide (is_Some (Models s !! EventModel event)) then None
    else Some (DescriptorIssue (validationError (B "INVALID_DESCRIPTOR_REFERENCE")
           (appendPath (appendPath (B "$.webhooks") group) member ++ B ".model")))
  end.

(** descriptor.go, [ValidateSchemaDescriptor]. *)
Definition ValidateSchemaDescriptor (s : SchemaDescriptor) : option descriptorError :=
  match AssertDescriptorVersion (FormatVersion s) with
  | Some e => Some e
  | None =>
    match first_error (fun modelName =>
            first_error (validateField s modelName)
              (indexed 0 (default [] (Fields <$> Models s !! modelName)))) (sortedKeys (Models s)) with
    | Some e => Some e
    | None =>
      first_error (fun group =>
        let members := default ∅ (Webhooks s !! group) in
        first_error (validateEvent s group members) (sortedKeys members)) (sortedKeys (Webhooks s))
    end
  end.

(** ** Facts on the handshake *)

Lemma first_error_None {A E} (check : A -> option E) l :
  first_error check l = None <-> forall x, x ∈ l -> check x = None.
Proof.
  induction l as [|a l IH]; cbn; [split; [intros _ x Hx; by apply elem_of_nil in Hx|done]|].
  split.
  - destruct (check a) eqn:E0; [done|]. intros H x [->|Hx]%elem_of_cons; [done|]. by apply IH.
  - intros H. rewrite (H a) by left. apply IH. intros x Hx. apply H. by right.
Qed.

Lemma elem_insert_key k ks x : x ∈ insert_key k ks <-> x = k \/ x ∈ ks.
Proof.
  induction ks as [|y ks IH]; cbn; [by rewrite list_elem_of_singleton, elem_of_nil; tauto|].
  destruct (bytes_le k y); rewrite !elem_of_cons; [tauto|]. rewrite IH. tauto.
Qed.

Lemma elem_sortedKeys {A} (m : gmap bytes A) k : k ∈ sortedKeys m <-> is_Some (m !! k).
Proof.
  unfold sortedKeys. transitivity (k ∈ (map_to_list m).*1).
  - induction ((map_to_list m).*1) as [|x l IH]; cbn; [done|]. rewrite elem_insert_key, elem_of_cons. tauto.
  - rewrite list_elem_of_fmap. split.
    + intros ([k' v] & -> & Hin%elem_of_map_to_list). by eexists.
    + intros [v Hv]. exists (k, v). split; [done|]. by apply elem_of_map_to_list.
Qed.

Lemma elem_indexed {A} (l : list A) n i x :
  (i, x) ∈ indexed n l <-> exists j, i = (n + j)%nat /\ l !! j = Some x.
Proof.
  revert n. induction l as [|a l IH]; intros n; cbn; [rewrite elem_of_nil; split; [done|by intros (j & _ & Hj)]|].
  rewrite elem_of_cons, IH. split.
  - intros [[= -> ->]|(j & -> & Hj)]; [exists 0%nat; split; [lia|done]|]. exists (S j). split; [lia|done].
  - intros ([|j] & -> & Hj); cbn in Hj; [left; simplify_eq; f_equal; lia|]. right. exists j. split; [lia|done].
Qed.

(** What a descriptor of the current format must satisfy. *)
Definition field_ok (s : SchemaDescriptor) (f : FieldDescriptor) : Prop :=
  SchemaName f <> [] /\ ScalarKind f ∈ scalarKinds /\
  (ScalarKind f = B "enum" -> DescriptorID f <> [] /\ is_Some (Enums s !! DescriptorID f)) /\
  (ScalarKind f = B "model" -> DescriptorID f <> [] /\ is_Some (Models s !! DescriptorID f)).

Definition schema_ok (s : SchemaDescriptor) : Prop :=
  FormatVersion s = DescriptorFormatVersion /\
  (forall name m f, Models s !! name = Some m -> f ∈ Fields m -> field_ok s f) /\
  (forall group members member event, Webhooks s !! group = Some members ->
     members !! member = Some event -> is_Some (Models s !! EventModel event)).

Lemma reference_None s modelName index f :
  validateDescriptorReference (Models s) (Enums s) modelName index f = None <->
  (ScalarKind f = B "enum" -> DescriptorID f <> [] /\ is_Some (Enums s !! DescriptorID f)) /\
  (ScalarKind f = B "model" -> DescriptorID f <> [] /\ is_Some (Models s !! DescriptorID f)).
Proof.
  unfold validateDescriptorReference.
  destruct (ScalarKind f ==? B "enum") eqn:Ee; destruct (ScalarKind f ==? B "model") eqn:Em; destruct_bools.
  - exfalso. rewrite Ee in Em. vm_compute in Em. done.
  - cbn. destruct (bool_decide _) eqn:Ed; cbn.
    + apply bool_decide_eq_true in Ed. destruct (DescriptorID f ==? []) eqn:E0; destruct_bools; cbn; split; try done.
      intros [H _]. destruct (H Ee). done.
    + apply bool_decide_eq_false in Ed. split; [done|]. intros [H _]. destruct (H Ee). done.
  - cbn. destruct (bool_decide _) eqn:Ed; cbn.
    + apply bool_decide_eq_true in Ed. destruct (DescriptorID f ==? []) eqn:E0; destruct_bools; cbn; split; try done.
      intros [_ H]. destruct (H Em). done.
    + apply bool_decide_eq_false in Ed. split; [done|]. intros [_ H]. destruct (H Em). done.
  - done.
Qed.

Lemma validateField_None s modelName index f :
  validateField s modelName (index, f) = None <-> field_ok s f.
Proof.
  unfold validateField, validateFieldDescriptor, field_ok, isV2Field. cbn.
  destruct (SchemaName f ==? []) eqn:E; destruct_bools; cbn.
  { split; [done|]. intros [H _]. done. }
  destruct (bool_decide (ScalarKind f ∈ scalarKinds)) eqn:Ek.
  - apply bool_decide_eq_true in Ek. rewrite reference_None. tauto.
  - apply bool_decide_eq_false in Ek. split; [done|]. tauto.
Qed.

Lemma ValidateSchemaDescriptor_None s : ValidateSchemaDescriptor s = None <-> schema_ok s.
Proof.
  unfold ValidateSchemaDescriptor, AssertDescriptorVersion, schema_ok.
  destruct (FormatVersion s =? DescriptorFormatVersion) eqn:Ev.
  2:{ split; [by destruct (_ <? _)|]. intros [H _]. lia. }
  assert (FormatVersion s = DescriptorFormatVersion) as Hv by lia.
  match goal with |- context [match first_error ?c ?l with _ => _ end] =>
    assert (first_error c l = None <->
      (forall name m f, Models s !! name = Some m -> f ∈ Fields m -> field_ok s f)) as Hm;
    [|destruct (first_error c l) as [e|]] end.
  - rewrite first_error_None. split.
    + intros H name m f Hm Hf. apply list_elem_of_lookup in Hf as [j Hj].
      apply (validateField_None s name j). specialize (H name). rewrite elem_sortedKeys, Hm in H.
      eapply (proj1 (first_error_None _ _)); [by apply H|]. apply elem_indexed. by exists j.
    + intros H name [m Hm]%elem_sortedKeys. rewrite Hm. apply first_error_None. intros [i f] (j & -> & Hj)%elem_indexed.
      apply validateField_None. eapply H; [done|]. by eapply list_elem_of_lookup_2.
  - split; [done|]. intros (_ & H & _). by apply Hm in H.
  - transitivity (forall group members member event, Webhooks s !! group = Some members ->
      members !! member = Some event -> is_Some (Models s !! EventModel event)); [|tauto].
    rewrite first_error_None. split.
    + intros H group members member event Hg He. specialize (H group).
      rewrite elem_sortedKeys, Hg in H. pose proof (proj1 (first_error_None _ _) (H ltac:(done)) member) as H1.
      rewrite elem_sortedKeys in H1. cbn in H1. specialize (H1 ltac:(by eexists)).
      unfold validateEvent in H1. rewrite He in H1. by destruct (bool_decide _) eqn:Ed; [apply bool_decide_eq_true in Ed|].
    + intros H group [members Hg]%elem_sortedKeys. rewrite Hg. apply first_error_None.
      intros member [event He]%elem_sortedKeys. unfold validateEvent. change (default ∅ (Some members)) with members in *. rewrite He.
      rewrite bool_decide_eq_true_2; [done|]. by eapply H.
Qed.

(** The descriptor handshake accepts a schema exactly when its format version
    is the supported one, every field is of that format with a known scalar kind,
    every enum or model field names a descriptor of the schema, and every event
    names a model of it. *)
Theorem ValidateSchemaDescriptor_exact s : ValidateSchemaDescriptor s = None <-> schema_ok s.
Proof. apply ValidateSchemaDescriptor_None. Qed.

(** ** Facts on the issues *)

Lemma rune_boundary_le p n : (rune_boundary p n <= n)%nat.
Proof. induction n as [|n IH]; cbn; [lia|]. destruct (RuneStart _); lia. Qed.

Lemma drop_segment_length rp : (length (drop_segment rp) <= length rp)%nat.
Proof.
  induction rp as [|c rp IH]; [done|]. destruct rp as [|d rp]; [done|].
  change (drop_segment (c :: d :: rp)) with
    (if (c =? 46) || (c =? 93) then c :: d :: rp else drop_segment (d :: rp)).
  destruct (_ || _); [done|]. cbn [length] in *. lia.
Qed.

Lemma trim_dot_length rp : (length (trim_dot rp) <= length rp)%nat.
Proof. destruct rp as [|c rp]; cbn; [lia|]. destruct (_ =? _); cbn; lia. Qed.

Lemma truncate_length p : len (truncateValidationPath p) <= maxValidationIssuePathBytes.
Proof.
  unfold truncateValidationPath. destruct (len p <=? maxValidationIssuePathBytes) eqn:E; [lia|].
  rewrite len_app. change (len validationPathMarker) with 12. unfold maxValidationIssuePathBytes.
  set (n := rune_boundary p _). assert (n <= 1012)%nat as Hn by apply rune_boundary_le.
  enough (length (if negb (nth n p 0 =? 46)%Z && negb (nth n p 0 =? 91)%Z
     then rev (trim_dot (drop_segment (rev (take n p)))) else take n p) <= 1012)%nat by (unfold len; lia).
  pose proof (firstn_le_length n p) as Hle.
  assert (length (take n p) <= 1012)%nat as Ht by (rewrite length_take; lia).
  destruct (_ && _); [|done]. rewrite length_rev. etransitivity; [apply trim_dot_length|].
  etransitivity; [apply drop_segment_length|]. by rewrite length_rev.
Qed.

(** The bounds of a collection of issues. *)
Record issues_ok (e : serializerValidationErrors) : Prop := {
  ok_len : len (issues e) <= maxValidationIssues;
  ok_paths : forall i, i ∈ issues e -> len (path i) <= maxValidationIssuePathBytes;
  ok_total : totalPathBytes e = zsum (fun i => len (path i)) (issues e);
  ok_bytes : totalPathBytes e <= maxValidationPathBytes;
  ok_count : len (issues e) <= issueCount e <= MaxInt32
}.

Lemma saturating_count current increment :
  0 <= current <= MaxInt32 -> 0 <= increment ->
  saturatingValidationIssueCount current increment = Z.min MaxInt32 (current + increment).
Proof.
  unfold saturatingValidationIssueCount. intros H1 H2.
  destruct (increment <=? 0) eqn:E; [lia|]. destruct (_ <=? current) eqn:E2; lia.
Qed.

(** Everything but the count, and that at most one issue is added. *)
Lemma retain_ok i e :
  len (issues e) <= maxValidationIssues -> (forall x, x ∈ issues e -> len (path x) <= maxValidationIssuePathBytes) ->
  totalPathBytes e = zsum (fun i => len (path i)) (issues e) -> totalPathBytes e <= maxValidationPathBytes ->
  let e' := retain i e in
  len (issues e') <= maxValidationIssues /\ (forall x, x ∈ issues e' -> len (path x) <= maxValidationIssuePathBytes) /\
  totalPathBytes e' = zsum (fun i => len (path i)) (issues e') /\ totalPathBytes e' <= maxValidationPathBytes /\
  issueCount e' = issueCount e /\ len (issues e) <= len (issues e') <= len (issues e) + 1.
Proof.
  intros H1 H2 H3 H4. unfold retain.
  destruct (maxValidationIssues <=? len (issues e)) eqn:E1; [split_and!; try done; lia|].
  destruct (maxValidationPathBytes <? _) eqn:E2; [split_and!; try done; lia|].
  cbn. rewrite len_app. change (len [_]) with 1. split_and!; try lia.
  - intros x [Hx| ->%list_elem_of_singleton]%elem_of_app; [auto|]. apply truncate_length.
  - rewrite zsum_app. cbn. lia.
Qed.

Lemma fold_retain_ok l e :
  len (issues e) <= maxValidationIssues -> (forall x, x ∈ issues e -> len (path x) <= maxValidationIssuePathBytes) ->
  totalPathBytes e = zsum (fun i => len (path i)) (issues e) -> totalPathBytes e <= maxValidationPathBytes ->
  let e' := fold_left (fun e i => retain i e) l e in
  len (issues e') <= maxValidationIssues /\ (forall x, x ∈ issues e' -> len (path x) <= maxValidationIssuePathBytes) /\
  totalPathBytes e' = zsum (fun i => len (path i)) (issues e') /\ totalPathBytes e' <= maxValidationPathBytes /\
  issueCount e' = issueCount e /\ len (issues e') <= len (issues e) + len l.
Proof.
  revert e. induction l as [|i l IH]; intros e H1 H2 H3 H4; cbn; [split_and!; try done; unfold len; cbn; lia|].
  destruct (retain_ok i e H1 H2 H3 H4) as (R1 & R2 & R3 & R4 & R5 & R6).
  destruct (IH _ R1 R2 R3 R4) as (S1 & S2 & S3 & S4 & S5 & S6).
  split_and!; try done; [congruence|]. unfold len in *. cbn [length]. lia.
Qed.

(** Collecting validation errors keeps at most 32 issues with paths of at most
    1024 bytes and 16384 bytes in all, the byte count exact and the issue count
    saturating and never below the number of issues kept. *)
Theorem add_keeps_issues_bounded err e :
  issues_ok e -> (forall o, err = AggregateError o -> issues_ok o) ->
  issues_ok (add err e).1 /\
  (forall operationID key,
     let public := serializerOperationError (AggregateError (add err e).1) operationID key in
     len (Error_ValidationIssues public) <= maxValidationIssues /\
     Error_DeliveryState public = DeliveryStateNotSent /\
     (Error_IssuesTruncated public = true <-> len (Error_ValidationIssues public) < Error_IssueCount public)).
Proof.
  intros [H1 H2 H3 H4 H5] Ho.
  assert (issues_ok (add err e).1) as Hok.
  { pose proof (len_nonneg (issues e)). destruct err as [o|i|]; cbn [add fst]; [| |by constructor].
    - destruct (Ho o eq_refl) as [O1 O2 O3 O4 O5]. pose proof (len_nonneg (issues o)). unfold merge.
      destruct (fold_retain_ok (issues o) (set_issueCount
         (saturatingValidationIssueCount (issueCount e) (issueCount o)) e) H1 H2 H3 H4)
        as (R1 & R2 & R3 & R4 & R5 & R6).
      constructor; try done. rewrite R5. unfold set_issueCount in *. cbn [issues issueCount] in *.
      rewrite saturating_count in * by lia. unfold maxValidationIssues, MaxInt32 in *. lia.
    - destruct (retain_ok i (set_issueCount (saturatingValidationIssueCount (issueCount e) 1) e) H1 H2 H3 H4)
        as (R1 & R2 & R3 & R4 & R5 & R6).
      constructor; try done. rewrite R5. unfold set_issueCount in *. cbn [issues issueCount] in *.
      rewrite saturating_count in * by lia. unfold maxValidationIssues, MaxInt32 in *. lia. }
  split; [done|]. intros operationID key. destruct Hok as [O1 _ _ _ O5].
  destruct (add err e) as [e' b]. cbn [fst] in *. cbn.
  assert (forall l, len (map (fun i => mapIssue (Some i)) l) = len l) as Hmap
    by (intros l; unfold len; by rewrite length_map).
  rewrite Hmap. split_and!; try done. split; intros; lia.
Qed.

Lemma add_keeps_issues_bounded_witness :
  issues_ok (add (IssueError (mkIssue (B "CYCLE") (B "CYCLE") (B "$.a"))) newSerializerValidationErrors).1.
Proof.
  apply add_keeps_issues_bounded; [|discriminate].
  constructor; try done; cbn; try lia. intros i Hi. by apply elem_of_nil in Hi.
Defined.
