(* ===== verification/Operation.v ===== *)
(** * The send operation (operation.go, transport.go)

    [sendAdmitted] prepares a request and runs the attempt loop.  It is written in
    a monad that threads the state it changes and can leave the function early.
    Everything the operation meets, the contexts, the clocks, the hooks, the
    transport, the outcome of a [select], is answered by an [environment], asked
    again at every use: time passes between two questions. *)
From Stdlib Require Import Sorted.
From S2P Require Import Prelude Errors RuntimeState GoText StrictJson Response Descriptor.

(** ** What the operation meets *)

(** The two errors of a context. *)
Inductive contextError := Canceled | DeadlineExceeded.
#[export] Instance contextError_eq_dec : EqDecision contextError.
Proof. solve_decision. Defined.

(** transport.go, [AttemptRequest], without its callbacks. *)
Record AttemptRequest := mkRequest {
  Request_OperationID : bytes;
  Request_APIURL : bytes;
  Request_Headers : list HeaderField;
  Request_Body : bytes;
  Request_AttemptNumber : Z;
  Request_ConnectTimeout : Z;
  Request_AttemptTimeout : Z
}.

(** What the serializer (serialize.go, ordered.go) offers to the operation: it returns, a
    generator panics, or its recursion exceeds the stack, which ends the process.
    [serializeModel] is [serializeModelAtUnchecked] on the schema, the model, the
    input and the timestamp; its first argument tells the call apart from other
    calls, because generators have state. *)
Inductive serialization (payload : Type) :=
| SerializerReturns (r : result serializerError payload)
| GeneratorPanics
| SerializerOverflows.
Arguments SerializerReturns {_} _.
Arguments GeneratorPanics {_}.
Arguments SerializerOverflows {_}.

Class Codec := {
  payload : Type;
  input : Type;
  serializeModel : nat -> SchemaDescriptor -> bytes -> input -> bytes -> serialization payload;
  marshalEnvelope : bytes -> bytes -> bytes -> payload -> option bytes
}.

(** A hook answers [None] when it panics.  [valueFirst] decides a [select] in
    which several channels are ready. *)
Record environment := mkEnvironment {
  deadlineErr : nat -> bool;
  ctxErr : nat -> option contextError;
  callerErr : nat -> option contextError;
  runtimeErr : nat -> bool;
  attemptErr : nat -> bool;
  monotonicClock : nat -> option Z;
  valueFirst : nat -> bool;
  apiKeyProvider : option (nat -> option (bytes * bool));
  idempotencyKeyGenerator : nat -> option (bytes * bool);
  generatorNow : nat -> option bytes;
  retryEntropy : nat -> Z -> option Z;
  schedulerSleep : nat -> Z -> option bool;
  propagation : nat -> list HeaderField;
  transportSend : nat -> AttemptRequest -> option AttemptOutcome;
  isCommitted : nat -> bool;
  closeFails : nat -> bool
}.

(** config.go, [runtimeConfig], and [Runtime.ownsTransport]: what the operation
    reads of them. *)
Record runtimeConfig := mkConfig {
  endpoint : bytes;
  apiKey : bytes;
  connectTimeout : Z;
  attemptTimeout : Z;
  maxAttempts : Z;
  retryBaseDelay : Z;
  retryMaxDelay : Z;
  userAgentSuffix : bytes;
  timerScheduler : bool;
  ownsTransport : bool
}.

(** ** The monad *)

(** What an observer of the operation sees.  [EvOutcome] is a ghost event: it
    records what the loop knows of an attempt when it judges it. *)
Inductive event :=
| EvOperationStart
| EvStartAttempt (n : Z)
| EvSend (r : AttemptRequest)
| EvAbandon
| EvOutcome (tracker : bool) (o : AttemptOutcome)
| EvEndAttempt (e : option Error) (retryable : bool)
| EvEntropy (bound : Z)
| EvRetry (delay : Z) (last : Error)
| EvSleep (delay : Z)
| EvClose (c : nat)
| EvOperationEnd.

(** How [sendAdmitted] returns.  [Failed None] is a nil [*Error] returned as a
    non-nil [error].  [Crashed]: it does not return, because the process has ended with a
    stack overflow, which runs no deferred call. *)
Inductive final := Accepted (r : SendResult) | Failed (e : option Error) | Panicked | Crashed.

Record world := mkWorld {
  tick : nat;
  trace : list event;
  permit : operationPermit;
  state : runtimeState;
  closed : list nat
}.

Definition M (A : Type) : Type := world -> (A + final) * world.

Definition ret {A} (a : A) : M A := fun w => (inl a, w).
Definition bind {A C} (m : M A) (f : A -> M C) : M C := fun w =>
  match m w with
  | (inl a, w') => f a w'
  | (inr r, w') => (inr r, w')
  end.

Declare Scope op_scope.
Delimit Scope op_scope with op.
Notation "x ← y ; z" := (bind y (fun x => z)) : op_scope.
#[local] Open Scope op_scope.

(** Leave the function. *)
Definition leave {A} (r : final) : M A := fun w => (inr r, w).
(** Ask the environment; time passes. *)
Definition observe {A} (f : nat -> A) : M A := fun w =>
  (inl (f (tick w)), mkWorld (S (tick w)) (trace w) (permit w) (state w) (closed w)).
Definition emit (ev : event) : M unit := fun w =>
  (inl tt, mkWorld (tick w) (trace w ++ [ev]) (permit w) (state w) (closed w)).
Definition getPermit : M operationPermit := fun w => (inl (permit w), w).
Definition modPermit (f : operationPermit -> operationPermit) : M unit := fun w =>
  (inl tt, mkWorld (tick w) (trace w) (f (permit w)) (state w) (closed w)).
Definition modState (f : runtimeState -> runtimeState) : M unit := fun w =>
  (inl tt, mkWorld (tick w) (trace w) (permit w) (f (state w)) (closed w)).

(** [if terminal := m; terminal != nil { return nil, terminal }]. *)
Definition guard (m : M (option Error)) : M unit :=
  e ← m; match e with Some e => leave (Failed (Some e)) | None => ret tt end.

(** ** Small functions *)

(** operation.go, [deliveryForCommit]. *)
Definition deliveryForCommit (committed : bool) : DeliveryState :=
  if committed then DeliveryStatePossiblySent else DeliveryStateNotSent.

(** operation.go, [operationDeadlineError]. *)
Definition operationDeadlineError (committed : bool) (attempts : Z) (operationID key : bytes) : Error :=
  Error_lit ErrorCodeOperationDeadline (deliveryForCommit committed) operationID key attempts.

(** operation.go, [withResponseEvidence]. *)
Definition withResponseEvidence (terminal last : Error) : Error :=
  let '(mkError c d r o k n _ f u _ _ _ _ _ v g ic it) := terminal in
  mkError c d r o k n (Error_HTTPStatus last) f u (Error_CompressedBytes last)
    (Error_DecompressedBytes last) (Error_ResponseHeaderFields last)
    (Error_ResponseHeaderBytes last) (Error_Truncated last) v g ic it.

(** operation.go, [attemptResponseEvidence]. *)
Definition attemptResponseEvidence (r : AttemptResponse) : Error :=
  mkError ErrorCodeNone DeliveryStateNone false [] [] 0 (Status r) FailureReasonNone CauseCategoryNone
    (CompressedBytes r) (DecompressedBytes r) 0 0 (Truncated r) [] [] 0 false.

(** operation.go, [preCommitFailure]. *)
Definition preCommitFailure (code : ErrorCode) : bool :=
  (code ==? ErrorCodeDNS) || (code ==? ErrorCodeConnect) || (code ==? ErrorCodeProxy) ||
  (code ==? ErrorCodeTLS).

(** operation.go, [classifyAttemptFailure]. *)
Definition classifyAttemptFailure (failure : option AttemptFailure) (committed : bool) : Error :=
  let failure := default (mkFailure ErrorCodeIO FailureReasonNone committed CauseCategoryNone) failure in
  let st := if committed || Failure_Committed failure then DeliveryStatePossiblySent
            else DeliveryStateNotSent in
  let code := Failure_Code failure in
  let retryable :=
    (code ==? ErrorCodeDNS) || (code ==? ErrorCodeConnect) || (code ==? ErrorCodeIO) ||
    (code ==? ErrorCodeAttemptTimeout) ||
    ((code ==? ErrorCodeProxy) &&
     negb (Failure_FailureReason failure ==? FailureReasonProxyAuthRequired)) in
  mkError code st retryable [] [] 0 0 (Failure_FailureReason failure) (Failure_causeCategory failure)
    0 0 0 0 false [] [] 0 false.

(** operation.go, [validAttemptFailure]. *)
Definition validAttemptFailure (failure : option AttemptFailure) : bool :=
  match failure with
  | None => false
  | Some f =>
    match Failure_Code f with
    | ErrorCodeConfiguration => Failure_causeCategory f ==? CauseCategoryProxyCredentialProvider
    | ErrorCodeDNS | ErrorCodeConnect | ErrorCodeProxy | ErrorCodeTLS | ErrorCodeIO
    | ErrorCodeAttemptTimeout | ErrorCodeCancelled => true
    | _ => false
    end
  end.

(** operation.go, [validAttemptResponseShape]. *)
Definition validAttemptResponseShape (r : AttemptResponse) : bool :=
  match Headers r, Body r with
  | Some headers, Some _ =>
    if (Status r <? 100) || (599 <? Status r) || (CompressedBytes r <? 0) ||
       (DecompressedBytes r <? 0) ||
       (negb (attemptFailureCode r ==? ErrorCodeNone) &&
        negb (attemptFailureCode r ==? ErrorCodeAttemptTimeout)) then false
    else
      let hasHeaderTime := negb (HeadersReceivedAt r =? zeroTime) in
      let needsHeaderTime := responseNeedsWallSnapshotForStatus (Status r) headers in
      negb (negb (eqb (HeadersReceivedAtSet r) hasHeaderTime) ||
            (HeaderClockFailed r && (HeadersReceivedAtSet r || hasHeaderTime)) ||
            ((HeadersReceivedAtSet r || HeaderClockFailed r) && negb needsHeaderTime) ||
            (needsHeaderTime && negb (HeadersReceivedAtSet r) && negb (HeaderClockFailed r)))
  | _, _ => false
  end.

(** operation.go, [validIdempotencyKey]. *)
Definition validIdempotencyKey (v : bytes) : bool :=
  match v with
  | [] => false
  | c :: _ =>
    if (255 <? len v) || (c =? 32) || (List.last v 0 =? 32) then false
    else forallb (fun it => between 32 (start_byte it) 126) (range v)
  end.

(** config.go, [validCredential]. *)
Definition validCredential (v : bytes) : bool :=
  if (v ==? []) || (4096 <? len v) then false
  else forallb (fun c => between 32 c 126) v && existsb (fun c => negb (c =? 32)) v.

(** version.go, [Version]; operation.go, [operationUserAgent]. *)
Definition Version : bytes := B "0.3.0".
Definition operationUserAgent (suffix : bytes) : bytes :=
  if suffix ==? [] then B "repost-client-go/" ++ Version
  else B "repost-client-go/" ++ Version ++ B " " ++ suffix.

(** operation.go, [validOperationID]: the loop over [value[3:]]. *)
Fixpoint uuid_shape (i : nat) (s : list range_item) : bool :=
  match s with
  | [] => true
  | it :: s' =>
    (if existsb (Nat.eqb i) [8; 13; 18; 23]%nat then rune it =? 45
     else negb ((rune it <? 48) || ((57 <? rune it) && (rune it <? 97)) || (102 <? rune it))) &&
    uuid_shape (S i) s'
  end.
Definition validOperationID (v : bytes) : bool :=
  if negb (len v =? 39) || negb (HasPrefix v (B "op_")) then false
  else uuid_shape 0 (range (drop 3 v)) &&
       (nth 17 v 0 =? 52) && existsb (Z.eqb (nth 22 v 0)) (B "89ab").

(** operation.go, [setAttemptCause]. *)
Definition setAttemptCause (owns : bool) (e : Error) : Error :=
  if negb (Error_CauseCategory e ==? CauseCategoryNone) then e
  else set_CauseCategory (if owns then CauseCategoryHTTPRuntime else CauseCategoryCustomTransport) e.

(** operation.go, [callAPIKeyProvider] and [callIdempotencyGenerator]: a panic and
    an error are the same. *)
Definition callStringHook (r : option (bytes * bool)) : bytes * bool :=
  match r with None => ([], false) | Some (v, noErr) => (v, noErr) end.
(** operation.go, [callGenerator]. *)
Definition callGenerator (r : option bytes) : bytes * bool :=
  match r with None => ([], false) | Some v => (v, true) end.
(** operation.go, [sampleRetryEntropy]: value, ok, panicked. *)
Definition sampleRetryEntropy (r : option Z) (bound : Z) : Z * bool * bool :=
  match r with
  | None => (0, false, true)
  | Some v => (v, (0 <=? v) && (v <? bound), false)
  end.
(** operation.go, [callScheduler]: ok, and whether an error came back. *)
Definition callScheduler (r : option bool) : bool * bool :=
  match r with None => (false, false) | Some err => (true, err) end.

(** [time.Duration.Milliseconds]. *)
Definition Milliseconds (d : Z) : Z := Z.quot d 1000000.

(** operation.go, [backoff], lines 465 to 471: doubling with a ceiling. *)
Fixpoint doubleCap (n : nat) (cap maximum : Z) : Z :=
  match n with
  | O => cap
  | S n => if maximum - cap <? cap then maximum else doubleCap n (cap * 2) maximum
  end.

(** ** The operation *)
Section operation.
Context {K : Codec} (E : environment) (C : runtimeConfig).

(** operation.go, [callMonotonicClock]. *)
Definition callMonotonicClock : M (option Z) := observe (monotonicClock E).

(** operation.go, [preAttemptTerminal]. *)
Definition preAttemptTerminal (committed : bool) (attempts : Z) (operationID key : bytes)
    : M (option Error) :=
  let deadline := Some (operationDeadlineError committed attempts operationID key) in
  let interrupted code :=
    Some (Error_lit code
      (if committed then DeliveryStateCancelledUnknown else DeliveryStateNotSent)
      operationID key attempts) in
  d ← observe (deadlineErr E);
  if d then ret deadline
  else
    c ← observe (ctxErr E);
    o ← observe (callerErr E);
    if (c ==? Some DeadlineExceeded) || (o ==? Some DeadlineExceeded) then ret deadline
    else
      r ← observe (runtimeErr E);
      if r then ret (interrupted ErrorCodeClosed)
      else
        c ← observe (ctxErr E);
        o ← observe (callerErr E);
        if negb (c ==? None) || negb (o ==? None) then ret (interrupted ErrorCodeCancelled)
        else
          now ← callMonotonicClock;
          p ← getPermit;
          ret match now with
          | None => Some (hookConfigurationError (deliveryForCommit committed) operationID key attempts
                            ClientOptionKeyMonotonicClock CauseCategoryUnknown)
          | Some now => if exclusiveDeadline p <=? now then deadline else None
          end.

(** operation.go, [deadlineTerminal]. *)
Definition deadlineTerminal (committed : bool) (attempts : Z) (operationID key : bytes)
    : M (option Error) :=
  let deadline := Some (operationDeadlineError committed attempts operationID key) in
  d ← observe (deadlineErr E);
  if d then ret deadline
  else
    now ← callMonotonicClock;
    p ← getPermit;
    ret match now with
    | None => Some (hookConfigurationError (deliveryForCommit committed) operationID key attempts
                      ClientOptionKeyMonotonicClock CauseCategoryUnknown)
    | Some now => if exclusiveDeadline p <=? now then deadline else None
    end.

(** operation.go, [boundedPermitCall]; [None] when the call did not complete.  The
    call keeps its share of the permit until it ends.  A select in which the
    context is not done takes the value. *)
Definition boundedPermitCall {A} (call : M A) : M (option A) :=
  d ← observe (deadlineErr E);
  if d then ret None
  else
    _ ← modPermit beginCall;
    v ← call;
    d ← observe (fun t => (deadlineErr E t, valueFirst E t));
    if d.1 && negb d.2 then ret None
    else _ ← modPermit (fun p => (endCall p).1); ret (Some v).

(** The three ways out of the selects of [boundedAttemptCall]. *)
Inductive attemptCall := NotCompleted (o : AttemptOutcome) | Completed (o : AttemptOutcome).
Definition emptyOutcome : AttemptOutcome := mkOutcome None None.

(** operation.go, [attempt]: a panic of the transport is an empty outcome. *)
Definition attempt (request : AttemptRequest) : M AttemptOutcome :=
  _ ← emit (EvSend request);
  o ← observe (fun t => transportSend E t request);
  ret (default emptyOutcome o).

(** operation.go, [boundedAttemptCall].  An abandoned call keeps its share of the
    permit and closes its response when it ends. *)
Definition boundedAttemptCall (call : M AttemptOutcome) : M attemptCall :=
  d ← observe (deadlineErr E);
  if d then ret (NotCompleted emptyOutcome)
  else
    _ ← modPermit beginCall;
    v ← call;
    s ← observe (fun t => (deadlineErr E t, attemptErr E t, valueFirst E t));
    let '(operationDone, attemptDone, first) := s in
    let abandon := _ ← emit EvAbandon; ret (NotCompleted emptyOutcome) in
    let take := modPermit (fun p => (endCall p).1) in
    if first || negb (operationDone || attemptDone) then
      _ ← take;
      a ← observe (attemptErr E);
      ret (if a then NotCompleted v else Completed v)
    else if attemptDone then
      s ← observe (fun t => (deadlineErr E t, valueFirst E t));
      if s.1 && negb s.2 then abandon else _ ← take; ret (NotCompleted v)
    else abandon.

(** response_factory.go, [attemptResponseCloser.close]: the function runs once and
    its error is kept. *)
Definition closeResponse (r : option AttemptResponse) : M bool := fun w =>
  match r with
  | Some r =>
    match closer r with
    | Some c =>
      (inl (closeFails E c),
       if bool_decide (c ∈ closed w) then w
       else mkWorld (tick w) (trace w ++ [EvClose c]) (permit w) (state w) (c :: closed w))
    | None => (inl false, w)
    end
  | None => (inl false, w)
  end.

(** [if response.close() != nil { r.state.recordResponseCloseFailure() }]. *)
Definition closeAndRecord (r : option AttemptResponse) : M unit :=
  failed ← closeResponse r;
  if failed then modState recordResponseCloseFailure else ret tt.

(** operation.go, [backoff], lines 489 to 510: the Retry-After header; [Err] is the
    configuration error of a wall clock that failed. *)
Definition retryDelay (response : option AttemptResponse) (jitter remainingMillis : Z) : result unit Z :=
  let headers := match response with Some r => headers_of r | None => [] end in
  match retryAfterValue headers with
  | None => Ok jitter
  | Some value =>
    let '(delay, valid, needsWall) := parseRetryAfterDelta value in
    let capped after := Z.max jitter
      (Z.min (Milliseconds after) (Z.min (Milliseconds retryAfterCap) remainingMillis)) in
    if needsWall then
      match response with
      | None => Ok jitter
      | Some r =>
        if negb (responseNeedsWallSnapshotForStatus (Status r) headers) then Ok jitter
        else if HeaderClockFailed r || negb (HeadersReceivedAtSet r) then Err tt
        else let '(after, valid) := parseRetryAfterDate value (HeadersReceivedAt r) in
             Ok (if valid then capped after else jitter)
      end
    else Ok (if valid then capped delay else jitter)
  end.

(** operation.go, [backoff], lines 463 to 472. *)
Definition capMillis (attempt remainingMillis : Z) : Z :=
  let maximum := Milliseconds (retryMaxDelay C) in
  Z.min (doubleCap (Z.to_nat (attempt - 1)) (Milliseconds (retryBaseDelay C)) maximum)
    (Z.min maximum remainingMillis).

(** operation.go, [callScheduler]: one sleep. *)
Definition schedulerCall (delay : Z) : M (bool * bool) :=
  _ ← emit (EvSleep delay);
  r ← observe (fun t => schedulerSleep E t delay);
  ret (callScheduler r).

(** operation.go, [backoff], lines 522 to 535: after the sleep, [None] when it did
    not complete. *)
Definition afterSleep (last : Error) (attempt : Z) (committed : bool) (s : option (bool * bool))
    : M (option Error) :=
  let operationID := Error_OperationID last in
  let key := Error_IdempotencyKey last in
  let evidence e := withResponseEvidence e last in
  match s with
  | None =>
    t ← preAttemptTerminal committed attempt operationID key;
    match t with
    | None => leave Panicked
    | Some t => ret (Some (evidence t))
    end
  | Some (ok, err) =>
    t ← preAttemptTerminal committed attempt operationID key;
    match t with
    | Some t => ret (Some (evidence t))
    | None =>
      if err || negb ok then
        t ← preAttemptTerminal committed attempt operationID key;
        ret (Some (evidence (default
          (hookConfigurationError (Error_DeliveryState last) operationID key attempt
             ClientOptionKeyScheduler CauseCategoryUnknown) t)))
      else ret None
    end
  end.

(** operation.go, [backoff], lines 511 to 535: the delay. *)
Definition backoffSleep (last : Error) (attempt : Z) (committed : bool) (delayMillis : Z)
    : M (option Error) :=
  let delay := wrap64 (delayMillis * 1000000) in
  _ ← emit (EvRetry delay last);
  s ← (if timerScheduler C then s ← schedulerCall delay; ret (Some s)
       else boundedPermitCall (schedulerCall delay));
  afterSleep last attempt committed s.

(** operation.go, [backoff]. *)
Definition backoff (last : Error) (response : option AttemptResponse) (attempt : Z)
    (committed : bool) : M (option Error) :=
  let operationID := Error_OperationID last in
  let key := Error_IdempotencyKey last in
  let evidence e := Some (withResponseEvidence e last) in
  now ← callMonotonicClock;
  p ← getPermit;
  match now with
  | None => ret (evidence (hookConfigurationError (deliveryForCommit committed) operationID key attempt
                              ClientOptionKeyMonotonicClock CauseCategoryUnknown))
  | Some now =>
    let remainingNanos := wrap64 (exclusiveDeadline p - now) in
    let remainingMillis := Milliseconds remainingNanos in
    if (remainingNanos <=? 0) || (remainingMillis <=? 0) then
      ret (evidence (operationDeadlineError committed attempt operationID key))
    else
      let cap := capMillis attempt remainingMillis in
      e ← boundedPermitCall
            (_ ← emit (EvEntropy (cap + 1)); v ← observe (fun t => retryEntropy E t (cap + 1));
             ret (sampleRetryEntropy v (cap + 1)));
      match e with
      | None => preAttemptTerminal committed attempt operationID key
      | Some (jitter, ok, panicked) =>
        if negb ok then
          ret (evidence (hookConfigurationError (Error_DeliveryState last) operationID key attempt
            ClientOptionKeyRetryEntropy (if panicked then CauseCategoryRetryEntropy else CauseCategoryNone)))
        else
          match retryDelay response jitter remainingMillis with
          | Err _ =>
            ret (evidence (hookConfigurationError (Error_DeliveryState last) operationID key attempt
                              ClientOptionKeyWallClock CauseCategoryUnknown))
          | Ok delayMillis => backoffSleep last attempt committed delayMillis
          end
      end
  end.

(** webhooks.go, [SendInput]. *)
Record SendInput := mkSendInput {
  Input_CustomerID : bytes;
  Input_IdempotencyKey : bytes;
  Input_Data : input
}.

(** What the preparation hands to the attempt loop. *)
Record prepared := mkPrepared {
  prepared_event : EventDescriptor;
  prepared_apiKey : bytes;
  prepared_key : bytes;
  prepared_now : bytes;
  prepared_body : bytes
}.

(** [value, completed := boundedPermitCall(...)], [if !completed { return nil,
    r.preAttemptTerminal(...) }] and the terminal check that follows. *)
Definition hookValue {A} (v : option A) (operationID key : bytes) : M A :=
  match v with
  | None => e ← preAttemptTerminal false 0 operationID key; leave (Failed e)
  | Some v => _ ← guard (preAttemptTerminal false 0 operationID key); ret v
  end.
Definition boundedHook {A} (call : M A) (operationID key : bytes) : M A :=
  v ← boundedPermitCall call; hookValue v operationID key.

Definition failWith {A} (e : Error) : M A := leave (Failed (Some e)).

(** operation.go, [sendAdmitted], lines 54 to 82: the credential. *)
Definition resolveAPIKey (operationID : bytes) : M bytes :=
  match apiKeyProvider E with
  | Some provider =>
    _ ← guard (preAttemptTerminal false 0 operationID []);
    v ← boundedHook (r ← observe provider; ret (callStringHook r)) operationID [];
    let '(value, ok) := v in
    if negb ok then
      c ← observe (ctxErr E);
      if negb (c ==? None) then
        failWith (set_OperationID operationID (cancelledError DeliveryStateNotSent))
      else failWith (hookConfigurationError DeliveryStateNotSent operationID [] 0
                       ClientOptionKeyAPIKeyProvider CauseCategoryAPIKeyProvider)
    else if negb (validCredential value) then
      failWith (set_OperationID operationID
        (configurationError ConfigurationIssueCodeInvalidValue [ClientOptionKeyAPIKeyProvider]))
    else ret value
  | None =>
    if apiKey C ==? [] then
      failWith (set_OperationID operationID
        (configurationError ConfigurationIssueCodeMissing [ClientOptionKeyAPIKey]))
    else ret (apiKey C)
  end.

(** operation.go, [sendAdmitted], lines 87 to 121: the idempotency key. *)
Definition resolveIdempotencyKey (operationID callerKey : bytes) : M bytes :=
  key ← (if callerKey ==? [] then
           _ ← guard (preAttemptTerminal false 0 operationID []);
           v ← boundedHook (r ← observe (idempotencyKeyGenerator E); ret (callStringHook r)) operationID [];
           let '(value, ok) := v in
           if negb ok then
             failWith (hookConfigurationError DeliveryStateNotSent operationID [] 0
                         ClientOptionKeyIdempotencyKeyGenerator CauseCategoryIdempotencyGenerator)
           else ret value
         else ret callerKey);
  if validIdempotencyKey key then ret key
  else if negb (callerKey ==? []) then
    failWith (mkError ErrorCodeValidation DeliveryStateNotSent false operationID [] 0 0 FailureReasonNone
      CauseCategoryNone 0 0 0 0 false
      [mkValidationIssue (if 255 <? len key then ValidationIssueCodeCollectionLimit
                          else ValidationIssueCodeInvalidUnicode) (B "$")] [] 0 false)
  else failWith (set_OperationID operationID
    (configurationError ConfigurationIssueCodeInvalidValue [ClientOptionKeyIdempotencyKeyGenerator])).

(** operation.go, [serializeOperation]. *)
Definition serializeOperation (schema : SchemaDescriptor) (model : bytes) (data : input) (now : bytes)
    : M (serialization payload) :=
  observe (fun t => serializeModel t schema model data now).

(** The same as [boundedHook]; a serializer that overflows the stack ends the process,
    unless the deadline lets the operation return before. *)
Definition boundedSerialization (call : M (serialization payload)) (operationID key : bytes) : M (serialization payload) :=
  v ← boundedPermitCall call;
  match v with Some SerializerOverflows => leave Crashed | _ => hookValue v operationID key end.

(** operation.go, [sendAdmitted], lines 39 to 185: everything before the first
    attempt. *)
Definition prepare (operationID : bytes) (schema : SchemaDescriptor) (group member : bytes)
    (inp : SendInput) : M prepared :=
  _ ← match ValidateSchemaDescriptor schema with
      | None => ret tt
      | Some _ =>
        failWith (set_OperationID operationID (operationError
          (if negb (FormatVersion schema =? DescriptorFormatVersion) then ErrorCodeDescriptorVersion
           else ErrorCodeConfiguration)))
      end;
  let unknown := failWith (set_OperationID operationID (operationError ErrorCodeConfiguration)) in
  event ← match Webhooks schema !! group with
          | None => unknown
          | Some members => match members !! member with None => unknown | Some e => ret e end
          end;
  credential ← resolveAPIKey operationID;
  _ ← guard (preAttemptTerminal false 0 operationID []);
  key ← resolveIdempotencyKey operationID (Input_IdempotencyKey inp);
  let terminal := guard (preAttemptTerminal false 0 operationID key) in
  _ ← terminal;
  generated ← boundedHook (r ← observe (generatorNow E); ret (callGenerator r)) operationID key;
  let '(operationNow, ok) := generated in
  let generatorFailed {A} : M A :=
    failWith (hookConfigurationError DeliveryStateNotSent operationID key 0
                ClientOptionKeyDefaultValueGenerators CauseCategoryDefaultGenerator) in
  if negb ok then generatorFailed
  else
    _ ← terminal;
    serialized ← boundedSerialization (serializeOperation schema (EventModel event) (Input_Data inp) operationNow)
                   operationID key;
    match serialized with
    | SerializerOverflows => leave Crashed
    | GeneratorPanics => generatorFailed
    | SerializerReturns (Err err) => failWith (serializerOperationError err operationID key)
    | SerializerReturns (Ok data) =>
      _ ← terminal;
      marshaled ← boundedHook (ret (marshalEnvelope (Input_CustomerID inp) (EventType event) operationNow data))
                    operationID key;
      match marshaled with
      | None => failWith (Error_lit ErrorCodeSerialization DeliveryStateNotSent operationID key 0)
      | Some body =>
        if maxPayloadBytes <? len body then
          failWith (Error_lit ErrorCodeRequestTooLarge DeliveryStateNotSent operationID key 0)
        else
          _ ← (fun w => let '(p, s) := shrinkRequest (len body) (permit w) (state w) in
                        (inl tt, mkWorld (tick w) (trace w) p s (closed w)));
          _ ← terminal;
          ret (mkPrepared event credential key operationNow body)
      end
    end.

(** operation.go, [sendAdmitted], lines 187 to 193. *)
Definition requestHeaders (p : prepared) : list HeaderField :=
  [mkHeader (B "authorization") (B "Bearer " ++ prepared_apiKey p);
   mkHeader (B "content-type") (B "application/json");
   mkHeader (B "accept-encoding") (B "gzip");
   mkHeader (B "user-agent") (operationUserAgent (userAgentSuffix C));
   mkHeader (B "idempotency-key") (prepared_key p)].

(** operation.go, [sendAdmitted], lines 244 to 254: what this attempt adds to the
    acceptance floor. *)
Definition attemptCommitted (tracker : bool) (outcome : AttemptOutcome) : bool :=
  let c := tracker || match Outcome_Failure outcome with Some f => Failure_Committed f | None => false end in
  let c := match Outcome_Response outcome with Some r => responseMayHaveBeenAccepted (Status r) | None => c end in
  match Outcome_Failure outcome with
  | Some f => if preCommitFailure (Failure_Code f) then false else c
  | None => c
  end.

(** operation.go, [sendAdmitted], lines 255 to 257. *)
Definition malformedOutcome (o : AttemptOutcome) : bool :=
  match Outcome_Response o, Outcome_Failure o with
  | Some _, Some _ | None, None => true
  | Some r, None => negb (validAttemptResponseShape r)
  | None, Some f => negb (validAttemptFailure (Some f))
  end.

Definition endAttempt (e : Error) (retryable : bool) : M unit := emit (EvEndAttempt (Some e) retryable).

(** [observability.endAttempt(e, false); return nil, e]. *)
Definition endWith {A} (e : Error) : M A := _ ← endAttempt e false; failWith e.

(** operation.go, [sendAdmitted], lines 299 to 307 and 317 to 324: fail, or delay
    and go on to the next attempt with the given acceptance floor. *)
Definition retryOrFail (last : Error) (response : option AttemptResponse) (n : Z) (committed : bool)
    : M bool :=
  if negb (Error_Retryable last) || (n =? maxAttempts C) then endWith last
  else
    _ ← endAttempt last true;
    e ← backoff last response n committed;
    match e with Some e => failWith e | None => ret committed end.

(** operation.go, [sendAdmitted], lines 272 to 308: a well-formed response. *)
Definition handleResponse (operationID : bytes) (p : prepared) (customerID : bytes) (n : Z)
    (committedBefore committed : bool) (r : AttemptResponse) : M bool :=
  let validated := validateAttemptResponse r (EventType (prepared_event p)) customerID (prepared_now p) in
  _ ← closeAndRecord (Some r);
  match validated with
  | Ok result =>
    t ← deadlineTerminal committed n operationID (prepared_key p);
    match t with
    | Some t => endWith (withResponseEvidence t (attemptResponseEvidence r))
    | None => _ ← emit (EvEndAttempt None false); leave (Accepted result)
    end
  | Err e =>
    let e := set_identity operationID (prepared_key p) n e in
    let e := if Status r =? statusProxyAuthRequired then setAttemptCause (ownsTransport C) e else e in
    let e := if committedBefore && ((Error_Code e ==? ErrorCodeProxy) ||
                                    (Error_DeliveryState e ==? DeliveryStateRejected))
             then set_DeliveryState DeliveryStatePossiblySent e else e in
    t ← preAttemptTerminal committed n operationID (prepared_key p);
    match t with
    | Some t => endWith (withResponseEvidence t e)
    | None => retryOrFail e (Some r) n committed
    end
  end.

(** operation.go, [sendAdmitted], lines 310 to 324: a well-formed failure. *)
Definition handleFailure (operationID : bytes) (p : prepared) (n : Z) (committed : bool)
    (f : option AttemptFailure) : M bool :=
  let e := set_identity operationID (prepared_key p) n
             (setAttemptCause (ownsTransport C) (classifyAttemptFailure f committed)) in
  t ← preAttemptTerminal committed n operationID (prepared_key p);
  match t with
  | Some t => endWith t
  | None => retryOrFail e None n committed
  end.

(** operation.go, [sendAdmitted], lines 240 to 324: the outcome of an attempt. *)
Definition handleOutcome (operationID : bytes) (p : prepared) (customerID : bytes) (n : Z)
    (committedBefore tracker : bool) (outcome : AttemptOutcome) : M bool :=
  let outcome := mkOutcome (snapshotAttemptResponse (Outcome_Response outcome)) (Outcome_Failure outcome) in
  _ ← match Outcome_Response outcome with
      | Some r => if headerLimitViolation r then modState recordResponseHeaderLimitFailure else ret tt
      | None => ret tt
      end;
  _ ← emit (EvOutcome tracker outcome);
  let committed := committedBefore || attemptCommitted tracker outcome in
  if malformedOutcome outcome then
    _ ← closeAndRecord (Outcome_Response outcome);
    endWith (mkError ErrorCodeIO DeliveryStatePossiblySent false operationID (prepared_key p) n 0
      FailureReasonUnknown
      (if ownsTransport C then CauseCategoryHTTPRuntime else CauseCategoryCustomTransport)
      0 0 0 0 false [] [] 0 false)
  else match Outcome_Response outcome with
       | Some r => handleResponse operationID p customerID n committedBefore committed r
       | None => handleFailure operationID p n committed (Outcome_Failure outcome)
       end.

(** operation.go, [sendAdmitted], lines 195 to 325: one turn of the loop. *)
Definition attemptTurn (operationID : bytes) (p : prepared) (customerID : bytes) (n : Z)
    (committed : bool) : M bool :=
  let terminal := guard (preAttemptTerminal committed (n - 1) operationID (prepared_key p)) in
  _ ← terminal;
  now ← callMonotonicClock;
  _ ← terminal;
  match now with
  | None => failWith (hookConfigurationError (deliveryForCommit committed) operationID (prepared_key p) (n - 1)
                        ClientOptionKeyMonotonicClock CauseCategoryUnknown)
  | Some now =>
    pm ← getPermit;
    let remaining := wrap64 (exclusiveDeadline pm - now) in
    let attemptBudget := Z.min (attemptTimeout C) remaining in
    _ ← emit (EvStartAttempt n);
    propagated ← observe (propagation E);
    let request := mkRequest operationID (endpoint C) (requestHeaders p ++ propagated) (prepared_body p) n
                     (connectTimeout C) attemptBudget in
    o ← boundedAttemptCall (attempt request);
    match o with
    | Completed outcome =>
      tracker ← observe (isCommitted E);
      handleOutcome operationID p customerID n committed tracker outcome
    | NotCompleted outcome =>
      _ ← closeAndRecord (Outcome_Response outcome);
      c ← observe (isCommitted E);
      t ← preAttemptTerminal (committed || c) n operationID (prepared_key p);
      match t with
      | Some t => _ ← emit (EvOutcome c emptyOutcome); endWith t
      | None =>
        c ← observe (isCommitted E);
        tracker ← observe (isCommitted E);
        handleOutcome operationID p customerID n committed tracker
          (mkOutcome None (Some (mkFailure ErrorCodeAttemptTimeout FailureReasonNone c CauseCategoryNone)))
      end
    end
  end.

(** The loop from attempt [n]; [fuel] counts the attempts left. *)
Fixpoint attemptLoop (fuel : nat) (operationID : bytes) (p : prepared) (customerID : bytes) (n : Z)
    (committed : bool) : M SendResult :=
  match fuel with
  | O => leave Panicked
  | S fuel =>
    c ← attemptTurn operationID p customerID n committed;
    attemptLoop fuel operationID p customerID (n + 1) c
  end.

(** [defer]: the operation's end is observed however it ends, but for a crash. *)
Definition deferEnd {A} (m : M A) : M A := fun w =>
  match m w with
  | (inr Crashed, w) => (inr Crashed, w)
  | (r, w) => (r, mkWorld (tick w) (trace w ++ [EvOperationEnd]) (permit w) (state w) (closed w))
  end.

(** operation.go, [sendAdmitted]. *)
Definition sendAdmitted (operationID : bytes) (schema : SchemaDescriptor) (group member : bytes)
    (inp : SendInput) : M SendResult :=
  _ ← guard (preAttemptTerminal false 0 operationID []);
  _ ← emit EvOperationStart;
  deferEnd
    (p ← prepare operationID schema group member inp;
     attemptLoop (Z.to_nat (maxAttempts C)) operationID p (Input_CustomerID inp) 1 false).

End operation.

(** ** Reasoning in the monad *)

Definition wp {A} (m : M A) (Q : A -> world -> Prop) (R : final -> world -> Prop) (w : world) : Prop :=
  match m w with
  | (inl a, w') => Q a w'
  | (inr r, w') => R r w'
  end.

Lemma wp_bind {A C} (m : M A) (f : A -> M C) Q R w :
  wp m (fun a => wp (f a) Q R) R w -> wp (bind m f) Q R w.
Proof. unfold wp, bind. by destruct (m w) as [[a|r] w']. Qed.

Lemma wp_mono {A} (m : M A) (Q Q' : A -> world -> Prop) (R R' : final -> world -> Prop) w :
  wp m Q R w -> (forall a w', Q a w' -> Q' a w') -> (forall r w', R r w' -> R' r w') -> wp m Q' R' w.
Proof. unfold wp. destruct (m w) as [[a|r] w']; eauto. Qed.

(** Time has passed and nothing was traced. *)
Definition calm (w w' : world) : Prop := (tick w <= tick w')%nat /\ trace w' = trace w.

#[export] Instance calm_refl : Reflexive calm.
Proof. by split. Qed.
#[export] Instance calm_trans : Transitive calm.
Proof. intros a b c [H1 H2] [H3 H4]. split; [lia|congruence]. Qed.

(** Time has passed and [evs] was traced. *)
Definition traced (evs : list event) (w w' : world) : Prop :=
  (tick w <= tick w')%nat /\ trace w' = trace w ++ evs.

Lemma traced_calm w w' : calm w w' <-> traced [] w w'.
Proof. unfold calm, traced. by rewrite app_nil_r. Qed.
Lemma traced_trans a b w1 w2 w3 : traced a w1 w2 -> traced b w2 w3 -> traced (a ++ b) w1 w3.
Proof. intros [H1 H2] [H3 H4]. split; [lia|]. by rewrite H4, H2, app_assoc. Qed.
Lemma calm_traced a w1 w2 w3 : calm w1 w2 -> traced a w2 w3 -> traced a w1 w3.
Proof. intros H1%traced_calm H2. by apply (traced_trans [] a w1 w2 w3). Qed.
Lemma traced_calm_r a w1 w2 w3 : traced a w1 w2 -> calm w2 w3 -> traced a w1 w3.
Proof. intros H1 H2%traced_calm. rewrite <- (app_nil_r a). by eapply traced_trans. Qed.

Lemma wp_observe {A} (f : nat -> A) Q R w :
  (forall w', calm w w' -> (tick w < tick w')%nat -> Q (f (tick w)) w') -> wp (observe f) Q R w.
Proof. intros H. apply H; cbn; [|lia]. split; cbn; [lia|done]. Qed.

Lemma wp_emit ev Q R w :
  (forall w', traced [ev] w w' -> Q tt w') -> wp (emit ev) Q R w.
Proof. intros H. apply H. by split. Qed.

Lemma wp_modPermit f (Q : unit -> world -> Prop) R w : (forall w', calm w w' -> Q tt w') -> wp (modPermit f) Q R w.
Proof. intros H. apply H. by split. Qed.
Lemma wp_modState f (Q : unit -> world -> Prop) R w : (forall w', calm w w' -> Q tt w') -> wp (modState f) Q R w.
Proof. intros H. apply H. by split. Qed.
Lemma wp_getPermit (Q : operationPermit -> world -> Prop) R w : Q (permit w) w -> wp getPermit Q R w.
Proof. done. Qed.
Lemma wp_ret {A} (a : A) (Q : A -> world -> Prop) R w : Q a w -> wp (ret a) Q R w.
Proof. done. Qed.
Lemma wp_leave {A} r (Q : A -> world -> Prop) (R : final -> world -> Prop) w : R r w -> wp (leave r) Q R w.
Proof. done. Qed.

Lemma wp_guard m (Q : unit -> world -> Prop) (R : final -> world -> Prop) w :
  wp m (fun e w' => match e with Some e => R (Failed (Some e)) w' | None => Q tt w' end) R w ->
  wp (guard m) Q R w.
Proof.
  intros H. apply wp_bind. eapply wp_mono; [exact H| |done]. intros [e|] w' He; [by apply wp_leave|by apply wp_ret].
Qed.

(** ** The retry protocol

    The abstract specification of the attempt loop: which events may follow each
    other, what they may carry, and how the acceptance floor moves. *)
Module Protocol.

(** [Waiting n c]: attempt [n] may start, [c] tells whether an earlier attempt may
    have been accepted.  [Sending n c]: attempt [n] is under way.  [Judged n c]: its
    outcome is known and [c] takes it into account.  [Backing n c e]: a retry
    after attempt [n], which failed with [e], is due; [Sampled n c e]: its jitter is drawn;
    [Delayed n c d]: its delay [d] is announced.  [Ended n c]: attempt [n] was the last and
    is over. *)
Inductive phase :=
| Waiting (n : Z) (c : bool)
| Sending (n : Z) (c : bool) (sent : bool)
| Judged (n : Z) (c : bool)
| Backing (n : Z) (c : bool) (last : Error)
| Sampled (n : Z) (c : bool) (last : Error)
| Delayed (n : Z) (c : bool) (d : Z)
| Ended (n : Z) (c : bool).

Definition floor (ph : phase) : bool :=
  match ph with
  | Waiting _ c | Sending _ c _ | Judged _ c | Backing _ c _ | Sampled _ c _ | Delayed _ c _
  | Ended _ c => c
  end.

(** The attempts that were started. *)
Definition attempts (ph : phase) : Z :=
  match ph with
  | Waiting n _ => n - 1
  | Sending n _ _ | Judged n _ | Backing n _ _ | Sampled n _ _ | Delayed n _ _ | Ended n _ => n
  end.

(** Attempts that were started and not yet ended. *)
Definition pending (ph : phase) : Z :=
  match ph with Sending _ _ _ | Judged _ _ => 1 | _ => 0 end.

(** The delay of a retry, in nanoseconds: whole milliseconds up to the larger of
    the configured maximum and the Retry-After cap. *)
Definition delay_ok (C : runtimeConfig) (d : Z) : Prop :=
  exists ms, d = ms * 1000000 /\
    0 <= ms <= Z.max (Milliseconds (retryMaxDelay C)) (Milliseconds retryAfterCap).

(** Attempt [n] carries the prepared body and headers, whatever the attempt. *)
Definition request_ok (E : environment) (C : runtimeConfig) (operationID : bytes) (p : prepared) (n : Z)
    (r : AttemptRequest) : Prop :=
  Request_OperationID r = operationID /\ Request_APIURL r = endpoint C /\
  Request_Body r = prepared_body p /\ Request_AttemptNumber r = n /\
  Request_AttemptTimeout r <= attemptTimeout C /\
  exists t, Request_Headers r = requestHeaders C p ++ propagation E t.

Section protocol.
Context (E : environment) (C : runtimeConfig) (operationID : bytes) (p : prepared).

Inductive move : phase -> event -> phase -> Prop :=
| move_start n c : n <= maxAttempts C -> move (Waiting n c) (EvStartAttempt n) (Sending n c false)
| move_send n c r : request_ok E C operationID p n r -> move (Sending n c false) (EvSend r) (Sending n c true)
| move_abandon n c : move (Sending n c true) EvAbandon (Sending n c true)
| move_close_early n c s k : move (Sending n c s) (EvClose k) (Sending n c s)
| move_outcome n c s t o :
    move (Sending n c s) (EvOutcome t o) (Judged n (c || attemptCommitted t o))
| move_close n c k : move (Judged n c) (EvClose k) (Judged n c)
| move_end n c e : move (Judged n c) (EvEndAttempt e false) (Ended n c)
| move_retry n c e :
    Error_Retryable e = true -> Error_AttemptCount e = n -> n < maxAttempts C ->
    move (Judged n c) (EvEndAttempt (Some e) true) (Backing n c e)
| move_entropy n c e b :
    1 <= b <= Milliseconds (retryMaxDelay C) + 1 -> move (Backing n c e) (EvEntropy b) (Sampled n c e)
| move_delay n c d e : delay_ok C d -> move (Sampled n c e) (EvRetry d e) (Delayed n c d)
| move_sleep n c d : delay_ok C d -> move (Delayed n c d) (EvSleep d) (Waiting (n + 1) c).

Inductive run : phase -> list event -> phase -> Prop :=
| run_nil ph : run ph [] ph
| run_cons ph ev ph' evs ph'' : move ph ev ph' -> run ph' evs ph'' -> run ph (ev :: evs) ph''.

Lemma run_app a b ph ph' ph'' : run ph a ph' -> run ph' b ph'' -> run ph (a ++ b) ph''.
Proof. induction 1; cbn; [done|]. econstructor; eauto. Qed.

Lemma run_one ph ev ph' : move ph ev ph' -> run ph [ev] ph'.
Proof. intros H. econstructor; [done|constructor]. Qed.
End protocol.

(** *** What a run says about its events *)

Definition sent (evs : list event) : list AttemptRequest :=
  omap (fun ev => match ev with EvSend r => Some r | _ => None end) evs.
Definition starts (evs : list event) : Z :=
  len (List.filter (fun ev => match ev with EvStartAttempt _ => true | _ => false end) evs).
Definition finishes (evs : list event) : Z :=
  len (List.filter (fun ev => match ev with EvEndAttempt _ _ => true | _ => false end) evs).
(** The codes of failures that come before a request is written. *)
Definition beforeCommit : list ErrorCode := [ErrorCodeDNS; ErrorCodeConnect; ErrorCodeProxy; ErrorCodeTLS].

(** An attempt that the server may have accepted, by what is known of it: [tracker] tells
    whether a byte of the request may have been written.  A response leaves acceptance
    open when it is a success, a conflict or a failure of the server; without one, what
    counts is whether the request may have been written, but a failure with one of the
    codes above is taken as proof that it was not, whatever the transport says. *)
Inductive acceptancePossible (tracker : bool) : AttemptOutcome -> Prop :=
| possible_response r f : 200 <= Status r < 300 \/ Status r = 409 \/ 500 <= Status r ->
    (forall x, f = Some x -> Failure_Code x ∉ beforeCommit) -> acceptancePossible tracker (mkOutcome (Some r) f)
| possible_failure f : tracker = true \/ Failure_Committed f = true -> Failure_Code f ∉ beforeCommit ->
    acceptancePossible tracker (mkOutcome None (Some f))
| possible_nothing : tracker = true -> acceptancePossible tracker (mkOutcome None None).

Lemma preCommitFailure_codes code : preCommitFailure code = true <-> code ∈ beforeCommit.
Proof.
  unfold preCommitFailure, beforeCommit. rewrite !orb_true_iff, !eqb_true. set_solver.
Qed.
Lemma acceptancePossible_committed tracker o : acceptancePossible tracker o -> attemptCommitted tracker o = true.
Proof.
  intros [r f Hs Hf|f Ht Hf|Ht]; unfold attemptCommitted; cbn.
  - assert (responseMayHaveBeenAccepted (Status r) = true) as ->.
    { unfold responseMayHaveBeenAccepted, statusConflict. destruct Hs as [?|[?|?]]; zlia. }
    destruct f as [f|]; [|done]. destruct (preCommitFailure (Failure_Code f)) eqn:E; [|done].
    apply preCommitFailure_codes in E. by destruct (Hf f eq_refl).
  - destruct (preCommitFailure (Failure_Code f)) eqn:E; [by apply preCommitFailure_codes in E|]. destruct Ht as [-> | ->]; [done|apply orb_true_r].
  - by rewrite Ht.
Qed.

(** The same, as the code adds it up. *)
Definition raised (evs : list event) : bool :=
  existsb (fun ev => match ev with EvOutcome t o => attemptCommitted t o | _ => false end) evs.

(** The lowest number a request of a later event may carry. *)
Definition next_number (ph : phase) : Z :=
  match ph with
  | Waiting n _ | Sending n _ false => n
  | Sending n _ true | Judged n _ | Backing n _ _ | Sampled n _ _ | Delayed n _ _ | Ended n _ => n + 1
  end.

Section runs.
Context (E : environment) (C : runtimeConfig) (operationID : bytes) (p : prepared).
Abbreviation run := (run E C operationID p).

Lemma run_starts ph evs ph' : run ph evs ph' -> attempts ph' = attempts ph + starts evs.
Proof.
  induction 1 as [ph|ph ev ph1 evs ph2 Hm _ IH]; [unfold starts, len; cbn; lia|].
  rewrite IH. unfold starts, len. inversion Hm; subst; cbn; lia.
Qed.

Lemma run_finishes ph evs ph' : run ph evs ph' -> pending ph' + finishes evs = pending ph + starts evs.
Proof.
  induction 1 as [ph|ph ev ph1 evs ph2 Hm _ IH]; [unfold starts, finishes, len; cbn; lia|].
  unfold starts, finishes, len in *. inversion Hm; subst; cbn in *; lia.
Qed.

Lemma run_floor ph evs ph' : run ph evs ph' -> floor ph' = floor ph || raised evs.
Proof.
  induction 1 as [ph|ph ev ph1 evs ph2 Hm _ IH]; [cbn; by rewrite orb_false_r|].
  rewrite IH. inversion Hm; subst; cbn; try done. by rewrite orb_assoc.
Qed.

Lemma run_attempts ph evs ph' :
  run ph evs ph' -> attempts ph <= maxAttempts C -> attempts ph' <= maxAttempts C.
Proof. induction 1 as [ph|ph ev ph1 evs ph2 Hm _ IH]; [done|]. intros H. apply IH. inversion Hm; subst; cbn in *; lia. Qed.

Lemma run_sent ph evs ph' : run ph evs ph' ->
  StronglySorted Z.lt (map Request_AttemptNumber (sent evs)) /\
  Forall (fun r => request_ok E C operationID p (Request_AttemptNumber r) r /\
    next_number ph <= Request_AttemptNumber r <= attempts ph') (sent evs).
Proof.
  induction 1 as [ph|ph ev ph1 evs ph2 Hm Hr [IHs IHf]]; [split; constructor|].
  assert (attempts ph1 <= attempts ph2) as Hle by (rewrite (run_starts _ _ _ Hr); unfold starts, len; lia).
  assert (next_number ph <= next_number ph1) as Hn by (inversion Hm; subst; cbn; repeat case_match; lia).
  assert (Forall (fun r => request_ok E C operationID p (Request_AttemptNumber r) r /\
    next_number ph <= Request_AttemptNumber r <= attempts ph2) (sent evs)) as Hf
    by (eapply Forall_impl; [exact IHf|]; cbn; intros r [? ?]; split; [done|lia]).
  inversion Hm as [|n c r Hok| | | | | | | | |]; subst; try done. change (sent (EvSend r :: evs)) with (r :: sent evs).
  pose proof Hok as (_ & _ & _ & Hnum & _). cbn in Hn, Hle. split.
  - cbn. constructor; [done|]. apply Forall_map. eapply Forall_impl; [exact IHf|]. cbn. lia.
  - constructor; [|done]. rewrite Hnum. split; [done|]. cbn. lia.
Qed.

Lemma run_delays ph evs ph' d : run ph evs ph' -> EvSleep d ∈ evs -> delay_ok C d.
Proof.
  induction 1 as [ph|ph ev ph1 evs ph2 Hm _ IH]; [by intros ?%elem_of_nil|].
  intros [<-|H]%elem_of_cons; [by inversion Hm|by apply IH].
Qed.
End runs.

(** An error that rules out acceptance while the floor does not is dishonest. *)
Definition honest (c : bool) (e : Error) : Prop :=
  c = true -> Error_DeliveryState e <> DeliveryStateNotSent /\ Error_DeliveryState e <> DeliveryStateRejected.

(** An error of the attempt loop: honest, and with the identity of the operation and
    the number of attempts. *)
Definition proper (c : bool) (o k : bytes) (n : Z) (e : Error) : Prop :=
  honest c e /\ Error_OperationID e = o /\ Error_IdempotencyKey e = k /\ Error_AttemptCount e = n.

Lemma proper_lit c code d o k n :
  (c = true -> d <> DeliveryStateNotSent /\ d <> DeliveryStateRejected) ->
  proper c o k n (Error_lit code d o k n).
Proof. done. Qed.
Lemma proper_evidence c o k n e last : proper c o k n e -> proper c o k n (withResponseEvidence e last).
Proof. by destruct e. Qed.
Lemma proper_hook c st o k n opt cause :
  (c = true -> st <> DeliveryStateNotSent /\ st <> DeliveryStateRejected) ->
  proper c o k n (hookConfigurationError st o k n opt cause).
Proof. done. Qed.
Lemma proper_identity c o k n e : honest c e -> proper c o k n (set_identity o k n e).
Proof. by destruct e. Qed.
Lemma delivery_floor c : c = true ->
  deliveryForCommit c <> DeliveryStateNotSent /\ deliveryForCommit c <> DeliveryStateRejected.
Proof. by intros ->. Qed.
End Protocol.
Import Protocol.

(** ** The operation follows the protocol *)
Section specification.
Context {K : Codec} (E : environment) (C : runtimeConfig).
(** A context that is done stays done. *)
Context (sticky : forall t t', (t <= t')%nat -> deadlineErr E t = true -> deadlineErr E t' = true).

(** The deadline context was seen done. *)
Definition expired (w : world) : Prop := deadlineErr E (tick w) = true.

Lemma expired_calm w w' : calm w w' -> expired w -> expired w'.
Proof. intros [H _]. by apply sticky. Qed.

(** What a terminal check may answer. *)
Definition terminal_answer (committed : bool) (o k : bytes) (n : Z) (w : world) (e : option Error) : Prop :=
  (expired w -> e <> None) /\
  (forall x, e = Some x -> proper committed o k n x /\
     Error_DeliveryState x = if committed then Error_DeliveryState x else DeliveryStateNotSent).

Lemma preAttemptTerminal_spec committed n o k Q R w :
  (forall e w', calm w w' -> terminal_answer committed o k n w e -> Q e w') ->
  wp (preAttemptTerminal E committed n o k) Q R w.
Proof.
  intros HQ. unfold preAttemptTerminal, callMonotonicClock.
  assert (forall e, proper committed o k n e /\
     Error_DeliveryState e = (if committed then Error_DeliveryState e else DeliveryStateNotSent) ->
     terminal_answer committed o k n w (Some e)) as Hsome.
  { intros e He. split; [done|]. by intros x [= <-]. }
  assert (terminal_answer committed o k n w (Some (operationDeadlineError committed n o k))) as Hd.
  { apply Hsome. split; [apply proper_lit, delivery_floor|by destruct committed]. }
  assert (forall code, terminal_answer committed o k n w (Some (Error_lit code
    (if committed then DeliveryStateCancelledUnknown else DeliveryStateNotSent) o k n))) as Hi.
  { intros code. apply Hsome. split; [apply proper_lit; by intros ->|by destruct committed]. }
  apply wp_bind, wp_observe. intros w1 H1 _. destruct (deadlineErr E (tick w)) eqn:Ed.
  { apply wp_ret, HQ; [done|]. done. }
  apply wp_bind, wp_observe. intros w2 H2 _. apply wp_bind, wp_observe. intros w3 H3 _.
  assert (calm w w3) as H03 by (etransitivity; [exact H1|]; by etransitivity). clear H1 H2 H3.
  destruct (_ || _); [by apply wp_ret, HQ|].
  apply wp_bind, wp_observe. intros w4 H4 _. destruct (runtimeErr E _).
  { apply wp_ret, HQ; [by etransitivity|]. apply Hi. }
  apply wp_bind, wp_observe. intros w5 H5 _. apply wp_bind, wp_observe. intros w6 H6 _.
  assert (calm w w6) as H06 by (etransitivity; [exact H03|]; etransitivity; [exact H4|]; by etransitivity).
  destruct (_ || _); [by apply wp_ret, HQ|].
  apply wp_bind, wp_observe. intros w7 H7 _. apply wp_bind, wp_getPermit, wp_ret, HQ; [by etransitivity|].
  destruct (monotonicClock E _) as [now|].
  - destruct (_ <=? now); [done|]. split; [|done]. unfold expired. congruence.
  - apply Hsome. split; [apply proper_hook, delivery_floor|by destruct committed].
Qed.

Lemma deadlineTerminal_spec committed n o k Q R w :
  (forall e w', calm w w' -> (forall x, e = Some x -> proper committed o k n x) -> Q e w') ->
  wp (deadlineTerminal E committed n o k) Q R w.
Proof.
  intros HQ. unfold deadlineTerminal, callMonotonicClock.
  apply wp_bind, wp_observe. intros w1 H1 _. destruct (deadlineErr E (tick w)).
  { apply wp_ret, HQ; [done|]. intros x [= <-]. apply proper_lit, delivery_floor. }
  apply wp_bind, wp_observe. intros w2 H2 _. apply wp_bind, wp_getPermit, wp_ret, HQ; [by etransitivity|].
  destruct (monotonicClock E _) as [now|]; [destruct (_ <=? now); [|done]|]; intros x [= <-];
    [apply proper_lit, delivery_floor|apply proper_hook, delivery_floor].
Qed.

(** A call that did not complete leaves the deadline behind it. *)
Lemma boundedPermitCall_spec {A} (call : M A) (Q : option A -> world -> Prop) R w :
  (forall w', calm w w' -> expired w' -> Q None w') ->
  (forall w', calm w w' -> wp call (fun v w1 =>
     (forall w2, calm w1 w2 -> Q (Some v) w2) /\ (forall w2, calm w1 w2 -> expired w2 -> Q None w2)) R w') ->
  wp (boundedPermitCall E call) Q R w.
Proof.
  intros Hearly Hcall. unfold boundedPermitCall.
  apply wp_bind, wp_observe. intros w1 H1 Ht1. destruct (deadlineErr E (tick w)) eqn:Ed.
  { apply wp_ret, Hearly; [done|]. unfold expired. apply (sticky (tick w)); [lia|done]. }
  apply wp_bind, wp_modPermit. intros w2 H2.
  apply wp_bind. eapply wp_mono; [apply Hcall; by etransitivity| |done].
  intros v w3 [Hv Hn]. apply wp_bind, wp_observe. intros w4 H4 Ht4. cbn [fst snd].
  destruct (deadlineErr E (tick w3)) eqn:Ed3; destruct (valueFirst E (tick w3)); cbn [andb negb].
  - apply wp_bind, wp_modPermit. intros w5 H5. apply wp_ret, Hv. by etransitivity.
  - apply wp_ret, Hn; [done|]. unfold expired. apply (sticky (tick w3)); [lia|done].
  - apply wp_bind, wp_modPermit. intros w5 H5. apply wp_ret, Hv. by etransitivity.
  - apply wp_bind, wp_modPermit. intros w5 H5. apply wp_ret, Hv. by etransitivity.
Qed.

(** A computation that only lets time pass, and what it answers. *)
Definition calm_call {A} (m : M A) : Prop :=
  forall Q R w, (forall v w', calm w w' -> Q v w') -> wp m Q R w.
Definition calm_gives {A} (m : M A) (P : A -> Prop) : Prop :=
  forall Q R w, (forall v w', calm w w' -> P v -> Q v w') -> wp m Q R w.
Lemma calm_call_gives {A} (m : M A) : calm_call m -> calm_gives m (fun _ => True).
Proof. intros H Q R w HQ. apply H. auto. Qed.

Lemma calm_observe {A} (f : nat -> A) : calm_call (observe f).
Proof. intros Q R w H. apply wp_observe. auto. Qed.
Lemma calm_ret {A} (a : A) : calm_call (ret a).
Proof. intros Q R w H. by apply wp_ret, H. Qed.
Lemma calm_bind {A D} (m : M A) (f : A -> M D) :
  calm_call m -> (forall a, calm_call (f a)) -> calm_call (bind m f).
Proof.
  intros Hm Hf Q R w H. apply wp_bind, Hm. intros v w1 H1. apply Hf. intros x w2 H2.
  apply H. by etransitivity.
Qed.
#[local] Hint Resolve calm_observe calm_ret calm_bind : go.

(** An error before the first attempt. *)
Definition early (o : bytes) (e : Error) : Prop :=
  Error_DeliveryState e = DeliveryStateNotSent /\ Error_OperationID e = o /\ Error_AttemptCount e = 0.

Lemma terminal_early o k w x : terminal_answer false o k 0 w (Some x) -> early o x.
Proof. intros [_ H]. destruct (H x) as [(_ & Ho & _ & Hn) Hd]; done. Qed.

(** A hook during the preparation: the value, or an early and proper error. *)
Lemma boundedHook_spec {A} (call : M A) P o k (Q : A -> world -> Prop) (R : final -> world -> Prop) w :
  calm_gives call P ->
  (forall v w', calm w w' -> P v -> Q v w') -> (forall e w', calm w w' -> early o e -> R (Failed (Some e)) w') ->
  wp (boundedHook E call o k) Q R w.
Proof.
  intros Hc HQ HR. unfold boundedHook, hookValue. apply wp_bind, boundedPermitCall_spec.
  - intros w1 H1 He. apply wp_bind, preAttemptTerminal_spec. intros e w2 H2 Ht.
    apply wp_leave. destruct e as [e|]; [|by destruct (proj1 Ht)].
    apply HR; [by etransitivity|by eapply terminal_early].
  - intros w1 H1. apply Hc. intros v w2 H2 HP. split.
    + intros w3 H3. apply wp_bind, wp_guard, preAttemptTerminal_spec. intros e w4 H4 Ht.
      assert (calm w w4) by (etransitivity; [exact H1|]; etransitivity; [exact H2|]; by etransitivity).
      destruct e; [by apply HR; [|eapply terminal_early]|]. by apply wp_ret, HQ.
    + intros w3 H3 He. apply wp_bind, preAttemptTerminal_spec. intros e w4 H4 Ht.
      assert (calm w w4) by (etransitivity; [exact H1|]; etransitivity; [exact H2|]; by etransitivity).
      apply wp_leave. destruct e as [e|]; [|by destruct (proj1 Ht)].
      apply HR; [done|by eapply terminal_early].
Qed.

(** The serializer does not end on the input of a send, for the model of its event. *)
Definition overflows (schema : SchemaDescriptor) (group member : bytes) (inp : SendInput) : Prop :=
  exists members event t now, Webhooks schema !! group = Some members /\ members !! member = Some event /\
    serializeModel t schema (EventModel event) (Input_Data inp) now = SerializerOverflows.

(** The preparation traces nothing; it ends with a request, or with an error, or with the
    process. *)
Section preparation.
Context (o : bytes) (crash : Prop).
Definition prepares {A} (m : M A) (Q : A -> Prop) : Prop :=
  forall w, wp m (fun a w' => calm w w' /\ Q a)
    (fun r w' => calm w w' /\ ((exists e, r = Failed (Some e) /\ early o e) \/ r = Crashed /\ crash)) w.

Lemma prepares_bind {A D} (m : M A) (f : A -> M D) (Qm : A -> Prop) Q :
  prepares m Qm -> (forall a, Qm a -> prepares (f a) Q) -> prepares (bind m f) Q.
Proof.
  intros Hm Hf w. apply wp_bind. eapply wp_mono; [apply Hm| |done].
  intros a w1 [H1 Ha]. eapply wp_mono; [by apply Hf| |]; intros x w2 [H2 Hx]; (split; [by etransitivity|done]).
Qed.
Lemma prepares_ret {A} (a : A) (Q : A -> Prop) : Q a -> prepares (ret a) Q.
Proof. intros H w. by apply wp_ret. Qed.
Lemma prepares_fail {A} e (Q : A -> Prop) : early o e -> prepares (failWith e) Q.
Proof. intros He w. apply wp_leave. split; [done|left; eauto]. Qed.
Lemma prepares_hook_gives {A} (call : M A) P k : calm_gives call P -> prepares (boundedHook E call o k) P.
Proof. intros H w. apply (boundedHook_spec call P); [done|auto|]. intros e w' H' He. split; [done|left; eauto]. Qed.
Lemma prepares_serialization (call : M (serialization payload)) P k : calm_gives call P -> (P SerializerOverflows -> crash) ->
  prepares (boundedSerialization E call o k) (fun v => v <> SerializerOverflows /\ P v).
Proof.
  intros Hc Hx w. unfold boundedSerialization. apply wp_bind.
  assert (forall v w', calm w w' -> (forall x, v = Some x -> P x) -> (v = None -> expired w') -> wp
    (match v with Some SerializerOverflows => leave Crashed | _ => hookValue E v o k end) (fun a w' => calm w w' /\ a <> SerializerOverflows /\ P a)
    (fun r w' => calm w w' /\ ((exists e, r = Failed (Some e) /\ early o e) \/ r = Crashed /\ crash)) w') as Hv.
  { intros v w' H' HP He. unfold hookValue. destruct v as [v|].
    - assert (v <> SerializerOverflows -> wp (bind (guard (preAttemptTerminal E false 0 o k)) (fun _ => ret v)) (fun a w' => calm w w' /\ a <> SerializerOverflows /\ P a)
        (fun r w' => calm w w' /\ ((exists e, r = Failed (Some e) /\ early o e) \/ r = Crashed /\ crash)) w') as Hg.
      { intros Hne. apply wp_bind, wp_guard, preAttemptTerminal_spec. intros [e|] w2 H2 Ht.
        - split; [by etransitivity|]. left. exists e. split; [done|by eapply terminal_early].
        - apply wp_ret. split_and!; [by etransitivity|done|by apply HP]. }
      destruct v; [by apply Hg..|]. apply wp_leave. split; [done|]. right. split; [done|]. by apply Hx, HP.
    - apply wp_bind, preAttemptTerminal_spec. intros e w2 H2 Ht. apply wp_leave. split; [by etransitivity|].
      destruct e as [e|]; [|by destruct (proj1 Ht (He eq_refl))]. left. exists e. split; [done|by eapply terminal_early]. }
  apply boundedPermitCall_spec.
  - intros w1 H1 He. by apply (Hv None).
  - intros w1 H1. apply Hc. intros v w2 H2 HP. split.
    + intros w3 H3. apply (Hv (Some v)); [etransitivity; [exact H1|]; by etransitivity|by intros x [= <-]|done].
    + intros w3 H3 He. apply (Hv None); [etransitivity; [exact H1|]; by etransitivity|done|done].
Qed.
Lemma prepares_hook {A} (call : M A) k : calm_call call -> prepares (boundedHook E call o k) (fun _ => True).
Proof. intros H. by apply prepares_hook_gives, calm_call_gives. Qed.
Lemma prepares_terminal k : prepares (guard (preAttemptTerminal E false 0 o k)) (fun _ => True).
Proof.
  intros w. apply wp_guard, preAttemptTerminal_spec. intros [e|] w' H' Ht; (split; [done|]); [|done].
  left. eauto using terminal_early.
Qed.
Lemma prepares_calm {A} (m : M A) : calm_call m -> prepares m (fun _ => True).
Proof. intros H w. apply H. auto. Qed.

(** The credential of the configuration, or one that a provider gave. *)
Definition credential_ok (key : bytes) : Prop := (key = apiKey C /\ key <> []) \/ validCredential key = true.

Lemma resolveAPIKey_prepares : prepares (resolveAPIKey E C o) credential_ok.
Proof.
  unfold resolveAPIKey. destruct (apiKeyProvider E) as [provider|].
  - eapply prepares_bind; [apply prepares_terminal|]. intros _ _.
    eapply prepares_bind; [apply prepares_hook; auto with go|]. intros [value ok] _.
    destruct (negb ok).
    + eapply prepares_bind; [apply prepares_calm, calm_observe|]. intros c _.
      destruct (negb _); by apply prepares_fail.
    + destruct (validCredential value) eqn:Ev; [|by apply prepares_fail]. apply prepares_ret. by right.
  - destruct (_ ==? _) eqn:Ek; [by apply prepares_fail|]. apply prepares_ret. left. split; [done|by apply eqb_false].
Qed.

Lemma resolveIdempotencyKey_prepares caller :
  prepares (resolveIdempotencyKey E o caller) (fun key => validIdempotencyKey key = true /\ (caller <> [] -> key = caller)).
Proof.
  unfold resolveIdempotencyKey. destruct (caller ==? []) eqn:Ec.
  - apply eqb_true_1 in Ec as ->. eapply (prepares_bind _ _ (fun _ => True)).
    + eapply prepares_bind; [apply prepares_terminal|]. intros _ _.
      eapply prepares_bind; [apply prepares_hook; auto with go|]. intros [value ok] _.
      destruct (negb ok); [by apply prepares_fail|by apply prepares_ret].
    + intros key _. destruct (validIdempotencyKey key) eqn:Ev; [|by apply prepares_fail].
      by apply prepares_ret.
  - eapply (prepares_bind _ _ (fun key => key = caller)); [by apply prepares_ret|].
    intros key ->. destruct (validIdempotencyKey caller) eqn:Ev; [by apply prepares_ret|]. by apply prepares_fail.
Qed.

(** A prepared request: a known event, a credential, a usable key, and a body within the limit that
    is the envelope of what the serializer made of the input. *)
Definition prepared_ok (schema : SchemaDescriptor) (group member : bytes) (inp : SendInput) (p : prepared) : Prop :=
  schema_ok schema /\ credential_ok (prepared_apiKey p) /\ validIdempotencyKey (prepared_key p) = true /\
  (Input_IdempotencyKey inp <> [] -> prepared_key p = Input_IdempotencyKey inp) /\
  len (prepared_body p) <= maxPayloadBytes /\
  (exists members, Webhooks schema !! group = Some members /\ members !! member = Some (prepared_event p)) /\
  exists t data,
    serializeModel t schema (EventModel (prepared_event p)) (Input_Data inp) (prepared_now p) = SerializerReturns (Ok data) /\
    marshalEnvelope (Input_CustomerID inp) (EventType (prepared_event p)) (prepared_now p) data = Some (prepared_body p).

Lemma prepare_prepares schema group member inp : (overflows schema group member inp -> crash) ->
  prepares (prepare E C o schema group member inp)
    (prepared_ok schema group member inp).
Proof.
  intros Hcrash. unfold prepare. eapply (prepares_bind _ _ (fun _ => schema_ok schema)).
  { destruct (ValidateSchemaDescriptor schema) eqn:Ev; [by apply prepares_fail|]. apply prepares_ret.
    by apply ValidateSchemaDescriptor_None. }
  intros _ Hschema.
  eapply (prepares_bind _ _ (fun e => exists members, Webhooks schema !! group = Some members /\
    members !! member = Some e)).
  { destruct (Webhooks schema !! group) as [members|]; [|by apply prepares_fail].
    destruct (members !! member) eqn:Em; [|by apply prepares_fail]. apply prepares_ret. eauto. }
  intros event Hevent.
  eapply prepares_bind; [apply resolveAPIKey_prepares|]. intros credential Hcredential.
  eapply prepares_bind; [apply prepares_terminal|]. intros _ _.
  eapply prepares_bind; [apply resolveIdempotencyKey_prepares|]. intros key [Hkey Hcaller].
  eapply prepares_bind; [apply prepares_terminal|]. intros _ _.
  eapply prepares_bind; [apply prepares_hook; auto with go|]. intros [now ok] _.
  destruct (negb ok); [by apply prepares_fail|].
  eapply prepares_bind; [apply prepares_terminal|]. intros _ _.
  eapply (prepares_bind _ _ (fun r => r <> SerializerOverflows /\ exists t,
    serializeModel t schema (EventModel event) (Input_Data inp) now = r)).
  { apply prepares_serialization.
    - intros Q R w HQ. apply wp_observe. intros w' H' _. apply HQ; [done|eauto].
    - intros [t Ht]. apply Hcrash. destruct Hevent as (members & Hg & Hm). by exists members, event, t, now. }
  intros serialized [Hends [t Hdata]].
  destruct serialized as [[data|err]| |]; [| |by apply prepares_fail|done].
  2:{ apply prepares_fail. by destruct err. }
  eapply prepares_bind; [apply prepares_terminal|]. intros _ _.
  eapply (prepares_bind _ _ (fun r =>
    marshalEnvelope (Input_CustomerID inp) (EventType event) now data = r)).
  { apply prepares_hook_gives. intros Q R w HQ. by apply wp_ret, HQ. }
  intros [body|] Hbody; [|by apply prepares_fail].
  destruct (maxPayloadBytes <? len body) eqn:El; [by apply prepares_fail|].
  eapply (prepares_bind _ _ (fun _ => True)).
  { intros w. unfold wp. destruct (shrinkRequest _ _ _) as [pm st]. by split. }
  intros _ _. eapply prepares_bind; [apply prepares_terminal|]. intros _ _.
  apply prepares_ret. unfold prepared_ok; cbn. split_and!; try done; [lia|]. eauto.
Qed.
End preparation.

(** *** The delay between attempts *)

Lemma doubleCap_closed n cap maximum : 0 <= cap -> 0 <= maximum ->
  Z.min (doubleCap n cap maximum) maximum = Z.min (cap * 2 ^ Z.of_nat n) maximum.
Proof.
  revert cap. induction n as [|n IH]; intros cap H Hm; cbn [doubleCap].
  { change (2 ^ Z.of_nat 0) with 1. lia. }
  rewrite Nat2Z.inj_succ, Z.pow_succ_r by lia. pose proof (Z.pow_pos_nonneg 2 (Z.of_nat n) ltac:(lia) ltac:(lia)).
  destruct (maximum - cap <? cap) eqn:E0; [|rewrite IH by lia; f_equal; lia]. nia.
Qed.

Lemma Milliseconds_mono a b : 0 <= a <= b -> 0 <= Milliseconds a <= Milliseconds b.
Proof.
  unfold Milliseconds. intros H. rewrite !Z.quot_div_nonneg by lia.
  split; [by apply Z.div_pos; lia|]. by apply Z.div_le_mono; lia.
Qed.

Lemma Milliseconds_back a : 0 <= a -> Milliseconds a * 1000000 <= a.
Proof. unfold Milliseconds. intros H. rewrite Z.quot_div_nonneg by lia. pose proof (Z.mul_div_le a 1000000). lia. Qed.

Context (delays : 0 <= retryBaseDelay C /\ 0 <= retryMaxDelay C).

Lemma Milliseconds_positive : 0 <= Milliseconds (retryBaseDelay C) /\ 0 <= Milliseconds (retryMaxDelay C).
Proof. unfold Milliseconds. split; apply Z.quot_pos; lia. Qed.

Lemma capMillis_closed n remaining :
  1 <= n -> 0 < remaining ->
  capMillis C n remaining =
    Z.min (Milliseconds (retryBaseDelay C) * 2 ^ (n - 1)) (Z.min (Milliseconds (retryMaxDelay C)) remaining) /\
  0 <= capMillis C n remaining.
Proof.
  intros Hn Hr. destruct (Milliseconds_positive) as [Hb Hm]. unfold capMillis.
  rewrite Z.min_assoc, doubleCap_closed, Z2Nat.id, <- Z.min_assoc by lia.
  pose proof (Z.pow_pos_nonneg 2 (n - 1) ltac:(lia) ltac:(lia)). split; [lia|]. nia.
Qed.

Lemma retryDelay_bounds response jitter remaining d :
  0 <= jitter <= remaining -> retryDelay response jitter remaining = Ok d ->
  jitter <= d <= remaining /\ d <= Z.max jitter (Milliseconds retryAfterCap).
Proof.
  intros Hj. unfold retryDelay.
  assert (forall v, jitter <= Z.max jitter (Z.min v (Z.min (Milliseconds retryAfterCap) remaining)) <= remaining /\
    Z.max jitter (Z.min v (Z.min (Milliseconds retryAfterCap) remaining)) <= Z.max jitter (Milliseconds retryAfterCap))
    as Hmax by lia.
  destruct (retryAfterValue _) as [v|]; [|intros [= <-]; lia].
  destruct (parseRetryAfterDelta v) as [[delay valid] needsWall]. destruct needsWall.
  - destruct response as [r|]; [|intros [= <-]; lia].
    destruct (negb _); [intros [= <-]; lia|]. destruct (_ || _); [done|].
    destruct (parseRetryAfterDate _ _) as [after []]; intros [= <-]; [apply Hmax|lia].
  - destruct valid; intros [= <-]; [apply Hmax|lia].
Qed.

(** *** Following the protocol *)
Section loop.
Context (operationID : bytes) (p : prepared) (customerID : bytes).

Definition follows (w : world) (ph : phase) (w' : world) (ph' : phase) : Prop :=
  exists evs, traced evs w w' /\ run E C operationID p ph evs ph'.

Lemma follows_calm w w' ph : calm w w' -> follows w ph w' ph.
Proof. intros H%traced_calm. exists []. split; [done|constructor]. Qed.
Lemma follows_trans w1 ph1 w2 ph2 w3 ph3 :
  follows w1 ph1 w2 ph2 -> follows w2 ph2 w3 ph3 -> follows w1 ph1 w3 ph3.
Proof.
  intros (a & Ha & Ra) (b & Hb & Rb). exists (a ++ b).
  split; [by eapply traced_trans|by eapply run_app].
Qed.
Lemma follows_move w ph ev w' ph' :
  traced [ev] w w' -> move E C operationID p ph ev ph' -> follows w ph w' ph'.
Proof. intros Ht Hm. exists [ev]. split; [done|by apply run_one]. Qed.
Lemma follows_calm_r w ph w1 ph1 w2 : follows w ph w1 ph1 -> calm w1 w2 -> follows w ph w2 ph1.
Proof. intros H Hc. eapply follows_trans; [done|by apply follows_calm]. Qed.

(** How the operation may end from a phase. *)
Definition ends_ok (ph : phase) (evs : list event) (r : final) : Prop :=
  match r with
  | Accepted res =>
    (exists n, ph = Ended n true) /\ exists t a, EvOutcome t (mkOutcome (Some a) None) ∈ evs /\
      validateAttemptResponse a (EventType (prepared_event p)) customerID (prepared_now p) = Ok res
  | Failed (Some e) => proper (floor ph) operationID (prepared_key p) (attempts ph) e /\ pending ph = 0
  | _ => False
  end.
Definition ends (w : world) (ph : phase) (r : final) (w' : world) : Prop :=
  exists evs ph', traced evs w w' /\ run E C operationID p ph evs ph' /\ ends_ok ph' evs r.

Lemma ends_trans w ph w1 ph1 r w2 : follows w ph w1 ph1 -> ends w1 ph1 r w2 -> ends w ph r w2.
Proof.
  intros (a & Ha & Ra) (b & ph2 & Hb & Rb & Hr). exists (a ++ b), ph2.
  split_and!; [by eapply traced_trans|by eapply run_app|].
  destruct r as [res|[e|]| |]; try done. destruct Hr as [H1 (t & x & Hx & Hv)]. split; [done|].
  exists t, x. split; [|done]. apply elem_of_app. by right.
Qed.

Lemma ends_failed w ph w' ph' e : follows w ph w' ph' ->
  proper (floor ph') operationID (prepared_key p) (attempts ph') e -> pending ph' = 0 -> ends w ph (Failed (Some e)) w'.
Proof. intros (a & Ha & Ra) He Hp. by exists a, ph'. Qed.

Lemma schedulerCall_spec n c d (Q : bool * bool -> world -> Prop) R w :
  delay_ok C d -> (forall v w', follows w (Delayed n c d) w' (Waiting (n + 1) c) -> Q v w') ->
  wp (schedulerCall E d) Q R w.
Proof.
  intros Hd HQ. unfold schedulerCall. apply wp_bind, wp_emit. intros w2 H2. apply wp_bind, wp_observe.
  intros w3 H3 _. apply wp_ret, HQ. eapply follows_calm_r; [|done].
  eapply follows_move; [done|by constructor].
Qed.

(** No attempt is under way after attempt [n]. *)
Definition resting (n : Z) (c : bool) (ph : phase) : Prop :=
  floor ph = c /\ attempts ph = n /\ pending ph = 0.

(** The outcome of a back-off that started in world [w] and phase [ph0]. *)
Definition backed_off (w : world) (ph0 : phase) (n : Z) (c : bool) (e : option Error) (w' : world) : Prop :=
  match e with
  | Some x => proper c operationID (prepared_key p) n x /\ exists ph, follows w ph0 w' ph /\ resting n c ph
  | None => follows w ph0 w' (Waiting (n + 1) c)
  end.

(** The error that a retry follows. *)
Definition retried (n : Z) (c : bool) (last : Error) : Prop := proper c operationID (prepared_key p) n last.

Lemma resting_waiting n c : resting n c (Waiting (n + 1) c).
Proof. split_and!; [done|cbn; lia|done]. Qed.
Lemma backed_off_resting w ph0 n c x w' ph :
  proper c operationID (prepared_key p) n x -> follows w ph0 w' ph -> resting n c ph ->
  backed_off w ph0 n c (Some x) w'.
Proof. intros Hx F Hr. split; [done|]. by exists ph. Qed.
Lemma backed_off_after w ph0 w1 ph1 n c e w' :
  follows w ph0 w1 ph1 -> backed_off w1 ph1 n c e w' -> backed_off w ph0 n c e w'.
Proof.
  intros F H. destruct e as [x|]; cbn in *; [|by eapply follows_trans].
  destruct H as [Hx (ph & Hf & Hr)]. split; [done|]. exists ph. split; [by eapply follows_trans|done].
Qed.

Lemma afterSleep_spec w ph0 last n c s (Q : option Error -> world -> Prop) R w2 :
  retried n c last ->
  (match s with
   | Some _ => follows w ph0 w2 (Waiting (n + 1) c)
   | None => expired w2 /\ exists ph, follows w ph0 w2 ph /\ resting n c ph
   end) ->
  (forall e w', backed_off w ph0 n c e w' -> Q e w') -> wp (afterSleep E last n c s) Q R w2.
Proof.
  intros (Hl & Ho & Hk & Hc) Hs HQ. unfold afterSleep. rewrite Ho, Hk. destruct s as [[ok err]|].
  - apply wp_bind, preAttemptTerminal_spec. intros t w3 H3 [_ Ht]. destruct t as [t|].
    { eapply wp_ret, HQ, backed_off_resting; [by apply proper_evidence, Ht|by eapply follows_calm_r|].
      apply resting_waiting. }
    destruct (err || negb ok).
    + apply wp_bind, preAttemptTerminal_spec. intros t w4 H4 [_ Ht4].
      eapply wp_ret, HQ, backed_off_resting; [| |apply resting_waiting].
      * apply proper_evidence. destruct t as [t|]; [by apply Ht4|]. by apply proper_hook.
      * eapply follows_calm_r; [done|]. by etransitivity.
    + apply wp_ret, HQ. by eapply follows_calm_r.
  - destruct Hs as (He & ph & Hf & Hr). apply wp_bind, preAttemptTerminal_spec. intros t w3 H3 [Hex Ht].
    destruct t as [t|]; [|by destruct (Hex He)].
    eapply wp_ret, HQ, backed_off_resting; [by apply proper_evidence, Ht|by eapply follows_calm_r|done].
Qed.

Lemma backoffSleep_spec last n c ms (Q : option Error -> world -> Prop) R w :
  retried n c last -> 0 <= ms * 1000000 <= MaxInt64 -> delay_ok C (ms * 1000000) ->
  (forall e w', backed_off w (Sampled n c last) n c e w' -> Q e w') -> wp (backoffSleep E C last n c ms) Q R w.
Proof.
  intros Hl Hms Hd HQ. unfold backoffSleep.
  rewrite (wrap64_id (ms * 1000000)) by (unfold in_int64, MinInt64; lia).
  apply wp_bind, wp_emit. intros w1 H1.
  assert (follows w (Sampled n c last) w1 (Delayed n c (ms * 1000000))) as F1 by (eapply follows_move; [done|by constructor]).
  apply wp_bind. destruct (timerScheduler C).
  - apply wp_bind, (schedulerCall_spec n c); [done|]. intros v w2 F2.
    eapply wp_ret, (afterSleep_spec w); [done| |done]. by eapply follows_trans.
  - apply boundedPermitCall_spec.
    + intros w2 H2 He. eapply (afterSleep_spec w); [done| |done]. split; [done|].
      eexists. split; [by eapply follows_calm_r|done].
    + intros w2 H2. apply (schedulerCall_spec n c); [done|]. intros v w3 F3.
      assert (follows w (Sampled n c last) w3 (Waiting (n + 1) c)) as F03.
      { eapply follows_trans; [by eapply follows_calm_r|done]. }
      split; [intros w4 H4; eapply (afterSleep_spec w); [done|by eapply follows_calm_r|done]|].
      intros w4 H4 He. eapply (afterSleep_spec w); [done| |done]. split; [done|].
      eexists. split; [by eapply follows_calm_r|apply resting_waiting].
Qed.

Lemma backoff_spec last response n c (Q : option Error -> world -> Prop) R w :
  retried n c last -> 1 <= n ->
  (forall e w', backed_off w (Backing n c last) n c e w' -> Q e w') -> wp (backoff E C last response n c) Q R w.
Proof.
  intros Hret Hn HQ. pose proof Hret as (Hl & Ho & Hk & _). unfold backoff, callMonotonicClock. rewrite Ho, Hk.
  apply wp_bind, wp_observe. intros w1 H1 _. apply wp_bind, wp_getPermit.
  assert (forall w2 x, calm w w2 -> proper c operationID (prepared_key p) n x -> Q (Some x) w2) as Hfail.
  { intros w2 x H2 Hx. eapply HQ, backed_off_resting; [done|by apply follows_calm|done]. }
  destruct (monotonicClock E (tick w)) as [now|].
  2:{ apply wp_ret, Hfail; [done|]. apply proper_evidence, proper_hook, delivery_floor. }
  set (rn := wrap64 _). assert (in_int64 rn) as Hrn by apply wrap64_range. clearbody rn. cbv zeta.
  destruct (_ || _) eqn:Er.
  { apply wp_ret, Hfail; [done|]. apply proper_evidence, proper_lit, delivery_floor. }
  assert (0 < Milliseconds rn /\ Milliseconds rn * 1000000 <= MaxInt64) as [Hpos Hbig].
  { split; [lia|]. pose proof (Milliseconds_back rn). unfold in_int64 in Hrn. lia. }
  destruct (capMillis_closed n (Milliseconds rn) Hn Hpos) as [Hcap Hcap0].
  pose proof Milliseconds_positive as Hm.
  set (cap := capMillis C n (Milliseconds rn)) in *. clearbody cap.
  apply wp_bind, boundedPermitCall_spec.
  { intros w2 H2 He. apply preAttemptTerminal_spec. intros e w3 H3 [Hex Ht].
    destruct e as [e|]; [|by destruct (Hex He)]. apply Hfail; [|by apply Ht].
    etransitivity; [exact H1|]. by etransitivity. }
  intros w2 H2. apply wp_bind, wp_emit. intros w3 H3. apply wp_bind, wp_observe. intros w4 H4 _. apply wp_ret.
  assert (follows w (Backing n c last) w4 (Sampled n c last)) as F4.
  { eapply follows_calm_r; [|exact H4]. eapply follows_trans; [apply follows_calm; by etransitivity|].
    eapply follows_move; [done|]. constructor. lia. }
  split; intros w5 H5; assert (follows w (Backing n c last) w5 (Sampled n c last)) as F5 by by eapply follows_calm_r.
  2:{ intros He. apply preAttemptTerminal_spec. intros e w6 H6 [Hex Ht].
      destruct e as [e|]; [|by destruct (Hex He)]. eapply HQ, backed_off_resting; [by apply Ht|by eapply follows_calm_r|done]. }
  assert (forall x, proper c operationID (prepared_key p) n x -> Q (Some x) w5) as Hfail5.
  { intros x Hx. by eapply HQ, backed_off_resting. }
  unfold sampleRetryEntropy. destruct (retryEntropy E _ _) as [v|].
  2:{ cbn [negb]. by apply wp_ret, Hfail5, proper_evidence, proper_hook. }
  destruct ((0 <=? v) && (v <? cap + 1)) eqn:Ev; cbn [negb].
  2:{ by apply wp_ret, Hfail5, proper_evidence, proper_hook. }
  destruct (retryDelay response v (Milliseconds rn)) as [d|] eqn:Ed.
  2:{ by apply wp_ret, Hfail5, proper_evidence, proper_hook. }
  apply retryDelay_bounds in Ed as [Hd1 Hd2]; [|lia].
  apply backoffSleep_spec; [done|lia| |].
  - exists d. split; [done|]. lia.
  - intros e w6 H6. by eapply HQ, backed_off_after.
Qed.

(** *** One attempt *)

(** The outcome of a turn that started in world [w] and phase [ph]. *)
Definition turned (w : world) (ph : phase) (n : Z) (c : bool) (w' : world) : Prop :=
  n < maxAttempts C /\ follows w ph w' (Waiting (n + 1) c).

Lemma turned_after w ph w1 ph1 n (m : M bool) :
  follows w ph w1 ph1 -> wp m (turned w1 ph1 n) (ends w1 ph1) w1 -> wp m (turned w ph n) (ends w ph) w1.
Proof.
  intros F H. eapply wp_mono; [exact H| |].
  - intros c w2 [Hn F2]. split; [done|by eapply follows_trans].
  - intros r w2 He. by eapply ends_trans.
Qed.

Lemma endWith_spec {A} n c e (Q : A -> world -> Prop) w :
  proper c operationID (prepared_key p) n e -> wp (endWith e) Q (ends w (Judged n c)) w.
Proof.
  intros He. apply wp_bind, wp_emit. intros w1 H1. apply wp_leave.
  apply (ends_failed _ _ _ (Ended n c)); [|done..]. eapply follows_move; [done|constructor].
Qed.

Lemma closeAndRecord_spec r ph (Q : unit -> world -> Prop) R w :
  (forall k, move E C operationID p ph (EvClose k) ph) ->
  (forall w', follows w ph w' ph -> Q tt w') -> wp (closeAndRecord E r) Q R w.
Proof.
  intros Hph HQ. unfold closeAndRecord.
  assert (forall b w1, follows w ph w1 ph ->
    wp (if b : bool then modState recordResponseCloseFailure else ret tt) Q R w1) as Hrec.
  { intros [] w1 F; [|by apply wp_ret, HQ]. apply wp_modState. intros w2 H2. by apply HQ; eapply follows_calm_r. }
  assert (follows w ph w ph) as F0 by by apply follows_calm.
  apply wp_bind. unfold closeResponse, wp at 1. destruct r as [r|]; [|by apply (Hrec false)].
  destruct (closer r) as [k|]; [|by apply (Hrec false)]. apply Hrec. destruct (bool_decide _); [done|].
  by eapply follows_move; [|apply (Hph k)].
Qed.

Lemma retryOrFail_spec last response n c w :
  retried n c last -> 1 <= n <= maxAttempts C ->
  wp (retryOrFail E C last response n c) (turned w (Judged n c) n) (ends w (Judged n c)) w.
Proof.
  intros Hl Hn. unfold retryOrFail. destruct (negb _ || _) eqn:Er; [by apply endWith_spec|].
  apply orb_false_iff in Er as [Er%negb_false_iff En].
  apply wp_bind, wp_emit. intros w1 H1.
  assert (follows w (Judged n c) w1 (Backing n c last)) as F1.
  { eapply follows_move; [done|]. constructor; [done|apply Hl|lia]. }
  apply wp_bind, backoff_spec; [done|lia|]. intros [x|] w2 Hb; cbn in Hb.
  - destruct Hb as [Hx (ph & F2 & Hph & Hat & Hp)]. apply wp_leave, (ends_failed _ _ _ ph); [by eapply follows_trans| |done].
    by rewrite Hph, Hat.
  - apply wp_ret. split; [lia|by eapply follows_trans].
Qed.

(** The error of a response never denies what the floor says. *)
Lemma response_error_honest r e cb c :
  validateAttemptResponse r (EventType (prepared_event p)) customerID (prepared_now p) = Err e ->
  c = cb || responseMayHaveBeenAccepted (Status r) ->
  forall o k n b, let e1 := set_identity o k n e in
  let e2 := if b : bool then setAttemptCause (ownsTransport C) e1 else e1 in
  proper c o k n (if cb && ((Error_Code e2 ==? ErrorCodeProxy) || (Error_DeliveryState e2 ==? DeliveryStateRejected))
            then set_DeliveryState DeliveryStatePossiblySent e2 else e2).
Proof.
  intros Hv -> o k n b. destruct (validateAttemptResponse_fails _ _ _ _ _ Hv) as (_ & [_ Hacc] & _ & _ & Hproxy).
  intros e1 e2.
  assert (Error_Code e2 = Error_Code e /\ Error_DeliveryState e2 = Error_DeliveryState e /\
    Error_OperationID e2 = o /\ Error_IdempotencyKey e2 = k /\ Error_AttemptCount e2 = n) as (Hc & Hd & Hids).
  { subst e2 e1. destruct e, b; cbn; [|done]. unfold setAttemptCause. by destruct (negb _). }
  clearbody e2. rewrite Hc, Hd. destruct (cb && _) eqn:Eb.
  { destruct e2; cbn in *. by split. }
  split; [|done]. intros Hfloor.
  rewrite Hd. destruct cb; cbn [andb orb] in *; [|by rewrite Hacc by by right].
  apply orb_false_iff in Eb as [H1%eqb_false_1 H2%eqb_false_1]. split; [|done]. intros H. by apply H1, Hproxy.
Qed.

Lemma failure_error_honest c f : honest c (setAttemptCause (ownsTransport C) (classifyAttemptFailure f c)).
Proof.
  intros ->. unfold setAttemptCause, classifyAttemptFailure. cbn [orb]. by destruct (negb _).
Qed.

(** A validated response: an accepted result, an error, or a retry. *)
Lemma handleResponse_spec w0 ph n cb c r evs t w :
  traced evs w0 w -> run E C operationID p ph evs (Judged n c) ->
  EvOutcome t (mkOutcome (Some r) None) ∈ evs -> c = cb || responseMayHaveBeenAccepted (Status r) ->
  1 <= n <= maxAttempts C ->
  wp (handleResponse E C operationID p customerID n cb c r) (turned w0 ph n) (ends w0 ph) w.
Proof.
  intros Ht Hrun Hev Hc Hn. assert (follows w0 ph w (Judged n c)) as F0 by by exists evs.
  unfold handleResponse. apply wp_bind, (closeAndRecord_spec _ (Judged n c)); [by constructor|]. intros w1 F1.
  pose proof (follows_trans _ _ _ _ _ _ F0 F1) as F01.
  destruct (validateAttemptResponse _ _ _ _) as [res|e] eqn:Ev.
  - apply wp_bind, deadlineTerminal_spec. intros [x|] w2 H2 Hx.
    + eapply turned_after; [by eapply follows_calm_r|]. by apply endWith_spec, proper_evidence, Hx.
    + apply wp_bind, wp_emit. intros w3 H3. apply wp_leave.
      destruct F1 as (b & Hb & Rb). exists (evs ++ (b ++ [EvEndAttempt None false])), (Ended n c).
      split_and!.
      * eapply traced_trans; [done|]. eapply traced_trans; [done|]. by eapply calm_traced.
      * eapply run_app; [done|]. eapply run_app; [done|]. apply run_one. constructor.
      * rewrite Hc, (validateAttemptResponse_2xx _ _ _ _ _ Ev), orb_true_r. split; [by eexists|].
        exists t, r. split; [apply elem_of_app; by left|done].
  - pose proof (response_error_honest r e cb c Ev Hc operationID (prepared_key p) n
      (Status r =? statusProxyAuthRequired)) as He. cbn zeta in *.
    set (e' := if cb && _ then _ else _) in *. clearbody e'.
    apply wp_bind, preAttemptTerminal_spec. intros [x|] w2 H2 [_ Hx];
      (eapply turned_after; [by eapply follows_calm_r|]).
    + by apply endWith_spec, proper_evidence, Hx.
    + by apply retryOrFail_spec.
Qed.

Lemma handleFailure_spec n c f w :
  1 <= n <= maxAttempts C ->
  wp (handleFailure E C operationID p n c f) (turned w (Judged n c) n) (ends w (Judged n c)) w.
Proof.
  intros Hn. unfold handleFailure. cbv zeta. apply wp_bind, preAttemptTerminal_spec.
  intros [x|] w2 H2 [_ Hx]; (eapply turned_after; [by apply follows_calm|]).
  - by apply endWith_spec, Hx.
  - apply retryOrFail_spec; [|done]. apply proper_identity, failure_error_honest.
Qed.

(** An outcome raises the floor and is then judged. *)
Lemma handleOutcome_spec n c s tracker o w :
  1 <= n <= maxAttempts C ->
  wp (handleOutcome E C operationID p customerID n c tracker o)
    (turned w (Sending n c s) n) (ends w (Sending n c s)) w.
Proof.
  intros Hn. unfold handleOutcome.
  set (o' := mkOutcome (snapshotAttemptResponse (Outcome_Response o)) (Outcome_Failure o)). clearbody o'.
  apply wp_bind. assert (forall (Q : unit -> world -> Prop) R, (forall w', calm w w' -> Q tt w') ->
    wp (match Outcome_Response o' with
        | Some r => if headerLimitViolation r then modState recordResponseHeaderLimitFailure else ret tt
        | None => ret tt end) Q R w) as Hcalm.
  { intros Q R HQ. destruct (Outcome_Response o') as [r|]; [destruct (headerLimitViolation r)|].
    all: first [by apply wp_modState | by apply wp_ret, HQ]. }
  apply Hcalm. clear Hcalm. intros w1 H1. apply wp_bind, wp_emit. intros w2 H2.
  set (c' := c || attemptCommitted tracker o').
  assert (traced [EvOutcome tracker o'] w w2) as T2 by by eapply calm_traced.
  assert (run E C operationID p (Sending n c s) [EvOutcome tracker o'] (Judged n c')) as R2
    by (apply run_one; constructor).
  assert (follows w (Sending n c s) w2 (Judged n c')) as F2 by (by eexists).
  destruct (malformedOutcome o') eqn:Em.
  { apply wp_bind, (closeAndRecord_spec _ (Judged n c')); [by constructor|]. intros w3 F3.
    eapply turned_after; [by eapply follows_trans|]. by apply endWith_spec. }
  destruct o' as [[r|] f]; cbn [Outcome_Response Outcome_Failure] in *.
  - destruct f as [f|]; [done|]. eapply handleResponse_spec; [done..| |done|done]. by apply list_elem_of_singleton.
  - eapply turned_after; [done|]. by apply handleFailure_spec.
Qed.

Lemma boundedAttemptCall_spec n c request (Q : attemptCall -> world -> Prop) R w :
  request_ok E C operationID p n request ->
  (forall o s w', follows w (Sending n c false) w' (Sending n c s) -> Q o w') ->
  wp (boundedAttemptCall E (attempt E request)) Q R w.
Proof.
  intros Hr HQ. unfold boundedAttemptCall, attempt.
  apply wp_bind, wp_observe. intros w1 H1 _. destruct (deadlineErr E _).
  { by apply wp_ret, (HQ _ false), follows_calm. }
  apply wp_bind, wp_modPermit. intros w2 H2. apply wp_bind, wp_bind, wp_emit. intros w3 H3.
  apply wp_bind, wp_observe. intros w4 H4 _. apply wp_ret.
  assert (follows w (Sending n c false) w4 (Sending n c true)) as F4.
  { eapply follows_calm_r; [|done]. eapply follows_trans; [apply follows_calm; by etransitivity|].
    eapply follows_move; [done|by constructor]. }
  assert (forall v w5, calm w4 w5 -> wp (ret v) Q R w5) as Hret.
  { intros v w5 H5. apply wp_ret, (HQ _ true). by eapply follows_calm_r. }
  assert (forall w5, calm w4 w5 -> wp (_ ← emit EvAbandon; ret (NotCompleted emptyOutcome)) Q R w5) as Habandon.
  { intros w5 H5. apply wp_bind, wp_emit. intros w6 H6. apply wp_ret, (HQ _ true).
    eapply follows_trans; [by eapply follows_calm_r|]. eapply follows_move; [done|constructor]. }
  apply wp_bind, wp_observe. intros w5 H5 _. destruct (_ || negb _).
  { apply wp_bind, wp_modPermit. intros w6 H6. apply wp_bind, wp_observe. intros w7 H7 _. apply Hret.
    etransitivity; [exact H5|]. by etransitivity. }
  destruct (attemptErr E _); [|by apply Habandon].
  apply wp_bind, wp_observe. intros w6 H6 _. destruct (_ && _); [apply Habandon; by etransitivity|].
  apply wp_bind, wp_modPermit. intros w7 H7. apply Hret. etransitivity; [exact H5|]. by etransitivity.
Qed.

Lemma failWith_ends {A} ph e (Q : A -> world -> Prop) w w' :
  calm w w' -> proper (floor ph) operationID (prepared_key p) (attempts ph) e -> pending ph = 0 ->
  wp (failWith e) Q (ends w ph) w'.
Proof. intros H He Hp. apply wp_leave, (ends_failed _ _ _ ph); [by apply follows_calm|done..]. Qed.

Lemma attemptTurn_spec n c w :
  1 <= n <= maxAttempts C ->
  wp (attemptTurn E C operationID p customerID n c) (turned w (Waiting n c) n) (ends w (Waiting n c)) w.
Proof.
  intros Hn. unfold attemptTurn, callMonotonicClock.
  apply wp_bind, wp_guard, preAttemptTerminal_spec. intros [x|] w1 H1 [_ Hx1].
  { apply (failWith_ends (A := unit) _ _ (fun _ _ => True)); [done|by apply Hx1|done]. }
  apply wp_bind, wp_observe. intros w2 H2 _.
  apply wp_bind, wp_guard, preAttemptTerminal_spec. intros e w3 H3 [_ Hx3].
  assert (calm w w3) as H03 by (etransitivity; [exact H1|]; by etransitivity). clear H1 H2 H3.
  destruct e as [x|]; [apply (failWith_ends (A := unit) _ _ (fun _ _ => True)); [done|by apply Hx3|done]|].
  destruct (monotonicClock E _) as [now|].
  2:{ apply failWith_ends; [done| |done]. apply proper_hook, delivery_floor. }
  apply wp_bind, wp_getPermit, wp_bind, wp_emit. intros w4 H4. apply wp_bind, wp_observe. intros w5 H5 _.
  assert (follows w (Waiting n c) w5 (Sending n c false)) as F5.
  { eapply follows_calm_r; [|done]. eapply follows_trans; [by apply follows_calm|].
    eapply follows_move; [done|]. constructor. lia. }
  apply wp_bind, (boundedAttemptCall_spec n c).
  { unfold request_ok; cbn. split_and!; try done; [lia|]. by eexists. }
  intros o s w6 F6. eapply follows_trans in F6; [|exact F5]. destruct o as [o|o].
  2:{ apply wp_bind, wp_observe. intros w7 H7 _. eapply turned_after; [by eapply follows_calm_r|].
      by apply handleOutcome_spec. }
  apply wp_bind, (closeAndRecord_spec _ (Sending n c s)); [by constructor|]. intros w7 F7.
  eapply follows_trans in F7; [|exact F6].
  apply wp_bind, wp_observe. intros w8 H8 _. set (tr := isCommitted E (tick w7)). clearbody tr.
  apply wp_bind, preAttemptTerminal_spec. intros [x|] w9 H9 [_ Hx].
  - apply wp_bind, wp_emit. intros w10 H10. eapply turned_after; [|by apply endWith_spec, Hx].
    eapply follows_trans; [eapply follows_calm_r; [exact F7|by etransitivity]|].
    eapply follows_move; [done|]. pose proof (move_outcome E C operationID p n c s tr emptyOutcome) as Hmv.
    cbn in Hmv. by rewrite orb_false_r in Hmv.
  - apply wp_bind, wp_observe. intros w10 H10 _. apply wp_bind, wp_observe. intros w11 H11 _.
    eapply turned_after; [|by apply handleOutcome_spec]. eapply follows_calm_r; [exact F7|].
    etransitivity; [exact H8|]. etransitivity; [exact H9|]. by etransitivity.
Qed.

Lemma attemptLoop_spec fuel : forall n c w,
  1 <= n <= maxAttempts C -> Z.of_nat fuel = maxAttempts C - n + 1 ->
  wp (attemptLoop E C fuel operationID p customerID n c) (fun _ _ => False) (ends w (Waiting n c)) w.
Proof.
  induction fuel as [|fuel IH]; intros n c w Hn Hf; [lia|]. cbn [attemptLoop]. apply wp_bind.
  eapply wp_mono; [by apply attemptTurn_spec| |done]. intros c' w1 [Hlt F1].
  eapply wp_mono; [apply IH; lia|done|]. intros r w2 He. by eapply ends_trans.
Qed.
End loop.

Context (positive : 1 <= maxAttempts C).

(** What an operation may do and return: fail before its first attempt, or run the
    protocol on the request it prepared. *)
Definition returned (operationID : bytes) (schema : SchemaDescriptor) (group member : bytes)
    (inp : SendInput) (evs : list event) (r : final) : Prop :=
  (exists e, r = Failed (Some e) /\ early operationID e /\
     (evs = [] \/ evs = [EvOperationStart; EvOperationEnd])) \/
  (exists p loop ph, evs = EvOperationStart :: loop ++ [EvOperationEnd] /\
     prepared_ok schema group member inp p /\
     run E C operationID p (Waiting 1 false) loop ph /\
     ends_ok operationID p (Input_CustomerID inp) ph loop r).

(** It returns, or the process ends because the serializer does not. *)
Definition served (operationID : bytes) (schema : SchemaDescriptor) (group member : bytes)
    (inp : SendInput) (evs : list event) (r : final) : Prop :=
  returned operationID schema group member inp evs r \/
  (r = Crashed /\ evs = [EvOperationStart] /\ overflows schema group member inp).

Section sent.
Context (operationID : bytes) (schema : SchemaDescriptor) (group member : bytes) (inp : SendInput) (w : world).
Abbreviation call := (sendAdmitted E C operationID schema group member inp w).

Lemma wp_deferEnd {A} (m : M A) (Q : A -> world -> Prop) R w0 :
  wp m (fun a w' => forall w2, traced [EvOperationEnd] w' w2 -> Q a w2)
    (fun r w' => match r with Crashed => R Crashed w' | _ => forall w2, traced [EvOperationEnd] w' w2 -> R r w2 end) w0 ->
  wp (deferEnd m) Q R w0.
Proof. unfold wp, deferEnd. destruct (m w0) as [[a|[]] w']; intros H; by apply H. Qed.

Lemma sendAdmitted_serves :
  wp (sendAdmitted E C operationID schema group member inp) (fun _ _ => False)
    (fun r w' => exists evs, trace w' = trace w ++ evs /\
       served operationID schema group member inp evs r) w.
Proof.
  apply wp_bind, wp_guard, preAttemptTerminal_spec. intros [x|] w1 [_ H1] Hx.
  { exists []. rewrite app_nil_r. split; [done|]. left. left. exists x. split_and!; auto. by eapply terminal_early. }
  apply wp_bind, wp_emit. intros w2 [_ H2]. rewrite H1 in H2.
  apply wp_deferEnd, wp_bind. eapply wp_mono; [apply (prepare_prepares _ (overflows schema group member inp)); auto| |]; cbn beta.
  - intros p w3 [[_ H3] Hp]. eapply wp_mono; [apply attemptLoop_spec; lia|done|].
    intros r w4 (evs & ph & [_ H4] & Hrun & Hr). assert (r <> Crashed) as Hne by by intros ->.
    assert (forall w5, traced [EvOperationEnd] w4 w5 -> exists evs, trace w5 = trace w ++ evs /\ served operationID schema group member inp evs r) as Hs; [|by destruct r].
    intros w5 [_ H5]. exists (EvOperationStart :: evs ++ [EvOperationEnd]).
    rewrite H5, H4, H3, H2. split; [by norm_app|]. left. right. by exists p, evs, ph.
  - intros r w3 [[_ H3] [(e & -> & He)|[-> Hover]]].
    + intros w4 [_ H4]. exists [EvOperationStart; EvOperationEnd]. rewrite H4, H3, H2. split; [by norm_app|]. left. left. exists e. auto.
    + exists [EvOperationStart]. rewrite H3, H2. split; [done|]. by right.
Qed.

(** C8. When a context that is done stays done, the limits are those of a valid
    configuration and the serializer does not overflow the stack on the input, a
    send returns, with a result or a proper error and never a panic or a nil error,
    and everything it does is a run of the retry protocol: numbered attempts that
    start and end, a judged outcome, and between two attempts a retryable error, one
    entropy sample and one delay. *)
Theorem sendAdmitted_refines_protocol : ~ overflows schema group member inp ->
  exists r w' evs, call = (inr r, w') /\ trace w' = trace w ++ evs /\
    returned operationID schema group member inp evs r.
Proof.
  intros Hends. pose proof sendAdmitted_serves as H. unfold wp in H. destruct call as [[a|r] w']; [done|].
  destruct H as (evs & Ht & [Hs|(_ & _ & Hx)]); [|done]. by exists r, w', evs.
Qed.

(** Every finished call is served. *)
Lemma call_served r w' evs :
  call = (inr r, w') -> trace w' = trace w ++ evs -> served operationID schema group member inp evs r.
Proof.
  intros Hc Ht. pose proof sendAdmitted_serves as H. unfold wp in H. rewrite Hc in H.
  destruct H as (evs' & Ht' & Hs). rewrite Ht in Ht'. by apply app_inv_head in Ht' as ->.
Qed.

Lemma wrapped_events evs :
  sent (EvOperationStart :: evs ++ [EvOperationEnd]) = sent evs /\
  starts (EvOperationStart :: evs ++ [EvOperationEnd]) = starts evs /\
  finishes (EvOperationStart :: evs ++ [EvOperationEnd]) = finishes evs /\
  raised (EvOperationStart :: evs ++ [EvOperationEnd]) = raised evs.
Proof.
  unfold sent, starts, finishes, raised, len. cbn. rewrite omap_app, !List.filter_app, existsb_app. cbn.
  by rewrite !app_nil_r, orb_false_r.
Qed.

Lemma failure_floor e w' evs :
  call = (inr (Failed (Some e)), w') -> trace w' = trace w ++ evs ->
  Error_DeliveryState e = DeliveryStateNotSent \/ Error_DeliveryState e = DeliveryStateRejected ->
  raised evs = false.
Proof.
  intros Hc Ht Hd. destruct (call_served _ _ _ Hc Ht) as [[(e' & _ & _ & [-> | ->])|(p & l & ph & -> & _ & Hr & He)]|(_ & -> & _)];
    [done..| |done].
  destruct (wrapped_events l) as (_ & _ & _ & ->). apply run_floor in Hr. cbn in Hr. rewrite <- Hr.
  destruct He as [(Hh & _) _]. destruct (floor ph); [|done]. destruct (Hh eq_refl). by destruct Hd.
Qed.


Lemma requests_prepared r w' evs :
  call = (inr r, w') -> trace w' = trace w ++ evs ->
  StronglySorted Z.lt (map Request_AttemptNumber (sent evs)) /\
  (sent evs = [] \/
   exists p, prepared_ok schema group member inp p /\
     Forall (fun q => request_ok E C operationID p (Request_AttemptNumber q) q /\
                      1 <= Request_AttemptNumber q <= maxAttempts C) (sent evs)).
Proof.
  intros Hc Ht. destruct (call_served _ _ _ Hc Ht) as [[(e' & _ & _ & [-> | ->])|(p & l & ph & -> & Hp & Hr & He)]|(_ & -> & _)];
    [split; [constructor|by left]..| |split; [constructor|by left]].
  destruct (wrapped_events l) as (-> & _). destruct (run_sent _ _ _ _ _ _ _ Hr) as [Hs Hf].
  pose proof (run_attempts _ _ _ _ _ _ _ Hr) as Ha. cbn in Ha. split; [done|]. right. exists p. split; [done|].
  eapply Forall_impl; [exact Hf|]. cbn. intros q [Hq Hn]. split; [done|lia].
Qed.

(** C10. All requests of one send carry the operation id, the body, the credential
    and the idempotency key of the one prepared request, a caller-supplied key being
    the one used, and their attempt numbers increase strictly within 1 to
    maxAttempts. *)
Theorem requests_are_the_same r w' evs :
  call = (inr r, w') -> trace w' = trace w ++ evs ->
  StronglySorted Z.lt (map Request_AttemptNumber (sent evs)) /\
  (sent evs = [] \/
   exists p, prepared_ok schema group member inp p /\
     Forall (fun q => request_ok E C operationID p (Request_AttemptNumber q) q /\
                      1 <= Request_AttemptNumber q <= maxAttempts C) (sent evs)).
Proof. apply requests_prepared. Qed.

(** Every attempt span that a send starts it also ends, at most maxAttempts of
    them, and the error it returns carries the operation id and the number of
    attempts started. *)
Theorem attempts_are_accounted_for r w' evs :
  call = (inr r, w') -> trace w' = trace w ++ evs ->
  starts evs = finishes evs /\ 0 <= starts evs <= maxAttempts C /\
  (forall e, r = Failed (Some e) -> Error_OperationID e = operationID /\ Error_AttemptCount e = starts evs).
Proof.
  intros Hc Ht.
  destruct (call_served _ _ _ Hc Ht) as [[(e' & -> & (_ & Ho & Hn) & [-> | ->])|(p & l & ph & -> & Hp & Hr & He)]|(-> & -> & _)].
  1-2: unfold starts, finishes, len; cbn; split_and!; try lia; by intros e [= <-].
  2: unfold starts, finishes, len; cbn; split_and!; done || lia.
  destruct (wrapped_events l) as (_ & -> & -> & _).
  pose proof (run_starts _ _ _ _ _ _ _ Hr) as Hs. pose proof (run_finishes _ _ _ _ _ _ _ Hr) as Hf.
  pose proof (run_attempts _ _ _ _ _ _ _ Hr) as Ha. cbn in Hs, Hf, Ha.
  assert (pending ph = 0) as Hpend by (destruct r as [res|[e|]| |]; cbn in He; [|tauto|done..]; by destruct He as [[n ->] _]).
  split_and!; [lia|unfold starts, len; lia|lia|]. intros e ->. destruct He as [(_ & Ho & _ & Hn) _]. split; [done|lia].
Qed.

(** C11. A send succeeds only with a result that validateAttemptResponse took from a
    response of one of its own attempts, for the event type, the customer and the
    timestamp that it had sent. *)
Theorem accepted_result_was_validated res w' evs :
  call = (inr (Accepted res), w') -> trace w' = trace w ++ evs ->
  exists p t a, prepared_ok schema group member inp p /\
    EvOutcome t (mkOutcome (Some a) None) ∈ evs /\
    validateAttemptResponse a (EventType (prepared_event p)) (Input_CustomerID inp) (prepared_now p) = Ok res.
Proof.
  intros Hc Ht. destruct (call_served _ _ _ Hc Ht) as [[(e' & He & _)|(p & l & ph & -> & Hp & Hr & He)]|(? & _)]; [done| |done].
  destruct He as [_ (t & a & Hin & Hv)]. exists p, t, a. split_and!; [done| |done].
  apply elem_of_cons. right. apply elem_of_app. by left.
Qed.

(** Every delay between attempts is a whole number of milliseconds between zero
    and the larger of the configured maximum and the Retry-After cap, so no
    conversion to nanoseconds overflows. *)
Theorem delays_are_bounded r w' evs d :
  call = (inr r, w') -> trace w' = trace w ++ evs -> EvSleep d ∈ evs ->
  exists ms, d = ms * 1000000 /\
    0 <= ms <= Z.max (Milliseconds (retryMaxDelay C)) (Milliseconds retryAfterCap).
Proof.
  intros Hc Ht Hin. destruct (call_served _ _ _ Hc Ht) as [[(e' & _ & _ & [-> | ->])|(p & l & ph & -> & Hp & Hr & He)]|(_ & -> & _)].
  - by apply elem_of_nil in Hin.
  - by apply elem_of_cons in Hin as [?|?%list_elem_of_singleton].
  - eapply (run_delays E C operationID p); [exact Hr|].
    apply elem_of_cons in Hin as [?|[?|?%list_elem_of_singleton]%elem_of_app]; done.
  - by apply list_elem_of_singleton in Hin.
Qed.
End sent.
End specification.

(** The doubling loop of the back-off computes the minimum of base times two to
    the attempts made, the configured maximum and the time left. *)
Theorem capMillis_is_exponential C n remaining :
  0 <= retryBaseDelay C /\ 0 <= retryMaxDelay C -> 1 <= n -> 0 < remaining ->
  capMillis C n remaining =
    Z.min (Milliseconds (retryBaseDelay C) * 2 ^ (n - 1)) (Z.min (Milliseconds (retryMaxDelay C)) remaining).
Proof. intros Hd Hn Hr. by apply (capMillis_closed C Hd n remaining Hn Hr). Qed.

(** ** A runtime to run

    The payload is the body; the first attempt finds no host, the second one is
    answered. *)
Module Demo.
#[local] Instance codec : Codec := {|
  payload := bytes;
  input := bytes;
  serializeModel := fun _ _ _ data _ => SerializerReturns (Ok data);
  marshalEnvelope := fun _ _ _ data => Some data
|}.

Definition answer : AttemptResponse :=
  let body := B "{'id':'msg_0','type':'t','customerId':'c','timestamp':'now'}" in
  let body := map (fun c => if c =? 39 then 34 else c) body in
  mkResponse 202 (Some [mkHeader (B "content-type") (B "application/json")]) (Some body)
    (len body) (len body) false zeroTime false false false false false false false
    ErrorCodeNone FailureReasonNone true (Some 7%nat).
Definition transport (r : AttemptRequest) : AttemptOutcome :=
  if Request_AttemptNumber r =? 1
  then mkOutcome None (Some (mkFailure ErrorCodeDNS FailureReasonNone false CauseCategoryNone))
  else mkOutcome (Some answer) None.
Definition E : environment := mkEnvironment
  (fun _ => false) (fun _ => None) (fun _ => None) (fun _ => false) (fun _ => false)
  (fun t => Some (Z.of_nat t)) (fun _ => true) None (fun _ => Some (B "key", true)) (fun _ => Some (B "now"))
  (fun _ bound => Some (bound - 1)) (fun _ _ => Some false) (fun _ => []) (fun _ r => Some (transport r))
  (fun _ => false) (fun _ => false).
Definition config (n : Z) : runtimeConfig :=
  mkConfig (B "https://api") (B "secret") 1000000000 2000000000 n 100000000 1000000000 [] true true.
Definition schema : SchemaDescriptor :=
  mkSchema DescriptorFormatVersion ∅ {[ B "m" := mkModel [] ]}
    {[ B "g" := {[ B "e" := mkEvent (B "t") (B "m") ]} ]}.
Definition inp : SendInput := mkSendInput (B "c") (B "k") (B "body").
Definition start : world :=
  mkWorld 0 [] (mkPermit 0 false 0 0 10000000000 false) (newRuntimeState 1 1000 10000000000) [].
Abbreviation send n := (sendAdmitted E (config n) (B "op_1") schema (B "g") (B "e") inp start).

Lemma sticky t t' : (t <= t')%nat -> deadlineErr E t = true -> deadlineErr E t' = true.
Proof. done. Defined.
Lemma delays n : 0 <= retryBaseDelay (config n) /\ 0 <= retryMaxDelay (config n).
Proof. cbn. lia. Defined.

Lemma sendAdmitted_refines_protocol_witness :
  1 <= maxAttempts (config 3) /\ exists r w', send 3 = (inr r, w') /\ r <> Panicked /\ r <> Crashed /\ r <> Failed None.
Proof.
  split; [cbn; lia|].
  destruct (sendAdmitted_refines_protocol E (config 3) sticky (delays 3) ltac:(cbn; lia)
    (B "op_1") schema (B "g") (B "e") inp start) as (r & w' & evs & Hc & _ & Hs).
  { by intros (members & event & t & now & _ & _ & [=]). }
  exists r, w'. split; [exact Hc|]. clear Hc. destruct Hs as [(e & -> & _)|(p & l & ph & _ & _ & _ & He)]; [done|].
  destruct r as [|[e|]| |]; done.
Defined.

Lemma send_ends n r : (send n).1 = inr r -> send n = (inr r, (send n).2).
Proof. intros <-. apply surjective_pairing. Defined.
Lemma send_trace n : trace (send n).2 = trace start ++ trace (send n).2.
Proof. symmetry. apply app_nil_l. Defined.


Lemma requests_are_the_same_witness :
  len (sent (trace (send 2).2)) = 2 /\
    StronglySorted Z.lt (map Request_AttemptNumber (sent (trace (send 2).2))).
Proof.
  split; [vm_compute; reflexivity|].
  eapply (requests_are_the_same E (config 2) sticky (delays 2) ltac:(cbn; lia)
    (B "op_1") schema (B "g") (B "e") inp start _ (send 2).2 (trace (send 2).2));
    [apply send_ends; vm_compute; reflexivity|apply send_trace].
Defined.

Lemma attempts_are_accounted_for_witness :
  starts (trace (send 2).2) = 2 /\ starts (trace (send 2).2) = finishes (trace (send 2).2).
Proof.
  split; [vm_compute; reflexivity|].
  assert (exists r, (send 2).1 = inr r) as [r Hr] by (eexists; vm_compute; reflexivity).
  destruct (attempts_are_accounted_for E (config 2) sticky (delays 2) ltac:(cbn; lia)
    (B "op_1") schema (B "g") (B "e") inp start r (send 2).2 (trace (send 2).2)
    (send_ends 2 r Hr) (send_trace 2)) as [H _]. exact H.
Defined.

Lemma accepted_result_was_validated_witness :
  exists res, (send 2).1 = inr (Accepted res) /\ exists p, prepared_ok (config 2) schema (B "g") (B "e") inp p.
Proof.
  assert (exists res, (send 2).1 = inr (Accepted res)) as [res Hr] by (eexists; vm_compute; reflexivity).
  exists res. split; [exact Hr|].
  destruct (accepted_result_was_validated E (config 2) sticky (delays 2) ltac:(cbn; lia)
    (B "op_1") schema (B "g") (B "e") inp start res (send 2).2 (trace (send 2).2)
    (send_ends 2 _ Hr) (send_trace 2)) as (p & _ & _ & Hp & _). exists p. exact Hp.
Defined.

Lemma delays_are_bounded_witness :
  EvSleep 100000000 ∈ trace (send 2).2 /\
    exists ms, 100000000 = ms * 1000000 /\ 0 <= ms <= Z.max 1000 (Milliseconds retryAfterCap).
Proof.
  assert (EvSleep 100000000 ∈ trace (send 2).2) as Hin by (vm_compute; repeat constructor).
  split; [exact Hin|].
  eapply (delays_are_bounded E (config 2) sticky (delays 2) ltac:(cbn; lia)
    (B "op_1") schema (B "g") (B "e") inp start _ (send 2).2 (trace (send 2).2));
    [apply send_ends; vm_compute; reflexivity|apply send_trace|exact Hin].
Defined.

Lemma capMillis_is_exponential_witness : capMillis (config 5) 3 9000 = Z.min 400 (Z.min 1000 9000).
Proof. rewrite (capMillis_is_exponential (config 5) 3 9000); [reflexivity|cbn; lia..]. Defined.
End Demo.
