(* ===== verification/H1.v ===== *)
(** * The HTTP/1.1 wire format (internal/h1/h1.go)

    Writing a request to a writer that may take the bytes piecemeal or fail, and
    reading a bounded response from a buffered reader.  A reader is the bytes that
    are still to come, the error that follows them and the size of its buffer.
    After an error nothing is read from the connection any more, so an operation
    that fails does not say what is left. *)
From S2P Require Import Prelude GoText Response.

Module Wire.

(** ** Data *)

(** h1.go, the limits that are not shared. *)
Definition maxTargetBytes : Z := 2048.
Definition maxInformationalResponses : Z := 8.

Inductive readError := EOF | ErrUnexpectedEOF | OtherReadError (n : nat).
#[export] Instance readError_eq_dec : EqDecision readError.
Proof. solve_decision. Defined.

(** h1.go, the framing errors, the errors of the connection, and [Stuck], which
    stands for a loop that ran out of its fuel. *)
Inductive h1Error :=
| ErrInvalidRequest | ErrProtocol | ErrHeaderLimit | ErrBodyTooLarge | ErrExpansionRatio
| ErrIncompleteBody | ErrShortWrite | ReadFailed (e : readError) | WriteFailed | Stuck.
#[export] Instance h1Error_eq_dec : EqDecision h1Error.
Proof. solve_decision. Defined.

(** h1.go, [Request], [Header], [Response]; a nil [Body] is [None]. *)
Record Request := mkRequest {
  Target : bytes;
  Authority : bytes;
  Authorization : bytes;
  UserAgent : bytes;
  IdempotencyKey : bytes;
  Traceparent : bytes;
  Tracestate : bytes;
  RequestBody : bytes
}.
Record Header := mkHeader { Name : bytes; Value : bytes }.
Record Response := mkResponse {
  Status : Z;
  Headers : list Header;
  Body : option bytes;
  CompressedBytes : Z;
  DecompressedBytes : Z;
  Truncated : bool
}.

(** ** Writing *)

(** h1.go, [validWireValue]. *)
Definition wire_char (c : Z) : bool := negb ((c =? 13) || (c =? 10) || (c =? 0)).
Definition validWireValue (value : bytes) : bool := forallb wire_char value.

(** h1.go, [validRequest]. *)
Definition validRequest (req : Request) : bool :=
  match Target req with
  | [] => false
  | c :: _ =>
    (len (Target req) <=? maxTargetBytes) && (c =? 47) &&
    negb (Authority req ==? []) && (len (RequestBody req) <=? BodyBytes) &&
    validWireValue (Target req) && validWireValue (Authority req) &&
    validWireValue (Authorization req) && negb (Authorization req ==? []) &&
    validWireValue (UserAgent req) && negb (UserAgent req ==? []) &&
    validWireValue (IdempotencyKey req) && negb (IdempotencyKey req ==? []) &&
    validWireValue (Traceparent req) && validWireValue (Tracestate req) &&
    ((Tracestate req ==? []) || negb (Traceparent req ==? []))
  end.

Definition CRLF : bytes := [13; 10].

(** h1.go, [WriteRequest], the header block. *)
Definition requestHeader (req : Request) : bytes :=
  B "POST " ++ Target req ++ B " HTTP/1.1" ++ CRLF ++
  B "host: " ++ Authority req ++ CRLF ++
  B "content-length: " ++ Itoa (len (RequestBody req)) ++ CRLF ++
  B "authorization: " ++ Authorization req ++ CRLF ++
  B "content-type: application/json" ++ CRLF ++
  B "accept-encoding: gzip" ++ CRLF ++
  B "user-agent: " ++ UserAgent req ++ CRLF ++
  B "idempotency-key: " ++ IdempotencyKey req ++ CRLF ++
  (if Traceparent req ==? [] then []
   else B "traceparent: " ++ Traceparent req ++ CRLF ++
        (if Tracestate req ==? [] then [] else B "tracestate: " ++ Tracestate req ++ CRLF)) ++
  CRLF.

(** What a writer and the commit callback see. *)
Inductive wireEvent := Wrote (data : bytes) | Committed.

Section writer.
(** The writer: the answer of its [i]-th call, a count and whether an error came
    with it. *)
Variable Write : nat -> bytes -> Z * bool.

(** h1.go, [writeAll] from call [i] on; [mark] says that [firstByte] is not nil. *)
Fixpoint writeLoop (fuel i : nat) (mark marked : bool) (data : bytes)
    : list wireEvent * option h1Error * nat :=
  match data with
  | [] => ([], None, i)
  | _ =>
    match fuel with
    | O => ([], Some Stuck, i)
    | S fuel =>
      let '(n, err) := Write i data in
      if (n <? 0) || (len data <? n) then ([], Some ErrShortWrite, S i)
      else
        let wrote := [Wrote (take (Z.to_nat n) data)] in
        let commit := (0 <? n) && negb marked && mark in
        let evs := wrote ++ (if commit then [Committed] else []) in
        if err then (evs, Some WriteFailed, S i)
        else if n =? 0 then (evs, Some ErrShortWrite, S i)
        else
          let '(rest, r, j) := writeLoop fuel (S i) mark (marked || commit) (drop (Z.to_nat n) data) in
          (evs ++ rest, r, j)
    end
  end.
Definition writeAll (i : nat) (mark : bool) (data : bytes) : list wireEvent * option h1Error * nat :=
  writeLoop (length data) i mark false data.

(** h1.go, [WriteRequest]. *)
Definition WriteRequest (req : Request) (mark : bool) : list wireEvent * option h1Error :=
  if negb (validRequest req) then ([], Some ErrInvalidRequest)
  else
    let '(header, err, i) := writeAll 0 false (requestHeader req) in
    match err with
    | Some e => (header, Some e)
    | None => let '(body, err, _) := writeAll i mark (RequestBody req) in (header ++ body, err)
    end.
End writer.

(** ** Reading lines *)

Section reader.
Context (size : nat) (ending : readError).

(** The text up to and with the first [c], and what follows. *)
Fixpoint cutAfter (c : Z) (s : bytes) : option (bytes * bytes) :=
  match s with
  | [] => None
  | x :: s' =>
    if x =? c then Some ([x], s')
    else match cutAfter c s' with Some (a, b) => Some (x :: a, b) | None => None end
  end.

(** [bufio.Reader.ReadSlice('\n')]: a fragment never exceeds the buffer. *)
Inductive sliceError := SliceOK | BufferFull | SliceFailed.
Definition ReadSlice (s : bytes) : bytes * sliceError * bytes :=
  match cutAfter 10 (take size s) with
  | Some (fragment, _) => (fragment, SliceOK, drop (length fragment) s)
  | None => if (size <=? length s)%nat then (take size s, BufferFull, drop size s)
            else (s, SliceFailed, [])
  end.

(** h1.go, [readLine], the loop over fragments. *)
Fixpoint readFragments (fuel : nat) (limit : Z) (line s : bytes) : result h1Error (bytes * bytes) :=
  match fuel with
  | O => Err Stuck
  | S fuel =>
    let '(fragment, err, s) := ReadSlice s in
    if limit + 2 <? len line + len fragment then Err ErrHeaderLimit
    else
      let line := line ++ fragment in
      match err with
      | SliceOK => Ok (line, s)
      | SliceFailed => Err (ReadFailed ending)
      | BufferFull => readFragments fuel limit line s
      end
  end.

(** h1.go, [readLine]. *)
Definition readLine (limit : Z) (s : bytes) : result h1Error (bytes * bytes) :=
  match readFragments (S (length s)) limit [] s with
  | Err e => Err e
  | Ok (line, s) =>
    if (len line <? 2) || negb (nth (length line - 2) line 0 =? 13) then Err ErrProtocol
    else Ok (take (length line - 2) line, s)
  end.

(** ** Parsing the head *)

(** h1.go, [parseStatus]. *)
Definition parseStatus (line : bytes) : result h1Error Z :=
  let at_ i := nth i line 0 in
  if (len line <? 12) || negb (take 9 line ==? B "HTTP/1.1 ") || (at_ 9%nat <? 49) || (53 <? at_ 9%nat) ||
     (at_ 10%nat <? 48) || (57 <? at_ 10%nat) || (at_ 11%nat <? 48) || (57 <? at_ 11%nat) ||
     ((12 <? len line) && negb (at_ 12%nat =? 32))
  then Err ErrProtocol
  else Ok ((at_ 9%nat - 48) * 100 + (at_ 10%nat - 48) * 10 + (at_ 11%nat - 48)).

(** h1.go, [tokenByte]. *)
Definition tokenByte (c : Z) : bool :=
  between 48 c 57 || between 97 c 122 || between 65 c 90 || ContainsByte (B "!#$%&'*+-.^_`|~") c.

Definition value_char (c : Z) : bool := negb ((c =? 127) || ((c <? 32) && negb (c =? 9))).

(** h1.go, [parseHeader]. *)
Definition parseHeader (line : bytes) : result h1Error Header :=
  match line with
  | [] => Err ErrProtocol
  | c :: _ =>
    if is_ows c then Err ErrProtocol
    else
      let '(name, after, found) := Cut line 58 in
      if negb found || (name ==? []) then Err ErrProtocol
      else if HeaderNameBytes <? len name then Err ErrHeaderLimit
      else if negb (forallb tokenByte name) then Err ErrProtocol
      else
        let value := trimOWS after in
        if HeaderValueBytes <? len value then Err ErrHeaderLimit
        else if negb (utf8_Valid value) then Err ErrProtocol
        else if negb (forallb value_char value) then Err ErrProtocol
        else Ok (mkHeader name value)
  end.

Definition named (name : bytes) (h : Header) : bool := EqualFold (Name h) name.

(** h1.go, [singleContentLength]: the length, when there is one. *)
Fixpoint lengthField (found : option bytes) (headers : list Header) : result h1Error (option bytes) :=
  match headers with
  | [] => Ok found
  | h :: headers =>
    if negb (named (B "content-length") h) then lengthField found headers
    else if bool_decide (found <> None) || (Value h ==? []) then Err ErrProtocol
    else lengthField (Some (Value h)) headers
  end.
Definition singleContentLength (headers : list Header) : result h1Error (option Z) :=
  match lengthField None headers with
  | Err e => Err e
  | Ok None => Ok None
  | Ok (Some value) =>
    if existsb (fun it => (rune it <? 48) || (57 <? rune it)) (range value) then Err ErrProtocol
    else match ParseUint10 value 63 with
         | None => Err ErrProtocol
         | Some n => Ok (Some (if BodyBytes <? n then BodyBytes + 1 else n))
         end
  end.

(** h1.go, [transferChunked]. *)
Fixpoint chunkedField (found : bool) (headers : list Header) : result h1Error bool :=
  match headers with
  | [] => Ok found
  | h :: headers =>
    if negb (named (B "transfer-encoding") h) then chunkedField found headers
    else if found || negb (EqualFold (Value h) (B "chunked")) then Err ErrProtocol
    else chunkedField true headers
  end.
Definition transferChunked (headers : list Header) : result h1Error bool := chunkedField false headers.

(** h1.go, [contentEncoding]: whether the body is gzip. *)
Fixpoint encodingField (found : bool) (encoding : bytes) (headers : list Header) : result h1Error bytes :=
  match headers with
  | [] => Ok encoding
  | h :: headers =>
    if negb (named (B "content-encoding") h) then encodingField found encoding headers
    else if found then Err ErrProtocol
    else encodingField true (ToLower (Value h)) headers
  end.
Definition contentEncoding (headers : list Header) : result h1Error bytes :=
  match encodingField false (B "identity") headers with
  | Err e => Err e
  | Ok encoding =>
    if negb (encoding ==? B "identity") && negb (encoding ==? B "gzip") then Err ErrProtocol else Ok encoding
  end.

(** ** Reading bodies *)

(** h1.go, [readContentLength]: the bytes read, and what is left or the error. *)
Definition readContentLength (length : Z) (s : bytes) : bytes * result h1Error bytes :=
  if len s <? length then
    (s, Err (ReadFailed (if (ending ==? EOF) && negb (s ==? []) then ErrUnexpectedEOF else ending)))
  else (take (Z.to_nat length) s, Ok (drop (Z.to_nat length) s)).

(** [io.CopyN] into the body. *)
Definition CopyN (n : Z) (s : bytes) : bytes * result h1Error bytes :=
  if len s <? n then (s, Err (ReadFailed ending)) else (take (Z.to_nat n) s, Ok (drop (Z.to_nat n) s)).

(** h1.go, [readChunked], the size of a chunk: its line up to a semicolon. *)
Definition chunkSize (line : bytes) : option Z :=
  let '(digits, _, _) := Cut line 59 in
  if digits ==? [] then None else ParseUint16 digits 63.

(** h1.go, [readChunked] with the body read so far. *)
Fixpoint chunkLoop (fuel : nat) (body s : bytes) : bytes * result h1Error bytes :=
  match fuel with
  | O => (body, Err Stuck)
  | S fuel =>
    match readLine 256 s with
    | Err e => (body, Err e)
    | Ok (line, s) =>
      match chunkSize line with
      | None => (body, Err ErrProtocol)
      | Some size =>
        if size =? 0 then
          match readLine HeaderBytes s with
          | Err e => (body, Err e)
          | Ok (trailer, s) => (body, if trailer ==? [] then Ok s else Err ErrProtocol)
          end
        else
          let remaining := BodyBytes + 1 - len body in
          if remaining <=? 0 then (body, Err ErrBodyTooLarge)
          else if remaining <=? size then
            let '(more, r) := CopyN remaining s in
            (body ++ more, match r with Err e => Err e | Ok _ => Err ErrBodyTooLarge end)
          else
            let '(more, r) := CopyN size s in
            let body := body ++ more in
            match r with
            | Err e => (body, Err e)
            | Ok s =>
              match readContentLength 2 s with
              | (_, Err e) => (body, Err e)
              | (end_, Ok s) => if end_ ==? CRLF then chunkLoop fuel body s else (body, Err ErrProtocol)
              end
            end
      end
    end
  end.
Definition readChunked (s : bytes) : bytes * result h1Error bytes := chunkLoop (S (length s)) [] s.
End reader.

(** ** Decompression *)

(** [compress/gzip] with [Multistream(false)]: opening a source, reading at most
    the given number of bytes, and what is left of the source. *)
Class Gzip := {
  gzReader : Type;
  NewReader : bytes -> option gzReader;
  Read : gzReader -> Z -> bytes * option readError * gzReader;
  unread : gzReader -> Z
}.

(** [io.Reader] of a gzip stream: it never returns more than it was asked for, and
    never nothing without an error. *)
Class GzipLaws (G : Gzip) := {
  Read_bounded z n d e z' : Read z n = (d, e, z') -> len d <= Z.max 0 n;
  Read_progress z n d e z' : Read z n = (d, e, z') -> 0 < n -> d <> [] \/ e <> None
}.

Section gzip.
Context {G : Gzip}.

(** h1.go, [decodeGzip], the loop. *)
Fixpoint gzipLoop (fuel : nat) (expansionLimit : Z) (z : gzReader) (decoded : bytes)
    : bytes * option h1Error :=
  match fuel with
  | O => (decoded, Some Stuck)
  | S fuel =>
    let remaining := expansionLimit + 1 - len decoded in
    let '(data, err, z) := Read z (Z.min remaining 32768) in
    let decoded := decoded ++ data in
    if negb (data ==? []) && (expansionLimit <? len decoded) then (decoded, Some ErrExpansionRatio)
    else if negb (data ==? []) && (BodyBytes <? len decoded) then (decoded, Some ErrBodyTooLarge)
    else match err with
         | Some EOF => (decoded, if unread z =? 0 then None else Some ErrProtocol)
         | Some _ => (decoded, Some ErrProtocol)
         | None => gzipLoop fuel expansionLimit z decoded
         end
  end.

(** h1.go, [decodeGzip]: the bytes and the error.  Every turn but the last adds a
    byte, and more than [BodyBytes] are never kept. *)
Definition decodeGzip (compressed : bytes) : bytes * option h1Error :=
  match NewReader compressed with
  | None => ([], Some ErrProtocol)
  | Some z => gzipLoop (Z.to_nat (BodyBytes + 2)) (len compressed * ExpansionRatio) z []
  end.

(** ** The response *)

Definition emptyResponse : Response := mkResponse 0 [] None 0 0 false.
Definition set_Headers hs (r : Response) :=
  mkResponse (Status r) hs (Body r) (CompressedBytes r) (DecompressedBytes r) (Truncated r).
Definition set_Body b (r : Response) :=
  mkResponse (Status r) (Headers r) (Some b) (CompressedBytes r) (DecompressedBytes r) (Truncated r).
Definition set_CompressedBytes n (r : Response) :=
  mkResponse (Status r) (Headers r) (Body r) n (DecompressedBytes r) (Truncated r).
Definition set_DecompressedBytes n (r : Response) :=
  mkResponse (Status r) (Headers r) (Body r) (CompressedBytes r) n (Truncated r).
Definition set_Truncated b (r : Response) :=
  mkResponse (Status r) (Headers r) (Body r) (CompressedBytes r) (DecompressedBytes r) b.

Context (size : nat) (ending : readError).

(** h1.go, [readFinalResponse], the header loop: the fields read, and what is left
    or the error.  It reads at most one line more than there may be fields. *)
Fixpoint readHeaders (fuel : nat) (hs : list Header) (headerBytes : Z) (s : bytes)
    : list Header * result h1Error bytes :=
  match fuel with
  | O => (hs, Err Stuck)
  | S fuel =>
    match readLine size ending (HeaderBytes + 2) s with
    | Err e => (hs, Err e)
    | Ok ([], s) => (hs, Ok s)
    | Ok (line, s) =>
      if len hs =? HeaderFields then (hs, Err ErrHeaderLimit)
      else match parseHeader line with
           | Err e => (hs, Err e)
           | Ok h =>
             let hs := hs ++ [h] in
             let headerBytes := headerBytes + (len (Name h) + 2 + len (Value h) + 2) in
             if HeaderBytes <? headerBytes then (hs, Err ErrHeaderLimit)
             else readHeaders fuel hs headerBytes s
           end
    end
  end.

(** How the body is framed. *)
Record framing := mkFraming { contentLength : option Z; chunked : bool; encoding : bytes }.

(** h1.go, [readFinalResponse], the checks on the fields of one head. *)
Definition headFraming (hs : list Header) : result h1Error framing :=
  match singleContentLength hs with
  | Err e => Err e
  | Ok length =>
    match transferChunked hs with
    | Err _ => Err ErrProtocol
    | Ok chunked =>
      if bool_decide (is_Some length) && chunked then Err ErrProtocol
      else match contentEncoding hs with
           | Err e => Err e
           | Ok encoding => Ok (mkFraming length chunked encoding)
           end
    end
  end.

(** h1.go, [readFinalResponse], one head: the status line and the fields. *)
Definition readHead (s : bytes) : Response * result h1Error (framing * bytes) :=
  match readLine size ending HeaderValueBytes s with
  | Err e => (emptyResponse, Err e)
  | Ok (statusLine, s) =>
    match parseStatus statusLine with
    | Err e => (emptyResponse, Err e)
    | Ok status =>
      let '(hs, r) := readHeaders (Z.to_nat (HeaderFields + 2)) [] 0 s in
      let response := mkResponse status hs None 0 0 false in
      match r with
      | Err e => (response, Err e)
      | Ok s => match headFraming hs with
                | Err e => (response, Err e)
                | Ok f => (response, Ok (f, s))
                end
      end
    end
  end.

(** h1.go, [readFinalResponse], the loop over informational responses. *)
Fixpoint readHeads (fuel : nat) (informational : Z) (s : bytes) : Response * result h1Error (framing * bytes) :=
  match fuel with
  | O => (emptyResponse, Err Stuck)
  | S fuel =>
    match readHead s with
    | (response, Err e) => (response, Err e)
    | (response, Ok (f, s)) =>
      if (Status response <? 100) || (200 <=? Status response) then (response, Ok (f, s))
      else
        let informational := informational + 1 in
        if (Status response =? 101) || (maxInformationalResponses <? informational) || chunked f ||
           match contentLength f with Some n => negb (n =? 0) | None => false end
        then (response, Err ErrProtocol)
        else readHeads fuel informational s
    end
  end.

(** h1.go, [readFinalResponse], the body by its framing; [None] when there is none. *)
Definition readBody (f : framing) (status : Z) (s : bytes) : option (bytes * result h1Error bytes) :=
  match contentLength f with
  | Some n => Some (readContentLength ending n s)
  | None =>
    if chunked f then Some (readChunked size ending s)
    else if ((100 <=? status) && (status <? 200)) || (status =? 204) || (status =? 304) then Some ([], Ok s)
    else None
  end.

(** h1.go, [readFinalResponse], after the head. *)
Definition readRest (f : framing) (response : Response) (s : bytes) : Response * result h1Error bytes :=
  let length := default 0 (contentLength f) in
  if BodyBytes <? length then (set_CompressedBytes length response, Err ErrBodyTooLarge)
  else
    match readBody f (Status response) s with
    | None => (response, Err ErrProtocol)
    | Some (compressed, r) =>
      let response := set_CompressedBytes (len compressed) response in
      match r with
      | Err err =>
        let response := if encoding f ==? B "identity"
                        then set_DecompressedBytes (CompressedBytes response) response else response in
        match err with
        | ErrBodyTooLarge | ErrProtocol | ErrHeaderLimit => (response, Err err)
        | _ => (set_Truncated true response, Err ErrIncompleteBody)
        end
      | Ok s =>
        let '(decoded, err) := if encoding f ==? B "gzip" then decodeGzip compressed else (compressed, None) in
        let response := set_DecompressedBytes (len decoded) response in
        match err with
        | Some err =>
          (set_Truncated ((err ==? ErrBodyTooLarge) || (err ==? ErrExpansionRatio)) response, Err err)
        | None =>
          if (Status response <? 200) || (300 <=? Status response) then
            (set_Truncated (ErrorBodyBytes <? len decoded) (set_Body [] response), Ok s)
          else (set_Body decoded response, Ok s)
        end
      end
    end.

(** h1.go, [readFinalResponse] ([ReadResponse], [ReadResponseWithHeaders]): the
    responses [onHeaders] was called with, the response, and what is left or the
    error. *)
Definition readFinalResponse (s : bytes) : list Response * (Response * result h1Error bytes) :=
  match readHeads (Z.to_nat (maxInformationalResponses + 2)) 0 s with
  | (response, Err e) => ([], (response, Err e))
  | (response, Ok (f, s)) => ([response], readRest f response s)
  end.
End gzip.

(** ** Lines *)

Lemma cutAfter_Some c s l r :
  cutAfter c s = Some (l, r) <-> exists p, l = p ++ [c] /\ (c ∉ p) /\ s = p ++ c :: r.
Proof.
  revert l r. induction s as [|x s IH]; intros l r; cbn [cutAfter].
  { split; [done|]. intros (p & _ & _ & H). by destruct p. }
  destruct (x =? c) eqn:E.
  - assert (x = c) as -> by lia. split.
    + intros [= <- <-]. exists []. split_and!; [done|by apply not_elem_of_nil|done].
    + intros (p & -> & Hp & Hs). destruct p as [|y p]; cbn in Hs; simplify_eq; [done|].
      destruct Hp. by left.
  - destruct (cutAfter c s) as [[a b]|] eqn:Ec.
    + split.
      * intros [= <- <-]. destruct (proj1 (IH a b) eq_refl) as (p & -> & Hp & ->).
        exists (x :: p). split_and!; [done| |done]. apply not_elem_of_cons. split; [|done]. lia.
      * intros (p & -> & Hp & Hs). destruct p as [|y p]; cbn in Hs; simplify_eq; [lia|].
        apply not_elem_of_cons in Hp as [_ Hp].
        assert (Some (a, b) = Some (p ++ [c], r)) as [= -> ->] by (rewrite (proj2 (IH (p ++ [c]) r)); [done|by exists p]).
        done.
    + split; [done|]. intros (p & -> & Hp & Hs). destruct p as [|y p]; cbn in Hs; simplify_eq; [lia|].
      apply not_elem_of_cons in Hp as [_ Hp].
      assert (None = Some (p ++ [c], r)) by (rewrite (proj2 (IH (p ++ [c]) r)); [done|by exists p]). done.
Qed.

Lemma cutAfter_None c s : cutAfter c s = None <-> c ∉ s.
Proof.
  induction s as [|x s IH]; cbn [cutAfter]; [split; [intros _; by apply not_elem_of_nil|done]|].
  rewrite not_elem_of_cons. destruct (x =? c) eqn:E.
  - split; [done|]. intros [H _]. lia.
  - destruct (cutAfter c s) as [[a b]|].
    + split; [done|]. intros [_ H]. by apply IH in H.
    + split; [|done]. intros _. split; [lia|by apply IH].
Qed.

Lemma cutAfter_app_Some c a b l r : cutAfter c a = Some (l, r) -> cutAfter c (a ++ b) = Some (l, r ++ b).
Proof. intros (p & -> & Hp & ->)%cutAfter_Some. apply cutAfter_Some. exists p. split_and!; [done..|by norm_app]. Qed.

Lemma cutAfter_app_None c a b : cutAfter c a = None ->
  cutAfter c (a ++ b) = match cutAfter c b with Some (l, r) => Some (a ++ l, r) | None => None end.
Proof.
  intros Ha%cutAfter_None. destruct (cutAfter c b) as [[l r]|] eqn:Eb.
  - apply cutAfter_Some in Eb as (p & -> & Hp & ->). apply cutAfter_Some. exists (a ++ p).
    split_and!; [by rewrite app_assoc| |by norm_app]. rewrite elem_of_app. tauto.
  - apply cutAfter_None in Eb. apply cutAfter_None. rewrite elem_of_app. tauto.
Qed.

(** The line a reader returns, whatever its buffer. *)
Definition fragments_spec (ending : readError) (limit : Z) (line s : bytes) : result h1Error (bytes * bytes) :=
  match cutAfter 10 s with
  | Some (l, rest) => if limit + 2 <? len line + len l then Err ErrHeaderLimit else Ok (line ++ l, rest)
  | None => if limit + 2 <? len line + len s then Err ErrHeaderLimit else Err (ReadFailed ending)
  end.

Lemma readFragments_spec size ending limit : (0 < size)%nat -> forall fuel line s,
  (length s < fuel)%nat -> readFragments size ending fuel limit line s = fragments_spec ending limit line s.
Proof.
  intros Hsize. induction fuel as [|fuel IH]; intros line s Hf; [lia|]. cbn [readFragments].
  unfold ReadSlice. pose proof (take_drop size s) as Hs.
  destruct (cutAfter 10 (take size s)) as [[f r]|] eqn:Ef.
  - pose proof (cutAfter_app_Some _ _ (drop size s) _ _ Ef) as Hc. rewrite Hs in Hc.
    unfold fragments_spec. rewrite Hc. destruct (_ <? _); [done|]. f_equal. f_equal.
    apply cutAfter_Some in Ef as (p & -> & _ & Ht). rewrite <- Hs at 1. rewrite Ht.
    replace ((p ++ 10 :: r) ++ drop size s) with ((p ++ [10]) ++ (r ++ drop size s)) by by norm_app.
    by rewrite drop_app_length.
  - pose proof (cutAfter_app_None _ _ (drop size s) Ef) as Hc. rewrite Hs in Hc.
    unfold fragments_spec. rewrite Hc. destruct (size <=? length s)%nat eqn:El.
    + apply Nat.leb_le in El.
      assert (length (take size s) = size) as Hlen by (rewrite length_take; lia).
      assert (length s = size + length (drop size s))%nat as Hls by (rewrite length_drop; lia).
      unfold len in *. destruct (limit + 2 <? _) eqn:E1.
      * destruct (cutAfter 10 (drop size s)) as [[l rest]|]; cbn beta iota; unfold len; rewrite ?length_app;
          rewrite (proj2 (Z.ltb_lt _ _)) by lia; reflexivity.
      * rewrite IH by lia. unfold fragments_spec, len.
        destruct (cutAfter 10 (drop size s)) as [[l rest]|]; cbn beta iota; rewrite ?length_app, ?app_assoc.
        -- by replace (Z.of_nat (length line + length (take size s)) + Z.of_nat (length l)) with
             (Z.of_nat (length line) + Z.of_nat (length (take size s) + length l)) by lia.
        -- by replace (Z.of_nat (length line + length (take size s)) + Z.of_nat (length (drop size s))) with
             (Z.of_nat (length line) + Z.of_nat (length s)) by lia.
    + apply Nat.leb_gt in El. rewrite drop_ge by lia. cbn [cutAfter]. destruct (_ <? _); done.
Qed.

(** A line is what precedes a CR LF, free of LF and within the limit. *)
Lemma readLine_Ok size ending limit s l rest : (0 < size)%nat ->
  readLine size ending limit s = Ok (l, rest) <-> s = l ++ CRLF ++ rest /\ (10 ∉ l) /\ len l <= limit.
Proof.
  intros Hsize. unfold readLine. rewrite readFragments_spec by (done || lia). unfold fragments_spec. cbn [app len].
  split.
  - destruct (cutAfter 10 s) as [[f r]|] eqn:Ec; [|by destruct (_ <? _)].
    destruct (_ <? _) eqn:El; [done|]. destruct (_ || _) eqn:Eb; [done|]. intros [= <- <-].
    apply cutAfter_Some in Ec as (p & -> & Hp & ->). unfold len in *. rewrite length_app in *. cbn [length] in *.
    apply orb_false_iff in Eb as [Eb1 Eb2%negb_false_iff].
    destruct p as [|a q _] using rev_ind; [cbn in *; lia|]. rewrite length_app in *. cbn [length] in *.
    replace (length q + 1 + 1 - 2)%nat with (length q) in * by lia.
    rewrite <- app_assoc in *. cbn [app] in *. rewrite app_nth2, Nat.sub_diag in Eb2 by lia. cbn in Eb2.
    assert (a = 13) as -> by lia. rewrite <- !app_assoc, take_app_length. apply not_elem_of_app in Hp as [Hq _].
    unfold CRLF. split_and!; [by norm_app|done|zlia].
  - intros (-> & Hl & Hlen). replace (l ++ CRLF ++ rest) with ((l ++ [13]) ++ 10 :: rest) by (unfold CRLF; by norm_app).
    assert (cutAfter 10 ((l ++ [13]) ++ 10 :: rest) = Some ((l ++ [13]) ++ [10], rest)) as ->.
    { apply cutAfter_Some. exists (l ++ [13]). split_and!; try done. apply not_elem_of_app. split; [done|].
      intros ?%list_elem_of_singleton. lia. }
    replace ((l ++ [13]) ++ [10]) with (l ++ [13; 10]) by by norm_app.
    unfold len in *. cbn [length]. rewrite !length_app. cbn [length].
    destruct (_ <? _) eqn:E1; [zlia|]. rewrite !length_app. cbn [length].
    replace (length l + 2 - 2)%nat with (length l) by lia. rewrite app_nth2, Nat.sub_diag by lia. cbn [nth].
    destruct (_ || _) eqn:E2; [apply orb_true_iff in E2 as [?|?]; [zlia|done]|]. by rewrite take_app_length.
Qed.

Lemma readLine_buffer size size' ending limit s : (0 < size)%nat -> (0 < size')%nat ->
  readLine size ending limit s = readLine size' ending limit s.
Proof. intros H H'. unfold readLine. by rewrite !readFragments_spec by (done || lia). Qed.

Lemma readLine_not_stuck size ending limit s : (0 < size)%nat -> readLine size ending limit s <> Err Stuck.
Proof.
  intros Hsize. unfold readLine. rewrite readFragments_spec by (done || lia). unfold fragments_spec.
  destruct (cutAfter 10 s) as [[f r]|]; destruct (_ <? _); try done. by destruct (_ || _).
Qed.

(** Reading a line succeeds exactly on what precedes the first CR LF when it
    holds no other LF and fits the limit, and the result does not depend on the size
    of the read buffer. *)
Theorem readLine_reads_one_line size ending limit s : (0 < size)%nat ->
  (forall l rest, readLine size ending limit s = Ok (l, rest) <->
     s = l ++ CRLF ++ rest /\ (10 ∉ l) /\ len l <= limit) /\
  (forall size', (0 < size')%nat -> readLine size' ending limit s = readLine size ending limit s) /\
  readLine size ending limit s <> Err Stuck.
Proof.
  intros H. split_and!; [intros; by apply readLine_Ok|intros; by apply readLine_buffer|by apply readLine_not_stuck].
Qed.

Lemma readLine_reads_one_line_witness :
  readLine 4 EOF 16 (B "HTTP" ++ CRLF ++ B "rest") = Ok (B "HTTP", B "rest") /\
  readLine 100 EOF 16 (B "HTTP" ++ CRLF ++ B "rest") = readLine 4 EOF 16 (B "HTTP" ++ CRLF ++ B "rest").
Proof.
  destruct (readLine_reads_one_line 4 EOF 16 (B "HTTP" ++ CRLF ++ B "rest") ltac:(lia)) as (H1 & H2 & _).
  split; [|apply H2; lia]. apply H1. split; [done|]. split; [|vm_compute; done].
  intros H. vm_compute in H. repeat (apply elem_of_cons in H as [H|H]; [done|]). by apply elem_of_nil in H.
Defined.

(** ** Chunked bodies *)

(** The line of a chunk: within its limit and without LF. *)
Definition chunk_line (l : bytes) : Prop := (10 ∉ l) /\ len l <= 256.

(** The chunked coding of RFC 9112 as far as it is accepted: no trailer fields. *)
Inductive Chunked : bytes -> bytes -> Prop :=
| Chunked_last l : chunk_line l -> chunkSize l = Some 0 -> Chunked (l ++ CRLF ++ CRLF) []
| Chunked_more l d wire body :
    chunk_line l -> chunkSize l = Some (len d) -> d <> [] -> Chunked wire body ->
    Chunked (l ++ CRLF ++ d ++ CRLF ++ wire) (d ++ body).

Lemma CopyN_Ok ending n s d rest : 0 <= n ->
  CopyN ending n s = (d, Ok rest) <-> s = d ++ rest /\ len d = n.
Proof.
  intros Hn. unfold CopyN. destruct (len s <? n) eqn:E.
  - split; [done|]. intros [-> Hd]. rewrite len_app in E. pose proof (len_nonneg rest). zlia.
  - unfold len in *. split.
    + intros [= <- <-]. rewrite take_drop, length_take. split; [done|zlia].
    + intros [-> <-]. rewrite Nat2Z.id, take_app_length, drop_app_length. done.
Qed.

Lemma CopyN_bounds ending n s d r : 0 <= n -> CopyN ending n s = (d, r) -> len d <= n /\ r <> Err Stuck.
Proof.
  intros Hn. unfold CopyN. destruct (len s <? n) eqn:E; intros [= <- <-]; (split; [|done]); [zlia|].
  unfold len in *. rewrite length_take. zlia.
Qed.

Lemma readContentLength_Ok ending n s d rest : 0 <= n ->
  readContentLength ending n s = (d, Ok rest) <-> s = d ++ rest /\ len d = n.
Proof.
  intros Hn. rewrite <- (CopyN_Ok ending) by done. unfold readContentLength, CopyN.
  destruct (len s <? n); [|done]. split; done.
Qed.

Lemma hex_value_nonneg v s n : 0 <= v -> hex_value v s = Some n -> 0 <= n.
Proof.
  revert v. induction s as [|c s IH]; intros v Hv; cbn; [intros [= <-]; done|].
  unfold hexDigit, between.
  destruct (_ && _) eqn:E1; [apply IH; zlia|]. destruct (_ && (c <=? 102)) eqn:E2; [apply IH; zlia|].
  destruct (_ && (c <=? 70)) eqn:E3; [apply IH; zlia|done].
Qed.

Lemma chunkSize_nonneg l n : chunkSize l = Some n -> 0 <= n.
Proof.
  unfold chunkSize, ParseUint16. destruct (Cut l 59) as [[d a] f]. destruct (_ ==? _); [done|].
  destruct d as [|c d]; [done|]. destruct (hex_value 0 (c :: d)) as [v|] eqn:E; [|done].
  destruct (_ <? _); [|done]. intros [= <-]. by eapply hex_value_nonneg in E.
Qed.

(** The chunk loop accepts a chunked body exactly. *)
Lemma chunkLoop_Ok size ending : (0 < size)%nat -> forall fuel acc s body rest,
  (length s < fuel)%nat -> len acc <= BodyBytes ->
  chunkLoop size ending fuel acc s = (body, Ok rest) <->
  exists wire more, s = wire ++ rest /\ body = acc ++ more /\ Chunked wire more /\ len body <= BodyBytes.
Proof.
  intros Hsize. induction fuel as [|fuel IH]; intros acc s body rest Hf Hacc; [lia|]. cbn [chunkLoop].
  split.
  - destruct (readLine size ending 256 s) as [[line s1]|] eqn:El; [|done].
    apply readLine_Ok in El as (-> & Hline); [|done]. destruct (chunkSize line) as [n|] eqn:En; [|done].
    pose proof (chunkSize_nonneg _ _ En) as Hn. destruct (n =? 0) eqn:E0.
    + destruct (readLine size ending HeaderBytes s1) as [[t s2]|] eqn:Et; [|done].
      apply readLine_Ok in Et as (-> & _); [|done]. destruct (t ==? []) eqn:Ett; [|done]. zbool. subst n.
      apply eqb_true_1 in Ett as ->. intros [= <- <-]. exists (line ++ CRLF ++ CRLF), []. rewrite app_nil_r.
      split_and!; [by norm_app|done|by constructor|done].
    + destruct (_ <=? 0) eqn:E1; [done|]. destruct (_ <=? n) eqn:E2; [by destruct (CopyN _ _ _) as [? []]|].
      destruct (CopyN ending n s1) as [d [s2|]] eqn:Ed; [|done]. apply CopyN_Ok in Ed as [-> Hd]; [|done].
      destruct (readContentLength ending 2 s2) as [e [s3|]] eqn:Ee; [|done].
      apply readContentLength_Ok in Ee as [-> _]; [|done]. destruct (e ==? CRLF) eqn:Ece; [|done].
      apply eqb_true_1 in Ece as ->. intros H. apply IH in H.
      * destruct H as (wire & more & -> & -> & Hch & Hlen). exists (line ++ CRLF ++ d ++ CRLF ++ wire), (d ++ more).
        split_and!; [by norm_app|by norm_app| |done]. constructor; [done|by rewrite Hd| |done].
        intros ->. change (len []) with 0 in Hd. zlia.
      * rewrite !length_app in Hf. change (length CRLF) with 2%nat in Hf. lia.
      * rewrite len_app, Hd. zlia.
  - intros (wire & more & -> & -> & Hch & Hlen). destruct Hch as [l Hl Hs|l d wire more Hl Hs Hd Hch].
    + rewrite <- !app_assoc, (proj2 (readLine_Ok _ _ _ _ l (CRLF ++ rest) Hsize)) by done. rewrite Hs. cbn [Z.eqb].
      rewrite (proj2 (readLine_Ok _ _ _ _ [] rest Hsize)) by (split_and!; [done|by apply not_elem_of_nil|done]).
      rewrite eqb_refl. by rewrite app_nil_r.
    + rewrite !len_app in Hlen. pose proof (len_nonneg more). pose proof (len_nonneg d).
      assert (len d <> 0) by (unfold len; by destruct d).
      rewrite <- !app_assoc, (proj2 (readLine_Ok _ _ _ _ l (d ++ CRLF ++ wire ++ rest) Hsize)) by (split; [by norm_app|done]).
      rewrite Hs. destruct (len d =? 0) eqn:E0; [zlia|]. destruct (_ <=? 0) eqn:E1; [zlia|].
      destruct (_ <=? len d) eqn:E2; [zlia|].
      rewrite (proj2 (CopyN_Ok ending (len d) (d ++ CRLF ++ wire ++ rest) d (CRLF ++ wire ++ rest) ltac:(lia))) by (split; [by norm_app|done]).
      rewrite (proj2 (readContentLength_Ok ending 2 (CRLF ++ wire ++ rest) CRLF (wire ++ rest) ltac:(lia))) by (split; [by norm_app|done]).
      rewrite eqb_refl. apply IH; [rewrite !length_app in *; cbn in Hf; lia|rewrite len_app; lia|].
      exists wire, more. split_and!; [done|by norm_app|done|]. rewrite !len_app. lia.
Qed.

(** C32. Reading a chunked body succeeds exactly on the chunked coding without
    trailer of a body of at most 1 MiB, and returns that body and what follows it. *)
Theorem readChunked_decodes size ending s body rest : (0 < size)%nat ->
  readChunked size ending s = (body, Ok rest) <->
  exists wire, s = wire ++ rest /\ Chunked wire body /\ len body <= BodyBytes.
Proof.
  intros Hsize. unfold readChunked. rewrite chunkLoop_Ok by (done || lia). split.
  - intros (wire & more & -> & -> & Hc & Hl). by exists wire.
  - intros (wire & -> & Hc & Hl). by exists wire, body.
Qed.

Lemma readChunked_decodes_witness :
  exists wire, B "3;x" ++ CRLF ++ B "abc" ++ CRLF ++ B "0" ++ CRLF ++ CRLF ++ B "next" = wire ++ B "next" /\
    Chunked wire (B "abc").
Proof.
  destruct (proj1 (readChunked_decodes 5 EOF (B "3;x" ++ CRLF ++ B "abc" ++ CRLF ++ B "0" ++ CRLF ++ CRLF ++ B "next")
    (B "abc") (B "next") ltac:(lia))) as (wire & Hw & Hc & _); [vm_compute; reflexivity|].
  exists wire. split; [exact Hw|exact Hc].
Defined.

(** However the body ends, at most one byte more than the limit is kept. *)
Lemma chunkLoop_bounds size ending : (0 < size)%nat -> forall fuel acc s body r,
  (length s < fuel)%nat -> len acc <= BodyBytes -> chunkLoop size ending fuel acc s = (body, r) ->
  len body <= BodyBytes + 1 /\ r <> Err Stuck.
Proof.
  intros Hsize. induction fuel as [|fuel IH]; intros acc s body r Hf Hacc; [lia|]. cbn [chunkLoop].
  destruct (readLine size ending 256 s) as [[line s1]|e] eqn:El.
  2:{ intros [= <- <-]. split; [lia|]. intros [= ->]. by eapply readLine_not_stuck. }
  apply readLine_Ok in El as (-> & Hline); [|done].
  destruct (chunkSize line) as [n|] eqn:En; [|intros [= <- <-]; split; [lia|done]].
  pose proof (chunkSize_nonneg _ _ En) as Hn. destruct (n =? 0) eqn:E0.
  { destruct (readLine size ending HeaderBytes s1) as [[t s2]|e] eqn:Et; intros [= <- <-].
    - split; [lia|]. by destruct (t ==? []).
    - split; [lia|]. intros [= ->]. by eapply readLine_not_stuck. }
  assert (forall m d, len (d : bytes) <= m -> m <= BodyBytes + 1 - len acc -> len (acc ++ d) <= BodyBytes + 1)
    as Hsum by (intros m d ? ?; rewrite len_app; lia).
  destruct (_ <=? 0) eqn:E1; [intros [= <- <-]; split; [lia|done]|]. destruct (_ <=? n) eqn:E2.
  { destruct (CopyN _ _ _) as [d r'] eqn:Ed. apply CopyN_bounds in Ed as [Hd Hr]; [|zlia]. intros [= <- <-].
    split; [eapply Hsum; [done|zlia]|]. destruct r'; congruence. }
  destruct (CopyN ending n s1) as [d r'] eqn:Ed. pose proof Ed as Ed'.
  apply CopyN_bounds in Ed as [Hd Hr]; [|done]. assert (len (acc ++ d) <= BodyBytes + 1) as Hlen by (eapply Hsum; [done|zlia]).
  destruct r' as [s2|e]; [|intros [= <- <-]; split; [done|congruence]].
  apply CopyN_Ok in Ed' as [-> Hdn]; [|done].
  destruct (readContentLength ending 2 s2) as [e [s3|x]] eqn:Ee.
  - apply readContentLength_Ok in Ee as [-> _]; [|done].
    destruct (e ==? CRLF); [|intros [= <- <-]; split; done]. apply IH.
    + rewrite !length_app in Hf. change (length CRLF) with 2%nat in Hf. lia.
    + rewrite len_app, Hdn. zlia.
  - intros [= <- <-]. split; [done|]. unfold readContentLength in Ee. destruct (_ <? 2); simplify_eq. by intros [=].
Qed.

(** ** Decompression *)

Lemma gzipLoop_bounds {G : Gzip} {L : GzipLaws G} fuel : forall limit z acc d e,
  0 <= len acc <= limit -> len acc <= BodyBytes -> BodyBytes + 1 - len acc < Z.of_nat fuel ->
  gzipLoop fuel limit z acc = (d, e) ->
  len d <= BodyBytes + 32768 /\ len d <= limit + 1 /\ e <> Some Stuck /\
  (e = None -> len d <= BodyBytes /\ len d <= limit).
Proof.
  induction fuel as [|fuel IH]; intros limit z acc d e Hl Hb Hf; [lia|]. cbn [gzipLoop].
  destruct (Read z (Z.min (limit + 1 - len acc) 32768)) as [[data err] z'] eqn:Er.
  pose proof (Read_bounded _ _ _ _ _ Er) as Hbd. pose proof (Read_progress _ _ _ _ _ Er ltac:(lia)) as Hp.
  assert (len (acc ++ data) = len acc + len data) as Happ by apply len_app.
  assert (len (acc ++ data) <= limit + 1 /\ len (acc ++ data) <= BodyBytes + 32768) as [H1 H2] by lia.
  destruct (negb _ && _) eqn:E1; [intros [= <- <-]; by split_and!|].
  destruct (negb _ && (BodyBytes <? _)) eqn:E2; [intros [= <- <-]; by split_and!|].
  assert (len (acc ++ data) <= limit /\ len (acc ++ data) <= BodyBytes) as [H3 H4].
  { destruct (data ==? []) eqn:Ed; cbn [negb andb] in *; [apply eqb_true_1 in Ed as ->; rewrite app_nil_r; lia|zlia]. }
  destruct err as [x|].
  - destruct x; intros [= <- <-]; try (by split_and!). destruct (unread z' =? 0); by split_and!.
  - destruct Hp as [Hp|Hp]; [|done]. pose proof (len_nonneg (acc ++ data)). apply IH; [lia|lia|].
    assert (0 < len data) by (unfold len; destruct data; [done|cbn; lia]). lia.
Qed.

Lemma decodeGzip_bounds {G : Gzip} {L : GzipLaws G} c d e : decodeGzip c = (d, e) ->
  len d <= BodyBytes + 32768 /\ len d <= len c * ExpansionRatio + 1 /\ e <> Some Stuck /\
  (e = None -> len d <= BodyBytes /\ len d <= len c * ExpansionRatio).
Proof.
  unfold decodeGzip. pose proof (len_nonneg c). destruct (NewReader c) as [z|].
  - apply gzipLoop_bounds; change (len []) with 0; unfold ExpansionRatio, BodyBytes; lia.
  - intros [= <- <-]. change (len []) with 0. unfold BodyBytes, ExpansionRatio. split_and!; [lia|lia|done|done].
Qed.

(** ** The head *)

(** What a field of a response satisfies. *)
Definition header_ok (h : Header) : Prop :=
  Name h <> [] /\ len (Name h) <= HeaderNameBytes /\ forallb tokenByte (Name h) = true /\
  len (Value h) <= HeaderValueBytes /\ utf8_Valid (Value h) = true /\ forallb value_char (Value h) = true.

Lemma parseHeader_ok line h : parseHeader line = Ok h -> header_ok h.
Proof.
  unfold parseHeader, header_ok. destruct line as [|c line]; [done|]. destruct (is_ows c); [done|].
  destruct (Cut (c :: line) 58) as [[name after] found]. cbv zeta. destruct (negb found || _) eqn:E1; [done|].
  destruct (_ <? len name) eqn:E2; [done|]. destruct (negb (forallb tokenByte name)) eqn:E3; [done|].
  destruct (_ <? len (trimOWS after)) eqn:E4; [done|]. destruct (negb (utf8_Valid _)) eqn:E5; [done|].
  destruct (negb (forallb value_char _)) eqn:E6; [done|]. intros [= <-]. cbn. destruct_bools. split_and!; zlia || done.
Qed.

Lemma parseHeader_not_stuck line : parseHeader line <> Err Stuck.
Proof.
  unfold parseHeader. destruct line as [|c line]; [done|]. destruct (is_ows c); [done|].
  destruct (Cut (c :: line) 58) as [[name after] found].
  by repeat match goal with |- context [if ?b then _ else _] => destruct b end.
Qed.

Definition field_size (h : Header) : Z := len (Name h) + 2 + len (Value h) + 2.

Definition fields_ok (hs : list Header) : Prop := len hs <= HeaderFields /\ Forall header_ok hs.

Lemma readHeaders_bounds size ending : (0 < size)%nat -> forall fuel hs n s hs' r,
  fields_ok hs -> n = zsum field_size hs -> n <= HeaderBytes -> HeaderFields + 1 - len hs < Z.of_nat fuel ->
  readHeaders size ending fuel hs n s = (hs', r) ->
  fields_ok hs' /\ r <> Err Stuck /\ (is_ok r = true -> zsum field_size hs' <= HeaderBytes).
Proof.
  intros Hsize. induction fuel as [|fuel IH]; intros hs n s hs' r [Hlen Hall] -> Hn Hf; [lia|]. cbn [readHeaders].
  destruct (readLine size ending (HeaderBytes + 2) s) as [[line s1]|e] eqn:El.
  2:{ intros [= <- <-]. split_and!; [done..| |done]. intros [= ->]. by eapply readLine_not_stuck. }
  destruct line as [|c line]; [intros [= <- <-]; by split_and!|].
  destruct (len hs =? HeaderFields) eqn:Ef; [intros [= <- <-]; by split_and!|].
  destruct (parseHeader (c :: line)) as [h|e] eqn:Ep.
  2:{ intros [= <- <-]. split_and!; [done..| |done]. intros [= ->]. by eapply parseHeader_not_stuck. }
  assert (len (hs ++ [h]) = len hs + 1) as Hl by (rewrite len_app; done).
  assert (fields_ok (hs ++ [h])) as Hok.
  { split; [zlia|]. apply Forall_app. split; [done|]. constructor; [by eapply parseHeader_ok|constructor]. }
  destruct (HeaderBytes <? _) eqn:Eh; [intros [= <- <-]; by split_and!|]. apply IH; [done| |zlia|lia].
  rewrite zsum_app. cbn. unfold field_size. lia.
Qed.

Lemma parseStatus_range line n : parseStatus line = Ok n -> 100 <= n <= 599.
Proof.
  unfold parseStatus. destruct (_ || _) eqn:E; [done|]. intros [= <-].
  repeat match goal with H : _ || _ = false |- _ => apply orb_false_iff in H as [? ?] end. zlia.
Qed.
Lemma parseStatus_not_stuck line : parseStatus line <> Err Stuck.
Proof. unfold parseStatus. by destruct (_ || _). Qed.

Lemma lengthField_Ok headers : forall found v, lengthField found headers = Ok v ->
  match found with
  | Some x => v = Some x /\ List.filter (named (B "content-length")) headers = []
  | None => match v with
            | None => List.filter (named (B "content-length")) headers = []
            | Some x => exists h, List.filter (named (B "content-length")) headers = [h] /\ Value h = x
            end
  end.
Proof.
  induction headers as [|h headers IH]; intros found v; cbn [lengthField List.filter].
  { intros [= <-]. by destruct found. }
  destruct (named _ h) eqn:En; cbn [negb]; [|by apply IH].
  destruct found as [x|]; [by rewrite bool_decide_eq_true_2|]. rewrite bool_decide_eq_false_2 by auto. cbn [orb].
  destruct (Value h ==? []); [done|]. intros [-> H]%IH. exists h. by rewrite H.
Qed.

Lemma singleContentLength_Ok hs v : singleContentLength hs = Ok v ->
  match v with
  | None => List.filter (named (B "content-length")) hs = []
  | Some n => 0 <= n <= BodyBytes + 1 /\ exists h m,
      List.filter (named (B "content-length")) hs = [h] /\ ParseUint10 (Value h) 63 = Some m /\
      n = Z.min m (BodyBytes + 1)
  end.
Proof.
  unfold singleContentLength. destruct (lengthField None hs) as [[x|]|] eqn:E; [| |done].
  - apply lengthField_Ok in E as (h & Hh & <-). destruct (existsb _ _); [done|].
    destruct (ParseUint10 (Value h) 63) as [m|] eqn:Em; [|done]. intros [= <-].
    apply ParseUint10_range in Em as Hm.
    destruct (BodyBytes <? m) eqn:E; unfold BodyBytes in *;
      (split; [zlia|]; exists h, m; split_and!; [done|done|zlia]).
  - apply lengthField_Ok in E. by intros [= <-].
Qed.

(** The framing of a head is never ambiguous. *)
Lemma headFraming_Ok hs f : headFraming hs = Ok f ->
  (encoding f = B "identity" \/ encoding f = B "gzip") /\
  singleContentLength hs = Ok (contentLength f) /\ transferChunked hs = Ok (chunked f) /\
  (contentLength f <> None -> chunked f = false).
Proof.
  unfold headFraming. destruct (singleContentLength hs) as [n|] eqn:En; [|done].
  destruct (transferChunked hs) as [c|] eqn:Ec; [|done]. destruct (bool_decide _ && c) eqn:Eb; [done|].
  unfold contentEncoding. destruct (encodingField _ _ _) as [e|] eqn:Ee; [|done].
  destruct (negb _ && negb _) eqn:E2; [done|]. intros [= <-]. cbn. split_and!; try done.
  - apply andb_false_iff in E2 as [E2%negb_false_iff|E2%negb_false_iff]; apply eqb_true_1 in E2; tauto.
  - intros Hn. destruct c; [|done]. rewrite andb_true_r in Eb. apply bool_decide_eq_false in Eb. by destruct n; destruct Eb.
Qed.

Lemma lengthField_not_stuck hs : forall f, lengthField f hs <> Err Stuck.
Proof. induction hs as [|h hs IH]; intros f; cbn [lengthField]; [done|]. destruct (negb _); [done|]. by destruct (_ || _). Qed.
Lemma encodingField_not_stuck hs : forall f e, encodingField f e hs <> Err Stuck.
Proof. induction hs as [|h hs IH]; intros f e; cbn [encodingField]; [done|]. destruct (negb _); [done|]. by destruct f. Qed.

Lemma headFraming_not_stuck hs : headFraming hs <> Err Stuck.
Proof.
  unfold headFraming, singleContentLength, contentEncoding.
  destruct (lengthField None hs) as [v|e] eqn:El.
  2:{ intros [= ->]. by eapply lengthField_not_stuck. }
  match goal with |- context [match ?m with Ok length => _ | Err e => Err e end] => destruct m as [n|e] eqn:En end.
  2:{ intros [= ->]. destruct v as [v|]; [|done]. destruct (existsb _ _); [done|]. by destruct (ParseUint10 _ _). }
  destruct (transferChunked hs); [|done]. destruct (_ && _); [done|].
  destruct (encodingField _ _ hs) as [x|e] eqn:Ee; [by destruct (_ && _)|]. intros [= ->]. by eapply encodingField_not_stuck.
Qed.

(** *** Bounds *)

(** A response of which only the head is known. *)
Definition head_only (r : Response) : Prop :=
  fields_ok (Headers r) /\ 0 <= Status r <= 599 /\
  r = mkResponse (Status r) (Headers r) None 0 0 false.

Definition head_complete (r : Response) (f : framing) : Prop :=
  100 <= Status r /\ zsum field_size (Headers r) <= HeaderBytes /\ headFraming (Headers r) = Ok f.

Lemma head_only_empty : head_only emptyResponse.
Proof. repeat split; cbn; try done; constructor. Qed.

Lemma readHead_bounds size ending s r res : (0 < size)%nat -> readHead size ending s = (r, res) ->
  head_only r /\ res <> Err Stuck /\ (forall f s', res = Ok (f, s') -> head_complete r f).
Proof.
  intros Hsize. unfold readHead. pose proof head_only_empty.
  destruct (readLine size ending HeaderValueBytes s) as [[l s1]|e] eqn:El.
  2:{ intros [= <- <-]. split_and!; [done| |done]. intros [= ->]. by eapply readLine_not_stuck. }
  destruct (parseStatus l) as [n|e] eqn:En.
  2:{ intros [= <- <-]. split_and!; [done| |done]. intros [= ->]. by eapply parseStatus_not_stuck. }
  apply parseStatus_range in En.
  destruct (readHeaders size ending (Z.to_nat (HeaderFields + 2)) [] 0 s1) as [hs x] eqn:Eh.
  apply readHeaders_bounds in Eh as (Hf & Hx & Hsz); [|done|by split; [|constructor]|done|done|done].
  assert (head_only (mkResponse n hs None 0 0 false)) by (split_and!; cbn; try done; lia).
  destruct x as [s2|e]; [|intros [= <- <-]; split_and!; [done|congruence|done]].
  destruct (headFraming hs) as [f|e] eqn:Ef; intros [= <- <-]; split_and!; try done.
  - intros f' s' [= <- <-]. split_and!; cbn; [lia|by apply Hsz|done].
  - intros [= ->]. by eapply headFraming_not_stuck.
Qed.

Lemma readHeads_bounds size ending : (0 < size)%nat -> forall fuel n s r res,
  0 <= n <= maxInformationalResponses -> maxInformationalResponses + 1 - n < Z.of_nat fuel ->
  readHeads size ending fuel n s = (r, res) ->
  head_only r /\ res <> Err Stuck /\ (forall f s', res = Ok (f, s') -> head_complete r f /\ 200 <= Status r).
Proof.
  intros Hsize. induction fuel as [|fuel IH]; intros n s r res Hn Hf; [lia|]. cbn [readHeads].
  destruct (readHead size ending s) as [r1 res1] eqn:Eh. apply readHead_bounds in Eh as (Hr & Hs & Hc); [|done].
  destruct res1 as [[f s1]|e]; [|intros [= <- <-]; split_and!; [done|congruence|done]].
  specialize (Hc f s1 eq_refl). destruct (_ || (200 <=? _)) eqn:Ei.
  - intros [= <- <-]. split_and!; try done. intros f' s' [= <- <-]. split; [done|].
    destruct Hc as [Hc _]. apply orb_true_iff in Ei as [Ei|Ei]; zlia.
  - cbv zeta. match goal with |- (if ?b then _ else _) = _ -> _ => destruct b eqn:Eb end;
      [intros [= <- <-]; by split_and!|].
    repeat (apply orb_false_iff in Eb as [Eb ?]). apply IH; zlia.
Qed.

(** What is kept of a body, whether it was read to its end or not. *)
Lemma readBody_bounds size ending f status s c r : (0 < size)%nat ->
  0 <= default 0 (contentLength f) <= BodyBytes -> readBody size ending f status s = Some (c, r) ->
  len c <= BodyBytes + 1 /\ r <> Err Stuck /\ (is_ok r = true -> len c <= BodyBytes).
Proof.
  intros Hsize Hn. unfold readBody. destruct (contentLength f) as [n|]; cbn in Hn.
  - intros [= E]. unfold readContentLength in E. destruct (len s <? n) eqn:El.
    + injection E as <- <-. split_and!; [zlia|done|done].
    + injection E as <- <-. unfold len. rewrite length_take. split_and!; [lia|done|lia].
  - destruct (chunked f).
    + intros [= E]. pose proof E as E'. unfold readChunked in E. apply chunkLoop_bounds in E as [H1 H2]; [|done|lia|done].
      split_and!; try done. destruct r as [rest|]; [|done]. intros _. unfold readChunked in E'.
      apply chunkLoop_Ok in E' as (wire & more & _ & _ & _ & Hl); [done|done|lia|done].
    + destruct (_ || _); [|done]. by intros [= <- <-].
Qed.

(** What [onHeaders] saw is the head of the response that is returned. *)
Lemma readRest_keeps_head {G : Gzip} size ending f r s :
  Status (readRest size ending f r s).1 = Status r /\ Headers (readRest size ending f r s).1 = Headers r.
Proof.
  unfold readRest. destruct (BodyBytes <? _); [by destruct r|]. destruct (readBody _ _ _ _ _) as [[c [s'|e]]|]; [| |by destruct r].
  - destruct (if encoding f ==? B "gzip" then _ else _) as [d [e|]]; [by destruct r|]. destruct (_ || _); by destruct r.
  - destruct (encoding f ==? B "identity"); destruct e; by destruct r.
Qed.

Lemma readFinalResponse_seen {G : Gzip} size ending s seen r res : (0 < size)%nat ->
  readFinalResponse size ending s = (seen, (r, res)) ->
  seen = [] \/ seen = [mkResponse (Status r) (Headers r) None 0 0 false] /\ 200 <= Status r <= 599.
Proof.
  intros Hsize. unfold readFinalResponse.
  destruct (readHeads size ending (Z.to_nat (maxInformationalResponses + 2)) 0 s) as [r0 res0] eqn:Eh.
  apply readHeads_bounds in Eh as (Hr & _ & Hc); [|done|done|done]. destruct res0 as [[f s1]|e]; [|intros [= <- _ _]; by left].
  destruct (Hc f s1 eq_refl) as [_ H200]. destruct Hr as (_ & Hst & Hr). intros [= <- Hrest]. right.
  pose proof (readRest_keeps_head size ending f r0 s1) as [H1 H2]. rewrite Hrest in H1, H2. cbn in H1, H2. rewrite H1, H2, <- Hr.
  split; [done|lia].
Qed.

Lemma readFinalResponse_bounded {G : Gzip} {L : GzipLaws G} size ending s seen r res : (0 < size)%nat ->
  readFinalResponse size ending s = (seen, (r, res)) ->
  res <> Err Stuck /\ fields_ok (Headers r) /\
  0 <= CompressedBytes r <= BodyBytes + 1 /\ 0 <= DecompressedBytes r <= BodyBytes + 32768 /\
  (is_ok res = false -> Body r = None) /\
  (is_ok res = true ->
   200 <= Status r <= 599 /\ zsum field_size (Headers r) <= HeaderBytes /\
   seen = [mkResponse (Status r) (Headers r) None 0 0 false] /\
   CompressedBytes r <= BodyBytes /\ DecompressedBytes r <= BodyBytes /\
   exists b, Body r = Some b /\
     if between 200 (Status r) 299 then len b = DecompressedBytes r else b = []).
Proof.
  intros Hsize. unfold readFinalResponse.
  destruct (readHeads size ending (Z.to_nat (maxInformationalResponses + 2)) 0 s) as [r0 res0] eqn:Eh.
  apply readHeads_bounds in Eh as (Hr & Hst & Hc); [|done|done|done]. destruct Hr as (Hf & Hstatus & Hr).
  destruct res0 as [[f s1]|e].
  2:{ intros [= <- <- <-]. rewrite Hr. cbn. unfold BodyBytes. split_and!; try done; lia || congruence. }
  destruct (Hc f s1 eq_refl) as [(H100 & Hsz & Hfr) H200]. clear Hc. intros [= <- Hrest].
  apply headFraming_Ok in Hfr as (Henc & Hlen & _ & _). apply singleContentLength_Ok in Hlen.
  rewrite Hr in Hrest |- *. set (st := Status r0) in *. set (hs := Headers r0) in *. clearbody st hs. clear Hr r0.
  assert (0 <= default 0 (contentLength f) <= BodyBytes + 1) as Hn by (destruct (contentLength f); cbn; [tauto|done]).
  unfold readRest in Hrest. destruct (BodyBytes <? _) eqn:Eb.
  { injection Hrest as <- <-. cbn. unfold BodyBytes in *. split_and!; try done; lia. }
  destruct (readBody size ending f _ s1) as [[c x]|] eqn:Ebody.
  2:{ injection Hrest as <- <-. cbn. unfold BodyBytes in *. split_and!; try done; lia. }
  apply readBody_bounds in Ebody as (Hc1 & Hx & Hc2); [|done|zlia]. pose proof (len_nonneg c) as Hc0.
  destruct x as [s2|e].
  2:{ destruct (encoding f ==? B "identity"); destruct e; injection Hrest as <- <-; cbn; unfold BodyBytes in *;
        split_and!; try done; try lia; congruence. }
  specialize (Hc2 eq_refl).
  assert (exists d e, (if encoding f ==? B "gzip" then decodeGzip c else (c, None)) = (d, e) /\
    len d <= BodyBytes + 32768 /\ e <> Some Stuck /\ (e = None -> len d <= BodyBytes)) as (d & e & Hd & Hd1 & Hd2 & Hd3).
  { destruct (encoding f ==? B "gzip").
    - destruct (decodeGzip c) as [d e] eqn:Ed. apply decodeGzip_bounds in Ed as (H1 & _ & H2 & H3). exists d, e. split_and!; try done.
      intros He. by apply H3.
    - exists c, None. split_and!; try done. unfold BodyBytes in *. lia. }
  rewrite Hd in Hrest. pose proof (len_nonneg d) as Hd0. destruct e as [e|].
  { injection Hrest as <- <-. cbn. unfold BodyBytes in *. split_and!; try done; try lia. congruence. }
  specialize (Hd3 eq_refl). cbn [Status set_DecompressedBytes set_CompressedBytes] in Hrest. unfold between.
  destruct ((st <? 200) || (300 <=? st)) eqn:Es; injection Hrest as <- <-; cbn; unfold BodyBytes in *;
    split_and!; try done; try lia; intros _; split_and!; try done; try lia.
  - exists []. split; [done|]. destruct (_ && _) eqn:E; [|done]. apply orb_true_iff in Es as [Es|Es]; zlia.
  - exists d. split; [done|]. apply orb_false_iff in Es as [Es1 Es2]. destruct (_ && _) eqn:E; [done|].
    apply andb_false_iff in E as [E|E]; zlia.
Qed.

(** On any input reading a response comes to an end with at most 100 well-
    formed fields, one byte more than 1 MiB of wire body and one buffer more than 1
    MiB of decoded body in hand; a success has a status from 200 to 599, stays
    within every limit, and carries a body only for 2xx. *)
Theorem readFinalResponse_bounds {G : Gzip} {L : GzipLaws G} size ending s seen r res : (0 < size)%nat ->
  readFinalResponse size ending s = (seen, (r, res)) ->
  res <> Err Stuck /\ fields_ok (Headers r) /\
  0 <= CompressedBytes r <= BodyBytes + 1 /\ 0 <= DecompressedBytes r <= BodyBytes + 32768 /\
  (is_ok res = false -> Body r = None) /\
  (is_ok res = true ->
   200 <= Status r <= 599 /\ zsum field_size (Headers r) <= HeaderBytes /\
   seen = [mkResponse (Status r) (Headers r) None 0 0 false] /\
   CompressedBytes r <= BodyBytes /\ DecompressedBytes r <= BodyBytes /\
   exists b, Body r = Some b /\
     if between 200 (Status r) 299 then len b = DecompressedBytes r else b = []).
Proof. apply readFinalResponse_bounded. Qed.

(** *** Reading what a server writes *)

Definition renderField (h : Header) : bytes := Name h ++ B ": " ++ Value h ++ CRLF.
Definition renderStatus (st : Z) (reason : bytes) : bytes :=
  B "HTTP/1.1 " ++ [48 + st / 100; 48 + st / 10 mod 10; 48 + st mod 10] ++ B " " ++ reason.
Definition renderHead (st : Z) (reason : bytes) (hs : list Header) : bytes :=
  renderStatus st reason ++ CRLF ++ concat (map renderField hs) ++ CRLF.

(** A field as a server may write it: its value carries no outer white space. *)
Definition canonical (h : Header) : Prop := header_ok h /\ trimOWS (Value h) = Value h.

Lemma tokenByte_not c : tokenByte c = true -> c <> 58 /\ c <> 10 /\ is_ows c = false.
Proof.
  intros H. split_and!; [by intros -> | by intros -> |].
  unfold is_ows. destruct (c =? 32) eqn:E1; [zbool; by subst|]. destruct (c =? 9) eqn:E2; [zbool; by subst|done].
Qed.
Lemma value_char_not c : value_char c = true -> c <> 10.
Proof. by intros H ->. Qed.

Lemma forallb_notin (f : Z -> bool) x s : f x = false -> forallb f s = true -> x ∉ s.
Proof.
  intros Hx H Hin. rewrite forallb_forall in H. apply list_elem_of_In, H in Hin. congruence.
Qed.

Lemma Cut_app a sep b : (sep ∉ a) -> Cut (a ++ sep :: b) sep = (a, b, true).
Proof.
  induction a as [|c a IH]; cbn; [by rewrite Z.eqb_refl|]. intros [Hc Ha]%not_elem_of_cons.
  rewrite (proj2 (Z.eqb_neq c sep)) by auto. by rewrite IH.
Qed.

Lemma parseHeader_renders h : canonical h -> parseHeader (Name h ++ B ": " ++ Value h) = Ok h.
Proof.
  intros [(Hn & Hnl & Htok & Hvl & Hutf & Hv) Htrim]. unfold parseHeader.
  destruct (Name h) as [|c name] eqn:En; [done|]. cbn [app]. pose proof Htok as Htok'. cbn in Htok'.
  apply andb_true_iff in Htok' as [Hc _]. destruct (tokenByte_not c Hc) as (_ & _ & ->).
  change (c :: name ++ B ": " ++ Value h) with ((c :: name) ++ 58 :: (32 :: Value h)).
  rewrite Cut_app by by apply (forallb_notin tokenByte). cbn [negb orb]. unfold eqb at 1. rewrite bool_decide_eq_false_2 by done.
  rewrite (proj2 (Z.ltb_ge _ _)) by done. rewrite Htok. cbn [negb].
  change (trimOWS (32 :: Value h)) with (trimOWS (Value h)). rewrite Htrim, (proj2 (Z.ltb_ge _ _)) by done.
  rewrite Hutf, Hv. cbn. rewrite <- En. by destruct h.
Qed.

Lemma parseStatus_renders st reason : 100 <= st <= 599 -> parseStatus (renderStatus st reason) = Ok st.
Proof.
  intros Hst. unfold parseStatus, renderStatus.
  pose proof (Z.div_mod st 100 ltac:(lia)). pose proof (Z.mod_pos_bound st 10 ltac:(lia)).
  pose proof (Z.div_mod st 10 ltac:(lia)). pose proof (Z.mod_pos_bound (st / 10) 10 ltac:(lia)).
  pose proof (Z.div_mod (st / 10) 10 ltac:(lia)). pose proof (Z.mod_pos_bound st 100 ltac:(lia)).
  assert (st / 10 / 10 = st / 100) as H10 by (rewrite Z.div_div by lia; done).
  set (a := st / 100) in *. set (b := st / 10 mod 10) in *. set (c := st mod 10) in *.
  change (B "HTTP/1.1 ") with [72; 84; 84; 80; 47; 49; 46; 49; 32]. change (B " ") with [32]. cbn [app nth take].
  unfold len. cbn [length]. rewrite eqb_refl.
  match goal with |- (if ?x then _ else _) = _ => destruct x eqn:E end.
  - repeat (apply orb_true_iff in E as [E|E]); try discriminate E; try zlia.
  - f_equal. lia.
Qed.

Lemma readHeaders_renders size ending : (0 < size)%nat -> forall fuel hs more rest,
  Forall canonical more -> len hs + len more <= HeaderFields ->
  zsum field_size hs + zsum field_size more <= HeaderBytes -> (length more < fuel)%nat ->
  readHeaders size ending fuel hs (zsum field_size hs) (concat (map renderField more) ++ CRLF ++ rest) =
  (hs ++ more, Ok rest).
Proof.
  intros Hsize. induction fuel as [|fuel IH]; intros hs more rest Hall Hlen Hsz Hf; [lia|]. cbn [readHeaders].
  destruct more as [|h more]; cbn [map concat app].
  { rewrite (proj2 (readLine_Ok _ _ _ _ [] rest Hsize)) by (split_and!; [done|apply not_elem_of_nil|done]).
    by rewrite app_nil_r. }
  apply Forall_cons in Hall as [Hh Hall]. pose proof Hh as [(Hn & _ & Htok & _ & _ & Hv) _].
  unfold renderField at 1. set (tail := concat (map renderField more) ++ CRLF ++ rest).
  cbn [zsum] in Hsz. unfold field_size at 2 in Hsz.
  assert (0 <= zsum field_size more) as Hm by (apply zsum_nonneg; intros; unfold field_size, len; lia).
  assert (0 <= zsum field_size hs) as Hm' by (apply zsum_nonneg; intros; unfold field_size, len; lia).
  rewrite (proj2 (readLine_Ok _ _ _ _ (Name h ++ B ": " ++ Value h) tail Hsize)).
  2:{ split_and!; [unfold tail; by rewrite <- !app_assoc| |].
      - rewrite !not_elem_of_app. split_and!; [by apply (forallb_notin tokenByte)| |by apply (forallb_notin value_char)].
        intros H. vm_compute in H. repeat (apply elem_of_cons in H as [H|H]; [done|]). by apply elem_of_nil in H.
      - rewrite !len_app. change (len (B ": ")) with 2. lia. }
  destruct (Name h ++ B ": " ++ Value h) as [|c l] eqn:El; [by destruct (Name h)|]. rewrite <- El.
  unfold len in Hlen. cbn [length] in Hlen.
  rewrite (proj2 (Z.eqb_neq (len hs) HeaderFields)) by (unfold len; lia). rewrite parseHeader_renders by done.
  rewrite (proj2 (Z.ltb_ge _ _)) by lia.
  replace (zsum field_size hs + _) with (zsum field_size (hs ++ [h])) by (rewrite zsum_app; cbn; unfold field_size; lia).
  unfold tail. rewrite IH; [by rewrite <- app_assoc|done| | |cbn in Hf; lia].
  - unfold len. rewrite length_app. cbn. lia.
  - rewrite zsum_app. cbn. unfold field_size at 2. lia.
Qed.

Lemma readHead_renders size ending st reason hs f rest : (0 < size)%nat ->
  100 <= st <= 599 -> (10 ∉ reason) -> len reason <= HeaderValueBytes - 13 ->
  Forall canonical hs -> len hs <= HeaderFields -> zsum field_size hs <= HeaderBytes -> headFraming hs = Ok f ->
  readHead size ending (renderHead st reason hs ++ rest) = (mkResponse st hs None 0 0 false, Ok (f, rest)).
Proof.
  intros Hsize Hst Hr Hrl Hall Hlen Hsz Hf. unfold readHead, renderHead. rewrite <- !app_assoc.
  rewrite (proj2 (readLine_Ok _ _ _ _ (renderStatus st reason) (concat (map renderField hs) ++ CRLF ++ rest) Hsize)).
  - rewrite parseStatus_renders by done.
    rewrite (readHeaders_renders size ending Hsize _ [] hs rest) by (cbn; unfold len, HeaderFields in *; cbn; (done || lia)).
    cbn [app]. by rewrite Hf.
  - split_and!; [done| |].
    + unfold renderStatus. rewrite !not_elem_of_app. split_and!; try done.
      * intros H. vm_compute in H. repeat (apply elem_of_cons in H as [H|H]; [done|]). by apply elem_of_nil in H.
      * pose proof (Z.div_le_lower_bound st 100 1). pose proof (Z.mod_pos_bound (st / 10) 10). pose proof (Z.mod_pos_bound st 10).
        intros Hin. repeat (apply elem_of_cons in Hin as [Hin|Hin]; [lia|]). by apply elem_of_nil in Hin.
      * intros H%list_elem_of_singleton. done.
    + unfold renderStatus. rewrite !len_app. change (len (B "HTTP/1.1 ")) with 9. change (len (B " ")) with 1.
      unfold len at 1. cbn [length]. lia.
Qed.

(** The body as its framing puts it on the wire. *)
Definition framed (f : framing) (wire body : bytes) : Prop :=
  encoding f = B "identity" /\ len body <= BodyBytes /\
  ((contentLength f = Some (len body) /\ wire = body) \/
   (contentLength f = None /\ chunked f = true /\ Chunked wire body)).

Lemma readBody_framed size ending f st wire body rest : (0 < size)%nat -> framed f wire body ->
  readBody size ending f st (wire ++ rest) = Some (body, Ok rest) /\ default 0 (contentLength f) <= BodyBytes.
Proof.
  intros Hsize (_ & Hlen & [[Hcl ->]|(Hcl & Hch & Hc)]); unfold readBody; rewrite Hcl; cbn [default].
  - split; [|done]. f_equal. apply readContentLength_Ok; [apply len_nonneg|done].
  - rewrite Hch. split; [|done]. f_equal. apply chunkLoop_Ok; [done|lia|done|]. by exists wire, body.
Qed.

(** C31. A 2xx response that a server writes with valid fields and an unambiguous
    identity framing, by content length or chunked, is read back as it was written,
    the head is announced once before the body, and what follows the response stays
    in the reader. *)
Theorem readFinalResponse_roundtrip {G : Gzip} size ending st reason hs f wire body rest : (0 < size)%nat ->
  200 <= st <= 299 -> (10 ∉ reason) -> len reason <= HeaderValueBytes - 13 ->
  Forall canonical hs -> len hs <= HeaderFields -> zsum field_size hs <= HeaderBytes ->
  headFraming hs = Ok f -> framed f wire body ->
  readFinalResponse size ending (renderHead st reason hs ++ wire ++ rest) =
  ([mkResponse st hs None 0 0 false], (mkResponse st hs (Some body) (len body) (len body) false, Ok rest)).
Proof.
  intros Hsize Hst Hr Hrl Hall Hlen Hsz Hf Hw. unfold readFinalResponse.
  change (Z.to_nat (maxInformationalResponses + 2)) with (S 9). cbn [readHeads].
  rewrite (readHead_renders size ending st reason hs f) by (done || lia). cbn [Status].
  rewrite (proj2 (Z.leb_le 200 st)) by lia. rewrite orb_true_r. unfold readRest.
  destruct (readBody_framed size ending f st wire body rest Hsize Hw) as [Hb Hl]. destruct Hw as (He & _).
  rewrite (proj2 (Z.ltb_ge _ _)) by done. cbn [Status]. rewrite Hb, He.
  change (B "identity" ==? B "gzip") with false. cbn.
  rewrite (proj2 (Z.ltb_ge st 200)), (proj2 (Z.leb_gt 300 st)) by lia. done.
Qed.

(** *** Requests *)

Fixpoint taken (evs : list wireEvent) : bytes :=
  match evs with
  | [] => []
  | Wrote d :: evs => d ++ taken evs
  | Committed :: evs => taken evs
  end.
Fixpoint commits (evs : list wireEvent) : Z :=
  match evs with
  | [] => 0
  | Wrote _ :: evs => commits evs
  | Committed :: evs => 1 + commits evs
  end.

Lemma taken_app a b : taken (a ++ b) = taken a ++ taken b.
Proof. induction a as [|[] a IH]; cbn; [done|by rewrite IH, app_assoc|done]. Qed.
Lemma commits_app a b : commits (a ++ b) = commits a + commits b.
Proof. induction a as [|[] a IH]; cbn; lia. Qed.

Lemma writeLoop_spec Write mark : forall fuel i marked data evs err j,
  (length data <= fuel)%nat -> writeLoop Write fuel i mark marked data = (evs, err, j) ->
  err <> Some Stuck /\ (exists tail, data = taken evs ++ tail /\ (err = None -> tail = [])) /\
  commits evs = if mark && negb marked && negb (taken evs ==? []) then 1 else 0.
Proof.
  induction fuel as [|fuel IH]; intros i marked data evs err j Hf; cbn [writeLoop];
    (destruct data as [|c data]; [intros [= <- <- <-]; cbn; rewrite andb_false_r; split_and!; [done|by exists []|done]|]).
  { cbn in Hf. lia. }
  destruct (Write i (c :: data)) as [n e] eqn:Ew. remember (c :: data) as s eqn:Hs.
  destruct ((n <? 0) || _) eqn:En.
  { intros [= <- <- <-]. cbn. rewrite andb_false_r. split_and!; [done|by exists s|done]. }
  apply orb_false_iff in En as [En1 En2]. zbool. set (d := take (Z.to_nat n) s) in *.
  assert (s = d ++ drop (Z.to_nat n) s) as Hsplit by (symmetry; apply take_drop).
  assert (length d = Z.to_nat n) as Hd by (unfold d, len in *; rewrite length_take; lia).
  set (commit := (0 <? n) && negb marked && mark).
  assert ((d ==? []) = negb (0 <? n)) as Hempty.
  { destruct d as [|x d']; cbn in Hd; [rewrite eqb_refl; symmetry; apply negb_true_iff, Z.ltb_ge; lia|].
    unfold eqb. rewrite bool_decide_eq_false_2 by done. symmetry. apply negb_false_iff, Z.ltb_lt. lia. }
  assert (forall evs', taken (([Wrote d] ++ (if commit then [Committed] else [])) ++ evs') = d ++ taken evs') as Ht.
  { intros evs'. rewrite taken_app. destruct commit; cbn; by rewrite app_nil_r. }
  assert (commits ([Wrote d] ++ (if commit then [Committed] else [])) = if commit then 1 else 0) as Hcm by by destruct commit.
  assert (commit = mark && negb marked && negb (d ==? [])) as Hcommit.
  { rewrite Hempty, negb_involutive. unfold commit. by destruct (0 <? n), marked, mark. }
  pose proof (Ht []) as Ht0. rewrite !app_nil_r in Ht0. cbn [app] in Ht, Ht0, Hcm |- *. destruct e.
  { intros [= <- <- <-]. rewrite Ht0, Hcm, Hcommit. split_and!; [done|by exists (drop (Z.to_nat n) s)|done]. }
  destruct (n =? 0) eqn:E0.
  { intros [= <- <- <-]. rewrite Ht0, Hcm, Hcommit. split_and!; [done|by exists (drop (Z.to_nat n) s)|done]. }
  destruct (writeLoop Write fuel (S i) mark (marked || commit) (drop (Z.to_nat n) s)) as [[rest r] k] eqn:Er.
  intros [= <- <- <-]. cbn [app]. apply IH in Er as (H1 & (tail & H2 & H3) & H4); [|rewrite length_drop; unfold len in *; zbool; lia].
  rewrite Ht, app_comm_cons, commits_app, Hcm, H4. split_and!; [done|exists tail; split; [by rewrite <- app_assoc, <- H2|done]|].
  assert ((0 <? n) = true) as Hpos by (zbool; apply Z.ltb_lt; lia).
  assert ((d ++ taken rest ==? []) = false) as ->.
  { unfold eqb. apply bool_decide_eq_false. intros [-> _]%app_nil. rewrite eqb_refl, Hpos in Hempty. done. }
  rewrite Hcommit, Hempty, Hpos. by destruct mark, marked, (taken rest ==? []).
Qed.

Lemma writeAll_spec Write i mark data evs err j : writeAll Write i mark data = (evs, err, j) ->
  err <> Some Stuck /\ (exists tail, data = taken evs ++ tail /\ (err = None -> tail = [])) /\
  commits evs = if mark && negb (taken evs ==? []) then 1 else 0.
Proof. intros H%writeLoop_spec; [|done]. by rewrite andb_true_r in H. Qed.

Lemma WriteRequest_spec Write req evs err : WriteRequest Write req true = (evs, err) ->
  err <> Some Stuck /\
  (exists tail, requestHeader req ++ RequestBody req = taken evs ++ tail /\ (err = None -> tail = [])) /\
  commits evs = (if len (requestHeader req) <? len (taken evs) then 1 else 0) /\
  (validRequest req = false -> evs = [] /\ err = Some ErrInvalidRequest).
Proof.
  unfold WriteRequest. pose proof (len_nonneg (requestHeader req)). destruct (validRequest req); cbn [negb].
  2:{ intros [= <- <-]. cbn [taken commits]. change (len []) with 0. rewrite (proj2 (Z.ltb_ge _ _)) by lia.
      split_and!; [done| |done|done]. by eexists. }
  destruct (writeAll Write 0 false (requestHeader req)) as [[hd e] i] eqn:Eh.
  apply writeAll_spec in Eh as (H1 & (t1 & H2 & H3) & H4). cbn [andb] in H4. destruct e as [e|].
  { intros [= <- <-]. split_and!; [done| | |done].
    - exists (t1 ++ RequestBody req). by rewrite H2, app_assoc.
    - rewrite H4, H2, len_app. pose proof (len_nonneg t1). by rewrite (proj2 (Z.ltb_ge _ _)) by lia. }
  specialize (H3 eq_refl) as ->. rewrite app_nil_r in H2.
  destruct (writeAll Write i true (RequestBody req)) as [[bd e] j] eqn:Eb.
  apply writeAll_spec in Eb as (H5 & (t2 & H6 & H7) & H8). intros [= <- <-].
  rewrite taken_app, commits_app, H4, H8, H2, len_app. split_and!; [done| | |done].
  - exists t2. split; [by rewrite H6, <- app_assoc|done].
  - cbn [andb]. destruct (taken bd) as [|x l]; [rewrite eqb_refl; change (len []) with 0|].
    + by rewrite (proj2 (Z.ltb_ge _ _)) by lia.
    + unfold eqb. rewrite bool_decide_eq_false_2 by done. cbn [negb].
      by rewrite (proj2 (Z.ltb_lt _ _)) by (unfold len; cbn; lia).
Qed.

(** Whatever the writer does, the bytes it took are a prefix of the request,
    all of it on success, the commit callback ran once when a byte of the body was
    taken and never otherwise, and an invalid request writes nothing. *)
Theorem WriteRequest_commits Write req evs err : WriteRequest Write req true = (evs, err) ->
  err <> Some Stuck /\
  (exists tail, requestHeader req ++ RequestBody req = taken evs ++ tail /\ (err = None -> tail = [])) /\
  commits evs = (if len (requestHeader req) <? len (taken evs) then 1 else 0) /\
  (validRequest req = false -> evs = [] /\ err = Some ErrInvalidRequest).
Proof. apply WriteRequest_spec. Qed.

(** The header block, line by line. *)
Definition requestLines (req : Request) : list bytes :=
  [B "POST " ++ Target req ++ B " HTTP/1.1"; B "host: " ++ Authority req;
   B "content-length: " ++ Itoa (len (RequestBody req)); B "authorization: " ++ Authorization req;
   B "content-type: application/json"; B "accept-encoding: gzip"; B "user-agent: " ++ UserAgent req;
   B "idempotency-key: " ++ IdempotencyKey req] ++
  (if Traceparent req ==? [] then [] else [B "traceparent: " ++ Traceparent req]) ++
  (if Tracestate req ==? [] then [] else [B "tracestate: " ++ Tracestate req]).

(** A server that reads lines up to an empty one. *)
Fixpoint serverLines (fuel size : nat) (ending : readError) (limit : Z) (s : bytes) : option (list bytes * bytes) :=
  match fuel with
  | O => None
  | S fuel =>
    match readLine size ending limit s with
    | Err _ => None
    | Ok ([], rest) => Some ([], rest)
    | Ok (l, rest) =>
      match serverLines fuel size ending limit rest with
      | Some (ls, rest) => Some (l :: ls, rest)
      | None => None
      end
    end
  end.

Lemma serverLines_renders size ending limit rest : (0 < size)%nat -> 0 <= limit -> forall ls fuel,
  Forall (fun l => l <> [] /\ (10 ∉ l) /\ len l <= limit) ls -> (length ls < fuel)%nat ->
  serverLines fuel size ending limit (concat (map (fun l => l ++ CRLF) ls) ++ CRLF ++ rest) = Some (ls, rest).
Proof.
  intros Hsize Hl. induction ls as [|l ls IH]; intros [|fuel] Hall Hf; cbn in Hf; try lia; cbn [serverLines map concat app].
  { by rewrite (proj2 (readLine_Ok _ _ _ _ [] rest Hsize)) by (split_and!; [done|apply not_elem_of_nil|done]). }
  apply Forall_cons in Hall as [(H1 & H2 & H3) Hall].
  rewrite <- !app_assoc, (proj2 (readLine_Ok _ _ _ _ l (concat (map (fun l => l ++ CRLF) ls) ++ CRLF ++ rest) Hsize)) by done.
  destruct l; [done|]. rewrite IH by (done || lia). done.
Qed.

Lemma requestHeader_lines req : (Tracestate req ==? []) || negb (Traceparent req ==? []) = true ->
  requestHeader req = concat (map (fun l => l ++ CRLF) (requestLines req)) ++ CRLF.
Proof.
  intros Ht. unfold requestHeader, requestLines.
  destruct (Traceparent req ==? []), (Tracestate req ==? []); try done;
    cbn [app map concat]; rewrite <- !app_assoc; cbn [app]; by rewrite ?app_nil_r.
Qed.

Lemma literal_no_lf s : existsb (Z.eqb 10) s = false -> 10 ∉ s.
Proof.
  intros H Hin. assert (existsb (Z.eqb 10) s = true); [|congruence].
  apply existsb_exists. exists 10. split; [by apply list_elem_of_In|done].
Qed.
Lemma Itoa_no_lf n : 0 <= n -> 10 ∉ Itoa n.
Proof.
  intros Hn. apply (forallb_notin isDigit); [done|]. apply decimal_spec; [done| |by right].
  rewrite Nat2Z.inj_succ, Z2Nat.id by apply Z.log2_nonneg.
  destruct (decide (n = 0)) as [->|]; [done|]. apply Z.log2_spec. lia.
Qed.

Lemma requestLines_ok req : validRequest req = true -> Forall (fun l => l <> [] /\ (10 ∉ l)) (requestLines req).
Proof.
  unfold validRequest. intros H. destruct (Target req) as [|c t] eqn:Et; [done|]. rewrite <- Et in H.
  repeat match goal with H : _ && _ = true |- _ => apply andb_true_iff in H as [H ?] end.
  assert (forall v, validWireValue v = true -> 10 ∉ v) as Hv by (intros v; by apply (forallb_notin wire_char)).
  pose proof (Itoa_no_lf _ (len_nonneg (RequestBody req))) as Hi.
  assert (forall lit v, lit <> [] -> existsb (Z.eqb 10) lit = false -> (10 ∉ v) -> lit ++ v <> [] /\ (10 ∉ lit ++ v)) as Hline.
  { intros lit v Hne Hl Hin. split; [by destruct lit|]. apply not_elem_of_app. split; [by apply literal_no_lf|done]. }
  unfold requestLines. rewrite !Forall_app. split_and!.
  - repeat (apply Forall_cons; split); [| | | | | | | |by constructor];
      first [apply Hline; [done|done|] | split; [done|by apply literal_no_lf]]; auto.
    apply not_elem_of_app. split; [auto|by apply literal_no_lf].
  - destruct (Traceparent req ==? []); constructor; [apply Hline; auto|constructor]; done.
  - destruct (Tracestate req ==? []); constructor; [apply Hline; auto|constructor]; done.
Qed.

(** A server that reads a valid request line by line sees exactly the intended
    request line and header fields, no value can add or split a line, and the body
    starts where the header block ends. *)
Theorem request_lines_are_unambiguous size ending limit req rest : (0 < size)%nat -> 0 <= limit ->
  validRequest req = true -> Forall (fun l => len l <= limit) (requestLines req) ->
  serverLines 11 size ending limit (requestHeader req ++ RequestBody req ++ rest) =
  Some (requestLines req, RequestBody req ++ rest).
Proof.
  intros Hsize Hl Hv Hall. pose proof (requestLines_ok req Hv) as Hok.
  assert ((Tracestate req ==? []) || negb (Traceparent req ==? []) = true) as Ht.
  { unfold validRequest in Hv. destruct (Target req); [done|]. by apply andb_true_iff in Hv as [_ ?]. }
  rewrite (requestHeader_lines req Ht), <- app_assoc. apply serverLines_renders; [done|done| |].
  - apply Forall_lookup. intros i l Hi. pose proof (Forall_lookup_1 _ _ _ _ Hok Hi) as [? ?].
    pose proof (Forall_lookup_1 _ _ _ _ Hall Hi). done.
  - unfold requestLines. rewrite !length_app. by destruct (Traceparent req ==? []), (Tracestate req ==? []); cbn; lia.
Qed.

(** ** Examples *)

#[local] Instance noGzip : Gzip := {|
  gzReader := bytes;
  NewReader := fun s => Some s;
  Read := fun z n => (take (Z.to_nat n) z, if len z <=? n then Some EOF else None, drop (Z.to_nat n) z);
  unread := fun z => len z
|}.
#[local] Instance noGzip_laws : GzipLaws noGzip.
Proof.
  split.
  - intros z n d e z' [= <- <- <-]. unfold len. rewrite length_take. lia.
  - intros z n d e z' [= <- <- <-] Hn. destruct (len z <=? n) eqn:E; [by right|left]. zbool. unfold len in E.
    intros H. apply (f_equal length) in H. rewrite length_take in H. cbn in H. lia.
Defined.

Definition someFields : list Header := [mkHeader (B "content-length") (B "2"); mkHeader (B "x") (B "y z")].
Definition someRequest : Request :=
  mkRequest (B "/v1/messages") (B "api.example") (B "Bearer k") (B "ua") (B "key") (B "00-1") (B "a=b") (B "{}").

Lemma readFinalResponse_roundtrip_witness :
  readFinalResponse 16 EOF (renderHead 202 (B "Accepted") someFields ++ B "ok" ++ B "next") =
  ([mkResponse 202 someFields None 0 0 false],
   (mkResponse 202 someFields (Some (B "ok")) 2 2 false, Ok (B "next"))).
Proof.
  apply (readFinalResponse_roundtrip 16 EOF 202 (B "Accepted") someFields
    (mkFraming (Some 2) false (B "identity")) (B "ok") (B "ok") (B "next")); try (vm_compute; done).
  - lia.
  - apply literal_no_lf. reflexivity.
  - repeat constructor; vm_compute; done.
  - split; [done|]. split; [vm_compute; done|]. left. done.
Defined.

Lemma readFinalResponse_bounds_witness :
  exists seen r res, readFinalResponse 16 EOF (renderHead 202 [] someFields ++ B "o") = (seen, (r, res)) /\
    Truncated r = true /\ res = Err ErrIncompleteBody /\ Body r = None.
Proof.
  do 3 eexists. split; [vm_compute; reflexivity|]. split; [reflexivity|]. split; [reflexivity|].
  eapply (readFinalResponse_bounds 16 EOF (renderHead 202 [] someFields ++ B "o")); [lia|vm_compute; reflexivity|reflexivity].
Defined.

(** A writer that takes ten bytes at a time and fails at its thirtieth call. *)
Definition slowWriter (i : nat) (data : bytes) : Z * bool := (Z.min 10 (len data), Nat.eqb i 30).

Lemma WriteRequest_commits_witness :
  exists evs, WriteRequest slowWriter someRequest true = (evs, None) /\ commits evs = 1.
Proof.
  eexists. split; [vm_compute; reflexivity|].
  match goal with |- commits ?evs = 1 =>
    destruct (WriteRequest_commits slowWriter someRequest evs None ltac:(vm_compute; reflexivity)) as (_ & _ & H & _) end.
  etransitivity; [exact H|vm_compute; reflexivity].
Defined.

Lemma request_lines_are_unambiguous_witness :
  serverLines 11 32 EOF 200 (requestHeader someRequest ++ RequestBody someRequest ++ []) =
  Some (requestLines someRequest, RequestBody someRequest ++ []).
Proof. apply request_lines_are_unambiguous; [lia|lia|vm_compute; reflexivity|vm_compute; repeat constructor; done]. Defined.

End Wire.
