(* ===== verification/Serialize.v ===== *)
(** * The serializer (serialize.go, the objects of ordered.go)

    An input is walked along its model descriptor and becomes an ordered object.
    Generators have state, so a computation takes the number of generator calls
    made before it; it ends with a value or an error, with the panic of a
    generator, or it does not end: [Diverge] is what running out of fuel stands
    for. *)
From S2P Require Import Prelude GoText GoValue Errors Descriptor.

(** ** Ordered objects *)

(** What [serializeModelAtUnchecked] stores in an object: text it made, a value of
    the input as it is, a list or an object.  An object is its keys in order, each
    with its value. *)
Inductive wv :=
| WNil
| WText (s : bytes)
| WValue (v : gv)
| WList (items : list wv)
| WObject (fields : list (bytes * wv)).

Abbreviation OrderedObject := (list (bytes * wv)).

(** ordered.go, [OrderedObject.Set]. *)
Fixpoint Set_ {V} (key : bytes) (value : V) (o : list (bytes * V)) : list (bytes * V) :=
  match o with
  | [] => [(key, value)]
  | (k, v) :: o => if k ==? key then (k, value) :: o else (k, v) :: Set_ key value o
  end.

(** ** JSON values *)

(** [strconv.ParseInt(s, 10, 64)] succeeds. *)
Definition ParseInt64_ok (s : bytes) : bool :=
  match s with
  | 43 :: d => match ParseUint10 d 64 with Some n => n <? 2 ^ 63 | None => false end
  | 45 :: d => match ParseUint10 d 64 with Some n => n <=? 2 ^ 63 | None => false end
  | d => match ParseUint10 d 64 with Some n => n <? 2 ^ 63 | None => false end
  end.

(** [strconv.ParseFloat(s, 64)]: [None] for an error, else whether the number is
    finite. *)
Class Floats := ParseFloat : bytes -> option bool.

(** serialize.go, [jsonAncestor]. *)
Record jsonAncestor := mkAncestor { ancestorKind : kind; pointer : nat * nat; ancestorLength : nat }.
#[export] Instance jsonAncestor_eq_dec : EqDecision jsonAncestor.
Proof. solve_decision. Defined.

(** The ancestor a map, pointer or slice that is not nil enters. *)
Definition ancestorOf (v : gv) : option jsonAncestor :=
  match v with
  | VMap (Some a) _ => Some (mkAncestor KindMap (a, 0%nat) 0)
  | VPointer (Some a) => Some (mkAncestor KindPointer (a, 0%nat) 0)
  | VSlice (Some p) n => Some (mkAncestor KindSlice p n)
  | _ => None
  end.

Fixpoint foldM {S A} (f : S -> A -> option S) (l : list A) (s : S) : option S :=
  match l with
  | [] => Some s
  | x :: l => match f s x with Some s => foldM f l s | None => None end
  end.

(** The first key that is not a valid string, as an issue. *)
Fixpoint keyIssue (es : list (mapKey * gv)) (p : bytes) : option serializerValidationError :=
  match es with
  | [] => None
  | (KOther, _) :: _ => Some (validationError (B "INVALID_JSON") (p ++ B "[{*}]"))
  | (KString k, _) :: es =>
    if utf8_Valid k then keyIssue es p else Some (validationError (B "INVALID_UNICODE") (p ++ B "[{*}]"))
  end.

Definition keyText (k : mapKey) : bytes := match k with KString s => s | KOther => [] end.

(** [sort.Slice(keys, ...)]. *)
Fixpoint insertEntry (e : mapKey * gv) (es : list (mapKey * gv)) : list (mapKey * gv) :=
  match es with
  | [] => [e]
  | x :: es' => if bytes_le (keyText e.1) (keyText x.1) then e :: es else x :: insertEntry e es'
  end.
Definition sortEntries (es : list (mapKey * gv)) : list (mapKey * gv) := foldr insertEntry [] es.

Definition addIssue (i : serializerValidationError) (e : serializerValidationErrors) : serializerValidationErrors :=
  (add (IssueError i) e).1.

Definition itemPath (p : bytes) (i : nat) : bytes := p ++ B "[" ++ Itoa (Z.of_nat i) ++ B "]".

Section serializer.
Context {F : Floats} (h : memory).

(** serialize.go, [validateJSONAt]; [None] when the fuel is used up. *)
Fixpoint validateJSONAt (fuel : nat) (v : gv) (p : bytes) (active : list jsonAncestor)
    (issues : serializerValidationErrors) : option serializerValidationErrors :=
  match fuel with
  | O => None
  | S fuel =>
    let issue c p := Some (addIssue (validationError (B c) p) issues) in
    match v with
    | VNil => Some issues
    | VNumber s =>
      match ParseFloat s with
      | None => issue "INVALID_JSON" p
      | Some false => issue "NON_FINITE_NUMBER" p
      | Some true => Some issues
      end
    | VMap None _ | VPointer None | VSlice None _ => Some issues
    | _ =>
      let entered := ancestorOf v in
      if match entered with Some a => bool_decide (a ∈ active) | None => false end then
        Some (addIssue (mkIssue (B "INVALID_JSON") (B "CYCLE") p) issues)
      else
        let active := match entered with Some a => a :: active | None => active end in
        match v with
        | VPointer _ => validateJSONAt fuel (pointee h v) p active issues
        | VFloat finite _ => if finite then Some issues else issue "NON_FINITE_NUMBER" p
        | VBool _ | VInt _ | VUint _ => Some issues
        | VString s | VGenerated s => if utf8_Valid s then Some issues else issue "INVALID_UNICODE" p
        | VSlice _ _ | VArray _ =>
          foldM (fun issues x => validateJSONAt fuel x.2 (itemPath p x.1) active issues)
            (indexed 0 (elements h v)) issues
        | VMap _ _ =>
          match keyIssue (entries h v) p with
          | Some i => Some (addIssue i issues)
          | None =>
            foldM (fun issues x => validateJSONAt fuel x.2 (p ++ B "[{*}]") active issues)
              (sortEntries (entries h v)) issues
          end
        | _ => issue "INVALID_JSON" p
        end
    end
  end.

(** A bound on the depth of the walk: an ancestor is entered once on a path, and
    between two of them only arrays nest. *)
Fixpoint vsize (v : gv) : nat :=
  match v with VArray es => S (list_sum (map vsize es)) | _ => 1 end.
Fixpoint ancestors (v : gv) : list jsonAncestor :=
  match v with
  | VArray es => concat (map ancestors es)
  | _ => match ancestorOf v with Some a => [a] | None => [] end
  end.
Definition object_values (o : object) : list gv :=
  match o with OArray es => es | OMap es => map snd es | OVar _ v => [v] end.
Definition stored : list gv := concat (map (fun x => object_values x.2) (map_to_list h)).

Definition jsonFuel (v : gv) : nat :=
  let values := v :: stored in
  S (S (length (concat (map ancestors values))) * S (list_sum (map vsize values))).

(** serialize.go, [validateJSON]. *)
Definition validateJSON (v : gv) (p : bytes) : option (option serializerError) :=
  match validateJSONAt (jsonFuel v) v p [] newSerializerValidationErrors with
  | None => None
  | Some issues => Some (if issueCount issues =? 0 then None else Some (AggregateError issues))
  end.
End serializer.

(** ** Computations *)

Inductive outcome (A : Type) := Done (r : result serializerError A) | Panic | Diverge.
Arguments Done {A} r.
Arguments Panic {A}.
Arguments Diverge {A}.

(** A computation, from the number of generator calls made so far. *)
Definition Ser (A : Type) : Type := nat -> outcome A * nat.
Definition ok {A} (a : A) : Ser A := fun n => (Done (Ok a), n).
Definition fail {A} (e : serializerError) : Ser A := fun n => (Done (Err e), n).
(** What follows sees the value or the error. *)
Definition handle {A C} (m : Ser A) (f : result serializerError A -> Ser C) : Ser C := fun n =>
  match m n with
  | (Done r, n) => f r n
  | (Panic, n) => (Panic, n)
  | (Diverge, n) => (Diverge, n)
  end.
(** What follows sees the value; an error is the result. *)
Definition andThen {A C} (m : Ser A) (f : A -> Ser C) : Ser C :=
  handle m (fun r => match r with Ok a => f a | Err e => fail e end).

Declare Scope ser_scope.
Notation "x ← y ; z" := (andThen y (fun x => z)) : ser_scope.
#[local] Open Scope ser_scope.

(** generators.go, [Generators]: the answer of a generator depends on the number of
    calls made before; [None] is a panic. *)
Record Generators := mkGenerators {
  Now : nat -> option bytes;
  UUID : nat -> option bytes;
  CUID : nat -> option bytes
}.
Definition generate (g : nat -> option bytes) : Ser gv := fun n =>
  (match g n with Some s => Done (Ok (VString s)) | None => Panic end, S n).

(** ** The walk *)

(** serialize.go, [fieldName] and [fieldWireName]. *)
Definition fieldName (f : FieldDescriptor) : bytes :=
  if negb (SchemaName f ==? []) then SchemaName f else FieldName f.
Definition fieldWireName (f : FieldDescriptor) : bytes :=
  if negb (SchemaName f ==? []) then WireName f
  else if negb (Wire f ==? []) then Wire f else FieldName f.

(** [value == nil]. *)
Definition isNil (v : gv) : bool := match v with VNil => true | _ => false end.

Definition issueError (c p : bytes) : serializerError := IssueError (validationError c p).

(** The error of a descriptor, as the collection of issues sees it. *)
Definition descriptorFailure (e : descriptorError) : serializerError :=
  match e with DescriptorIssue i => IssueError i | _ => OtherError end.

Section walk.
Context {F : Floats} (h : memory).

(** serialize.go, [inputGetter], the fields of a struct: a later field with the
    same tag wins. *)
Fixpoint taggedField (fields : list (structField * gv)) (name : bytes) : option (structField * gv) :=
  match fields with
  | [] => None
  | (f, v) :: fields =>
    match taggedField fields name with
    | Some x => Some x
    | None =>
      if (Tag f ==? []) || (Tag f ==? B "-") || negb (Exported f) then None
      else if Tag f ==? name then Some (f, v) else None
    end
  end.

(** serialize.go, [inputGetter], what an optional gives. *)
Definition optionalValue (s : optionalState) (v : gv) : option gv :=
  match s with
  | optionalAbsent => None
  | optionalNull => Some VNil
  | optionalPresent => Some v
  end.

(** serialize.go, [inputGetter], the value of a field; [None] is an absent one.  A
    pointer to an optional has the methods of an optional. *)
Definition fieldValue (f : structField) (v : gv) : option gv :=
  match v with
  | VOptional s v => optionalValue s v
  | VPointer None => if IsInterface f then Some v else None
  | VPointer (Some a) =>
    match h !! a with
    | Some (OVar false (VOptional s v)) => optionalValue s v
    | _ => Some (if IsInterface f then v else pointee h v)
    end
  | _ => Some v
  end.

Fixpoint mapEntry (es : list (mapKey * gv)) (name : bytes) : option gv :=
  match es with
  | [] => None
  | (KString k, v) :: es => if k ==? name then Some v else mapEntry es name
  | (KOther, _) :: es => mapEntry es name
  end.

(** serialize.go, [inputGetter]. *)
Definition inputGetter (input : gv) : result serializerError (bytes -> option gv) :=
  match input with
  | VMap _ true => Ok (mapEntry (entries h input))
  | _ =>
    (* the pointee of an interface type has kind interface *)
    let rv := match input with
              | VPointer (Some a) =>
                match h !! a with Some (OVar false v) => v | _ => VOther end
              | _ => input
              end in
    match rv with
    | VMap _ _ => Err (issueError (B "INVALID_JSON") (B "$"))
    | VStruct fields =>
      Ok (fun name => match taggedField fields name with Some (f, v) => fieldValue f v | None => None end)
    | VTime _ | VOptional _ _ => Ok (fun _ => None)
    | _ => Err OtherError
    end
  end.

(** serialize.go, [validateScalar]. *)
Definition validateScalar (k : bytes) (v : gv) (p : bytes) : option (option serializerError) :=
  let typed (b : bool) := Some (if b then None else Some (issueError (B "TYPE_MISMATCH") p)) in
  let nonFinite := Some (Some (issueError (B "NON_FINITE_NUMBER") p)) in
  if k ==? B "string" then typed (kindOf v ==? KindString)
  else if k ==? B "boolean" then typed (kindOf v ==? KindBool)
  else if k ==? B "int64" then
    typed match v with VNumber s => ParseInt64_ok s | _ => kindOf v ==? KindInt end
  else if k ==? B "float64" then
    match v with
    | VNumber s => match ParseFloat s with
                   | None => typed false
                   | Some false => nonFinite
                   | Some true => typed true
                   end
    | VFloat finite _ => if finite then typed true else nonFinite
    | _ => typed false
    end
  else if k ==? B "datetime" then typed match v with VTime _ => true | _ => false end
  else if k ==? B "json" then validateJSON h v p
  else Some None.

(** serialize.go, [resolveDefault] and the conversion that follows it. *)
Definition resolveDefault (G : Generators) (d : DefaultSpec) : Ser gv :=
  if Default_Kind d ==? B "now" then generate (Now G)
  else if Default_Kind d ==? B "uuid" then generate (UUID G)
  else if Default_Kind d ==? B "cuid" then generate (CUID G)
  else ok (Default_Value d).
Definition defaultValue (G : Generators) (f : FieldDescriptor) (d : DefaultSpec) : Ser gv :=
  v ← resolveDefault G d;
  ok (if (Default_Kind d ==? B "now") && (ScalarKind f ==? B "datetime") then VGenerated (stringOf v) else v).

Section recursion.
(** The recursive call of [serializeModelAtUnchecked]: model, input and path. *)
Context (enums : gmap bytes (gmap bytes bytes)) (G : Generators)
  (rec : bytes -> gv -> bytes -> Ser OrderedObject).

(** serialize.go, [serializeItem]. *)
Definition serializeItem (f : FieldDescriptor) (v : gv) (p : bytes) : Ser wv :=
  match v with
  | VGenerated s => ok (WText s)
  | _ =>
    let model := if ScalarKind f ==? B "model" then DescriptorID f else FieldModel f in
    if negb (model ==? []) then o ← rec model v p; ok (WObject o)
    else
      match (if ScalarKind f ==? B "enum" then enums !! DescriptorID f else Enum f) with
      | Some values =>
        if kindOf v ==? KindString then
          ok match values !! stringOf v with Some wire => WText wire | None => WValue v end
        else if isV2Field f then fail (issueError (B "TYPE_MISMATCH") p)
        else ok (WValue v)
      | None =>
        match v with
        | VTime text =>
          if negb (isV2Field f) || (ScalarKind f ==? B "datetime") then ok (WText text)
          else match validateScalar (ScalarKind f) v p with
               | None => fun n => (Diverge, n)
               | Some (Some e) => fail e
               | Some None => ok (WValue v)
               end
        | _ =>
          if isV2Field f then
            match validateScalar (ScalarKind f) v p with
            | None => fun n => (Diverge, n)
            | Some (Some e) => fail e
            | Some None => ok (WValue v)
            end
          else ok (WValue v)
        end
      end
  end.

(** serialize.go, [serializeValue], the loop over the elements of a list. *)
Fixpoint serializeItems (f : FieldDescriptor) (p : bytes) (l : list (nat * gv)) (items : list wv)
    (issues : serializerValidationErrors) : Ser (list wv) :=
  match l with
  | [] => if negb (issueCount issues =? 0) then fail (AggregateError issues) else ok items
  | (i, v) :: l =>
    if isNilValue v && isV2Field f then
      serializeItems f p l (items ++ [WNil])
        (addIssue (validationError (B "NULL_LIST_ELEMENT") (itemPath p i)) issues)
    else
      handle (serializeItem f v (itemPath p i)) (fun r =>
        match r with
        | Ok item => serializeItems f p l (items ++ [item]) issues
        | Err e =>
          let '(issues, added) := add e issues in
          if added then serializeItems f p l (items ++ [WNil]) issues else fail e
        end)
  end.

(** serialize.go, [serializeValue]. *)
Definition serializeValue (f : FieldDescriptor) (v : gv) (p : bytes) : Ser wv :=
  match v with
  | VNil => ok WNil
  | _ =>
    if IsList f then
      match v with
      | VSlice None _ => ok (if isV2Field f then WList [] else WNil)
      | VSlice _ _ | VArray _ =>
        items ← serializeItems f p (indexed 0 (elements h v)) [] newSerializerValidationErrors; ok (WList items)
      | _ => if isV2Field f then fail (issueError (B "TYPE_MISMATCH") p) else serializeItem f v p
      end
    else serializeItem f v p
  end.

(** serialize.go, [serializeModelAtUnchecked], the loop over the fields. *)
Fixpoint serializeFields (get : bytes -> option gv) (p : bytes) (fields : list FieldDescriptor)
    (payload : OrderedObject) (issues : serializerValidationErrors) : Ser OrderedObject :=
  match fields with
  | [] => if negb (issueCount issues =? 0) then fail (AggregateError issues) else ok payload
  | f :: fields =>
    let fieldPath := appendPath p (fieldName f) in
    match validateFieldDescriptor f fieldPath with
    | Some e => fail (descriptorFailure e)
    | None =>
      let withValue v :=
        if isNil v && isV2Field f && negb (NullableInInput f) then
          serializeFields get p fields payload
            (addIssue (validationError (B "NULL_NOT_ALLOWED") fieldPath) issues)
        else
          handle (serializeValue f v fieldPath) (fun r =>
            match r with
            | Ok w => serializeFields get p fields (Set_ (fieldWireName f) w payload) issues
            | Err e =>
              let '(issues, added) := add e issues in
              if added then serializeFields get p fields payload issues else fail e
            end) in
      match get (fieldName f) with
      | Some v => withValue v
      | None =>
        match Default f with
        | Some d => v ← defaultValue G f d; withValue v
        | None =>
          if isV2Field f && RequiredInInput f then
            serializeFields get p fields payload
              (addIssue (validationError (B "REQUIRED_FIELD") fieldPath) issues)
          else serializeFields get p fields payload issues
        end
      end
    end
  end.
End recursion.

(** serialize.go, [serializeModelAtUnchecked]; [fuel] bounds the nesting of models. *)
Fixpoint serializeModelAtUnchecked (fuel : nat) (models : gmap bytes ModelDescriptor)
    (enums : gmap bytes (gmap bytes bytes)) (G : Generators) (modelName : bytes) (input : gv) (p : bytes)
    : Ser OrderedObject :=
  match fuel with
  | O => fun n => (Diverge, n)
  | S fuel =>
    match models !! modelName with
    | None => fail OtherError
    | Some descriptor =>
      match inputGetter input with
      | Err e => fail e
      | Ok get =>
        serializeFields enums G (serializeModelAtUnchecked fuel models enums G) get p (Fields descriptor)
          [] newSerializerValidationErrors
      end
    end
  end.

(** serialize.go, [serializeModelAt]. *)
Definition serializeModelAt (fuel : nat) (models : gmap bytes ModelDescriptor)
    (enums : gmap bytes (gmap bytes bytes)) (G : Generators) (modelName : bytes) (input : gv) (p : bytes)
    : Ser OrderedObject :=
  match validateModelDescriptorReferences models enums with
  | Some e => fail (descriptorFailure e)
  | None => serializeModelAtUnchecked fuel models enums G modelName input p
  end.

(** serialize.go, [SerializeModel] and [SerializeModelWithSchema]. *)
Definition SerializeModel (fuel : nat) (models : gmap bytes ModelDescriptor) (G : Generators) (modelName : bytes)
    (input : gv) : Ser OrderedObject :=
  serializeModelAt fuel models ∅ G modelName input (B "$").
Definition SerializeModelWithSchema (fuel : nat) (s : SchemaDescriptor) (G : Generators) (modelName : bytes)
    (input : gv) : Ser OrderedObject :=
  match ValidateSchemaDescriptor s with
  | Some e => fail (descriptorFailure e)
  | None => serializeModelAtUnchecked fuel (Models s) (Enums s) G modelName input (B "$")
  end.
End walk.

(** ** JSON validation comes to an end *)

(** What a value is, apart from its place in the input, for the walk. *)
Section json.
Context {F : Floats} (h : memory).

Lemma foldM_Some {S A} (P : S -> S -> Prop) (f : S -> A -> option S) l s :
  (forall s, P s s) -> (forall a b c, P a b -> P b c -> P a c) ->
  (forall s x, x ∈ l -> exists s', f s x = Some s' /\ P s s') -> exists s', foldM f l s = Some s' /\ P s s'.
Proof.
  intros Hr Ht. revert s. induction l as [|x l IH]; intros s Hf; cbn; [by exists s|].
  destruct (Hf s x ltac:(left)) as (s1 & -> & H1). destruct (IH s1) as (s2 & H2 & H3).
  { intros s' y Hy. apply Hf. by right. }
  exists s2. split; [done|]. by eapply Ht.
Qed.

Lemma elem_insertEntry e es x : x ∈ insertEntry e es <-> x = e \/ x ∈ es.
Proof.
  induction es as [|y es IH]; cbn; [by rewrite list_elem_of_singleton, elem_of_nil; tauto|].
  destruct (bytes_le _ _); rewrite !elem_of_cons; [done|]. rewrite IH. tauto.
Qed.
Lemma elem_sortEntries es x : x ∈ sortEntries es <-> x ∈ es.
Proof. induction es as [|e es IH]; cbn; [done|]. rewrite elem_insertEntry, IH, elem_of_cons. done. Qed.

(** The parts of a map, pointer, slice or array. *)
Definition children (v : gv) : list gv :=
  match v with
  | VPointer (Some _) => [pointee h v]
  | VSlice _ _ | VArray _ => elements h v
  | VMap _ _ => map snd (entries h v)
  | _ => []
  end.

Lemma elem_stored a o w : h !! a = Some o -> w ∈ object_values o -> w ∈ stored h.
Proof.
  intros Ha Hw. unfold stored. apply list_elem_of_In, in_concat. exists (object_values o). split; [|by apply list_elem_of_In].
  apply in_map_iff. exists (a, o). split; [done|]. apply list_elem_of_In. by apply elem_of_map_to_list.
Qed.

(** A part is in memory, or smaller. *)
Lemma children_stored v w : w ∈ children v ->
  (ancestorOf v = None /\ exists es, v = VArray es /\ w ∈ es) \/ w = VNil \/
  (exists a, ancestorOf v = Some a) /\ w ∈ stored h.
Proof.
  destruct v as [| | | | | | | | | | |es|[[a off]|] n|[a|] m|[a|]|]; cbn; try (by intros H%elem_of_nil).
  - intros H. left. split; [done|by exists es].
  - destruct (h !! a) as [[es| |]|] eqn:Ea; try (by intros H%elem_of_nil). intros H. right. right.
    split; [by eexists|]. eapply elem_stored; [done|]. cbn.
    rewrite <- (take_drop off es), elem_of_app. right. rewrite <- (take_drop n (drop off es)), elem_of_app. by left.
  - destruct (h !! a) as [[|es|]|] eqn:Ea; try (by intros H%elem_of_nil). intros H. right. right.
    split; [by eexists|]. by eapply elem_stored.
  - intros ->%list_elem_of_singleton. destruct (h !! a) as [[| |b v]|] eqn:Ea; auto. right. right.
    split; [by eexists|]. eapply elem_stored; [done|]. by left.
Qed.

(** The representable values, with nesting bounded by [n]. *)
Definition keyOK (k : mapKey) : bool := match k with KString s => utf8_Valid s | KOther => false end.
Fixpoint jsonOK (n : nat) (v : gv) : bool :=
  match n with
  | O => false
  | S n =>
    match v with
    | VNil | VBool _ | VInt _ | VUint _ | VMap None _ | VPointer None | VSlice None _ => true
    | VNumber s => ParseFloat s ==? Some true
    | VFloat finite _ => finite
    | VString s | VGenerated s => utf8_Valid s
    | VMap _ _ => forallb (fun e => keyOK e.1) (entries h v) && forallb (jsonOK n) (children v)
    | VPointer _ | VSlice _ _ | VArray _ => forallb (jsonOK n) (children v)
    | _ => false
    end
  end.

(** A value without parts, and its issue; [None] for a value with parts. *)
Definition leaf (v : gv) (p : bytes) : option (option serializerValidationError) :=
  let issue c := Some (Some (validationError (B c) p)) in
  match v with
  | VNil | VBool _ | VInt _ | VUint _ | VMap None _ | VPointer None | VSlice None _ => Some None
  | VNumber s => match ParseFloat s with
                 | None => issue "INVALID_JSON"
                 | Some false => issue "NON_FINITE_NUMBER"
                 | Some true => Some None
                 end
  | VFloat finite _ => if finite then Some None else issue "NON_FINITE_NUMBER"
  | VString s | VGenerated s => if utf8_Valid s then Some None else issue "INVALID_UNICODE"
  | VMap _ _ | VPointer _ | VSlice _ _ | VArray _ => None
  | _ => issue "INVALID_JSON"
  end.

Definition keysIssue (v : gv) (p : bytes) : option serializerValidationError :=
  match v with VMap _ _ => keyIssue (entries h v) p | _ => None end.

(** The parts in the order of the walk, with their paths. *)
Definition steps (v : gv) (p : bytes) : list (bytes * gv) :=
  match v with
  | VPointer _ => [(p, pointee h v)]
  | VMap _ _ => map (fun e => (p ++ B "[{*}]", e.2)) (sortEntries (entries h v))
  | _ => map (fun x => (itemPath p x.1, x.2)) (indexed 0 (elements h v))
  end.

Lemma foldM_map {S A C} (f : S -> C -> option S) (g : A -> C) l s :
  foldM f (map g l) s = foldM (fun s x => f s (g x)) l s.
Proof. revert s. induction l as [|x l IH]; intros s; cbn; [done|]. destruct (f s (g x)); [apply IH|done]. Qed.

Lemma validate_leaf v p x fuel active issues : leaf v p = Some x ->
  validateJSONAt h (S fuel) v p active issues =
    Some match x with None => issues | Some i => addIssue i issues end /\
  (forall n, jsonOK (S n) v = bool_decide (x = None)).
Proof.
  destruct v as [| | | |[]| |s| | | | | |[]|[]|[]|]; cbn; try done; try (intros [= <-]; done).
  - destruct (utf8_Valid s); intros [= <-]; done.
  - destruct (ParseFloat s) as [[]|]; intros [= <-]; done.
  - destruct (utf8_Valid s); intros [= <-]; done.
Qed.

Lemma validate_parts v p fuel active issues : leaf v p = None ->
  validateJSONAt h (S fuel) v p active issues =
    if match ancestorOf v with Some a => bool_decide (a ∈ active) | None => false end then
      Some (addIssue (mkIssue (B "INVALID_JSON") (B "CYCLE") p) issues)
    else match keysIssue v p with
         | Some i => Some (addIssue i issues)
         | None => foldM (fun issues x => validateJSONAt h fuel x.2 x.1
                     (match ancestorOf v with Some a => a :: active | None => active end) issues)
                     (steps v p) issues
         end.
Proof.
  destruct v as [| | | |[]| |s| | | | |es|[[a off]|]|[a|]|[a|]|]; try done; try (cbn; by destruct (utf8_Valid _));
    try (cbn; by destruct (ParseFloat _) as [[]|]); intros _; cbn [validateJSONAt ancestorOf keysIssue steps].
  - by rewrite foldM_map.
  - destruct (bool_decide _); [done|]. by rewrite foldM_map.
  - destruct (bool_decide _); [done|]. destruct (keyIssue _ _); [done|]. by rewrite foldM_map.
  - destruct (bool_decide _); [done|]. cbn [foldM]. by destruct (validateJSONAt _ _ _ _ _ _).
Qed.

Lemma elem_indexed_2 {A} i (l : list A) x : x ∈ l <-> exists j, (j, x) ∈ indexed i l.
Proof.
  revert i. induction l as [|y l IH]; intros i; cbn.
  { split; [by intros ?%elem_of_nil|]. by intros [j ?%elem_of_nil]. }
  rewrite elem_of_cons, (IH (S i)). split.
  - intros [->|[j Hj]]; [exists i; by left|exists j; by right].
  - intros [j [[= -> ->]|Hj]%elem_of_cons]; [by left|right; by exists j].
Qed.

Lemma steps_children v p w : leaf v p = None -> (w ∈ children v <-> exists q, (q, w) ∈ steps v p).
Proof.
  destruct v as [| | | |[]| |s| | | | |es|[[a off]|]|[a|]|[a|]|]; try done; try (cbn; by destruct (utf8_Valid _));
    try (cbn; by destruct (ParseFloat _) as [[]|]); intros _; cbn [children steps].
  1,2: rewrite (elem_indexed_2 0); split;
    [intros [j Hj]; exists (itemPath p j); apply list_elem_of_In, in_map_iff; exists (j, w); by rewrite <- list_elem_of_In
    |intros [q Hq%list_elem_of_In]; apply in_map_iff in Hq as ([j x] & [= <- <-] & Hq%list_elem_of_In); by exists j].
  - rewrite list_elem_of_In, in_map_iff. split.
    + intros ([k x] & <- & Hx). exists (p ++ B "[{*}]"). apply list_elem_of_In, in_map_iff. exists (k, x).
      split; [done|]. by rewrite <- list_elem_of_In, elem_sortEntries, list_elem_of_In.
    + intros [q Hq%list_elem_of_In]. apply in_map_iff in Hq as ([k x] & [= <- <-] & Hx).
      exists (k, x). split; [done|]. by rewrite <- list_elem_of_In, elem_sortEntries, list_elem_of_In in Hx.
  - rewrite list_elem_of_singleton. split; [intros ->; exists p; by left|]. by intros [q [= _ ->]%list_elem_of_singleton].
Qed.

Lemma keysIssue_None v p : keysIssue v p = None <->
  match v with VMap _ _ => forallb (fun e => keyOK e.1) (entries h v) = true | _ => True end.
Proof.
  destruct v; cbn; try done. induction (match at_ with Some a => _ | None => [] end) as [|[[k|] x] es IH]; cbn; try done.
  by destruct (utf8_Valid k).
Qed.

Lemma jsonOK_parts v p n : leaf v p = None ->
  jsonOK (S n) v = true <-> keysIssue v p = None /\ (forall w, w ∈ children v -> jsonOK n w = true).
Proof.
  intros Hl. assert (forall l, forallb (jsonOK n) l = true <-> forall w, w ∈ l -> jsonOK n w = true) as Hall.
  { intros l. rewrite forallb_forall. by setoid_rewrite list_elem_of_In. }
  rewrite keysIssue_None, <- Hall.
  destruct v as [| | | |[]| |s| | | | |es|[[a off]|]|[a|]|[a|]|]; try done; try (cbn in Hl; by destruct (utf8_Valid _));
    try (cbn in Hl; by destruct (ParseFloat _) as [[]|]); cbn [jsonOK]; rewrite ?andb_true_iff; tauto.
Qed.

(** *** Counting *)

Definition counted (e : serializerValidationErrors) : Prop := 0 <= issueCount e <= MaxInt32.

(** Issues are only added. *)
Definition grows (a b : serializerValidationErrors) : Prop :=
  counted a -> counted b /\ issueCount a <= issueCount b.

Lemma grows_refl a : grows a a.
Proof. intros H. split; [done|lia]. Qed.
Lemma grows_trans a b c : grows a b -> grows b c -> grows a c.
Proof. intros H1 H2 Ha. destruct (H1 Ha) as [Hb ?]. destruct (H2 Hb) as [Hc ?]. split; [done|lia]. Qed.

Lemma retain_count i e : issueCount (retain i e) = issueCount e.
Proof. unfold retain. destruct (_ <=? _); [done|]. by destruct (_ <? _). Qed.

Lemma addIssue_count i e : counted e -> counted (addIssue i e) /\ issueCount e <= issueCount (addIssue i e) /\ 0 < issueCount (addIssue i e).
Proof.
  intros H. unfold addIssue, counted in *. cbn [add fst]. rewrite retain_count. cbn [issueCount set_issueCount].
  rewrite saturating_count by lia. unfold MaxInt32 in *. lia.
Qed.
Lemma addIssue_grows i e : grows e (addIssue i e).
Proof. intros H. destruct (addIssue_count i e H) as (? & ? & ?). by split. Qed.

(** *** Totality *)

Lemma list_sum_elem (f : gv -> nat) l x : x ∈ l -> (f x <= list_sum (map f l))%nat.
Proof.
  induction 1 as [x l|x y l _ IH];
    [change (f x <= f x + list_sum (map f l))%nat|change (f x <= f y + list_sum (map f l))%nat]; lia.
Qed.
Lemma vsize_array es w : w ∈ es -> (vsize w < vsize (VArray es))%nat.
Proof.
  intros H. change (vsize (VArray es)) with (S (list_sum (map vsize es))).
  pose proof (list_sum_elem vsize es w H). lia.
Qed.
Lemma ancestors_array es w : w ∈ es -> ancestors w ⊆ ancestors (VArray es).
Proof.
  intros H a Ha. cbn. apply list_elem_of_In, in_concat. exists (ancestors w).
  split; [apply in_map_iff; exists w; split; [done|by apply list_elem_of_In]|by apply list_elem_of_In].
Qed.
Lemma vsize_pos v : (1 <= vsize v)%nat.
Proof. destruct v; cbn; lia. Qed.

Lemma ancestorOf_elem v a : ancestorOf v = Some a -> a ∈ ancestors v.
Proof. destruct v as [| | | | | | | | | | | |[]|[]|[]|]; cbn; try done; intros [= <-]; by left. Qed.
Lemma leaf_array v p : leaf v p = None -> ancestorOf v = None -> exists es, v = VArray es.
Proof.
  destruct v as [| | | |[]| |s|s| | | |es|[]|[]|[]|]; cbn; try done; [by destruct (utf8_Valid _)| | |by exists es].
  - by destruct (ParseFloat s) as [[]|].
  - by destruct (utf8_Valid _).
Qed.

Section total.
Context (U : list jsonAncestor) (m : nat).
Context (stored_known : forall w, w ∈ stored h -> ancestors w ⊆ U /\ (vsize w <= m)%nat) (positive : (1 <= m)%nat).

Definition remaining (active : list jsonAncestor) : nat := length (filter (.∉ active) U).

Lemma remaining_enter a active : a ∈ U -> a ∉ active -> (remaining (a :: active) < remaining active)%nat.
Proof.
  clear stored_known. unfold remaining. intros HU Ha. induction U as [|b l IH]; [by apply elem_of_nil in HU|].
  rewrite !filter_cons. assert (length (filter (.∉ a :: active) l) <= length (filter (.∉ active) l))%nat as Hle.
  { clear. induction l as [|c l IH]; [done|]. rewrite !filter_cons.
    destruct (decide (c ∉ a :: active)) as [H|H]; destruct (decide (c ∉ active)) as [H'|H']; cbn; try lia.
    destruct H'. intros Hc. apply H. by right. }
  apply elem_of_cons in HU as [<-|HU].
  - rewrite decide_False by (intros H; apply H; by left). rewrite decide_True by done. cbn. lia.
  - specialize (IH HU). destruct (decide (b ∉ a :: active)) as [H|H]; destruct (decide (b ∉ active)) as [H'|H']; cbn; try lia.
    destruct H'. intros Hc. apply H. by right.
Qed.

Lemma validateJSONAt_total fuel : forall v p active issues,
  ancestors v ⊆ U -> (remaining active * S m + vsize v <= fuel)%nat ->
  exists issues', validateJSONAt h fuel v p active issues = Some issues' /\ grows issues issues'.
Proof.
  induction fuel as [|fuel IH]; intros v p active issues HU Hf.
  { pose proof (vsize_pos v). lia. }
  destruct (leaf v p) as [x|] eqn:El.
  { destruct (validate_leaf v p x fuel active issues El) as [-> _]. eexists. split; [done|].
    destruct x; [apply addIssue_grows|apply grows_refl]. }
  rewrite validate_parts by done. destruct (match ancestorOf v with Some a => _ | None => _ end) eqn:Ea.
  { eexists. split; [done|apply addIssue_grows]. }
  destruct (keysIssue v p); [eexists; split; [done|apply addIssue_grows]|].
  apply (foldM_Some grows); [apply grows_refl|apply grows_trans|]. intros s [q w] Hq. cbn [fst snd].
  assert (w ∈ children v) as Hw by (apply (steps_children v p w El); by exists q).
  apply children_stored in Hw as [[Hnone (es & -> & Hw)]|[->|[[a Hsome] Hw]]].
  - rewrite Hnone. apply IH; [etransitivity; [by apply ancestors_array|done]|].
    pose proof (vsize_array _ _ Hw). lia.
  - destruct fuel as [|fuel']; [exfalso|cbn; eexists; split; [done|apply grows_refl]].
    destruct (ancestorOf v) as [a|] eqn:Eanc.
    + apply bool_decide_eq_false in Ea. pose proof (remaining_enter a active (HU _ (ancestorOf_elem _ _ Eanc)) Ea). nia.
    + destruct (leaf_array _ _ El Eanc) as [es ->].
      assert (VNil ∈ es) as Hin by (apply (steps_children (VArray es) p VNil El); by exists q).
      pose proof (vsize_array es VNil Hin) as Hs. change (vsize VNil) with 1%nat in Hs. lia.
  - rewrite Hsome in Ea |- *. apply bool_decide_eq_false in Ea.
    destruct (stored_known w Hw) as [HwU Hwm]. apply IH; [done|].
    pose proof (remaining_enter a active (HU _ (ancestorOf_elem _ _ Hsome)) Ea). pose proof (vsize_pos v). nia.
Qed.
End total.

(** The fuel of [validateJSON] is enough. *)
Lemma validateJSON_total v p issues :
  exists issues', validateJSONAt h (jsonFuel h v) v p [] issues = Some issues' /\ grows issues issues'.
Proof.
  unfold jsonFuel. set (values := v :: stored h). set (U := concat (map ancestors values)).
  set (m := list_sum (map vsize values)).
  assert (forall w, w ∈ values -> ancestors w ⊆ U /\ (vsize w <= m)%nat) as Hk.
  { intros w Hw. split; [|by apply list_sum_elem]. intros a Ha. apply list_elem_of_In, in_concat.
    exists (ancestors w). split; [apply in_map_iff; exists w; split; [done|]|]; by apply list_elem_of_In. }
  apply (validateJSONAt_total U m).
  - intros w Hw. apply Hk. by right.
  - destruct (Hk v ltac:(left)). pose proof (vsize_pos v). lia.
  - apply Hk. by left.
  - destruct (Hk v ltac:(left)). assert (remaining U [] <= length U)%nat by (apply length_filter). nia.
Qed.

(** *** Exactness *)

Lemma validateJSONAt_grows fuel : forall v p active a b,
  validateJSONAt h fuel v p active a = Some b -> grows a b.
Proof.
  induction fuel as [|fuel IH]; intros v p active a b; [done|]. destruct (leaf v p) as [x|] eqn:El.
  { destruct (validate_leaf v p x fuel active a El) as [-> _]. intros [= <-].
    destruct x; [apply addIssue_grows|apply grows_refl]. }
  rewrite validate_parts by done. destruct (match ancestorOf v with Some _ => _ | None => _ end).
  { intros [= <-]. apply addIssue_grows. }
  destruct (keysIssue v p); [intros [= <-]; apply addIssue_grows|].
  generalize (steps v p) as l. intros l. revert a. induction l as [|x l IHl]; intros a; cbn; [intros [= <-]; apply grows_refl|].
  destruct (validateJSONAt h fuel x.2 x.1 _ a) as [a1|] eqn:E; [|done]. intros H.
  eapply grows_trans; [by eapply IH|by apply IHl].
Qed.

(** Without an issue at the end there was none, and the value is representable. *)
Lemma validateJSONAt_sound fuel : forall v p active a b,
  counted a -> validateJSONAt h fuel v p active a = Some b -> issueCount b = 0 ->
  issueCount a = 0 /\ jsonOK fuel v = true.
Proof.
  induction fuel as [|fuel IH]; intros v p active a b Ha; [done|].
  assert (forall i, issueCount (addIssue i a) <> 0) as Hne by (intros i; destruct (addIssue_count i a Ha); lia).
  destruct (leaf v p) as [x|] eqn:El.
  { destruct (validate_leaf v p x fuel active a El) as [-> Hok]. rewrite Hok. intros [= <-].
    destruct x as [i|]; [intros H; by destruct (Hne i)|]. intros ->. by rewrite bool_decide_eq_true_2. }
  rewrite validate_parts by done. destruct (match ancestorOf v with Some _ => _ | None => _ end).
  { intros [= <-] H. by destruct (Hne (mkIssue (B "INVALID_JSON") (B "CYCLE") p)). }
  destruct (keysIssue v p) as [i|] eqn:Ek; [intros [= <-] H; by destruct (Hne i)|].
  set (act := match ancestorOf v with Some _ => _ | None => _ end). clearbody act.
  intros Hfold Hb. rewrite (jsonOK_parts v p) by done.
  enough (issueCount a = 0 /\ forall x, x ∈ steps v p -> jsonOK fuel x.2 = true) as [H0 Hall].
  { split; [done|]. split; [done|]. intros w [q Hq]%(steps_children v p w El). by apply (Hall (q, w)). }
  clear El Ek Hne. revert a Ha Hfold. induction (steps v p) as [|x l IHl]; intros a Ha; cbn.
  { intros [= <-]. split; [done|]. by intros x ?%elem_of_nil. }
  destruct (validateJSONAt h fuel x.2 x.1 act a) as [a1|] eqn:E; [|done]. intros Hfold.
  destruct (validateJSONAt_grows _ _ _ _ _ _ E Ha) as [Ha1 _].
  destruct (IHl a1 Ha1 Hfold) as [H1 Hl]. destruct (IH _ _ _ _ _ Ha E H1) as [H0 Hx].
  split; [done|]. intros y [->|Hy]%elem_of_cons; [done|by apply Hl].
Qed.

Lemma jsonOK_mono n : forall v, jsonOK n v = true -> jsonOK (S n) v = true.
Proof.
  induction n as [|n IH]; intros v H; [done|]. destruct (leaf v []) as [x|] eqn:El.
  { destruct (validate_leaf v [] x 0 [] newSerializerValidationErrors El) as [_ Hok]. by rewrite Hok in H |- *. }
  apply (jsonOK_parts v [] _ El) in H as [Hk Hc]. apply (jsonOK_parts v [] _ El). split; [done|]. auto.
Qed.

(** Two values with the same ancestor are the same for the walk. *)
Lemma same_ancestor u v a n : ancestorOf u = Some a -> ancestorOf v = Some a -> jsonOK n u = jsonOK n v.
Proof.
  destruct n; [done|].
  destruct u as [| | | | | | | | | | | |[]|[]|[]|], v as [| | | | | | | | | | | |[]|[]|[]|]; cbn [ancestorOf];
    intros H1 H2; simplify_eq; try done; by destruct stringToAny, stringToAny0.
Qed.

(** A representable value is walked without an issue: an ancestor is never met
    again, because its own parts nest less deeply than itself. *)
Lemma validateJSONAt_complete n : forall fuel v p active a b,
  jsonOK n v = true -> (forall u x, ancestorOf u = Some x -> x ∈ active -> jsonOK n u = false) ->
  validateJSONAt h fuel v p active a = Some b -> b = a.
Proof.
  induction n as [|n IH]; intros fuel v p active a b Hv Hact; [done|].
  destruct (jsonOK n v) eqn:En.
  { apply IH; [done|]. intros u x Hu Hx. destruct (jsonOK n u) eqn:E; [|done].
    apply jsonOK_mono in E. by rewrite (Hact u x Hu Hx) in E. }
  destruct fuel as [|fuel]; [done|]. destruct (leaf v p) as [x|] eqn:El.
  { destruct (validate_leaf v p x fuel active a El) as [-> Hok]. rewrite Hok in Hv.
    apply bool_decide_eq_true in Hv as ->. by intros [= <-]. }
  rewrite validate_parts by done. apply (jsonOK_parts v p n El) in Hv as Hp. destruct Hp as [-> Hc].
  destruct (match ancestorOf v with Some _ => bool_decide _ | None => _ end) eqn:Ea.
  { destruct (ancestorOf v) as [x|] eqn:Eanc; [|done]. apply bool_decide_eq_true in Ea.
    by rewrite (Hact v x Eanc Ea) in Hv. }
  set (act := match ancestorOf v with Some _ => _ :: _ | None => _ end).
  assert (forall u x, ancestorOf u = Some x -> x ∈ act -> jsonOK n u = false) as Hact'.
  { intros u x Hu Hx. assert (x ∈ active \/ ancestorOf v = Some x) as [Hold|Hnew].
    { unfold act in Hx. destruct (ancestorOf v) as [y|]; [|by left]. apply elem_of_cons in Hx as [->|Hx]; [by right|by left]. }
    - destruct (jsonOK n u) eqn:E; [|done]. apply jsonOK_mono in E. by rewrite (Hact u x Hu Hold) in E.
    - by rewrite (same_ancestor u v x n). }
  clearbody act.
  assert (forall x, x ∈ steps v p -> jsonOK n x.2 = true) as Hall.
  { intros [q w] Hq. apply Hc. apply (steps_children v p w El). by exists q. }
  clear El Hc. revert a. induction (steps v p) as [|x l IHl]; intros a; cbn; [by intros [= <-]|].
  destruct (validateJSONAt h fuel x.2 x.1 act a) as [a1|] eqn:E; [|done].
  apply IH in E as ->; [|apply Hall; by left|done]. apply IHl. intros y Hy. apply Hall. by right.
Qed.

Lemma validateJSON_exact v p :
  exists r, validateJSON h v p = Some r /\ (r = None <-> exists n, jsonOK n v = true).
Proof.
  unfold validateJSON. destruct (validateJSON_total v p newSerializerValidationErrors) as (b & Hb & _). rewrite Hb.
  eexists. split; [done|]. split.
  - destruct (issueCount b =? 0) eqn:E; [|done]. intros _. exists (jsonFuel h v).
    eapply validateJSONAt_sound; [|exact Hb|lia]. unfold counted, MaxInt32. cbn. lia.
  - intros [n Hn]. eapply validateJSONAt_complete in Hb as ->; [done|exact Hn|]. by intros u x _ Hx%elem_of_nil.
Qed.

(** C36. On every value, cyclic ones included, the check of JSON values comes to an
    end, and it finds no issue exactly when the value unfolds in finitely many steps
    into null, booleans, numbers that are finite, valid UTF-8, and lists and maps of
    such with string keys. *)
Theorem validateJSON_decides v p :
  exists r, validateJSON h v p = Some r /\ (r = None <-> exists n, jsonOK n v = true).
Proof. apply validateJSON_exact. Qed.
End json.

(** ** What a computation yields *)

(** Collected issues count at least one; a single issue and a plain error have no count. *)
Definition err_counted (e : serializerError) : Prop :=
  match e with AggregateError i => counted i /\ 0 < issueCount i | _ => True end.

Definition yields {A} (m : Ser A) (Q : A -> Prop) : Prop := forall n,
  match m n with
  | (Done (Ok a), _) => Q a
  | (Done (Err e), _) => err_counted e
  | _ => True
  end.

Lemma yields_ok {A} (a : A) (Q : A -> Prop) : Q a -> yields (ok a) Q.
Proof. by intros H n. Qed.
Lemma yields_fail {A} e (Q : A -> Prop) : err_counted e -> yields (fail e) Q.
Proof. by intros H n. Qed.
Lemma yields_diverge {A} (Q : A -> Prop) : yields (fun n => (Diverge, n)) Q.
Proof. by intros n. Qed.
Lemma yields_handle {A C} (m : Ser A) (f : result serializerError A -> Ser C) (P : A -> Prop) (Q : C -> Prop) :
  yields m P -> (forall a, P a -> yields (f (Ok a)) Q) -> (forall e, err_counted e -> yields (f (Err e)) Q) ->
  yields (handle m f) Q.
Proof.
  intros Hm Hok Herr n. unfold handle. specialize (Hm n). destruct (m n) as [[[a|e]| |] n']; try done;
    [by apply Hok|by apply Herr].
Qed.
Lemma yields_andThen {A C} (m : Ser A) (f : A -> Ser C) (P : A -> Prop) (Q : C -> Prop) :
  yields m P -> (forall a, P a -> yields (f a) Q) -> yields (andThen m f) Q.
Proof. intros Hm Hf. eapply yields_handle; [done|done|]. intros e He. by apply yields_fail. Qed.
Lemma yields_mono {A} (m : Ser A) (P Q : A -> Prop) : yields m P -> (forall a, P a -> Q a) -> yields m Q.
Proof. intros Hm H n. specialize (Hm n). destruct (m n) as [[[a|e]| |] n']; auto. Qed.

Lemma add_counted e a : err_counted e -> counted a ->
  counted (add e a).1 /\ issueCount a <= issueCount (add e a).1 /\ ((add e a).2 = true -> 0 < issueCount (add e a).1).
Proof.
  intros He Ha. destruct e as [o|i|]; cbn [add fst snd] in *.
  - destruct He as [Ho Hpos]. unfold merge.
    assert (forall l b, issueCount (fold_left (fun e i => retain i e) l b) = issueCount b) as Hfold.
    { intros l. induction l as [|i l IH]; intros b; cbn; [done|]. by rewrite IH, retain_count. }
    unfold counted in *. rewrite Hfold. cbn [issueCount set_issueCount]. rewrite saturating_count by lia.
    unfold MaxInt32 in *. lia.
  - destruct (addIssue_count i a Ha) as (? & ? & ?). done.
  - split; [done|]. split; [lia|done].
Qed.

(** ** Values that a caller can make *)

(** Nobody outside the package has a [generatedDateTime]. *)
Fixpoint external (v : gv) : bool :=
  match v with
  | VGenerated _ => false
  | VOptional _ v => external v
  | VStruct fs => forallb (fun x => external x.2) fs
  | VArray es => forallb external es
  | _ => true
  end.

Section typing.
Context {F : Floats} (h : memory).
Context (heap_external : forall w, w ∈ stored h -> external w = true).

Lemma pointee_external v : external (pointee h v) = true.
Proof.
  destruct v as [| | | | | | | | | | | | | |[a|]|]; try done. cbn. destruct (h !! a) as [[| |b v]|] eqn:E; try done.
  apply heap_external. eapply elem_stored; [done|by left].
Qed.

Lemma elements_external v w : external v = true -> w ∈ elements h v -> external w = true.
Proof.
  destruct v as [| | | | | | | | | | |es|[[a off]|] n| | |]; cbn; try (by intros _ ?%elem_of_nil).
  - rewrite forallb_forall. intros H Hw%list_elem_of_In. auto.
  - intros _ Hw. destruct (children_stored h (VSlice (Some (a, off)) n) w Hw) as [[_ (es & H & _)]|[->|[_ H]]]; [done|done|auto].
Qed.

Lemma mapEntry_elem es name v : mapEntry es name = Some v -> v ∈ map snd es.
Proof.
  induction es as [|[[k|] x] es IH]; cbn; [done| |]; rewrite elem_of_cons; [|auto].
  destruct (k ==? name); [intros [= ->]; by left|auto].
Qed.
Lemma entries_external b o name v : mapEntry (entries h (VMap o b)) name = Some v -> external v = true.
Proof.
  intros H%mapEntry_elem. destruct o as [a|]; [|by apply elem_of_nil in H].
  destruct (children_stored h (VMap (Some a) b) v H) as [[H1 _]|[->|[_ H1]]]; [done|done|auto].
Qed.
Lemma taggedField_elem fs name x : taggedField fs name = Some x -> x ∈ fs.
Proof.
  induction fs as [|[f v] fs IH]; cbn; [done|]. rewrite elem_of_cons. destruct (taggedField fs name); [auto|].
  destruct (_ || _); [done|]. destruct (_ ==? _); [intros [= <-]; by left|done].
Qed.
Lemma fieldValue_external f v w : external v = true -> fieldValue h f v = Some w -> external w = true.
Proof.
  intros Hv. assert (fieldValue h f v = Some (if IsInterface f then v else pointee h v) ->
    fieldValue h f v = Some w -> external w = true) as Hp.
  { intros ->. intros [= <-]. destruct (IsInterface f); [done|apply pointee_external]. }
  destruct v as [| | | | | | | | |s v| | | | |[a|]|]; try (by intros [= <-]); cbn.
  - by destruct s; cbn; intros [= <-].
  - cbn in Hp. destruct (h !! a) as [[| |[] u]|] eqn:E; try (by apply Hp); try done. destruct u; try (by apply Hp).
    assert (external (VOptional state u) = true) as Hu by (apply heap_external; eapply elem_stored; [done|by left]).
    by destruct state; cbn; intros [= <-].
  - by destruct (IsInterface f); intros [= <-].
Qed.

Lemma inputGetter_external input get name v :
  external input = true -> inputGetter h input = Ok get -> get name = Some v -> external v = true.
Proof.
  assert (forall rv, external rv = true -> match rv with
    | VMap _ _ => Err (issueError (B "INVALID_JSON") (B "$"))
    | VStruct fields => Ok (fun name => match taggedField fields name with Some (f, v) => fieldValue h f v | None => None end)
    | VTime _ | VOptional _ _ => Ok (fun _ => None)
    | _ => Err OtherError end = Ok get -> get name = Some v -> external v = true) as Hrv.
  { intros rv Hext. destruct rv as [| | | | | | | | | |fs| | | | |]; try done; try (by intros [= <-]). intros [= <-].
    destruct (taggedField fs name) as [[f w]|] eqn:Et; [|done]. apply taggedField_elem in Et. intros Hw.
    eapply fieldValue_external; [|exact Hw]. cbn in Hext. rewrite forallb_forall in Hext. apply (Hext (f, w)).
    by apply list_elem_of_In. }
  unfold inputGetter. intros Hext.
  destruct input as [| | | | | | | | | | | | |o []|[a|]|]; try exact (Hrv _ Hext).
  - intros [= <-]. apply (entries_external true o name).
  - destruct (h !! a) as [[| |[] w]|] eqn:E; try done. apply (Hrv w).
    apply heap_external. eapply elem_stored; [done|by left].
Qed.

(** *** The specification of a payload of format 2 *)

(** A value that passes the check of its scalar kind. *)
Definition scalar_typed (k : bytes) (v : gv) : Prop :=
  (k = B "string" -> kindOf v = KindString) /\
  (k = B "boolean" -> kindOf v = KindBool) /\
  (k = B "int64" -> kindOf v = KindInt \/ exists s, v = VNumber s /\ ParseInt64_ok s = true) /\
  (k = B "float64" -> (exists t, v = VFloat true t) \/ exists s, v = VNumber s /\ ParseFloat s = Some true) /\
  (k = B "json" -> exists n, jsonOK h n v = true).

Section payload.
Context (enums : gmap bytes (gmap bytes bytes)).
Context (object_typed : bytes -> OrderedObject -> Prop).

(** One element, by the scalar kind of its field. *)
Definition item_typed (f : FieldDescriptor) (w : wv) : Prop :=
  if ScalarKind f ==? B "model" then exists o, w = WObject o /\ object_typed (DescriptorID f) o
  else if ScalarKind f ==? B "enum" then
    exists values, enums !! DescriptorID f = Some values /\
      ((exists m wire, values !! m = Some wire /\ w = WText wire) \/
       exists v, w = WValue v /\ kindOf v = KindString /\ values !! stringOf v = None)
  else if ScalarKind f ==? B "datetime" then exists s, w = WText s
  else exists v, w = WValue v /\ scalar_typed (ScalarKind f) v.

(** The value of a field: null where it may be, a list of elements, or one. *)
Definition value_typed (f : FieldDescriptor) (w : wv) : Prop :=
  (w = WNil /\ NullableInInput f = true) \/
  (IsList f = true /\ exists items, w = WList items /\ Forall (item_typed f) items) \/
  (IsList f = false /\ item_typed f w).

(** An object: its keys are wire names in declaration order, every required field is
    there, every value is typed. *)
Definition fields_typed (fields : list FieldDescriptor) (o : OrderedObject) : Prop :=
  o.*1 `sublist_of` map fieldWireName fields /\ NoDup o.*1 /\
  (forall f, f ∈ fields -> RequiredInInput f = true -> fieldWireName f ∈ o.*1) /\
  (forall k w, (k, w) ∈ o -> exists f, f ∈ fields /\ k = fieldWireName f /\ value_typed f w).
End payload.

Fixpoint model_typed (n : nat) (models : gmap bytes ModelDescriptor) (enums : gmap bytes (gmap bytes bytes))
    (model : bytes) (o : OrderedObject) : Prop :=
  match n with
  | O => False
  | S n => exists d, models !! model = Some d /\ fields_typed enums (model_typed n models enums) (Fields d) o
  end.

Lemma validateScalar_typed k v p : validateScalar h k v p = Some None -> k <> B "datetime" -> scalar_typed k v.
Proof.
  unfold validateScalar, scalar_typed.
  destruct (k ==? B "string") eqn:E1; [apply eqb_true_1 in E1 as ->|apply eqb_false_1 in E1].
  { destruct (kindOf v ==? KindString) eqn:Ek; [|done]. apply eqb_true_1 in Ek. intros _ _. by split_and!. }
  destruct (k ==? B "boolean") eqn:E2; [apply eqb_true_1 in E2 as ->|apply eqb_false_1 in E2].
  { destruct (kindOf v ==? KindBool) eqn:Ek; [|done]. apply eqb_true_1 in Ek. intros _ _. by split_and!. }
  destruct (k ==? B "int64") eqn:E3; [apply eqb_true_1 in E3 as ->|apply eqb_false_1 in E3].
  { intros H _. split_and!; try done. intros _.
    destruct v; cbn in *; try done; try (by left). destruct (ParseInt64_ok s) eqn:Ep; [|done]. right. by exists s. }
  destruct (k ==? B "float64") eqn:E4; [apply eqb_true_1 in E4 as ->|apply eqb_false_1 in E4].
  { intros H _. split_and!; try done. intros _. destruct v; cbn in *; try done.
    - destruct finite; [|done]. left. by exists text.
    - destruct (ParseFloat s) as [[]|] eqn:Ep; try done. right. by exists s. }
  destruct (k ==? B "datetime") eqn:E5; [by apply eqb_true_1 in E5 as ->|].
  destruct (k ==? B "json") eqn:E6; [apply eqb_true_1 in E6 as ->|apply eqb_false_1 in E6].
  - intros H _. split_and!; try done. intros _. destruct (validateJSON_exact h v p) as (r & Hr & Hx).
    rewrite Hr in H. injection H as ->. by apply Hx.
  - intros _ _. by split_and!.
Qed.

Lemma validateScalar_total k v p : exists r, validateScalar h k v p = Some r /\ forall e, r = Some e -> err_counted e.
Proof.
  unfold validateScalar. destruct (_ ==? B "json") eqn:E6.
  - apply eqb_true_1 in E6 as ->. cbn. unfold validateJSON.
    destruct (validateJSON_total h v p newSerializerValidationErrors) as (b & -> & Hg).
    eexists. split; [done|]. intros e. destruct (issueCount b =? 0) eqn:E; [done|]. intros [= <-]. cbn.
    destruct Hg as [Hc Hl]; [unfold counted, MaxInt32; cbn; lia|]. split; [done|]. unfold counted in Hc. lia.
  - repeat case_match; eexists; (split; [reflexivity|]); intros e' [= <-]; done.
Qed.

(** *** The walk yields typed payloads *)

(** A field of the schema that is of format 2 only, with a default a caller can make. *)
Definition pure_v2 (s : SchemaDescriptor) (f : FieldDescriptor) : Prop :=
  field_ok s f /\ FieldModel f = [] /\ Enum f = None /\
  (forall d, Default f = Some d -> external (Default_Value d) = true).
Definition schema_v2 (s : SchemaDescriptor) : Prop := forall name m f,
  Models s !! name = Some m -> f ∈ Fields m ->
  FieldModel f = [] /\ Enum f = None /\ (forall d, Default f = Some d -> external (Default_Value d) = true).

Lemma pure_isV2 s f : pure_v2 s f -> isV2Field f = true.
Proof. intros [[H _] _]. unfold isV2Field. by rewrite (proj2 (eqb_false _ _) H). Qed.

Section walk_typed.
Context (s : SchemaDescriptor) (G : Generators).
Context (rec : bytes -> gv -> bytes -> Ser OrderedObject) (object_typed : bytes -> OrderedObject -> Prop).
Context (rec_typed : forall model v p, external v = true -> yields (rec model v p) (object_typed model)).
#[local] Abbreviation enums := (Enums s).

(** A value an item may be given: external, or the timestamp of a default. *)
Definition admissible (f : FieldDescriptor) (v : gv) : Prop :=
  external v = true \/ ScalarKind f = B "datetime" /\ exists s, v = VGenerated s.

Lemma checked_scalar f v p : ScalarKind f <> B "model" -> ScalarKind f <> B "enum" -> ScalarKind f <> B "datetime" ->
  yields match validateScalar h (ScalarKind f) v p with
         | None => fun n => (Diverge, n)
         | Some (Some e) => fail e
         | Some None => ok (WValue v)
         end (item_typed enums object_typed f).
Proof.
  intros Hm He Hd. destruct (validateScalar_total (ScalarKind f) v p) as (r & Hr & Hc). rewrite Hr.
  destruct r as [e|]; [by apply yields_fail, Hc|]. apply yields_ok. unfold item_typed.
  rewrite (proj2 (eqb_false _ _) Hm), (proj2 (eqb_false _ _) He), (proj2 (eqb_false _ _) Hd).
  exists v. split; [done|]. by eapply validateScalar_typed.
Qed.

Lemma serializeItem_typed f v p : pure_v2 s f -> admissible f v ->
  yields (serializeItem h enums rec f v p) (item_typed enums object_typed f).
Proof.
  intros Hf Hv. pose proof (pure_isV2 s f Hf) as Hv2. pose proof Hf as ((_ & _ & Heid & Hmid) & Hmod & Henum & _).
  destruct Hv as [Hv|[Hk [text ->]]].
  2:{ apply yields_ok. unfold item_typed. rewrite Hk. by exists text. }
  assert (yields (
    let model := if ScalarKind f ==? B "model" then DescriptorID f else FieldModel f in
    if negb (model ==? []) then andThen (rec model v p) (fun o => ok (WObject o))
    else match (if ScalarKind f ==? B "enum" then enums !! DescriptorID f else Enum f) with
      | Some values =>
        if kindOf v ==? KindString then
          ok match values !! stringOf v with Some wire => WText wire | None => WValue v end
        else if isV2Field f then fail (issueError (B "TYPE_MISMATCH") p) else ok (WValue v)
      | None =>
        match v with
        | VTime text =>
          if negb (isV2Field f) || (ScalarKind f ==? B "datetime") then ok (WText text)
          else match validateScalar h (ScalarKind f) v p with
               | None => fun n => (Diverge, n) | Some (Some e) => fail e | Some None => ok (WValue v) end
        | _ => if isV2Field f then
            match validateScalar h (ScalarKind f) v p with
            | None => fun n => (Diverge, n) | Some (Some e) => fail e | Some None => ok (WValue v) end
          else ok (WValue v)
        end
      end) (item_typed enums object_typed f)) as Hmain.
  { cbv zeta. destruct (ScalarKind f ==? B "model") eqn:Em.
    - pose proof (eqb_true_1 _ _ Em) as Hk. rewrite (proj2 (eqb_false _ _) (proj1 (Hmid Hk))). cbn [negb].
      eapply yields_andThen; [by apply rec_typed|]. intros o Ho. apply yields_ok. unfold item_typed. rewrite Em. by exists o.
    - rewrite Hmod, eqb_refl. cbn [negb]. apply eqb_false_1 in Em as Hm.
      destruct (ScalarKind f ==? B "enum") eqn:Ee.
      + pose proof (eqb_true_1 _ _ Ee) as Hk. destruct (proj2 (Heid Hk)) as [values Hvalues]. rewrite Hvalues.
        destruct (kindOf v ==? KindString) eqn:Eks; [|rewrite Hv2; by apply yields_fail].
        apply eqb_true_1 in Eks. apply yields_ok. unfold item_typed. rewrite Em, Ee. exists values. split; [done|].
        destruct (values !! stringOf v) as [wire|] eqn:El; [left; by exists (stringOf v), wire|right; by exists v].
      + rewrite Henum, Hv2. cbn [negb orb]. apply eqb_false_1 in Ee as He.
        destruct (ScalarKind f ==? B "datetime") eqn:Ed.
        * pose proof (eqb_true_1 _ _ Ed) as Hk.
          destruct v; try (apply yields_ok; unfold item_typed; rewrite Em, Ee, Ed; by eexists);
            rewrite Hk; cbn; by apply yields_fail.
        * apply eqb_false_1 in Ed. destruct v; by apply checked_scalar. }
  destruct v; try exact Hmain. done.
Qed.

Lemma addIssue_yields {A} i a (m : serializerValidationErrors -> Ser A) (Q : A -> Prop) :
  counted a -> (forall b, counted b -> 0 < issueCount b -> yields (m b) Q) -> yields (m (addIssue i a)) Q.
Proof. intros Ha H. destruct (addIssue_count i a Ha) as (H1 & _ & H2). by apply H. Qed.

(** The loop over the elements: nothing is dropped, and an issue is never lost. *)
Lemma serializeItems_typed f p l : pure_v2 s f -> (forall x, x ∈ l -> admissible f x.2) -> forall items a,
  counted a -> (issueCount a = 0 -> Forall (item_typed enums object_typed f) items) ->
  yields (serializeItems h enums rec f p l items a) (Forall (item_typed enums object_typed f)).
Proof.
  intros Hf. induction l as [|[i v] l IH]; intros Hl items a Ha Hi; cbn [serializeItems].
  { destruct (issueCount a =? 0) eqn:E; cbn [negb].
    - apply yields_ok, Hi. lia.
    - apply yields_fail. cbn. split; [done|]. unfold counted in Ha. lia. }
  assert (forall x, x ∈ l -> admissible f x.2) as Hl' by (intros x Hx; apply Hl; by right).
  destruct (isNilValue v && _).
  { apply (addIssue_yields _ a (serializeItems h enums rec f p l (items ++ [WNil]))); [done|].
    intros b Hb Hpos. apply IH; [done|done|lia]. }
  eapply yields_handle; [apply serializeItem_typed; [done|]; apply (Hl (i, v)); by left| |].
  - intros w Hw. apply IH; [done|done|]. intros H. apply Forall_app. split; [by apply Hi|by constructor].
  - intros e He. destruct (add_counted e a He Ha) as (H1 & _ & H2). destruct (add e a) as [b added]. cbn [fst snd] in *.
    destruct added; [|by apply yields_fail]. apply IH; [done|done|]. specialize (H2 eq_refl). lia.
Qed.

Lemma serializeValue_typed f v p : pure_v2 s f -> admissible f v -> (isNil v = true -> NullableInInput f = true) ->
  yields (serializeValue h enums rec f v p) (value_typed enums object_typed f).
Proof.
  intros Hf Hv Hn. pose proof (pure_isV2 s f Hf) as Hv2. unfold serializeValue. destruct (isNil v) eqn:En.
  { destruct v; try done. apply yields_ok. left. by rewrite Hn. }
  assert (IsList f = false -> yields (serializeItem h enums rec f v p) (value_typed enums object_typed f)) as Hitem.
  { intros Hl. eapply yields_mono; [by apply serializeItem_typed|]. intros w Hw. right. right. done. }
  assert (IsList f = true -> forall l, (forall x, x ∈ l -> external x = true) ->
    yields (andThen (serializeItems h enums rec f p (indexed 0 l) [] newSerializerValidationErrors) (fun items => ok (WList items)))
      (value_typed enums object_typed f)) as Hlist.
  { intros Hl l Hext. eapply yields_andThen; [apply serializeItems_typed; [done| | |by constructor]|].
    - intros [i x] Hx. left. apply Hext. apply (elem_indexed_2 0). by exists i.
    - unfold counted, MaxInt32. cbn. lia.
    - intros items Hitems. apply yields_ok. right. left. split; [done|]. by exists items. }
  rewrite Hv2. destruct (IsList f) eqn:El; [|destruct v; try done; by apply Hitem].
  destruct v as [| | | | | | |text| | | |es|[q|] n| | |]; try done; try (by apply yields_fail).
  - apply Hlist; [done|]. intros x Hx. destruct Hv as [Hv|[_ [text Hs]]]; [|done]. by eapply elements_external.
  - apply Hlist; [done|]. intros x Hx. by eapply (elements_external (VSlice (Some q) n)).
  - apply yields_ok. right. left. split; [done|]. by exists [].
Qed.

Lemma Set_keys k (w : wv) o : (Set_ k w o).*1 = if bool_decide (k ∈ o.*1) then o.*1 else o.*1 ++ [k].
Proof.
  induction o as [|[k' w'] o IH]; cbn [Set_ fmap list_fmap fst].
  { by rewrite bool_decide_eq_false_2 by apply not_elem_of_nil. }
  destruct (k' ==? k) eqn:E; [apply eqb_true_1 in E as ->|apply eqb_false_1 in E].
  - by rewrite bool_decide_eq_true_2 by (apply elem_of_cons; by left).
  - cbn [fmap list_fmap fst]. rewrite IH. do 2 case_bool_decide; try done; rewrite elem_of_cons in *; naive_solver.
Qed.
Lemma Set_elem k (w : wv) o x : x ∈ Set_ k w o -> x = (k, w) \/ x ∈ o.
Proof.
  induction o as [|[k' w'] o IH]; cbn [Set_]; [by rewrite list_elem_of_singleton; auto|].
  destruct (k' ==? k) eqn:E; [apply eqb_true_1 in E as ->|]; rewrite !elem_of_cons; naive_solver.
Qed.

Lemma Set_typed dn f w o : fields_typed enums object_typed dn o -> value_typed enums object_typed f w ->
  fields_typed enums object_typed (dn ++ [f]) (Set_ (fieldWireName f) w o).
Proof.
  intros (Hs & Hn & Hr & Ht) Hw.
  assert (fieldWireName f ∈ (Set_ (fieldWireName f) w o).*1 /\ o.*1 ⊆ (Set_ (fieldWireName f) w o).*1) as [Hin Hsub].
  { rewrite Set_keys. case_bool_decide; set_solver. }
  split_and!.
  - rewrite Set_keys, map_app. case_bool_decide; [by apply sublist_inserts_r|by apply sublist_app].
  - rewrite Set_keys. case_bool_decide; [done|]. apply NoDup_app. split_and!; [done|set_solver|apply NoDup_singleton].
  - intros g [Hg| ->%list_elem_of_singleton]%elem_of_app Hreq; [by apply Hsub, Hr|done].
  - intros k w' [[= -> ->]|Hin']%Set_elem; [exists f; set_solver|].
    destruct (Ht k w' Hin') as (g & Hg & Hk & Hgt). exists g. set_solver.
Qed.
Lemma skip_typed dn f o : RequiredInInput f = false -> fields_typed enums object_typed dn o ->
  fields_typed enums object_typed (dn ++ [f]) o.
Proof.
  intros Hf (Hs & Hn & Hr & Ht). split_and!; [by rewrite map_app; apply sublist_inserts_r|done| |].
  - intros g [Hg| ->%list_elem_of_singleton]%elem_of_app Hreq; [by apply Hr|congruence].
  - intros k w Hin. destruct (Ht k w Hin) as (g & ? & ? & ?). exists g. set_solver.
Qed.

Lemma defaultValue_admissible f d : external (Default_Value d) = true -> yields (defaultValue G f d) (admissible f).
Proof.
  intros Hd. unfold defaultValue.
  assert (forall g, yields (generate g) (fun v => external v = true)) as Hg by (intros g n; unfold generate; by destruct (g n)).
  eapply (yields_andThen _ _ (fun v => external v = true)).
  - unfold resolveDefault. repeat case_match; auto. by apply yields_ok.
  - intros v Hv. apply yields_ok. destruct (Default_Kind d ==? B "now"); cbn [andb]; [|by left].
    destruct (ScalarKind f ==? B "datetime") eqn:E; [|by left]. right. split; [by apply eqb_true_1|by eexists].
Qed.

(** The loop over the fields: the object of the fields done so far is typed unless
    an issue was found, and then no object is returned. *)
Lemma serializeFields_typed get p : (forall name v, get name = Some v -> external v = true) ->
  forall fields dn o a, Forall (pure_v2 s) fields -> counted a ->
  (issueCount a = 0 -> fields_typed enums object_typed dn o) ->
  yields (serializeFields h enums G rec get p fields o a) (fields_typed enums object_typed (dn ++ fields)).
Proof.
  intros Hget. induction fields as [|f fields IH]; intros dn o a Hf Ha Ho; cbn [serializeFields].
  { rewrite app_nil_r. destruct (issueCount a =? 0) eqn:E; cbn [negb].
    - apply yields_ok, Ho. lia.
    - apply yields_fail. cbn. split; [done|]. unfold counted in Ha. lia. }
  apply Forall_cons in Hf as [Hf Hfs]. pose proof (pure_isV2 s f Hf) as Hv2. pose proof Hf as (_ & _ & _ & Hd).
  rewrite (app_assoc dn [f] fields : dn ++ f :: fields = _).
  set (fp := appendPath p (fieldName f)). unfold validateFieldDescriptor. rewrite Hv2. cbn [negb].
  destruct (bool_decide (ScalarKind f ∈ scalarKinds)); [|by apply yields_fail].
  assert (forall v, admissible f v -> yields
     (if isNil v && true && negb (NullableInInput f) then
          serializeFields h enums G rec get p fields o (addIssue (validationError (B "NULL_NOT_ALLOWED") fp) a)
        else
          handle (serializeValue h enums rec f v fp) (fun r =>
            match r with
            | Ok w => serializeFields h enums G rec get p fields (Set_ (fieldWireName f) w o) a
            | Err e =>
              let '(issues, added) := add e a in
              if added then serializeFields h enums G rec get p fields o issues else fail e
            end)) (fields_typed enums object_typed ((dn ++ [f]) ++ fields))) as Hval.
  { intros v Hv. destruct (isNil v && true && negb (NullableInInput f)) eqn:En.
    { apply (addIssue_yields _ a (serializeFields h enums G rec get p fields o)); [done|].
      intros b Hb Hpos. apply IH; [done|done|lia]. }
    eapply yields_handle; [apply serializeValue_typed; [done|done|]| |].
    - intros Hn. rewrite Hn in En. by destruct (NullableInInput f).
    - intros w Hw. apply IH; [done|done|]. intros H0. apply Set_typed; auto.
    - intros e He. destruct (add_counted e a He Ha) as (H1 & _ & H2). destruct (add e a) as [b added]. cbn [fst snd] in *.
      destruct added; [|by apply yields_fail]. apply IH; [done|done|]. specialize (H2 eq_refl). lia. }
  destruct (get (fieldName f)) as [v|] eqn:Eg; [apply Hval; left; eauto|].
  destruct (Default f) as [d|] eqn:Ed; [eapply yields_andThen; [by apply defaultValue_admissible, Hd|exact Hval]|].
  destruct (RequiredInInput f) eqn:Er; cbn [andb].
  - apply (addIssue_yields _ a (serializeFields h enums G rec get p fields o)); [done|].
    intros b Hb Hpos. apply IH; [done|done|lia].
  - apply IH; [done|done|]. intros H0. apply skip_typed; auto.
Qed.
End walk_typed.

Lemma model_typed_walk s G fuel : schema_ok s -> schema_v2 s -> forall model v p, external v = true ->
  yields (serializeModelAtUnchecked h fuel (Models s) (Enums s) G model v p)
    (model_typed fuel (Models s) (Enums s) model).
Proof.
  intros (_ & Hfields & _) Hv2. induction fuel as [|fuel IH]; intros model v p Hv; [apply yields_diverge|].
  cbn [serializeModelAtUnchecked model_typed]. destruct (Models s !! model) as [d|] eqn:Em; [|by apply yields_fail].
  destruct (inputGetter h v) as [get|e] eqn:Eg.
  2:{ apply yields_fail. revert Eg. unfold inputGetter. repeat case_match; intros [= <-]; done. }
  eapply yields_mono; [eapply (serializeFields_typed s G _ _ IH) with (dn := [])|].
  - intros name w. by eapply inputGetter_external.
  - apply Forall_forall. intros f Hf. split; [by eapply Hfields|by eapply Hv2].
  - unfold counted, MaxInt32. cbn. lia.
  - intros _. split_and!; [constructor|constructor|set_solver|set_solver].
  - intros o Ho. by exists d.
Qed.

(** *** The walk comes to an end *)

(** What the walk of a model looks at is nested in at most [n] objects. *)
Fixpoint nesting (n : nat) (v : gv) : Prop :=
  match n with
  | O => False
  | S n => forall get name w, inputGetter h v = Ok get -> get name = Some w ->
      nesting n w /\ forall x, x ∈ elements h w -> nesting n x
  end.
Lemma nesting_map n a es : h !! a = Some (OMap es) ->
  Forall (fun e => nesting n e.2 /\ forall x, x ∈ elements h e.2 -> nesting n x) es -> nesting (S n) (VMap (Some a) true).
Proof.
  intros Ha Hes get name w [= <-]. cbn. rewrite Ha. intros Hw%mapEntry_elem. rewrite Forall_forall in Hes.
  apply list_elem_of_fmap in Hw as (e & -> & He). by apply Hes.
Qed.
(** No object. *)
Definition flat (v : gv) : Prop := forall get, inputGetter h v <> Ok get.
Definition flat_default (f : FieldDescriptor) : Prop := forall d, Default f = Some d ->
  flat (Default_Value d) /\ forall x, x ∈ elements h (Default_Value d) -> flat x.

(** A computation that panics only if [P] allows it and always ends. *)
Definition finishes (P : Prop) {A} (m : Ser A) : Prop := forall n,
  match (m n).1 with Done _ => True | Panic => P | Diverge => False end.
Definition panics (G : Generators) : Prop := exists n, Now G n = None \/ UUID G n = None \/ CUID G n = None.

Section walk_ends.
Context (enums : gmap bytes (gmap bytes bytes)) (G : Generators).
#[local] Abbreviation ends := (finishes (panics G)).
Lemma ends_handle {A C} (m : Ser A) (f : result serializerError A -> Ser C) :
  ends m -> (forall r, ends (f r)) -> ends (handle m f).
Proof. intros Hm Hf n. unfold handle. specialize (Hm n). destruct (m n) as [[]]; try done. apply Hf. Qed.
Lemma ends_andThen {A C} (m : Ser A) (f : A -> Ser C) : ends m -> (forall a, ends (f a)) -> ends (andThen m f).
Proof. intros Hm Hf. apply ends_handle; [done|]. by intros [a|e]. Qed.

Context (rec : bytes -> gv -> bytes -> Ser OrderedObject) (good : gv -> Prop).
Context (rec_ends : forall model v p, good v -> ends (rec model v p)).
Context (flat_good : forall v, flat v -> good v).

Lemma serializeItem_ends f v p : good v -> ends (serializeItem h enums rec f v p).
Proof.
  intros Hv. assert (ends match validateScalar h (ScalarKind f) v p with
    | None => fun n => (Diverge, n) | Some (Some e) => fail e | Some None => ok (WValue v) end) as Hs.
  { destruct (validateScalar_total (ScalarKind f) v p) as (r & -> & _). by destruct r. }
  assert (forall model, ends (andThen (rec model v p) (fun o => ok (WObject o)))) as Hr
    by (intros model; apply ends_andThen; [by apply rec_ends|done]).
  unfold serializeItem. repeat case_match; subst; try done.
Qed.

Lemma serializeItems_ends f p l : (forall x, x ∈ l -> good x.2) -> forall items a,
  ends (serializeItems h enums rec f p l items a).
Proof.
  induction l as [|[i v] l IH]; intros Hl items a; cbn [serializeItems]; [by destruct (negb _)|].
  assert (forall x, x ∈ l -> good x.2) as Hl' by (intros x Hx; apply Hl; by right).
  destruct (isNilValue v && _); [by apply IH|]. apply ends_handle; [apply serializeItem_ends, (Hl (i, v)); by left|].
  intros [w|e]; [by apply IH|]. destruct (add e a) as [b []]; [by apply IH|done].
Qed.

Lemma serializeValue_ends f v p : good v -> (forall x, x ∈ elements h v -> good x) ->
  ends (serializeValue h enums rec f v p).
Proof.
  intros Hv Hl. assert (ends (andThen (serializeItems h enums rec f p (indexed 0 (elements h v)) []
    newSerializerValidationErrors) (fun items => ok (WList items)))) as Hlist.
  { apply ends_andThen; [|done]. apply serializeItems_ends. intros [i x] Hx. apply Hl, (elem_indexed_2 0). by exists i. }
  pose proof (serializeItem_ends f v p Hv) as Hitem. unfold serializeValue. repeat case_match; subst; done.
Qed.

Lemma generate_ends g (m : gv -> Ser OrderedObject) : (forall n, g n = None -> panics G) ->
  (forall s, ends (m (VString s))) -> ends (andThen (generate g) m).
Proof.
  intros Hg Hm n. unfold andThen, handle, generate. destruct (g n) as [s|] eqn:E; [apply Hm|]. by apply (Hg n).
Qed.
Lemma andThen_assoc {A C D} (m : Ser A) (f : A -> Ser C) (g : C -> Ser D) n :
  andThen (andThen m f) g n = andThen m (fun a => andThen (f a) g) n.
Proof. unfold andThen, handle. destruct (m n) as [[[a|e]| |] n']; [|done..]. by destruct (f a n') as [[[]| |] ?]. Qed.

Lemma defaultValue_ends f d (m : gv -> Ser OrderedObject) : flat_default f -> Default f = Some d ->
  (forall v, good v -> (forall x, x ∈ elements h v -> good x) -> ends (m v)) -> ends (andThen (defaultValue G f d) m).
Proof.
  intros Hf Hd Hm. destruct (Hf d Hd) as [H1 H2].
  assert (forall s, ends (m (VString s)) /\ ends (m (VGenerated s))) as Hs.
  { intros s. split; (apply Hm; [by apply flat_good|intros x Hx; by apply elem_of_nil in Hx]). }
  assert (ends (m (Default_Value d))) as Hl by (apply Hm; auto).
  intros n. unfold defaultValue. rewrite andThen_assoc. revert n.
  change (ends (andThen (resolveDefault G d) (fun v => m (if (Default_Kind d ==? B "now") && (ScalarKind f ==? B "datetime")
    then VGenerated (stringOf v) else v)))).
  unfold resolveDefault. destruct (Default_Kind d ==? B "now").
  { apply generate_ends; [intros n Hn; exists n; auto|]. intros s. destruct (_ && _); apply Hs. }
  cbn [andb]. destruct (Default_Kind d ==? B "uuid"); [apply generate_ends; [intros n Hn; exists n; auto|apply Hs]|].
  destruct (Default_Kind d ==? B "cuid"); [apply generate_ends; [intros n Hn; exists n; auto|apply Hs]|]. exact Hl.
Qed.

Lemma serializeFields_ends get p :
  (forall name v, get name = Some v -> good v /\ forall x, x ∈ elements h v -> good x) ->
  forall fields o a, Forall flat_default fields -> ends (serializeFields h enums G rec get p fields o a).
Proof.
  intros Hget. induction fields as [|f fields IH]; intros o a Hf; cbn [serializeFields]; [by destruct (negb _)|].
  apply Forall_cons in Hf as [Hf Hfs]. set (fp := appendPath p (fieldName f)).
  destruct (validateFieldDescriptor f fp); [done|].
  match goal with |- context [andThen _ ?k] =>
    assert (forall v, good v -> (forall x, x ∈ elements h v -> good x) -> ends (k v)) as Hval end.
  { intros v Hv Hl. destruct (isNil v && _ && _); [by apply IH|]. apply ends_handle; [by apply serializeValue_ends|].
    intros [w|e]; [by apply IH|]. destruct (add e a) as [b []]; [by apply IH|done]. }
  destruct (get (fieldName f)) as [v|] eqn:Eg; [by apply Hval; apply (Hget (fieldName f))|].
  destruct (Default f) as [d|] eqn:Ed; [by apply defaultValue_ends|]. destruct (_ && _); by apply IH.
Qed.
End walk_ends.

Lemma serializeModel_ends models enums G :
  (forall name m f, models !! name = Some m -> f ∈ Fields m -> flat_default f) ->
  forall n fuel model v p, (n < fuel)%nat -> flat v \/ nesting n v ->
  finishes (panics G) (serializeModelAtUnchecked h fuel models enums G model v p).
Proof.
  intros Hd. induction n as [|n IH]; intros [|fuel] model v p Hfuel Hv; try lia; cbn [serializeModelAtUnchecked];
    (destruct (models !! model) as [m|] eqn:Em; [|done]);
    (destruct (inputGetter h v) as [get|e] eqn:Eg; [|done]); (destruct Hv as [Hv|Hv]; [by destruct (Hv get)|]); [done|].
  apply (serializeFields_ends enums G _ (fun w => flat w \/ nesting n w)).
  - intros model' w p' Hw. apply IH; [lia|exact Hw].
  - by left.
  - intros name w Hw. destruct (Hv get name w Eg Hw) as [H1 H2]. split; [by right|]. intros x Hx. right. by apply H2.
  - apply Forall_forall. intros f Hf. by eapply Hd.
Qed.
(** *** Plain errors *)

(** What a computation fails with. *)
Definition blames {A} (m : Ser A) (E : serializerError -> Prop) : Prop := forall n,
  match (m n).1 with Done (Err e) => E e | _ => True end.
Lemma blames_handle {A C} (m : Ser A) (f : result serializerError A -> Ser C) (E1 E : serializerError -> Prop) :
  blames m E1 -> (forall a, blames (f (Ok a)) E) -> (forall e, E1 e -> blames (f (Err e)) E) -> blames (handle m f) E.
Proof. intros Hm Ha He n. unfold handle. specialize (Hm n). destruct (m n) as [[[a|e]| |] n']; cbn in *; try done; [apply Ha|by apply He]. Qed.
Lemma blames_andThen {A C} (m : Ser A) (f : A -> Ser C) E : blames m E -> (forall a, blames (f a) E) -> blames (andThen m f) E.
Proof. intros Hm Hf. eapply blames_handle; [exact Hm|exact Hf|]. by intros e He n. Qed.
Lemma blames_impl {A} (m : Ser A) (E E' : serializerError -> Prop) : blames m E -> (forall e, E e -> E' e) -> blames m E'.
Proof. intros Hm H n. specialize (Hm n). destruct (m n) as [[[a|e]| |] n']; cbn in *; auto. Qed.

(** The value behind a pointer, and whether it is an object to the serializer. *)
Definition target (v : gv) : gv :=
  match v with VPointer (Some a) => match h !! a with Some (OVar false v) => v | _ => VOther end | _ => v end.
Definition isObject (v : gv) : bool :=
  match target v with VMap _ _ | VStruct _ | VTime _ | VOptional _ _ => true | _ => false end.

(** The model of the values of a field, if they are objects. *)
Definition modelOf (f : FieldDescriptor) : bytes := if ScalarKind f ==? B "model" then DescriptorID f else FieldModel f.
(** What a field is given by the input or, when that has no value for it, by its default. *)
Definition fieldInput (f : FieldDescriptor) (get : bytes -> option gv) (w : gv) : Prop :=
  get (fieldName f) = Some w \/
  get (fieldName f) = None /\ exists d, Default f = Some d /\ (w = Default_Value d \/ exists t, w = VString t \/ w = VGenerated t).
(** Somewhere in the input a model meets a value that is no object. *)
Inductive noObject (models : gmap bytes ModelDescriptor) : bytes -> gv -> Prop :=
| no_model name v : models !! name = None -> noObject models name v
| no_object name v : isObject v = false -> noObject models name v
| no_member name m f v get w x : models !! name = Some m -> inputGetter h v = Ok get -> f ∈ Fields m -> modelOf f <> [] ->
    fieldInput f get w -> (x = w \/ IsList f = true /\ x ∈ elements h w) -> noObject models (modelOf f) x -> noObject models name v.

Lemma inputGetter_fails v e : inputGetter h v = Err e ->
  e = OtherError /\ isObject v = false \/ (exists i, e = IssueError i) /\ exists o b, target v = VMap o b /\ (forall o, v <> VMap o true).
Proof.
  unfold inputGetter, isObject, target. intros H. repeat case_match; simplify_eq; first [by left|right; split; [by eexists|do 2 eexists; split; [done|congruence]]].
Qed.

Section walk_blames.
Context (enums : gmap bytes (gmap bytes bytes)) (G : Generators) (rec : bytes -> gv -> bytes -> Ser OrderedObject).

Lemma serializeItem_blames f v p (Bad : Prop) : (forall p, blames (rec (modelOf f) v p) (fun e => e = OtherError -> Bad)) ->
  blames (serializeItem h enums rec f v p) (fun e => e = OtherError -> modelOf f <> [] /\ Bad).
Proof.
  intros Hrec.
  assert (blames match validateScalar h (ScalarKind f) v p with
    | None => fun n => (Diverge, n) | Some (Some e) => fail e | Some None => ok (WValue v) end (fun e => e = OtherError -> modelOf f <> [] /\ Bad)) as Hs.
  { unfold validateScalar, validateJSON. repeat case_match; simplify_eq; (intros ?; cbn; done). }
  assert (negb (modelOf f ==? []) = true -> blames (andThen (rec (modelOf f) v p) (fun o => ok (WObject o))) (fun e => e = OtherError -> modelOf f <> [] /\ Bad)) as Hr.
  { intros Hm%negb_true_iff%eqb_false_1. apply blames_andThen; [eapply blames_impl; [apply Hrec|auto]|done]. }
  unfold serializeItem. fold (modelOf f). destruct v; try done; cbv zeta;
    (destruct (negb (modelOf f ==? [])); [by apply Hr|]); repeat case_match; try done.
Qed.

Lemma serializeItems_blames f p (Bad : gv -> Prop) l : (forall x p, x ∈ l -> blames (rec (modelOf f) x.2 p) (fun e => e = OtherError -> Bad x.2)) ->
  forall items a, blames (serializeItems h enums rec f p l items a) (fun e => e = OtherError -> modelOf f <> [] /\ exists x, x ∈ l /\ Bad x.2).
Proof.
  induction l as [|[i v] l IH]; intros Hl items a; cbn [serializeItems]; [by destruct (negb _)|].
  assert (forall items a, blames (serializeItems h enums rec f p l items a)
    (fun e => e = OtherError -> modelOf f <> [] /\ exists x, x ∈ (i, v) :: l /\ Bad x.2)) as IH'.
  { intros items' a'. eapply blames_impl; [apply IH; intros x p' Hx; apply Hl; by right|]. intros e He ->. destruct (He eq_refl) as (? & x & ? & ?).
    split; [done|]. exists x. split; [by right|done]. }
  destruct (isNilValue v && _); [by apply IH'|].
  eapply blames_handle; [apply (serializeItem_blames f v _ (Bad v)); intros p'; apply (Hl (i, v)); by left|by intros w|].
  intros e He. destruct (add e a) as [b []]; [by apply IH'|]. intros n. cbn. intros ->. destruct (He eq_refl) as [? ?]. split; [done|].
  exists (i, v). split; [by left|done].
Qed.

Lemma serializeValue_blames f v p (Bad : gv -> Prop) :
  (forall x p, x = v \/ IsList f = true /\ x ∈ elements h v -> blames (rec (modelOf f) x p) (fun e => e = OtherError -> Bad x)) ->
  blames (serializeValue h enums rec f v p)
    (fun e => e = OtherError -> modelOf f <> [] /\ exists x, (x = v \/ IsList f = true /\ x ∈ elements h v) /\ Bad x).
Proof.
  intros Hrec.
  assert (blames (serializeItem h enums rec f v p)
    (fun e => e = OtherError -> modelOf f <> [] /\ exists x, (x = v \/ IsList f = true /\ x ∈ elements h v) /\ Bad x)) as Hitem.
  { eapply blames_impl; [apply (serializeItem_blames f v p (Bad v)); auto|]. intros e He ->. destruct (He eq_refl). eauto. }
  assert (IsList f = true -> blames (andThen (serializeItems h enums rec f p (indexed 0 (elements h v)) [] newSerializerValidationErrors) (fun items => ok (WList items)))
    (fun e => e = OtherError -> modelOf f <> [] /\ exists x, (x = v \/ IsList f = true /\ x ∈ elements h v) /\ Bad x)) as Hlist.
  { intros Hl. apply blames_andThen; [|done]. eapply blames_impl; [apply (serializeItems_blames f p Bad)|].
    - intros [i x] p' Hx. apply Hrec. right. split; [done|]. apply (elem_indexed_2 0). by exists i.
    - intros e He ->. destruct (He eq_refl) as (? & [i x] & Hx & ?). split; [done|]. exists x. split; [|done]. right. split; [done|].
      apply (elem_indexed_2 0). by exists i. }
  unfold serializeValue. destruct v; try exact Hitem; try done; destruct (IsList f) eqn:El; try exact Hitem; try (by destruct (isV2Field f));
    repeat case_match; simplify_eq; first [exact (Hlist eq_refl)|done].
Qed.

(** A default gives its value or a generated text, unless a generator panics. *)
Lemma defaultValue_gives f d n :
  (exists v k, defaultValue G f d n = (Done (Ok v), k) /\ (v = Default_Value d \/ exists t, v = VString t \/ v = VGenerated t)) \/
  panics G /\ exists k, defaultValue G f d n = (Panic, k).
Proof.
  assert (forall (g : nat -> option bytes) (t : bool), (forall n, g n = None -> panics G) ->
    (exists v k, andThen (generate g) (fun v => ok (if t then VGenerated (stringOf v) else v)) n = (Done (Ok v), k) /\
       exists t, v = VString t \/ v = VGenerated t) \/
    panics G /\ exists k, andThen (generate g) (fun v => ok (if t then VGenerated (stringOf v) else v)) n = (Panic, k)) as Hg.
  { intros g t Hg. unfold andThen, handle, generate. destruct (g n) as [x|] eqn:E; [left|right; split; [by eapply Hg|by eexists]].
    eexists _, _. split; [done|]. exists x. destruct t; auto. }
  unfold defaultValue, resolveDefault.
  destruct (Default_Kind d ==? B "now"); [|destruct (Default_Kind d ==? B "uuid"); [|destruct (Default_Kind d ==? B "cuid")]]; cbn [andb].
  - destruct (Hg (Now G) (ScalarKind f ==? B "datetime")) as [(v & k & H1 & H2)|H]; [intros m Hm; exists m; auto|left; eauto|by right].
  - destruct (Hg (UUID G) false) as [(v & k & H1 & H2)|H]; [intros m Hm; exists m; auto|left; eauto|by right].
  - destruct (Hg (CUID G) false) as [(v & k & H1 & H2)|H]; [intros m Hm; exists m; auto|left; eauto|by right].
  - left. eexists _, _. split; [done|by left].
Qed.

Lemma serializeFields_blames get p (Bad : Prop) : forall fields o a,
  (forall f, f ∈ fields -> forall q, validateFieldDescriptor f q = None) ->
  (forall f w q, f ∈ fields -> fieldInput f get w -> blames (serializeValue h enums rec f w q) (fun e => e = OtherError -> Bad)) ->
  blames (serializeFields h enums G rec get p fields o a) (fun e => (e = OtherError -> Bad) /\ forall i, e <> IssueError i).
Proof.
  induction fields as [|f fields IH]; intros o a Hok Hval; cbn [serializeFields]; [by destruct (negb _)|].
  assert (forall o a, blames (serializeFields h enums G rec get p fields o a) (fun e => (e = OtherError -> Bad) /\ forall i, e <> IssueError i)) as IH'.
  { intros o' a'. apply IH; [intros f' Hf'; apply Hok; by right|intros f' w q Hf'; apply Hval; by right]. }
  rewrite (Hok f) by by left.
  match goal with |- context [andThen _ ?k] =>
    assert (forall v, fieldInput f get v -> blames (k v) (fun e => (e = OtherError -> Bad) /\ forall i, e <> IssueError i)) as Hv end.
  { intros v Hv. destruct (isNil v && _ && _); [by apply IH'|].
    eapply blames_handle; [apply (Hval f v); [by left|done]|intros w; by apply IH'|].
    intros e He. destruct e as [i|i|]; cbn [add]; [by apply IH'|by apply IH'|]. intros n. cbn. split; [by intros _; apply He|done]. }
  destruct (get (fieldName f)) as [v|] eqn:Eg; [apply Hv; by left|].
  destruct (Default f) as [d|] eqn:Ed; [|destruct (_ && _); by apply IH'].
  intros n. unfold andThen at 1, handle at 1. destruct (defaultValue_gives f d n) as [(v & k & -> & Hd)|[_ [k ->]]]; [|done].
  apply Hv. right. split; [done|]. eauto.
Qed.
End walk_blames.

Lemma serializeModel_blames s G : schema_ok s -> forall fuel model v p,
  blames (serializeModelAtUnchecked h fuel (Models s) (Enums s) G model v p)
    (fun e => (e = OtherError -> noObject (Models s) model v) /\
       forall i, e = IssueError i -> exists o b, target v = VMap o b /\ (forall o, v <> VMap o true)).
Proof.
  intros (_ & Hfields & _). induction fuel as [|fuel IH]; intros model v p; [done|]. cbn [serializeModelAtUnchecked].
  destruct (Models s !! model) as [d|] eqn:Em; [|intros n; cbn; split; [intros _; by apply no_model|done]].
  destruct (inputGetter h v) as [get|e] eqn:Eg.
  2:{ intros n. cbn. apply inputGetter_fails in Eg as [[-> Ho]|[[i ->] Hm]]; (split; [intros [=]|done]); by apply no_object. }
  eapply blames_impl.
  - eapply (serializeFields_blames (Enums s) G _ get p (noObject (Models s) model v)).
    + intros f Hf q. destruct (Hfields model d f Em Hf) as (_ & Hk & _). unfold validateFieldDescriptor.
      destruct (negb _); [done|]. by rewrite (bool_decide_eq_true_2 _ Hk).
    + intros f w q Hf Hw. eapply blames_impl; [apply (serializeValue_blames _ _ f w q (noObject (Models s) (modelOf f)))|].
      * intros x p' Hx. eapply blames_impl; [apply IH|]. by intros e [He _].
      * intros e He ->. destruct (He eq_refl) as (Hm & x & Hx & Hno). by eapply no_member.
  - intros e [He Hi]. split; [done|]. intros i ->. by destruct (Hi i).
Qed.
End typing.

(** The error of the serializer: for a schema that is not valid that of its descriptor;
    else issues, at least one and at most as many as an int32 counts, or the issue of an
    input that is a map without string keys, or a plain error, and then a model is unknown
    or somewhere met a value that is no object. *)
Definition serializeError (h : memory) (s : SchemaDescriptor) (model : bytes) (input : gv) (e : serializerError) : Prop :=
  (exists d, ValidateSchemaDescriptor s = Some d /\ e = descriptorFailure d) \/
  ValidateSchemaDescriptor s = None /\
  match e with
  | AggregateError i => 0 < issueCount i <= MaxInt32
  | IssueError _ => exists o b, target h input = VMap o b /\ (forall o, input <> VMap o true)
  | OtherError => noObject h (Models s) model input
  end.


(** *** Fields that are not objects *)

Section scalars.
Context {F : Floats} (h : memory) (enums : gmap bytes (gmap bytes bytes)) (G : Generators).

(** The value of such a field is serialized without the recursive call. *)
Lemma scalar_ext rec rec' f v p : modelOf f = [] -> forall n, serializeValue h enums rec f v p n = serializeValue h enums rec' f v p n.
Proof.
  intros Hf. assert (forall v p, serializeItem h enums rec f v p = serializeItem h enums rec' f v p) as Hitem.
  { intros v' p'. unfold serializeItem. fold (modelOf f). by rewrite Hf. }
  assert (forall l items a n, serializeItems h enums rec f p l items a n = serializeItems h enums rec' f p l items a n) as Hitems.
  { induction l as [|[i x] l IH]; intros items a n; cbn [serializeItems]; [done|]. destruct (_ && _); [apply IH|]. unfold handle. rewrite Hitem.
    destruct (serializeItem _ _ _ _ _ _ n) as [[[w|e]| |] n']; try done. destruct (add e a) as [b []]; [apply IH|done]. }
  intros n. unfold serializeValue. destruct v; try (by rewrite Hitem); destruct (IsList f); try (by rewrite Hitem); try done;
    repeat case_match; try (by rewrite Hitem); try done; unfold andThen, handle; by rewrite Hitems.
Qed.
(** It is done with a value or with issues. *)
Lemma scalar_done rec f v p n : modelOf f = [] ->
  exists r k, serializeValue h enums rec f v p n = (Done r, k) /\ r <> Err OtherError.
Proof.
  intros Hf. set (none := fun (_ : bytes) (_ : gv) (_ : bytes) => fail (A := OrderedObject) OtherError).
  rewrite (scalar_ext rec none) by done.
  pose proof (serializeValue_ends h enums (mkGenerators (fun _ => Some []) (fun _ => Some []) (fun _ => Some [])) none (fun _ => True)
    (fun _ _ _ _ => ltac:(done)) f v p I (fun _ _ => I) n) as Hends.
  pose proof (serializeValue_blames h enums none f v p (fun _ => True) (fun _ _ _ => ltac:(done)) n) as Hblame.
  destruct (serializeValue h enums none f v p n) as [[r| |] k]; cbn in *; [|by destruct Hends as (? & [?|[?|?]])|done].
  exists r, k. split; [done|]. intros ->. destruct (Hblame eq_refl) as [? _]. done.
Qed.
End scalars.

(** C37. A map that holds itself under a field of its own model is serialized
    without end although the schema is valid, when the field is no list, the fields
    before it are no models and the generators do not panic. *)
Theorem serialize_cycle_diverges {F : Floats} h s G model earlier f later a :
  ValidateSchemaDescriptor s = None -> Models s !! model = Some (mkModel (earlier ++ f :: later)) ->
  Forall (fun e => modelOf e = []) earlier -> ~ panics G ->
  ScalarKind f = B "model" -> DescriptorID f = model -> IsList f = false ->
  mapEntry (entries h (VMap (Some a) true)) (fieldName f) = Some (VMap (Some a) true) ->
  forall fuel k, (SerializeModelWithSchema h fuel s G model (VMap (Some a) true) k).1 = Diverge.
Proof.
  intros Hs Hm Hearlier HG Hk Hid Hl He fuel k. unfold SerializeModelWithSchema. rewrite Hs.
  apply ValidateSchemaDescriptor_None in Hs as (_ & Hok & _).
  assert (forall e q, e ∈ earlier ++ f :: later -> validateFieldDescriptor e q = None) as Hv.
  { intros e q Hin. destruct (Hok model _ e Hm Hin) as (_ & Hsk & _). unfold validateFieldDescriptor. destruct (negb _); [done|]. by rewrite (bool_decide_eq_true_2 _ Hsk). }
  destruct (Hok model _ f Hm) as (_ & _ & _ & Href); [cbn; apply elem_of_app; right; by left|]. destruct (Href Hk) as [Hne _].
  generalize (B "$") at 1. revert k. induction fuel as [|fuel IH]; intros k p; [done|].
  cbn [serializeModelAtUnchecked]. rewrite Hm. cbn [inputGetter Fields].
  generalize (@nil (bytes * wv)) as o, newSerializerValidationErrors as issues. clear Hm Hok. revert k.
  induction earlier as [|e earlier IHe]; intros k o issues; cbn [app serializeFields].
  - rewrite (Hv f) by by left. rewrite He. cbn [isNil andb]. unfold handle, serializeValue. rewrite Hl. unfold serializeItem, andThen, handle.
    rewrite Hk, eqb_refl, Hid, (proj2 (eqb_false _ _)) by congruence. cbn [negb].
    specialize (IH k (appendPath p (fieldName f))). by destruct (serializeModelAtUnchecked _ _ _ _ _ _ _ _ k) as [[]].
  - apply Forall_cons in Hearlier as [Hscalar Hearlier]. rewrite (Hv e) by by left.
    assert (forall e q, e ∈ earlier ++ f :: later -> validateFieldDescriptor e q = None) as Hv' by (intros e' q Hin; apply Hv; by right).
    specialize (IHe Hearlier Hv').
    match goal with |- context [andThen _ ?c] => assert (forall v k, (c v k).1 = Diverge) as Hval end.
    { intros v k'. destruct (isNil v && _ && _); [apply IHe|]. unfold handle.
      destruct (scalar_done h (Enums s) (serializeModelAtUnchecked h fuel (Models s) (Enums s) G) e v (appendPath p (fieldName e)) k' Hscalar) as (r & k2 & -> & Hr).
      destruct r as [w|[i|i|]]; cbn [add]; try apply IHe. done. }
    destruct (mapEntry _ (fieldName e)) as [v|]; [apply Hval|]. destruct (Default e) as [d|]; [|destruct (_ && _); apply IHe].
    unfold andThen at 1, handle at 1. destruct (defaultValue_gives G e d k) as [(v & k' & -> & _)|[Hp _]]; [apply Hval|done].
Qed.

(** ** An example *)

Module Demo.
#[local] Instance no_floats : Floats := fun _ => None.

(** A book has a title, the day it was added and perhaps a sequel. *)
Definition field (name kind id : bytes) (required : bool) (d : option DefaultSpec) : FieldDescriptor :=
  mkField name name kind id required false false d [] [] [] None.
Definition sequel : FieldDescriptor := field (B "sequel") (B "model") (B "Book") false None.
Definition book : ModelDescriptor :=
  mkModel [sequel; field (B "title") (B "string") [] true None;
           field (B "added") (B "datetime") [] true (Some (mkDefaultSpec (B "now") VNil))].
Definition schema : SchemaDescriptor := mkSchema DescriptorFormatVersion ∅ {[ B "Book" := book ]} ∅.
Definition G : Generators :=
  mkGenerators (fun _ => Some (B "2024-01-01T00:00:00.000Z")) (fun _ => None) (fun _ => None).
Definition heap : memory :=
  <[0%nat := OMap [(KString (B "title"), VString (B "One")); (KString (B "sequel"), VMap (Some 1%nat) true)]]>
  (<[1%nat := OMap [(KString (B "title"), VString (B "Two"))]]>
  {[ 2%nat := OMap [(KString (B "sequel"), VMap (Some 2%nat) true)] ]}).
Lemma fields_elim (P : FieldDescriptor -> Prop) : Forall P (Fields book) ->
  forall name m f, Models schema !! name = Some m -> f ∈ Fields m -> P f.
Proof.
  intros H name m f Hm. rewrite Forall_forall in H. change (Models schema) with ({[ B "Book" := book ]} : gmap bytes _) in Hm.
  apply lookup_singleton_Some in Hm as [_ <-]. apply H.
Qed.
End Demo.


(** The same with the title first, which the cyclic book does not even have. *)
Lemma serialize_cycle_diverges_witness :
  let title := Demo.field (B "title") (B "string") [] true None in
  let schema := mkSchema DescriptorFormatVersion ∅ {[ B "Book" := mkModel [title; Demo.sequel] ]} ∅ in
  let G := mkGenerators (fun _ => Some []) (fun _ => Some []) (fun _ => Some []) in
  (SerializeModelWithSchema (F := Demo.no_floats) Demo.heap 100 schema G (B "Book") (VMap (Some 2%nat) true) 0%nat).1 = Diverge.
Proof.
  intros title schema G.
  apply (serialize_cycle_diverges (F := Demo.no_floats) Demo.heap schema G (B "Book") [title] Demo.sequel [] 2%nat);
    [vm_compute; reflexivity|reflexivity|by apply Forall_singleton|by intros [n [H|[H|H]]]|reflexivity..].
Defined.
