(* ===== verification/Marshal.v ===== *)
(** * The wire encoding of payloads (ordered.go, [marshalEnvelope] of operation.go)

    A payload is a tree of ordered objects, slices, strings and other Go values.
    [encodeJSONValue] is its JSON text as package encoding/json and
    [OrderedObject.MarshalJSON] produce it; [marshalJSONLimit] writes the same text
    into a buffer that never grows past one byte more than its limit. *)
From S2P Require Import Prelude GoText GoValue Errors Descriptor StrictJson Response Serialize.

(** ** The values of an encoder *)

(** A value by its dynamic type: [*OrderedObject], [[]any] that is nil or not,
    [string], or any other. *)
Inductive ev :=
| EObject (fields : list (bytes * ev))
| ENilSlice
| ESlice (items : list ev)
| EString (s : bytes)
| EOther (v : gv).

(** encoding/json on the values of other types; [None] is an error. *)
Class Encoder := encodeOther : gv -> option bytes.

(** encoding/json on a string, without HTML escaping. *)
Definition encodeItem (it : range_item) : bytes :=
  if negb (rune_ok it) then B "\ufffd"
  else if rune it =? 8232 then B "\u2028"
  else if rune it =? 8233 then B "\u2029"
  else quote_rune (rune it).
Definition encodeString (s : bytes) : bytes := 34 :: concat (map encodeItem (range s)) ++ [34].

(** Texts put one after the other; an error is the result. *)
Definition cat (a b : option bytes) : option bytes :=
  match a, b with Some a, Some b => Some (a ++ b) | _, _ => None end.

Section encoding.
Context {E : Encoder}.

(** The members and the elements, each after the first behind a comma. *)
Fixpoint commaList {A} (enc : A -> option bytes) (first : bool) (l : list A) : option bytes :=
  match l with
  | [] => Some []
  | x :: l => cat (Some (if first then [] else [44])) (cat (enc x) (commaList enc false l))
  end.

(** ordered.go, [encodeJSONValue] and [OrderedObject.MarshalJSON]. *)
Fixpoint encodeJSONValue (v : ev) : option bytes :=
  match v with
  | EObject fields =>
    cat (Some [123])
      (cat (commaList (fun '(k, v) => cat (Some (encodeString k)) (cat (Some [58]) (encodeJSONValue v))) true fields)
        (Some [125]))
  | ENilSlice => Some (B "null")
  | ESlice items => cat (Some [91]) (cat (commaList encodeJSONValue true items) (Some [93]))
  | EString s => Some (encodeString s)
  | EOther v => encodeOther v
  end.
Definition MarshalJSON (o : list (bytes * ev)) : option bytes := encodeJSONValue (EObject o).

(** ** The encoder with a limit *)

Inductive encodeError := errJSONLimit | encodeFailed.

(** ordered.go, [limitedJSONEncoder]: a step takes the buffer and gives it back, with
    an error or none. *)
Definition Enc : Type := bytes -> bytes * option encodeError.

(** [if err := m; err != nil { return err }] before the rest. *)
Definition andAlso (m rest : Enc) : Enc := fun buffer =>
  match m buffer with
  | (buffer, None) => rest buffer
  | (buffer, Some e) => (buffer, Some e)
  end.

Section limited.
Context (limit : Z).

(** ordered.go, [write], [byte] and [fillLimit]. *)
Definition write (data : bytes) : Enc := fun buffer =>
  let remaining := limit + 1 - len buffer in
  if remaining <=? 0 then (buffer, Some errJSONLimit)
  else
    let data := if remaining <? len data then take (Z.to_nat remaining) data else data in
    let buffer := buffer ++ data in
    (buffer, if limit <? len buffer then Some errJSONLimit else None).
Definition byte_ (c : Z) : Enc := write [c].
Definition fillLimit : Enc := fun buffer =>
  let remaining := limit + 1 - len buffer in
  (if 0 <? remaining then buffer ++ repeat 0 (Z.to_nat remaining) else buffer, Some errJSONLimit).

(** ordered.go, [value] on a string. *)
Definition valueString (s : bytes) : Enc := fun buffer =>
  if limit + 1 - len buffer <? len s + 2 then fillLimit buffer else write (encodeString s) buffer.

(** ordered.go, [value], the loops. *)
Fixpoint commaSteps {A} (step : A -> Enc) (first : bool) (l : list A) : Enc :=
  match l with
  | [] => fun buffer => (buffer, None)
  | x :: l =>
    andAlso (if first then fun buffer => (buffer, None) else byte_ 44) (andAlso (step x) (commaSteps step false l))
  end.

(** ordered.go, [value]. *)
Fixpoint value_ (v : ev) : Enc :=
  match v with
  | EObject fields =>
    andAlso (byte_ 123)
      (andAlso (commaSteps (fun '(k, v) => andAlso (valueString k) (andAlso (byte_ 58) (value_ v))) true fields)
        (byte_ 125))
  | ENilSlice => andAlso (byte_ 91) (byte_ 93)
  | ESlice items => andAlso (byte_ 91) (andAlso (commaSteps value_ true items) (byte_ 93))
  | EString s => valueString s
  | EOther v => match encodeOther v with
                | Some text => write text
                | None => fun buffer => (buffer, Some encodeFailed)
                end
  end.

(** ordered.go, [marshalJSONLimit]. *)
Definition marshalJSONLimit (o : list (bytes * ev)) : option bytes :=
  match value_ (EObject o) [] with
  | (_, Some encodeFailed) => None
  | (buffer, _) => Some buffer
  end.
End limited.

(** operation.go, [marshalEnvelope]. *)
Definition envelope (customerID eventType timestamp : bytes) (data : list (bytes * ev)) : list (bytes * ev) :=
  Set_ (B "data") (EObject data) (Set_ (B "timestamp") (EString timestamp)
    (Set_ (B "customerId") (EString customerID) (Set_ (B "type") (EString eventType) []))).
Definition marshalEnvelope_ (customerID eventType timestamp : bytes) (data : list (bytes * ev)) : option bytes :=
  marshalJSONLimit maxPayloadBytes (envelope customerID eventType timestamp data).
End encoding.

(** ** The limited encoder writes the text up to its limit *)

(** What an encoder step does to a buffer within the limit, when its text is [r]: all
    of the text if it fits; otherwise it stops with an error, and a limit error leaves
    exactly one byte too many. *)
Definition bounded (limit : Z) (r : option bytes) (m : Enc) : Prop := forall buffer, len buffer <= limit ->
  match r with
  | Some text =>
    if len buffer + len text <=? limit then m buffer = (buffer ++ text, None)
    else exists b, m buffer = (b, Some errJSONLimit) /\ len b = limit + 1
  | None => exists b e, m buffer = (b, Some e) /\ (e = errJSONLimit -> len b = limit + 1)
  end.

Section limit_facts.
Context {E : Encoder} (limit : Z).

Lemma bounded_nil : bounded limit (Some []) (fun buffer => (buffer, None)).
Proof. intros buffer H. cbn. rewrite app_nil_r, Z.add_0_r. by rewrite (proj2 (Z.leb_le _ _) H). Qed.

Lemma bounded_write data : bounded limit (Some data) (write limit data).
Proof.
  intros buffer H. unfold write. assert ((limit + 1 - len buffer <=? 0) = false) as -> by lia.
  pose proof (len_nonneg data) as Hd. destruct (len buffer + len data <=? limit) eqn:E1.
  - assert ((limit + 1 - len buffer <? len data) = false) as -> by lia. rewrite len_app.
    by assert ((limit <? len buffer + len data) = false) as -> by lia.
  - assert (len (buffer ++ if limit + 1 - len buffer <? len data then take (Z.to_nat (limit + 1 - len buffer)) data else data)
      = limit + 1) as Hlen.
    { rewrite len_app. destruct (limit + 1 - len buffer <? len data) eqn:E2; [|zlia].
      unfold len at 2. rewrite length_take. unfold len in *. zlia. }
    rewrite Hlen. assert ((limit <? limit + 1) = true) as -> by lia. eauto.
Qed.

Lemma bounded_cat r1 r2 m1 m2 : bounded limit r1 m1 -> bounded limit r2 m2 ->
  bounded limit (cat r1 r2) (andAlso m1 m2).
Proof.
  intros H1 H2 buffer Hb. specialize (H1 buffer Hb). unfold andAlso. destruct r1 as [t1|]; cbn [cat].
  2:{ destruct H1 as (b & e & -> & He). eauto. }
  pose proof (len_nonneg t1) as Hn. destruct (len buffer + len t1 <=? limit) eqn:E1.
  - rewrite H1. assert (len (buffer ++ t1) <= limit) as Hb1 by (rewrite len_app; lia).
    specialize (H2 _ Hb1). destruct r2 as [t2|]; [|done].
    rewrite !len_app, Z.add_assoc in *. destruct (len buffer + len t1 + len t2 <=? limit); [|done]. by rewrite app_assoc.
  - destruct H1 as (b & -> & Hl). destruct r2 as [t2|]; [|eauto].
    pose proof (len_nonneg t2). rewrite len_app. assert ((len buffer + (len t1 + len t2) <=? limit) = false) as -> by lia. eauto.
Qed.
End limit_facts.

(** ** Strings *)
Section strings.
Import Grammar.

Definition runeChars (it : range_item) : list schar :=
  let r := rune it in
  if negb (rune_ok it) then [Unit (B "fffd")]
  else if r =? 8232 then [Unit (B "2028")]
  else if r =? 8233 then [Unit (B "2029")]
  else if r =? 34 then [Short 34] else if r =? 92 then [Short 92] else if r =? 8 then [Short 98]
  else if r =? 12 then [Short 102] else if r =? 10 then [Short 110] else if r =? 13 then [Short 114]
  else if r =? 9 then [Short 116]
  else if r <? 32 then [Unit [48; 48; hex_digit (r / 16); hex_digit (r mod 16)]]
  else map Raw (encodeRune r).

Lemma encodeRune_high r : 128 <= r -> Forall (fun c => 128 <= c) (encodeRune r).
Proof.
  intros H. unfold encodeRune. rewrite (between_out 0) by lia.
  assert (forall x, 0 <= Z.land x 63) as Hl by (intros x; apply Z.land_nonneg; lia).
  assert (forall k, 0 <= k -> 0 <= Z.shiftr r k) as Hs by (intros k Hk; apply Z.shiftr_nonneg; lia).
  pose proof (Hs 6 ltac:(lia)). pose proof (Hs 12 ltac:(lia)). pose proof (Hs 18 ltac:(lia)).
  repeat case_match; repeat constructor; try lia; match goal with |- 128 <= 128 + Z.land ?x 63 => specialize (Hl x); lia end.
Qed.


(** The encoding of one rune: a well-formed piece of a string literal that stands for
    the rune and is no shorter than its bytes. *)
Record item_spec (x : bytes * range_item) : Prop := {
  item_text : text (runeChars x.2) = encodeItem x.2;
  item_ok : Forall schar_ok (runeChars x.2);
  item_value : str_value (runeChars x.2) = encodeRune (rune x.2);
  item_valid : utf8_Valid (encodeItem x.2) = true;
  item_length : (length x.1 <= length (encodeItem x.2))%nat
}.

Ltac escaped := apply Forall_cons_2; [vm_compute; first [reflexivity|split; [|split; [eexists|]]; reflexivity]|apply Forall_nil_2].

Lemma item_encoded x : piece_ok x -> item_spec x.
Proof.
  destruct x as [p [a r [|]]]; unfold piece_ok; cbn [fst snd rune_ok rune].
  2:{ intros [-> Hp]. constructor; cbn [fst snd]; try done.
      - escaped.
      - rewrite Hp. vm_compute. lia. }
  intros (Hr & <- & Hv). destruct (decide (r < 32 \/ r = 34 \/ r = 92 \/ r = 8232 \/ r = 8233)) as [Hs|Hs].
  { assert (r ∈ (seqZ 0 32 ++ [34; 92; 8232; 8233])) as Hin.
    { apply elem_of_app. destruct Hs as [Hs|Hs]; [left; apply elem_of_seqZ; lia|right; set_solver]. }
    clear Hr Hs Hv. revert r Hin. apply Forall_forall. vm_compute seqZ. cbn [app].
    repeat apply Forall_cons_2; try apply Forall_nil_2;
      (constructor; [done|escaped|done|done|vm_compute; lia]). }
  assert (encodeItem (mkItem a r true) = encodeRune r /\ runeChars (mkItem a r true) = map Raw (encodeRune r)) as [Ht Hc].
  { unfold encodeItem, runeChars, quote_rune. cbn [rune_ok negb rune]. split; repeat case_match; try done; lia. }
  constructor; cbn [fst snd]; rewrite ?Ht, ?Hc, ?text_raw, ?str_value_raw; try done.
  assert (Forall (fun c => 32 <= c /\ c <> 34 /\ c <> 92) (encodeRune r)) as H.
  { destruct (decide (r <= 127)).
    - unfold encodeRune. rewrite (proj2 (betweenP 0 r 127)) by lia. repeat constructor; lia.
    - eapply Forall_impl; [apply encodeRune_high; lia|]. cbn. lia. }
  by apply Forall_map.
Qed.

(** What a reader makes of a string: invalid bytes become U+FFFD. *)
Definition toValidUTF8 (s : bytes) : bytes := concat (map (fun it => encodeRune (rune it)) (range s)).

Lemma toValidUTF8_valid s : utf8_Valid s = true -> toValidUTF8 s = s.
Proof.
  unfold utf8_Valid, toValidUTF8. destruct (range_pieces s) as (ps & -> & -> & Hps). intros Hv. clear -Hps Hv.
  induction Hps as [|[p it] ps Hp Hps IH]; [done|]. cbn in *. apply andb_true_iff in Hv as [Hit Hv].
  rewrite (IH Hv). unfold piece_ok in Hp. cbn in Hp. rewrite Hit in Hp. by destruct Hp as (_ & -> & _).
Qed.

Lemma encodeString_spec s : exists cs,
  encodeString s = 34 :: text cs ++ [34] /\ Forall schar_ok cs /\ str_value cs = toValidUTF8 s /\
  utf8_Valid (encodeString s) = true /\ len s + 2 <= len (encodeString s).
Proof.
  unfold encodeString, toValidUTF8. destruct (range_pieces s) as (ps & -> & -> & Hps).
  enough (exists cs, concat (map encodeItem (map snd ps)) = text cs /\ Forall schar_ok cs /\
    str_value cs = concat (map (fun it => encodeRune (rune it)) (map snd ps)) /\
    utf8_Valid (concat (map encodeItem (map snd ps))) = true /\
    (length (concat (map fst ps)) <= length (concat (map encodeItem (map snd ps))))%nat) as (cs & -> & Hok & Hval & Hv & Hlen).
  { exists cs. split_and!; try done.
    - change (34 :: ?x) with ([34] ++ x). by repeat apply utf8_Valid_app.
    - unfold len. cbn [length]. rewrite length_app. cbn [length]. lia. }
  induction Hps as [|x ps Hx Hps (cs & IHt & IHok & IHval & IHv & IHlen)].
  { exists []. split_and!; try done. }
  destruct (item_encoded x Hx) as [Ht Hok Hval Hv Hlen]. exists (runeChars x.2 ++ cs). cbn [map concat].
  unfold text, str_value in *. rewrite !map_app, !concat_app, IHt, IHval, Ht, Hval. split_and!; try done.
  - by apply Forall_app.
  - apply utf8_Valid_app; [done|]. by rewrite <- IHt.
  - rewrite !length_app. rewrite IHt in IHlen. lia.
Qed.
End strings.

(** ** Trees of values *)

Section ev_induction.
Context (P : ev -> Prop).
Context (on_object : forall fields, Forall (fun x => P x.2) fields -> P (EObject fields)).
Context (on_nil : P ENilSlice) (on_slice : forall items, Forall P items -> P (ESlice items)).
Context (on_string : forall s, P (EString s)) (on_other : forall v, P (EOther v)).
Fixpoint ev_tree_ind (v : ev) : P v :=
  match v with
  | EObject fields => on_object fields
      ((fix go l : Forall (fun x => P x.2) l :=
          match l with [] => Forall_nil_2 _ | x :: l => Forall_cons_2 _ _ _ (ev_tree_ind x.2) (go l) end) fields)
  | ENilSlice => on_nil
  | ESlice items => on_slice items
      ((fix go l : Forall P l :=
          match l with [] => Forall_nil_2 _ | x :: l => Forall_cons_2 _ _ _ (ev_tree_ind x) (go l) end) items)
  | EString s => on_string s
  | EOther v => on_other v
  end.
End ev_induction.

(** The bounded encoder writes a nil slice like an empty one. *)
Fixpoint asWritten (v : ev) : ev :=
  match v with
  | EObject fields => EObject (map (fun x => (x.1, asWritten x.2)) fields)
  | ENilSlice => ESlice []
  | ESlice items => ESlice (map asWritten items)
  | v => v
  end.

Section limited_value.
Context {E : Encoder} (limit : Z).

Lemma bounded_string s : bounded limit (Some (encodeString s)) (valueString limit s).
Proof.
  intros buffer Hb. unfold valueString. destruct (encodeString_spec s) as (_ & _ & _ & _ & _ & Hlen).
  destruct (limit + 1 - len buffer <? len s + 2) eqn:E1; [|by apply bounded_write].
  assert ((len buffer + len (encodeString s) <=? limit) = false) as -> by lia.
  unfold fillLimit. assert ((0 <? limit + 1 - len buffer) = true) as -> by lia. eexists. split; [done|].
  rewrite len_app. unfold len at 2. rewrite repeat_length. lia.
Qed.

Lemma bounded_commas {A C} (enc : C -> option bytes) (step : A -> Enc) (g : A -> C) l :
  Forall (fun x => bounded limit (enc (g x)) (step x)) l ->
  forall first, bounded limit (commaList enc first (map g l)) (commaSteps limit step first l).
Proof.
  induction 1 as [|x l Hx Hl IH]; intros first; cbn [map commaList commaSteps]; [apply bounded_nil|].
  apply bounded_cat; [destruct first; [apply bounded_nil|apply bounded_write]|]. by apply bounded_cat.
Qed.

Lemma bounded_value v : bounded limit (encodeJSONValue (asWritten v)) (value_ limit v).
Proof.
  induction v as [fields IH| |items IH|s|v] using ev_tree_ind; cbn [asWritten encodeJSONValue value_].
  - apply bounded_cat; [apply bounded_write|]. apply bounded_cat; [|apply bounded_write]. apply bounded_commas.
    eapply Forall_impl; [exact IH|]. intros [k v] Hv. cbn [fst snd] in *.
    apply bounded_cat; [apply bounded_string|]. apply bounded_cat; [apply bounded_write|done].
  - apply (bounded_cat limit (Some [91]) (Some [93])); apply bounded_write.
  - apply bounded_cat; [apply bounded_write|]. apply bounded_cat; [|apply bounded_write]. by apply bounded_commas.
  - apply bounded_string.
  - destruct (encodeOther v) as [text|]; [apply bounded_write|]. intros buffer _. eexists _, _. done.
Qed.
End limited_value.

Lemma marshalJSONLimit_text {E : Encoder} limit o : 0 <= limit ->
  match encodeJSONValue (asWritten (EObject o)) with
  | Some t => if len t <=? limit then marshalJSONLimit limit o = Some t
              else exists b, marshalJSONLimit limit o = Some b /\ len b = limit + 1
  | None => marshalJSONLimit limit o = None \/ exists b, marshalJSONLimit limit o = Some b /\ len b = limit + 1
  end.
Proof.
  intros Hl. pose proof (bounded_value limit (EObject o) [] Hl) as H. unfold marshalJSONLimit.
  destruct (encodeJSONValue _) as [t|]; change (len []) with 0 in H; rewrite ?Z.add_0_l in H.
  - destruct (len t <=? limit); [by rewrite H|]. destruct H as (b & -> & Hb). eauto.
  - destruct H as (b & [] & -> & Hb); [|by left]. right. eauto.
Qed.

(** Within its limit the bounded encoder writes exactly what MarshalJSON writes
    for the same object with nil slices made empty; a longer text is reported by a
    buffer of one byte more than the limit and never by a longer one; it fails only
    if MarshalJSON fails. *)
Theorem marshalJSONLimit_exact {E : Encoder} limit o :
  0 <= limit ->
  let written := map (fun x => (x.1, asWritten x.2)) o in
  match marshalJSONLimit limit o with
  | Some b => len b <= limit + 1 /\ (len b <= limit -> MarshalJSON written = Some b) /\
      (limit < len b -> forall t, MarshalJSON written = Some t -> limit < len t)
  | None => MarshalJSON written = None
  end /\
  (forall t, MarshalJSON written = Some t -> len t <= limit -> marshalJSONLimit limit o = Some t).
Proof.
  intros Hl written. pose proof (marshalJSONLimit_text limit o Hl) as H. unfold MarshalJSON.
  change (EObject written) with (asWritten (EObject o)). destruct (encodeJSONValue _) as [t|].
  - destruct (len t <=? limit) eqn:Et; [rewrite H|destruct H as (b & -> & Hb)].
    + split_and!; try lia; [done|]. by intros ? [= <-].
    + split_and!; try lia; [by intros _ ? [= <-]; lia|]. intros ? [= <-]. lia.
  - destruct H as [-> |(b & -> & Hb)]; [done|]. split_and!; try lia; done.
Qed.

(** ** What a reader of the text sees *)

(** What is known of encoding/json on other values: a text it returns is JSON in valid
    UTF-8, which a reader takes for [decoded v]. *)
Class Encodings (E : Encoder) := {
  decoded : gv -> any;
  encodeOther_json v b : encodeOther v = Some b ->
    utf8_Valid b = true /\ exists t, Grammar.jvalue t b /\ Grammar.to_any t = decoded v
}.

Section reader.
Context {E : Encoder} {L : Encodings E}.
Import Grammar.

Fixpoint anyOf (v : ev) : any :=
  match v with
  | EObject fields => AnyMap (map (fun x => (toValidUTF8 x.1, anyOf x.2)) fields)
  | ENilSlice => AnySlice []
  | ESlice items => AnySlice (map anyOf items)
  | EString s => AnyString (toValidUTF8 s)
  | EOther v => decoded v
  end.

Definition json_text (a : any) (b : bytes) : Prop :=
  utf8_Valid b = true /\ exists t, jvalue t b /\ to_any t = a.

Lemma cat_Some r1 r2 b : cat r1 r2 = Some b -> exists b1 b2, r1 = Some b1 /\ r2 = Some b2 /\ b = b1 ++ b2.
Proof. destruct r1, r2; cbn; try done. intros [= <-]. eauto. Qed.

Lemma one_elem t b : jvalue t b -> jelems [t] b.
Proof. intros H. pose proof (e_one [] t b [] ws_nil H ws_nil) as He. cbn [app] in He. by rewrite app_nil_r in He. Qed.
Lemma one_member cs t b : Forall schar_ok cs -> jvalue t b -> jmembers [(cs, t)] (34 :: text cs ++ 34 :: 58 :: b).
Proof.
  intros Hcs H. pose proof (m_one [] cs [] [] t b [] ws_nil Hcs ws_nil ws_nil H ws_nil) as Hm. cbn [app] in Hm.
  by rewrite app_nil_r in Hm.
Qed.

Definition comma (first : bool) : bytes := if first then [] else [44].
Lemma comma_valid first : utf8_Valid (comma first) = true.
Proof. by destruct first. Qed.

Lemma commaList_elems {A C} (enc : C -> option bytes) (g : A -> C) (f : A -> any) l :
  Forall (fun x => forall b, enc (g x) = Some b -> json_text (f x) b) l -> l <> [] -> forall first b,
  commaList enc first (map g l) = Some b -> utf8_Valid b = true /\
  exists ts b', b = comma first ++ b' /\ jelems ts b' /\ map to_any ts = map f l.
Proof.
  induction 1 as [|x l Hx Hl IH]; [done|]. intros _ first b. cbn [map commaList].
  intros (c & b1 & [= <-] & (bx & bl & Hbx & Hbl & ->)%cat_Some & ->)%cat_Some.
  destruct (Hx bx Hbx) as [Hv (t & Hj & Ht)]. fold (comma first). destruct l as [|y l].
  - cbn in Hbl. injection Hbl as <-. rewrite app_nil_r. split; [apply utf8_Valid_app; [apply comma_valid|done]|].
    exists [t], bx. split_and!; [done| |by cbn; rewrite Ht].
    by apply one_elem.
  - destruct (IH ltac:(done) false bl Hbl) as (Hvl & ts & b' & -> & Hjl & Hts).
    split; [apply utf8_Valid_app; [apply comma_valid|by apply utf8_Valid_app]|].
    exists (t :: ts), (bx ++ 44 :: b'). split_and!; [done| |by cbn [map]; rewrite Ht, Hts].
    by apply (e_cons [] t bx [] ts b' ws_nil Hj ws_nil).
Qed.

Lemma commaList_members {A C} (enc : C -> option bytes) (g : A -> C) (key : A -> bytes) (f : A -> any) l :
  Forall (fun x => forall b, enc (g x) = Some b -> exists bv, b = encodeString (key x) ++ 58 :: bv /\ json_text (f x) bv) l ->
  l <> [] -> forall first b, commaList enc first (map g l) = Some b -> utf8_Valid b = true /\
  exists ms b', b = comma first ++ b' /\ jmembers ms b' /\
    map (fun m => (str_value m.1, to_any m.2)) ms = map (fun x => (toValidUTF8 (key x), f x)) l.
Proof.
  induction 1 as [|x l Hx Hl IH]; [done|]. intros _ first b. cbn [map commaList].
  intros (c & b1 & [= <-] & (bx & bl & Hbx & Hbl & ->)%cat_Some & ->)%cat_Some.
  destruct (Hx bx Hbx) as (bv & -> & Hv & t & Hj & Ht). destruct (encodeString_spec (key x)) as (cs & Hcs & Hok & Hval & Hvk & _).
  assert (utf8_Valid (encodeString (key x) ++ 58 :: bv) = true) as Hvm.
  { apply utf8_Valid_app; [done|]. by apply (utf8_Valid_app [58]). }
  fold (comma first). destruct l as [|y l].
  - cbn in Hbl. injection Hbl as <-. rewrite app_nil_r. split; [apply utf8_Valid_app; [apply comma_valid|done]|].
    exists [(cs, t)], (encodeString (key x) ++ 58 :: bv). split_and!; [done| |by cbn [map fst snd]; rewrite Ht, Hval].
    rewrite Hcs. norm_app. by apply one_member.
  - destruct (IH ltac:(done) false bl Hbl) as (Hvl & ms & b' & -> & Hjl & Hms).
    split; [apply utf8_Valid_app; [apply comma_valid|by apply utf8_Valid_app]|].
    exists ((cs, t) :: ms), ((encodeString (key x) ++ 58 :: bv) ++ 44 :: b'). split_and!; [done| |by cbn [map fst snd]; rewrite Ht, Hms, Hval].
    rewrite Hcs. norm_app. by apply (m_cons [] cs [] [] t bv [] ms b' ws_nil Hok ws_nil ws_nil Hj ws_nil).
Qed.

Lemma bracketed a (open close : Z) b t : 0 <= open <= 127 -> 0 <= close <= 127 -> utf8_Valid b = true ->
  jvalue t (open :: b ++ [close]) -> to_any t = a -> json_text a ([open] ++ b ++ [close]).
Proof.
  intros Ho Hc Hv Hj Ht. assert (forall c, 0 <= c <= 127 -> utf8_Valid [c] = true) as H1.
  { intros c H. rewrite utf8_Valid_cons. cbn. by rewrite (proj2 (betweenP 0 c 127)) by lia. }
  split; [by repeat apply utf8_Valid_app; auto|]. by exists t.
Qed.

Lemma encoded_json v b : encodeJSONValue (asWritten v) = Some b -> json_text (anyOf v) b.
Proof.
  revert b. induction v as [fields IH| |items IH|s|v] using ev_tree_ind; intros b; cbn [asWritten encodeJSONValue anyOf].
  - intros (b1 & b2 & [= <-] & (bm & b3 & Hbm & [= <-] & ->)%cat_Some & ->)%cat_Some.
    destruct (decide (fields = [])) as [->|Hne].
    { injection Hbm as <-. apply (bracketed _ 123 125 [] (TObj [])); [lia|lia|done|exact (j_obj0 [] ws_nil)|done]. }
    eapply (commaList_members _ _ fst (fun x => anyOf x.2)) in Hbm as (Hv & ms & b' & -> & Hj & Hm); [|clear bm Hbm|done].
    + apply (bracketed _ 123 125 b' (TObj ms)); [lia|lia|done|by apply j_obj|cbn [to_any]; by rewrite Hm].
    + eapply Forall_impl; [exact IH|]. intros [k v] Hx b' (bk & b2 & [= <-] & (bc & bv & [= <-] & Hbv & ->)%cat_Some & ->)%cat_Some.
      exists bv. split; [done|]. by apply Hx.
  - intros [= <-]. apply (bracketed _ 91 93 [] (TArr [])); [lia|lia|done|exact (j_arr0 [] ws_nil)|done].
  - intros (b1 & b2 & [= <-] & (bm & b3 & Hbm & [= <-] & ->)%cat_Some & ->)%cat_Some.
    destruct (decide (items = [])) as [->|Hne].
    { injection Hbm as <-. apply (bracketed _ 91 93 [] (TArr [])); [lia|lia|done|exact (j_arr0 [] ws_nil)|done]. }
    eapply (commaList_elems _ _ anyOf) in Hbm as (Hv & ts & b' & -> & Hj & Hm); [|done|done].
    apply (bracketed _ 91 93 b' (TArr ts)); [lia|lia|done|by apply j_arr|cbn [to_any]; by rewrite Hm].
  - intros [= <-]. destruct (encodeString_spec s) as (cs & Hcs & Hok & Hval & Hv & _). split; [done|].
    exists (TStr cs). rewrite Hcs. split; [by apply j_str|]. cbn [to_any]. by rewrite Hval.
  - apply encodeOther_json.
Qed.

(** Reading an envelope within the limit. *)
Lemma envelope_decodes customerID eventType timestamp data body :
  marshalEnvelope_ customerID eventType timestamp data = Some body -> len body <= maxPayloadBytes ->
  Decode body = Some (AnyMap
    [(B "type", AnyString (toValidUTF8 eventType)); (B "customerId", AnyString (toValidUTF8 customerID));
     (B "timestamp", AnyString (toValidUTF8 timestamp)); (B "data", anyOf (EObject data))]).
Proof.
  unfold marshalEnvelope_. intros Hm Hl.
  pose proof (marshalJSONLimit_text maxPayloadBytes (envelope customerID eventType timestamp data) ltac:(unfold maxPayloadBytes; lia)) as H.
  destruct (encodeJSONValue _) as [t|] eqn:Ee.
  2:{ destruct H as [H|(b & H & Hb)]; rewrite Hm in H; [done|]. injection H as <-. lia. }
  destruct (len t <=? maxPayloadBytes); [|destruct H as (b & H & Hb); rewrite Hm in H; injection H as <-; lia].
  rewrite Hm in H. injection H as <-. destruct (encoded_json _ _ Ee) as [Hv (tr & Hj & Ht)].
  rewrite (Decode_text tr body Hv Hj), Ht. done.
Qed.
End reader.

(** C35. A body within the limit is JSON text that the decoder reads back as the
    event type, the customer, the timestamp and the data in this order; strings of
    valid UTF-8 come back as they are and an invalid byte becomes U+FFFD. *)
Theorem marshalEnvelope_roundtrip {E : Encoder} {L : Encodings E} customerID eventType timestamp data body :
  marshalEnvelope_ customerID eventType timestamp data = Some body -> len body <= maxPayloadBytes ->
  Decode body = Some (AnyMap
    [(B "type", AnyString (toValidUTF8 eventType)); (B "customerId", AnyString (toValidUTF8 customerID));
     (B "timestamp", AnyString (toValidUTF8 timestamp)); (B "data", anyOf (EObject data))]) /\
  (forall s, utf8_Valid s = true -> toValidUTF8 s = s).
Proof. intros Hm Hl. split; [by apply envelope_decodes|apply toValidUTF8_valid]. Qed.

(** ** An example *)
Module Demo.
(** Booleans and null. *)
#[local] Instance encoder : Encoder := fun v =>
  match v with
  | VNil => Some (B "null")
  | VBool b => Some (if b then B "true" else B "false")
  | _ => None
  end.
#[local] Instance encodings : Encodings encoder.
Proof.
  refine {| decoded := fun v => match v with VBool b => AnyBool b | _ => AnyNil end |}.
  intros [|[]| | | | | | | | | | | | | |] b [= <-]; (split; [done|]); eexists; (split; [apply Grammar.j_lit; set_solver|done]).
Defined.
Definition data : list (bytes * ev) :=
  [(B "title", EString [66; 195; 188; 255; 10]); (B "tags", ESlice [EOther VNil; ENilSlice]);
   (B "more", EObject [(B "sold", EOther (VBool true))])].

Lemma marshalJSONLimit_exact_witness :
  exists b, marshalJSONLimit 200 data = Some b /\ len b = 61 /\
    MarshalJSON (map (fun x => (x.1, asWritten x.2)) data) = Some b.
Proof.
  eexists. split; [vm_compute; reflexivity|]. split; [reflexivity|].
  pose proof (marshalJSONLimit_exact 200 data ltac:(lia)) as [H _]. vm_compute marshalJSONLimit in H.
  apply H. vm_compute. discriminate.
Defined.

Lemma marshalEnvelope_roundtrip_witness :
  exists body, marshalEnvelope_ (B "c") (B "t") (B "now") data = Some body /\ len body <= maxPayloadBytes /\
    Decode body = Some (AnyMap [(B "type", AnyString (B "t")); (B "customerId", AnyString (B "c"));
      (B "timestamp", AnyString (B "now")); (B "data", anyOf (EObject data))]).
Proof.
  eexists. split; [vm_compute; reflexivity|]. split; [vm_compute; discriminate|].
  eapply (marshalEnvelope_roundtrip (B "c") (B "t") (B "now") data); [vm_compute; reflexivity|vm_compute; discriminate].
Defined.
End Demo.
