(* ===== verification/Payload.v ===== *)
(** * The serializer in the send operation

    The operation is written against the interface [Codec]; the serializer and the
    bounded encoder implement it.  Together they determine what a server reads from
    the body of a request. *)
From S2P Require Import Prelude GoText GoValue Errors RuntimeState StrictJson Response Descriptor Operation Serialize Marshal.
Import Protocol.

Section payload.
Context {F : Floats} {E : Encoder}.
(** The memory of the caller, the nesting of models that the stack holds, the identifier
    sources of the configuration, and the dynamic type of the values of the input. *)
Context (h : memory) (fuel : nat) (G : Generators) (classify : gv -> ev).

Fixpoint toEv (w : wv) : ev :=
  match w with
  | WNil => EOther VNil
  | WText s => EString s
  | WValue v => classify v
  | WList items => ESlice (map toEv items)
  | WObject fields => EObject (map (fun x => (x.1, toEv x.2)) fields)
  end.

(** operation.go, [serializeOperation]: every default of kind [now] is the timestamp of
    the operation.  A walk that goes deeper than the stack overflows it. *)
Definition operationGenerators (operationNow : bytes) : Generators :=
  mkGenerators (fun _ => Some operationNow) (UUID G) (CUID G).
Definition serializeOperation_ (t : nat) (s : SchemaDescriptor) (model : bytes) (data : gv) (operationNow : bytes)
    : serialization OrderedObject :=
  match serializeModelAtUnchecked h fuel (Models s) (Enums s) (operationGenerators operationNow) model data (B "$") t with
  | (Done r, _) => SerializerReturns r
  | (Panic, _) => GeneratorPanics
  | (Diverge, _) => SerializerOverflows
  end.

#[export] Instance serializer_codec : Codec := {|
  Operation.payload := OrderedObject;
  Operation.input := gv;
  Operation.serializeModel := serializeOperation_;
  Operation.marshalEnvelope := fun customerID eventType timestamp data =>
    marshalEnvelope_ customerID eventType timestamp (map (fun x => (x.1, toEv x.2)) data)
|}.
End payload.

Section requests.
Context {F : Floats} {E : Encoder} {L : Encodings E}.
Context (h : memory) (fuel : nat) (G : Generators) (classify : gv -> ev).
Context (heap_external : forall w, w ∈ stored h -> external w = true).
#[local] Existing Instance serializer_codec.
#[local] Abbreviation codec := (serializer_codec h fuel G classify).

(** A prepared body is the envelope of a typed payload. *)
Lemma prepared_payload C s group member (inp : @SendInput codec) p :
  schema_v2 s -> external (Input_Data inp : gv) = true -> prepared_ok (K := codec) C s group member inp p ->
  exists data, model_typed h fuel (Models s) (Enums s) (EventModel (prepared_event p)) data /\
    Decode (prepared_body p) = Some (AnyMap
      [(B "type", AnyString (toValidUTF8 (EventType (prepared_event p))));
       (B "customerId", AnyString (toValidUTF8 (Input_CustomerID inp)));
       (B "timestamp", AnyString (toValidUTF8 (prepared_now p)));
       (B "data", anyOf (toEv classify (WObject data)))]).
Proof.
  intros Hv2 Hext (Hs & _ & _ & _ & Hl & _ & t & data & Hser & Hmar). cbn in Hser, Hmar, data. exists data. split.
  - unfold serializeOperation_ in Hser.
    pose proof (model_typed_walk h heap_external s (operationGenerators G (prepared_now p)) fuel Hs Hv2
      (EventModel (prepared_event p)) (Input_Data inp) (B "$") Hext t) as H.
    destruct (serializeModelAtUnchecked _ _ _ _ _ _ _ _ t) as [[r| |] n]; try done. injection Hser as ->. done.
  - by apply envelope_decodes.
Qed.

(** An input that is nested in fewer objects than the stack holds does not overflow it,
    when the defaults of the schema are no objects: the side condition under which a send
    returns. *)
Lemma finite_inputs_do_not_overflow s group member (inp : @SendInput codec) n :
  (forall name m f, Models s !! name = Some m -> f ∈ Fields m -> flat_default h f) ->
  nesting h n (Input_Data inp) -> (n < fuel)%nat -> ~ overflows (K := codec) s group member inp.
Proof.
  intros Hd Hn Hfuel (members & event & t & now & _ & _ & Hser). cbn in Hser. unfold serializeOperation_ in Hser.
  pose proof (serializeModel_ends h (Models s) (Enums s) (operationGenerators G now) Hd n fuel (EventModel event)
    (Input_Data inp) (B "$") Hfuel (or_intror Hn) t) as H.
  by destruct (serializeModelAtUnchecked _ _ _ _ _ _ _ _ t) as [[]].
Qed.
End requests.

(** C34. Every request of a send carries a body from which a JSON reader gets the
    event type, the customer, the one timestamp of the operation and a payload that
    has the type of the model of the event. *)
Theorem requests_carry_typed_payload {F : Floats} {En : Encoder} {L : Encodings En}
    h fuel G classify (K := serializer_codec h fuel G classify) E C
    (sticky : forall t t', (t <= t')%nat -> deadlineErr E t = true -> deadlineErr E t' = true)
    (delays : 0 <= retryBaseDelay C /\ 0 <= retryMaxDelay C) (attempts : 1 <= maxAttempts C)
    operationID s group member inp w r w' evs :
  (forall v, v ∈ stored h -> external v = true) -> schema_v2 s -> external (Input_Data inp : gv) = true ->
  sendAdmitted E C operationID s group member inp w = (inr r, w') -> trace w' = trace w ++ evs ->
  sent evs = [] \/
  exists event now data members,
    Webhooks s !! group = Some members /\ members !! member = Some event /\
    model_typed h fuel (Models s) (Enums s) (EventModel event) data /\
    Forall (fun q => Decode (Request_Body q) = Some (AnyMap
      [(B "type", AnyString (toValidUTF8 (EventType event)));
       (B "customerId", AnyString (toValidUTF8 (Input_CustomerID inp)));
       (B "timestamp", AnyString (toValidUTF8 now));
       (B "data", anyOf (toEv classify (WObject data)))])) (sent evs).
Proof.
  intros Hheap Hv2 Hext Hc Ht.
  destruct (requests_prepared E C sticky delays attempts operationID s group member inp w r w' evs Hc Ht)
    as [_ [H|(p & Hp & Hq)]]; [by left|right].
  destruct (prepared_payload h fuel G classify Hheap C s group member inp p Hv2 Hext Hp) as (data & Htyped & Hdec).
  destruct Hp as (_ & _ & _ & _ & _ & (members & Hg & Hm) & _).
  exists (prepared_event p), (prepared_now p), data, members. split_and!; try done.
  eapply Forall_impl; [exact Hq|]. cbn beta. intros q [(_ & _ & -> & _) _]. exact Hdec.
Qed.

(** ** An example: two books are sent in two attempts *)
Module Demo.
#[local] Existing Instances Serialize.Demo.no_floats Marshal.Demo.encoder Marshal.Demo.encodings.
Definition classify (v : gv) : ev := match v with VString s => EString s | _ => EOther v end.
#[local] Instance codec : Codec := serializer_codec Serialize.Demo.heap 4 Serialize.Demo.G classify.
Definition schema : SchemaDescriptor :=
  mkSchema DescriptorFormatVersion ∅ {[ B "Book" := Serialize.Demo.book ]}
    {[ B "g" := {[ B "e" := mkEvent (B "t") (B "Book") ]} ]}.
Definition inp : SendInput := mkSendInput (B "c") (B "k") (VMap (Some 0%nat) true).
Definition send := sendAdmitted Operation.Demo.E (Operation.Demo.config 2) (B "op_1") schema (B "g") (B "e") inp Operation.Demo.start.

Lemma requests_carry_typed_payload_witness :
  length (sent (trace send.2)) = 2%nat /\ exists data,
    model_typed Serialize.Demo.heap 4 (Models schema) (Enums schema) (B "Book") data /\
    Forall (fun q => is_Some (Decode (Request_Body q))) (sent (trace send.2)).
Proof.
  assert (length (sent (trace send.2)) = 2%nat) as Hlen by (vm_compute; reflexivity). split; [exact Hlen|].
  assert (exists r, send = (inr r, send.2)) as [r Hr].
  { destruct send as [[|r] w] eqn:E; [exfalso; by vm_compute in E|]. by exists r. }
  destruct (requests_carry_typed_payload Serialize.Demo.heap 4 Serialize.Demo.G classify
    Operation.Demo.E (Operation.Demo.config 2) Operation.Demo.sticky (Operation.Demo.delays 2) ltac:(cbn; lia)
    (B "op_1") schema (B "g") (B "e") inp Operation.Demo.start r send.2 (trace send.2))
    as [H|(event & now & data & members & Hg & Hm & Htyped & Hall)].
  - apply Forall_forall. vm_compute. by repeat constructor.
  - intros name m f. revert name m f. apply (Serialize.Demo.fields_elim
      (fun f => FieldModel f = [] /\ Enum f = None /\ forall d, Default f = Some d -> external (Default_Value d) = true)).
    repeat constructor; by intros d [= <-].
  - reflexivity.
  - exact Hr.
  - symmetry. apply app_nil_l.
  - pose proof (eq_trans (eq_sym (f_equal length H)) Hlen) as Hbad. discriminate Hbad.
  - exists data. split; [|eapply Forall_impl; [exact Hall|]; intros q ->; by eexists].
    cbn [Webhooks schema] in Hg. apply lookup_singleton_Some in Hg as [_ <-].
    apply lookup_singleton_Some in Hm as [_ <-]. exact Htyped.
Defined.
End Demo.
