(* ===== verification/Identifiers.v ===== *)
(** * Identifiers (generators.go, internal/cuid2/cuid2.go)

    UUIDs of version 4 and cuid2-shaped identifiers, as functions of the bytes that
    crypto/rand returns. *)
From S2P Require Import Prelude GoText GoValue Errors RuntimeState StrictJson Response Descriptor Operation Serialize.

(** ** UUIDs *)

(** [hex.Encode]. *)
Definition hexEncode (b : bytes) : bytes := concat (map (fun c => [hex_digit (c / 16); hex_digit (c mod 16)]) b).

(** generators.go, [defaultUUID], from the sixteen bytes read. *)
Definition defaultUUID (b : bytes) : bytes :=
  let b := <[6%nat := Z.lor (Z.land (nth 6 b 0) 15) 64]> b in
  let b := <[8%nat := Z.lor (Z.land (nth 8 b 0) 63) 128]> b in
  hexEncode (sub b 0 4) ++ [45] ++ hexEncode (sub b 4 2) ++ [45] ++ hexEncode (sub b 6 2) ++ [45] ++
  hexEncode (sub b 8 2) ++ [45] ++ hexEncode (drop 10 b).

(** ** cuid2 *)

Definition Length : nat := 24.
Definition letters : bytes := B "abcdefghijklmnopqrstuvwxyz".
Definition base36 : bytes := B "0123456789abcdefghijklmnopqrstuvwxyz".

(** cuid2.go, [randomIndex]: from the random bytes to come, the index and the bytes
    left; [None] when they run out. *)
Fixpoint randomIndex (n : Z) (random : bytes) : option (Z * bytes) :=
  match random with
  | [] => None
  | b :: random => if b <? 256 - 256 mod n then Some (b mod n, random) else randomIndex n random
  end.

(** cuid2.go, [New]. *)
Fixpoint moreCharacters (k : nat) (random : bytes) : option (bytes * bytes) :=
  match k with
  | O => Some ([], random)
  | S k =>
    '(i, random) ← randomIndex (len base36) random;
    '(id, random) ← moreCharacters k random;
    Some (nth (Z.to_nat i) base36 0 :: id, random)
  end.
Definition NewCuid (random : bytes) : option (bytes * bytes) :=
  '(i, random) ← randomIndex (len letters) random;
  '(id, random) ← moreCharacters (Length - 1) random;
  Some (nth (Z.to_nat i) letters 0 :: id, random).

(** ** Generators *)

(** generators.go, [Generators] with fields that may be nil, and [withDefaults]. *)
Record optionalGenerators := mkOptionalGenerators {
  maybeNow : option (nat -> option bytes);
  maybeUUID : option (nat -> option bytes);
  maybeCUID : option (nat -> option bytes)
}.
Definition withDefaults (real : Generators) (g : optionalGenerators) : Generators :=
  mkGenerators (default (Now real) (maybeNow g)) (default (UUID real) (maybeUUID g)) (default (CUID real) (maybeCUID g)).

(** ** Facts *)

Definition byte_ok (c : Z) : Prop := 0 <= c <= 255.
Definition lower_hex (c : Z) : Prop := 48 <= c <= 57 \/ 97 <= c <= 102.

Lemma hex_digit_lower n : 0 <= n <= 15 -> lower_hex (hex_digit n).
Proof. intros H. unfold hex_digit, lower_hex. destruct (n <? 10) eqn:E; lia. Qed.

Lemma version_byte c : byte_ok c -> let v := Z.lor (Z.land c 15) 64 in byte_ok v /\ hex_digit (v / 16) = 52.
Proof.
  intros Hc v. assert (c ∈ seqZ 0 256) as Hin by (apply elem_of_seqZ; unfold byte_ok in Hc; lia). subst v. clear Hc.
  revert c Hin. apply Forall_forall. vm_compute seqZ. repeat apply Forall_cons_2; try apply Forall_nil_2;
    (split; [split; vm_compute; discriminate|reflexivity]).
Qed.
Lemma variant_byte c : byte_ok c -> let v := Z.lor (Z.land c 63) 128 in
  byte_ok v /\ existsb (Z.eqb (hex_digit (v / 16))) (B "89ab") = true.
Proof.
  intros Hc v. assert (c ∈ seqZ 0 256) as Hin by (apply elem_of_seqZ; unfold byte_ok in Hc; lia). subst v. clear Hc.
  revert c Hin. apply Forall_forall. vm_compute seqZ. repeat apply Forall_cons_2; try apply Forall_nil_2;
    (split; [split; vm_compute; discriminate|reflexivity]).
Qed.

Lemma range_ascii_items s : Forall (fun c => 0 <= c <= 127) s -> range s = map (fun c => mkItem c c true) s.
Proof.
  unfold range. induction 1 as [|c s Hc Hs IH]; cbn [range_from map]; [done|]. unfold first_item. cbn.
  rewrite (proj2 (betweenP 0 c 127)) by lia. cbn. by rewrite IH.
Qed.

Lemma shape_hex i c s : lower_hex c -> existsb (Nat.eqb i) [8; 13; 18; 23]%nat = false ->
  uuid_shape (S i) s = true -> uuid_shape i (mkItem c c true :: s) = true.
Proof.
  intros Hc Hi Hs. cbn [uuid_shape]. rewrite Hi, Hs. cbn [rune]. unfold lower_hex in Hc. rewrite andb_true_r.
  apply negb_true_iff. destruct (c <? 48) eqn:E1, (57 <? c) eqn:E2, (c <? 97) eqn:E3, (102 <? c) eqn:E4; cbn; lia.
Qed.
Lemma shape_dash i s : existsb (Nat.eqb i) [8; 13; 18; 23]%nat = true ->
  uuid_shape (S i) s = true -> uuid_shape i (mkItem 45 45 true :: s) = true.
Proof. intros Hi Hs. cbn [uuid_shape]. by rewrite Hi, Hs. Qed.

Lemma hex_digits c : byte_ok c -> lower_hex (hex_digit (c / 16)) /\ lower_hex (hex_digit (c mod 16)).
Proof. unfold byte_ok. intros H. split; apply hex_digit_lower; Z.to_euclidean_division_equations; lia. Qed.

Lemma hex_plain c : lower_hex c -> 0 <= c <= 127 /\ c <> 32 /\ between 32 c 126 = true.
Proof. unfold lower_hex. rewrite betweenP. lia. Qed.

(** Whatever sixteen bytes the system returns, the identifier of an operation
    is the prefix and a lower-case UUID of version 4 and of the RFC 4122 variant, as
    validOperationID demands, and the UUID is a valid idempotency key. *)
Theorem operation_ids_are_valid b : length b = 16%nat -> Forall byte_ok b ->
  validOperationID (B "op_" ++ defaultUUID b) = true /\ len (defaultUUID b) = 36 /\
  validIdempotencyKey (defaultUUID b) = true.
Proof.
  intros Hlen Hb. do 16 (destruct b as [|? b]; [done|]). destruct b; [|done]. clear Hlen.
  repeat match goal with H : Forall _ (_ :: _) |- _ => apply Forall_cons in H as [? H] end. clear Hb.
  unfold defaultUUID, sub, hexEncode.
  cbn [nth insert list_insert take drop map concat app].
  match goal with |- context [hex_digit (Z.lor (Z.land ?x 15) 64 / 16)] => destruct (version_byte x ltac:(done)) as [Hv1 Hv2];
    set (v := Z.lor (Z.land x 15) 64) in * end.
  match goal with |- context [hex_digit (Z.lor (Z.land ?x 63) 128 / 16)] => destruct (variant_byte x ltac:(done)) as [Hw1 Hw2];
    set (u := Z.lor (Z.land x 63) 128) in * end.
  clearbody u v.
  repeat match goal with H : byte_ok ?x |- _ => apply hex_digits in H as [? ?] end.
  repeat match goal with |- context [hex_digit ?e] => let d := fresh "d" in set (d := hex_digit e) in *; clearbody d end.
  match goal with |- validOperationID (_ ++ ?s) = true /\ _ =>
    assert (range s = map (fun c => mkItem c c true) s) as Hrange end.
  { apply range_ascii_items. repeat (apply Forall_cons_2; [(by apply hex_plain) || (clear; lia)|]). apply Forall_nil_2. }
  split_and!; [|reflexivity|].
  - unfold validOperationID. change (B "op_") with [111; 112; 95]. cbn [app drop].
    rewrite Hrange. replace (len _ =? 39) with true by reflexivity. cbn [HasPrefix negb orb].
    rewrite !Z.eqb_refl. cbn [andb negb nth]. rewrite Hv2, Hw2, Z.eqb_refl, !andb_true_r. cbn [map].
    repeat first [apply shape_dash; [reflexivity|]|apply shape_hex; [assumption || (left; clear; lia)|reflexivity|]].
    reflexivity.
  - unfold validIdempotencyKey. rewrite Hrange. replace (255 <? len _) with false by reflexivity. cbn [List.last orb].
    rewrite !(proj2 (Z.eqb_neq _ 32)) by by apply hex_plain. cbn [orb map forallb start_byte].
    repeat (apply andb_true_iff; split; [(by apply hex_plain) || reflexivity|]). reflexivity.
Qed.

Lemma operation_ids_are_valid_witness :
  validOperationID (B "op_" ++ defaultUUID (seqZ 0 16)) = true /\
  defaultUUID (seqZ 0 16) = B "00010203-0405-4607-8809-0a0b0c0d0e0f".
Proof.
  split; [|vm_compute; reflexivity].
  apply operation_ids_are_valid; [reflexivity|]. repeat (apply Forall_cons_2; [split; vm_compute; discriminate|]).
  apply Forall_nil_2.
Defined.

Lemma randomIndex_Some n random i rest : 0 < n -> Forall byte_ok random ->
  randomIndex n random = Some (i, rest) -> 0 <= i < n /\ Forall byte_ok rest.
Proof.
  intros Hn. induction 1 as [|b random Hb Hr IH]; cbn [randomIndex]; [done|].
  destruct (_ <? _); [|done]. intros [= <- <-]. split; [|done]. apply Z.mod_pos_bound. lia.
Qed.

Lemma nth_elem (i : Z) (l : bytes) : 0 <= i < len l -> nth (Z.to_nat i) l 0 ∈ l.
Proof. unfold len. intros H. apply list_elem_of_In, nth_In. lia. Qed.

Lemma moreCharacters_Some k : forall random id rest, Forall byte_ok random ->
  moreCharacters k random = Some (id, rest) -> length id = k /\ Forall (.∈ base36) id /\ Forall byte_ok rest.
Proof.
  induction k as [|k IH]; intros random id rest Hr; cbn [moreCharacters].
  { intros [= <- <-]. split_and!; try done. }
  destruct (randomIndex (len base36) random) as [[i random1]|] eqn:E; [|done]. cbn [mbind option_bind].
  apply randomIndex_Some in E as [Hi Hr1]; [|vm_compute; done|done].
  destruct (moreCharacters k random1) as [[id1 random2]|] eqn:E1; [|done]. cbn [mbind option_bind]. intros [= <- <-].
  destruct (IH _ _ _ Hr1 E1) as (Hl & Hid & Hr2). split_and!; [by cbn; f_equal| |done].
  apply Forall_cons_2; [exact (nth_elem i base36 Hi)|done].
Qed.

(** Bytes below the limits of both alphabets are never rejected. *)
Lemma randomIndex_accepts n random : Forall (fun b => 0 <= b < 234) random -> random <> [] -> n = 26 \/ n = 36 ->
  exists i, randomIndex n random = Some (i, tail random).
Proof.
  intros H Hne Hn. destruct H as [|b random Hb Hr]; [done|]. cbn [randomIndex tail].
  replace (b <? 256 - 256 mod n) with true; [by eexists|]. symmetry. apply Z.ltb_lt. destruct Hn as [-> | ->]; [change (256 - 256 mod 26) with 234|change (256 - 256 mod 36) with 252]; lia.
Qed.
Lemma moreCharacters_returns k : forall random, Forall (fun b => 0 <= b < 234) random -> (k <= length random)%nat ->
  is_Some (moreCharacters k random).
Proof.
  induction k as [|k IH]; intros random Hr Hk; [by eexists|]. cbn [moreCharacters].
  destruct (randomIndex_accepts 36 random Hr) as [i Hi]; [by destruct random; cbn in *; [lia|]|by right|].
  change (len base36) with 36. rewrite Hi. cbn [mbind option_bind].
  destruct (IH (tail random)) as [[id rest] ->]; [by destruct Hr|destruct random; cbn in *; lia|]. by eexists.
Qed.

(** The bytes that give index [i]. *)
Definition hits (n i : Z) : list Z := filter (fun b => randomIndex n [b] = Some (i, [])) (seqZ 0 256).

Lemma hits_checked n k l : forallb (fun i => Nat.eqb (length (hits n i)) k) l = true ->
  Forall (fun i => length (hits n i) = k) l.
Proof. rewrite forallb_forall, Forall_forall. intros H i Hi. apply Nat.eqb_eq, H. by apply list_elem_of_In. Qed.

(** A cuid has 24 characters, a lower-case letter first and base-36 characters
    after it; enough random bytes that are not rejected suffice; every index of
    either alphabet is hit by the same number of byte values. *)
Theorem cuid_is_well_formed random : Forall byte_ok random ->
  (forall id rest, NewCuid random = Some (id, rest) ->
     length id = Length /\ (exists c cs, id = c :: cs /\ c ∈ letters /\ Forall (.∈ base36) cs)) /\
  (Forall (fun b => 0 <= b < 234) random -> (Length <= length random)%nat -> is_Some (NewCuid random)) /\
  Forall (fun i => length (hits (len letters) i) = 9%nat) (seqZ 0 (len letters)) /\
  Forall (fun i => length (hits (len base36) i) = 7%nat) (seqZ 0 (len base36)).
Proof.
  intros Hr. split_and!.
  - intros id rest. unfold NewCuid. destruct (randomIndex (len letters) random) as [[i random1]|] eqn:E; [|done].
    cbn [mbind option_bind]. apply randomIndex_Some in E as [Hi Hr1]; [|vm_compute; done|done].
    destruct (moreCharacters (Length - 1) random1) as [[id1 random2]|] eqn:E1; [|done]. cbn [mbind option_bind]. intros [= <- <-].
    destruct (moreCharacters_Some _ _ _ _ Hr1 E1) as (Hl & Hid & _). split; [cbn [length]; by rewrite Hl|].
    eexists _, _. split_and!; [done|exact (nth_elem i letters Hi)|done].
  - intros Ha Hl. unfold NewCuid. destruct (randomIndex_accepts 26 random Ha) as [i Hi]; [by destruct random; [by apply Nat.nle_succ_0 in Hl|]|by left|].
    change (len letters) with 26. rewrite Hi. cbn [mbind option_bind].
    destruct (moreCharacters_returns (Length - 1) (tail random)) as [[id rest] ->];
      [by destruct Ha|unfold Length in *; destruct random; cbn in *; lia|]. by eexists.
  - apply hits_checked. vm_compute. reflexivity.
  - apply hits_checked. vm_compute. reflexivity.
Qed.

Lemma cuid_is_well_formed_witness :
  is_Some (NewCuid (repeat 233 24)) /\ Forall (fun i => length (hits (len letters) i) = 9%nat) (seqZ 0 (len letters)).
Proof.
  destruct (cuid_is_well_formed (repeat 233 24)) as (_ & H & Hu & _).
  - apply Forall_forall. intros c ->%list_elem_of_In%repeat_spec. split; vm_compute; discriminate.
  - split; [|exact Hu]. apply H; [|reflexivity]. apply Forall_forall. intros c ->%list_elem_of_In%repeat_spec. lia.
Defined.
