(* ===== verification/H2Frame.v ===== *)
(** * HTTP/2 messages (internal/h2/framing.go)

    Requests as header fields and header blocks cut into frames, responses from
    decoded header fields and collected bodies.  Frames, HPACK and the split of a
    header list into pseudo and regular fields belong to golang.org/x/net/http2: a
    frame is its contents, the HPACK encoder is a class. *)
From S2P Require Import Prelude GoText Errors Response.

(** ** Data *)

Inductive h2Error := ErrResponseProtocol | ErrResponseTooLarge.

(** framing.go, [Header], [Request] (without its callbacks) and [Response]. *)
Record Header := mkHeader2 { Name2 : bytes; Value2 : bytes }.
Record Request := mkRequest2 {
  Scheme : bytes;
  Authority : bytes;
  Path : bytes;
  Authorization : bytes;
  UserAgent : bytes;
  IdempotencyKey : bytes;
  TraceParent : bytes;
  TraceState : bytes;
  RequestBody : bytes
}.
Record Response := mkResponse2 {
  Status2 : Z;
  Headers2 : list Header;
  Body2 : bytes;
  CompressedBytes2 : Z;
  DecompressedBytes2 : Z;
  Truncated2 : bool
}.
Definition emptyResponse : Response := mkResponse2 0 [] [] 0 0 false.
#[export] Instance Header_eq_dec : EqDecision Header.
Proof. solve_decision. Defined.

(** ** Requests *)

(** framing.go, [invalidValue]. *)
Definition invalidValue (v : bytes) : bool := existsb (fun c => (c =? 0) || (c =? 13) || (c =? 10)) v.

(** framing.go, [encodeRequestHeaders]: the fields; [None] is an error. *)
Definition requestFields (r : Request) : option (list Header) :=
  if negb (Scheme r ==? B "https") && negb (Scheme r ==? B "http") then None
  else if (Authority r ==? []) || invalidValue (Authority r) then None
  else if negb (HasPrefix (Path r) (B "/")) || ContainsByte (Path r) 35 || invalidValue (Path r) then None
  else if (Authorization r ==? []) || (UserAgent r ==? []) || (IdempotencyKey r ==? []) then None
  else if existsb invalidValue [Authorization r; UserAgent r; IdempotencyKey r; TraceParent r; TraceState r] then None
  else if negb (TraceState r ==? []) && (TraceParent r ==? []) then None
  else if BodyBytes <? len (RequestBody r) then None
  else Some (
    [mkHeader2 (B ":method") (B "POST"); mkHeader2 (B ":scheme") (Scheme r);
     mkHeader2 (B ":authority") (Authority r); mkHeader2 (B ":path") (Path r);
     mkHeader2 (B "content-length") (Itoa (len (RequestBody r)));
     mkHeader2 (B "authorization") (Authorization r);
     mkHeader2 (B "content-type") (B "application/json"); mkHeader2 (B "accept-encoding") (B "gzip");
     mkHeader2 (B "user-agent") (UserAgent r); mkHeader2 (B "idempotency-key") (IdempotencyKey r)] ++
    (if negb (TraceParent r ==? []) then [mkHeader2 (B "traceparent") (TraceParent r)] else []) ++
    (if negb (TraceState r ==? []) then [mkHeader2 (B "tracestate") (TraceState r)] else [])).

(** The encoder of golang.org/x/net/http2/hpack on a list of sensitive fields. *)
Class Hpack := WriteFields : list Header -> option bytes.

Definition encodeRequestHeaders {H : Hpack} (r : Request) : option bytes :=
  fields ← requestFields r; WriteFields fields.

(** Frames a client writes. *)
Inductive frame :=
| HeadersFrame (streamID : Z) (fragment : bytes) (endHeaders endStream : bool)
| ContinuationFrame (streamID : Z) (endHeaders : bool) (fragment : bytes)
| DataFrame (streamID : Z) (endStream : bool) (data : bytes)
| RSTStreamFrame (streamID : Z) (code : Z)
| WindowUpdateFrame (streamID : Z) (increment : Z)
| SettingsAckFrame
| PingAckFrame (data : bytes).

(** framing.go, [writeHeaderBlock], the loop over the rest of the block; every turn
    takes a byte at least. *)
Fixpoint continuations (fuel : nat) (streamID : Z) (rest : bytes) (maxFrameSize : Z) : list frame :=
  match fuel with
  | O => []
  | S fuel =>
    if len rest <=? 0 then []
    else
      let n := Z.to_nat (Z.min maxFrameSize (len rest)) in
      ContinuationFrame streamID (len (drop n rest) =? 0) (take n rest)
        :: continuations fuel streamID (drop n rest) maxFrameSize
  end.

(** framing.go, [writeHeaderBlock]: the frames it writes. *)
Definition writeHeaderBlock (streamID : Z) (block : bytes) (endStream : bool) (maxFrameSize : Z) : list frame :=
  let first := Z.to_nat (Z.min (len block) maxFrameSize) in
  HeadersFrame streamID (take first block) (len (drop first block) =? 0) endStream
    :: continuations (length block) streamID (drop first block) maxFrameSize.

(** ** Responses *)

(** [xhttp2.MetaHeadersFrame]: a decoded header list. *)
Record MetaHeadersFrame := mkMetaHeaders {
  Meta_StreamID : Z;
  Meta_Pseudo : list Header;
  Meta_Regular : list Header;
  Meta_Truncated : bool;
  Meta_StreamEnded : bool
}.

(** [strconv.Atoi] on a text that cannot overflow. *)
Definition Atoi (s : bytes) : option Z :=
  match s with
  | 43 :: d => ParseUint10 d 63
  | 45 :: d => Z.opp <$> ParseUint10 d 63
  | d => ParseUint10 d 63
  end.

(** framing.go, [invalidResponseValue], [canonicalDecimal] and [ascii]. *)
Definition invalidResponseValue (v : bytes) : bool :=
  existsb (fun it => (rune it =? 127) || ((rune it <? 32) && negb (rune it =? 9))) (range v).
Definition canonicalDecimal (v : bytes) : bool :=
  if v ==? [48] then true
  else if (v ==? []) || (nth 0 v 0 =? 48) then false
  else forallb (fun it => negb ((rune it <? 48) || (57 <? rune it))) (range v).
Definition ascii (v : bytes) : bool := forallb (fun it => negb (127 <? rune it)) (range v).

(** framing.go, [decodeResponseHeaders], the loop over the regular fields: the fields
    kept so far, their size and the content length. *)
Fixpoint decodeFields (fields : list Header) (kept : list Header) (logicalBytes : Z) (expected : option Z)
    : result h2Error (list Header * option Z) :=
  match fields with
  | [] => Ok (kept, expected)
  | f :: fields =>
    if (Name2 f ==? []) || (HeaderNameBytes <? len (Name2 f)) || (HeaderValueBytes <? len (Value2 f)) ||
       negb (utf8_Valid (Value2 f)) || invalidResponseValue (Value2 f)
    then Err ErrResponseProtocol
    else
      let logicalBytes := logicalBytes + (len (Name2 f) + 2 + len (Value2 f) + 2) in
      if HeaderBytes <? logicalBytes then Err ErrResponseTooLarge
      else if Name2 f ==? B "content-length" then
        if negb (expected ==? None) || negb (canonicalDecimal (Value2 f)) then Err ErrResponseProtocol
        else match ParseUint10 (Value2 f) 63 with
             | None => Err ErrResponseProtocol
             | Some n => if BodyBytes <? n then Err ErrResponseTooLarge
                         else decodeFields fields (kept ++ [f]) logicalBytes (Some n)
             end
      else decodeFields fields (kept ++ [f]) logicalBytes expected
  end.

(** framing.go, [decodeResponseHeaders]. *)
Definition decodeResponseHeaders (f : MetaHeadersFrame) : result h2Error (Response * option Z) :=
  if Meta_Truncated f then Err ErrResponseTooLarge
  else match Meta_Pseudo f with
       | [p] =>
         if negb (Name2 p ==? B ":status") || negb (len (Value2 p) =? 3) then Err ErrResponseProtocol
         else match Atoi (Value2 p) with
              | None => Err ErrResponseProtocol
              | Some status =>
                if (status <? 100) || (599 <? status) then Err ErrResponseProtocol
                else if HeaderFields <? len (Meta_Regular f) then Err ErrResponseTooLarge
                else match decodeFields (Meta_Regular f) [] 0 None with
                     | Err e => Err e
                     | Ok (headers, expected) => Ok (mkResponse2 status headers [] 0 0 false, expected)
                     end
              end
       | _ => Err ErrResponseProtocol
       end.

(** [strings.TrimSpace] on ASCII text. *)
Definition is_space (c : Z) : bool := between 9 c 13 || (c =? 32).
Fixpoint trimSpaceLeft (s : bytes) : bytes :=
  match s with c :: s' => if is_space c then trimSpaceLeft s' else s | [] => [] end.
Definition TrimSpace (s : bytes) : bytes := rev (trimSpaceLeft (rev (trimSpaceLeft s))).

(** framing.go, [finalizeResponse], the loop over the fields. *)
Fixpoint bodyEncoding (fields : list Header) (seen : bool) (encoding : bytes) : result h2Error bytes :=
  match fields with
  | [] => Ok encoding
  | f :: fields =>
    if negb (Name2 f ==? B "content-encoding") then bodyEncoding fields seen encoding
    else if seen || negb (ascii (Value2 f)) then Err ErrResponseProtocol
    else
      let e := ToLower (TrimSpace (Value2 f)) in
      bodyEncoding fields true (if e ==? [] then B "identity" else e)
  end.

(** compress/gzip on a source, one member, read through [io.LimitReader]: [None] when
    it cannot be opened, else the bytes, whether reading or closing failed, and how
    much of the source is left. *)
Class GzipReader := readGzip : bytes -> Z -> option (bytes * bool * Z).
(** [io.LimitReader]. *)
Class GzipLimit (G : GzipReader) := readGzip_limit source n data failed unread :
  readGzip source n = Some (data, failed, unread) -> len data <= Z.max 0 n.

(** framing.go, [finalizeResponse]. *)
Definition finalizeResponse {G : GzipReader} (r : Response) : result h2Error Response :=
  let encoded := Body2 r in
  match bodyEncoding (Headers2 r) false (B "identity") with
  | Err e => Err e
  | Ok encoding =>
    let limit := if (Status2 r <? 200) || (300 <=? Status2 r) then ErrorBodyBytes else BodyBytes in
    let decoded :=
      if encoding ==? B "identity" then Ok encoded
      else if encoding ==? B "gzip" then
        match readGzip encoded (limit + 1) with
        | None => Err ErrResponseProtocol
        | Some (decoded, failed, unread) =>
          if failed then Err ErrResponseProtocol
          else if (len decoded <=? limit) && negb (unread =? 0) then Err ErrResponseProtocol
          else Ok decoded
        end
      else Err ErrResponseProtocol in
    match decoded with
    | Err e => Err e
    | Ok decoded =>
      if len encoded * ExpansionRatio <? len decoded then Err ErrResponseTooLarge
      else if limit <? len decoded then
        if (200 <=? Status2 r) && (Status2 r <? 300) then Err ErrResponseTooLarge
        else Ok (mkResponse2 (Status2 r) (Headers2 r) (take (Z.to_nat limit) decoded) (len encoded) (len decoded) true)
      else Ok (mkResponse2 (Status2 r) (Headers2 r) decoded (len encoded) (len decoded) (Truncated2 r))
    end
  end.

(** ** Header blocks *)

(** The block fragment of a frame and whether it ends the block. *)
Definition fragment_of (f : frame) : option (bytes * bool) :=
  match f with
  | HeadersFrame _ b e _ => Some (b, e)
  | ContinuationFrame _ e b => Some (b, e)
  | _ => None
  end.
Definition stream_of (f : frame) : Z :=
  match f with
  | HeadersFrame id _ _ _ | ContinuationFrame id _ _ | DataFrame id _ _ | RSTStreamFrame id _ | WindowUpdateFrame id _ => id
  | SettingsAckFrame | PingAckFrame _ => 0
  end.

(** The frames of a block: every fragment fits, the fragments make up the block, and
    only the last one ends it. *)
Record block_frames (id : Z) (block : bytes) (n : Z) (fs : list frame) : Prop := {
  block_parts : exists parts, map fragment_of fs = map Some parts /\ concat (map fst parts) = block /\
    Forall (fun x => len x.1 <= n) parts /\
    exists init last, parts = init ++ [(last, true)] /\ Forall (fun x => x.2 = false) init;
  block_stream : Forall (fun f => stream_of f = id) fs
}.

Lemma len_zero {A} (l : list A) : len l = 0 -> l = [].
Proof. destruct l; [done|]. unfold len. cbn. lia. Qed.
Lemma len_take_min (b : bytes) n : len (take (Z.to_nat (Z.min n (len b))) b) = Z.max 0 (Z.min n (len b)).
Proof. unfold len. rewrite length_take. lia. Qed.
Lemma len_drop_min (b : bytes) n : len (drop (Z.to_nat (Z.min n (len b))) b) = len b - Z.max 0 (Z.min n (len b)).
Proof. unfold len. rewrite length_drop. lia. Qed.

Lemma continuations_parts id n : 0 < n -> forall fuel rest, (length rest <= fuel)%nat -> 0 < len rest ->
  block_frames id rest n (continuations fuel id rest n).
Proof.
  intros Hn. induction fuel as [|fuel IH]; intros rest Hf Hr; [unfold len in Hr; lia|]. cbn [continuations].
  assert ((len rest <=? 0) = false) as -> by lia.
  pose proof (len_take_min rest n) as Ht. pose proof (len_drop_min rest n) as Hd.
  set (k := Z.to_nat (Z.min n (len rest))) in *.
  destruct (len (drop k rest) =? 0) eqn:E.
  - assert (drop k rest = []) as Hnil by (apply len_zero; lia).
    assert (continuations fuel id [] n = []) as Hc by (destruct fuel; done). rewrite Hnil, Hc. split; [|by repeat constructor].
    exists [(take k rest, true)]. cbn. rewrite app_nil_r. split_and!; [done| | |by exists [], (take k rest)].
    + rewrite <- (take_drop k rest) at 2. by rewrite Hnil, app_nil_r.
    + constructor; [cbn; lia|done].
  - destruct (IH (drop k rest)) as [(parts & Hm & Hc & Hl & init & last & -> & Hi) Hs]; [clear IH; unfold len in *; zlia|pose proof (len_nonneg (drop k rest)); lia|].
    split; [|by constructor]. exists ((take k rest, false) :: init ++ [(last, true)]). cbn [map concat fst].
    rewrite Hm, Hc. split_and!; [done|apply take_drop|constructor; [cbn; lia|done]|].
    exists ((take k rest, false) :: init), last. split; [done|by constructor].
Qed.

Lemma writeHeaderBlock_parts id block e n : 0 < n -> block_frames id block n (writeHeaderBlock id block e n).
Proof.
  intros Hn. unfold writeHeaderBlock.
  pose proof (len_take_min block n) as Ht. pose proof (len_drop_min block n) as Hd. rewrite (Z.min_comm n) in Ht, Hd.
  set (k := Z.to_nat (Z.min (len block) n)) in *. pose proof (len_nonneg block) as Hb.
  destruct (len (drop k block) =? 0) eqn:E.
  - assert (drop k block = []) as Hnil by (apply len_zero; lia).
    assert (continuations (length block) id [] n = []) as Hc by (by destruct (length block)). rewrite Hnil, Hc.
    split; [|by repeat constructor]. exists [(take k block, true)]. cbn. rewrite app_nil_r. split_and!; [done| | |by exists [], (take k block)].
    + rewrite <- (take_drop k block) at 2. by rewrite Hnil, app_nil_r.
    + constructor; [cbn; lia|done].
  - destruct (continuations_parts id n Hn (length block) (drop k block)) as [(parts & Hm & Hc & Hl & init & last & -> & Hi) Hs];
      [rewrite length_drop; lia|pose proof (len_nonneg (drop k block)); lia|].
    split; [|by constructor]. exists ((take k block, false) :: init ++ [(last, true)]). cbn [map concat fst].
    rewrite Hm, Hc. split_and!; [done|apply take_drop|constructor; [cbn; lia|done]|].
    exists ((take k block, false) :: init), last. split; [done|by constructor].
Qed.

(** ** Bounds of responses *)

Definition field_size (f : Header) : Z := len (Name2 f) + 2 + len (Value2 f) + 2.
Definition header_ok (f : Header) : Prop :=
  Name2 f <> [] /\ len (Name2 f) <= HeaderNameBytes /\ len (Value2 f) <= HeaderValueBytes /\
  utf8_Valid (Value2 f) = true /\ invalidResponseValue (Value2 f) = false.
Definition headers_ok (hs : list Header) (expected : option Z) : Prop :=
  Forall header_ok hs /\ zsum field_size hs <= HeaderBytes /\
  (forall n, expected = Some n -> 0 <= n <= BodyBytes /\
     exists f, f ∈ hs /\ Name2 f = B "content-length" /\ ParseUint10 (Value2 f) 63 = Some n) /\
  (expected = None -> forall f, f ∈ hs -> Name2 f <> B "content-length").

Lemma decodeFields_ok fields : forall kept expected hs e, headers_ok kept expected ->
  decodeFields fields kept (zsum field_size kept) expected = Ok (hs, e) ->
  headers_ok hs e /\ hs = kept ++ fields.
Proof.
  induction fields as [|f fields IH]; intros kept expected hs e Hk; cbn [decodeFields].
  { intros [= <- <-]. by rewrite app_nil_r. }
  destruct (_ || _ || _ || _ || _) eqn:Ev; [done|]. fold (field_size f).
  destruct (HeaderBytes <? zsum field_size kept + field_size f) eqn:Es; [done|].
  assert (zsum field_size (kept ++ [f]) = zsum field_size kept + field_size f) as Hz by (rewrite zsum_app; cbn; lia).
  rewrite <- Hz. destruct Hk as (H1 & H2 & H3 & H4).
  assert (header_ok f) as Hf.
  { rewrite !orb_false_iff in Ev. destruct Ev as ((((E1 & E2) & E3) & E4) & E5). destruct_bools. unfold header_ok. split_and!; try done; lia. }
  assert (Forall header_ok (kept ++ [f])) as Hall by (apply Forall_app; split; [done|by apply Forall_singleton]).
  destruct (Name2 f ==? B "content-length") eqn:Ec.
  - apply eqb_true_1 in Ec. destruct (negb (expected ==? None) || _) eqn:Ee; [done|]. apply orb_false_iff in Ee as [Ee _].
    apply negb_false_iff, eqb_true_1 in Ee as ->. destruct (ParseUint10 (Value2 f) 63) as [n|] eqn:En; [|done].
    destruct (BodyBytes <? n) eqn:Eb; [done|]. intros H. destruct (IH (kept ++ [f]) (Some n) hs e) as [Hok ->]; [|done|].
    + split_and!; [done|lia| |done]. intros n' [= <-]. pose proof (ParseUint10_range _ _ _ En). split; [lia|].
      exists f. split_and!; [set_solver|done|done].
    + split; [done|]. by rewrite <- app_assoc.
  - apply eqb_false_1 in Ec. intros H. destruct (IH (kept ++ [f]) expected hs e) as [Hok ->]; [|done|split; [done|by rewrite <- app_assoc]].
    split_and!; [done|lia| |].
    + intros n Hn. destruct (H3 n Hn) as [Hr (g & Hg & ?)]. split; [done|]. exists g. set_solver.
    + intros Hn g [Hg| ->%list_elem_of_singleton]%elem_of_app; [by apply H4|done].
Qed.

Lemma decodeResponseHeaders_ok f r e : decodeResponseHeaders f = Ok (r, e) ->
  100 <= Status2 r <= 599 /\ headers_ok (Headers2 r) e /\ len (Headers2 r) <= HeaderFields /\
  Headers2 r = Meta_Regular f /\ Body2 r = [] /\ Truncated2 r = false.
Proof.
  unfold decodeResponseHeaders. destruct (Meta_Truncated f); [done|].
  destruct (Meta_Pseudo f) as [|p [|]]; [done| |done]. destruct (_ || _); [done|].
  destruct (Atoi (Value2 p)) as [status|]; [|done]. destruct (_ || _) eqn:Es; [done|].
  destruct (HeaderFields <? len (Meta_Regular f)) eqn:El; [done|].
  destruct (decodeFields (Meta_Regular f) [] 0 None) as [[hs ex]|] eqn:Ed; [|done]. intros [= <- <-]. cbn.
  destruct (decodeFields_ok (Meta_Regular f) [] None hs ex) as [Hok ->]; [|done|].
  - split_and!; [constructor|cbn; unfold HeaderBytes; lia|done|intros _ g Hg; by apply elem_of_nil in Hg].
  - apply orb_false_iff in Es as [E1 E2]. cbn [app] in *. split_and!; try done; lia.
Qed.

Definition success (status : Z) : Prop := 200 <= status < 300.

Lemma finalizeResponse_compressed {G : GzipReader} r r' : finalizeResponse r = Ok r' -> CompressedBytes2 r' = len (Body2 r).
Proof. unfold finalizeResponse. intros H. repeat case_match; by simplify_eq. Qed.
Lemma finalizeResponse_ok {G : GzipReader} `{!GzipLimit G} r r' : finalizeResponse r = Ok r' -> len (Body2 r) <= BodyBytes ->
  Truncated2 r = false ->
  Status2 r' = Status2 r /\ Headers2 r' = Headers2 r /\ CompressedBytes2 r' = len (Body2 r) /\
  len (Body2 r') <= BodyBytes /\ (~ success (Status2 r) -> len (Body2 r') <= ErrorBodyBytes) /\
  len (Body2 r') <= len (Body2 r) * ExpansionRatio /\
  (Truncated2 r' = true -> ~ success (Status2 r)) /\
  (Truncated2 r' = false -> DecompressedBytes2 r' = len (Body2 r')).
Proof.
  unfold finalizeResponse, success. intros H Hb Ht. destruct (bodyEncoding _ _ _) as [enc|]; [|done].
  match type of H with match ?d with _ => _ end = _ => destruct d as [dec|]; [|done] end.
  set (limit := if (Status2 r <? 200) || (300 <=? Status2 r) then ErrorBodyBytes else BodyBytes) in *.
  assert (limit = (if bool_decide (200 <= Status2 r < 300) then BodyBytes else ErrorBodyBytes)) as Hlim.
  { unfold limit. destruct (Status2 r <? 200) eqn:E1, (300 <=? Status2 r) eqn:E2; cbn; case_bool_decide; try done; lia. }
  destruct (_ <? len dec) eqn:E1; [done|]. destruct (limit <? len dec) eqn:E2.
  - destruct (_ && _) eqn:E3; [done|]. injection H as <-. cbn.
    assert (~ 200 <= Status2 r < 300) as Hns.
    { intros Hs. rewrite (proj2 (Z.leb_le _ _)), (proj2 (Z.ltb_lt _ _)) in E3 by lia. done. }
    rewrite bool_decide_eq_false_2 in Hlim by done. rewrite Hlim in *. unfold ErrorBodyBytes, BodyBytes in *.
    assert (len (take (Z.to_nat 65536) dec) = 65536) as -> by (unfold len in *; rewrite length_take; lia).
    split_and!; try done; lia.
  - injection H as <-. cbn. rewrite Hlim in E2. unfold BodyBytes, ErrorBodyBytes in *. split_and!; try done; try congruence.
    + case_bool_decide; lia.
    + intros Hns. rewrite bool_decide_eq_false_2 in E2 by done. lia.
    + lia.
Qed.
