(* ===== verification/H2Session.v ===== *)
(** * HTTP/2 sessions (internal/h2/session.go)

    A session is shared by the goroutines that send requests ([Do]), the read loop
    and the write loop.  Its fields under the mutex are the record [Session], every
    critical section is a function of it.  A handler of the read loop returns what
    remains of it after it has unlocked the mutex, as a list of [action]s. *)
From S2P Require Import Prelude GoText Errors Response H2Frame.

(** ** Data *)

Definition defaultWindowSize : Z := 65535.
Definition defaultFrameSize : Z := 16384.
Definition maxWindowSize : Z := 2147483647.
Definition maxInformationalResponses : Z := 8.

(** The errors a stream or a session ends with; [ReadWriteError] is an error of the
    connection or of a frame, [ContextError] that of the caller's context. *)
Inductive sessionError :=
| ResponseError (e : h2Error)
| ErrSessionClosed
| StreamResetError (code : Z)
| GoAwayError (lastStreamID code : Z)
| InvalidSetting
| ReadWriteError
| ContextError
| EOFError.

(** session.go, [stream]; [done] tells whether its channel is closed. *)
Record stream := mkStream {
  sendWindow : Z;
  done : bool;
  response : Response;
  err : option sessionError;
  finished : bool;
  headersReceived : bool;
  expectedLength : option Z;
  informational : Z
}.

(** session.go, [Session].  [objects] holds every stream ever opened by its id, because
    callers keep them; [streams] holds the ids of the map of that name.  The channels
    [flowChanged] and [admissionChanged] are counted: a waiter keeps the number of the
    channel it waits for.  [panicked] is set by closing a closed channel. *)
Record Session := mkSession {
  closeErr : option sessionError;
  objects : gmap Z stream;
  streams : gset Z;
  nextStreamID : Z;
  connectionWindow : Z;
  initialStreamWindow : Z;
  maxFrameSize : Z;
  maxConcurrent : Z;
  flowChanged : nat;
  admissionChanged : nat;
  goAway : option (Z * Z);
  doneClosed : bool;
  panicked : bool
}.

(** session.go, [NewSession], before the settings of the server. *)
Definition newSession : Session :=
  mkSession None ∅ ∅ 1 defaultWindowSize defaultWindowSize defaultFrameSize MaxUint32 0 0 None false false.

Definition set_streams objs ids (s : Session) : Session :=
  mkSession (closeErr s) objs ids (nextStreamID s) (connectionWindow s) (initialStreamWindow s) (maxFrameSize s)
    (maxConcurrent s) (flowChanged s) (admissionChanged s) (goAway s) (doneClosed s) (panicked s).
Definition set_object (id : Z) (st : stream) (s : Session) : Session := set_streams (<[id := st]> (objects s)) (streams s) s.
Definition set_windows conn initial (s : Session) : Session :=
  mkSession (closeErr s) (objects s) (streams s) (nextStreamID s) conn initial (maxFrameSize s)
    (maxConcurrent s) (flowChanged s) (admissionChanged s) (goAway s) (doneClosed s) (panicked s).
Definition set_limits frameSize concurrent (s : Session) : Session :=
  mkSession (closeErr s) (objects s) (streams s) (nextStreamID s) (connectionWindow s) (initialStreamWindow s) frameSize
    concurrent (flowChanged s) (admissionChanged s) (goAway s) (doneClosed s) (panicked s).
Definition set_goAway g (s : Session) : Session :=
  mkSession (closeErr s) (objects s) (streams s) (nextStreamID s) (connectionWindow s) (initialStreamWindow s)
    (maxFrameSize s) (maxConcurrent s) (flowChanged s) (admissionChanged s) g (doneClosed s) (panicked s).
Definition set_nextStreamID n (s : Session) : Session :=
  mkSession (closeErr s) (objects s) (streams s) n (connectionWindow s) (initialStreamWindow s) (maxFrameSize s)
    (maxConcurrent s) (flowChanged s) (admissionChanged s) (goAway s) (doneClosed s) (panicked s).
Definition set_closed e closed (s : Session) : Session :=
  mkSession e (objects s) (streams s) (nextStreamID s) (connectionWindow s) (initialStreamWindow s) (maxFrameSize s)
    (maxConcurrent s) (flowChanged s) (admissionChanged s) (goAway s) closed (panicked s).
Definition set_panicked b (s : Session) : Session :=
  mkSession (closeErr s) (objects s) (streams s) (nextStreamID s) (connectionWindow s) (initialStreamWindow s)
    (maxFrameSize s) (maxConcurrent s) (flowChanged s) (admissionChanged s) (goAway s) (doneClosed s) b.

Definition set_sendWindow w (st : stream) : stream :=
  mkStream w (done st) (response st) (err st) (finished st) (headersReceived st) (expectedLength st) (informational st).
Definition set_informational n (st : stream) : stream :=
  mkStream (sendWindow st) (done st) (response st) (err st) (finished st) (headersReceived st) (expectedLength st) n.
Definition set_received r e (st : stream) : stream :=
  mkStream (sendWindow st) (done st) r (err st) (finished st) true e (informational st).
Definition set_body b (st : stream) : stream :=
  let r := response st in
  mkStream (sendWindow st) (done st)
    (mkResponse2 (Status2 r) (Headers2 r) b (CompressedBytes2 r) (DecompressedBytes2 r) (Truncated2 r))
    (err st) (finished st) (headersReceived st) (expectedLength st) (informational st).
Definition set_finished r e (st : stream) : stream :=
  mkStream (sendWindow st) true r e true (headersReceived st) (expectedLength st) (informational st).

(** ** Critical sections *)

(** session.go, [signalFlowLocked] and [signalAdmissionLocked]: close the channel and
    make a new one. *)
Definition signalFlowLocked (s : Session) : Session :=
  mkSession (closeErr s) (objects s) (streams s) (nextStreamID s) (connectionWindow s) (initialStreamWindow s)
    (maxFrameSize s) (maxConcurrent s) (S (flowChanged s)) (admissionChanged s) (goAway s) (doneClosed s) (panicked s).
Definition signalAdmissionLocked (s : Session) : Session :=
  mkSession (closeErr s) (objects s) (streams s) (nextStreamID s) (connectionWindow s) (initialStreamWindow s)
    (maxFrameSize s) (maxConcurrent s) (flowChanged s) (S (admissionChanged s)) (goAway s) (doneClosed s) (panicked s).

(** session.go, [finishLocked]. *)
Definition finishLocked (id : Z) (r : Response) (e : option sessionError) (s : Session) : Session :=
  match objects s !! id with
  | None => s
  | Some st =>
    let s := set_streams (<[id := set_finished r e st]> (objects s)) (streams s ∖ {[id]}) s in
    let s := set_panicked (panicked s || done st) s in
    signalFlowLocked (signalAdmissionLocked s)
  end.

(** The stream that the map [streams] has under an id, unless it is finished. *)
Definition active (id : Z) (s : Session) : option stream :=
  if bool_decide (id ∈ streams s) then
    st ← objects s !! id; if finished st then None else Some st
  else None.

(** session.go, [finishStream] and [cancelStream]. *)
Definition finishStream (id : Z) (r : Response) (e : option sessionError) (s : Session) : Session :=
  match active id s with Some _ => finishLocked id r e s | None => s end.
Definition cancelStream (id : Z) (e : sessionError) (s : Session) : Session :=
  match objects s !! id with
  | Some st => if finished st then s else finishLocked id emptyResponse (Some e) s
  | None => s
  end.

(** session.go, [shutdown]: once. *)
Definition shutdown (e : sessionError) (s : Session) : Session :=
  if doneClosed s then s
  else
    let s := set_closed (Some e) false s in
    let s := fold_left (fun s id => finishLocked id emptyResponse (Some e) s) (elements (streams s)) s in
    set_closed (closeErr s) true s.

(** session.go, [sessionError]. *)
Definition sessionErrorOf (s : Session) : sessionError := default ErrSessionClosed (closeErr s).

(** session.go, [Reusable]. *)
Definition Reusable (s : Session) : bool :=
  match closeErr s, goAway s with None, None => nextStreamID s <=? MaxInt32 | _, _ => false end.

(** session.go, [acquireStream], one turn. *)
Inductive acquired := AcquireError (e : sessionError) | AcquireOk (id : Z) | AcquireWait (changed : nat).
Definition acquireStream (s : Session) : Session * acquired :=
  match closeErr s with
  | Some e => (s, AcquireError e)
  | None =>
    match goAway s with
    | Some (last, code) => (s, AcquireError (GoAwayError last code))
    | None =>
      if MaxInt32 <? nextStreamID s then (s, AcquireError ErrSessionClosed)
      else if Z.of_nat (size (streams s)) <? maxConcurrent s then
        let id := nextStreamID s in
        let st := mkStream (initialStreamWindow s) false emptyResponse None false false None 0 in
        (set_streams (<[id := st]> (objects s)) ({[id]} ∪ streams s) (set_nextStreamID (id + 2) s), AcquireOk id)
      else (s, AcquireWait (admissionChanged s))
    end
  end.

(** session.go, [reserveSend], one turn. *)
Inductive reserved := ReserveError (e : sessionError) | ReserveOk (n : Z) | ReserveWait (changed : nat).
Definition reserveSend (id remaining : Z) (s : Session) : Session * reserved :=
  match objects s !! id with
  | None => (s, ReserveError EOFError)
  | Some st =>
    if finished st then (s, ReserveError (default EOFError (err st)))
    else
      let available := Z.min (Z.min remaining (maxFrameSize s)) (Z.min (connectionWindow s) (sendWindow st)) in
      if 0 <? available then
        (set_windows (connectionWindow s - available) (initialStreamWindow s)
           (set_object id (set_sendWindow (sendWindow st - available) st) s), ReserveOk available)
      else (s, ReserveWait (flowChanged s))
  end.

(** session.go, [handleWindowUpdate]. *)
Definition handleWindowUpdate (id increment : Z) (s : Session) : result sessionError Session :=
  if id =? 0 then
    if maxWindowSize <? connectionWindow s + increment then Err (ResponseError ErrResponseProtocol)
    else Ok (signalFlowLocked (set_windows (connectionWindow s + increment) (initialStreamWindow s) s))
  else
    match active id s with
    | Some st =>
      if maxWindowSize <? sendWindow st + increment then Err (ResponseError ErrResponseProtocol)
      else Ok (signalFlowLocked (set_object id (set_sendWindow (sendWindow st + increment) st) s))
    | None => Ok (signalFlowLocked s)
    end.

(** [xhttp2.Setting.Valid] and what it promises of the settings that are read. *)
Definition SettingMaxConcurrentStreams : Z := 3.
Definition SettingInitialWindowSize : Z := 4.
Definition SettingMaxFrameSize : Z := 5.
Class Settings := settingValid : Z -> Z -> bool.
Class SettingsLaws (V : Settings) := {
  valid_window v : settingValid SettingInitialWindowSize v = true -> 0 <= v <= maxWindowSize;
  valid_frame v : settingValid SettingMaxFrameSize v = true -> defaultFrameSize <= v <= 16777215
}.

(** session.go, [applySettings]: settings are applied up to the first invalid one. *)
Fixpoint applySettings {V : Settings} (settings : list (Z * Z)) (s : Session) : Session * option sessionError :=
  match settings with
  | [] => (s, None)
  | (id, v) :: settings =>
    if negb (settingValid id v) then (s, Some InvalidSetting)
    else
      let s :=
        if id =? SettingInitialWindowSize then
          let delta := v - initialStreamWindow s in
          let objs := map_imap (fun id st => Some (if bool_decide (id ∈ streams s)
                        then set_sendWindow (sendWindow st + delta) st else st)) (objects s) in
          signalFlowLocked (set_windows (connectionWindow s) v (set_streams objs (streams s) s))
        else if id =? SettingMaxFrameSize then set_limits v (maxConcurrent s) s
        else if id =? SettingMaxConcurrentStreams then signalAdmissionLocked (set_limits (maxFrameSize s) v s)
        else s in
      applySettings settings s
  end.

(** session.go, [handleGoAway]. *)
Definition handleGoAway (last code : Z) (s : Session) : Session :=
  let g := match goAway s with
           | Some (l, c) => if last <? l then (last, code) else (l, c)
           | None => (last, code)
           end in
  let s := set_goAway (Some g) s in
  let s := fold_left (fun s id =>
    if g.1 <? id then finishLocked id emptyResponse (Some (GoAwayError g.1 g.2)) s else s) (elements (streams s)) s in
  signalAdmissionLocked s.

(** ** The handlers of the read loop *)

(** What the write loop is asked to write. *)
Inductive writing :=
| WriteHeaders (id : Z) (block : bytes) (endStream : bool)
| WriteData (id : Z) (endStream : bool) (chunk : bytes) (first : bool)
| WriteFrames (fs : list frame).

(** The frames of a call, when it is written. *)
Definition framesOf (w : writing) (s : Session) : list frame :=
  match w with
  | WriteHeaders id block e => writeHeaderBlock id block e (maxFrameSize s)
  | WriteData id e chunk _ => [DataFrame id e chunk]
  | WriteFrames fs => fs
  end.

(** What remains of a handler after it has unlocked the mutex. *)
Inductive action :=
| Finish (id : Z) (r : Response) (e : option sessionError)
| Queue (w : writing)
| Data (id : Z) (data : bytes) (ended : bool)
| Observe (id status : Z) (headers : list Header)
| Shutdown (e : sessionError).

(** What [ReadFrame] returns. *)
Inductive inbound :=
| InHeaders (f : MetaHeadersFrame)
| InData (id : Z) (data : bytes) (ended : bool)
| InRSTStream (id code : Z)
| InGoAway (lastStreamID code : Z)
| InWindowUpdate (id increment : Z)
| InSettings (ack : bool) (settings : list (Z * Z))
| InPing (ack : bool) (data : bytes)
| InPushPromise
| InOther
| InStreamError (id code : Z)
| InReadError.

(** What the framer lets through: it rejects an increment of 0. *)
Definition inbound_ok (f : inbound) : Prop :=
  match f with
  | InWindowUpdate id increment => 0 <= id /\ 0 < increment <= maxWindowSize
  | _ => True
  end.

Definition ErrCodeProtocol : Z := 1.
Definition ErrCodeCancel : Z := 8.
Definition protocolFinish (id : Z) : action := Finish id emptyResponse (Some (ResponseError ErrResponseProtocol)).

Section handlers.
Context {G : GzipReader} {V : Settings}.

(** [response, err = finalizeResponse(&response); s.finishStream(id, &response, err)]. *)
Definition finalize (id : Z) (r : Response) : action :=
  match finalizeResponse r with
  | Ok r => Finish id r None
  | Err e => Finish id emptyResponse (Some (ResponseError e))
  end.

(** session.go, [handleHeaders]. *)
Definition handleHeaders (f : MetaHeadersFrame) (s : Session) : Session * list action :=
  let id := Meta_StreamID f in
  match decodeResponseHeaders f with
  | Err e => (s, [Finish id emptyResponse (Some (ResponseError e)); Queue (WriteFrames [RSTStreamFrame id ErrCodeProtocol])])
  | Ok (r, expected) =>
    match active id s with
    | None => (s, [])
    | Some st =>
      if (100 <=? Status2 r) && (Status2 r <? 200) then
        let n := informational st + 1 in
        let invalid := (Status2 r =? 101) || Meta_StreamEnded f || headersReceived st || (maxInformationalResponses <? n) in
        (set_object id (set_informational n st) s, if invalid then [protocolFinish id] else [])
      else if headersReceived st then (s, [protocolFinish id])
      else
        let s := set_object id (set_received r expected st) s in
        let observe := Observe id (Status2 r) (Headers2 r) in
        if Meta_StreamEnded f && match expected with Some n => negb (n =? 0) | None => false end
        then (s, [observe; protocolFinish id])
        else if Meta_StreamEnded f then (s, [observe; finalize id r])
        else (s, [observe])
    end
  end.

(** session.go, [handleData], before it locks the mutex. *)
Definition handleData (id : Z) (data : bytes) (ended : bool) : list action :=
  if 0 <? len data then
    if MaxUint32 <? len data then [Finish id emptyResponse (Some (ResponseError ErrResponseTooLarge))]
    else [Queue (WriteFrames [WindowUpdateFrame 0 (len data); WindowUpdateFrame id (len data)]); Data id data ended]
  else [Data id data ended].

(** session.go, [handleData], with the mutex. *)
Definition dataSection (id : Z) (data : bytes) (ended : bool) (s : Session) : Session * list action :=
  match active id s with
  | None => (s, [])
  | Some st =>
    if negb (headersReceived st) then (s, [protocolFinish id])
    else if BodyBytes <? len (Body2 (response st)) + len data
    then (s, [Finish id emptyResponse (Some (ResponseError ErrResponseTooLarge))])
    else
      let st := set_body (Body2 (response st) ++ data) st in
      let s := set_object id st s in
      let size := len (Body2 (response st)) in
      if match expectedLength st with Some n => n <? size | None => false end then (s, [protocolFinish id])
      else if ended then
        if match expectedLength st with Some n => negb (size =? n) | None => false end then (s, [protocolFinish id])
        else (s, [finalize id (response st)])
      else (s, [])
  end.

(** session.go, [readLoop], one turn up to the first unlocking. *)
Definition receive (f : inbound) (s : Session) : Session * list action :=
  match f with
  | InHeaders f => handleHeaders f s
  | InData id data ended => (s, handleData id data ended)
  | InRSTStream id code => (s, [Finish id emptyResponse (Some (StreamResetError code))])
  | InGoAway last code => (handleGoAway last code s, [])
  | InWindowUpdate id increment =>
    match handleWindowUpdate id increment s with
    | Ok s => (s, [])
    | Err e => (s, [Shutdown e])
    end
  | InSettings true _ => (s, [])
  | InSettings false settings =>
    match applySettings settings s with
    | (s, None) => (s, [Queue (WriteFrames [SettingsAckFrame])])
    | (s, Some e) => (s, [Shutdown e])
    end
  | InPing true _ => (s, [])
  | InPing false data => (s, [Queue (WriteFrames [PingAckFrame data])])
  | InPushPromise => (s, [Shutdown (ResponseError ErrResponseProtocol)])
  | InOther => (s, [])
  | InStreamError id code => (s, [protocolFinish id; Queue (WriteFrames [RSTStreamFrame id code])])
  | InReadError => (s, [Shutdown ReadWriteError])
  end.

(** The next part of a handler, other than a write; a session that is shut down reads
    no more. *)
Definition act (a : action) (s : Session) : Session * list action :=
  match a with
  | Finish id r e => (finishStream id r e s, [])
  | Data id data ended => dataSection id data ended s
  | Shutdown e => (shutdown e s, [])
  | Observe _ _ _ | Queue _ => (s, [])
  end.
End handlers.

(** ** The invariant of a session *)

(** Every stream is open exactly as long as it is in the map; ids are odd and have been
    handed out; windows and limits are in range. *)
Record core (s : Session) : Prop := {
  core_panicked : panicked s = false;
  core_object id st : objects s !! id = Some st ->
    done st = finished st /\ (finished st = false <-> id ∈ streams s) /\ 0 < id < nextStreamID s /\ Z.odd id = true;
  core_streams id : id ∈ streams s -> is_Some (objects s !! id);
  core_next : 0 < nextStreamID s /\ Z.odd (nextStreamID s) = true;
  core_connection : 0 <= connectionWindow s <= maxWindowSize;
  core_initial : 0 <= initialStreamWindow s <= maxWindowSize;
  core_frame : defaultFrameSize <= maxFrameSize s
}.

(** A session is closed exactly when it has an error, and then no stream is open. *)
Definition closed_ok (s : Session) : Prop :=
  (doneClosed s = true <-> is_Some (closeErr s)) /\ (doneClosed s = true -> streams s = ∅).

(** A change that opens no stream and leaves every window as it is. *)
Record quiet (s s' : Session) : Prop := {
  quiet_connection : connectionWindow s' = connectionWindow s;
  quiet_initial : initialStreamWindow s' = initialStreamWindow s;
  quiet_next : nextStreamID s' = nextStreamID s;
  quiet_frame : maxFrameSize s' = maxFrameSize s;
  quiet_streams : streams s' ⊆ streams s;
  quiet_window id st : id ∈ streams s' -> objects s !! id = Some st ->
    exists st', objects s' !! id = Some st' /\ sendWindow st' = sendWindow st;
  quiet_dom id : is_Some (objects s' !! id) <-> is_Some (objects s !! id);
  quiet_finished id st : objects s !! id = Some st -> finished st = true -> objects s' !! id = Some st
}.

Lemma quiet_refl s : quiet s s.
Proof. constructor; try done. eauto. Qed.
Lemma quiet_trans s1 s2 s3 : quiet s1 s2 -> quiet s2 s3 -> quiet s1 s3.
Proof.
  intros [A1 A2 A3 A4 A5 A6 A7 A8] [B1 B2 B3 B4 B5 B6 B7 B8]. constructor; try congruence; [by etransitivity| | |].
  - intros id st Hid Hst. destruct (A6 id st (B5 id Hid) Hst) as (st' & H1 & H2).
    destruct (B6 id st' Hid H1) as (st'' & H3 & H4). exists st''. split; [done|congruence].
  - intros id. by rewrite B7, A7.
  - intros id st H Hf. apply (B8 id st); [|done]. by apply A8.
Qed.

Lemma finishLocked_core id r e s : core s -> id ∈ streams s -> core (finishLocked id r e s).
Proof.
  intros Hc Hid. destruct (core_streams s Hc id Hid) as [st Hst]. unfold finishLocked. rewrite Hst.
  destruct (core_object s Hc id st Hst) as (Hd & Hf & Hr & Ho). destruct Hc as [C1 C2 C3 C4 C5 C6 C7].
  constructor; cbn; try done.
  - rewrite C1, Hd. cbn. by apply Hf.
  - intros id' st' [[<- <-]|[Hne H']]%lookup_insert_Some.
    + cbn. split; [done|]. split; [|done]. split; [done|]. intros [_ H%not_elem_of_singleton]%elem_of_difference. done.
    + destruct (C2 id' st' H') as (? & Hf' & ?). split; [done|]. split; [|done].
      rewrite Hf', elem_of_difference, elem_of_singleton. naive_solver.
  - intros id' [Hid' Hne%not_elem_of_singleton]%elem_of_difference. rewrite lookup_insert_ne by done. by apply C3.
Qed.
Lemma finishLocked_quiet id r e s : id ∈ streams s -> core s -> quiet s (finishLocked id r e s).
Proof.
  intros Hid Hc. unfold finishLocked. destruct (objects s !! id) as [st|] eqn:Hst; [|apply quiet_refl].
  destruct (core_object s Hc id st Hst) as (_ & Hf & _). constructor; cbn; try done; [apply subseteq_difference_l; done| | |].
  - intros id' st' [_ Hne%not_elem_of_singleton]%elem_of_difference H'. rewrite lookup_insert_ne by done. eauto.
  - intros id'. destruct (decide (id' = id)) as [->|]; [rewrite lookup_insert_eq, Hst; by split; eauto|by rewrite lookup_insert_ne].
  - intros id' st' H' Hf'. rewrite lookup_insert_ne; [done|]. intros <-. simplify_eq. apply Hf in Hid. congruence.
Qed.
Lemma finishLocked_streams id r e s : id ∈ streams s -> core s -> streams (finishLocked id r e s) = streams s ∖ {[id]}.
Proof. intros Hid Hc. unfold finishLocked. by destruct (core_streams s Hc id Hid) as [st ->]. Qed.
Lemma finishLocked_frame id r e s : closeErr (finishLocked id r e s) = closeErr s /\ doneClosed (finishLocked id r e s) = doneClosed s /\
  goAway (finishLocked id r e s) = goAway s /\ maxConcurrent (finishLocked id r e s) = maxConcurrent s.
Proof. unfold finishLocked. by destruct (objects s !! id). Qed.
Lemma finishLocked_object id r e s st : objects s !! id = Some st ->
  objects (finishLocked id r e s) = <[id := set_finished r e st]> (objects s).
Proof. intros H. unfold finishLocked. by rewrite H. Qed.

(** Finishing some of the open streams. *)
Definition finishAll (P : Z -> bool) (e : option sessionError) (l : list Z) (s : Session) : Session :=
  fold_left (fun s id => if P id then finishLocked id emptyResponse e s else s) l s.

Record finished_all (P : Z -> bool) (e : option sessionError) (l : list Z) (s s' : Session) : Prop := {
  fa_core : core s';
  fa_quiet : quiet s s';
  fa_streams id : id ∈ streams s' <-> id ∈ streams s /\ ~ (id ∈ l /\ P id = true);
  fa_close : closeErr s' = closeErr s;
  fa_closed : doneClosed s' = doneClosed s;
  fa_goAway : goAway s' = goAway s;
  fa_done id st : id ∈ l -> P id = true -> objects s !! id = Some st -> objects s' !! id = Some (set_finished emptyResponse e st);
  fa_kept id : ~ (id ∈ l /\ P id = true) -> objects s' !! id = objects s !! id
}.

Lemma finishAll_spec P e l : forall s, core s -> NoDup l -> (forall id, id ∈ l -> id ∈ streams s) ->
  finished_all P e l s (finishAll P e l s).
Proof.
  unfold finishAll. induction l as [|id l IH]; intros s Hc Hnd Hl; cbn [fold_left].
  { constructor; try done; [apply quiet_refl| |by intros ? ? ?%elem_of_nil]. intros id. split; [|tauto]. split; [done|].
    by intros [?%elem_of_nil _]. }
  apply NoDup_cons in Hnd as [Hni Hnd]. assert (id ∈ streams s) as Hid by (apply Hl; by left).
  destruct (core_streams s Hc id Hid) as [st Hst].
  destruct (P id) eqn:EP.
  - pose proof (finishLocked_core id emptyResponse e s Hc Hid) as Hc1. pose proof (finishLocked_quiet id emptyResponse e s Hid Hc) as Hq1.
    pose proof (finishLocked_streams id emptyResponse e s Hid Hc) as Hs1. pose proof (finishLocked_frame id emptyResponse e s) as (F1 & F2 & F3 & _).
    pose proof (finishLocked_object id emptyResponse e s st Hst) as Ho1. set (s1 := finishLocked id emptyResponse e s) in *.
    destruct (IH s1 Hc1 Hnd) as [R1 R2 R3 R4 R5 R6 R7 R8].
    { intros id' H'. rewrite Hs1, elem_of_difference, elem_of_singleton. split; [apply Hl; by right|]. by intros ->. }
    constructor; try done; try congruence.
    + by eapply quiet_trans.
    + intros id'. rewrite R3, Hs1, elem_of_difference, elem_of_singleton, elem_of_cons. clear -EP. naive_solver.
    + intros id' st' [->|H']%elem_of_cons HP Ho.
      * rewrite R8 by (clear -Hni; naive_solver). rewrite Ho1, lookup_insert_eq. congruence.
      * apply R7; [done|done|]. rewrite Ho1, lookup_insert_ne; [done|]. by intros ->.
    + intros id' Hn. rewrite R8 by (rewrite elem_of_cons in Hn; clear -Hn; naive_solver). rewrite Ho1, lookup_insert_ne; [done|].
      intros <-. apply Hn. split; [by left|done].
  - destruct (IH s Hc Hnd) as [R1 R2 R3 R4 R5 R6 R7 R8]; [intros; apply Hl; by right|]. constructor; try done.
    + intros id'. rewrite R3, elem_of_cons. clear -EP. destruct (decide (id' = id)) as [->|]; [rewrite EP|]; naive_solver.
    + intros id' st' [->|H']%elem_of_cons HP Ho; [congruence|]. by apply R7.
    + intros id' Hn. apply R8. rewrite elem_of_cons in Hn. clear -Hn. naive_solver.
Qed.

Lemma core_set_closed e b s : core s -> core (set_closed e b s).
Proof. intros [C1 C2 C3 C4 C5 C6 C7]. by constructor. Qed.
Lemma quiet_set_closed e b s : quiet s (set_closed e b s).
Proof. constructor; try done. eauto. Qed.
Lemma core_set_goAway g s : core s -> core (set_goAway g s).
Proof. intros [C1 C2 C3 C4 C5 C6 C7]. by constructor. Qed.
Lemma quiet_set_goAway g s : quiet s (set_goAway g s).
Proof. constructor; try done. eauto. Qed.
Lemma core_signal s : core s -> core (signalFlowLocked s) /\ core (signalAdmissionLocked s).
Proof. intros [C1 C2 C3 C4 C5 C6 C7]. split; by constructor. Qed.
Lemma quiet_signal s : quiet s (signalFlowLocked s) /\ quiet s (signalAdmissionLocked s).
Proof. split; constructor; try done; eauto. Qed.

(** What a handler guarantees. *)
Definition kept (s s' : Session) : Prop := core s' /\ quiet s s' /\ closed_ok s'.

Lemma shutdown_spec e s : core s -> closed_ok s -> doneClosed s = false ->
  let s' := shutdown e s in
  kept s s' /\ doneClosed s' = true /\ closeErr s' = Some e /\ streams s' = ∅ /\
  (forall id st, id ∈ streams s -> objects s !! id = Some st -> objects s' !! id = Some (set_finished emptyResponse (Some e) st)).
Proof.
  intros Hc Hk Hd. unfold shutdown. rewrite Hd.
  destruct (finishAll_spec (fun _ => true) (Some e) (elements (streams s)) (set_closed (Some e) false s)) as [R1 R2 R3 R4 R5 R6 R7 R8].
  { by apply core_set_closed. } { apply NoDup_elements. } { intros id. by rewrite elem_of_elements. }
  unfold finishAll in *. cbn [streams set_closed] in *. set (s1 := fold_left _ _ _) in *.
  assert (streams s1 = ∅) as He.
  { apply set_eq. intros id. rewrite R3, elem_of_elements, elem_of_empty. clear. naive_solver. }
  split_and!; cbn; try done.
  - split_and!; [by apply core_set_closed| |]; cbn.
    + eapply quiet_trans; [apply quiet_set_closed|]. eapply quiet_trans; [exact R2|apply quiet_set_closed].
    + split; cbn; [|done]. rewrite R4. cbn. split; eauto.
  - intros id st Hid Ho. apply R7; [by apply elem_of_elements|done|done].
Qed.
Lemma shutdown_kept e s : core s -> closed_ok s -> kept s (shutdown e s) /\ doneClosed (shutdown e s) = true.
Proof.
  intros Hc Hk. destruct (doneClosed s) eqn:E; [|by destruct (shutdown_spec e s Hc Hk E) as (? & ? & _)].
  unfold shutdown. rewrite E. split; [|done]. split_and!; [done|apply quiet_refl|done].
Qed.

Lemma handleGoAway_spec last code s : core s -> closed_ok s ->
  let g := match goAway s with Some (l, c) => if last <? l then (last, code) else (l, c) | None => (last, code) end in
  let s' := handleGoAway last code s in
  kept s s' /\ goAway s' = Some g /\ closeErr s' = closeErr s /\ doneClosed s' = doneClosed s /\
  (forall id, id ∈ streams s' <-> id ∈ streams s /\ id <= g.1) /\
  (forall id st, id ∈ streams s -> g.1 < id -> objects s !! id = Some st ->
     objects s' !! id = Some (set_finished emptyResponse (Some (GoAwayError g.1 g.2)) st)) /\
  (forall id, id <= g.1 -> objects s' !! id = objects s !! id).
Proof.
  intros Hc [Hk1 Hk2] g. unfold handleGoAway. fold g.
  destruct (finishAll_spec (fun id => g.1 <? id) (Some (GoAwayError g.1 g.2)) (elements (streams s)) (set_goAway (Some g) s))
    as [R1 R2 R3 R4 R5 R6 R7 R8].
  { by apply core_set_goAway. } { apply NoDup_elements. } { intros id. by rewrite elem_of_elements. }
  unfold finishAll in *. cbn [streams set_goAway] in *. set (s1 := fold_left _ _ _) in *.
  assert (forall id, id ∈ streams s1 <-> id ∈ streams s /\ id <= g.1) as Hs.
  { intros id. rewrite R3, elem_of_elements, Z.ltb_lt. split; [|intros [? ?]; split; [done|intros [_ ?]; lia]]. intros [? ?]. split; [done|]. apply Z.nlt_ge. intros ?. tauto. }
  split_and!; try done.
  - split_and!; [by apply core_signal| |].
    + eapply quiet_trans; [apply quiet_set_goAway|]. eapply quiet_trans; [exact R2|apply quiet_signal].
    + split; cbn; rewrite ?R4, ?R5; cbn; [done|]. intros H. apply Hk2 in H. apply set_eq. intros id. rewrite Hs, H. set_solver.
  - intros id st Hid Hg Ho. apply R7; [by apply elem_of_elements|lia|done].
  - intros id Hle. apply R8. rewrite Z.ltb_lt. intros [_ ?]. lia.
Qed.

Lemma active_Some id s st : core s -> active id s = Some st -> id ∈ streams s /\ objects s !! id = Some st /\ finished st = false.
Proof.
  intros Hc. unfold active. case_bool_decide as Hid; [|done]. destruct (objects s !! id) as [x|] eqn:E; cbn; [|done].
  destruct (finished x) eqn:Ef; [done|]. by intros [= ->].
Qed.

Lemma finish_kept id r e s : core s -> closed_ok s -> id ∈ streams s -> kept s (finishLocked id r e s).
Proof.
  intros Hc [Hk1 Hk2] Hid. split_and!; [by apply finishLocked_core|by apply finishLocked_quiet|].
  destruct (finishLocked_frame id r e s) as (F1 & F2 & _). split; rewrite ?F1, ?F2; [done|]. intros H. apply Hk2 in H. set_solver.
Qed.
Lemma kept_refl s : core s -> closed_ok s -> kept s s.
Proof. intros Hc Hk. split_and!; [done|apply quiet_refl|done]. Qed.
Lemma finishStream_kept id r e s : core s -> closed_ok s -> kept s (finishStream id r e s).
Proof.
  intros Hc Hk. unfold finishStream. destruct (active id s) eqn:E; [|by apply kept_refl].
  apply active_Some in E as (? & _); [|done]. by apply finish_kept.
Qed.
Lemma cancelStream_kept id e s : core s -> closed_ok s -> kept s (cancelStream id e s).
Proof.
  intros Hc Hk. unfold cancelStream. destruct (objects s !! id) as [st|] eqn:E; [|by apply kept_refl].
  destruct (finished st) eqn:Ef; [by apply kept_refl|]. apply finish_kept; [done|done|]. by apply (core_object s Hc id st E).
Qed.

(** Writing an open stream back with the same window. *)
Lemma set_object_kept id st st' s : core s -> closed_ok s -> objects s !! id = Some st -> finished st = false ->
  done st' = done st -> finished st' = finished st -> sendWindow st' = sendWindow st -> kept s (set_object id st' s).
Proof.
  intros Hc Hk Ho Hf H1 H2 H3. destruct (core_object s Hc id st Ho) as (D1 & D2 & D3 & D4).
  destruct Hc as [C1 C2 C3 C4 C5 C6 C7]. split_and!; [| |done].
  - constructor; cbn; try done.
    + intros id' x [[<- <-]|[Hne H']]%lookup_insert_Some; [|by apply C2]. rewrite H1, H2. done.
    + intros id' Hid'. destruct (decide (id' = id)) as [->|]; [rewrite lookup_insert_eq; eauto|rewrite lookup_insert_ne by done; auto].
  - constructor; cbn; try done.
    + intros id' x Hid' Hx. destruct (decide (id' = id)) as [->|]; [|rewrite lookup_insert_ne by done; eauto].
      rewrite lookup_insert_eq. exists st'. split; [done|]. congruence.
    + intros id'. destruct (decide (id' = id)) as [->|]; [rewrite lookup_insert_eq, Ho; split; eauto|by rewrite lookup_insert_ne].
    + intros id' x Hx Hfx. rewrite lookup_insert_ne; [done|]. intros <-. congruence.
Qed.

(** ** The invariant of responses *)

Section responses.
Context {G : GzipReader} {V : Settings}.

(** A response whose header has been received and whose body is being collected. *)
Definition collected (r : Response) (expected : option Z) : Prop :=
  200 <= Status2 r <= 599 /\ headers_ok (Headers2 r) expected /\ len (Headers2 r) <= HeaderFields /\
  len (Body2 r) <= BodyBytes /\ Truncated2 r = false.
(** A response that a stream ends with: a complete body of the announced length,
    decoded. *)
Definition final_ok (r : Response) : Prop := exists r0 expected, collected r0 expected /\
  (forall n, expected = Some n -> len (Body2 r0) = n) /\ finalizeResponse r0 = Ok r.
Definition stream_ok (st : stream) : Prop :=
  (finished st = false -> headersReceived st = true -> collected (response st) (expectedLength st)) /\
  (finished st = true -> err st = None -> final_ok (response st)).
Definition responses_ok (s : Session) : Prop := forall id st, objects s !! id = Some st -> stream_ok st.
(** The frames that a handler asks for: neither data nor headers. *)
Definition control (f : frame) : Prop :=
  match f with HeadersFrame _ _ _ _ | ContinuationFrame _ _ _ | DataFrame _ _ _ => False | _ => True end.
Definition action_ok (a : action) : Prop :=
  match a with
  | Finish _ r None => final_ok r
  | Queue (WriteFrames fs) => Forall control fs
  | Queue _ => False
  | _ => True
  end.

Lemma responses_finish id r e s : responses_ok s -> (e = None -> final_ok r) -> responses_ok (finishLocked id r e s).
Proof.
  intros H He. unfold finishLocked. destruct (objects s !! id) as [st|] eqn:E; [|done].
  intros id' st'. cbn. intros [[<- <-]|[_ H']]%lookup_insert_Some; [|by eapply H]. split; [done|]. cbn. intros _ ->. auto.
Qed.
Lemma responses_finishAll P e l : e <> None -> forall s, responses_ok s -> responses_ok (finishAll P e l s).
Proof.
  intros He. unfold finishAll. induction l as [|id l IH]; intros s Hs; cbn; [done|]. apply IH.
  destruct (P id); [|done]. apply responses_finish; [done|]. by intros ->.
Qed.
Lemma responses_finishStream id r e s : responses_ok s -> (e = None -> final_ok r) -> responses_ok (finishStream id r e s).
Proof. intros H He. unfold finishStream. destruct (active id s); [by apply responses_finish|done]. Qed.
Lemma responses_cancelStream id e s : responses_ok s -> responses_ok (cancelStream id e s).
Proof. intros H. unfold cancelStream. repeat case_match; try done. by apply responses_finish. Qed.
Lemma responses_shutdown e s : responses_ok s -> responses_ok (shutdown e s).
Proof.
  intros H. unfold shutdown. destruct (doneClosed s); [done|].
  apply (responses_finishAll (fun _ => true) (Some e) (elements (streams s)) ltac:(done) (set_closed (Some e) false s)). done.
Qed.
Lemma responses_handleGoAway last code s : responses_ok s -> responses_ok (handleGoAway last code s).
Proof. intros H. unfold handleGoAway. apply (responses_finishAll (fun id => _ <? id) (Some _) _ ltac:(done) (set_goAway _ s)). done. Qed.

Lemma responses_set_object id st s : responses_ok s -> stream_ok st -> responses_ok (set_object id st s).
Proof. intros H Hst id' st'. cbn. intros [[<- <-]|[_ H']]%lookup_insert_Some; [done|by eapply H]. Qed.

(** Only the window of a stream changes. *)
Lemma stream_ok_window w st : stream_ok st -> stream_ok (set_sendWindow w st).
Proof. done. Qed.
Lemma responses_applySettings l : forall s, responses_ok s -> responses_ok (applySettings l s).1.
Proof.
  induction l as [|[id v] l IH]; intros s Hs; cbn [applySettings]; [done|]. destruct (negb _); [done|]. apply IH.
  repeat case_match; try done. intros id' st'. cbn. rewrite map_lookup_imap. destruct (objects s !! id') as [st|] eqn:E; cbn; [|done].
  intros [= <-]. specialize (Hs id' st E). by case_bool_decide.
Qed.

Lemma finalize_ok id r expected : collected r expected -> (forall n, expected = Some n -> len (Body2 r) = n) ->
  action_ok (finalize id r).
Proof. intros Hr He. unfold finalize. destruct (finalizeResponse r) as [r'|] eqn:E; [|done]. cbn. by exists r, expected. Qed.

Lemma handleHeaders_responses f s s' acts : core s -> closed_ok s -> responses_ok s -> handleHeaders f s = (s', acts) ->
  kept s s' /\ responses_ok s' /\ Forall action_ok acts.
Proof.
  intros Hc Hk Hr. unfold handleHeaders. destruct (decodeResponseHeaders f) as [[r expected]|] eqn:Ed.
  2:{ intros [= <- <-]. split_and!; [by apply kept_refl|done|by repeat constructor]. }
  destruct (decodeResponseHeaders_ok f r expected Ed) as (Hst & Hh & Hl & _ & Hb & Ht).
  destruct (active (Meta_StreamID f) s) as [st|] eqn:Ea.
  2:{ intros [= <- <-]. split_and!; [by apply kept_refl|done|constructor]. }
  apply active_Some in Ea as (Hid & Ho & Hf); [|done]. specialize (Hr _ _ Ho) as Hsok.
  destruct ((100 <=? Status2 r) && (Status2 r <? 200)) eqn:Ei.
  { intros [= <- <-]. split_and!; [by eapply set_object_kept|by apply responses_set_object|by destruct (_ || _ || _ || _); repeat constructor]. }
  destruct (headersReceived st) eqn:Er; [intros [= <- <-]; split_and!; [by apply kept_refl|done|by repeat constructor]|].
  assert (collected r expected) as Hcol.
  { apply andb_false_iff in Ei. split_and!; try done; [|lia|rewrite Hb; unfold BodyBytes; change (len []) with 0; lia].
    destruct Ei as [Ei|Ei]; lia. }
  assert (kept s (set_object (Meta_StreamID f) (set_received r expected st) s)) as Hkept by by eapply set_object_kept.
  assert (responses_ok (set_object (Meta_StreamID f) (set_received r expected st) s)) as Hresp.
  { apply responses_set_object; [done|]. split; cbn; [done|]. intros Hf'. congruence. }
  destruct (Meta_StreamEnded f && _) eqn:Ee; [intros [= <- <-]; split_and!; [done|done|by repeat constructor]|].
  destruct (Meta_StreamEnded f); intros [= <- <-]; (split_and!; [done|done|]).
  - constructor; [done|]. constructor; [|constructor]. apply (finalize_ok _ r expected); [done|].
    intros n ->. cbn in Ee. rewrite Hb. change (len []) with 0. apply negb_false_iff in Ee. lia.
  - constructor; [done|constructor].
Qed.

Lemma dataSection_responses id data ended s s' acts : core s -> closed_ok s -> responses_ok s ->
  dataSection id data ended s = (s', acts) -> kept s s' /\ responses_ok s' /\ Forall action_ok acts.
Proof.
  intros Hc Hk Hr. unfold dataSection. destruct (active id s) as [st|] eqn:Ea.
  2:{ intros [= <- <-]. split_and!; [by apply kept_refl|done|constructor]. }
  apply active_Some in Ea as (Hid & Ho & Hf); [|done]. specialize (Hr _ _ Ho) as Hsok.
  destruct (negb (headersReceived st)) eqn:Er; [intros [= <- <-]; split_and!; [by apply kept_refl|done|by repeat constructor]|].
  apply negb_false_iff in Er. destruct (BodyBytes <? _) eqn:Eb; [intros [= <- <-]; split_and!; [by apply kept_refl|done|by repeat constructor]|].
  set (st1 := set_body (Body2 (response st) ++ data) st). destruct (proj1 Hsok Hf Er) as (H1 & H2 & H3 & H4 & H5).
  assert (collected (response st1) (expectedLength st1)) as Hcol by (split_and!; cbn; try done; rewrite ?len_app; lia).
  assert (kept s (set_object id st1 s)) as Hkept by by eapply set_object_kept.
  assert (responses_ok (set_object id st1 s)) as Hresp.
  { apply responses_set_object; [done|]. split; [done|]. cbn. congruence. }
  destruct (match expectedLength st1 with Some n => n <? _ | None => false end) eqn:E1;
    [intros [= <- <-]; split_and!; [done|done|by repeat constructor]|].
  destruct ended; [|intros [= <- <-]; split_and!; [done|done|constructor]].
  destruct (match expectedLength st1 with Some n => negb (_ =? n) | None => false end) eqn:E2; intros [= <- <-];
    (split_and!; [done|done|]); [by repeat constructor|]. constructor; [|constructor].
  apply (finalize_ok id (response st1) (expectedLength st1)); [done|]. intros n Hn. rewrite Hn in E2. apply negb_false_iff in E2. lia.
Qed.
End responses.

