(* ===== verification/H2System.v ===== *)
(** * The goroutines of an HTTP/2 session (internal/h2/session.go)

    The step relation of a session: the read loop, the write loop, the callers of [Do]
    and of [Close].  A step is a critical section, a send or receive on a channel or a
    write to the connection; what can happen between two of them is another step.  The
    theorems hold of every reachable state: no channel is closed twice, data stays
    within the credit of the peer, answers are complete, and a request is on the wire
    as its header block and its body in order.  A closed session answers a
    request in every infinite run that is fair to it. *)
From S2P Require Import Prelude GoText Errors Response H2Frame H2Session.

(** ** States and steps *)

(** A call of [Session.write] by a request, seen from the request. *)
Inductive callStatus := Waiting | Started | Returned (ok : bool).

(** session.go, [Do]: where a request is.  [Opened] and [Reserved] are about to write,
    [Sending] is about to reserve [offset] bytes into the body. *)
Inductive place :=
| Acquiring
| WaitAdmission (changed : nat)
| Opened (id : Z)
| WritingHeaders (id : Z) (c : callStatus)
| Sending (id offset : Z)
| WaitFlow (id offset : Z) (changed : nat)
| Reserved (id offset n : Z)
| WritingData (id offset n : Z) (c : callStatus)
| Awaiting (id : Z)
| Resetting (id : Z)
| WritingReset (id : Z) (c : callStatus)
| Answered (id : option Z) (r : Response) (e : option sessionError).

(** A request: its encoded header block, its body, whether its context is done, where
    it is, whether [MarkCommitted] ran. *)
Record request := mkProcess {
  block : bytes;
  body : bytes;
  ctxDone : bool;
  at_ : place;
  committed : bool
}.
Definition set_at p (r : request) : request := mkProcess (block r) (body r) (ctxDone r) p (committed r).
Definition set_ctxDone (r : request) : request := mkProcess (block r) (body r) true (at_ r) (committed r).
Definition set_committed (r : request) : request := mkProcess (block r) (body r) (ctxDone r) (at_ r) true.

(** session.go, [writeCall]: the request that waits for it, if any, and whether its
    context is that of the request. *)
Record writeCall := mkCall { caller : option nat; cancellable : bool; what : writing }.

Inductive writerState := WriterIdle | Writing (c : writeCall) | WriterFailing | WriterStopped.

Record system := mkSystem {
  session : Session;
  actions : list action;
  readerStopped : bool;
  writer : writerState;
  queue : list writeCall;
  wire : list frame;
  inbox : list inbound;
  requests : list request
}.
Definition set_session s σ := mkSystem s (actions σ) (readerStopped σ) (writer σ) (queue σ) (wire σ) (inbox σ) (requests σ).
Definition set_reader s acts stopped σ := mkSystem s acts stopped (writer σ) (queue σ) (wire σ) (inbox σ) (requests σ).
Definition set_writer w σ := mkSystem (session σ) (actions σ) (readerStopped σ) w (queue σ) (wire σ) (inbox σ) (requests σ).
Definition set_queue q σ := mkSystem (session σ) (actions σ) (readerStopped σ) (writer σ) q (wire σ) (inbox σ) (requests σ).
Definition set_wire fs σ := mkSystem (session σ) (actions σ) (readerStopped σ) (writer σ) (queue σ) fs (inbox σ) (requests σ).
Definition set_inbox fs σ := mkSystem (session σ) (actions σ) (readerStopped σ) (writer σ) (queue σ) (wire σ) fs (requests σ).
Definition set_requests rs σ := mkSystem (session σ) (actions σ) (readerStopped σ) (writer σ) (queue σ) (wire σ) (inbox σ) rs.
Definition move k p σ := set_requests (alter (set_at p) k (requests σ)) σ.

(** The call that a request waits for starts or returns; a request that has left does
    not notice. *)
Definition notify_at (c : callStatus) (p : place) : place :=
  match p with
  | WritingHeaders id _ => WritingHeaders id c
  | WritingData id offset n _ => WritingData id offset n c
  | WritingReset id _ => WritingReset id c
  | p => p
  end.
Definition notify (c : callStatus) (call : writeCall) (σ : system) : system :=
  match caller call with
  | Some k => set_requests (alter (fun r => set_at (notify_at c (at_ r)) r) k (requests σ)) σ
  | None => σ
  end.
(** [MarkCommitted] runs before the first data is written. *)
Definition commit (call : writeCall) (σ : system) : system :=
  match caller call, what call with
  | Some k, WriteData _ _ _ true => set_requests (alter set_committed k (requests σ)) σ
  | _, _ => σ
  end.
Definition callCancelled (call : writeCall) (σ : system) : bool :=
  cancellable call && match caller call with
                      | Some k => match requests σ !! k with Some r => ctxDone r | None => false end
                      | None => false
                      end.

(** [fail]: cancel the stream and return the error. *)
Definition failRequest k id e σ :=
  move k (Answered (Some id) emptyResponse (Some e)) (set_session (cancelStream id e (session σ)) σ).

(** The [select]s of [write]: a call in the channel, which holds 64. *)
Definition room σ : Prop := (length (queue σ) < 64)%nat.

(** [write], first [select], and the [select] of [acquireStream]: the caller gives up. *)
Definition gone (r : request) (s : Session) (e : sessionError) : Prop :=
  ctxDone r = true /\ e = ContextError \/ doneClosed s = true /\ e = sessionErrorOf s.
(** [write], second [select]: it returns an error.  After the call has started, only
    its result or the end of the session count. *)
Definition writeFails (c : callStatus) (r : request) (s : Session) (e : sessionError) : Prop :=
  c = Returned false /\ (e = ContextError \/ e = ReadWriteError) \/
  c = Waiting /\ ctxDone r = true /\ e = ContextError \/
  c = Started /\ ctxDone r = true /\ doneClosed s = true /\ e = ContextError \/
  doneClosed s = true /\ e = sessionErrorOf s.

Section steps.
Context {G : GzipReader} {V : Settings}.

(** session.go, [readLoop] and [queue]. *)
Inductive readStep (σ : system) : system -> Prop :=
| step_receive f s acts : readerStopped σ = false -> actions σ = [] -> inbound_ok f -> receive f (session σ) = (s, acts) ->
    readStep σ (set_inbox (inbox σ ++ [f]) (set_reader s acts false σ))
| step_act a rest s acts : actions σ = a :: rest -> (forall w, a <> Queue w) -> act a (session σ) = (s, acts) ->
    readStep σ (set_reader s (acts ++ rest) (match a with Shutdown _ => true | _ => readerStopped σ end) σ)
| step_queue w rest : actions σ = Queue w :: rest -> room σ ->
    readStep σ (set_reader (session σ) rest (readerStopped σ) (set_queue (queue σ ++ [mkCall None false w]) σ))
| step_queue_closed w rest : actions σ = Queue w :: rest -> doneClosed (session σ) = true ->
    readStep σ (set_reader (session σ) rest (readerStopped σ) σ).

(** session.go, [writeLoop]. *)
Inductive writeStep (σ : system) : system -> Prop :=
| step_write_drop c q : writer σ = WriterIdle -> queue σ = c :: q -> callCancelled c σ = true ->
    writeStep σ (notify (Returned false) c (set_queue q σ))
| step_write_start c q : writer σ = WriterIdle -> queue σ = c :: q -> callCancelled c σ = false ->
    writeStep σ (notify Started c (set_writer (Writing c) (set_queue q σ)))
| step_write_ok c : writer σ = Writing c ->
    writeStep σ (notify (Returned true) c (commit c
      (set_writer WriterIdle (set_wire (wire σ ++ framesOf (what c) (session σ)) σ))))
| step_write_fail c fs : writer σ = Writing c -> fs `prefix_of` framesOf (what c) (session σ) ->
    writeStep σ (notify (Returned false) c (commit c (set_writer WriterFailing (set_wire (wire σ ++ fs) σ))))
| step_write_shutdown : writer σ = WriterFailing ->
    writeStep σ (set_writer WriterStopped (set_session (shutdown ReadWriteError (session σ)) σ))
| step_write_stop : writer σ = WriterIdle -> doneClosed (session σ) = true -> writeStep σ (set_writer WriterStopped σ).

(** session.go, [Do], and the caller's context. *)
Inductive requestStep (σ : system) : system -> Prop :=
| step_new blk bdy : requestStep σ (set_requests (requests σ ++ [mkProcess blk bdy false Acquiring false]) σ)
| step_cancel k : requestStep σ (set_requests (alter set_ctxDone k (requests σ)) σ)
| step_acquire k r s a : requests σ !! k = Some r -> at_ r = Acquiring -> acquireStream (session σ) = (s, a) ->
    requestStep σ (move k match a with
                   | AcquireOk id => Opened id
                   | AcquireWait n => WaitAdmission n
                   | AcquireError e => Answered None emptyResponse (Some e)
                   end (set_session s σ))
| step_admission k r n : requests σ !! k = Some r -> at_ r = WaitAdmission n -> admissionChanged (session σ) <> n ->
    requestStep σ (move k Acquiring σ)
| step_admission_gone k r n e : requests σ !! k = Some r -> at_ r = WaitAdmission n ->
    gone r (session σ) e ->
    requestStep σ (move k (Answered None emptyResponse (Some e)) σ)
| step_headers k r id : requests σ !! k = Some r -> at_ r = Opened id -> ctxDone r = false -> room σ ->
    requestStep σ (move k (WritingHeaders id Waiting)
      (set_queue (queue σ ++ [mkCall (Some k) true (WriteHeaders id (block r) (body r ==? []))]) σ))
| step_data k r id offset n : requests σ !! k = Some r -> at_ r = Reserved id offset n -> ctxDone r = false -> room σ ->
    requestStep σ (move k (WritingData id offset n Waiting)
      (set_queue (queue σ ++ [mkCall (Some k) true
         (WriteData id (offset + n =? len (body r)) (take (Z.to_nat n) (drop (Z.to_nat offset) (body r))) (offset =? 0))]) σ))
| step_write_gone k r id e : requests σ !! k = Some r ->
    (at_ r = Opened id \/ exists offset n, at_ r = Reserved id offset n) ->
    gone r (session σ) e ->
    requestStep σ (failRequest k id e σ)
| step_headers_written k r id : requests σ !! k = Some r -> at_ r = WritingHeaders id (Returned true) ->
    requestStep σ (move k (Sending id 0) σ)
| step_data_written k r id offset n : requests σ !! k = Some r -> at_ r = WritingData id offset n (Returned true) ->
    requestStep σ (move k (Sending id (offset + n)) σ)
| step_write_failed k r id c e : requests σ !! k = Some r ->
    (at_ r = WritingHeaders id c \/ exists offset n, at_ r = WritingData id offset n c) ->
    writeFails c r (session σ) e ->
    requestStep σ (failRequest k id e σ)
| step_reserve k r id offset s a : requests σ !! k = Some r -> at_ r = Sending id offset -> offset < len (body r) ->
    ctxDone r = false -> reserveSend id (len (body r) - offset) (session σ) = (s, a) ->
    requestStep σ (move k match a with
                   | ReserveOk n => Reserved id offset n
                   | ReserveWait n => WaitFlow id offset n
                   | ReserveError e =>
                     match objects s !! id with
                     | Some st => Answered (Some id) (response st) (err st)
                     | None => Answered (Some id) emptyResponse (Some e)
                     end
                   end (set_session s σ))
| step_flow k r id offset n : requests σ !! k = Some r -> at_ r = WaitFlow id offset n -> flowChanged (session σ) <> n ->
    requestStep σ (move k (Sending id offset) σ)
| step_flow_gone k r id offset n st : requests σ !! k = Some r ->
    (at_ r = WaitFlow id offset n /\ (ctxDone r = true \/ doneClosed (session σ) = true) \/
     at_ r = Sending id offset /\ offset < len (body r) /\ ctxDone r = true) -> objects (session σ) !! id = Some st ->
    requestStep σ (if finished st then move k (Answered (Some id) (response st) (err st)) σ
            else if ctxDone r then move k (Resetting id) σ
            else failRequest k id (sessionErrorOf (session σ)) σ)
| step_sent k r id offset : requests σ !! k = Some r -> at_ r = Sending id offset -> len (body r) <= offset ->
    requestStep σ (move k (Awaiting id) σ)
| step_answer k r id st : requests σ !! k = Some r -> at_ r = Awaiting id -> objects (session σ) !! id = Some st ->
    done st = true -> requestStep σ (move k (Answered (Some id) (response st) (err st)) σ)
| step_await_cancelled k r id : requests σ !! k = Some r -> at_ r = Awaiting id -> ctxDone r = true ->
    requestStep σ (move k (Resetting id) σ)
| step_await_closed k r id : requests σ !! k = Some r -> at_ r = Awaiting id -> doneClosed (session σ) = true ->
    requestStep σ (move k (Answered (Some id) emptyResponse (Some (sessionErrorOf (session σ)))) σ)
| step_reset k r id : requests σ !! k = Some r -> at_ r = Resetting id -> room σ ->
    requestStep σ (move k (WritingReset id Waiting)
      (set_queue (queue σ ++ [mkCall (Some k) false (WriteFrames [RSTStreamFrame id ErrCodeCancel])]) σ))
| step_reset_done k r id : requests σ !! k = Some r ->
    (at_ r = Resetting id /\ doneClosed (session σ) = true \/
     exists c, at_ r = WritingReset id c /\ (doneClosed (session σ) = true \/ exists b, c = Returned b)) ->
    requestStep σ (failRequest k id ContextError σ).

(** The session is closed by its owner at any time. *)
Inductive step (σ : system) : system -> Prop :=
| step_read σ' : readStep σ σ' -> step σ σ'
| step_write σ' : writeStep σ σ' -> step σ σ'
| step_request σ' : requestStep σ σ' -> step σ σ'
| step_close : step σ (set_session (shutdown ErrSessionClosed (session σ)) σ).

(** A session after the exchange of settings. *)
Definition initial (settings : list (Z * Z)) : option system :=
  match applySettings settings newSession with
  | (s, None) => Some (mkSystem s [] false WriterIdle [] [] [InSettings false settings] [])
  | (_, Some _) => None
  end.

Definition reachable (σ : system) : Prop := exists settings σ0, initial settings = Some σ0 /\ rtc step σ0 σ.
End steps.

(** ** Flow control *)

(** The credit of the peer for a stream, or for the connection with id 0. *)
Definition grants (id : Z) (l : list inbound) : Z :=
  zsum (fun f => match f with InWindowUpdate i n => if i =? id then n else 0 | _ => 0 end) l.

(** Bytes of data for the streams that [P] selects: on the wire, in calls, reserved. *)
Definition frameBytes (P : Z -> bool) (f : frame) : Z :=
  match f with DataFrame id _ d => if P id then len d else 0 | _ => 0 end.
Definition dataBytes (P : Z -> bool) (fs : list frame) : Z := zsum (frameBytes P) fs.
Definition writingBytes (P : Z -> bool) (w : writing) : Z :=
  match w with
  | WriteData id _ chunk _ => if P id then len chunk else 0
  | WriteHeaders _ _ _ => 0
  | WriteFrames fs => dataBytes P fs
  end.
Definition requestBytes (P : Z -> bool) (r : request) : Z :=
  match at_ r with Reserved id _ n => if P id then Z.max 0 n else 0 | _ => 0 end.
Definition writerBytes (P : Z -> bool) (w : writerState) : Z :=
  match w with Writing c => writingBytes P (what c) | _ => 0 end.
Definition used (P : Z -> bool) (σ : system) : Z :=
  dataBytes P (wire σ) + zsum (fun c => writingBytes P (what c)) (queue σ) + writerBytes P (writer σ) +
  zsum (requestBytes P) (requests σ).

Lemma grants_nonneg id l : Forall inbound_ok l -> 0 <= grants id l.
Proof.
  induction 1 as [|f l Hf Hl IH]; cbn; [lia|]. fold (grants id l). destruct f; try lia. destruct Hf as [_ Hf]. destruct (_ =? id); lia.
Qed.
Lemma frameBytes_nonneg P f : 0 <= frameBytes P f.
Proof. destruct f as [| |id e d| | | |]; cbn; try lia. destruct (P id); [apply len_nonneg|lia]. Qed.
Lemma dataBytes_nonneg P fs : 0 <= dataBytes P fs.
Proof. apply zsum_nonneg. intros; apply frameBytes_nonneg. Qed.
Lemma writingBytes_nonneg P w : 0 <= writingBytes P w.
Proof.
  destruct w as [|id e chunk b|fs]; cbn; [lia| |apply dataBytes_nonneg]. destruct (P id); [apply len_nonneg|lia].
Qed.
Lemma requestBytes_nonneg P r : 0 <= requestBytes P r.
Proof. unfold requestBytes. destruct (at_ r); try lia. destruct (P _); lia. Qed.
Lemma dataBytes_app P a b : dataBytes P (a ++ b) = dataBytes P a + dataBytes P b.
Proof. apply zsum_app. Qed.
Lemma continuations_bytes P fuel id : forall rest n, dataBytes P (continuations fuel id rest n) = 0.
Proof. unfold dataBytes. induction fuel as [|fuel IH]; intros rest n; cbn; [done|]. destruct (_ <=? _); [done|]. cbn. by rewrite IH. Qed.
Lemma framesOf_bytes P w s : dataBytes P (framesOf w s) = writingBytes P w.
Proof.
  destruct w; cbn; try done.
  - apply continuations_bytes.
  - unfold dataBytes. cbn. lia.
Qed.
Lemma prefix_bytes P a b : a `prefix_of` b -> dataBytes P a <= dataBytes P b.
Proof. intros [c ->]. rewrite dataBytes_app. pose proof (dataBytes_nonneg P c). lia. Qed.

Lemma zsum_alter {A} (f : A -> Z) (g : A -> A) l k :
  zsum f (alter g k l) = match l !! k with Some x => zsum f l - f x + f (g x) | None => zsum f l end.
Proof.
  revert k. induction l as [|x l IH]; intros [|k]; cbn; try done; [lia|]. change (list_alter g k l) with (alter g k l).
  rewrite IH. destruct (l !! k); lia.
Qed.

(** Requests and the wire may change as long as they use no more. *)
Definition requests_le (f : request -> request) : Prop := forall P r, requestBytes P (f r) <= requestBytes P r.
Lemma used_alter P f k σ : requests_le f -> used P (set_requests (alter f k (requests σ)) σ) <= used P σ.
Proof.
  intros Hf. unfold used. cbn [wire queue writer requests set_requests]. rewrite zsum_alter.
  destruct (requests σ !! k) as [r|]; [|lia]. specialize (Hf P r). lia.
Qed.
Lemma notify_at_le c : requests_le (fun r => set_at (notify_at c (at_ r)) r).
Proof. intros P r. unfold requestBytes. cbn. destruct (at_ r); cbn; lia. Qed.
Lemma used_notify P c call σ : used P (notify c call σ) <= used P σ.
Proof. unfold notify. destruct (caller call) as [k|]; [|lia]. apply used_alter, notify_at_le. Qed.
Lemma used_commit P call σ : used P (commit call σ) <= used P σ.
Proof.
  unfold commit. destruct (caller call) as [k|]; [|lia]. destruct (what call) as [| ? ? ? []|]; try lia.
  apply used_alter. intros Q r. done.
Qed.
Definition idle_place (p : place) : Prop := match p with Reserved _ _ _ => False | _ => True end.
Lemma used_move P k p σ : idle_place p -> used P (move k p σ) <= used P σ.
Proof.
  intros Hp. apply used_alter. intros Q r. unfold requestBytes at 1. cbn. pose proof (requestBytes_nonneg Q r). by destruct p.
Qed.

(** ** The invariant of the system *)

Definition id_of (p : place) : option Z :=
  match p with
  | Acquiring | WaitAdmission _ => None
  | Opened id | WritingHeaders id _ | Sending id _ | WaitFlow id _ _ | Reserved id _ _ | WritingData id _ _ _
  | Awaiting id | Resetting id | WritingReset id _ => Some id
  | Answered id _ _ => id
  end.
Definition known (s : Session) (rs : list request) : Prop := forall k r id,
  rs !! k = Some r -> id_of (at_ r) = Some id -> is_Some (objects s !! id).

Abbreviation everything := (fun _ : Z => true).
Abbreviation only id := (fun i : Z => i =? id).

Section invariant.
Context {G : GzipReader} {V : Settings}.

Record inv (σ : system) : Prop := {
  inv_core : core (session σ);
  inv_closed : closed_ok (session σ);
  inv_responses : responses_ok (session σ);
  inv_actions : Forall action_ok (actions σ);
  inv_known : known (session σ) (requests σ);
  inv_connection : connectionWindow (session σ) + used everything σ <= defaultWindowSize + grants 0 (inbox σ);
  inv_stream id st : id ∈ streams (session σ) -> objects (session σ) !! id = Some st ->
    sendWindow st + used (only id) σ <= initialStreamWindow (session σ) + grants id (inbox σ);
  inv_fresh id : nextStreamID (session σ) <= id -> used (only id) σ <= 0;
  inv_inbox : Forall inbound_ok (inbox σ)
}.

Lemma inv_quiet σ σ' : inv σ -> kept (session σ) (session σ') -> responses_ok (session σ') -> Forall action_ok (actions σ') ->
  known (session σ') (requests σ') -> (forall P, used P σ' <= used P σ) ->
  (forall id, grants id (inbox σ) <= grants id (inbox σ')) -> Forall inbound_ok (inbox σ') -> inv σ'.
Proof.
  intros [I1 I2 I3 I4 I5 I6 I7 I8 I9] (Hc & Hq & Hk) Hr Ha Hkn Hu Hg Hi.
  destruct Hq as [Q1 Q2 Q3 Q4 Q5 Q6 Q7 Q8]. constructor; try done.
  - specialize (Hu everything). specialize (Hg 0). rewrite Q1. lia.
  - intros id st' Hid Ho. destruct (core_streams _ I1 id (Q5 id Hid)) as [st Hst].
    destruct (Q6 id st Hid Hst) as (st1 & H1 & H2). simplify_eq.
    specialize (I7 id st (Q5 id Hid) Hst). specialize (Hu (only id)). specialize (Hg id). rewrite Q2. lia.
  - intros id Hid. rewrite Q3 in Hid. specialize (I8 id Hid). specialize (Hu (only id)). lia.
Qed.

Lemma known_quiet s s' rs : known s rs -> quiet s s' -> known s' rs.
Proof. intros H Hq k r id Hr Hid. apply (quiet_dom _ _ Hq). by eapply H. Qed.
Lemma known_alter s rs f k : known s rs ->
  (forall r id, rs !! k = Some r -> id_of (at_ (f r)) = Some id -> is_Some (objects s !! id)) -> known s (alter f k rs).
Proof.
  intros H Hf k' r id Hr Hid. destruct (decide (k' = k)) as [->|Hne].
  - rewrite list_lookup_alter_eq in Hr. destruct (rs !! k) as [x|] eqn:E; [|done]. cbn in Hr. simplify_eq. by eapply Hf.
  - rewrite list_lookup_alter_ne in Hr by done. by eapply H.
Qed.
(** A place without a stream, or with the stream the request had. *)
Lemma known_move s rs k r p : known s rs -> rs !! k = Some r -> (id_of p = None \/ id_of p = id_of (at_ r)) ->
  known s (alter (set_at p) k rs).
Proof.
  intros H Hr Hp. apply known_alter; [done|]. intros r' id Hr' Hid. simplify_eq. cbn in Hid.
  destruct Hp as [Hp|Hp]; rewrite Hp in Hid; [done|]. by eapply H.
Qed.
Lemma known_notify c call σ : known (session σ) (requests σ) -> known (session (notify c call σ)) (requests (notify c call σ)).
Proof.
  intros H. unfold notify. destruct (caller call) as [k|]; [|done]. cbn. apply known_alter; [done|].
  intros r id Hr. cbn. intros Hid. apply (H k r id Hr). by destruct (at_ r).
Qed.
Lemma known_commit call σ : known (session σ) (requests σ) -> known (session (commit call σ)) (requests (commit call σ)).
Proof.
  intros H. unfold commit. destruct (caller call) as [k|]; [|done]. destruct (what call) as [|? ? ? []|]; try done.
  cbn. apply known_alter; [done|]. intros r i Hr. cbn. by apply (H k r i Hr).
Qed.

Lemma used_ext P σ σ' : wire σ' = wire σ -> queue σ' = queue σ -> writer σ' = writer σ -> requests σ' = requests σ ->
  used P σ' = used P σ.
Proof. unfold used. by intros -> -> -> ->. Qed.

Lemma inv_session σ s : inv σ -> kept (session σ) s -> responses_ok s -> inv (set_session s σ).
Proof.
  intros H Hk Hr. pose proof H as [I1 I2 I3 I4 I5 I6 I7 I8 I9]. apply (inv_quiet σ); try done.
  - eapply known_quiet; [done|]. by destruct Hk as (_ & ? & _).
Qed.
Lemma inv_move σ k r p : inv σ -> requests σ !! k = Some r -> idle_place p -> (id_of p = None \/ id_of p = id_of (at_ r)) ->
  inv (move k p σ).
Proof.
  intros H Hr Hp Hid. pose proof H as [I1 I2 I3 I4 I5 I6 I7 I8 I9]. apply (inv_quiet σ); try done.
  - by apply kept_refl.
  - by eapply known_move.
  - intros P. by apply used_move.
Qed.
Lemma inv_fail σ k r id e : inv σ -> requests σ !! k = Some r -> id_of (at_ r) = Some id -> inv (failRequest k id e σ).
Proof.
  intros H Hr Hid. unfold failRequest. eapply inv_move; [|done|done|by right].
  apply inv_session; [done|apply cancelStream_kept; apply H|apply responses_cancelStream; apply H].
Qed.
Lemma inv_shutdown σ e : inv σ -> inv (set_session (shutdown e (session σ)) σ).
Proof. intros H. apply inv_session; [done|apply shutdown_kept; apply H|apply responses_shutdown; apply H]. Qed.
(** Calls in the queue and in the hands of the write loop. *)
Lemma inv_calls σ q w fs : inv σ ->
  (forall P, dataBytes P fs + zsum (fun c => writingBytes P (what c)) q + writerBytes P w <=
     dataBytes P (wire σ) + zsum (fun c => writingBytes P (what c)) (queue σ) + writerBytes P (writer σ)) ->
  inv (set_writer w (set_wire fs (set_queue q σ))).
Proof.
  intros H Hu. pose proof H as [I1 I2 I3 I4 I5 I6 I7 I8 I9]. apply (inv_quiet σ); try done.
  - by apply kept_refl.
  - intros P. specialize (Hu P). unfold used. cbn [wire queue writer requests set_writer set_wire set_queue]. lia.
Qed.
Lemma inv_notify σ c call : inv σ -> inv (notify c call σ).
Proof.
  intros H. pose proof H as [I1 I2 I3 I4 I5 I6 I7 I8 I9].
  assert (session (notify c call σ) = session σ /\ actions (notify c call σ) = actions σ /\ inbox (notify c call σ) = inbox σ) as (E1 & E2 & E3)
    by (unfold notify; by destruct (caller call)).
  apply (inv_quiet σ); rewrite ?E1, ?E2, ?E3; try done.
  - by apply kept_refl.
  - rewrite <- E1. by apply known_notify.
  - intros P. apply used_notify.
Qed.
Lemma inv_commit σ call : inv σ -> inv (commit call σ).
Proof.
  intros H. pose proof H as [I1 I2 I3 I4 I5 I6 I7 I8 I9].
  assert (session (commit call σ) = session σ /\ actions (commit call σ) = actions σ /\ inbox (commit call σ) = inbox σ) as (E1 & E2 & E3)
    by (unfold commit; by repeat case_match).
  apply (inv_quiet σ); rewrite ?E1, ?E2, ?E3; try done.
  - by apply kept_refl.
  - rewrite <- E1. by apply known_commit.
  - intros P. apply used_commit.
Qed.

(** ** Opening a stream *)

Definition opened (s : Session) : Session :=
  set_streams (<[nextStreamID s := mkStream (initialStreamWindow s) false emptyResponse None false false None 0]> (objects s))
    ({[nextStreamID s]} ∪ streams s) (set_nextStreamID (nextStreamID s + 2) s).

Lemma acquire_Ok s s' id : acquireStream s = (s', AcquireOk id) ->
  s' = opened s /\ id = nextStreamID s /\ id <= MaxInt32 /\ closeErr s = None /\ goAway s = None /\
  Z.of_nat (size (streams s)) < maxConcurrent s.
Proof.
  unfold acquireStream. destruct (closeErr s); [done|]. destruct (goAway s) as [[]|]; [done|].
  destruct (MaxInt32 <? nextStreamID s) eqn:El; [done|]. destruct (_ <? maxConcurrent s) eqn:Em; [|done]. intros [= <- <-].
  split_and!; try done; lia.
Qed.
Lemma opened_core s : core s -> core (opened s).
Proof.
  intros [C1 C2 C3 C4 C5 C6 C7].
  assert (objects s !! nextStreamID s = None) as Hnone.
  { destruct (objects s !! nextStreamID s) as [st|] eqn:E; [|done]. apply C2 in E as (_ & _ & ? & _). lia. }
  constructor; cbn; try done.
  - intros id st [[<- <-]|[Hne H]]%lookup_insert_Some.
    + cbn. split_and!; try done; try lia; [|by apply C4]. set_solver.
    + destruct (C2 id st H) as (? & ? & ? & ?). split; [done|]. split; [|split; [lia|done]].
      rewrite elem_of_union, elem_of_singleton. naive_solver.
  - intros id [->%elem_of_singleton|Hid]%elem_of_union; [rewrite lookup_insert_eq; eauto|].
    destruct (decide (id = nextStreamID s)) as [->|]; [rewrite lookup_insert_eq; eauto|rewrite lookup_insert_ne by done; auto].
  - destruct C4 as [? Ho]. split; [lia|]. by rewrite Z.odd_add, Ho.
Qed.
Lemma acquire_other s s' a : acquireStream s = (s', a) -> (forall id, a <> AcquireOk id) -> s' = s.
Proof. unfold acquireStream. intros H Ha. repeat case_match; simplify_eq; try done. by destruct (Ha (nextStreamID s)). Qed.

Lemma used_session P s σ : used P (set_session s σ) = used P σ.
Proof. done. Qed.

Lemma inv_acquire σ k r s id : inv σ -> requests σ !! k = Some r -> acquireStream (session σ) = (s, AcquireOk id) ->
  inv (move k (Opened id) (set_session s σ)).
Proof.
  intros H Hr Ha. pose proof H as [I1 I2 I3 I4 I5 I6 I7 I8 I9].
  destruct (acquire_Ok _ _ _ Ha) as (-> & -> & Hmax & Hce & _). clear Ha.
  assert (forall P, used P (move k (Opened (nextStreamID (session σ))) (set_session (opened (session σ)) σ)) <= used P σ) as Hu.
  { intros P. etransitivity; [by apply used_move|]. done. }
  constructor; cbn [session move set_requests set_session actions requests inbox]; [| | |exact I4| | | | |exact I9].
  - by apply opened_core.
  - split; cbn; [apply I2|]. intros Hd. apply (proj1 (proj1 I2)) in Hd. rewrite Hce in Hd. by destruct Hd.
  - intros id st. cbn. intros [[<- <-]|[_ Ho]]%lookup_insert_Some; [done|by eapply I3].
  - apply known_alter.
    + intros k' r' id' Hr' Hid'. cbn. destruct (I5 k' r' id' Hr' Hid') as [x Hx].
      destruct (decide (id' = nextStreamID (session σ))) as [->|]; [rewrite lookup_insert_eq; eauto|rewrite lookup_insert_ne by done; eauto].
    + intros r' id' _. cbn. intros [= <-]. rewrite lookup_insert_eq. eauto.
  - specialize (Hu everything). cbn in *. lia.
  - intros id st. cbn. intros Hid Ho. specialize (Hu (only id)). apply lookup_insert_Some in Ho as [[<- <-]|[Hne Ho]].
    + cbn. specialize (I8 (nextStreamID (session σ)) ltac:(lia)).
      pose proof (grants_nonneg (nextStreamID (session σ)) (inbox σ) I9). lia.
    + apply elem_of_union in Hid as [->%elem_of_singleton|Hid]; [done|]. specialize (I7 id st Hid Ho). lia.
  - intros id. cbn. intros Hid. specialize (Hu (only id)). specialize (I8 id ltac:(lia)). lia.
Qed.

(** ** Reserving *)

Lemma reserve_Ok id remaining s s' n : core s -> reserveSend id remaining s = (s', ReserveOk n) ->
  exists st, objects s !! id = Some st /\ finished st = false /\ 0 < n <= remaining /\ n <= maxFrameSize s /\
    n <= connectionWindow s /\ n <= sendWindow st /\
    s' = set_windows (connectionWindow s - n) (initialStreamWindow s) (set_object id (set_sendWindow (sendWindow st - n) st) s).
Proof.
  intros Hc. unfold reserveSend. destruct (objects s !! id) as [st|]; [|done]. destruct (finished st) eqn:Ef; [done|].
  destruct (0 <? _) eqn:E; [|done]. intros [= <- <-]. exists st. split_and!; try done; lia.
Qed.
Lemma reserve_other id remaining s s' a : reserveSend id remaining s = (s', a) -> (forall n, a <> ReserveOk n) -> s' = s.
Proof. unfold reserveSend. intros H Ha. repeat case_match; simplify_eq; try done. by edestruct Ha. Qed.

Lemma inv_reserve σ k r id offset s n : inv σ -> requests σ !! k = Some r -> at_ r = Sending id offset ->
  reserveSend id (len (body r) - offset) (session σ) = (s, ReserveOk n) ->
  inv (move k (Reserved id offset n) (set_session s σ)).
Proof.
  intros H Hr Hat Hres. pose proof H as [I1 I2 I3 I4 I5 I6 I7 I8 I9].
  destruct (reserve_Ok _ _ _ _ _ I1 Hres) as (st & Ho & Hf & Hn & _ & Hcw & Hsw & ->).
  destruct (core_object _ I1 id st Ho) as (D1 & D2 & D3 & D4). assert (id ∈ streams (session σ)) as Hid by by apply D2.
  assert (forall P, used P (move k (Reserved id offset n) (set_session
    (set_windows (connectionWindow (session σ) - n) (initialStreamWindow (session σ))
       (set_object id (set_sendWindow (sendWindow st - n) st) (session σ))) σ)) = used P σ + if P id then n else 0) as Hu.
  { intros P. unfold used. cbn [wire queue writer requests move set_requests set_session]. rewrite zsum_alter, Hr.
    unfold requestBytes at 2 3. cbn [at_ set_at]. rewrite Hat. destruct (P id); lia. }
  destruct I1 as [C1 C2 C3 C4 C5 C6 C7].
  constructor; cbn [session move set_requests set_session actions requests inbox]; [|exact I2| |exact I4| | | | |exact I9].
  - constructor; cbn; [done| | |done|lia|done|done].
    + intros id' x [[<- <-]|[Hne H']]%lookup_insert_Some; [done|by apply C2].
    + intros id' Hid'. destruct (decide (id' = id)) as [->|]; [rewrite lookup_insert_eq; eauto|rewrite lookup_insert_ne by done; auto].
  - apply (responses_set_object id (set_sendWindow (sendWindow st - n) st)); [done|]. exact (I3 id st Ho).
  - apply known_alter.
    + intros k' r' id' Hr' Hid'. cbn. destruct (I5 k' r' id' Hr' Hid') as [x Hx].
      destruct (decide (id' = id)) as [->|]; [rewrite lookup_insert_eq; eauto|rewrite lookup_insert_ne by done; eauto].
    + intros r' id' _. cbn. intros [= <-]. rewrite lookup_insert_eq. eauto.
  - rewrite Hu. cbn. lia.
  - intros id' x. cbn. intros Hid' Hx. rewrite Hu. apply lookup_insert_Some in Hx as [[<- <-]|[Hne Hx]].
    + rewrite Z.eqb_refl. cbn. specialize (I7 id st Hid Ho). lia.
    + rewrite (proj2 (Z.eqb_neq id id')) by done. specialize (I7 id' x Hid' Hx). lia.
  - intros id' Hid'. cbn in Hid'. rewrite Hu. rewrite (proj2 (Z.eqb_neq id id')) by lia. specialize (I8 id' Hid'). lia.
Qed.

(** ** Receiving *)

Lemma grants_app id l f : inbound_ok f -> Forall inbound_ok l ->
  grants id (l ++ [f]) = grants id l + match f with InWindowUpdate i n => if i =? id then n else 0 | _ => 0 end /\
  grants id l <= grants id (l ++ [f]).
Proof.
  intros Hf Hl. unfold grants. rewrite zsum_app. cbn. split; [lia|].
  destruct f; try lia. destruct Hf as [_ Hf]. destruct (_ =? id); lia.
Qed.

Definition received f s acts σ := set_inbox (inbox σ ++ [f]) (set_reader s acts false σ).

(** Frames that change no window. *)
Lemma inv_receive_kept σ f s acts : inv σ -> inbound_ok f -> kept (session σ) s -> responses_ok s -> Forall action_ok acts ->
  inv (received f s acts σ).
Proof.
  intros H Hf Hk Hr Ha. pose proof H as [I1 I2 I3 I4 I5 I6 I7 I8 I9]. apply (inv_quiet σ); try done.
  - eapply known_quiet; [exact I5|]. by destruct Hk as (_ & ? & _).
  - intros id. by apply grants_app.
  - apply Forall_app. split; [done|]. by apply Forall_singleton.
Qed.

Lemma inv_connection_update σ n : inv σ -> 0 < n <= maxWindowSize -> connectionWindow (session σ) + n <= maxWindowSize ->
  inv (received (InWindowUpdate 0 n) (signalFlowLocked (set_windows (connectionWindow (session σ) + n)
    (initialStreamWindow (session σ)) (session σ))) [] σ).
Proof.
  intros H Hn Hmax. pose proof H as [I1 I2 I3 I4 I5 I6 I7 I8 I9]. destruct I1 as [C1 C2 C3 C4 C5 C6 C7].
  assert (inbound_ok (InWindowUpdate 0 n)) as Hf by by split.
  constructor; cbn [session received set_inbox set_reader actions requests inbox].
  - constructor; cbn; [done|exact C2|exact C3|done|lia|done|done].
  - exact I2.
  - exact I3.
  - constructor.
  - exact I5.
  - destruct (grants_app 0 (inbox σ) _ Hf I9) as [-> _]. rewrite Z.eqb_refl. cbn. change (used everything _) with (used everything σ). lia.
  - intros id st Hid Ho. destruct (grants_app id (inbox σ) _ Hf I9) as [_ Hg]. specialize (I7 id st Hid Ho). cbn.
    change (used (only id) _) with (used (only id) σ). lia.
  - exact I8.
  - apply Forall_app. split; [done|]. by apply Forall_singleton.
Qed.

Lemma inv_stream_update σ id st n : inv σ -> 0 <= id -> 0 < n <= maxWindowSize -> active id (session σ) = Some st ->
  inv (received (InWindowUpdate id n) (signalFlowLocked (set_object id (set_sendWindow (sendWindow st + n) st) (session σ))) [] σ).
Proof.
  intros H H0 Hn Ha. pose proof H as [I1 I2 I3 I4 I5 I6 I7 I8 I9]. apply active_Some in Ha as (Hid & Ho & Hfin); [|done].
  assert (inbound_ok (InWindowUpdate id n)) as Hf by by split. destruct I1 as [C1 C2 C3 C4 C5 C6 C7].
  constructor; cbn [session received set_inbox set_reader actions requests inbox].
  - constructor; cbn; [done| | |done|done|done|done].
    + intros id' x [[<- <-]|[Hne H']]%lookup_insert_Some; [exact (C2 id st Ho)|exact (C2 id' x H')].
    + intros id' Hid'. destruct (decide (id' = id)) as [->|]; [rewrite lookup_insert_eq; eauto|rewrite lookup_insert_ne by done; auto].
  - exact I2.
  - apply (responses_set_object id (set_sendWindow (sendWindow st + n) st)); [done|]. exact (I3 id st Ho).
  - constructor.
  - intros k r id' Hr Hid'. cbn. destruct (I5 k r id' Hr Hid') as [x Hx].
    destruct (decide (id' = id)) as [->|]; [rewrite lookup_insert_eq; eauto|rewrite lookup_insert_ne by done; eauto].
  - destruct (grants_app 0 (inbox σ) _ Hf I9) as [_ Hg]. cbn. change (used everything _) with (used everything σ). lia.
  - intros id' x. cbn. intros Hid' Hx. change (used (only id') _) with (used (only id') σ).
    destruct (grants_app id' (inbox σ) _ Hf I9) as [Hg Hg']. apply lookup_insert_Some in Hx as [[<- <-]|[Hne Hx]].
    + rewrite Hg, Z.eqb_refl. cbn. specialize (I7 id st Hid Ho). lia.
    + specialize (I7 id' x Hid' Hx). lia.
  - exact I8.
  - apply Forall_app. split; [done|]. by apply Forall_singleton.
Qed.

(** A change of the initial window moves every open stream along. *)
Record resized (s s' : Session) : Prop := {
  rs_core : core s';
  rs_close : closeErr s' = closeErr s /\ doneClosed s' = doneClosed s;
  rs_connection : connectionWindow s' = connectionWindow s;
  rs_next : nextStreamID s' = nextStreamID s;
  rs_streams : streams s' = streams s;
  rs_object id : is_Some (objects s' !! id) <-> is_Some (objects s !! id);
  rs_window id st' : id ∈ streams s -> objects s' !! id = Some st' ->
    exists st, objects s !! id = Some st /\ sendWindow st' - initialStreamWindow s' = sendWindow st - initialStreamWindow s
}.
Lemma applySettings_resized `{!SettingsLaws V} l : forall s, core s -> resized s (applySettings l s).1.
Proof.
  assert (forall s, core s -> resized s s) as Hrefl.
  { intros s Hs. constructor; try done. eauto. }
  induction l as [|[id v] l IH]; intros s Hc; cbn [applySettings]; [by apply Hrefl|].
  destruct (settingValid id v) eqn:Ev; cbn [negb]; [|by apply Hrefl].
  match goal with |- resized s (applySettings l ?x).1 => assert (resized s x) as [R1 R2 R3 R4 R5 R6 R7] end.
  { destruct (id =? SettingInitialWindowSize) eqn:E1.
    - assert (id = SettingInitialWindowSize) as -> by lia. pose proof (valid_window v Ev) as Hv. destruct Hc as [C1 C2 C3 C4 C5 C6 C7].
      constructor; try done.
      + constructor; cbn; try done.
        * intros id' st'. rewrite map_lookup_imap. destruct (objects s !! id') as [st|] eqn:E; cbn; [|done].
          intros [= <-]. destruct (C2 id' st E) as (? & ? & ? & ?). case_bool_decide; done.
        * intros id' Hid'. rewrite map_lookup_imap. destruct (C3 id' Hid') as [st ->]. cbn. eauto.
      + intros id'. cbn. rewrite map_lookup_imap. destruct (objects s !! id'); cbn; split; eauto.
      + intros id' st' Hid'. cbn. rewrite map_lookup_imap. destruct (objects s !! id') as [st|] eqn:E; cbn; [|done].
        intros [= <-]. rewrite bool_decide_eq_true_2 by done. exists st. split; [done|]. cbn. lia.
    - destruct (id =? SettingMaxFrameSize) eqn:E2.
      + assert (id = SettingMaxFrameSize) as -> by lia. pose proof (valid_frame v Ev) as Hv. destruct Hc as [C1 C2 C3 C4 C5 C6 C7].
        constructor; try done; eauto. constructor; try done; cbn; lia.
      + destruct (id =? SettingMaxConcurrentStreams); [|by apply Hrefl]. destruct Hc as [C1 C2 C3 C4 C5 C6 C7].
        constructor; try done; eauto. }
  destruct (IH _ R1) as [S1 S2 S3 S4 S5 S6 S7]. constructor; try done; try congruence.
  - destruct R2, S2. split; congruence.
  - intros i. by rewrite S6, R6.
  - intros i st' Hi Ho. destruct (S7 i st') as (st1 & H1 & H2); [by rewrite R5|done|].
    destruct (R7 i st1 Hi H1) as (st & H3 & H4). exists st. split; [done|lia].
Qed.

Lemma inv_settings σ f s acts : inv σ -> inbound_ok f -> (forall id n, f <> InWindowUpdate id n) ->
  resized (session σ) s -> responses_ok s -> Forall action_ok acts -> inv (received f s acts σ).
Proof.
  intros H Hf Hnw [R1 R2 R3 R4 R5 R6 R7] Hresp Ha. pose proof H as [I1 I2 I3 I4 I5 I6 I7 I8 I9].
  destruct R2 as [E1 E2].
  constructor; cbn [session received set_inbox set_reader actions requests inbox]; try assumption.
  - destruct I2 as [K1 K2]. split; rewrite ?E1, ?E2, ?R5; done.
  - intros k r id Hr Hid. apply R6. by eapply I5.
  - destruct (grants_app 0 (inbox σ) _ Hf I9) as [_ Hg]. rewrite R3. change (used everything _) with (used everything σ). lia.
  - intros id st' Hid Ho. rewrite R5 in Hid. destruct (R7 id st' Hid Ho) as (st & Hst & Hw).
    destruct (grants_app id (inbox σ) _ Hf I9) as [_ Hg]. specialize (I7 id st Hid Hst).
    change (used (only id) _) with (used (only id) σ). lia.
  - intros id Hid. rewrite R4 in Hid. exact (I8 id Hid).
  - apply Forall_app. split; [done|]. by apply Forall_singleton.
Qed.
Lemma handleData_ok id data ended : Forall action_ok (handleData id data ended).
Proof. unfold handleData. repeat case_match; by repeat constructor. Qed.

Lemma inv_receive `{!SettingsLaws V} σ f s acts : inv σ -> inbound_ok f -> receive f (session σ) = (s, acts) ->
  inv (received f s acts σ).
Proof.
  intros H Hf Hrec. pose proof H as [I1 I2 I3 I4 I5 I6 I7 I8 I9].
  assert (kept (session σ) (session σ)) as Hrefl by by apply kept_refl.
  destruct f as [f|id data ended|id code|last code|id n|ack settings|ack data| | |id code|]; cbn in Hrec.
  - destruct (handleHeaders_responses _ _ _ _ I1 I2 I3 Hrec) as (? & ? & ?). by apply inv_receive_kept.
  - simplify_eq. apply inv_receive_kept; try done. apply handleData_ok.
  - simplify_eq. apply inv_receive_kept; try done. by repeat constructor.
  - simplify_eq. apply inv_receive_kept; try done; [by apply handleGoAway_spec|by apply responses_handleGoAway].
  - unfold handleWindowUpdate in Hrec. destruct Hf as [H0 Hn]. destruct (id =? 0) eqn:E0.
    + assert (id = 0) as -> by lia. destruct (maxWindowSize <? _) eqn:E; simplify_eq.
      * apply inv_receive_kept; [done|by split|done|done|by repeat constructor].
      * apply inv_connection_update; [done|done|lia].
    + destruct (active id (session σ)) as [st|] eqn:Ea; [destruct (maxWindowSize <? _) eqn:E|]; simplify_eq.
      * apply inv_receive_kept; [done|by split|done|done|by repeat constructor].
      * by apply inv_stream_update.
      * apply inv_receive_kept; [done|by split| |done|constructor]. split_and!; [by apply core_signal|apply quiet_signal|done].
  - destruct ack; [simplify_eq; apply inv_receive_kept; try done; constructor|].
    pose proof (applySettings_resized settings _ I1) as Hres. pose proof (responses_applySettings settings _ I3) as Hr.
    destruct (applySettings settings (session σ)) as [s1 [e|]]; simplify_eq; apply inv_settings; try done; by repeat constructor.
  - destruct ack; simplify_eq; apply inv_receive_kept; try done; by repeat constructor.
  - simplify_eq. apply inv_receive_kept; try done. by repeat constructor.
  - simplify_eq. by apply inv_receive_kept.
  - simplify_eq. apply inv_receive_kept; try done. by repeat constructor.
  - simplify_eq. apply inv_receive_kept; try done. by repeat constructor.
Qed.

Lemma act_kept a s s' acts : core s -> closed_ok s -> responses_ok s -> action_ok a -> act a s = (s', acts) ->
  kept s s' /\ responses_ok s' /\ Forall action_ok acts.
Proof.
  intros Hc Hk Hr Ha. destruct a as [id r e|w|id data ended|id status hs|e]; cbn.
  - intros [= <- <-]. split_and!; [by apply finishStream_kept| |constructor]. apply responses_finishStream; [done|]. by intros ->.
  - intros [= <- <-]. split_and!; [by apply kept_refl|done|constructor].
  - by apply dataSection_responses.
  - intros [= <- <-]. split_and!; [by apply kept_refl|done|constructor].
  - intros [= <- <-]. split_and!; [by apply shutdown_kept|by apply responses_shutdown|constructor].
Qed.
Lemma inv_reader σ s acts b : inv σ -> kept (session σ) s -> responses_ok s -> Forall action_ok acts -> inv (set_reader s acts b σ).
Proof.
  intros H Hk Hr Ha. pose proof H as [I1 I2 I3 I4 I5 I6 I7 I8 I9]. apply (inv_quiet σ); try done.
  eapply known_quiet; [exact I5|]. by destruct Hk as (_ & ? & _).
Qed.
(** ** Requests *)

Lemma inv_requests σ rs : inv σ -> known (session σ) rs -> (forall P, zsum (requestBytes P) rs <= zsum (requestBytes P) (requests σ)) ->
  inv (set_requests rs σ).
Proof.
  intros H Hkn Hu. pose proof H as [I1 I2 I3 I4 I5 I6 I7 I8 I9]. apply (inv_quiet σ); try done.
  - by apply kept_refl.
  - intros P. specialize (Hu P). unfold used. cbn [wire queue writer requests set_requests]. lia.
Qed.
Lemma inv_new σ blk bdy : inv σ -> inv (set_requests (requests σ ++ [mkProcess blk bdy false Acquiring false]) σ).
Proof.
  intros H. apply inv_requests; [done| |].
  - intros k r id [Hr|[_ Hr]]%lookup_app_Some; [by eapply (inv_known _ H)|].
    apply list_lookup_singleton_Some in Hr as [_ <-]. done.
  - intros P. rewrite zsum_app. cbn. lia.
Qed.
Lemma inv_cancel σ k : inv σ -> inv (set_requests (alter set_ctxDone k (requests σ)) σ).
Proof.
  intros H. apply inv_requests; [done| |].
  - apply known_alter; [apply H|]. intros r id Hr. by apply (inv_known _ H k r id Hr).
  - intros P. rewrite zsum_alter. destruct (requests σ !! k) as [r|]; [|lia].
    change (requestBytes P (set_ctxDone r)) with (requestBytes P r). lia.
Qed.
Lemma inv_enqueue σ k r p call : inv σ -> requests σ !! k = Some r -> id_of p = id_of (at_ r) ->
  (forall P, writingBytes P (what call) + requestBytes P (set_at p r) <= requestBytes P r) ->
  inv (move k p (set_queue (queue σ ++ [call]) σ)).
Proof.
  intros H Hr Hid Hu. pose proof H as [I1 I2 I3 I4 I5 I6 I7 I8 I9]. apply (inv_quiet σ); try done.
  - by apply kept_refl.
  - eapply known_move; [exact I5|exact Hr|by right].
  - intros P. specialize (Hu P). unfold used. cbn [wire queue writer requests move set_requests set_queue].
    rewrite zsum_alter, Hr, zsum_app. cbn. lia.
Qed.
Lemma inv_queue σ w b rest : inv σ -> (forall P, writingBytes P w <= 0) -> Forall action_ok rest ->
  inv (set_reader (session σ) rest b (set_queue (queue σ ++ [mkCall None false w]) σ)).
Proof.
  intros H Hw Ha. pose proof H as [I1 I2 I3 I4 I5 I6 I7 I8 I9]. apply (inv_quiet σ); try done.
  - by apply kept_refl.
  - intros P. specialize (Hw P). unfold used. cbn [wire queue writer requests set_reader set_queue]. rewrite zsum_app. cbn. lia.
Qed.
Lemma control_bytes P fs : Forall control fs -> dataBytes P fs = 0.
Proof. induction 1 as [|f fs Hf _ IH]; [done|]. cbn. fold (dataBytes P fs). rewrite IH. by destruct f. Qed.

Lemma inv_readStep `{!SettingsLaws V} σ σ' : readStep σ σ' -> inv σ -> inv σ'.
Proof.
  intros Hs H. destruct Hs as
    [f s acts _ _ Hf Hr|a rest s acts Ha Hnq Hact|w rest Ha _|w rest Ha _].
  - by apply inv_receive.
  - pose proof (inv_actions _ H) as Has. rewrite Ha in Has. apply Forall_cons in Has as [Ha1 Ha2].
    destruct (act_kept _ _ _ _ (inv_core _ H) (inv_closed _ H) (inv_responses _ H) Ha1 Hact) as (? & ? & ?).
    apply inv_reader; try done. by apply Forall_app.
  - pose proof (inv_actions _ H) as Has. rewrite Ha in Has. apply Forall_cons in Has as [Ha1 Ha2].
    apply inv_queue; [done| |done]. intros P. destruct w as [| |fs]; try done. cbn. by rewrite control_bytes.
  - pose proof (inv_actions _ H) as Has. rewrite Ha in Has. apply Forall_cons in Has as [_ Ha2].
    apply inv_reader; try done; [|apply H]. apply kept_refl; apply H.
Qed.
Lemma inv_writeStep `{!SettingsLaws V} σ σ' : writeStep σ σ' -> inv σ -> inv σ'.
Proof.
  intros Hs H. destruct Hs as
    [c q Hw Hq _|c q Hw Hq _|c Hw|c fs Hw Hfs|Hw|Hw _].
  - apply inv_notify, (inv_calls σ q (writer σ) (wire σ)); [done|]. intros P. rewrite Hq. cbn.
    pose proof (writingBytes_nonneg P (what c)). lia.
  - apply inv_notify, (inv_calls σ q (Writing c) (wire σ)); [done|]. intros P. rewrite Hq, Hw. cbn. lia.
  - apply inv_notify, inv_commit, (inv_calls σ (queue σ) WriterIdle (wire σ ++ _)); [done|]. intros P.
    rewrite dataBytes_app, framesOf_bytes, Hw. cbn. lia.
  - apply inv_notify, inv_commit, (inv_calls σ (queue σ) WriterFailing (wire σ ++ fs)); [done|]. intros P.
    apply (prefix_bytes P) in Hfs. rewrite framesOf_bytes in Hfs. rewrite dataBytes_app, Hw. cbn. lia.
  - apply (inv_calls (set_session (shutdown ReadWriteError (session σ)) σ) (queue σ) WriterStopped (wire σ)); [by apply inv_shutdown|].
    intros P. cbn [wire queue writer set_session]. rewrite Hw. cbn [writerBytes]. lia.
  - apply (inv_calls σ (queue σ) WriterStopped (wire σ)); [done|]. intros P. rewrite Hw. cbn. lia.
Qed.
Lemma inv_requestStep `{!SettingsLaws V} σ σ' : requestStep σ σ' -> inv σ -> inv σ'.
Proof.
  intros Hs H. destruct Hs as
    [blk bdy|k
    |k r s a Hr Hat Hacq|k r n Hr Hat _|k r n e Hr Hat _|k r id Hr Hat _ _|k r id offset n Hr Hat _ _
    |k r id e Hr Hat _|k r id Hr Hat|k r id offset n Hr Hat|k r id c e Hr Hat _
    |k r id offset s a Hr Hat _ _ Hres|k r id offset n Hr Hat _|k r id offset n st Hr Hat Ho
    |k r id offset Hr Hat _|k r id st Hr Hat _ _|k r id Hr Hat _|k r id Hr Hat _|k r id Hr Hat _|k r id Hr Hat].
  - by apply inv_new.
  - by apply inv_cancel.
  - destruct a as [e|id|n]; [|by eapply inv_acquire|].
    all: rewrite (acquire_other _ _ _ Hacq) by done; eapply (inv_move (set_session (session σ) σ)); [by destruct σ|done|done|by left].
  - eapply inv_move; [done..|by left].
  - eapply inv_move; [done..|by left].
  - eapply inv_enqueue; [done|done|by rewrite Hat|]. intros P. cbn. apply requestBytes_nonneg.
  - eapply inv_enqueue; [done|done|by rewrite Hat|]. intros P. unfold requestBytes. rewrite Hat. cbn. destruct (P id); [|lia].
    unfold len. rewrite length_take. lia.
  - eapply inv_fail; [done|done|]. by destruct Hat as [->|(? & ? & ->)].
  - eapply inv_move; [done..|right; by rewrite Hat].
  - eapply inv_move; [done..|right; by rewrite Hat].
  - eapply inv_fail; [done|done|]. by destruct Hat as [->|(? & ? & ->)].
  - destruct a as [e|n|n]; [|by eapply inv_reserve|].
    all: rewrite (reserve_other _ _ _ _ _ Hres) by done; eapply (inv_move (set_session (session σ) σ)); [by destruct σ|done|by repeat case_match|].
    all: right; rewrite Hat; by repeat case_match.
  - eapply inv_move; [done..|right; by rewrite Hat].
  - assert (id_of (at_ r) = Some id) as Hid by (by destruct Hat as [[-> _]|[-> _]]).
    destruct (finished st); [by eapply inv_move; [done..|right; rewrite Hid]|].
    destruct (ctxDone r); [by eapply inv_move; [done..|right; rewrite Hid]|by eapply inv_fail].
  - eapply inv_move; [done..|right; by rewrite Hat].
  - eapply inv_move; [done..|right; by rewrite Hat].
  - eapply inv_move; [done..|right; by rewrite Hat].
  - eapply inv_move; [done..|right; by rewrite Hat].
  - eapply inv_enqueue; [done|done|by rewrite Hat|]. intros P. cbn. apply requestBytes_nonneg.
  - eapply inv_fail; [done|done|]. by destruct Hat as [[-> _]|(c & -> & _)].
Qed.
Lemma h2_inv_step `{!SettingsLaws V} σ σ' : step σ σ' -> inv σ -> inv σ'.
Proof.
  intros Hs H. destruct Hs as [σ' Hs|σ' Hs|σ' Hs|].
  - by eapply inv_readStep.
  - by eapply inv_writeStep.
  - by eapply inv_requestStep.
  - by apply inv_shutdown.
Qed.

Lemma h2_inv_initial `{!SettingsLaws V} settings σ : initial settings = Some σ -> inv σ.
Proof.
  unfold initial. assert (core newSession) as Hc.
  { by constructor. }
  destruct (applySettings_resized settings newSession Hc) as [R1 R2 R3 R4 R5 R6 R7].
  assert (responses_ok (applySettings settings newSession).1) as Hr by (apply responses_applySettings; by intros ? ? ?).
  destruct (applySettings settings newSession) as [s [e|]]; [done|]. intros [= <-]. cbn in *.
  constructor; cbn [session actions requests inbox]; try done.
  - destruct R2 as [E1 E2]. split; rewrite ?E1, ?E2; [split; [done|by intros []]|done].
  - rewrite R3. done.
  - intros id st Hid. rewrite R5 in Hid. by apply elem_of_empty in Hid.
  - by apply Forall_singleton.
Qed.
Lemma h2_inv_reachable `{!SettingsLaws V} σ : reachable σ -> inv σ.
Proof.
  intros (settings & σ0 & H0 & Hσ). apply h2_inv_initial in H0. induction Hσ as [σ|σ1 σ2 σ3 Hs _ IH]; [done|].
  apply IH. by eapply h2_inv_step.
Qed.
End invariant.

(** ** The answers of requests *)
Section answers.
Context {G : GzipReader} {V : Settings}.

Definition answered_ok (p : place) : Prop := match p with Answered _ resp None => final_ok resp | _ => True end.
Definition answered (rs : list request) : Prop := Forall (fun r => answered_ok (at_ r)) rs.

Lemma answered_alter f k rs : answered rs -> (forall r, rs !! k = Some r -> answered_ok (at_ r) -> answered_ok (at_ (f r))) ->
  answered (alter f k rs).
Proof. intros H Hf. apply Forall_alter; [done|]. intros r Hr Ho. by apply Hf. Qed.
Lemma answered_move k p σ : answered (requests σ) -> answered_ok p -> answered (requests (move k p σ)).
Proof. intros H Hp. by apply answered_alter. Qed.
Lemma answered_notify c call σ : answered (requests σ) -> answered (requests (notify c call σ)).
Proof.
  intros H. unfold notify. destruct (caller call); [|done]. apply answered_alter; [done|]. intros r _ Hr. cbn. by destruct (at_ r).
Qed.
Lemma answered_commit call σ : answered (requests σ) -> answered (requests (commit call σ)).
Proof. intros H. unfold commit. repeat case_match; try done. by apply answered_alter. Qed.
Lemma answered_stream σ id st : inv σ -> objects (session σ) !! id = Some st -> finished st = true ->
  answered_ok (Answered (Some id) (response st) (err st)).
Proof. intros H Ho Hf. cbn. destruct (err st) eqn:E; [done|]. by apply (inv_responses _ H id st). Qed.

Lemma answered_step σ σ' : inv σ -> step σ σ' -> answered (requests σ) -> answered (requests σ').
Proof.
  intros Hi Hs H. destruct Hs as [? []|? []|? []|]; try done; try (by apply answered_move).
  - by apply answered_notify.
  - by apply answered_notify.
  - by apply answered_notify, answered_commit.
  - by apply answered_notify, answered_commit.
  - apply Forall_app. split; [done|]. by apply Forall_singleton.
  - by apply answered_alter.
  - apply answered_move; [done|]. by repeat case_match.
  - apply answered_move; [done|]. unfold reserveSend in *. destruct (objects (session σ) !! id) as [st|] eqn:Eo.
    + destruct (finished st) eqn:Ef; [|repeat case_match; simplify_eq; done]. simplify_eq. rewrite Eo. by eapply answered_stream.
    + simplify_eq. rewrite Eo. done.
  - destruct (finished st) eqn:Ef; [|by destruct (ctxDone r); apply answered_move].
    apply answered_move; [done|]. by eapply answered_stream.
  - apply answered_move; [done|]. eapply answered_stream; [done|done|].
    destruct (core_object _ (inv_core _ Hi) id st) as (<- & _); done.
Qed.
Lemma answered_reachable `{!SettingsLaws V} σ : reachable σ -> answered (requests σ).
Proof.
  intros (settings & σ0 & H0 & Hσ). pose proof (h2_inv_initial _ _ H0) as Hi. assert (answered (requests σ0)) as Ha.
  { unfold initial in H0. repeat case_match; simplify_eq. constructor. }
  clear H0. induction Hσ as [σ|σ1 σ2 σ3 Hs _ IH]; [done|]. apply IH; [by eapply h2_inv_step|by eapply answered_step].
Qed.
End answers.

(** ** Theorems *)
Section theorems.
Context {G : GzipReader} {V : Settings} `{L : !SettingsLaws V}.

(** C12. In every reachable state of an HTTP/2 session no channel has been closed
    twice, a stream has an odd id, its channel is closed exactly when it is finished
    and it is in the map exactly as long as it is not, the session is closed exactly
    when it has an error, and then every stream is finished. *)
Theorem session_is_consistent σ : reachable σ ->
  panicked (session σ) = false /\
  (forall id st, objects (session σ) !! id = Some st ->
     Z.odd id = true /\ done st = finished st /\ (finished st = false <-> id ∈ streams (session σ))) /\
  (doneClosed (session σ) = true <-> is_Some (closeErr (session σ))) /\
  (doneClosed (session σ) = true -> forall id st, objects (session σ) !! id = Some st -> finished st = true).
Proof.
  intros H. pose proof (h2_inv_reachable σ H) as [Hc [Hk1 Hk2] _ _ _ _ _ _ _]. split_and!; [apply Hc| |done|].
  - intros id st Ho. destruct (core_object _ Hc id st Ho) as (? & ? & ? & ?). done.
  - intros Hd id st Ho. destruct (core_object _ Hc id st Ho) as (_ & Hf & _). rewrite (Hk2 Hd) in Hf.
    destruct (finished st); [done|]. pose proof (proj1 Hf eq_refl) as Hid. by apply elem_of_empty in Hid.
Qed.

(** C13. Whatever the interleaving of requests, settings and window updates, the
    connection window stays between 0 and 2^31-1, all DATA on the wire together with
    what is left of the window never exceeds the initial 65535 bytes and the credit
    of the peer, and so for every open stream with the initial window of the current
    settings. *)
Theorem flow_control_is_respected σ : reachable σ ->
  0 <= connectionWindow (session σ) <= maxWindowSize /\
  connectionWindow (session σ) + dataBytes everything (wire σ) <= defaultWindowSize + grants 0 (inbox σ) /\
  (forall id st, id ∈ streams (session σ) -> objects (session σ) !! id = Some st ->
     sendWindow st + dataBytes (only id) (wire σ) <= initialStreamWindow (session σ) + grants id (inbox σ)).
Proof.
  intros H. pose proof (h2_inv_reachable σ H) as [Hc _ _ _ _ Hconn Hstr _ _].
  assert (forall P, dataBytes P (wire σ) <= used P σ) as Hu.
  { intros P. unfold used. assert (0 <= zsum (fun c => writingBytes P (what c)) (queue σ)) by (apply zsum_nonneg; intros; apply writingBytes_nonneg).
    assert (0 <= zsum (requestBytes P) (requests σ)) by (apply zsum_nonneg; intros; apply requestBytes_nonneg).
    assert (0 <= writerBytes P (writer σ)) by (destruct (writer σ); cbn; try lia; apply writingBytes_nonneg). lia. }
  split_and!; [apply Hc|apply Hc| |].
  - specialize (Hu everything). lia.
  - intros id st Hid Ho. specialize (Hstr id st Hid Ho). specialize (Hu (only id)). lia.
Qed.

(** A GOAWAY frame never raises the acceptance bound, ends exactly the open
    streams above it with the GOAWAY error, leaves the others as they are, and from
    then on the session is not reusable and opens no stream. *)
Theorem goaway_settles_streams σ last code : reachable σ ->
  let s := session σ in
  let s' := (receive (InGoAway last code) s).1 in
  exists bound c, goAway s' = Some (bound, c) /\ bound <= last /\
    (forall b0 c0, goAway s = Some (b0, c0) -> bound <= b0) /\
    (forall id st, objects s !! id = Some st -> finished st = false ->
       objects s' !! id = Some (if bound <? id then set_finished emptyResponse (Some (GoAwayError bound c)) st else st)) /\
    (forall id, id ∈ streams s' <-> id ∈ streams s /\ id <= bound) /\
    Reusable s' = false /\ forall s2 id, acquireStream s' <> (s2, AcquireOk id).
Proof.
  intros H s s'. pose proof (h2_inv_reachable σ H) as [Hc Hk _ _ _ _ _ _ _].
  destruct (handleGoAway_spec last code s Hc Hk) as (_ & Hg & Hce & _ & Hs & Hf & Hkeep).
  set (g := match goAway s with Some (l, c) => if last <? l then (last, code) else (l, c) | None => (last, code) end) in *.
  exists g.1, g.2. change s' with (handleGoAway last code s). split_and!.
  - rewrite Hg. by destruct g.
  - unfold g. destruct (goAway s) as [[l c]|]; [destruct (last <? l) eqn:E|]; cbn; lia.
  - intros b0 c0 E0. unfold g. rewrite E0. destruct (last <? b0) eqn:E; cbn; lia.
  - intros id st Ho Hfin. assert (id ∈ streams s) by by apply (core_object _ Hc id st Ho).
    destruct (g.1 <? id) eqn:E; [apply Hf; [done|lia|done]|]. rewrite Hkeep by lia. done.
  - exact Hs.
  - unfold Reusable. rewrite Hg, Hce. by destruct (closeErr s).
  - intros s2 id. unfold acquireStream. rewrite Hg. destruct g. by destruct (closeErr _).
Qed.

(** *** Requests of a closed session *)

(** A closed session stays closed. *)
Lemma fold_finish_closed (P : Z -> bool) r e l : forall s,
  doneClosed (fold_left (fun s id => if P id then finishLocked id r e s else s) l s) = doneClosed s.
Proof. induction l as [|i l IH]; intros s; cbn [fold_left]; [done|]. rewrite IH. destruct (P i); [apply finishLocked_frame|done]. Qed.
Lemma receive_closed f s : doneClosed (receive f s).1 = doneClosed s.
Proof.
  destruct f as [f|id data ended|id code|last code|id n|[] l|[] data| | |id code|]; cbn [receive fst]; try done.
  - unfold handleHeaders. repeat case_match; done.
  - unfold handleGoAway. set (g := match goAway s with Some _ => _ | None => _ end). cbn [signalAdmissionLocked doneClosed].
    by rewrite (fold_finish_closed (fun id => g.1 <? id)).
  - unfold handleWindowUpdate. repeat case_match; simplify_eq; done.
  - destruct (applySettings l s) as [s' e] eqn:E. replace s' with (applySettings l s).1 by by rewrite E.
    replace (doneClosed s) with (doneClosed (applySettings l s).1); [by destruct e|]. clear E. revert s.
    induction l as [|[id v] l IH]; intros s; [done|]. cbn [applySettings]. destruct (negb _); [done|].
    rewrite IH. destruct (id =? _); [done|]. destruct (id =? _); [done|]. by destruct (id =? _).
Qed.
Lemma shutdown_closed e s : doneClosed (shutdown e s) = true.
Proof. unfold shutdown. by destruct (doneClosed s) eqn:E. Qed.
Lemma finish_closed id r e s : doneClosed (finishStream id r e s) = doneClosed s.
Proof. unfold finishStream. case_match; [apply finishLocked_frame|done]. Qed.
Lemma cancel_closed id e s : doneClosed (cancelStream id e s) = doneClosed s.
Proof. unfold cancelStream. repeat case_match; [done|apply finishLocked_frame|done]. Qed.
Lemma act_closed a s : doneClosed s = true -> doneClosed (act a s).1 = true.
Proof.
  intros H. destruct a as [id r e|w|id data ended|id st hs|e]; cbn [act fst]; [by rewrite finish_closed|done| |done|apply shutdown_closed].
  unfold dataSection. repeat case_match; done.
Qed.
Lemma acquire_closed s s' a : acquireStream s = (s', a) -> doneClosed s = true -> doneClosed s' = true.
Proof. unfold acquireStream. intros H Hd. repeat case_match; simplify_eq; done. Qed.
Lemma reserve_closed id n s s' a : reserveSend id n s = (s', a) -> doneClosed s = true -> doneClosed s' = true.
Proof. unfold reserveSend. intros H Hd. repeat case_match; simplify_eq; done. Qed.

(** How many steps of its own a request of a closed session takes at most. *)
Definition remaining (p : place) : nat :=
  match p with
  | WaitAdmission _ => 11 | Acquiring => 10 | Opened _ => 9 | WritingHeaders _ _ => 8 | Reserved _ _ _ => 7
  | WritingData _ _ _ _ => 6 | WaitFlow _ _ _ => 5 | Sending _ _ => 4 | Awaiting _ => 3 | Resetting _ => 2
  | WritingReset _ _ => 1 | Answered _ _ _ => 0
  end.
Definition hasAnswer (r : request) : Prop := exists id resp e, at_ r = Answered id resp e.

(** A step of the [Do] of request [k]: it moves this request, and no other. *)
Definition ownStep (k : nat) (σ σ' : system) : Prop :=
  requestStep σ σ' /\ exists r p, requests σ !! k = Some r /\ p <> at_ r /\ requests σ' = alter (set_at p) k (requests σ).

(** An infinite run of the session, and one that is fair to request [k]: its [Do] does
    not rest for ever while it could go on. *)
Definition runs (σ : system) (run : nat -> system) : Prop := run 0%nat = σ /\ forall i, step (run i) (run (S i)).
Definition fair (k : nat) (run : nat -> system) : Prop :=
  forall i, exists j, (i <= j)%nat /\ (ownStep k (run j) (run (S j)) \/ forall σ', ~ ownStep k (run j) σ').

Lemma move_lookup k r p σ : requests σ !! k = Some r -> requests (move k p σ) !! k = Some (set_at p r).
Proof. intros Hr. unfold move. cbn. by rewrite list_lookup_alter_eq, Hr. Qed.
Lemma closed_streams σ k r id : inv σ -> doneClosed (session σ) = true -> requests σ !! k = Some r -> id_of (at_ r) = Some id ->
  exists st, objects (session σ) !! id = Some st /\ finished st = true.
Proof.
  intros Hi Hd Hr Hid. destruct (inv_known _ Hi k r id Hr Hid) as [st Ho]. destruct (core_object _ (inv_core _ Hi) id st Ho) as (E & Hf & _).
  rewrite (proj2 (inv_closed _ Hi) Hd) in Hf. exists st. destruct (finished st); [done|].
  pose proof (proj1 Hf eq_refl) as Hx. by apply elem_of_empty in Hx.
Qed.

(** Moving a request [k'] leaves [k] where it is, or is a move of [k] itself. *)
Definition nearer (p p' : place) : Prop := p' = p \/ (remaining p' < remaining p)%nat.
Lemma nearer_move (k k' : nat) r r' p (rs : list request) : rs !! k = Some r -> rs !! k' = Some r' -> (remaining p < remaining (at_ r'))%nat ->
  exists r1, alter (set_at p) k' rs !! k = Some r1 /\ nearer (at_ r) (at_ r1).
Proof.
  intros Hr Hr' Hp. destruct (decide (k' = k)) as [->|Hne]; [|rewrite list_lookup_alter_ne by done; exists r; split; [done|by left]].
  rewrite list_lookup_alter_eq, Hr. eexists. split; [done|]. simplify_eq. by right.
Qed.
Lemma request_nearer σ σ' k r : inv σ -> doneClosed (session σ) = true -> requestStep σ σ' -> requests σ !! k = Some r ->
  doneClosed (session σ') = true /\ exists r', requests σ' !! k = Some r' /\ nearer (at_ r) (at_ r').
Proof.
  intros Hi Hd Hstep Hr.
  assert (forall k' r' p s, requests σ !! k' = Some r' -> (remaining p < remaining (at_ r'))%nat -> doneClosed s = true ->
    doneClosed (session (move k' p (set_session s σ))) = true /\
    exists r1, requests (move k' p (set_session s σ)) !! k = Some r1 /\ nearer (at_ r) (at_ r1)) as Hgo.
  { intros k' r' p s Hr' Hp Hs. split; [done|]. by eapply nearer_move. }
  pose proof (fun k' r' p Hr' Hp => Hgo k' r' p (session σ) Hr' Hp Hd) as Hmove.
  assert (forall k' r' id e, requests σ !! k' = Some r' -> (0 < remaining (at_ r'))%nat ->
    doneClosed (session (failRequest k' id e σ)) = true /\
    exists r1, requests (failRequest k' id e σ) !! k = Some r1 /\ nearer (at_ r) (at_ r1)) as Hfail.
  { intros k' r' id e Hr' Hp. apply (Hgo k' r'); [done|exact Hp|by rewrite cancel_closed]. }
  assert (exists r1, requests σ !! k = Some r1 /\ nearer (at_ r) (at_ r1)) as Hstay by (exists r; split; [done|by left]).
  destruct Hstep as [blk bdy|k'|k' r' s a Hr' Ha Hq|k' r' n Hr' Ha|k' r' n e Hr' Ha|k' r' id Hr' Ha|k' r' id offset n Hr' Ha|k' r' id e Hr' Ha
    |k' r' id Hr' Ha|k' r' id offset n Hr' Ha|k' r' id c e Hr' Ha|k' r' id offset s a Hr' Ha Hlt Hc Hq|k' r' id offset n Hr' Ha|k' r' id offset n st Hr' Ha Ho
    |k' r' id offset Hr' Ha|k' r' id st Hr' Ha|k' r' id Hr' Ha|k' r' id Hr' Ha|k' r' id Hr' Ha|k' r' id Hr' Ha].
  - split; [done|]. exists r. split; [by apply lookup_app_l_Some|by left].
  - split; [done|]. cbn. destruct (decide (k' = k)) as [->|]; [|by rewrite list_lookup_alter_ne].
    rewrite list_lookup_alter_eq, Hr. eexists. split; [done|by left].
  - apply (Hgo k' r'); [done| |by eapply acquire_closed]. destruct (proj1 (proj1 (inv_closed _ Hi)) Hd) as [e Ee].
    unfold acquireStream in Hq. rewrite Ee in Hq. simplify_eq. rewrite Ha. cbn. lia.
  - apply (Hmove k' r'); [done|]. rewrite Ha. cbn. lia.
  - apply (Hmove k' r'); [done|]. rewrite Ha. cbn. lia.
  - apply (Hmove k' r'); [done|]. rewrite Ha. cbn. lia.
  - apply (Hmove k' r'); [done|]. rewrite Ha. cbn. lia.
  - apply (Hfail k' r'); [done|]. destruct Ha as [Ha|(offset & n & Ha)]; rewrite Ha; cbn; lia.
  - apply (Hmove k' r'); [done|]. rewrite Ha. cbn. lia.
  - apply (Hmove k' r'); [done|]. rewrite Ha. cbn. lia.
  - apply (Hfail k' r'); [done|]. destruct Ha as [Ha|(offset & n & Ha)]; rewrite Ha; cbn; lia.
  - apply (Hgo k' r'); [done| |by eapply reserve_closed]. destruct (closed_streams σ k' r' id Hi Hd Hr') as (st & Ho & Hf); [by rewrite Ha|].
    unfold reserveSend in Hq. rewrite Ho, Hf in Hq. simplify_eq. rewrite Ho, Ha. cbn. lia.
  - apply (Hmove k' r'); [done|]. rewrite Ha. cbn. lia.
  - assert (2 < remaining (at_ r'))%nat as Hp by (destruct Ha as [[-> _]|[-> _]]; cbn; lia).
    destruct (finished st); [apply (Hmove k' r'); [done|cbn; lia]|]. destruct (ctxDone r'); [by apply (Hmove k' r')|].
    apply (Hfail k' r'); [done|lia].
  - apply (Hmove k' r'); [done|]. rewrite Ha. cbn. lia.
  - apply (Hmove k' r'); [done|]. rewrite Ha. cbn. lia.
  - apply (Hmove k' r'); [done|]. rewrite Ha. cbn. lia.
  - apply (Hmove k' r'); [done|]. rewrite Ha. cbn. lia.
  - apply (Hmove k' r'); [done|]. rewrite Ha. cbn. lia.
  - apply (Hfail k' r'); [done|]. destruct Ha as [[-> _]|(c & -> & _)]; cbn; lia.
Qed.

(** The write loop changes only the state of the write that a request waits for. *)
Lemma notify_remaining c p : remaining (notify_at c p) = remaining p.
Proof. by destruct p. Qed.
Lemma notify_nearer c call k r σ : requests σ !! k = Some r ->
  exists r', requests (notify c call σ) !! k = Some r' /\ (remaining (at_ r') <= remaining (at_ r))%nat.
Proof.
  intros Hr. unfold notify. destruct (caller call) as [k'|]; [|by exists r]. cbn.
  destruct (decide (k' = k)) as [->|]; [|rewrite list_lookup_alter_ne by done; by exists r].
  rewrite list_lookup_alter_eq, Hr. eexists. split; [done|]. cbn. by rewrite notify_remaining.
Qed.
Lemma commit_nearer call k r σ : requests σ !! k = Some r ->
  exists r', requests (commit call σ) !! k = Some r' /\ at_ r' = at_ r.
Proof.
  intros Hr. unfold commit. destruct (caller call) as [k'|]; [|by exists r]. destruct (what call) as [|? ? ? []|]; try by exists r. cbn.
  destruct (decide (k' = k)) as [->|]; [|rewrite list_lookup_alter_ne by done; by exists r].
  rewrite list_lookup_alter_eq, Hr. by eexists.
Qed.
Lemma notify_session c call σ : session (notify c call σ) = session σ.
Proof. unfold notify. by destruct (caller call). Qed.
Lemma commit_session call σ : session (commit call σ) = session σ.
Proof. unfold commit. destruct (caller call); [|done]. by destruct (what call) as [|? ? ? []|]. Qed.

Lemma step_nearer σ σ' k r : inv σ -> doneClosed (session σ) = true -> step σ σ' -> requests σ !! k = Some r ->
  doneClosed (session σ') = true /\ exists r', requests σ' !! k = Some r' /\ (remaining (at_ r') <= remaining (at_ r))%nat.
Proof.
  intros Hi Hd Hstep Hr.
  assert (exists r', requests σ !! k = Some r' /\ (remaining (at_ r') <= remaining (at_ r))%nat) as Hstay by by exists r.
  destruct Hstep as [σ' H|σ' H|σ' H|].
  - destruct H as [f s acts _ _ _ E|a rest s acts _ _ E| |]; cbn; (split; [|done]); try done.
    + replace s with (receive f (session σ)).1 by by rewrite E. by rewrite receive_closed.
    + replace s with (act a (session σ)).1 by by rewrite E. by apply act_closed.
  - destruct H as [c q|c q|c|c fs| |]; rewrite ?notify_session, ?commit_session; cbn; try (split; [done|]); try done.
    + by apply notify_nearer.
    + by apply notify_nearer.
    + edestruct commit_nearer as (r1 & H1 & E1); [|edestruct notify_nearer as (r2 & H2 & E2); [exact H1|exists r2; split; [exact H2|]]]; [done|]. by rewrite <- E1.
    + edestruct commit_nearer as (r1 & H1 & E1); [|edestruct notify_nearer as (r2 & H2 & E2); [exact H1|exists r2; split; [exact H2|]]]; [done|]. by rewrite <- E1.
    + split; [apply shutdown_closed|done].
  - destruct (request_nearer _ _ k r Hi Hd H Hr) as (? & r' & ? & Hn). split; [done|]. exists r'. split; [done|]. destruct Hn as [->|]; lia.
  - split; [apply shutdown_closed|done].
Qed.

(** A step of its own brings a request nearer to its answer. *)
Lemma ownStep_nearer σ σ' k r : inv σ -> doneClosed (session σ) = true -> ownStep k σ σ' -> requests σ !! k = Some r ->
  exists r', requests σ' !! k = Some r' /\ (remaining (at_ r') < remaining (at_ r))%nat.
Proof.
  intros Hi Hd (Hstep & r0 & p & Hr0 & Hp & Hrs) Hr. assert (r0 = r) as -> by congruence. destruct (request_nearer _ _ k r Hi Hd Hstep Hr) as (_ & r' & Hr' & Hn).
  exists r'. split; [done|]. destruct Hn as [Hn|]; [|done]. exfalso. rewrite Hrs, list_lookup_alter_eq, Hr in Hr'. injection Hr' as <-. by apply Hp.
Qed.
Lemma own_now k r p σ σ' : requests σ !! k = Some r -> p <> at_ r -> requestStep σ σ' ->
  requests σ' = alter (set_at p) k (requests σ) -> exists σ', ownStep k σ σ'.
Proof. intros Hr Hp Hs Hq. exists σ'. split; [done|]. by exists r, p. Qed.

(** A request of a closed session that has no answer can go on, wherever it is. *)
Lemma closed_goes_on σ k r : inv σ -> doneClosed (session σ) = true -> requests σ !! k = Some r ->
  hasAnswer r \/ exists σ', ownStep k σ σ'.
Proof.
  intros Hi Hd Hr.
  assert (forall id, id_of (at_ r) = Some id -> exists st, objects (session σ) !! id = Some st /\ finished st = true) as Hst
    by (intros id; by apply (closed_streams σ k r id)).
  unfold hasAnswer. destruct (at_ r) as [|n|id|id c|id offset|id offset n|id offset n|id offset n c|id|id|id c|id resp e] eqn:Hat; [right..|left; eauto];
    try (destruct (Hst _ eq_refl) as (st & Ho & Hf)).
  - destruct (proj1 (proj1 (inv_closed _ Hi)) Hd) as [e Ee].
    eapply own_now; [done| |eapply (step_acquire _ k r (session σ) (AcquireError e)); [done|done|]|done]; [by rewrite Hat|].
    unfold acquireStream. by rewrite Ee.
  - eapply own_now; [done| |eapply step_admission_gone; [done|done|by right]|done]. by rewrite Hat.
  - eapply own_now; [done| |eapply step_write_gone; [done|by left|by right]|done]. by rewrite Hat.
  - eapply own_now; [done| |eapply (step_write_failed _ k r id c); [done|by left|by repeat right]|done]. by rewrite Hat.
  - destruct (decide (offset < len (body r))) as [Hlt|Hge].
    + destruct (ctxDone r) eqn:Ec.
      * eapply (own_now k r (Answered (Some id) (response st) (err st))); [done|by rewrite Hat|eapply (step_flow_gone _ k r id offset 0%nat st); [done|by right|done]|]. by rewrite Hf.
      * eapply (own_now k r (Answered (Some id) (response st) (err st))); [done|by rewrite Hat|eapply (step_reserve _ k r id offset (session σ) (ReserveError (default EOFError (err st)))); [done|done|done|done|]|].
        { unfold reserveSend. by rewrite Ho, Hf. }
        cbn. by rewrite Ho.
    + eapply (own_now k r (Awaiting id)); [done|by rewrite Hat|eapply step_sent; [done|done|lia]|done].
  - eapply (own_now k r (Answered (Some id) (response st) (err st))); [done|by rewrite Hat|eapply (step_flow_gone _ k r id offset n st); [done|left; auto|done]|]. by rewrite Hf.
  - eapply own_now; [done| |eapply step_write_gone; [done|right; eauto|by right]|done]. by rewrite Hat.
  - eapply own_now; [done| |eapply (step_write_failed _ k r id c); [done|right; eauto|by repeat right]|done]. by rewrite Hat.
  - eapply own_now; [done| |by eapply step_await_closed|done]. by rewrite Hat.
  - eapply own_now; [done| |eapply step_reset_done; [done|by left]|done]. by rewrite Hat.
  - eapply own_now; [done| |eapply step_reset_done; [done|right; eauto]|done]. by rewrite Hat.
Qed.

Lemma run_reachable σ run i : reachable σ -> runs σ run -> reachable (run i).
Proof.
  intros H [H0 Hs]. induction i as [|i (l & σ0 & Hl & Hrun)]; [by rewrite H0|]. exists l, σ0. split; [done|]. eapply rtc_r; [done|apply Hs].
Qed.
Lemma run_nearer σ run k i : reachable σ -> runs σ run -> doneClosed (session (run i)) = true ->
  forall r, requests (run i) !! k = Some r -> forall j, (i <= j)%nat -> doneClosed (session (run j)) = true /\
    exists r', requests (run j) !! k = Some r' /\ (remaining (at_ r') <= remaining (at_ r))%nat.
Proof.
  intros H Hrun Hd r Hr j Hj. induction Hj as [|j Hj (Hd' & r' & Hr' & Hle)]; [split; [done|by exists r]|].
  destruct (step_nearer (run j) (run (S j)) k r') as (? & r2 & ? & ?); [by eapply h2_inv_reachable, run_reachable|done|by apply Hrun|done|].
  split; [done|]. exists r2. split; [done|lia].
Qed.
Lemma fair_answers σ run k : reachable σ -> runs σ run -> fair k run -> forall n i r,
  doneClosed (session (run i)) = true -> requests (run i) !! k = Some r -> (remaining (at_ r) <= n)%nat ->
  exists j r', requests (run j) !! k = Some r' /\ hasAnswer r'.
Proof.
  intros H Hrun Hfair. induction n as [|n IH]; intros i r Hd Hr Hn.
  { exists i, r. split; [done|]. unfold hasAnswer. destruct (at_ r); cbn in Hn; try lia. eauto. }
  destruct (Hfair i) as (j & Hj & Ho). destruct (run_nearer σ run k i H Hrun Hd r Hr j Hj) as (Hd' & r' & Hr' & Hle).
  pose proof (h2_inv_reachable _ (run_reachable σ run j H Hrun)) as Hi. destruct Ho as [Ho|Hnone].
  - destruct (ownStep_nearer _ _ k r' Hi Hd' Ho Hr') as (r2 & Hr2 & Hlt). apply (IH (S j) r2); [|done|lia].
    apply (run_nearer σ run k j H Hrun Hd' r' Hr' (S j)). lia.
  - exists j, r'. split; [done|]. destruct (closed_goes_on _ k r' Hi Hd' Hr') as [?|[σ' Hs]]; [done|]. by destruct (Hnone σ').
Qed.

(** C16. Once a session is closed, a request that has no answer yet is always able
    to take a step of its own, wherever it waits and whatever the other goroutines
    do; each step of its own brings it nearer to its answer, of which it is at most
    eleven steps away; and so it gets its answer in every run that does not neglect
    it for ever. *)
Theorem closing_answers_every_request σ k r run : reachable σ -> doneClosed (session σ) = true -> requests σ !! k = Some r ->
  runs σ run -> fair k run ->
  (forall i, exists r', requests (run i) !! k = Some r' /\ (hasAnswer r' \/ exists σ', ownStep k (run i) σ')) /\
  (forall i r1 r2, requests (run i) !! k = Some r1 -> requests (run (S i)) !! k = Some r2 ->
     ownStep k (run i) (run (S i)) -> (remaining (at_ r2) < remaining (at_ r1) <= 11)%nat) /\
  exists i r', requests (run i) !! k = Some r' /\ hasAnswer r'.
Proof.
  intros H Hd Hr Hrun Hfair. pose proof Hrun as [H0 _]. rewrite <- H0 in Hd, Hr.
  assert (forall i, inv (run i)) as Hi by (intros i; by eapply h2_inv_reachable, run_reachable).
  pose proof (fun i => run_nearer σ run k 0 H Hrun Hd r Hr i (Nat.le_0_l i)) as Hall. split_and!.
  - intros i. destruct (Hall i) as (Hdi & r' & Hr' & _). exists r'. split; [done|]. by apply closed_goes_on.
  - intros i r1 r2 H1 H2 Ho. destruct (Hall i) as (Hdi & _). destruct (ownStep_nearer _ _ k r1 (Hi i) Hdi Ho H1) as (r' & Hr' & Hlt).
    simplify_eq. split; [done|]. destruct (at_ r1); cbn; lia.
  - by eapply (fair_answers σ run k H Hrun Hfair _ 0%nat r Hd Hr).
Qed.
End theorems.

(** ** Runs *)
Module Demo.

(** Settings as [xhttp2.Setting.Valid] checks them, and a connection without gzip. *)
Instance settings : Settings := fun id v =>
  if id =? SettingInitialWindowSize then (0 <=? v) && (v <=? maxWindowSize)
  else if id =? SettingMaxFrameSize then (defaultFrameSize <=? v) && (v <=? 16777215)
  else true.
Instance settings_laws : SettingsLaws settings.
Proof. split; intros v; unfold settings; cbn -[Z.leb]; intros [? ?]%andb_prop; lia. Qed.
Instance gzip : GzipReader := fun _ _ => None.
Instance gzip_limit : GzipLimit gzip.
Proof. by intros ? ? ? ? ?. Qed.

(** One step of a run, whose premises are computed. *)
Ltac premise := first [done | by vm_compute | by vm_compute; lia | by left; vm_compute | by right; vm_compute].
Tactic Notation "run" uconstr(c) :=
  eapply rtc_l; [first [eapply step_read, c|eapply step_write, c|eapply step_request, c|eapply c]; premise|];
  match goal with |- rtc step ?s ?t => let s' := eval vm_compute in s in change s with s' end.

(** A request of three bytes that is answered. *)
Definition answer : MetaHeadersFrame :=
  mkMetaHeaders 1 [mkHeader2 (B ":status") (B "200")] [mkHeader2 (B "content-length") (B "2")] false false.
Lemma answered_run : exists σ, reachable σ /\
  (exists r resp, requests σ !! 0%nat = Some r /\ at_ r = Answered (Some 1) resp None /\ Body2 resp = [104; 105]) /\
  dataBytes everything (wire σ) = 3.
Proof.
  eexists. split.
  - exists [(SettingInitialWindowSize, 2)]. eexists. split; [vm_compute; reflexivity|].
    run (step_new _ [7] [1; 2; 3]). run (step_acquire _ 0). run (step_headers _ 0). run step_write_start. run step_write_ok.
    run (step_headers_written _ 0). run (step_reserve _ 0). run (step_data _ 0). run step_write_start. run step_write_ok.
    run (step_data_written _ 0). run (step_reserve _ 0). run (step_receive _ (InWindowUpdate 1 5)). run (step_flow _ 0).
    run (step_reserve _ 0). run (step_data _ 0). run step_write_start. run step_write_ok. run (step_data_written _ 0).
    run (step_sent _ 0). run (step_receive _ (InHeaders answer)). run step_act.
    run (step_receive _ (InData 1 [104; 105] true)). run step_queue. run step_act. run step_act. run (step_answer _ 0).
    apply rtc_refl.
  - split; [cbn; eauto|reflexivity].
Qed.

(** The session is closed while a request waits for its answer. *)
Lemma closed_run : exists σ, reachable σ /\ doneClosed (session σ) = true /\
  exists r, requests σ !! 0%nat = Some r /\ at_ r = Awaiting 1.
Proof.
  eexists. split.
  - exists []. eexists. split; [vm_compute; reflexivity|].
    run (step_new _ [7] []). run (step_acquire _ 0). run (step_headers _ 0). run step_write_start. run step_write_ok.
    run (step_headers_written _ 0). run (step_sent _ 0). run step_close. apply rtc_refl.
  - split; [done|]. eauto.
Qed.

Lemma session_is_consistent_witness : exists σ, reachable σ /\ panicked (session σ) = false.
Proof.
  destruct closed_run as (σ & H & _). exists σ. split; [exact H|]. exact (proj1 (session_is_consistent σ H)).
Defined.
Lemma flow_control_is_respected_witness : exists σ, reachable σ /\ dataBytes everything (wire σ) = 3 /\
  connectionWindow (session σ) + dataBytes everything (wire σ) <= defaultWindowSize + grants 0 (inbox σ).
Proof.
  destruct answered_run as (σ & H & _ & Hw). exists σ. split; [exact H|]. split; [exact Hw|].
  exact (proj1 (proj2 (flow_control_is_respected σ H))).
Defined.
Lemma goaway_settles_streams_witness : exists σ, reachable σ /\ Reusable (receive (InGoAway 0 0) (session σ)).1 = false.
Proof.
  destruct closed_run as (σ & H & _). exists σ. split; [exact H|].
  destruct (goaway_settles_streams σ 0 0 H) as (b & c & _ & _ & _ & _ & _ & Hr & _). exact Hr.
Defined.
(** From there, the request takes its answer and then nothing happens to it. *)
Definition answering (σ : system) (i : nat) : system :=
  match i with
  | O => σ
  | S _ => move 0 (Answered (Some 1) emptyResponse (Some (sessionErrorOf (session σ)))) σ
  end.
Lemma answering_runs σ r : doneClosed (session σ) = true -> requests σ !! 0%nat = Some r -> at_ r = Awaiting 1 ->
  runs σ (answering σ) /\ ownStep 0 σ (answering σ 1).
Proof.
  intros Hd Hr Hat. assert (requestStep σ (answering σ 1)) as Hs by by eapply step_await_closed.
  split; [split; [done|]|].
  - intros [|i]; [by apply step_request|]. cbn. set (σ' := move _ _ _).
    replace σ' with (set_session (shutdown ErrSessionClosed (session σ')) σ') at 2; [apply step_close|].
    unfold shutdown. change (doneClosed (session σ')) with (doneClosed (session σ)). rewrite Hd. by destruct σ'.
  - split; [done|]. exists r. eexists. split; [done|]. split; [|done]. by rewrite Hat.
Qed.
Lemma answering_fair σ r : reachable σ -> doneClosed (session σ) = true -> requests σ !! 0%nat = Some r -> at_ r = Awaiting 1 ->
  fair 0 (answering σ).
Proof.
  intros H Hd Hr Hat i. destruct (answering_runs σ r Hd Hr Hat) as [Hrun Hown]. destruct i as [|i]; [exists 0%nat; split; [done|by left]|].
  exists (S i). split; [done|]. right. intros σ' Ho.
  pose proof (h2_inv_reachable _ (run_reachable σ (answering σ) (S i) H Hrun)) as Hi.
  destruct (ownStep_nearer _ _ 0 _ Hi Hd Ho (move_lookup 0 r _ σ Hr)) as (r' & _ & Hlt). cbn in Hlt. lia.
Qed.
Lemma closing_answers_every_request_witness : exists σ r run, reachable σ /\ requests σ !! 0%nat = Some r /\ ~ hasAnswer r /\
  runs σ run /\ fair 0 run /\ exists i r', requests (run i) !! 0%nat = Some r' /\ hasAnswer r'.
Proof.
  destruct closed_run as (σ & H & Hd & r & Hr & Hat). destruct (answering_runs σ r Hd Hr Hat) as [Hrun _].
  pose proof (answering_fair σ r H Hd Hr Hat) as Hfair. exists σ, r, (answering σ).
  split; [exact H|]. split; [exact Hr|]. split; [intros (id & resp & e & Ha); rewrite Hat in Ha; discriminate Ha|].
  split; [exact Hrun|]. split; [exact Hfair|].
  exact (proj2 (proj2 (closing_answers_every_request σ 0 r (answering σ) H Hd Hr Hrun Hfair))).
Defined.
End Demo.

(** ** Interleavings that go wrong *)
Import Demo.

(** Stream ids are handed out before the headers are queued, so with two
    requests the HEADERS of stream 3 can reach the wire before those of stream 1. *)
Theorem streams_may_open_out_of_order : exists σ, reachable (G := Demo.gzip) (V := Demo.settings) σ /\
  wire σ = [HeadersFrame 3 [7] true true; HeadersFrame 1 [7] true true].
Proof.
  eexists. split.
  - exists []. eexists. split; [vm_compute; reflexivity|]. run (step_new _ [7] []). run (step_new _ [7] []).
    run (step_acquire _ 0). run (step_acquire _ 1). run (step_headers _ 1). run step_write_start.
    run step_write_ok. run (step_headers _ 0). run step_write_start. run step_write_ok. apply rtc_refl.
  - reflexivity.
Qed.

(** A request that is cancelled between the reservation of its data and the
    write keeps the reserved bytes: all requests are answered, nothing is queued,
    only the HEADERS frame is on the wire, no reset has been sent, and the window of
    the open session is 3 bytes short. *)
Theorem cancelled_write_leaks_window : exists σ, reachable (G := Demo.gzip) (V := Demo.settings) σ /\
  closeErr (session σ) = None /\ streams (session σ) = ∅ /\ Forall (fun r => exists id e, at_ r = Answered id emptyResponse e) (requests σ) /\
  actions σ = [] /\ queue σ = [] /\ writer σ = WriterIdle /\
  wire σ = [HeadersFrame 1 [7] true false] /\ connectionWindow (session σ) = defaultWindowSize - 3.
Proof.
  eexists. split.
  - exists []. eexists. split; [vm_compute; reflexivity|]. run (step_new _ [7] [1; 2; 3]).
    run (step_acquire _ 0). run (step_headers _ 0). run step_write_start. run step_write_ok.
    run (step_headers_written _ 0). run (step_reserve _ 0). run (step_cancel _ 0).
    eapply rtc_l; [eapply step_request, (step_write_gone _ 0); [reflexivity|right; eauto|by left]|]. apply rtc_refl.
  - split_and!; try done. apply Forall_singleton. cbn. eauto.
Qed.
