(* ===== verification/H2Wire.v ===== *)
(** * Requests on the wire of an HTTP/2 session (internal/h2/session.go)

    What the frames on the wire carry of a request: pieces of its header block, then
    pieces of its body in order, whatever the interleaving of the goroutines.  The
    invariant ties the place of a request to the bytes on the wire and to the call in
    the channel of the write loop. *)
From S2P Require Import Prelude GoText Errors Response H2Frame H2Session H2System.

(** ** What frames carry of a stream *)

Definition headerPart (id : Z) (f : frame) : bytes :=
  match f with
  | HeadersFrame i b _ _ | ContinuationFrame i _ b => if i =? id then b else []
  | _ => []
  end.
Definition dataPart (id : Z) (f : frame) : bytes := match f with DataFrame i _ b => if i =? id then b else [] | _ => [] end.
Definition endPart (id : Z) (f : frame) : bool :=
  match f with HeadersFrame i _ _ e | DataFrame i e _ => (i =? id) && e | _ => false end.

Definition headerBytes (id : Z) (fs : list frame) : bytes := concat (map (headerPart id) fs).
Definition dataOf (id : Z) (fs : list frame) : bytes := concat (map (dataPart id) fs).
Definition ended (id : Z) (fs : list frame) : bool := existsb (endPart id) fs.

(** The three together. *)
Record carried := mkCarried { cHeader : bytes; cData : bytes; cEnded : bool }.
Definition carry (id : Z) (fs : list frame) : carried := mkCarried (headerBytes id fs) (dataOf id fs) (ended id fs).
Definition plus (a b : carried) : carried :=
  mkCarried (cHeader a ++ cHeader b) (cData a ++ cData b) (cEnded a || cEnded b).
Definition nothing : carried := mkCarried [] [] false.

Lemma carry_app id a b : carry id (a ++ b) = plus (carry id a) (carry id b).
Proof. unfold carry, plus, headerBytes, dataOf, ended. cbn. by rewrite !map_app, !concat_app, existsb_app. Qed.
Lemma plus_nothing a : plus a nothing = a.
Proof. destruct a as [h d e]. unfold plus. cbn. by rewrite !app_nil_r, orb_false_r. Qed.
Lemma nothing_plus a : plus nothing a = a.
Proof. by destruct a. Qed.

(** Frames of other streams, and control frames, carry nothing. *)
Definition foreign (id : Z) (f : frame) : Prop := control f \/ stream_of f <> id.
Lemma carry_foreign id fs : Forall (foreign id) fs -> carry id fs = nothing.
Proof.
  induction 1 as [|f fs Hf _ IH]; [done|]. change (f :: fs) with ([f] ++ fs). rewrite carry_app, IH, plus_nothing.
  unfold carry, headerBytes, dataOf, ended. cbn. destruct Hf as [Hf|Hf]; destruct f; cbn in *; try done;
    rewrite (proj2 (Z.eqb_neq _ _) Hf); done.
Qed.

Lemma continuations_carry id n : 0 < n -> forall fuel rest, (length rest <= fuel)%nat ->
  carry id (continuations fuel id rest n) = mkCarried rest [] false.
Proof.
  intros Hn. induction fuel as [|fuel IH]; intros rest Hf; [by destruct rest; cbn in *; [|lia]|]. cbn [continuations].
  destruct (len rest <=? 0) eqn:E; [by rewrite (len_zero rest) by (pose proof (len_nonneg rest); lia)|].
  set (k := Z.to_nat (Z.min n (len rest))). rewrite <- (app_nil_l (continuations _ _ _ _)), app_comm_cons, carry_app.
  rewrite IH by (rewrite length_drop; unfold k, len in *; lia). unfold plus, carry, headerBytes, dataOf, ended. cbn.
  by rewrite Z.eqb_refl, app_nil_r, take_drop.
Qed.
Lemma writeHeaderBlock_carry id b e n : 0 < n -> carry id (writeHeaderBlock id b e n) = mkCarried b [] e.
Proof.
  intros Hn. unfold writeHeaderBlock. set (k := Z.to_nat _).
  rewrite <- (app_nil_l (continuations _ _ _ _)), app_comm_cons, carry_app.
  rewrite continuations_carry by (rewrite ?length_drop; lia). unfold plus, carry, headerBytes, dataOf, ended. cbn.
  by rewrite Z.eqb_refl, app_nil_r, take_drop, !orb_false_r.
Qed.

(** A write that fails leaves a part of its frames. *)
Lemma carry_prefix id a b : a `prefix_of` b ->
  cHeader (carry id a) `prefix_of` cHeader (carry id b) /\ cData (carry id a) `prefix_of` cData (carry id b) /\
  (cEnded (carry id a) = true -> cEnded (carry id b) = true).
Proof.
  intros [c ->]. rewrite carry_app. cbn. split_and!; [by eexists|by eexists|]. by intros ->.
Qed.

(** ** Stages of a request *)

Definition headersCall (id : Z) (r : request) : writing := WriteHeaders id (block r) (body r ==? []).
Definition dataCall (id : Z) (r : request) (offset n : Z) : writing :=
  WriteData id (offset + n =? len (body r)) (take (Z.to_nat n) (drop (Z.to_nat offset) (body r))) (offset =? 0).

(** All of the header block and [offset] bytes of the body. *)
Definition sentTo (r : request) (offset : Z) : carried :=
  mkCarried (block r) (take (Z.to_nat offset) (body r)) (offset =? len (body r)).

(** What holds of the bytes on the wire at any time. *)
Record resting (r : request) (c : carried) : Prop := {
  rest_header : cHeader c `prefix_of` block r;
  rest_data : cData c `prefix_of` body r;
  rest_order : cData c <> [] -> cHeader c = block r;
  rest_ended : cEnded c = true -> cData c = body r
}.

Definition chunk_ok (r : request) (offset n : Z) : Prop := 0 <= offset /\ 0 < n /\ offset + n <= len (body r).

(** At most one call of a request is with the write loop, and the wire is where the
    call takes over. *)
Inductive pending (id : Z) (r : request) : carried -> list writing -> Prop :=
| pending_none c : resting r c -> pending id r c []
| pending_headers : pending id r nothing [headersCall id r]
| pending_data offset n : chunk_ok r offset n -> pending id r (sentTo r offset) [dataCall id r offset n].

Definition stage (id : Z) (r : request) (p : place) (c : carried) (calls : list writing) : Prop :=
  match p with
  | Opened _ => c = nothing /\ calls = []
  | WritingHeaders _ (Waiting | Started) => c = nothing /\ calls = [headersCall id r]
  | WritingHeaders _ (Returned true) => c = sentTo r 0 /\ calls = []
  | Sending _ offset | WaitFlow _ offset _ => 0 <= offset <= len (body r) /\ c = sentTo r offset /\ calls = []
  | Reserved _ offset n => chunk_ok r offset n /\ c = sentTo r offset /\ calls = []
  | WritingData _ offset n (Waiting | Started) => chunk_ok r offset n /\ c = sentTo r offset /\ calls = [dataCall id r offset n]
  | WritingData _ offset n (Returned true) => chunk_ok r offset n /\ c = sentTo r (offset + n) /\ calls = []
  | Awaiting _ => c = sentTo r (len (body r)) /\ calls = []
  | WritingHeaders _ (Returned false) | WritingData _ _ _ (Returned false) | Resetting _ | WritingReset _ _ =>
    resting r c /\ calls = []
  | _ => pending id r c calls
  end.

Lemma resting_nothing r : resting r nothing.
Proof. constructor; cbn; try done; apply prefix_nil. Qed.
Lemma resting_sentTo r offset : resting r (sentTo r offset).
Proof.
  constructor; cbn; try done; [apply prefix_take|]. intros ->%Z.eqb_eq. unfold len. rewrite Nat2Z.id. apply firstn_all.
Qed.
#[local] Hint Resolve resting_nothing resting_sentTo : core.
#[local] Hint Constructors pending : core.

Lemma stage_pending id r p c calls : stage id r p c calls -> pending id r c calls.
Proof.
  destruct p as [| | |? [| |[]]| | | |? ? ? [| |[]]| | | |]; cbn; try done; intros H; destruct_and?; simplify_eq; auto.
Qed.
(** Only the header block and the body of the request matter. *)
Lemma resting_ext r r' c : block r = block r' -> body r = body r' -> resting r c -> resting r' c.
Proof. intros H1 H2 [A1 A2 A3 A4]. constructor; rewrite <- ?H1, <- ?H2; done. Qed.
Lemma stage_ext id r r' p c cs : block r = block r' -> body r = body r' -> stage id r p c cs -> stage id r' p c cs.
Proof.
  intros H1 H2. assert (pending id r c cs -> pending id r' c cs) as Hp.
  { destruct r as [b bd ? ? ?], r' as [b' bd' x y z]. cbn in *. subst b' bd'. intros [c0 Hr| |offset n Hc].
    - constructor. destruct Hr as [A1 A2 A3 A4]. by constructor.
    - exact (pending_headers id (mkProcess b bd x y z)).
    - exact (pending_data id (mkProcess b bd x y z) offset n Hc). }
  destruct p as [| | |? [| |[]]| | | |? ? ? [| |[]]| | | |]; cbn [stage]; try done;
    unfold chunk_ok, sentTo, headersCall, dataCall; rewrite <- ?H1, <- ?H2; try done;
    (intros [Hr ->]; split; [|done]; by apply (resting_ext r)).
Qed.
(** A stage without a call. *)
Lemma stage_resting id r p c : stage id r p c [] -> resting r c.
Proof. intros H%stage_pending. by inversion H. Qed.

Lemma sentTo_plus r offset n : chunk_ok r offset n ->
  plus (sentTo r offset) (mkCarried [] (take (Z.to_nat n) (drop (Z.to_nat offset) (body r))) (offset + n =? len (body r)))
  = sentTo r (offset + n).
Proof.
  intros (H0 & Hn & Hl). unfold plus, sentTo. cbn. rewrite app_nil_r. f_equal.
  - rewrite Z2Nat.inj_add by lia. apply take_take_drop.
  - rewrite (proj2 (Z.eqb_neq offset (len (body r)))) by lia. done.
Qed.
Lemma headers_plus r : mkCarried (block r) [] (body r ==? []) = sentTo r 0.
Proof.
  unfold sentTo. f_equal. destruct (body r) as [|x l]; [done|]. transitivity false; [by apply eqb_false|].
  symmetry. apply Z.eqb_neq. unfold len. cbn [length]. lia.
Qed.

(** The frames of a call, all of them or the first ones. *)
Lemma headersCall_carry id r s : 0 < maxFrameSize s -> carry id (framesOf (headersCall id r) s) = sentTo r 0.
Proof. intros Hn. cbn. by rewrite writeHeaderBlock_carry, headers_plus. Qed.
Lemma dataCall_carry id r offset n s : chunk_ok r offset n ->
  plus (sentTo r offset) (carry id (framesOf (dataCall id r offset n) s)) = sentTo r (offset + n).
Proof.
  intros Hc. rewrite <- sentTo_plus by done. f_equal. cbn. unfold carry, headerBytes, dataOf, ended. cbn.
  by rewrite Z.eqb_refl, app_nil_r, orb_false_r.
Qed.
Lemma prefix_singleton {A} (l : list A) x : l `prefix_of` [x] -> l = [] \/ l = [x].
Proof.
  intros [l' H]. destruct l as [|y [|z l]]; [by left| |done]. cbn in H. simplify_eq. by right.
Qed.

Lemma pending_written id r c w fs s : 0 < maxFrameSize s -> pending id r c [w] -> fs `prefix_of` framesOf w s ->
  resting r (plus c (carry id fs)).
Proof.
  intros Hn Hp Hfs. inversion Hp as [| |offset n Hc]; simplify_eq.
  - rewrite nothing_plus. destruct (carry_prefix id _ _ Hfs) as (P1 & P2 & P3). rewrite headersCall_carry in * by done.
    apply prefix_nil_inv in P2. constructor; rewrite ?P2; try done; [apply prefix_nil|].
    intros H%P3. cbn [cEnded sentTo] in H. apply Z.eqb_eq in H. symmetry. by apply len_zero.
  - apply prefix_singleton in Hfs as [->| ->]; [by rewrite plus_nothing|].
    change [DataFrame _ _ _] with (framesOf (dataCall id r offset n) s). by rewrite dataCall_carry.
Qed.

(** ** The invariant *)

Definition stream_of_call (w : writing) : option Z :=
  match w with WriteHeaders id _ _ | WriteData id _ _ _ => Some id | WriteFrames _ => None end.

(** The calls that the write loop has or will take. *)
Definition calls (σ : system) : list writeCall := match writer σ with Writing c => [c] | _ => [] end ++ queue σ.
Definition callsOf (id : Z) (cs : list writeCall) : list writing := filter (fun w => stream_of_call w = Some id) (map what cs).

Definition reset_place (p : place) : Prop := match p with WritingReset _ _ | Answered (Some _) _ _ => True | _ => False end.
Definition call_ok (rs : list request) (c : writeCall) : Prop :=
  match what c, caller c with
  | WriteFrames fs, None => Forall control fs
  | WriteFrames fs, Some k => Forall control fs /\ exists r, rs !! k = Some r /\ reset_place (at_ r)
  | (WriteHeaders id _ _ | WriteData id _ _ _), Some k => exists r, rs !! k = Some r /\ id_of (at_ r) = Some id
  | _, None => False
  end.

Definition stage_ok (σ : system) (r : request) (id : Z) : Prop :=
  stage id r (at_ r) (carry id (wire σ)) (callsOf id (calls σ)) /\ (cData (carry id (wire σ)) <> [] -> committed r = true).

Record wired (σ : system) : Prop := {
  wired_stage k r id : requests σ !! k = Some r -> id_of (at_ r) = Some id -> stage_ok σ r id;
  wired_calls : Forall (call_ok (requests σ)) (calls σ);
  wired_unique k1 k2 r1 r2 id : requests σ !! k1 = Some r1 -> requests σ !! k2 = Some r2 ->
    id_of (at_ r1) = Some id -> id_of (at_ r2) = Some id -> k1 = k2;
  wired_unowned id : (forall k r, requests σ !! k = Some r -> id_of (at_ r) <> Some id) ->
    carry id (wire σ) = nothing /\ callsOf id (calls σ) = []
}.

Lemma callsOf_app id a b : callsOf id (a ++ b) = callsOf id a ++ callsOf id b.
Proof. unfold callsOf. by rewrite map_app, filter_app. Qed.
Lemma callsOf_other id c : stream_of_call (what c) <> Some id -> callsOf id [c] = [].
Proof. intros H. unfold callsOf. cbn. by rewrite decide_False. Qed.
Lemma callsOf_own id c : stream_of_call (what c) = Some id -> callsOf id [c] = [what c].
Proof. intros H. unfold callsOf. cbn. by rewrite decide_True. Qed.
Lemma framesOf_foreign id w s : (forall fs, w = WriteFrames fs -> Forall control fs) -> stream_of_call w <> Some id ->
  Forall (foreign id) (framesOf w s).
Proof.
  intros Hc Hw. destruct w as [i b e|i e b f|fs]; cbn in *.
  - assert (i <> id) by congruence. constructor; [by right|].
    generalize (length b) (drop (Z.to_nat (Z.min (len b) (maxFrameSize s))) b). clear -H.
    intros fuel. induction fuel as [|fuel IH]; intros rest; cbn; [constructor|]. destruct (_ <=? _); [constructor|].
    constructor; [by right|apply IH].
  - apply Forall_singleton. right. cbn. congruence.
  - eapply Forall_impl; [by apply Hc|]. intros f Hf. by left.
Qed.

(** The request at a place changes, the rest of the system only as it concerns its
    stream. *)
Record changes (σ σ' : system) (k : nat) (r : request) (f : request -> request) : Prop := {
  ch_requests : requests σ' = alter f k (requests σ);
  ch_request : requests σ !! k = Some r;
  ch_stage id : id_of (at_ (f r)) = Some id -> stage_ok σ' (f r) id;
  ch_id : id_of (at_ r) = id_of (at_ (f r)) \/ (id_of (at_ r) = None /\ forall k' r' id, requests σ !! k' = Some r' ->
    id_of (at_ (f r)) = Some id -> id_of (at_ r') <> Some id);
  ch_reset : reset_place (at_ r) -> reset_place (at_ (f r));
  ch_other id : id_of (at_ (f r)) <> Some id ->
    carry id (wire σ') = carry id (wire σ) /\ callsOf id (calls σ') = callsOf id (calls σ)
}.

Lemma call_ok_alter rs k r f c : rs !! k = Some r -> (reset_place (at_ r) -> reset_place (at_ (f r))) ->
  (forall id, id_of (at_ r) = Some id -> id_of (at_ (f r)) = Some id) -> call_ok rs c -> call_ok (alter f k rs) c.
Proof.
  intros Hr Hreset Hid. assert (forall j x, rs !! j = Some x -> exists y, alter f k rs !! j = Some y /\
    (reset_place (at_ x) -> reset_place (at_ y)) /\ (forall id, id_of (at_ x) = Some id -> id_of (at_ y) = Some id)) as Hl.
  { intros j x Hx. destruct (decide (j = k)) as [->|Hne].
    - rewrite list_lookup_alter_eq, Hr. simplify_eq. cbn. eauto.
    - rewrite list_lookup_alter_ne by done. eauto. }
  unfold call_ok. destruct (what c), (caller c) as [j|]; try done.
  - intros (x & Hx & Hi). destruct (Hl j x Hx) as (y & Hy & _ & Hy'). eauto.
  - intros (x & Hx & Hi). destruct (Hl j x Hx) as (y & Hy & _ & Hy'). eauto.
  - intros [Hf (x & Hx & Hi)]. destruct (Hl j x Hx) as (y & Hy & Hy' & _). eauto.
Qed.

Lemma wired_change σ σ' k r f : changes σ σ' k r f -> wired σ -> Forall (call_ok (requests σ')) (calls σ') -> wired σ'.
Proof.
  intros [R Hr Hst Hid _ Hoth] [W1 _ W3 W4] Hc.
  assert (forall j x, requests σ' !! j = Some x -> j = k /\ x = f r \/ j <> k /\ requests σ !! j = Some x) as Hl.
  { intros j x. rewrite R. destruct (decide (j = k)) as [->|Hne].
    - rewrite list_lookup_alter_eq, Hr. cbn. intros [= <-]. by left.
    - rewrite list_lookup_alter_ne by done. by right. }
  assert (forall j x id, j <> k -> requests σ !! j = Some x -> id_of (at_ x) = Some id -> id_of (at_ (f r)) <> Some id) as Hne.
  { intros j x id Hj Hx Hi Hf. destruct Hid as [Hid|[_ Hid]]; [|by eapply Hid].
    apply Hj. eapply W3; [done|done|done|]. by rewrite Hid. }
  constructor; [| done | |].
  - intros j x id Hx Hi. destruct (Hl j x Hx) as [[-> ->]|[Hj Hx']]; [by apply Hst|].
    destruct (Hoth id) as [E1 E2]; [by eapply Hne|]. unfold stage_ok. rewrite E1, E2. by eapply W1.
  - intros j1 j2 x1 x2 id H1 H2 I1 I2. destruct (Hl j1 x1 H1) as [[-> ->]|[J1 H1']], (Hl j2 x2 H2) as [[-> ->]|[J2 H2']].
    + done.
    + by destruct (Hne j2 x2 id J2 H2' I2).
    + by destruct (Hne j1 x1 id J1 H1' I1).
    + by eapply W3.
  - intros id Hno. assert (requests σ' !! k = Some (f r)) as Hk by (rewrite R, list_lookup_alter_eq, Hr; done).
    destruct (Hoth id (Hno k _ Hk)) as [-> ->]. apply W4. intros j x Hx Hi. destruct (decide (j = k)) as [->|Hj].
    + simplify_eq. apply (Hno k _ Hk). destruct Hid as [Hid|[Hid _]]; congruence.
    + apply (Hno j x); [|done]. by rewrite R, list_lookup_alter_ne.
Qed.

(** Nothing changes that concerns a request. *)
Lemma wired_same σ σ' : wired σ -> requests σ' = requests σ -> (forall id, carry id (wire σ') = carry id (wire σ)) ->
  (forall id, callsOf id (calls σ') = callsOf id (calls σ)) -> Forall (call_ok (requests σ')) (calls σ') -> wired σ'.
Proof.
  intros [W1 W2 W3 W4] R Hw Hc Ho. constructor; unfold stage_ok in *; rewrite ?R in *; try done.
  - intros k r id Hr Hid. rewrite Hc, Hw. by eapply W1.
  - intros id Hno. rewrite Hc, Hw. by apply W4.
Qed.

(** A request moves, nothing else. *)
Lemma wired_move σ k r p : wired σ -> requests σ !! k = Some r -> id_of p = id_of (at_ r) -> (reset_place (at_ r) -> reset_place p) ->
  (forall id, id_of p = Some id -> stage id r (at_ r) (carry id (wire σ)) (callsOf id (calls σ)) ->
     stage id r p (carry id (wire σ)) (callsOf id (calls σ))) -> wired (move k p σ).
Proof.
  intros W Hr Hid Hreset Hst. eapply (wired_change σ _ k r (set_at p)); [constructor; try done|done|].
  - intros id Hi. cbn in Hi. destruct (wired_stage _ W k r id Hr) as [H1 H2]; [congruence|]. split; [|done].
    apply (Hst id Hi) in H1. by apply (stage_ext id r).
  - left. cbn. done.
  - change (calls (move k p σ)) with (calls σ). eapply Forall_impl; [apply W|]. intros c. apply (call_ok_alter _ k r); try done.
    cbn. by rewrite Hid.
Qed.

(** A flag of some requests is set. *)
Definition alike (x y : request) : Prop :=
  at_ y = at_ x /\ block y = block x /\ body y = body x /\ (committed x = true -> committed y = true).
Lemma alike_alter f k rs : (forall r, alike r (f r)) -> Forall2 alike rs (alter f k rs).
Proof.
  intros Hf. revert k. assert (forall l, Forall2 alike l l) as Hrefl by (intros l; induction l; by constructor).
  induction rs as [|r rs IH]; intros [|k]; cbn; constructor; try done.
Qed.
Lemma wired_alike σ rs : wired σ -> Forall2 alike (requests σ) rs -> wired (set_requests rs σ).
Proof.
  intros [W1 W2 W3 W4] Ha.
  assert (forall k y, rs !! k = Some y -> exists x, requests σ !! k = Some x /\ alike x y) as Hb by (intros; by eapply Forall2_lookup_r).
  assert (forall k x, requests σ !! k = Some x -> exists y, rs !! k = Some y /\ alike x y) as Hf by (intros; by eapply Forall2_lookup_l).
  constructor; cbn [requests set_requests].
  - intros k y id Hy Hid. destruct (Hb k y Hy) as (x & Hx & E1 & E2 & E3 & E4). rewrite E1 in Hid.
    destruct (W1 k x id Hx Hid) as [H1 H2]. split; [|auto]. rewrite E1. by apply (stage_ext id x).
  - change (calls (set_requests rs σ)) with (calls σ). eapply Forall_impl; [exact W2|]. intros c. unfold call_ok.
    destruct (what c), (caller c) as [k|]; try done.
    1,2: intros (x & Hx & Hi); destruct (Hf k x Hx) as (y & Hy & E & _); exists y; by rewrite E.
    intros [Hc (x & Hx & Hi)]. destruct (Hf k x Hx) as (y & Hy & E & _). split; [done|]. exists y. by rewrite E.
  - intros k1 k2 y1 y2 id H1 H2 I1 I2. destruct (Hb k1 y1 H1) as (x1 & X1 & E1 & _), (Hb k2 y2 H2) as (x2 & X2 & E2 & _).
    rewrite E1 in I1. rewrite E2 in I2. by eapply W3.
  - intros id Hno. apply W4. intros k x Hx Hid. destruct (Hf k x Hx) as (y & Hy & E & _). apply (Hno k y Hy). by rewrite E.
Qed.
Lemma wired_new σ blk bdy : wired σ -> wired (set_requests (requests σ ++ [mkProcess blk bdy false Acquiring false]) σ).
Proof.
  intros [W1 W2 W3 W4].
  assert (forall k r id, (requests σ ++ [mkProcess blk bdy false Acquiring false]) !! k = Some r -> id_of (at_ r) = Some id ->
    requests σ !! k = Some r) as Hl.
  { intros k r id [Hr|[_ Hr]]%lookup_app_Some Hid; [done|]. apply list_lookup_singleton_Some in Hr as [_ <-]. done. }
  constructor; cbn [requests set_requests].
  - intros k r id Hr Hid. apply (W1 k); [|done]. by eapply Hl.
  - change (calls (set_requests _ σ)) with (calls σ). eapply Forall_impl; [exact W2|]. intros c. unfold call_ok.
    destruct (what c), (caller c) as [k|]; try done.
    1,2: intros (x & Hx & Hi); exists x; split; [by apply lookup_app_l_Some|done].
    intros [Hc (x & Hx & Hi)]. split; [done|]. exists x. split; [by apply lookup_app_l_Some|done].
  - intros k1 k2 r1 r2 id H1 H2 I1 I2. eapply W3; [by eapply Hl|by eapply Hl|done|done].
  - intros id Hno. apply W4. intros k r Hr. apply (Hno k r). by apply lookup_app_l_Some.
Qed.

(** ** Calls *)

Lemma calls_queue σ c : calls (set_queue (queue σ ++ [c]) σ) = calls σ ++ [c].
Proof. unfold calls. cbn. by rewrite app_assoc. Qed.

Lemma wired_queue σ c s acts b : wired σ -> stream_of_call (what c) = None -> call_ok (requests σ) c ->
  wired (set_reader s acts b (set_queue (queue σ ++ [c]) σ)).
Proof.
  intros W Hc Hok. apply (wired_same σ); try done; change (calls (set_reader _ _ _ ?x)) with (calls x); rewrite calls_queue.
  - intros id. by rewrite callsOf_app, callsOf_other, app_nil_r by congruence.
  - apply Forall_app. split; [apply W|by apply Forall_singleton].
Qed.

Lemma wired_enqueue σ k r p c : wired σ -> requests σ !! k = Some r -> id_of p = id_of (at_ r) ->
  (reset_place (at_ r) -> reset_place p) -> call_ok (alter (set_at p) k (requests σ)) c ->
  (forall id, stream_of_call (what c) = Some id -> id_of p = Some id) ->
  (forall id x cs, id_of p = Some id -> stage id r (at_ r) x cs -> stage id r p x (cs ++ callsOf id [c])) ->
  wired (move k p (set_queue (queue σ ++ [c]) σ)).
Proof.
  intros W Hr Hid Hreset Hok Hown Hst.
  assert (calls (move k p (set_queue (queue σ ++ [c]) σ)) = calls σ ++ [c]) as Hcalls by apply calls_queue.
  eapply (wired_change σ _ k r (set_at p)); [constructor; try done|done|].
  - intros id Hi. cbn in Hi. destruct (wired_stage _ W k r id Hr) as [H1 H2]; [congruence|]. split; [|done].
    apply (Hst id _ _ Hi) in H1. rewrite Hcalls, callsOf_app. by apply (stage_ext id r).
  - left. cbn. done.
  - intros id Hi. cbn in Hi. split; [done|]. rewrite Hcalls, callsOf_app, callsOf_other, app_nil_r; [done|].
    intros Hc. by apply Hi, Hown.
  - rewrite Hcalls. apply Forall_app. split; [|by apply Forall_singleton]. eapply Forall_impl; [apply W|].
    intros x. apply (call_ok_alter _ k r); try done. cbn. by rewrite Hid.
Qed.

(** *** The write loop *)

Lemma call_owner rs c k : call_ok rs c -> caller c = Some k -> exists r, rs !! k = Some r /\
  (stream_of_call (what c) = None /\ reset_place (at_ r) \/ exists id, stream_of_call (what c) = Some id /\ id_of (at_ r) = Some id).
Proof.
  unfold call_ok. intros H Hk. rewrite Hk in H. destruct (what c); cbn.
  - destruct H as (r & ? & ?). eauto 6.
  - destruct H as (r & ? & ?). eauto 6.
  - destruct H as (_ & r & ? & ?). eauto.
Qed.
Lemma call_control rs c : call_ok rs c -> forall fs, what c = WriteFrames fs -> Forall control fs.
Proof. unfold call_ok. intros H fs E. rewrite E in H. destruct (caller c); [by destruct H|done]. Qed.
Lemma notify_move c call σ k r : caller call = Some k -> requests σ !! k = Some r ->
  notify c call σ = move k (notify_at c (at_ r)) σ.
Proof.
  intros Hk Hr. unfold notify, move. rewrite Hk. f_equal. apply list_alter_ext; [|done]. intros x Hx. by simplify_eq.
Qed.
Lemma id_of_notify c p : id_of (notify_at c p) = id_of p.
Proof. by destruct p. Qed.
Lemma reset_notify c p : reset_place p -> reset_place (notify_at c p).
Proof. by destruct p. Qed.

Lemma stage_started id r p x w cs : stage id r p x (w :: cs) -> stage id r (notify_at Started p) x (w :: cs).
Proof. destruct p as [| | |? [| |[]]| | | |? ? ? [| |[]]| | | |]; cbn; try done; intros; destruct_and?; done. Qed.
Lemma stage_reset c id r p x cs : reset_place p -> stage id r p x cs -> stage id r (notify_at c p) x cs.
Proof. by destruct p. Qed.

Lemma wired_started σ c rest : wired σ -> calls σ = c :: rest -> wired (notify Started c σ).
Proof.
  intros W Hc. pose proof (wired_calls _ W) as Hok. rewrite Hc in Hok. apply Forall_cons in Hok as [Hok _].
  destruct (caller c) as [k|] eqn:Hk; [|by unfold notify; rewrite Hk].
  destruct (call_owner _ _ _ Hok Hk) as (r & Hr & Ho). rewrite (notify_move _ _ _ _ _ Hk Hr).
  apply (wired_move σ k r); [done|done|apply id_of_notify|apply reset_notify|].
  intros id Hid. rewrite id_of_notify in Hid. destruct Ho as [[_ Ho]|(i & Hi & Hi')]; [by apply stage_reset|]. simplify_eq.
  rewrite Hc. change (c :: rest) with ([c] ++ rest). rewrite callsOf_app, callsOf_own by done. apply stage_started.
Qed.

Lemma stage_returned id r p x w cs s fs b : 0 < maxFrameSize s -> id_of p = Some id -> stage id r p x (w :: cs) ->
  fs `prefix_of` framesOf w s -> (b = true -> fs = framesOf w s) ->
  stage id r (notify_at (Returned b) p) (plus x (carry id fs)) cs.
Proof.
  intros Hn Hid Hst Hfs Hb. pose proof (stage_pending _ _ _ _ _ Hst) as Hp.
  assert (cs = []) as -> by by inversion Hp. pose proof (pending_written _ _ _ _ _ _ Hn Hp Hfs) as Hrest.
  assert (pending id r (plus x (carry id fs)) []) as Hp' by by constructor.
  destruct p as [| | |? [| |[]]| | | |? ? ? [| |[]]| | | |]; cbn in *; destruct_and?; simplify_eq; try done.
  all: destruct b; [rewrite Hb by done|done].
  - by rewrite nothing_plus, headersCall_carry.
  - by rewrite nothing_plus, headersCall_carry.
  - by rewrite dataCall_carry.
  - by rewrite dataCall_carry.
Qed.

(** [MarkCommitted] runs before the first data. *)
Lemma pending_committed id r x w fs s : 0 < maxFrameSize s -> pending id r x [w] -> fs `prefix_of` framesOf w s ->
  (cData x <> [] -> committed r = true) ->
  (fs <> [] -> forall i e b, w = WriteData i e b true -> committed r = true) ->
  cData (plus x (carry id fs)) <> [] -> committed r = true.
Proof.
  intros Hn Hp Hfs Hold Hnew. inversion Hp as [| |offset n (H0 & H1 & H2)]; simplify_eq.
  - rewrite nothing_plus. destruct (carry_prefix id _ _ Hfs) as (_ & P2 & _). rewrite headersCall_carry in P2 by done.
    by apply prefix_nil_inv in P2.
  - apply prefix_singleton in Hfs as [->| ->]; [by rewrite plus_nothing|]. intros _. destruct (offset =? 0) eqn:E.
    + eapply Hnew; [done|]. unfold dataCall. by rewrite E.
    + apply Hold. cbn. destruct (body r) as [|y l] eqn:Eb; [unfold len in H2; cbn in H2; lia|].
      destruct (Z.to_nat offset) eqn:En; [lia|done].
Qed.

Lemma wired_returned σ c rest fs s b w q : wired σ -> calls σ = c :: rest -> 0 < maxFrameSize s ->
  fs `prefix_of` framesOf (what c) s -> (b = true -> fs = framesOf (what c) s) ->
  (forall k r i e ch, caller c = Some k -> requests σ !! k = Some r -> fs <> [] -> what c = WriteData i e ch true -> committed r = true) ->
  calls (set_writer w (set_wire (wire σ ++ fs) (set_queue q σ))) = rest ->
  wired (notify (Returned b) c (set_writer w (set_wire (wire σ ++ fs) (set_queue q σ)))).
Proof.
  intros W Hc Hn Hfs Hb Hcom Hrest. set (σ1 := set_writer w _) in *.
  pose proof (wired_calls _ W) as Hoks. rewrite Hc in Hoks. apply Forall_cons in Hoks as [Hok Hoks].
  assert (forall id, stream_of_call (what c) <> Some id -> carry id (wire σ1) = carry id (wire σ) /\
    callsOf id (calls σ1) = callsOf id (calls σ)) as Hother.
  { intros id Hid. rewrite Hrest, Hc. change (c :: rest) with ([c] ++ rest). rewrite callsOf_app, callsOf_other by done.
    split; [|done]. cbn. rewrite carry_app, (carry_foreign id fs), plus_nothing; [done|].
    destruct Hfs as [fs' Hfs]. pose proof (framesOf_foreign id (what c) s (call_control _ _ Hok) Hid) as Hf.
    rewrite Hfs in Hf. by apply Forall_app in Hf as [? _]. }
  destruct (caller c) as [k|] eqn:Hk.
  2:{ unfold notify. rewrite Hk. assert (stream_of_call (what c) = None) as Hnone.
      { unfold call_ok in Hok. rewrite Hk in Hok. by destruct (what c). }
      apply (wired_same σ); try done; [| |by rewrite Hrest]; intros id; apply Hother; by rewrite Hnone. }
  destruct (call_owner _ _ _ Hok Hk) as (r & Hr & Ho). rewrite (notify_move _ _ σ1 _ _ Hk Hr).
  set (p := notify_at (Returned b) (at_ r)). apply (wired_change σ _ k r (set_at p)); [constructor; try done| done |].
  - intros id Hid0. assert (id_of (at_ r) = Some id) as Hid by (rewrite <- Hid0; symmetry; apply id_of_notify).
    destruct (wired_stage _ W k r id Hr Hid) as [H1 H2].
    destruct Ho as [[Hnone Ho]|(i & Hi & Hi')].
    + destruct (Hother id) as [E1 E2]; [congruence|]. unfold stage_ok. change (wire (move k p σ1)) with (wire σ1).
      change (calls (move k p σ1)) with (calls σ1). rewrite E1, E2. split; [|done].
      apply (stage_ext id r); [done|done|]. by apply stage_reset.
    + assert (i = id) as -> by congruence. rewrite Hc in H1. change (c :: rest) with ([c] ++ rest) in H1. rewrite callsOf_app, callsOf_own in H1 by done.
      change ([what c] ++ callsOf id rest) with (what c :: callsOf id rest) in H1. split.
      * change (wire (move k p σ1)) with (wire σ ++ fs). change (calls (move k p σ1)) with (calls σ1). rewrite Hrest, carry_app.
        apply (stage_ext id r); [done|done|]. by apply (stage_returned _ _ _ _ (what c) _ s).
      * change (wire (move k p σ1)) with (wire σ ++ fs). rewrite carry_app. cbn [committed set_at].
        pose proof (stage_pending _ _ _ _ _ H1) as Hp. assert (callsOf id rest = []) as Hnil by by inversion Hp. rewrite Hnil in Hp.
        apply (pending_committed id r _ (what c) fs s); try done. intros; by eapply Hcom.
  - left. cbn. unfold p. by rewrite id_of_notify.
  - apply reset_notify.
  - cbn. unfold p. rewrite id_of_notify. intros id Hid. apply (Hother id). intros Hs.
    destruct Ho as [[Hnone _]|(i & Hi & Hi')]; congruence.
  - change (calls (move k p σ1)) with (calls σ1). rewrite Hrest. eapply Forall_impl; [exact Hoks|].
    intros x. apply (call_ok_alter _ k r); [done|apply reset_notify|]. cbn. unfold p. by rewrite id_of_notify.
Qed.

(** *** Steps *)
Section wired_steps.
Context {G : GzipReader} {V : Settings}.

Lemma wired_session σ s acts b i : wired σ -> wired (set_inbox i (set_reader s acts b σ)).
Proof. intros W. by apply (wired_same σ); [| | | |apply W]. Qed.
Lemma wired_commit σ c : wired σ -> wired (commit c σ).
Proof.
  intros W. unfold commit. destruct (caller c); [|done]. destruct (what c) as [|? ? ? []|]; try done.
  apply wired_alike; [done|]. by apply alike_alter.
Qed.
Lemma commit_committed σ c k r i e ch : caller c = Some k -> requests (commit c σ) !! k = Some r ->
  what c = WriteData i e ch true -> committed r = true.
Proof.
  intros Hk Hr Hw. unfold commit in Hr. rewrite Hk, Hw in Hr. cbn in Hr. rewrite list_lookup_alter_eq in Hr.
  destruct (requests σ !! k); cbn in Hr; by simplify_eq.
Qed.
Lemma commit_calls σ c : calls (commit c σ) = calls σ /\ queue (commit c σ) = queue σ /\ wire (commit c σ) = wire σ.
Proof. unfold commit. by repeat case_match. Qed.
Lemma commit_swap σ c w fs : commit c (set_writer w (set_wire fs σ)) = set_writer w (set_wire fs (set_queue (queue (commit c σ)) (commit c σ))).
Proof. unfold commit. by repeat case_match. Qed.

(** A request gives up or is answered. *)
Lemma wired_answer σ k r id resp e : wired σ -> requests σ !! k = Some r -> id_of (at_ r) = Some id ->
  wired (move k (Answered (Some id) resp e) σ).
Proof.
  intros W Hr Hid. apply (wired_move σ k r); try done. intros i _. apply stage_pending.
Qed.
Lemma wired_answer_none σ k r resp e : wired σ -> requests σ !! k = Some r -> id_of (at_ r) = None -> ~ reset_place (at_ r) ->
  wired (move k (Answered None resp e) σ).
Proof. intros W Hr Hid Hn. by apply (wired_move σ k r). Qed.
Lemma wired_fail σ k r id e : wired σ -> requests σ !! k = Some r -> id_of (at_ r) = Some id -> wired (failRequest k id e σ).
Proof.
  intros W Hr Hid. apply (wired_answer (set_session (cancelStream id e (session σ)) σ) k r); [|done|done].
  by apply (wired_same σ); [| | | |apply W].
Qed.
Lemma wired_acquire σ k r s id : inv σ -> wired σ -> requests σ !! k = Some r -> at_ r = Acquiring ->
  acquireStream (session σ) = (s, AcquireOk id) -> wired (move k (Opened id) (set_session s σ)).
Proof.
  intros Hi W Hr Hat Ha. destruct (acquire_Ok _ _ _ Ha) as (-> & -> & _).
  assert (forall k' r', requests σ !! k' = Some r' -> id_of (at_ r') <> Some (nextStreamID (session σ))) as Hfresh.
  { intros k' r' Hr' Hid. destruct (inv_known _ Hi k' r' _ Hr' Hid) as [st Hst].
    apply (core_object _ (inv_core _ Hi)) in Hst as (_ & _ & ? & _). lia. }
  destruct (wired_unowned _ W _ Hfresh) as [E1 E2].
  apply (wired_change σ _ k r (set_at (Opened (nextStreamID (session σ))))); [constructor; try done|done|].
  - cbn. intros id [= <-]. split; [split; [exact E1|exact E2]|].
    change (wire (move _ _ _)) with (wire σ). by rewrite E1.
  - right. split; [by rewrite Hat|]. cbn. intros k' r' id Hr' [= <-]. by eapply Hfresh.
  - by rewrite Hat.
  - eapply Forall_impl; [apply W|]. intros c. apply (call_ok_alter _ k r); [done|by rewrite Hat|by rewrite Hat].
Qed.
Lemma wired_reserved σ k r id offset s n : inv σ -> wired σ -> requests σ !! k = Some r -> at_ r = Sending id offset ->
  reserveSend id (len (body r) - offset) (session σ) = (s, ReserveOk n) -> wired (move k (Reserved id offset n) (set_session s σ)).
Proof.
  intros Hi W Hr Hat Hres. destruct (reserve_Ok _ _ _ _ _ (inv_core _ Hi) Hres) as (st & _ & _ & Hn & _).
  apply (wired_move (set_session s σ) k r); [by apply (wired_same σ); [| | | |apply W]|done|by rewrite Hat|by rewrite Hat|].
  intros i _. rewrite Hat. cbn. intros (H0 & -> & ->). split; [|done]. unfold chunk_ok. lia.
Qed.

Lemma wired_writer σ w : wired σ -> (forall c, w <> Writing c) -> (forall c, writer σ <> Writing c) -> wired (set_writer w σ).
Proof.
  intros W H1 H2. assert (calls (set_writer w σ) = calls σ) as E.
  { unfold calls. cbn. destruct w, (writer σ); try done; exfalso; first [by eapply H1|by eapply H2]. }
  apply (wired_same σ); try done; rewrite E; [done|apply W].
Qed.

(** What the write loop does with a call. *)
Lemma wired_write σ c rest fs b w : inv σ -> wired σ -> writer σ = Writing c -> calls σ = c :: rest -> (forall c, w <> Writing c) ->
  fs `prefix_of` framesOf (what c) (session σ) -> (b = true -> fs = framesOf (what c) (session σ)) ->
  wired (notify (Returned b) c (commit c (set_writer w (set_wire (wire σ ++ fs) σ)))).
Proof.
  intros Hi W Hw Hc Hnw Hfs Hb. rewrite commit_swap. destruct (commit_calls σ c) as (E1 & E2 & E3). rewrite <- E3.
  apply (wired_returned _ c rest _ (session σ)).
  - by apply wired_commit.
  - by rewrite E1.
  - pose proof (core_frame _ (inv_core _ Hi)) as Hf. unfold defaultFrameSize in Hf. lia.
  - done.
  - done.
  - intros k r i e ch Hk Hr _ Hwhat. by eapply commit_committed.
  - unfold calls in *. cbn. rewrite E2. rewrite Hw in Hc. cbn in Hc. simplify_eq. destruct w; try done. exfalso. by eapply Hnw.
Qed.

Lemma wired_readStep `{!SettingsLaws V} σ σ' : readStep σ σ' -> inv σ -> wired σ -> wired σ'.
Proof.
  intros Hs Hi W. destruct Hs as
    [f s acts _ _ Hf Hr|a rest s acts Ha Hnq Hact|w rest Ha _|w rest Ha _].
  - by apply wired_session.
  - apply (wired_same σ); try done. apply W.
  - apply wired_queue; [done| |]; pose proof (inv_actions _ Hi) as Has; rewrite Ha in Has; apply Forall_cons in Has as [Ha1 _];
      by destruct w.
  - apply (wired_same σ); try done. apply W.
Qed.
Lemma wired_writeStep `{!SettingsLaws V} σ σ' : writeStep σ σ' -> inv σ -> wired σ -> wired σ'.
Proof.
  intros Hs Hi W. destruct Hs as
    [c q Hw Hq _|c q Hw Hq _|c Hw|c fs Hw Hfs|Hw|Hw _].
  - replace (set_queue q σ) with (set_writer (writer σ) (set_wire (wire σ ++ []) (set_queue q σ))) by (by rewrite app_nil_r).
    apply (wired_returned σ c q [] (session σ) false (writer σ) q); try done.
    + unfold calls. by rewrite Hw, Hq.
    + pose proof (core_frame _ (inv_core _ Hi)) as Hf. unfold defaultFrameSize in Hf. lia.
    + apply prefix_nil.
    + unfold calls. cbn. by rewrite Hw.
  - eapply (wired_started _ c q); [|done]. apply (wired_same σ); try done.
    + intros id. unfold calls. cbn. by rewrite Hw, Hq.
    + pose proof (wired_calls _ W) as H. unfold calls in *. rewrite Hw, Hq in H. done.
  - eapply wired_write; try done. unfold calls. by rewrite Hw.
  - eapply wired_write; try done. unfold calls. by rewrite Hw.
  - apply wired_writer; [|done|by cbn; rewrite Hw]. apply (wired_same σ); try done. apply W.
  - apply wired_writer; [done|done|by rewrite Hw].
Qed.
Lemma wired_requestStep `{!SettingsLaws V} σ σ' : requestStep σ σ' -> inv σ -> wired σ -> wired σ'.
Proof.
  intros Hs Hi W. destruct Hs as
    [blk bdy|k
    |k r s a Hr Hat Hacq|k r n Hr Hat _|k r n e Hr Hat _|k r id Hr Hat _ _|k r id offset n Hr Hat _ _
    |k r id e Hr Hat _|k r id Hr Hat|k r id offset n Hr Hat|k r id c e Hr Hat _
    |k r id offset s a Hr Hat _ _ Hres|k r id offset n Hr Hat _|k r id offset n st Hr Hat Ho
    |k r id offset Hr Hat Hlen|k r id st Hr Hat _ _|k r id Hr Hat _|k r id Hr Hat _|k r id Hr Hat _|k r id Hr Hat].
  - by apply wired_new.
  - apply wired_alike; [done|]. by apply alike_alter.
  - destruct a as [e|id|n]; [|by eapply wired_acquire|].
    + apply (wired_answer_none (set_session s σ) k r); [|done|by rewrite Hat|rewrite Hat; by intros []].
      apply (wired_same σ); try done. apply W.
    + apply (wired_move (set_session s σ) k r); [|done|by rewrite Hat|by rewrite Hat|done].
      apply (wired_same σ); try done. apply W.
  - apply (wired_move σ k r); [done|done|by rewrite Hat|by rewrite Hat|done].
  - apply (wired_answer_none σ k r); [done|done|by rewrite Hat|rewrite Hat; by intros []].
  - apply (wired_enqueue σ k r); [done|done|by rewrite Hat|by rewrite Hat| | |].
    + cbn. exists (set_at (WritingHeaders id Waiting) r). rewrite list_lookup_alter_eq, Hr. done.
    + by intros i [= <-].
    + intros i x cs [= <-]. rewrite Hat. intros [-> ->]. split; [done|].
      by apply (callsOf_own id (mkCall (Some k) true (headersCall id r))).
  - apply (wired_enqueue σ k r); [done|done|by rewrite Hat|by rewrite Hat| | |].
    + cbn. exists (set_at (WritingData id offset n Waiting) r). rewrite list_lookup_alter_eq, Hr. done.
    + by intros i [= <-].
    + intros i x cs [= <-]. rewrite Hat. intros (? & -> & ->). split_and!; [done|done|].
      by apply (callsOf_own id (mkCall (Some k) true (dataCall id r offset n))).
  - eapply wired_fail; [done|done|]. by destruct Hat as [->|(? & ? & ->)].
  - apply (wired_move σ k r); [done|done|by rewrite Hat|by rewrite Hat|]. intros i _. rewrite Hat. cbn.
    intros [-> ->]. split_and!; try done. apply len_nonneg.
  - apply (wired_move σ k r); [done|done|by rewrite Hat|by rewrite Hat|]. intros i _. rewrite Hat. cbn.
    intros ((? & ? & ?) & -> & ->). split_and!; try done; lia.
  - eapply wired_fail; [done|done|]. by destruct Hat as [->|(? & ? & ->)].
  - destruct a as [e|n|n]; [|by eapply wired_reserved|].
    + assert (wired (set_session s σ)) as W' by (apply (wired_same σ); try done; apply W).
      destruct (objects s !! id); by apply (wired_answer (set_session s σ) k r); [done|done|rewrite Hat].
    + apply (wired_move (set_session s σ) k r); [|done|by rewrite Hat|by rewrite Hat|by rewrite Hat].
      apply (wired_same σ); try done. apply W.
  - apply (wired_move σ k r); [done|done|by rewrite Hat|by rewrite Hat|by rewrite Hat].
  - assert (id_of (at_ r) = Some id) as Hid by (by destruct Hat as [[-> _]|[-> _]]).
    destruct (finished st); [by eapply wired_answer|]. destruct (ctxDone r); [|by eapply wired_fail].
    apply (wired_move σ k r); [done|done|done|by destruct Hat as [[-> _]|[-> _]]|].
    intros i _. destruct Hat as [[-> _]|[-> _]]; intros (_ & -> & ->); split; try done; apply resting_sentTo.
  - apply (wired_move σ k r); [done|done|by rewrite Hat|by rewrite Hat|]. intros i _. rewrite Hat. cbn.
    intros (? & -> & ->). split; [|done]. f_equal. lia.
  - eapply wired_answer; [done|done|by rewrite Hat].
  - apply (wired_move σ k r); [done|done|by rewrite Hat|by rewrite Hat|]. intros i _. rewrite Hat. cbn.
    intros (-> & ->). split; [|done]. apply resting_sentTo.
  - eapply wired_answer; [done|done|by rewrite Hat].
  - apply (wired_enqueue σ k r); [done|done|by rewrite Hat|by rewrite Hat| | |].
    + cbn. split; [by apply Forall_singleton|]. exists (set_at (WritingReset id Waiting) r). by rewrite list_lookup_alter_eq, Hr.
    + done.
    + intros i x cs [= <-]. rewrite Hat. cbn. intros [? ->]. done.
  - eapply wired_fail; [done|done|]. by destruct Hat as [[-> _]|(c & -> & _)].
Qed.
Lemma wired_step `{!SettingsLaws V} σ σ' : step σ σ' -> inv σ -> wired σ -> wired σ'.
Proof.
  intros Hs Hi W. destruct Hs as [σ' Hs|σ' Hs|σ' Hs|].
  - by eapply wired_readStep.
  - by eapply wired_writeStep.
  - by eapply wired_requestStep.
  - apply (wired_same σ); try done. apply W.
Qed.

Lemma wired_reachable `{!SettingsLaws V} σ : reachable σ -> wired σ.
Proof.
  intros (settings & σ0 & H0 & Hσ). pose proof (h2_inv_initial _ _ H0) as Hi. assert (wired σ0) as W.
  { unfold initial in H0. repeat case_match; simplify_eq. by constructor. }
  clear H0. induction Hσ as [σ|σ1 σ2 σ3 Hs _ IH]; [done|]. apply IH; [by eapply h2_inv_step|by eapply wired_step].
Qed.
End wired_steps.

(** ** Theorem *)

(** C14. The frames of a request on the wire carry a prefix of its header block and
    a prefix of its body, data only after the complete header block and after
    MarkCommitted, END_STREAM only with the whole body; a request that waits for its
    answer has sent everything; no two requests share a stream. *)
Theorem requests_are_sent_in_order `{GzipReader} `{!Settings} `{!SettingsLaws _} σ k r id : reachable σ ->
  requests σ !! k = Some r -> id_of (at_ r) = Some id ->
  headerBytes id (wire σ) `prefix_of` block r /\ dataOf id (wire σ) `prefix_of` body r /\
  (dataOf id (wire σ) <> [] -> headerBytes id (wire σ) = block r /\ committed r = true) /\
  (ended id (wire σ) = true -> dataOf id (wire σ) = body r) /\
  (at_ r = Awaiting id -> headerBytes id (wire σ) = block r /\ dataOf id (wire σ) = body r /\ ended id (wire σ) = true) /\
  (forall k' r', requests σ !! k' = Some r' -> id_of (at_ r') = Some id -> k' = k).
Proof.
  intros Hσ Hr Hid. pose proof (wired_reachable σ Hσ) as W. destruct (wired_stage _ W k r id Hr Hid) as [Hst Hcom].
  assert (resting r (carry id (wire σ))) as [R1 R2 R3 R4] by (destruct (stage_pending _ _ _ _ _ Hst); auto).
  split_and!; [exact R1|exact R2| |exact R4| |].
  - intros Hd. split; [by apply R3|by apply Hcom].
  - intros Hat. rewrite Hat in Hst. destruct Hst as [Hc _]. unfold carry, sentTo in Hc. injection Hc as -> -> ->.
    split_and!; [done| |apply Z.eqb_refl]. unfold len. rewrite Nat2Z.id. apply firstn_all.
  - intros k' r' Hr' Hid'. by eapply (wired_unique _ W).
Qed.

Import Demo.
Lemma requests_are_sent_in_order_witness : exists σ r, reachable (G := Demo.gzip) (V := Demo.settings) σ /\
  requests σ !! 0%nat = Some r /\ headerBytes 1 (wire σ) = block r /\ ended 1 (wire σ) = true.
Proof.
  destruct Demo.closed_run as (σ & H & _ & r & Hr & Hat). exists σ, r. split; [exact H|]. split; [exact Hr|].
  destruct (requests_are_sent_in_order σ 0 r 1 H Hr ltac:(rewrite Hat; reflexivity)) as (_ & _ & _ & _ & Hs & _).
  destruct (Hs Hat) as (H1 & _ & H2). split; [exact H1|exact H2].
Defined.
