(* ===== verification/H2Inbound.v ===== *)
(** * Responses of an HTTP/2 session come from their frames (internal/h2/session.go)

    A response that [Do] returns is the header list of one HEADERS frame of its stream
    and the data of the DATA frames that followed on it, up to the one that ended the
    stream, whatever other streams and goroutines did in between.  The invariant follows
    a stream through the handlers of the read loop. *)
From S2P Require Import Prelude GoText Errors Response H2Frame H2Session H2System.

(** ** What the peer sent on a stream *)

Definition dataIn (id : Z) (l : list inbound) : bytes :=
  concat (map (fun f => match f with InData i d _ => if i =? id then d else [] | _ => [] end) l).
(** The frame ends the stream. *)
Definition endsStream (id : Z) (f : inbound) : bool :=
  match f with
  | InData i _ e => (i =? id) && e
  | InHeaders m => (Meta_StreamID m =? id) && Meta_StreamEnded m
  | _ => false
  end.
(** The header list of a frame with a body. *)
Definition withBody (h : Response) (b : bytes) : Response :=
  mkResponse2 (Status2 h) (Headers2 h) b (CompressedBytes2 h) (DecompressedBytes2 h) (Truncated2 h).
Record collectedFrom (id : Z) (window : list inbound) (r : Response) (expected : option Z) : Prop := {
  cf_headers : exists m h, InHeaders m ∈ window /\ Meta_StreamID m = id /\ decodeResponseHeaders m = Ok (h, expected) /\
    r = withBody h (Body2 r)
}.

Lemma dataIn_app id a b : dataIn id (a ++ b) = dataIn id a ++ dataIn id b.
Proof. unfold dataIn. by rewrite map_app, concat_app. Qed.
Lemma dataIn_other id f : (forall d e, f <> InData id d e) -> dataIn id [f] = [].
Proof.
  intros H. unfold dataIn. cbn. destruct f as [|i d e| | | | | | | | |]; try done. destruct (i =? id) eqn:E; [|done].
  assert (i = id) as -> by lia. by edestruct H.
Qed.
Section inbound.
Context {G : GzipReader} {V : Settings}.

(** A complete response of a stream, from consecutive frames of the connection. *)
Definition completeFrom (id : Z) (l : list inbound) (resp : Response) : Prop :=
  exists before window after r expected, l = before ++ window ++ after /\ collectedFrom id window r expected /\
    Body2 r = dataIn id window /\ (forall n, expected = Some n -> len (Body2 r) = n) /\
    (exists init f, window = init ++ [f] /\ endsStream id f = true) /\ finalizeResponse r = Ok resp.

Lemma completeFrom_app id l l' resp : completeFrom id l resp -> completeFrom id (l ++ l') resp.
Proof.
  intros (b & w & a & r & e & -> & H). exists b, w, (a ++ l'), r, e. split; [|done]. by rewrite <- !app_assoc.
Qed.

(** Data that the read loop has taken but not yet handled. *)
Definition pendingData (id : Z) (acts : list action) : bytes :=
  concat (map (fun a => match a with Data i d _ => if i =? id then d else [] | _ => [] end) acts).
Definition finishing (id : Z) (acts : list action) : Prop := exists r e, Finish id r e ∈ acts.

Definition live_ok (id : Z) (st : stream) (acts : list action) (l : list inbound) : Prop :=
  finishing id acts \/ exists before window, l = before ++ window /\
    if headersReceived st then
      collectedFrom id window (response st) (expectedLength st) /\ Body2 (response st) ++ pendingData id acts = dataIn id window
    else dataIn id window = pendingData id acts.

Definition object_ok (id : Z) (st : stream) (acts : list action) (l : list inbound) : Prop :=
  if finished st then err st = None -> completeFrom id l (response st) else live_ok id st acts l.

(** The handlers of one frame: data is handled last, after its window update. *)
Definition shape (acts : list action) (l : list inbound) : Prop :=
  Forall (fun a => match a with Data _ _ _ => False | _ => True end) acts \/
  exists pre id d e init, acts = pre ++ [Data id d e] /\ l = init ++ [InData id d e] /\
    Forall (fun a => match a with Queue _ => True | _ => False end) pre.

Lemma pendingData_app id a b : pendingData id (a ++ b) = pendingData id a ++ pendingData id b.
Proof. unfold pendingData. by rewrite map_app, concat_app. Qed.
Lemma pendingData_none id acts : Forall (fun a => match a with Data _ _ _ => False | _ => True end) acts -> pendingData id acts = [].
Proof. induction 1 as [|a acts Ha _ IH]; [done|]. change (a :: acts) with ([a] ++ acts). rewrite pendingData_app, IH. by destruct a. Qed.

Record tracked (s : Session) (acts : list action) (l : list inbound) : Prop := {
  tr_object id st : objects s !! id = Some st -> object_ok id st acts l;
  tr_finish id r : Finish id r None ∈ acts -> completeFrom id l r;
  tr_shape : shape acts l
}.

(** ** Changes that do not concern responses *)

Definition facts (st : stream) := (finished st, err st, response st, headersReceived st, expectedLength st).
(** Streams keep what they have received, or end with an error. *)
Definition evolves (s s' : Session) : Prop := forall id st', objects s' !! id = Some st' ->
  (exists st, objects s !! id = Some st /\ facts st' = facts st) \/ (finished st' = true /\ err st' <> None).

Lemma evolves_same s s' : objects s' = objects s -> evolves s s'.
Proof. intros E id st H. rewrite E in H. left. eauto. Qed.
Lemma evolves_refl s : evolves s s.
Proof. by apply evolves_same. Qed.
Lemma evolves_trans s1 s2 s3 : evolves s1 s2 -> evolves s2 s3 -> evolves s1 s3.
Proof.
  intros H12 H23 id st3 H3. destruct (H23 id st3 H3) as [(st2 & H2 & E)|?]; [|by right].
  destruct (H12 id st2 H2) as [(st1 & H1 & E')|[Hf He]]; [left; exists st1; split; [done|congruence]|right].
  unfold facts in E. injection E as -> -> _ _ _. done.
Qed.
Lemma evolves_object id st st' s : objects s !! id = Some st -> facts st' = facts st -> evolves s (set_object id st' s).
Proof. intros Ho E id' x. cbn. intros [[<- <-]|[_ Hx]]%lookup_insert_Some; left; eauto. Qed.
Lemma evolves_finish id e s : evolves s (finishLocked id emptyResponse (Some e) s).
Proof.
  unfold finishLocked. destruct (objects s !! id) as [st|] eqn:E; [|apply evolves_refl].
  intros id' x. cbn. intros [[<- <-]|[_ Hx]]%lookup_insert_Some; [right; done|left; eauto].
Qed.
Lemma evolves_finishAll P e l : forall s, evolves s (finishAll P (Some e) l s).
Proof.
  unfold finishAll. induction l as [|id l IH]; intros s; cbn; [apply evolves_refl|].
  eapply evolves_trans; [|apply IH]. destruct (P id); [apply evolves_finish|apply evolves_refl].
Qed.
Lemma evolves_cancel id e s : evolves s (cancelStream id e s).
Proof. unfold cancelStream. repeat case_match; first [apply evolves_refl|apply evolves_finish]. Qed.
Lemma evolves_shutdown e s : evolves s (shutdown e s).
Proof. unfold shutdown. destruct (doneClosed s); [apply evolves_refl|]. apply (evolves_finishAll (fun _ => true) e _ (set_closed (Some e) false s)). Qed.
Lemma evolves_goAway last code s : evolves s (handleGoAway last code s).
Proof. apply (evolves_finishAll (fun id => _ <? id) _ _ (set_goAway _ s)). Qed.
Lemma evolves_settings l : forall s, evolves s (applySettings l s).1.
Proof.
  induction l as [|[id v] l IH]; intros s; cbn [applySettings]; [apply evolves_refl|]. destruct (negb _); [apply evolves_refl|].
  eapply evolves_trans; [|apply IH]. repeat case_match; try by apply evolves_same.
  intros id' st'. cbn. rewrite map_lookup_imap. destruct (objects s !! id') as [st|] eqn:E; cbn; [|done].
  intros [= <-]. left. exists st. by case_bool_decide.
Qed.
Lemma evolves_reserve id n s : evolves s (reserveSend id n s).1.
Proof.
  unfold reserveSend. repeat case_match; cbn; try apply evolves_refl. by eapply evolves_object.
Qed.

Lemma object_ok_facts id st st' acts l : facts st' = facts st -> object_ok id st acts l -> object_ok id st' acts l.
Proof. unfold facts, object_ok, live_ok. by intros [= -> -> -> -> ->]. Qed.
Lemma tracked_evolves s s' acts l : tracked s acts l -> evolves s s' -> tracked s' acts l.
Proof.
  intros [T1 T2 T3] He. constructor; try done. intros id st' Ho. destruct (He id st' Ho) as [(st & Hst & E)|[Hf Hn]].
  - by apply (object_ok_facts id st); [|apply T1].
  - unfold object_ok. by rewrite Hf.
Qed.

(** A new stream starts with the data that is about to be handled, if it is for it. *)
Lemma tracked_opened s acts l : tracked s acts l -> tracked (opened s) acts l.
Proof.
  intros [T1 T2 T3]. constructor; try done. intros id st. cbn. intros [[<- <-]|[_ Ho]]%lookup_insert_Some; [|by apply T1].
  right. cbn. set (id := nextStreamID s). destruct T3 as [Hn|(pre & i & d & e & init & -> & -> & Hq)].
  - exists l, []. split; [by rewrite app_nil_r|]. by rewrite pendingData_none.
  - exists init, [InData i d e]. split; [done|]. rewrite pendingData_app, (pendingData_none id pre); [done|].
    eapply Forall_impl; [exact Hq|]. by intros [].
Qed.

(** ** Receiving a frame *)

Definition no_data (acts : list action) : Prop := Forall (fun a => match a with Data _ _ _ => False | _ => True end) acts.
Definition no_answer (acts : list action) : Prop := Forall (fun a => match a with Finish _ _ None => False | _ => True end) acts.

Lemma collectedFrom_more id w w' r expected : collectedFrom id w r expected -> collectedFrom id (w ++ w') r expected.
Proof. intros [(m & h & Hm & ? & ? & ?)]. constructor. exists m, h. split_and!; try done. by apply elem_of_app; left. Qed.
Lemma not_finishing id : ~ finishing id [].
Proof. by intros (r & e & ?%elem_of_nil). Qed.

Lemma object_receive id st acts l f : object_ok id st [] l -> dataIn id [f] = pendingData id acts \/ finishing id acts ->
  object_ok id st acts (l ++ [f]).
Proof.
  unfold object_ok. destruct (finished st); [intros H _ He; by apply completeFrom_app, H|].
  intros [H|(before & window & -> & H)]; [by apply not_finishing in H|]. intros [Hd|Hd]; [right|by left].
  exists before, (window ++ [f]). split; [by rewrite app_assoc|]. rewrite dataIn_app. cbn in H. rewrite !app_nil_r in H.
  destruct (headersReceived st).
  - destruct H as [H1 H2]. split; [by apply collectedFrom_more|]. by rewrite <- H2, Hd.
  - by rewrite H, Hd.
Qed.

Lemma tracked_frame s s' acts l f : tracked s [] l -> evolves s s' ->
  (forall id, dataIn id [f] = pendingData id acts \/ finishing id acts) -> no_answer acts -> shape acts (l ++ [f]) ->
  tracked s' acts (l ++ [f]).
Proof.
  intros T He Hd Hn Hs. apply (tracked_evolves s); [|done]. constructor; [| |done].
  - intros id st Ho. apply object_receive; [by apply T|done].
  - intros id r Hin. by apply (proj1 (Forall_forall _ _) Hn) in Hin.
Qed.
(** A frame without data whose handler ends at most one stream with an error. *)
Lemma tracked_control s s' acts l f : tracked s [] l -> evolves s s' -> (forall id, dataIn id [f] = []) ->
  no_data acts -> no_answer acts -> tracked s' acts (l ++ [f]).
Proof.
  intros T He Hd Hn Ha. apply (tracked_frame s); try done; [|by left]. intros id. left. by rewrite Hd, pendingData_none.
Qed.

Lemma tracked_headers s m s' acts l : core s -> tracked s [] l -> handleHeaders m s = (s', acts) -> tracked s' acts (l ++ [InHeaders m]).
Proof.
  intros Hc T. unfold handleHeaders. destruct (decodeResponseHeaders m) as [[h expected]|e] eqn:Ed.
  2:{ intros [= <- <-]. apply (tracked_control s); try done; [apply evolves_refl|by repeat constructor|by repeat constructor]. }
  destruct (active (Meta_StreamID m) s) as [st|] eqn:Ea.
  2:{ intros [= <- <-]. apply (tracked_control s); try done; [apply evolves_refl|constructor|constructor]. }
  apply active_Some in Ea as (_ & Ho & Hf); [|done].
  destruct ((100 <=? Status2 h) && (Status2 h <? 200)).
  { intros [= <- <-]. apply (tracked_control s); try done; [by eapply evolves_object| |]; destruct (_ || _ || _ || _); by repeat constructor. }
  destruct (headersReceived st) eqn:Er.
  { intros [= <- <-]. apply (tracked_control s); try done; [apply evolves_refl|by repeat constructor|by repeat constructor]. }
  pose proof (tr_object _ _ _ T _ _ Ho) as Hl. unfold object_ok in Hl. rewrite Hf in Hl.
  destruct Hl as [Hl|(before & window & -> & Hl)]; [by apply not_finishing in Hl|]. rewrite Er in Hl. cbn in Hl.
  destruct (decodeResponseHeaders_ok _ _ _ Ed) as (_ & _ & _ & _ & Hb & _).
  assert (collectedFrom (Meta_StreamID m) (window ++ [InHeaders m]) h expected) as Hcol.
  { constructor. exists m, h. split_and!; try done; [apply elem_of_app; right; by left|]. by destruct h. }
  assert (dataIn (Meta_StreamID m) (window ++ [InHeaders m]) = []) as Hdat by (by rewrite dataIn_app, Hl).
  intros Hres. assert (s' = set_object (Meta_StreamID m) (set_received h expected st) s /\ no_data acts /\
    forall id r, Finish id r None ∈ acts -> completeFrom id ((before ++ window) ++ [InHeaders m]) r) as (-> & Hnd & Hfin).
  { destruct (Meta_StreamEnded m && _) eqn:Ee; [simplify_eq; split_and!; [done|by repeat constructor|]|].
    { intros id r H. rewrite !elem_of_cons, elem_of_nil in H. destruct H as [H|[H|H]]; done. }
    destruct (Meta_StreamEnded m) eqn:En; simplify_eq; (split_and!; [done| |]).
    - repeat constructor. unfold finalize. by destruct (finalizeResponse h).
    - intros id r H. rewrite !elem_of_cons, elem_of_nil in H. destruct H as [H|[H|H]]; [done| |done]. unfold finalize in H.
      destruct (finalizeResponse h) as [r'|] eqn:Efin; simplify_eq.
      exists before, (window ++ [InHeaders m]), [], h, expected. rewrite app_nil_r. split_and!; try done.
      + by rewrite app_assoc.
      + by rewrite Hdat.
      + intros n ->. cbn in Ee. apply negb_false_iff, Z.eqb_eq in Ee. by rewrite Hb.
      + exists window, (InHeaders m). split; [done|]. cbn. by rewrite Z.eqb_refl.
    - by repeat constructor.
    - intros id r H. rewrite !elem_of_cons, elem_of_nil in H. destruct H as [H|H]; done. }
  constructor; [|exact Hfin|by left]. intros id st'. cbn. intros [[<- <-]|[Hne Hx]]%lookup_insert_Some.
  - unfold object_ok. cbn. rewrite Hf. right. exists before, (window ++ [InHeaders m]). split; [by rewrite app_assoc|]. cbn.
    split; [done|]. by rewrite Hb, Hdat, pendingData_none.
  - apply object_receive; [by apply T|]. left. by rewrite pendingData_none.
Qed.

Lemma evolves_window id n s s' : core s -> handleWindowUpdate id n s = Ok s' -> evolves s s'.
Proof.
  intros Hc. unfold handleWindowUpdate. destruct (id =? 0); [destruct (_ <? _); [done|]; intros [= <-]; by apply evolves_same|].
  destruct (active id s) as [st|] eqn:Ea; [destruct (_ <? _); [done|]|]; intros [= <-]; [|by apply evolves_same].
  apply active_Some in Ea as (_ & Ho & _); [|done]. by eapply evolves_object.
Qed.

Lemma tracked_data s id d e l : tracked s [] l -> tracked s (handleData id d e) (l ++ [InData id d e]).
Proof.
  intros T. unfold handleData. destruct (0 <? len d).
  2:{ apply (tracked_frame s); [done|apply evolves_refl| |by repeat constructor|].
      - intros i. left. done.
      - right. by exists [], id, d, e, l. }
  destruct (MaxUint32 <? len d) eqn:Em.
  - apply (tracked_frame s); [done|apply evolves_refl| |by repeat constructor|left; by repeat constructor].
    intros i. destruct (decide (i = id)) as [->|Hne].
    + right. exists emptyResponse. eexists. by left.
    + left. apply dataIn_other. by intros ? ? [= ? ? ?].
  - apply (tracked_frame s); [done|apply evolves_refl| |by repeat constructor|].
    + intros i. left. done.
    + right. exists [Queue (WriteFrames [WindowUpdateFrame 0 (len d); WindowUpdateFrame id (len d)])], id, d, e, l. split_and!; [done|done|by repeat constructor].
Qed.

Lemma tracked_receive s f s' acts l : core s -> tracked s [] l -> receive f s = (s', acts) -> tracked s' acts (l ++ [f]).
Proof.
  intros Hc T. destruct f as [m|id data ended|id code|last code|id n|ack settings|ack data| | |id code|]; cbn [receive].
  - by apply tracked_headers.
  - intros [= <- <-]. by apply tracked_data.
  - intros [= <- <-]. apply (tracked_control s); try done; [apply evolves_refl|by repeat constructor|by repeat constructor].
  - intros [= <- <-]. apply (tracked_control s); try done; [apply evolves_goAway|constructor|constructor].
  - destruct (handleWindowUpdate id n s) as [s1|e] eqn:E; intros [= <- <-]; apply (tracked_control s); try done.
    + by eapply evolves_window.
    + constructor.
    + constructor.
    + apply evolves_refl.
    + by repeat constructor.
    + by repeat constructor.
  - destruct ack; [intros [= <- <-]; apply (tracked_control s); try done; [apply evolves_refl|constructor|constructor]|].
    pose proof (evolves_settings settings s) as He. destruct (applySettings settings s) as [s1 [e|]]; intros [= <- <-];
      apply (tracked_control s); try done; by repeat constructor.
  - destruct ack; intros [= <- <-]; apply (tracked_control s); try done; try apply evolves_refl; by repeat constructor.
  - intros [= <- <-]. apply (tracked_control s); try done; [apply evolves_refl|by repeat constructor|by repeat constructor].
  - intros [= <- <-]. apply (tracked_control s); try done; [apply evolves_refl|constructor|constructor].
  - intros [= <- <-]. apply (tracked_control s); try done; [apply evolves_refl|by repeat constructor|by repeat constructor].
  - intros [= <- <-]. apply (tracked_control s); try done; [apply evolves_refl|by repeat constructor|by repeat constructor].
Qed.

(** ** The rest of a handler *)

Lemma object_pop id st a rest l : object_ok id st (a :: rest) l -> (forall d e, a <> Data id d e) ->
  (forall r e, a <> Finish id r e) -> object_ok id st rest l.
Proof.
  unfold object_ok. destruct (finished st); [done|]. intros H Hd Hf. assert (pendingData id (a :: rest) = pendingData id rest) as E.
  { change (a :: rest) with ([a] ++ rest). rewrite pendingData_app. unfold pendingData at 1. cbn.
    destruct a as [| |i d e| |]; try done. destruct (i =? id) eqn:Ei; [|done]. assert (i = id) as -> by lia. by edestruct Hd. }
  destruct H as [(r & e & H)|H]; [|right; by rewrite E in H]. apply elem_of_cons in H as [H|H]; [by edestruct Hf|]. left. by exists r, e.
Qed.
Lemma shape_pop a rest l : shape (a :: rest) l -> shape rest l /\ (forall id d e, a = Data id d e -> rest = [] /\ exists init, l = init ++ [InData id d e]).
Proof.
  intros [H|(pre & i & x & y & init & E & -> & H)].
  - apply Forall_cons in H as [Ha Hr]. split; [by left|]. by intros ? ? ? ->.
  - destruct pre as [|b pre]; cbn in E; simplify_eq.
    + split; [left; constructor|]. intros ? ? ? [= -> -> ->]. split; [done|by eexists].
    + apply Forall_cons in H as [Hb Hp]. split; [right; by exists pre, i, x, y, init|]. by intros ? ? ? ->.
Qed.

(** Only the action is gone. *)
Lemma tracked_pop s a rest l : tracked s (a :: rest) l -> match a with Data _ _ _ | Finish _ _ _ => False | _ => True end -> tracked s rest l.
Proof.
  intros [T1 T2 T3] Ha. destruct (shape_pop _ _ _ T3) as [Hs _]. constructor; [| |done].
  - intros id st Ho. eapply object_pop; [by apply T1| |]; by destruct a.
  - intros id r Hin. apply T2. by right.
Qed.

Lemma tracked_finish s id r e rest l : core s -> tracked s (Finish id r e :: rest) l -> tracked (finishStream id r e s) rest l.
Proof.
  intros Hc [T1 T2 T3]. destruct (shape_pop _ _ _ T3) as [Hs _].
  assert (forall id r, Finish id r None ∈ rest -> completeFrom id l r) as T2' by (intros; apply T2; by right).
  assert (forall i st, i <> id -> objects s !! i = Some st -> object_ok i st rest l) as Hother.
  { intros i st Hne Ho. apply (object_pop i st (Finish id r e)); [by apply T1|done|]. by intros ? ? [= <- _ _]. }
  unfold finishStream. destruct (active id s) as [st|] eqn:Ea.
  - apply active_Some in Ea as (_ & Ho & Hf); [|done]. unfold finishLocked. rewrite Ho. constructor; [|done|done].
    intros i x. cbn. intros [[<- <-]|[Hne Hx]]%lookup_insert_Some; [|by apply Hother]. unfold object_ok. cbn. intros ->. apply T2. by left.
  - constructor; [|done|done]. intros i st Ho. destruct (decide (i = id)) as [->|]; [|by apply Hother].
    destruct (finished st) eqn:Hf.
    + pose proof (T1 id st Ho) as H. unfold object_ok in *. by rewrite Hf in *.
    + unfold active in Ea. destruct (core_object _ Hc id st Ho) as (_ & Hin & _).
      rewrite bool_decide_eq_true_2, Ho in Ea by by apply Hin. cbn in Ea. by rewrite Hf in Ea.
Qed.

(** The stream is about to end with an error. *)
Lemma tracked_protocol s id r e l : tracked s [] l \/ (exists d x, tracked s [Data id d x] l) -> e <> None -> tracked s [Finish id r e] l.
Proof.
  intros H He. assert (forall i st, objects s !! i = Some st -> i <> id -> object_ok i st [Finish id r e] l) as Hother.
  { intros i st Ho Hne. assert (object_ok i st [] l) as Hi.
    { destruct H as [H|(d & x & H)]; [by apply H|]. apply (object_pop i st (Data id d x)); [by apply H| |done]. by intros ? ? [= <- _ _]. }
    unfold object_ok in *. destruct (finished st); [done|]. destruct Hi as [Hi|Hi]; [by apply not_finishing in Hi|by right]. }
  constructor; [| |left; by repeat constructor].
  - intros i st Ho. destruct (decide (i = id)) as [->|Hne]; [|by apply Hother]. unfold object_ok. destruct (finished st) eqn:Hf.
    + destruct H as [H|(d & x & H)]; pose proof (tr_object _ _ _ H id st Ho) as Hi; unfold object_ok in Hi; by rewrite Hf in Hi.
    + left. exists r, e. by left.
  - intros i r' Hin. apply list_elem_of_singleton in Hin. congruence.
Qed.

Lemma tracked_dataSection s id d e l s' acts : core s -> tracked s [Data id d e] l -> (exists init, l = init ++ [InData id d e]) ->
  dataSection id d e s = (s', acts) -> tracked s' acts l.
Proof.
  intros Hc T [init Hlast]. unfold dataSection. destruct (active id s) as [st|] eqn:Ea.
  2:{ intros [= <- <-]. constructor; [|by intros ? ? ?%elem_of_nil|left; constructor]. intros i st Ho. pose proof (tr_object _ _ _ T i st Ho) as Hi.
      destruct (decide (i = id)) as [->|Hne]; [|apply (object_pop i st (Data id d e)); [done| |done]; by intros ? ? [= <- _ _]].
      destruct (finished st) eqn:Hf; [unfold object_ok in *; by rewrite Hf in *|]. exfalso. unfold active in Ea.
      destruct (core_object _ Hc id st Ho) as (_ & Hin & _). rewrite bool_decide_eq_true_2, Ho in Ea by by apply Hin. cbn in Ea. by rewrite Hf in Ea. }
  apply active_Some in Ea as (_ & Ho & Hf); [|done].
  destruct (negb (headersReceived st)) eqn:Er; [intros [= <- <-]; apply tracked_protocol; [right; eauto|done]|].
  destruct (BodyBytes <? _); [intros [= <- <-]; apply tracked_protocol; [right; eauto|done]|]. apply negb_false_iff in Er.
  set (st' := set_body (Body2 (response st) ++ d) st).
  pose proof (tr_object _ _ _ T id st Ho) as Hl. unfold object_ok in Hl. rewrite Hf in Hl.
  destruct Hl as [(r & x & Hl)|(before & window & Hw & Hl)]; [by apply list_elem_of_singleton in Hl|]. rewrite Er in Hl. destruct Hl as [[(m & h & Hm & Hi & Hd & Hh)] Hb].
  unfold pendingData in Hb. cbn in Hb. rewrite Z.eqb_refl, app_nil_r in Hb.
  assert (collectedFrom id window (response st') (expectedLength st')) as Hcol.
  { constructor. exists m, h. split_and!; try done. cbn. by rewrite Hh. }
  assert (tracked (set_object id st' s) [] l) as T'.
  { constructor; [|by intros ? ? ?%elem_of_nil|left; constructor]. intros i x. cbn. intros [[<- <-]|[Hne Hx]]%lookup_insert_Some.
    - unfold object_ok. cbn. rewrite Hf. right. exists before, window. split; [done|]. cbn. rewrite Er, app_nil_r. done.
    - apply (object_pop i x (Data id d e)); [by apply T| |done]. by intros ? ? [= <- _ _]. }
  destruct (match expectedLength st' with Some n => n <? _ | None => false end);
    [intros [= <- <-]; apply tracked_protocol; [by left|done]|].
  destruct e; [|by intros [= <- <-]].
  destruct (match expectedLength st' with Some n => negb (_ =? n) | None => false end) eqn:E2; intros [= <- <-];
    [apply tracked_protocol; [by left|done]|].
  change (tracked (set_object id st' s) [finalize id (response st')] l). unfold finalize. destruct (finalizeResponse (response st')) as [r|x] eqn:Efin;
    [|apply tracked_protocol; [by left|done]].
  destruct (tracked_protocol (set_object id st' s) id r (Some EOFError) l) as [P1 _ _]; [by left|done|].
  constructor; [| |left; by repeat constructor].
  - intros i x Hx. specialize (P1 i x Hx). unfold object_ok in *. destruct (finished x); [done|].
    destruct P1 as [(r' & e' & H)|H]; [|by right]. left. apply list_elem_of_singleton in H. simplify_eq. exists r, None. by left.
  - intros i r' H. apply list_elem_of_singleton in H. injection H as -> ->.
    exists before, window, [], (response st'), (expectedLength st'). rewrite app_nil_r. split_and!; try done.
    + intros n Hn. rewrite Hn in E2. apply negb_false_iff, Z.eqb_eq in E2. exact E2.
    + rewrite Hw in Hlast. destruct (exists_last (l := window)) as (w & f & Ew); [by intros ->; apply elem_of_nil in Hm|].
      exists w, f. split; [done|]. rewrite Ew, app_assoc in Hlast. apply app_inj_tail in Hlast as [_ ->]. cbn. by rewrite Z.eqb_refl.
Qed.

Lemma tracked_act s a rest s' acts l : core s -> tracked s (a :: rest) l -> act a s = (s', acts) -> tracked s' (acts ++ rest) l.
Proof.
  intros Hc T. destruct a as [id r e|w|id d e|id status hs|e]; cbn.
  - intros [= <- <-]. by apply tracked_finish.
  - intros [= <- <-]. by eapply tracked_pop.
  - destruct (shape_pop _ _ _ (tr_shape _ _ _ T)) as [_ H]. destruct (H id d e eq_refl) as [-> Hl]. rewrite app_nil_r.
    by apply tracked_dataSection.
  - intros [= <- <-]. by eapply tracked_pop.
  - intros [= <- <-]. eapply tracked_evolves; [by eapply tracked_pop|apply evolves_shutdown].
Qed.

(** ** The system *)

Definition reply_ok (l : list inbound) (p : place) : Prop :=
  match p with
  | Answered (Some id) resp None => completeFrom id l resp
  | Answered None _ None => False
  | _ => True
  end.
Record following (σ : system) : Prop := {
  fo_tracked : tracked (session σ) (actions σ) (inbox σ);
  fo_replies : Forall (fun r => reply_ok (inbox σ) (at_ r)) (requests σ)
}.

Lemma following_move σ k p : following σ -> reply_ok (inbox σ) p -> following (move k p σ).
Proof. intros [F1 F2] Hp. split; [done|]. apply Forall_alter; [done|]. by intros r Hr _. Qed.
Lemma following_session σ s : following σ -> evolves (session σ) s -> following (set_session s σ).
Proof. intros [F1 F2] He. split; [by eapply tracked_evolves|done]. Qed.
Lemma following_fail σ k id e : following σ -> following (failRequest k id e σ).
Proof. intros F. apply following_move; [|done]. apply following_session; [done|apply evolves_cancel]. Qed.
Lemma following_notify σ c call : following σ -> following (notify c call σ).
Proof.
  intros [F1 F2]. unfold notify. destruct (caller call); [|done]. split; [done|]. apply Forall_alter; [done|].
  intros r _ H. cbn in *. by destruct (at_ r).
Qed.
Lemma following_commit σ call : following σ -> following (commit call σ).
Proof. intros [F1 F2]. unfold commit. repeat case_match; try done. split; [done|]. by apply Forall_alter. Qed.
Lemma following_same σ σ' : following σ -> session σ' = session σ -> actions σ' = actions σ -> inbox σ' = inbox σ ->
  requests σ' = requests σ -> following σ'.
Proof. intros [F1 F2] E1 E2 E3 E4. split; rewrite ?E1, ?E2, ?E3, ?E4; done. Qed.
Lemma reply_stream σ id st : inv σ -> following σ -> objects (session σ) !! id = Some st -> finished st = true ->
  reply_ok (inbox σ) (Answered (Some id) (response st) (err st)).
Proof.
  intros Hi [F1 _] Ho Hf. cbn. destruct (err st) eqn:E; [done|]. pose proof (tr_object _ _ _ F1 id st Ho) as H.
  unfold object_ok in H. rewrite Hf in H. by apply H.
Qed.
Lemma reply_ok_app l f p : reply_ok l p -> reply_ok (l ++ [f]) p.
Proof. destruct p as [| | | | | | | | | | |[id|] resp [e|]]; try done. apply completeFrom_app. Qed.

Lemma following_readStep σ σ' : readStep σ σ' -> inv σ -> following σ -> following σ'.
Proof.
  intros Hs Hi F. pose proof F as [F1 F2]. pose proof (inv_core _ Hi) as Hc. destruct Hs as
    [f s acts _ Ha Hf Hr|a rest s acts Ha Hnq Hact|w rest Ha _|w rest Ha _].
  - rewrite Ha in F1. split; cbn; [by apply (tracked_receive (session σ))|]. eapply Forall_impl; [exact F2|].
    intros r. apply reply_ok_app.
  - rewrite Ha in F1. split; [by eapply tracked_act|done].
  - rewrite Ha in F1. split; [by eapply tracked_pop|done].
  - rewrite Ha in F1. split; [by eapply tracked_pop|done].
Qed.
Lemma following_writeStep σ σ' : writeStep σ σ' -> inv σ -> following σ -> following σ'.
Proof.
  intros Hs Hi F. pose proof F as [F1 F2]. pose proof (inv_core _ Hi) as Hc. destruct Hs as
    [c q Hw Hq _|c q Hw Hq _|c Hw|c fs Hw Hfs|Hw|Hw _].
  - apply following_notify. by apply (following_same σ).
  - apply following_notify. by apply (following_same σ).
  - apply following_notify, following_commit. by apply (following_same σ).
  - apply following_notify, following_commit. by apply (following_same σ).
  - apply (following_same (set_session (shutdown ReadWriteError (session σ)) σ)); [|done..].
    apply following_session; [done|apply evolves_shutdown].
  - by apply (following_same σ).
Qed.
Lemma following_requestStep σ σ' : requestStep σ σ' -> inv σ -> following σ -> following σ'.
Proof.
  intros Hs Hi F. pose proof F as [F1 F2]. pose proof (inv_core _ Hi) as Hc. destruct Hs as
    [blk bdy|k
    |k r s a Hr Hat Hacq|k r n Hr Hat _|k r n e Hr Hat _|k r id Hr Hat _ _|k r id offset n Hr Hat _ _
    |k r id e Hr Hat _|k r id Hr Hat|k r id offset n Hr Hat|k r id c e Hr Hat _
    |k r id offset s a Hr Hat _ _ Hres|k r id offset n Hr Hat _|k r id offset n st Hr Hat Ho
    |k r id offset Hr Hat Hlen|k r id st Hr Hat Ho Hd|k r id Hr Hat _|k r id Hr Hat _|k r id Hr Hat _|k r id Hr Hat].
  - split; [done|]. apply Forall_app. split; [done|]. by apply Forall_singleton.
  - split; [done|]. by apply Forall_alter.
  - assert (tracked s (actions σ) (inbox σ)) as Ht.
    { destruct a as [e|id|n]; [rewrite (acquire_other _ _ _ Hacq) by done; done| |rewrite (acquire_other _ _ _ Hacq) by done; done].
      destruct (acquire_Ok _ _ _ Hacq) as (-> & _). by apply tracked_opened. }
    apply following_move; [by split|by destruct a].
  - by apply following_move.
  - by apply following_move.
  - apply following_move; [|done]. by apply (following_same σ).
  - apply following_move; [|done]. by apply (following_same σ).
  - by apply following_fail.
  - by apply following_move.
  - by apply following_move.
  - by apply following_fail.
  - pose proof (evolves_reserve id (len (body r) - offset) (session σ)) as He. rewrite Hres in He. cbn in He.
    apply following_move; [by apply following_session|]. unfold reserveSend in Hres.
    destruct (objects (session σ) !! id) as [st|] eqn:Eo.
    + destruct (finished st) eqn:Ef; [|by destruct (0 <? _); simplify_eq]. simplify_eq. rewrite Eo. exact (reply_stream σ id st Hi F Eo Ef).
    + simplify_eq. rewrite Eo. done.
  - by apply following_move.
  - destruct (finished st) eqn:Ef; [apply following_move; [done|by eapply reply_stream]|].
    destruct (ctxDone r); [by apply following_move|by apply following_fail].
  - by apply following_move.
  - apply following_move; [done|]. eapply reply_stream; [done|done|done|]. by destruct (core_object _ Hc id st Ho) as (<- & _).
  - by apply following_move.
  - by apply following_move.
  - apply following_move; [|done]. by apply (following_same σ).
  - by apply following_fail.
Qed.
Lemma following_step σ σ' : step σ σ' -> inv σ -> following σ -> following σ'.
Proof.
  intros Hs Hi F. pose proof F as [F1 F2]. pose proof (inv_core _ Hi) as Hc. destruct Hs as [σ' Hs|σ' Hs|σ' Hs|].
  - by eapply following_readStep.
  - by eapply following_writeStep.
  - by eapply following_requestStep.
  - apply following_session; [done|apply evolves_shutdown].
Qed.

Lemma following_reachable `{!SettingsLaws V} σ : reachable σ -> following σ.
Proof.
  intros (settings & σ0 & H0 & Hσ). pose proof (h2_inv_initial _ _ H0) as Hi. assert (following σ0) as F.
  { unfold initial in H0. destruct (applySettings settings newSession) as [s [e|]] eqn:E; [done|]. injection H0 as <-.
    pose proof (evolves_settings settings newSession) as He. rewrite E in He.
    split; [|constructor]. constructor; cbn; [|by intros ? ? ?%elem_of_nil|left; constructor].
    intros id st Ho. destruct (He id st Ho) as [(? & Hx & _)|[Hf Hn]]; [done|]. unfold object_ok. by rewrite Hf. }
  clear H0. induction Hσ as [σ|σ1 σ2 σ3 Hs _ IH]; [done|]. apply IH; [by eapply h2_inv_step|by eapply following_step].
Qed.

(** ** Theorem *)

(** C15. A response that Do returns without an error comes from consecutive frames
    of the connection: the fields of one HEADERS frame of the stream of the request
    and all its DATA up to the frame that ended it, of the announced length, decoded
    by finalizeResponse; its status is final and its body is within the limits for
    size, error bodies and expansion. *)
Theorem answers_are_what_the_peer_sent `{!SettingsLaws V} `{!GzipLimit G} σ k r id resp : reachable σ -> requests σ !! k = Some r ->
  at_ r = Answered id resp None ->
  exists i before window after m h expected, id = Some i /\ inbox σ = before ++ window ++ after /\
    InHeaders m ∈ window /\ Meta_StreamID m = i /\ decodeResponseHeaders m = Ok (h, expected) /\
    (exists init f, window = init ++ [f] /\ endsStream i f = true) /\
    (forall n, expected = Some n -> len (dataIn i window) = n) /\
    finalizeResponse (withBody h (dataIn i window)) = Ok resp /\
    200 <= Status2 resp <= 599 /\ len (Body2 resp) <= BodyBytes /\ len (Body2 resp) <= len (dataIn i window) * ExpansionRatio /\
    (~ success (Status2 resp) -> len (Body2 resp) <= ErrorBodyBytes) /\ (Truncated2 resp = true -> ~ success (Status2 resp)).
Proof.
  intros H Hr Hat. pose proof (list_elem_of_lookup_2 _ _ _ Hr) as Hin.
  pose proof (proj1 (Forall_forall _ _) (answered_reachable σ H) r Hin) as Ha. pose proof (proj1 (Forall_forall _ _) (fo_replies _ (following_reachable σ H)) r Hin) as Hf.
  cbn in Ha, Hf. rewrite Hat in Ha, Hf. destruct id as [i|]; [|done].
  destruct Hf as (before & window & after & r0 & expected & Hl & [(m & h & Hm & Hi & Hd & Hw)] & Hb & Hn & Hend & Hfin).
  destruct Ha as (r1 & expected1 & (C1 & _ & _ & C4 & C5) & _ & Hfin1).
  exists i, before, window, after, m, h, expected. rewrite Hb in Hw. rewrite Hw in Hfin. rewrite Hb in Hn.
  assert (len (dataIn i window) = CompressedBytes2 resp) as Hcomp by (by rewrite (finalizeResponse_compressed _ _ Hfin)).
  destruct (finalizeResponse_ok _ _ Hfin1 C4 C5) as (F1 & F2 & F3 & F4 & F5 & F6 & F7 & _).
  split_and!; try done; [lia|lia| |by rewrite F1|by rewrite F1]. rewrite Hcomp, F3. done.
Qed.
End inbound.

Import Demo.
Lemma answers_are_what_the_peer_sent_witness : exists σ before window after resp, reachable σ /\
  inbox σ = before ++ window ++ after /\ Body2 resp = [104; 105] /\ len (dataIn 1 window) = CompressedBytes2 resp.
Proof.
  destruct answered_run as (σ & H & (r & resp & Hr & Hat & Hb) & _).
  destruct (answers_are_what_the_peer_sent σ 0 r (Some 1) resp H Hr Hat)
    as (i & before & window & after & m & h & expected & Hi & Hl & _ & _ & _ & _ & _ & Hfin & _).
  injection Hi as <-. exists σ, before, window, after, resp. split; [exact H|]. split; [exact Hl|]. split; [exact Hb|].
  by rewrite (finalizeResponse_compressed _ _ Hfin).
Defined.
