(* ===== verification/H2Handshake.v ===== *)
(** * The start of an HTTP/2 session (internal/h2/session.go, [NewSession])

    The exchange of settings over a connection that may fail at every call, and the limit
    on header lists that the client announces, against the limits of its own decoder. *)
From S2P Require Import Prelude Errors GoText StrictJson Response H2Frame H2Session H2System.

(** [http2.SettingHeaderTableSize], [SettingEnablePush], [SettingMaxHeaderListSize]. *)
Definition SettingHeaderTableSize : Z := 1.
Definition SettingEnablePush : Z := 2.
Definition SettingMaxHeaderListSize : Z := 6.

(** session.go: 32 bytes of overhead for a field in place of four. *)
Definition maxHPACKListSize : Z := HeaderBytes + (32 - 4) * HeaderFields.

(** ** The handshake *)

(** What the client writes. *)
Inductive preface := ClientPreface | ClientSettings (settings : list (Z * Z)) | SettingsAck.

Inductive handshakeError :=
| NilConnection | DeadlineFailed | PrefaceFailed | SettingsFailed | ReadFailed | NotSettings | SettingsRefused (e : sessionError) | AckFailed.

(** What the connection answers: whether setting the deadline fails, when the context has
    one; whether the writes fail; the first frame. *)
Record handshakeEnv := mkHandshake {
  connNil : bool;
  deadlineFails : option bool;
  prefaceFails : bool;
  settingsFail : bool;
  firstFrame : option inbound;
  ackFails : bool
}.

Definition clientSettings : list (Z * Z) :=
  [(SettingHeaderTableSize, 0); (SettingEnablePush, 0); (SettingMaxHeaderListSize, maxHPACKListSize)].

(** session.go, [NewSession]: what was written, and the session with its loops started. *)
Definition NewSession {V : Settings} (W : handshakeEnv) : list preface * result handshakeError system :=
  if connNil W then ([], Err NilConnection)
  else if default false (deadlineFails W) then ([], Err DeadlineFailed)
  else if prefaceFails W then ([], Err PrefaceFailed)
  else if settingsFail W then ([ClientPreface], Err SettingsFailed)
  else
    let sent := [ClientPreface; ClientSettings clientSettings] in
    match firstFrame W with
    | None => (sent, Err ReadFailed)
    | Some (InSettings false settings) =>
      match applySettings settings newSession with
      | (_, Some e) => (sent, Err (SettingsRefused e))
      | (s, None) =>
        if ackFails W then (sent, Err AckFailed)
        else (sent ++ [SettingsAck], Ok (mkSystem s [] false WriterIdle [] [] [InSettings false settings] []))
      end
    | Some _ => (sent, Err NotSettings)
    end.

(** Settings are accepted exactly when each of them is valid. *)
Lemma applySettings_valid {V : Settings} l : forall s, (applySettings l s).2 = None <-> Forall (fun p => settingValid p.1 p.2 = true) l.
Proof.
  induction l as [|[id v] l IH]; intros s; cbn [applySettings]; [done|]. rewrite Forall_cons. cbn [fst snd].
  destruct (settingValid id v); cbn [negb]; [|naive_solver]. rewrite IH. tauto.
Qed.

(** Nothing fails, and the server opens with settings that are valid. *)
Record welcomed {V : Settings} (W : handshakeEnv) (settings : list (Z * Z)) : Prop := {
  wel_calls : connNil W = false /\ deadlineFails W <> Some true /\ prefaceFails W = false /\ settingsFail W = false /\ ackFails W = false;
  wel_frame : firstFrame W = Some (InSettings false settings);
  wel_valid : Forall (fun p => settingValid p.1 p.2 = true) settings
}.

Lemma NewSession_cases {V : Settings} W :
  (exists settings σ, welcomed W settings /\ initial settings = Some σ /\
     NewSession W = ([ClientPreface; ClientSettings clientSettings; SettingsAck], Ok σ)) \/
  ((forall settings, ~ welcomed W settings) /\
   exists sent e, NewSession W = (sent, Err e) /\ sent `prefix_of` [ClientPreface; ClientSettings clientSettings]).
Proof.
  assert (forall sent e rest, NewSession W = (sent, Err e) -> [ClientPreface; ClientSettings clientSettings] = sent ++ rest ->
    exists sent e, NewSession W = (sent, Err e) /\ sent `prefix_of` [ClientPreface; ClientSettings clientSettings]) as Hout.
  { intros sent e rest -> ->. exists sent, e. split; [done|by exists rest]. }
  unfold NewSession in *. destruct W as [nil_ deadline pre set_ frame ack]. cbn in *.
  destruct nil_; [right; split; [by intros l [[? _] _ _]|by eapply Hout]|].
  destruct deadline as [[]|]; cbn in *; [right; split; [by intros l [(_ & ? & _) _ _]|by eapply Hout]|..].
  all: destruct pre; [right; split; [by intros l [(_ & _ & ? & _) _ _]|by eapply Hout]|].
  all: destruct set_; [right; split; [by intros l [(_ & _ & _ & ? & _) _ _]|by eapply Hout]|].
  all: destruct frame as [[]|]; try (right; split; [by intros l [_ [=] _]|by eapply (Hout _ _ [])]).
  all: match goal with a : bool |- _ => destruct a; [right; split; [by intros l [_ [=] _]|by eapply (Hout _ _ [])]|] end.
  all: destruct (applySettings settings newSession) as [s [e|]] eqn:Ea.
  all: try (right; split; [|by eapply (Hout _ _ [])]; intros l [_ [= <-] Hv]; apply (applySettings_valid settings newSession) in Hv; rewrite Ea in Hv; done).
  all: destruct ack; [right; split; [by intros l [(_ & _ & _ & _ & ?) _ _]|by eapply (Hout _ _ [])]|].
  all: left; eexists settings, _; split_and!; [|unfold initial; by rewrite Ea|done].
  all: split; [done|done|apply (applySettings_valid settings newSession); by rewrite Ea].
Qed.

(** A session starts exactly when the server opens with valid settings and nothing fails;
    the settings are acknowledged exactly then; and the session is one that the step
    relation starts from, so that all that holds in reachable states holds from then on. *)
Theorem handshake_exact {G : GzipReader} {V : Settings} W :
  (forall σ, (NewSession W).2 = Ok σ -> reachable σ) /\
  ((exists σ, (NewSession W).2 = Ok σ) <-> exists settings, welcomed W settings) /\
  (SettingsAck ∈ (NewSession W).1 <-> exists σ, (NewSession W).2 = Ok σ) /\
  (NewSession W).1 `prefix_of` [ClientPreface; ClientSettings clientSettings; SettingsAck].
Proof.
  destruct (NewSession_cases W) as [(settings & σ & Hw & Hi & ->)|(Hw & sent & e & -> & rest & Hs)]; cbn.
  - split_and!; [|split; eauto|split; [eauto|intros _; set_solver]|done]. intros σ' [= <-]. exists settings, σ. split; [done|apply rtc_refl].
  - split_and!; [done|split; [by intros [? ?]|intros [l Hl]; by destruct (Hw l)]| |].
    + split; [|by intros [? ?]]. intros Hin. assert (SettingsAck ∈ [ClientPreface; ClientSettings clientSettings]) by (rewrite Hs; set_solver). set_solver.
    + exists (rest ++ [SettingsAck]). rewrite app_assoc, <- Hs. done.
Qed.

(** ** The limit on header lists *)

(** The size of a field line, and whether a header list is over the limit that the client
    announces, both as RFC 9113 6.5.2 counts: over all field lines, pseudo fields too. *)
Definition hpackSize (f : Header) : Z := len (Name2 f) + len (Value2 f) + 32.
Definition overList (f : MetaHeadersFrame) : bool := maxHPACKListSize <? zsum hpackSize (Meta_Pseudo f ++ Meta_Regular f).

Lemma decodeFields_size fields : forall kept n expected r, n <= HeaderBytes -> decodeFields fields kept n expected = Ok r ->
  n + zsum (fun f => len (Name2 f) + len (Value2 f) + 4) fields <= HeaderBytes.
Proof.
  induction fields as [|f fields IH]; intros kept n expected r Hn; cbn [decodeFields zsum]; [intros _; cbn; lia|].
  destruct (_ || _); [done|]. cbv zeta. destruct (Z.ltb_spec HeaderBytes (n + (len (Name2 f) + 2 + len (Value2 f) + 2))) as [|Hle]; [done|].
  intros Hok. assert (exists kept' expected', decodeFields fields kept' (n + (len (Name2 f) + 2 + len (Value2 f) + 2)) expected' = Ok r) as (k' & e' & Hr).
  { repeat case_match; try done; eauto. }
  apply IH in Hr; [|lia]. lia.
Qed.

(** What the decoder accepts is over the announced limit by no more than the size of its
    status field: the limit leaves no room for it. *)
Theorem decoded_headers_fit f r : decodeResponseHeaders f = Ok r ->
  zsum hpackSize (Meta_Regular f) <= maxHPACKListSize /\ zsum hpackSize (Meta_Pseudo f) = 42.
Proof.
  unfold decodeResponseHeaders. destruct (Meta_Truncated f); [done|]. destruct (Meta_Pseudo f) as [|p [|]]; try done.
  destruct (negb (Name2 p ==? B ":status") || negb (len (Value2 p) =? 3)) eqn:Hp; [done|]. destruct (Atoi (Value2 p)); [|done].
  destruct ((_ <? 100) || _); [done|]. destruct (HeaderFields <? len (Meta_Regular f)) eqn:Hn; [done|]. apply Z.ltb_ge in Hn.
  destruct (decodeFields (Meta_Regular f) [] 0 None) as [[hs e]|] eqn:Hd; [|done]. intros _.
  apply decodeFields_size in Hd; [|done]. split.
  - assert (zsum hpackSize (Meta_Regular f) = zsum (fun f => len (Name2 f) + len (Value2 f) + 4) (Meta_Regular f) + 28 * len (Meta_Regular f)) as ->.
    { unfold hpackSize, len. generalize (Meta_Regular f). induction l as [|x l IH]; [done|]. cbn [zsum length]. rewrite IH, Nat2Z.inj_succ. lia. }
    unfold maxHPACKListSize. lia.
  - apply orb_false_iff in Hp as [Hn'%negb_false_iff Hv%negb_false_iff]. apply bool_decide_eq_true in Hn'. apply Z.eqb_eq in Hv. cbn [zsum]. unfold hpackSize. rewrite Hn'. change (len (B ":status")) with 7. lia.
Qed.

(** ** A response at the limit *)
Module Demo.
(** Fields of 655 bytes each, the overhead of four included: in all 65500 bytes. *)
Definition field : Header := mkHeader2 (B "x") (replicate 650 97).
Definition full (truncated : bool) : MetaHeadersFrame :=
  mkMetaHeaders 1 [mkHeader2 (B ":status") (B "202")] (replicate 100 field) truncated true.
(** It is within the limits of the decoder, but over the announced one: a server that
    honours the setting may not send it, and when it is marked as truncated it is
    refused. *)
Lemma response_within_the_limits_is_over_the_setting :
  (exists r, decodeResponseHeaders (full false) = Ok r) /\ overList (full false) = true /\ decodeResponseHeaders (full true) = Err ErrResponseTooLarge.
Proof. split; [eexists; vm_compute; reflexivity|]. split; vm_compute; reflexivity. Qed.
End Demo.
