(* ===== verification/Observer.v ===== *)
(** * Observers (observer.go)

    The dispatcher that hands events to an observer callback on a goroutine of its own,
    through a channel of bounded capacity.  Its critical sections are functions of the
    record [dispatcher]; the step relation has the goroutines that emit, the dispatcher's
    own goroutine, callers of [close] and [flush], and [close] called by the callback.
    A waiter on the condition variable sleeps until a broadcast, so that a wake-up that
    comes too early would be lost. *)
From S2P Require Import Prelude Errors RuntimeState.

(** ** Data *)

Definition observerQueueCapacity : Z := 1024.

Inductive ObserverEventKind :=
| ObserverEventKindOperationStart | ObserverEventKindAttemptStart | ObserverEventKindAttemptEnd
| ObserverEventKindRetryDelay | ObserverEventKindOperationCancel | ObserverEventKindOperationEnd.
Inductive ObserverOutcome :=
| ObserverOutcomeNone | ObserverOutcomeAccepted | ObserverOutcomeRetryableFailure | ObserverOutcomeRejected
| ObserverOutcomeFailed | ObserverOutcomeCancelled | ObserverOutcomeClosed.
#[export] Instance ObserverOutcome_eq_dec : EqDecision ObserverOutcome.
Proof. solve_decision. Defined.
Inductive HTTPStatusClass :=
| HTTPStatusClassNone | HTTPStatusClassSuccess | HTTPStatusClassRedirection | HTTPStatusClassClientError
| HTTPStatusClassServerError.

Record AttemptSummary := mkSummary {
  Summary_AttemptNumber : Z;
  Summary_Outcome : ObserverOutcome;
  Summary_ErrorCode : ErrorCode;
  Summary_DeliveryState : DeliveryState;
  Summary_HTTPStatusClass : HTTPStatusClass;
  Summary_Duration : Z
}.
Record ObserverEvent := mkEvent {
  SchemaVersion : Z;
  Kind : ObserverEventKind;
  Event_OperationID : bytes;
  Timestamp : Z;
  AttemptNumber : Z;
  Duration : Z;
  Outcome : ObserverOutcome;
  Event_ErrorCode : ErrorCode;
  Event_DeliveryState : DeliveryState;
  Event_HTTPStatusClass : HTTPStatusClass;
  RetryDelay : Z;
  OperationStartedAt : Z;
  OperationEndedAt : Z;
  AttemptSummaries : list AttemptSummary
}.

(** observer.go, [observerDispatcher]: the channel [events], whether [stop] and [done]
    are closed, the fields under the mutex; [panicked] is set by closing a closed
    channel. *)
Record dispatcher := mkDispatcher {
  events : list ObserverEvent;
  stop : bool;
  done : bool;
  pending : Z;
  active : bool;
  closing : bool;
  panicked : bool
}.
Definition newDispatcher : dispatcher := mkDispatcher [] false false 0 false false false.

(** ** Critical sections *)

(** observer.go, [emit]: [false] when the event is dropped. *)
Definition emit (e : ObserverEvent) (d : dispatcher) : dispatcher * bool :=
  if closing d then (d, false)
  else if len (events d) <? observerQueueCapacity
  then (mkDispatcher (events d ++ [e]) (stop d) (done d) (pending d + 1) (active d) (closing d) (panicked d), true)
  else (d, false).

(** observer.go, [claimDelivery]. *)
Definition claimDelivery (d : dispatcher) : dispatcher * bool :=
  if closing d then (d, false)
  else (mkDispatcher (events d) (stop d) (done d) (pending d) true (closing d) (panicked d), true).

(** observer.go, [deliver], after the callback. *)
Definition delivered (d : dispatcher) : dispatcher :=
  mkDispatcher (events d) (stop d) (done d) (pending d - 1) false (closing d) (panicked d).

(** observer.go, [complete]: [true] when it broadcasts. *)
Definition complete (count : Z) (d : dispatcher) : dispatcher * bool :=
  (mkDispatcher (events d) (stop d) (done d) (pending d - count) (active d) (closing d) (panicked d), pending d - count =? 0).

Definition take_event (q : list ObserverEvent) (d : dispatcher) : dispatcher :=
  mkDispatcher q (stop d) (done d) (pending d) (active d) (closing d) (panicked d).
Definition closeStop (d : dispatcher) : dispatcher :=
  mkDispatcher (events d) true (done d) (pending d) (active d) true (panicked d || stop d).
Definition closeDone (d : dispatcher) : dispatcher :=
  mkDispatcher (events d) (stop d) true (pending d) (active d) (closing d) (panicked d || done d).
Definition set_closing (d : dispatcher) : dispatcher :=
  mkDispatcher (events d) (stop d) (done d) (pending d) (active d) true (panicked d).

(** ** Goroutines *)

(** Where [run] is; [RunClaim] has taken an event, [RunCallback] is in the observer,
    [RunDropping] has drained some events after [stop]. *)
Inductive runState :=
| RunTop | RunSelect | RunClaim (e : ObserverEvent) | RunCallback | RunReturned | RunRefused | RunRefusedCounted
| RunDropping (n : Z) | RunDropCount (n : Z) | RunDropComplete (n : Z) | RunDone.

(** Where a caller of [close] or of [flush] is. *)
Inductive closer := CloseEntered | CloseAsleep | CloseAwake | CloseWaitDone | CloseReturned.
Inductive flusher := FlushCheck | FlushAsleep | FlushReturned.

(** [due] counts the goroutines that have dropped an event and not counted it yet.
    [accepted], [handled] and [refused] are the history: events put into the channel,
    events taken out and whether they went to the observer, events not put in. *)
Record system := mkSystem {
  disp : dispatcher;
  state : runtimeState;
  due : Z;
  run : runState;
  closers : list closer;
  flushers : list flusher;
  accepted : list ObserverEvent;
  handled : list (ObserverEvent * bool);
  refused : Z
}.
Definition set_run d r h σ := mkSystem d (state σ) (due σ) r (closers σ) (flushers σ) (accepted σ) h (refused σ).
Definition set_state s r σ := mkSystem (disp σ) s (due σ) r (closers σ) (flushers σ) (accepted σ) (handled σ) (refused σ).
Definition set_closers d c σ := mkSystem d (state σ) (due σ) (run σ) c (flushers σ) (accepted σ) (handled σ) (refused σ).
Definition set_flushers f σ := mkSystem (disp σ) (state σ) (due σ) (run σ) (closers σ) f (accepted σ) (handled σ) (refused σ).

(** [cond.Broadcast]. *)
Definition wake (c : closer) : closer := match c with CloseAsleep => CloseAwake | c => c end.
Definition wakeFlush (f : flusher) : flusher := match f with FlushAsleep => FlushCheck | f => f end.
Definition broadcast (σ : system) : system :=
  mkSystem (disp σ) (state σ) (due σ) (run σ) (map wake (closers σ)) (map wakeFlush (flushers σ)) (accepted σ) (handled σ) (refused σ).

(** observer.go, [emit], one call. *)
Inductive emitStep (σ : system) : system -> Prop :=
| step_emit e d : emit e (disp σ) = (d, true) ->
    emitStep σ (mkSystem d (state σ) (due σ) (run σ) (closers σ) (flushers σ) (accepted σ ++ [e]) (handled σ) (refused σ))
| step_drop e d : emit e (disp σ) = (d, false) ->
    emitStep σ (mkSystem d (state σ) (due σ + 1) (run σ) (closers σ) (flushers σ) (accepted σ) (handled σ) (refused σ + 1))
| step_count : 0 < due σ ->
    emitStep σ (mkSystem (disp σ) (addDroppedObserverEvents 1 (state σ)) (due σ - 1) (run σ) (closers σ) (flushers σ)
      (accepted σ) (handled σ) (refused σ)).

(** observer.go, [run], [deliver] and [dropPending]. *)
Inductive runStep (σ : system) : system -> Prop :=
| run_top_stop : run σ = RunTop -> stop (disp σ) = true -> runStep σ (set_run (disp σ) (RunDropping 0) (handled σ) σ)
| run_top : run σ = RunTop -> stop (disp σ) = false -> runStep σ (set_run (disp σ) RunSelect (handled σ) σ)
| run_receive e q : run σ = RunSelect -> events (disp σ) = e :: q ->
    runStep σ (set_run (take_event q (disp σ)) (RunClaim e) (handled σ) σ)
| run_stop : run σ = RunSelect -> stop (disp σ) = true -> runStep σ (set_run (disp σ) (RunDropping 0) (handled σ) σ)
| run_claim e d : run σ = RunClaim e -> claimDelivery (disp σ) = (d, true) ->
    runStep σ (set_run d RunCallback (handled σ ++ [(e, true)]) σ)
| run_refuse e d : run σ = RunClaim e -> claimDelivery (disp σ) = (d, false) ->
    runStep σ (set_run d RunRefused (handled σ ++ [(e, false)]) σ)
| run_return : run σ = RunCallback -> runStep σ (set_state (state σ) RunReturned σ)
| run_panic : run σ = RunCallback -> runStep σ (set_state (addObserverFailure (state σ)) RunReturned σ)
| run_delivered : run σ = RunReturned -> runStep σ (broadcast (set_run (delivered (disp σ)) RunTop (handled σ) σ))
| run_refused : run σ = RunRefused -> runStep σ (set_state (addDroppedObserverEvents 1 (state σ)) RunRefusedCounted σ)
| run_refused_complete d b : run σ = RunRefusedCounted -> complete 1 (disp σ) = (d, b) ->
    runStep σ (let σ' := set_run d RunTop (handled σ) σ in if b then broadcast σ' else σ')
| run_drain e q n : run σ = RunDropping n -> events (disp σ) = e :: q ->
    runStep σ (set_run (take_event q (disp σ)) (RunDropping (n + 1)) (handled σ ++ [(e, false)]) σ)
| run_drained n : run σ = RunDropping n -> events (disp σ) = [] -> 0 < n -> runStep σ (set_run (disp σ) (RunDropCount n) (handled σ) σ)
| run_drained_none : run σ = RunDropping 0 -> events (disp σ) = [] ->
    runStep σ (set_run (closeDone (disp σ)) RunDone (handled σ) σ)
| run_drop_count n : run σ = RunDropCount n -> runStep σ (set_state (addDroppedObserverEvents n (state σ)) (RunDropComplete n) σ)
| run_drop_complete n d b : run σ = RunDropComplete n -> complete n (disp σ) = (d, b) ->
    runStep σ (let σ' := set_run (closeDone d) RunDone (handled σ) σ in if b then broadcast σ' else σ').

(** observer.go, [close] by another goroutine, and by the callback itself. *)
Inductive closeStep (σ : system) : system -> Prop :=
| close_enter : closeStep σ (set_closers (disp σ) (closers σ ++ [CloseEntered]) σ)
| close_second k : closers σ !! k = Some CloseEntered -> closing (disp σ) = true ->
    closeStep σ (set_closers (disp σ) (<[k := CloseWaitDone]> (closers σ)) σ)
| close_wait k c : closers σ !! k = Some c -> (c = CloseEntered /\ closing (disp σ) = false \/ c = CloseAwake) ->
    active (disp σ) = true -> closeStep σ (set_closers (set_closing (disp σ)) (<[k := CloseAsleep]> (closers σ)) σ)
| close_stop k c : closers σ !! k = Some c -> (c = CloseEntered /\ closing (disp σ) = false \/ c = CloseAwake) ->
    active (disp σ) = false -> closeStep σ (set_closers (closeStop (disp σ)) (<[k := CloseWaitDone]> (closers σ)) σ)
| close_return k : closers σ !! k = Some CloseWaitDone -> done (disp σ) = true ->
    closeStep σ (set_closers (disp σ) (<[k := CloseReturned]> (closers σ)) σ)
| close_self : run σ = RunCallback -> closing (disp σ) = false -> closeStep σ (set_closers (closeStop (disp σ)) (closers σ) σ)
| close_self_second : run σ = RunCallback -> closing (disp σ) = true -> closeStep σ σ.

(** observer.go, [flush]. *)
Inductive flushStep (σ : system) : system -> Prop :=
| flush_enter : flushStep σ (set_flushers (flushers σ ++ [FlushCheck]) σ)
| flush_wait k : flushers σ !! k = Some FlushCheck -> pending (disp σ) <> 0 ->
    flushStep σ (set_flushers (<[k := FlushAsleep]> (flushers σ)) σ)
| flush_return k : flushers σ !! k = Some FlushCheck -> pending (disp σ) = 0 ->
    flushStep σ (set_flushers (<[k := FlushReturned]> (flushers σ)) σ).

Inductive step (σ σ' : system) : Prop :=
| step_of_emit : emitStep σ σ' -> step σ σ'
| step_of_run : runStep σ σ' -> step σ σ'
| step_of_close : closeStep σ σ' -> step σ σ'
| step_of_flush : flushStep σ σ' -> step σ σ'.

Definition initial (s : runtimeState) : system := mkSystem newDispatcher s 0 RunTop [] [] [] [] 0.
Definition reachable (s : runtimeState) (σ : system) : Prop := rtc step (initial s) σ.

(** ** The invariant *)

(** Events that [run] has taken and not completed; those not yet in the history; those
    not yet counted. *)
Definition inHand (r : runState) : Z :=
  match r with
  | RunClaim _ | RunCallback | RunReturned | RunRefused | RunRefusedCounted => 1
  | RunDropping n | RunDropCount n | RunDropComplete n => n
  | _ => 0
  end.
Definition inFlight (r : runState) : list ObserverEvent := match r with RunClaim e => [e] | _ => [] end.
Definition uncounted (r : runState) : Z :=
  match r with RunRefused => 1 | RunDropping n | RunDropCount n => n | _ => 0 end.
Definition stopping (r : runState) : Prop :=
  match r with RunDropping _ | RunDropCount _ | RunDropComplete _ | RunDone => True | _ => False end.
Definition drained (r : runState) : Prop :=
  match r with RunDropCount _ | RunDropComplete _ | RunDone => True | _ => False end.
Definition calling (r : runState) : bool := match r with RunCallback | RunReturned => true | _ => false end.
Definition owner (c : closer) : Z := match c with CloseAsleep | CloseAwake => 1 | _ => 0 end.

Definition dropped (σ : system) : Z := refused σ + zsum (fun x : ObserverEvent * bool => if x.2 then 0 else 1) (handled σ).
Definition counter (s : runtimeState) : Z := DroppedObserverEvents (diagnostics s).

Record base (s0 : runtimeState) (σ : system) : Prop := {
  inv_panicked : panicked (disp σ) = false;
  inv_stop : stop (disp σ) = true -> closing (disp σ) = true;
  inv_owner : zsum owner (closers σ) = if closing (disp σ) && negb (stop (disp σ)) then 1 else 0;
  inv_pending : pending (disp σ) = len (events (disp σ)) + inHand (run σ);
  inv_hand : 0 <= inHand (run σ) /\ len (events (disp σ)) <= observerQueueCapacity /\
    (stopping (run σ) -> len (events (disp σ)) + inHand (run σ) <= observerQueueCapacity);
  inv_active : active (disp σ) = calling (run σ);
  inv_done : done (disp σ) = true <-> run σ = RunDone;
  inv_stopping : stopping (run σ) -> stop (disp σ) = true;
  inv_drained : drained (run σ) -> events (disp σ) = [];
  inv_order : accepted σ = map fst (handled σ) ++ inFlight (run σ) ++ events (disp σ);
  inv_counter : 0 <= due σ /\ counter (state σ) = Z.min maximumDiagnosticCounter (counter s0 + (dropped σ - due σ - uncounted (run σ)));
  inv_counted : 0 <= dropped σ - due σ - uncounted (run σ);
  inv_returned : CloseReturned ∈ closers σ -> done (disp σ) = true;
  inv_waiting : CloseWaitDone ∈ closers σ -> closing (disp σ) = true
}.
(** Whoever sleeps will be woken: what it waits for has not happened yet. *)
Definition sleepers (σ : system) : Prop :=
  (CloseAsleep ∈ closers σ -> active (disp σ) = true) /\ (FlushAsleep ∈ flushers σ -> pending (disp σ) <> 0).
Definition inv (s0 : runtimeState) (σ : system) : Prop := base s0 σ /\ sleepers σ.

Lemma owner_wake c : owner (wake c) = owner c.
Proof. by destruct c. Qed.
Lemma owners_wake l : zsum owner (map wake l) = zsum owner l.
Proof. induction l as [|c l IH]; cbn; [done|]. by rewrite owner_wake, IH. Qed.
Lemma elem_wake l : CloseAsleep ∉ map wake l /\ (CloseReturned ∈ map wake l -> CloseReturned ∈ l) /\
  (CloseWaitDone ∈ map wake l -> CloseWaitDone ∈ l).
Proof. split_and!; [by intros ([] & ? & _)%list_elem_of_fmap| |]; by intros ([] & ? & H)%list_elem_of_fmap. Qed.
Lemma elem_wakeFlush l : FlushAsleep ∉ map wakeFlush l.
Proof. by intros ([] & ? & _)%list_elem_of_fmap. Qed.

Lemma inv_broadcast s0 σ : base s0 σ -> inv s0 (broadcast σ).
Proof.
  intros [I1 I2 I3 I4 I5 I6 I7 I8 I9 I10 I11 I12 I13 I14]. destruct (elem_wake (closers σ)) as (Hn & Hr & Hw). split.
  - constructor; try done; cbn; [by rewrite owners_wake|auto|auto].
  - split; cbn; [done|]. by intros ?%elem_wakeFlush.
Qed.

(** The history and the counter, when nothing is dropped or counted. *)
Lemma counter_ok s0 c n d : 0 <= counter s0 -> 0 <= d -> 0 <= n <= observerQueueCapacity ->
  c = Z.min maximumDiagnosticCounter (counter s0 + d) -> counter s0 <= maximumDiagnosticCounter ->
  saturatingAdd c n = Z.min maximumDiagnosticCounter (counter s0 + (d + n)).
Proof.
  intros H0 Hd Hn -> Hm. unfold observerQueueCapacity in Hn. rewrite saturatingAdd_bounds; unfold maximumDiagnosticCounter, in_int64, MinInt64, MaxInt64 in *; lia.
Qed.

Section steps.
Context (s0 : runtimeState) (H0 : 0 <= counter s0 <= maximumDiagnosticCounter).

Lemma inv_emitStep σ σ' : emitStep σ σ' -> inv s0 σ -> inv s0 σ'.
Proof.
  intros Hs [[I1 I2 I3 I4 I5 I6 I7 I8 I9 I10 I11 I12 I13 I14] [S1 S2]]. destruct Hs as [e d He|e d He|Hd].
  - unfold emit in He. destruct (closing (disp σ)) eqn:Ec; [done|]. destruct (_ <? _) eqn:El; [|done]. injection He as <-.
    assert (~ stopping (run σ)) as Hns by (intros H; specialize (I2 (I8 H)); congruence).
    assert (~ drained (run σ)) as Hnd by (intros H; apply Hns; by destruct (run σ)).
    split; [constructor|split]; cbn; try done; rewrite ?len_app; cbn.
    + change (len [e]) with 1. lia.
    + change (len [e]) with 1. split_and!; [lia|lia|done].
    + by rewrite I10, !app_assoc.
    + intros H. specialize (S2 H). pose proof (len_nonneg (events (disp σ))). lia.
  - assert (d = disp σ) as ->.
    { unfold emit in He. destruct (closing (disp σ)); [by injection He|]. by destruct (_ <? _); injection He. }
    split; [constructor|by split]; cbn; try done; unfold dropped in *; cbn.
    + split; [lia|]. rewrite (proj2 I11). f_equal. lia.
    + lia.
  - destruct I11 as [Hdue Hc]. split; [constructor|by split]; cbn; try done; unfold dropped in *; cbn; [|lia].
    split; [lia|]. unfold counter in *. cbn. rewrite (counter_ok s0 _ 1 _ (proj1 H0) I12 ltac:(unfold observerQueueCapacity; lia) Hc (proj2 H0)).
    f_equal. unfold counter. lia.
Qed.

Lemma inv_flushStep σ σ' : flushStep σ σ' -> inv s0 σ -> inv s0 σ'.
Proof.
  intros Hs [[I1 I2 I3 I4 I5 I6 I7 I8 I9 I10 I11 I12 I13 I14] [S1 S2]]. destruct Hs as [|k Hk Hp|k Hk Hp].
  - split; [by constructor|]. split; [done|]. cbn. intros [H|H]%elem_of_app; [auto|]. by apply list_elem_of_singleton in H.
  - split; [by constructor|]. split; [done|]. cbn. done.
  - split; [by constructor|]. split; [done|]. cbn. intros H. apply S2.
    apply list_elem_of_lookup in H as [j H]. apply list_lookup_insert_Some in H as [(_ & ? & _)|[_ H]]; [done|].
    by eapply list_elem_of_lookup_2.
Qed.

Lemma elem_insert {A} (l : list A) k x y : y ∈ <[k := x]> l -> y = x \/ y ∈ l.
Proof.
  intros [j H]%list_elem_of_lookup. apply list_lookup_insert_Some in H as [(_ & <- & _)|[_ H]]; [by left|right].
  by eapply list_elem_of_lookup_2.
Qed.

(** The closer that becomes or is the owner of [stop]. *)
Lemma closer_owner σ k c : base s0 σ -> closers σ !! k = Some c -> c = CloseEntered /\ closing (disp σ) = false \/ c = CloseAwake ->
  stop (disp σ) = false /\ zsum owner (closers σ) - owner c = 0.
Proof.
  intros [I1 I2 I3 I4 I5 I6 I7 I8 I9 I10 I11 I12 I13 I14] Hk [[-> Hc]| ->].
  - rewrite Hc in *. destruct (stop (disp σ)); [by specialize (I2 eq_refl)|]. cbn in *. split; [done|lia].
  - assert (owner CloseAwake <= zsum owner (closers σ)) as Ho.
    { apply zsum_elem_le; [intros []; cbn; lia|]. by eapply list_elem_of_lookup_2. }
    cbn in Ho. destruct (closing (disp σ)), (stop (disp σ)); cbn in *; split; try done; lia.
Qed.

Lemma inv_closeStep σ σ' : closeStep σ σ' -> inv s0 σ -> inv s0 σ'.
Proof.
  intros Hs [Hb [S1 S2]]. pose proof Hb as [I1 I2 I3 I4 I5 I6 I7 I8 I9 I10 I11 I12 I13 I14].
  destruct Hs as [|k Hk Hc|k c Hk Hc Ha|k c Hk Hc Ha|k Hk Hd|Hr Hc|Hr Hc].
  - split; [constructor|split]; cbn; try done; [rewrite zsum_app; cbn; lia|..];
      (intros [H|H]%elem_of_app; [auto|]; by apply list_elem_of_singleton in H).
  - split; [constructor|split]; cbn; try done; [rewrite (zsum_insert _ _ _ _ _ Hk); cbn; lia|..];
      (intros [H|H]%elem_insert; [done|auto]).
  - destruct (closer_owner σ k c Hb Hk Hc) as [Hstop Ho]. split; [constructor|split]; cbn; try done.
    + rewrite (zsum_insert _ _ _ _ _ Hk), Hstop. cbn. lia.
    + intros [H|H]%elem_insert; [done|auto].
  - destruct (closer_owner σ k c Hb Hk Hc) as [Hstop Ho].
    split; [constructor|split]; cbn; try done; [by rewrite I1, Hstop|rewrite (zsum_insert _ _ _ _ _ Hk); cbn; lia|..];
      (intros [H|H]%elem_insert; [done|auto]).
  - split; [constructor|split]; cbn; try done; [rewrite (zsum_insert _ _ _ _ _ Hk); cbn; lia|..];
      (intros [H|H]%elem_insert; [done|auto]).
  - assert (stop (disp σ) = false) as Hstop by (destruct (stop (disp σ)); [by specialize (I2 eq_refl); congruence|done]).
    split; [constructor|by split]; cbn; try done; [by rewrite I1, Hstop|]. rewrite I3, Hc. done.
  - done.
Qed.

(** Only the place of [run] changes, between places of the same kind. *)
Lemma inv_place r σ : inv s0 σ -> inHand r = inHand (run σ) -> inFlight r = inFlight (run σ) -> uncounted r = uncounted (run σ) ->
  calling r = calling (run σ) -> (stopping r -> stop (disp σ) = true) -> (stopping r -> inHand r = 0 \/ stopping (run σ)) ->
  (drained r -> events (disp σ) = []) -> (r = RunDone <-> run σ = RunDone) ->
  inv s0 (set_run (disp σ) r (handled σ) σ).
Proof.
  intros [[I1 I2 I3 I4 I5 I6 I7 I8 I9 I10 I11 I12 I13 I14] [S1 S2]] E1 E2 E3 E4 E5 E6 E7 E8.
  split; [constructor|by split]; cbn; try done; rewrite ?E1, ?E2, ?E3, ?E4; try done.
  - destruct I5 as (H1 & H2 & H3). split_and!; [done|done|]. intros Hs. destruct (E6 Hs) as [H|H]; [lia|auto].
  - by rewrite I7, E8.
Qed.

Lemma observer_inv_receive σ e q : inv s0 σ -> run σ = RunSelect -> events (disp σ) = e :: q ->
  inv s0 (set_run (take_event q (disp σ)) (RunClaim e) (handled σ) σ).
Proof.
  intros [[I1 I2 I3 I4 I5 I6 I7 I8 I9 I10 I11 I12 I13 I14] [S1 S2]] Hr He. rewrite Hr, He in *. cbn in *.
  assert (len (e :: q) = 1 + len q) as Hl by (unfold len; cbn; lia).
  split; [constructor|by split]; cbn; try done; rewrite ?Hr; try done; [lia| |by rewrite I7].
  split_and!; [lia|lia|done].
Qed.
Lemma inv_claim σ e d : inv s0 σ -> run σ = RunClaim e -> claimDelivery (disp σ) = (d, true) ->
  inv s0 (set_run d RunCallback (handled σ ++ [(e, true)]) σ).
Proof.
  intros [[I1 I2 I3 I4 I5 I6 I7 I8 I9 I10 I11 I12 I13 I14] [S1 S2]] Hr Hc. unfold claimDelivery in Hc.
  destruct (closing (disp σ)) eqn:Ec; [done|]. injection Hc as <-. rewrite Hr in *. cbn in *.
  split; [constructor|by split]; cbn; try done; unfold dropped in *; cbn in *.
  - by rewrite I7.
  - by rewrite I10, map_app, <- app_assoc.
  - rewrite zsum_app. cbn. by rewrite Z.add_0_r.
  - rewrite zsum_app. cbn. lia.
Qed.
Lemma inv_refuse σ e d : inv s0 σ -> run σ = RunClaim e -> claimDelivery (disp σ) = (d, false) ->
  inv s0 (set_run d RunRefused (handled σ ++ [(e, false)]) σ).
Proof.
  intros [[I1 I2 I3 I4 I5 I6 I7 I8 I9 I10 I11 I12 I13 I14] [S1 S2]] Hr Hc.
  assert (d = disp σ) as -> by (unfold claimDelivery in Hc; by destruct (closing (disp σ)); injection Hc).
  rewrite Hr in *. cbn in *. split; [constructor|by split]; cbn; try done; unfold dropped in *; cbn in *.
  - by rewrite I7.
  - by rewrite I10, map_app, <- app_assoc.
  - rewrite zsum_app. cbn. destruct I11 as [? ->]. split; [done|]. f_equal. lia.
  - rewrite zsum_app. cbn. lia.
Qed.
(** Counting what was dropped. *)
Lemma inv_drop_counted σ n r : inv s0 σ -> uncounted (run σ) = n -> inHand (run σ) = n -> inHand r = n -> uncounted r = 0 ->
  inFlight r = inFlight (run σ) -> calling r = calling (run σ) -> (stopping r <-> stopping (run σ)) -> (drained r <-> drained (run σ)) ->
  r <> RunDone -> run σ <> RunDone -> n <= observerQueueCapacity -> inv s0 (set_state (addDroppedObserverEvents n (state σ)) r σ).
Proof.
  intros [[I1 I2 I3 I4 I5 I6 I7 I8 I9 I10 I11 I12 I13 I14] [S1 S2]] U1 U2 E1 E2 E3 E4 E5 E6 E7 E8 Hn.
  split; [constructor|by split]; cbn; [exact I1|exact I2|exact I3|by rewrite E1, <- U2|by rewrite E1, E5, <- U2|by rewrite E4| |
    by rewrite E5|by rewrite E6|by rewrite E3| | |exact I13|exact I14].
  - rewrite I7. split; congruence.
  - destruct I11 as [Hd Hc]. split; [done|]. unfold counter in *. cbn. change (dropped (set_state _ r σ)) with (dropped σ).
    rewrite (counter_ok s0 _ n _ (proj1 H0) I12 ltac:(lia) Hc (proj2 H0)). f_equal. unfold counter. lia.
  - change (dropped (set_state _ r σ)) with (dropped σ). lia.
Qed.
Lemma base_delivered σ : inv s0 σ -> run σ = RunReturned -> base s0 (set_run (delivered (disp σ)) RunTop (handled σ) σ).
Proof.
  intros [[I1 I2 I3 I4 I5 I6 I7 I8 I9 I10 I11 I12 I13 I14] _] Hr. rewrite Hr in *. cbn in *.
  constructor; cbn; try done; [lia| |by rewrite I7]. destruct I5 as (? & ? & ?). split_and!; [lia|done|done].
Qed.
(** [complete] is called with what is in hand. *)
Lemma base_refused σ d b : inv s0 σ -> run σ = RunRefusedCounted -> complete 1 (disp σ) = (d, b) ->
  let σ' := set_run d RunTop (handled σ) σ in base s0 σ' /\ (b = false -> sleepers σ').
Proof.
  intros [[I1 I2 I3 I4 I5 I6 I7 I8 I9 I10 I11 I12 I13 I14] [S1 S2]] Hr Hc. unfold complete in Hc. injection Hc as <- <-.
  rewrite Hr in *. cbn in *. split.
  - constructor; cbn; try done; [lia| |by rewrite I7]. destruct I5 as (? & ? & ?). split_and!; [lia|done|done].
  - intros Hb. split; cbn; [done|]. intros _. lia.
Qed.
Lemma base_dropped σ n d b : inv s0 σ -> run σ = RunDropComplete n -> complete n (disp σ) = (d, b) ->
  let σ' := set_run (closeDone d) RunDone (handled σ) σ in base s0 σ' /\ (b = false -> sleepers σ').
Proof.
  intros [[I1 I2 I3 I4 I5 I6 I7 I8 I9 I10 I11 I12 I13 I14] [S1 S2]] Hr Hc. unfold complete in Hc. injection Hc as <- <-.
  rewrite Hr in *. cbn in *. assert (done (disp σ) = false) as Hnd by (destruct (done (disp σ)); [by destruct I7 as [I7 _]; specialize (I7 eq_refl)|done]).
  specialize (I9 I). rewrite I9 in *. change (len []) with 0 in *. split.
  - constructor; cbn; try done; rewrite ?I9; change (len []) with 0; unfold observerQueueCapacity; try lia. by rewrite I1, Hnd.
  - intros Hb. split; cbn; [done|]. intros _. lia.
Qed.
Lemma inv_drained_none σ : inv s0 σ -> run σ = RunDropping 0 -> events (disp σ) = [] -> inv s0 (set_run (closeDone (disp σ)) RunDone (handled σ) σ).
Proof.
  intros [[I1 I2 I3 I4 I5 I6 I7 I8 I9 I10 I11 I12 I13 I14] [S1 S2]] Hr He. rewrite Hr in *. cbn in *.
  assert (done (disp σ) = false) as Hnd by (destruct (done (disp σ)); [by destruct I7 as [I7 _]; specialize (I7 eq_refl)|done]).
  split; [constructor|by split]; cbn; try done. by rewrite I1, Hnd.
Qed.
Lemma inv_drain σ n e q : inv s0 σ -> run σ = RunDropping n -> events (disp σ) = e :: q ->
  inv s0 (set_run (take_event q (disp σ)) (RunDropping (n + 1)) (handled σ ++ [(e, false)]) σ).
Proof.
  intros [[I1 I2 I3 I4 I5 I6 I7 I8 I9 I10 I11 I12 I13 I14] [S1 S2]] Hr He. rewrite Hr, He in *. cbn in *.
  assert (len (e :: q) = 1 + len q) as Hl by (unfold len; cbn; lia).
  split; [constructor|by split]; cbn; try done; unfold dropped in *; cbn in *.
  - lia.
  - destruct I5 as (? & ? & I5). specialize (I5 I). split_and!; [lia|lia|]. intros _. lia.
  - by rewrite I7.
  - by rewrite I10, map_app, <- app_assoc.
  - rewrite zsum_app. cbn. destruct I11 as [? ->]. split; [done|]. f_equal. lia.
  - rewrite zsum_app. cbn. lia.
Qed.

Lemma inv_runStep σ σ' : runStep σ σ' -> inv s0 σ -> inv s0 σ'.
Proof.
  intros Hs H. pose proof H as [Hb _].
  assert (forall n, inHand (run σ) = n -> stopping (run σ) -> n <= observerQueueCapacity) as Hcap.
  { intros n <- Hst. destruct (inv_hand _ _ Hb) as (_ & _ & Hn). specialize (Hn Hst). pose proof (len_nonneg (events (disp σ))). lia. }
  destruct Hs as [Hr Hst|Hr Hst|e q Hr He|Hr Hst|e d Hr Hc|e d Hr Hc|Hr|Hr|Hr|Hr|d b Hr Hc|e q n Hr He|n Hr He Hn|Hr He|n Hr|n d b Hr Hc].
  - apply inv_place; rewrite ?Hr; try done. by left.
  - apply inv_place; rewrite ?Hr; try done.
  - by apply observer_inv_receive.
  - apply inv_place; rewrite ?Hr; try done. by left.
  - by apply inv_claim.
  - by apply inv_refuse.
  - apply (inv_place RunReturned) in H; rewrite ?Hr; done.
  - apply (inv_place RunReturned) in H; rewrite ?Hr; try done. destruct H as [[I1 I2 I3 I4 I5 I6 I7 I8 I9 I10 I11 I12 I13 I14] HS].
    split; [by constructor|done].
  - by apply inv_broadcast, base_delivered.
  - apply inv_drop_counted; rewrite ?Hr; try done.
  - destruct (base_refused σ d b H Hr Hc) as [H1 H2]. destruct b; [by apply inv_broadcast|split; [done|by apply H2]].
  - by apply inv_drain.
  - apply inv_place; rewrite ?Hr; try done; [|by right]. intros _. apply (inv_stopping _ _ Hb). by rewrite Hr.
  - by apply inv_drained_none.
  - apply inv_drop_counted; rewrite ?Hr; try done. apply (Hcap n); by rewrite Hr.
  - destruct (base_dropped σ n d b H Hr Hc) as [H1 H2]. destruct b; [by apply inv_broadcast|split; [done|by apply H2]].
Qed.

Lemma observer_inv σ : reachable s0 σ -> inv s0 σ.
Proof.
  intros Hr. eapply rtc_invariant; [|intros a b Ha Hs|exact Hr].
  - split; [|by split; intros ?%elem_of_nil]. pose proof H0 as H1. unfold counter in H1.
    constructor; cbn; try done; unfold dropped, counter; cbn; [lia|by intros ?%elem_of_nil..].
  - destruct Hs as [Hs|Hs|Hs|Hs]; [by eapply inv_emitStep|by eapply inv_runStep|by eapply inv_closeStep|by eapply inv_flushStep].
Qed.
End steps.

(** ** Progress *)

Definition runWeight (r : runState) : Z :=
  match r with
  | RunDone => 0 | RunDropComplete _ => 1 | RunDropCount _ => 2 | RunDropping _ => 3 | RunSelect => 4 | RunTop => 5
  | RunRefusedCounted | RunReturned => 6 | RunRefused | RunCallback => 7 | RunClaim _ => 8
  end.
Definition closeWeight (c : closer) : Z :=
  match c with CloseReturned => 0 | CloseWaitDone => 1 | _ => 2 end.
Definition flushWeight (f : flusher) : Z := match f with FlushReturned => 0 | _ => 1 end.
Definition measure (σ : system) : Z :=
  10 * len (events (disp σ)) + runWeight (run σ) + zsum closeWeight (closers σ) + zsum flushWeight (flushers σ).

Definition settled (σ : system) : Prop :=
  Forall (fun c => c = CloseReturned) (closers σ) /\ Forall (fun f => f = FlushReturned) (flushers σ).

Lemma measure_nonneg σ : 0 <= measure σ.
Proof.
  unfold measure. pose proof (len_nonneg (events (disp σ))).
  assert (0 <= zsum closeWeight (closers σ)) by (apply zsum_nonneg; intros []; cbn; lia).
  assert (0 <= zsum flushWeight (flushers σ)) by (apply zsum_nonneg; intros []; cbn; lia).
  assert (0 <= runWeight (run σ)) by (destruct (run σ); cbn; lia). lia.
Qed.
Lemma measure_broadcast σ : measure (broadcast σ) = measure σ.
Proof.
  unfold measure. cbn. f_equal; [f_equal|].
  - induction (closers σ) as [|c l IH]; cbn; [done|]. rewrite IH. by destruct c.
  - induction (flushers σ) as [|f l IH]; cbn; [done|]. rewrite IH. by destruct f.
Qed.
Lemma len_cons {A} (x : A) l : len (x :: l) = 1 + len l.
Proof. unfold len. cbn. lia. Qed.

Section progress.
Context (s0 : runtimeState) (H0 : 0 <= counter s0 <= maximumDiagnosticCounter).

(** [run] is blocked in its [select] or has returned. *)
Definition parked (σ : system) : Prop :=
  run σ = RunDone \/ run σ = RunSelect /\ events (disp σ) = [] /\ stop (disp σ) = false.

Lemma run_progress σ : inv s0 σ -> parked σ \/ exists σ', runStep σ σ' /\ measure σ' < measure σ.
Proof.
  intros [Hb _]. pose proof (inv_hand _ _ Hb) as (Hh & _). unfold parked.
  assert (forall d r h, len (events d) = len (events (disp σ)) -> measure (set_run d r h σ) = measure σ + runWeight r - runWeight (run σ)) as Hm.
  { intros d r h E. unfold measure. cbn. lia. }
  destruct (run σ) as [| |e| | | | |n|n|n|] eqn:Hr; cbn [inHand] in *.
  - right. destruct (stop (disp σ)) eqn:Es; eexists; (split; [by constructor|]); rewrite Hm by (done); cbn; lia.
  - destruct (events (disp σ)) as [|e q] eqn:He; [destruct (stop (disp σ)) eqn:Es; [|left; by right]|]; right; eexists.
    + split; [by apply run_stop|]. rewrite Hm by (cbn; by rewrite He). cbn. lia.
    + split; [by eapply run_receive|]. unfold measure. cbn. rewrite He, Hr, len_cons. cbn. lia.
  - right. destruct (claimDelivery (disp σ)) as [d b] eqn:Ec.
    assert (events d = events (disp σ)) as Ed by (unfold claimDelivery in Ec; destruct (closing (disp σ)); by injection Ec as <- <-).
    destruct b; eexists; (split; [by econstructor|]); rewrite Hm by (by rewrite Ed); cbn; lia.
  - right. eexists. split; [by apply run_return|]. unfold measure. cbn. rewrite Hr. cbn. lia.
  - right. eexists. split; [by apply run_delivered|]. rewrite measure_broadcast, Hm by done. cbn. lia.
  - right. eexists. split; [by apply run_refused|]. unfold measure. cbn. rewrite Hr. cbn. lia.
  - right. destruct (complete 1 (disp σ)) as [d b] eqn:Ec. assert (events d = events (disp σ)) as Ed by by injection Ec as <- <-.
    eexists. split; [by eapply run_refused_complete|]. cbn. destruct b; rewrite ?measure_broadcast, Hm by (by rewrite Ed); cbn; lia.
  - right. destruct (events (disp σ)) as [|e q] eqn:He.
    + destruct (decide (n = 0)) as [->|Hn]; eexists.
      * split; [by apply run_drained_none|]. rewrite Hm by (cbn; by rewrite He). cbn. lia.
      * split; [eapply run_drained; [done|done|lia]|]. rewrite Hm by (cbn; by rewrite He). cbn. lia.
    + eexists. split; [by eapply run_drain|]. unfold measure. cbn. rewrite He, Hr, len_cons. cbn. lia.
  - right. eexists. split; [by apply run_drop_count|]. unfold measure. cbn. rewrite Hr. cbn. lia.
  - right. destruct (complete n (disp σ)) as [d b] eqn:Ec. assert (events d = events (disp σ)) as Ed by by injection Ec as <- <-.
    eexists. split; [by eapply run_drop_complete|]. cbn.
    assert (len (events (closeDone d)) = len (events (disp σ))) as Ed' by (cbn; by rewrite Ed).
    destruct b; rewrite ?measure_broadcast, Hm by (done); cbn; lia.
  - left. by left.
Qed.

Lemma not_all {A} (P : A -> Prop) `{!forall x, Decision (P x)} l : ~ Forall P l -> exists k x, l !! k = Some x /\ ~ P x.
Proof.
  intros (x & Hx & Hn)%not_Forall_Exists%Exists_exists; [|done]. apply list_elem_of_lookup in Hx as [k Hk]. eauto.
Qed.
#[local] Instance closer_eq_dec : EqDecision closer.
Proof. solve_decision. Defined.
#[local] Instance flusher_eq_dec : EqDecision flusher.
Proof. solve_decision. Defined.

(** With [run] parked nothing is pending, so whoever waits can go on. *)
Lemma parked_progress σ : inv s0 σ -> parked σ -> settled σ \/ exists σ', step σ σ' /\ measure σ' < measure σ.
Proof.
  intros [[I1 I2 I3 I4 I5 I6 I7 I8 I9 I10 I11 I12 I13 I14] [S1 S2]] Hp.
  assert (active (disp σ) = false) as Ha by (rewrite I6; by destruct Hp as [->|[-> _]]).
  assert (pending (disp σ) = 0) as Hpend.
  { rewrite I4. destruct Hp as [Hp|(Hp & He & _)]; rewrite Hp in *; [rewrite (I9 I)|rewrite He]; done. }
  assert (forall d k c c', closers σ !! k = Some c -> len (events d) = len (events (disp σ)) -> closeWeight c' < closeWeight c ->
    measure (set_closers d (<[k := c']> (closers σ)) σ) < measure σ) as Hmc.
  { intros d k c c' Hk E Hw. unfold measure. cbn. rewrite (zsum_insert _ _ _ _ _ Hk). lia. }
  destruct (decide (Forall (fun f => f = FlushReturned) (flushers σ))) as [Hf|Hf].
  2:{ right. destruct (not_all _ _ Hf) as (k & [| |] & Hk & Hn); [|exfalso|done].
      - eexists. split; [by apply step_of_flush, (flush_return _ k)|]. unfold measure. cbn. rewrite (zsum_insert _ _ _ _ _ Hk). cbn. lia.
      - apply S2; [by eapply list_elem_of_lookup_2|done]. }
  destruct (decide (Forall (fun c => c = CloseReturned) (closers σ))) as [Hc|Hc]; [by left|right].
  assert (CloseAsleep ∉ closers σ) as Hno by (intros H; specialize (S1 H); congruence).
  assert (forall k c, closers σ !! k = Some c -> (c = CloseEntered /\ closing (disp σ) = false \/ c = CloseAwake) ->
    exists σ', step σ σ' /\ measure σ' < measure σ) as Hstop.
  { intros k c Hk Hw. eexists. split; [by apply step_of_close, (close_stop _ k c)|]. apply (Hmc _ k c); [done|done|]. by destruct Hw as [[-> _]| ->]. }
  destruct (not_all _ _ Hc) as (k & [| | | |] & Hk & Hn); [| | | |done].
  - destruct (closing (disp σ)) eqn:Ec; [|by eapply Hstop; [done|left]].
    eexists. split; [by apply step_of_close, (close_second _ k)|]. by eapply Hmc.
  - destruct Hno. by eapply list_elem_of_lookup_2.
  - eapply Hstop; [done|by right].
  - destruct (done (disp σ)) eqn:Ed.
    { eexists. split; [by apply step_of_close, (close_return _ k)|]. by eapply Hmc. }
    destruct Hp as [Hp|(_ & _ & Hst)]; [by apply I7 in Hp; congruence|].
    rewrite Hst, (I14 (list_elem_of_lookup_2 _ _ _ Hk)) in I3. cbn in I3.
    assert (exists j c, closers σ !! j = Some c /\ owner c = 1) as (j & c & Hj & Ho).
    { clear -I3. induction (closers σ) as [|c l IH]; cbn in *; [done|]. destruct (decide (owner c = 1)) as [E|E]; [by exists 0%nat, c|].
      destruct IH as (j & c' & Hj & Ho); [destruct c; cbn in *; lia|]. by exists (S j), c'. }
    destruct c; try done; [destruct Hno; by eapply list_elem_of_lookup_2|]. eapply Hstop; [done|by right].
Qed.

Lemma settles σ : inv s0 σ -> exists σ', rtc step σ σ' /\ settled σ'.
Proof.
  remember (Z.to_nat (measure σ)) as n eqn:En. revert σ En. induction (lt_wf n) as [n _ IH]. intros σ -> Hi.
  assert (settled σ \/ exists σ', step σ σ' /\ measure σ' < measure σ) as [Hs|(σ' & Hs & Hm)]; [|by exists σ|].
  - destruct (run_progress σ Hi) as [Hp|(σ' & Hs & Hm)]; [by apply parked_progress|]. right. exists σ'. split; [by apply step_of_run|done].
  - destruct (IH (Z.to_nat (measure σ'))) with (σ := σ') as (σ'' & H1 & H2); [pose proof (measure_nonneg σ'); lia|done| |].
    + destruct Hs as [Hs|Hs|Hs|Hs]; [by eapply inv_emitStep|by eapply inv_runStep|by eapply inv_closeStep|by eapply inv_flushStep].
    + exists σ''. split; [by eapply rtc_l|done].
Qed.
End progress.

(** ** Theorems *)

(** C17. In every interleaving of emitters, the dispatcher goroutine, callers of
    close and flush and a callback that closes or panics: no channel is closed
    twice, the queue stays within its capacity, every accepted event is handled
    exactly once and in order, no callback runs once close has returned to another
    goroutine, and when the dispatcher is done every event that did not reach the
    observer is in the diagnostic counter. *)
Theorem observer_events_are_accounted_for s0 σ : 0 <= counter s0 <= maximumDiagnosticCounter -> reachable s0 σ ->
  panicked (disp σ) = false /\ len (events (disp σ)) <= observerQueueCapacity /\
  accepted σ = map fst (handled σ) ++ inFlight (run σ) ++ events (disp σ) /\
  (active (disp σ) = true <-> run σ = RunCallback \/ run σ = RunReturned) /\
  (done (disp σ) = true -> pending (disp σ) = 0 /\ accepted σ = map fst (handled σ) /\
     (due σ = 0 -> counter (state σ) = Z.min maximumDiagnosticCounter (counter s0 + dropped σ))) /\
  (CloseReturned ∈ closers σ -> active (disp σ) = false /\ forall σ', step σ σ' -> handled σ' = handled σ).
Proof.
  intros H0 Hr. destruct (observer_inv s0 H0 σ Hr) as [[I1 I2 I3 I4 I5 I6 I7 I8 I9 I10 I11 I12 I13 I14] _].
  split_and!; [done|lia|done| | |].
  - rewrite I6. destruct (run σ); cbn; split; intros; destruct_or?; try done; auto.
  - intros Hd. apply I7 in Hd. rewrite Hd in *. rewrite (I9 I) in *. cbn in *. rewrite app_nil_r in I10.
    split_and!; [rewrite I4; done|done|]. intros Hdue. rewrite (proj2 I11). f_equal. lia.
  - intros Hc. apply I13, I7 in Hc. rewrite I6, Hc. split; [done|]. intros σ' Hs.
    destruct Hs as [[]|Hs|[]|[]]; try done. by destruct Hs; congruence.
Qed.

(** C18. From every reachable state of the observer dispatcher, also while it is
    closing, some continuation lets every caller of close and flush return: no wake-
    up of the condition variable is lost and no caller waits for ever on a callback
    that returns. *)
Theorem observer_close_and_flush_return s0 σ : 0 <= counter s0 <= maximumDiagnosticCounter -> reachable s0 σ ->
  exists σ', rtc step σ σ' /\ Forall (fun c => c = CloseReturned) (closers σ') /\ Forall (fun f => f = FlushReturned) (flushers σ').
Proof. intros H0 Hr. by apply (settles s0 H0), observer_inv. Qed.

(** ** A run: an event is delivered while a first [close] waits and a second is queued *)
Module Demo.

Definition rt : runtimeState := newRuntimeState 1 1 1.
Definition event : ObserverEvent :=
  mkEvent 1 ObserverEventKindOperationStart [] 0 0 0 ObserverOutcomeNone ErrorCodeNone DeliveryStateNone HTTPStatusClassNone 0 0 0 [].
Lemma rt_ok : 0 <= counter rt <= maximumDiagnosticCounter.
Proof. by vm_compute. Qed.

Lemma waiting_run : exists σ, reachable rt σ /\ closers σ = [CloseAsleep] /\ flushers σ = [FlushAsleep] /\ events (disp σ) = [event].
Proof.
  eexists. split.
  - eapply rtc_l; [apply step_of_emit, (step_emit _ event); vm_compute; reflexivity|].
    eapply rtc_l; [apply step_of_emit, (step_emit _ event); vm_compute; reflexivity|].
    eapply rtc_l; [apply step_of_run, run_top; reflexivity|].
    eapply rtc_l; [apply step_of_run; eapply run_receive; reflexivity|].
    eapply rtc_l; [apply step_of_run; eapply run_claim; reflexivity|].
    eapply rtc_l; [apply step_of_close, close_enter|].
    eapply rtc_l; [apply step_of_close; eapply (close_wait _ 0); [reflexivity|by left|reflexivity]|].
    eapply rtc_l; [apply step_of_flush, flush_enter|].
    eapply rtc_l; [apply step_of_flush, (flush_wait _ 0); [reflexivity|done]|]. apply rtc_refl.
  - by vm_compute.
Qed.
Lemma observer_events_are_accounted_for_witness : exists σ, reachable rt σ /\
  accepted σ = map fst (handled σ) ++ inFlight (run σ) ++ events (disp σ) /\ len (events (disp σ)) = 1.
Proof.
  destruct waiting_run as (σ & H & _ & _ & He). exists σ. split; [exact H|].
  destruct (observer_events_are_accounted_for rt σ rt_ok H) as (_ & _ & Ho & _). split; [exact Ho|]. by rewrite He.
Defined.
Lemma observer_close_and_flush_return_witness : exists σ σ', reachable rt σ /\ closers σ = [CloseAsleep] /\ rtc step σ σ' /\
  Forall (fun c => c = CloseReturned) (closers σ').
Proof.
  destruct waiting_run as (σ & H & Hc & _). destruct (observer_close_and_flush_return rt σ rt_ok H) as (σ' & Hr & Hs & _).
  exists σ, σ'. split; [exact H|]. split; [exact Hc|]. split; [exact Hr|exact Hs].
Defined.
End Demo.
