(* ===== verification/Telemetry.v ===== *)
(** * Telemetry and the events of an operation (telemetry.go)

    [operationObservability] turns the calls of the send operation into observer events
    and into calls of a telemetry implementation.  What it asks, the monotonic clock, the
    hooks of the implementation, whether the runtime is closed, is answered by [hooks],
    asked again at every use.  A [report] holds the record of the operation, the events
    handed to the observer, the calls made to the implementation and the diagnostics.
    The operation's calls are those in the trace of [Operation.sendAdmitted]. *)
From Stdlib Require Import Sorted.
From S2P Require Import Prelude Errors RuntimeState GoText StrictJson Response Descriptor Operation Observer.
Import Operation.Protocol.

(** ** What it meets *)

(** Hooks of the implementation answer [false] when they panic or give nil. *)
Record hooks := mkHooks {
  observerSet : bool;
  telemetrySet : bool;
  clock : nat -> option Z;
  runtimeDone : nat -> bool;
  hookContext : nat -> bool;
  hookStartOperation : nat -> bool;
  hookOperationContext : nat -> bool;
  hookStartAttempt : nat -> bool;
  hookHeaders : nat -> option (list (bytes * bytes));
  hookEnd : nat -> bool
}.

(** A call of the implementation with what it was given, and whether it failed. *)
Inductive spanCall :=
| SpanStartOperation (startedAt : Z) (ok : bool)
| SpanContext (ok : bool)
| SpanStartAttempt (startedAt n : Z) (ok : bool)
| SpanHeaders (ok : bool)
| SpanEndAttempt (status : HTTPStatusClass) (outcome : ObserverOutcome) (code : ErrorCode) (duration : Z) (ok : bool)
| SpanEnd (outcome : ObserverOutcome) (code : ErrorCode) (duration : Z) (ok : bool).

(** telemetry.go, [operationObservability]; the handles are set or nil. *)
Record operationObservability := mkObservability {
  operationID : bytes;
  startedAt : Z;
  lastTimestamp : Z;
  attemptStartedAt : Z;
  attemptNumber : Z;
  summaries : list AttemptSummary;
  telemetry : bool;
  attemptTelemetry : bool;
  transportValues : bool;
  finished : bool
}.

Record report := mkReport {
  obs : operationObservability;
  asked : nat;
  emitted : list ObserverEvent;
  spans : list spanCall;
  diag : runtimeState
}.

Definition upd (f : operationObservability -> operationObservability) (r : report) : report :=
  mkReport (f (obs r)) (asked r) (emitted r) (spans r) (diag r).
Definition tock (r : report) : report := mkReport (obs r) (S (asked r)) (emitted r) (spans r) (diag r).

(** A call under [recover]: logged, and a failure counted. *)
Definition spanFailed (c : spanCall) : bool :=
  match c with
  | SpanStartOperation _ ok | SpanContext ok | SpanStartAttempt _ _ ok | SpanHeaders ok
  | SpanEndAttempt _ _ _ _ ok | SpanEnd _ _ _ ok => negb ok
  end.
Definition call (c : spanCall) (r : report) : report :=
  mkReport (obs r) (S (asked r)) (emitted r) (spans r ++ [c])
    (if spanFailed c then addTelemetryFailure (diag r) else diag r).

Definition set_last t o := mkObservability (operationID o) (startedAt o) t (attemptStartedAt o) (attemptNumber o)
  (summaries o) (telemetry o) (attemptTelemetry o) (transportValues o) (finished o).
Definition set_attempt t n o := mkObservability (operationID o) (startedAt o) (lastTimestamp o) t n
  (summaries o) (telemetry o) (attemptTelemetry o) (transportValues o) (finished o).
Definition set_summaries l o := mkObservability (operationID o) (startedAt o) (lastTimestamp o) (attemptStartedAt o)
  (attemptNumber o) l (telemetry o) (attemptTelemetry o) (transportValues o) (finished o).
Definition set_handles t a v o := mkObservability (operationID o) (startedAt o) (lastTimestamp o) (attemptStartedAt o)
  (attemptNumber o) (summaries o) t a v (finished o).
Definition set_finished o := mkObservability (operationID o) (startedAt o) (lastTimestamp o) (attemptStartedAt o)
  (attemptNumber o) (summaries o) (telemetry o) (attemptTelemetry o) (transportValues o) true.

(** ** Small functions *)

(** telemetry.go, [outcomeForError]. *)
Definition outcomeForError (err : option Error) : ObserverOutcome :=
  match err with
  | None => ObserverOutcomeAccepted
  | Some e =>
    match Error_Code e with
    | ErrorCodeCancelled => ObserverOutcomeCancelled
    | ErrorCodeClosed => ObserverOutcomeClosed
    | _ => if Error_DeliveryState e ==? DeliveryStateRejected then ObserverOutcomeRejected else ObserverOutcomeFailed
    end
  end.

(** telemetry.go, [httpStatusClass]. *)
Definition httpStatusClass (status : Z) : HTTPStatusClass :=
  if (200 <=? status) && (status <? 300) then HTTPStatusClassSuccess
  else if (300 <=? status) && (status <? 400) then HTTPStatusClassRedirection
  else if (400 <=? status) && (status <? 500) then HTTPStatusClassClientError
  else if (500 <=? status) && (status <? 600) then HTTPStatusClassServerError
  else HTTPStatusClassNone.

(** telemetry.go, [nonnegativeDuration]. *)
Definition nonnegativeDuration (nanos : Z) : Z := if nanos <? 0 then 0 else nanos.

Definition unset {A} (o : option A) : bool := match o with None => true | Some _ => false end.

(** telemetry.go, [authorizedPropagationHeaders]: the switch of its loop, and the whole. *)
Definition propagationStep (acc : option HeaderField * option HeaderField) (pair : bytes * bytes)
    : option HeaderField * option HeaderField :=
  let field := mkHeader pair.1 pair.2 in
  if EqualFold pair.1 (B "traceparent") && unset acc.1 then (Some field, acc.2)
  else if EqualFold pair.1 (B "tracestate") && unset acc.2 then (acc.1, Some field)
  else acc.
Definition authorizedPropagationHeaders (pairs : list (bytes * bytes)) : list HeaderField :=
  match fold_left propagationStep pairs (None, None) with
  | (None, _) => []
  | (Some traceparent, tracestate) => traceparent :: from_option (fun f => [f]) [] tracestate
  end.

(** The code, delivery state and status class that an event carries for an error. *)
Definition errorCode (err : option Error) : ErrorCode :=
  match err with Some e => Error_Code e | None => ErrorCodeNone end.
Definition deliveryOf (err : option Error) : DeliveryState :=
  match err with Some e => Error_DeliveryState e | None => DeliveryStateAccepted end.
Definition statusOf (err : option Error) : HTTPStatusClass :=
  match err with Some e => httpStatusClass (Error_HTTPStatus e) | None => HTTPStatusClassSuccess end.

(** ** The operations *)
Section operations.
Context (H : hooks).

(** telemetry.go, [sample]: the clock never runs backwards for an operation. *)
Definition sample (r : report) : Z * report :=
  let last := lastTimestamp (obs r) in
  let t := match clock H (asked r) with Some now => if last <? now then now else last | None => last end in
  (t, tock (upd (set_last t) r)).

Definition stamp (id : bytes) (t : Z) (e : ObserverEvent) : ObserverEvent :=
  mkEvent 1 (Kind e) id t (AttemptNumber e) (Duration e) (Outcome e) (Event_ErrorCode e) (Event_DeliveryState e)
    (Event_HTTPStatusClass e) (RetryDelay e) (OperationStartedAt e) (OperationEndedAt e) (AttemptSummaries e).

(** telemetry.go, [emitAt] and [emit]. *)
Definition emitAt (e : ObserverEvent) (t : Z) (r : report) : report :=
  if observerSet H
  then mkReport (obs r) (asked r) (emitted r ++ [stamp (operationID (obs r)) t e]) (spans r) (diag r)
  else r.
Definition emit (e : ObserverEvent) (r : report) : report :=
  if observerSet H then let '(t, r) := sample r in emitAt e t r else r.

(** An event with the fields that most events leave empty. *)
Definition event_lit (kind : ObserverEventKind) (number duration : Z) (outcome : ObserverOutcome) (code : ErrorCode)
    (delivery : DeliveryState) (status : HTTPStatusClass) (delay : Z) : ObserverEvent :=
  mkEvent 0 kind [] 0 number duration outcome code delivery status delay 0 0 [].
Definition event_of_kind (kind : ObserverEventKind) (number : Z) : ObserverEvent :=
  event_lit kind number 0 ObserverOutcomeNone ErrorCodeNone DeliveryStateNone HTTPStatusClassNone 0.

(** telemetry.go, [captureTelemetry]: whether a context was captured. *)
Definition captureTelemetry (t : nat) (s : runtimeState) : bool * runtimeState :=
  if negb (telemetrySet H) then (false, s)
  else if hookContext H t then (true, s) else (false, addTelemetryFailure s).

(** telemetry.go, [startObservability]. *)
Definition newObservability (id : bytes) (started : Z) : operationObservability :=
  mkObservability id started started 0 0 [] false false false false.
Definition startObservability (captured : bool) (started : Z) (id : bytes) (t : nat) (s : runtimeState) : report :=
  let r := mkReport (newObservability id started) t [] [] s in
  let r := emit (event_of_kind ObserverEventKindOperationStart 0) r in
  if negb (telemetrySet H) || negb captured then r
  else
    let ok := hookStartOperation H (asked r) in
    let r := upd (set_handles ok false false) (call (SpanStartOperation started ok) r) in
    if ok then
      let values := hookOperationContext H (asked r) in
      upd (set_handles true false values) (call (SpanContext values) r)
    else r.

(** telemetry.go, [startAttempt]. *)
Definition startAttempt (attempt : Z) (r : report) : list HeaderField * report :=
  if finished (obs r) then ([], r)
  else
    let '(t, r) := sample r in
    let r := upd (set_attempt t attempt) r in
    let r := emit (event_of_kind ObserverEventKindAttemptStart attempt) r in
    if negb (telemetry (obs r)) then ([], r)
    else
      let ok := hookStartAttempt H (asked r) in
      let r := upd (set_handles true ok (transportValues (obs r))) (call (SpanStartAttempt t attempt ok) r) in
      if negb ok then ([], r)
      else
        let pairs := hookHeaders H (asked r) in
        (authorizedPropagationHeaders (default [] pairs), call (SpanHeaders (negb (unset pairs))) r).

(** telemetry.go, [outcome]: a cancellation by the closing of the runtime. *)
Definition outcome (err : option Error) (r : report) : ObserverOutcome * report :=
  if errorCode err ==? ErrorCodeCancelled then
    (if runtimeDone H (asked r) then ObserverOutcomeClosed else outcomeForError err, tock r)
  else (outcomeForError err, r).

(** telemetry.go, [endAttempt]. *)
Definition endAttempt (err : option Error) (retryable : bool) (r : report) : report :=
  let n := attemptNumber (obs r) in
  if n =? 0 then r
  else
    let '(endedAt, r) := sample r in
    let duration := nonnegativeDuration (wrap64 (endedAt - attemptStartedAt (obs r))) in
    let '(o, r) := outcome err r in
    let o := if retryable then ObserverOutcomeRetryableFailure else o in
    let status := statusOf err in
    let code := errorCode err in
    let delivery := deliveryOf err in
    let summary := mkSummary n o code delivery status duration in
    let sums := summaries (obs r) in
    let r := if len sums <? 10 then upd (set_summaries (sums ++ [summary])) r else r in
    let r := emit (event_lit ObserverEventKindAttemptEnd n duration o code delivery status 0) r in
    let r := if attemptTelemetry (obs r)
             then call (SpanEndAttempt status o code duration (hookEnd H (asked r))) r else r in
    upd (fun x => set_attempt (attemptStartedAt x) 0 (set_handles (telemetry x) false (transportValues x) x)) r.

(** telemetry.go, [retry]. *)
Definition retry (delay : Z) (err : option Error) (r : report) : report :=
  match err with
  | Some e =>
    if finished (obs r) then r
    else emit (event_lit ObserverEventKindRetryDelay (Error_AttemptCount e) 0 ObserverOutcomeRetryableFailure
                 (Error_Code e) (Error_DeliveryState e) (httpStatusClass (Error_HTTPStatus e)) delay) r
  | None => r
  end.

(** telemetry.go, [finish], the cancellation event. *)
Definition announceCancel (o : ObserverOutcome) (err : option Error) (r : report) : report :=
  if o ==? ObserverOutcomeCancelled
  then emit (event_lit ObserverEventKindOperationCancel 0 0 o (errorCode err) (deliveryOf err) (statusOf err) 0) r
  else r.

(** telemetry.go, [finish], on the error that [errors.As] finds. *)
Definition finish (err : option Error) (r : report) : report :=
  if finished (obs r) then r
  else
    let r := endAttempt err false (upd set_finished r) in
    let '(o, r) := outcome err r in
    let code := errorCode err in
    let delivery := deliveryOf err in
    let status := statusOf err in
    let r := announceCancel o err r in
    let '(endedAt, r) := sample r in
    let duration := nonnegativeDuration (wrap64 (endedAt - startedAt (obs r))) in
    let r := if telemetry (obs r) then call (SpanEnd o code duration (hookEnd H (asked r))) r else r in
    emitAt (mkEvent 0 ObserverEventKindOperationEnd [] 0 0 duration o code delivery status 0
              (startedAt (obs r)) endedAt (summaries (obs r))) endedAt r.

(** The calls that a send makes: what [sendAdmitted] calls for an event of its trace.
    A panic leaves the deferred [finish] with a nil error. *)
Definition errorOf (f : final) : option Error := match f with Failed e => e | _ => None end.
Definition react (f : final) (r : report) (ev : event) : report :=
  match ev with
  | EvStartAttempt n => (startAttempt n r).2
  | EvEndAttempt e retryable => endAttempt e retryable r
  | EvRetry d e => retry d (Some e) r
  | EvOperationEnd => finish (errorOf f) r
  | _ => r
  end.
Definition reports (f : final) (evs : list event) (r : report) : report := fold_left (react f) evs r.
End operations.

(** [endAttempt] does nothing when no attempt is under way. *)
Lemma endAttempt_idle H err retryable r : attemptNumber (obs r) = 0 -> endAttempt H err retryable r = r.
Proof. unfold endAttempt. by intros ->. Qed.

(** ** What an observer may see

    The abstract specification: the operation starts; attempts are numbered from one and
    each ends before the next starts; between two attempts the failed one is followed by
    one announced delay with its error; a cancelled operation says so before it ends; the
    end carries the summaries of the first ten attempts. *)

Definition summaryOf (e : ObserverEvent) : AttemptSummary :=
  mkSummary (AttemptNumber e) (Outcome e) (Event_ErrorCode e) (Event_DeliveryState e) (Event_HTTPStatusClass e) (Duration e).

(** [VReady n]: attempt [n] may start; [VAttempt n]: it is under way; [VFailed n x]: it
    ended with [x] and is to be retried; [VOver]: it was the last.  The list has the
    summaries of the attempts that ended. *)
Inductive view :=
| VBefore
| VReady (n : Z) (sums : list AttemptSummary)
| VAttempt (n : Z) (sums : list AttemptSummary)
| VFailed (n : Z) (sums : list AttemptSummary) (x : ObserverEvent)
| VOver (sums : list AttemptSummary)
| VCancelled (sums : list AttemptSummary) (x : ObserverEvent)
| VDone (x : ObserverEvent).

Definition sameError (x e : ObserverEvent) : Prop :=
  Outcome e = Outcome x /\ Event_ErrorCode e = Event_ErrorCode x /\ Event_DeliveryState e = Event_DeliveryState x /\
  Event_HTTPStatusClass e = Event_HTTPStatusClass x.
(** No attempt is under way. *)
Definition quiet (v : view) : option (list AttemptSummary) :=
  match v with VReady _ l | VFailed _ l _ | VOver l => Some l | _ => None end.

Inductive viewMove : view -> ObserverEvent -> view -> Prop :=
| view_start e : Kind e = ObserverEventKindOperationStart -> viewMove VBefore e (VReady 1 [])
| view_attempt n l e : Kind e = ObserverEventKindAttemptStart -> AttemptNumber e = n ->
    viewMove (VReady n l) e (VAttempt n l)
| view_failed n l e : Kind e = ObserverEventKindAttemptEnd -> AttemptNumber e = n ->
    Outcome e = ObserverOutcomeRetryableFailure -> viewMove (VAttempt n l) e (VFailed n (l ++ [summaryOf e]) e)
| view_last n l e : Kind e = ObserverEventKindAttemptEnd -> AttemptNumber e = n ->
    Outcome e <> ObserverOutcomeRetryableFailure -> viewMove (VAttempt n l) e (VOver (l ++ [summaryOf e]))
| view_retry n l x e : Kind e = ObserverEventKindRetryDelay -> AttemptNumber e = n -> sameError x e ->
    viewMove (VFailed n l x) e (VReady (n + 1) l)
| view_cancel v l e : quiet v = Some l -> Kind e = ObserverEventKindOperationCancel ->
    Outcome e = ObserverOutcomeCancelled -> viewMove v e (VCancelled l e)
| view_end v l e : quiet v = Some l -> Kind e = ObserverEventKindOperationEnd ->
    Outcome e <> ObserverOutcomeCancelled -> AttemptSummaries e = take 10 l -> viewMove v e (VDone e)
| view_end_cancelled l x e : Kind e = ObserverEventKindOperationEnd -> sameError x e ->
    AttemptSummaries e = take 10 l -> viewMove (VCancelled l x) e (VDone e).

Inductive viewRun : view -> list ObserverEvent -> view -> Prop :=
| viewRun_nil v : viewRun v [] v
| viewRun_cons v e v1 es v2 : viewMove v e v1 -> viewRun v1 es v2 -> viewRun v (e :: es) v2.

Lemma viewRun_app v es v1 es' v2 : viewRun v es v1 -> viewRun v1 es' v2 -> viewRun v (es ++ es') v2.
Proof. induction 1; cbn; [done|]. econstructor; eauto. Qed.
Lemma viewRun_one v e v' : viewMove v e v' -> viewRun v [e] v'.
Proof. intros Hm. econstructor; [done|constructor]. Qed.

(** The attempts that ended, as the view has them. *)
#[export] Instance ObserverEventKind_eq_dec : EqDecision ObserverEventKind.
Proof. solve_decision. Defined.
Definition attemptEnds (es : list ObserverEvent) : list ObserverEvent :=
  List.filter (fun e => Kind e ==? ObserverEventKindAttemptEnd) es.
Definition sumsOf (v : view) : list AttemptSummary :=
  match v with VReady _ l | VAttempt _ l | VFailed _ l _ | VOver l | VCancelled l _ => l | VBefore | VDone _ => [] end.

Lemma viewMove_sums v e v' : viewMove v e v' ->
  match v' with
  | VDone x => attemptEnds [e] = [] /\ AttemptSummaries x = take 10 (sumsOf v) /\ e = x
  | _ => sumsOf v' = sumsOf v ++ map summaryOf (attemptEnds [e])
  end.
Proof.
  intros Hm. destruct Hm; unfold attemptEnds; cbn; repeat match goal with H : Kind _ = _ |- _ => rewrite H end; cbn; rewrite ?app_nil_r; try done.
  all: match goal with H : quiet ?v = Some _ |- _ => destruct v; try done; injection H as ->; done end.
Qed.
Lemma viewRun_sums v es v' : viewRun v es v' -> (forall x, v <> VDone x) ->
  match v' with
  | VDone x => AttemptSummaries x = take 10 (sumsOf v ++ map summaryOf (attemptEnds es))
  | _ => sumsOf v' = sumsOf v ++ map summaryOf (attemptEnds es)
  end.
Proof.
  induction 1 as [v|v e v1 es v2 Hm Hr IH]; intros Hv; [destruct v as [| | | | | |y]; cbn; rewrite ?app_nil_r; try done; by destruct (Hv y)|].
  pose proof (viewMove_sums _ _ _ Hm) as Hs.
  assert (attemptEnds (e :: es) = attemptEnds [e] ++ attemptEnds es) as -> by apply (List.filter_app _ [e] es). rewrite map_app.
  assert ((exists y, v1 = VDone y) \/ forall x, v1 <> VDone x) as [[y ->]|Hv1] by (destruct v1; eauto).
  - destruct Hs as (Hs & Hx & <-). inversion Hr as [|? ? ? ? ? Hm']; subst; [|inversion Hm'; by subst]. rewrite Hs. cbn. by rewrite app_nil_r.
  - specialize (IH Hv1).
    assert (sumsOf v1 = sumsOf v ++ map summaryOf (attemptEnds [e])) as E by (destruct v1 as [| | | | | |y]; try exact Hs; by destruct (Hv1 y)).
    rewrite E, <- app_assoc in IH. exact IH.
Qed.

(** [a], the elements of [l] and [b] are in order. *)
Fixpoint ascending (a : Z) (l : list Z) (b : Z) : Prop :=
  match l with [] => a <= b | x :: l => a <= x /\ ascending x l b end.

Lemma ascending_app a l b l' c : ascending a l b -> ascending b l' c -> ascending a (l ++ l') c.
Proof.
  revert a. induction l as [|x l IH]; cbn; intros a Hl Hl'.
  - destruct l' as [|y l']; cbn in *; [lia|]. split; [lia|tauto].
  - split; [tauto|]. apply IH; tauto.
Qed.

(** ** The operation is seen as specified *)
Section observed.
Context (H : hooks) (watched : observerSet H = true).

(** [r'] comes from [r] by emitting [es]. *)
Record extends (r : report) (es : list ObserverEvent) (r' : report) : Prop := {
  ext_emitted : emitted r' = emitted r ++ es;
  ext_ids : operationID (obs r') = operationID (obs r) /\ startedAt (obs r') = startedAt (obs r);
  ext_stamped : Forall (fun e => SchemaVersion e = 1 /\ Event_OperationID e = operationID (obs r) /\
                                 0 <= Duration e <= MaxInt64) es;
  ext_times : ascending (lastTimestamp (obs r)) (map Timestamp es) (lastTimestamp (obs r'))
}.

Lemma extends_refl r : extends r [] r.
Proof. split; cbn; [by rewrite app_nil_r|done|constructor|lia]. Qed.
Lemma extends_trans r es r1 es' r2 : extends r es r1 -> extends r1 es' r2 -> extends r (es ++ es') r2.
Proof.
  intros [E1 [I1 S1] F1 T1] [E2 [I2 S2] F2 T2]. rewrite I1 in F2. split.
  - by rewrite E2, E1, app_assoc.
  - split; congruence.
  - by apply Forall_app.
  - rewrite map_app. by eapply ascending_app.
Qed.

Lemma nonnegativeDuration_range z : in_int64 z -> 0 <= nonnegativeDuration z <= MaxInt64.
Proof. unfold nonnegativeDuration, in_int64, MaxInt64. destruct (Z.ltb_spec z 0); lia. Qed.
Lemma duration_range a : 0 <= nonnegativeDuration (wrap64 a) <= MaxInt64.
Proof. apply nonnegativeDuration_range, wrap64_range. Qed.

Lemma sample_later r : lastTimestamp (obs r) <= (sample H r).1.
Proof. unfold sample. cbn. destruct (clock H _); [|lia]. destruct (Z.ltb_spec (lastTimestamp (obs r)) z); lia. Qed.
Lemma sample_extends r : extends r [] (sample H r).2.
Proof. pose proof (sample_later r). split; cbn in *; [by rewrite app_nil_r|done|constructor|done]. Qed.
Lemma sample_obs r : obs (sample H r).2 = set_last (sample H r).1 (obs r).
Proof. done. Qed.

Lemma emit_extends e r : 0 <= Duration e <= MaxInt64 ->
  exists t, extends r [stamp (operationID (obs r)) t e] (emit H e r) /\ obs (emit H e r) = set_last t (obs r).
Proof.
  intros Hd. pose proof (sample_later r) as Hl. unfold emit, emitAt. rewrite watched.
  exists (sample H r).1. split; [|done]. split; cbn in *; [done|done| |lia].
  by constructor.
Qed.
(** Steps that emit nothing. *)
Lemma extends_same r r' :
  emitted r' = emitted r -> operationID (obs r') = operationID (obs r) -> startedAt (obs r') = startedAt (obs r) ->
  lastTimestamp (obs r') = lastTimestamp (obs r) -> extends r [] r'.
Proof. intros He Hi Hs Ht. split; cbn; [by rewrite app_nil_r|done|constructor|lia]. Qed.
Lemma outcome_extends err r : extends r [] (outcome H err r).2 /\ obs (outcome H err r).2 = obs r.
Proof. unfold outcome. destruct (_ ==? _); (split; [by apply extends_same|done]). Qed.
Lemma extends_then r es r1 r2 : extends r es r1 -> extends r1 [] r2 -> extends r es r2.
Proof. intros H1 H2. rewrite <- (app_nil_r es). by eapply extends_trans. Qed.
Lemma extends_before r es r1 r2 : extends r [] r1 -> extends r1 es r2 -> extends r es r2.
Proof. intros H1 H2. by eapply (extends_trans r [] r1 es). Qed.

Lemma startObservability_observed captured started id t s :
  exists e, Kind e = ObserverEventKindOperationStart /\
    extends (mkReport (newObservability id started) t [] [] s) [e] (startObservability H captured started id t s) /\
    let o := obs (startObservability H captured started id t s) in
    finished o = false /\ attemptNumber o = 0 /\ summaries o = [].
Proof.
  unfold startObservability. cbv zeta. set (r0 := mkReport _ _ _ _ _).
  destruct (emit_extends (event_of_kind ObserverEventKindOperationStart 0) r0) as (ts & F & Ho); [cbn; unfold MaxInt64; lia|].
  set (r := emit H _ r0) in *. exists (stamp id ts (event_of_kind ObserverEventKindOperationStart 0)). split; [done|].
  destruct (negb (telemetrySet H) || negb captured).
  { split; [exact F|]. by rewrite Ho. }
  destruct (hookStartOperation H (asked r)); (split; [eapply extends_then; [exact F|by apply extends_same]|]); cbn; by rewrite Ho.
Qed.

Lemma startAttempt_observed n r : finished (obs r) = false ->
  exists e, Kind e = ObserverEventKindAttemptStart /\ AttemptNumber e = n /\ extends r [e] (startAttempt H n r).2 /\
    let o := obs (startAttempt H n r).2 in
    finished o = false /\ attemptNumber o = n /\ summaries o = summaries (obs r).
Proof.
  intros Hf. unfold startAttempt. rewrite Hf. destruct (sample H r) as [t r1] eqn:Es.
  assert (extends r [] r1 /\ obs r1 = set_last t (obs r)) as [F1 O1].
  { pose proof (sample_extends r). pose proof (sample_obs r). by rewrite Es in *. }
  set (r2 := upd (set_attempt t n) r1). assert (extends r [] r2) as F2.
  { eapply extends_then; [exact F1|by apply extends_same]. }
  destruct (emit_extends (event_of_kind ObserverEventKindAttemptStart n) r2) as (ts & F & Ho); [cbn; unfold MaxInt64; lia|].
  set (r3 := emit H _ r2) in *. eexists. split; [|split; [|split; [eapply extends_before; [exact F2|]|]]].
  3: { destruct (negb _); [exact F|]. eapply extends_then; [exact F|]. destruct (negb _); by apply extends_same. }
  1-2: done.
  destruct (negb _); [|destruct (negb _)]; cbn; rewrite ?Ho; cbn; by rewrite O1.
Qed.

Lemma endAttempt_observed err retryable r : attemptNumber (obs r) <> 0 ->
  exists e, Kind e = ObserverEventKindAttemptEnd /\ AttemptNumber e = attemptNumber (obs r) /\
    Event_ErrorCode e = errorCode err /\ Event_DeliveryState e = deliveryOf err /\ Event_HTTPStatusClass e = statusOf err /\
    (Outcome e = ObserverOutcomeRetryableFailure <-> retryable = true) /\
    extends r [e] (endAttempt H err retryable r) /\
    let o := obs (endAttempt H err retryable r) in
    finished o = finished (obs r) /\ attemptNumber o = 0 /\
    summaries o = if len (summaries (obs r)) <? 10 then summaries (obs r) ++ [summaryOf e] else summaries (obs r).
Proof.
  intros Hn. unfold endAttempt. rewrite (proj2 (Z.eqb_neq _ _) Hn). destruct (sample H r) as [t r1] eqn:Es.
  assert (extends r [] r1 /\ obs r1 = set_last t (obs r)) as [F1 O1].
  { pose proof (sample_extends r). pose proof (sample_obs r). by rewrite Es in *. }
  pose proof (duration_range (t - attemptStartedAt (obs r1))) as Hd. set (d := nonnegativeDuration _) in *.
  assert ((outcome H err r1).1 <> ObserverOutcomeRetryableFailure) as Hout.
  { unfold outcome, outcomeForError, errorCode. destruct err as [x|]; cbn; repeat case_match; done. }
  destruct (outcome_extends err r1) as [F2 O2]. destruct (outcome H err r1) as [o r2]. cbn in F2, O2, Hout.
  set (o' := if retryable then _ else o).
  set (sum := mkSummary _ _ _ _ _ _). set (r3 := if len _ <? 10 then _ else r2).
  assert (extends r [] r3 /\ obs r3 = set_summaries (if len (summaries (obs r)) <? 10 then summaries (obs r) ++ [sum]
            else summaries (obs r)) (obs r2)) as [F3 O3].
  { unfold r3. rewrite O2, O1. cbn. split.
    - eapply extends_then; [exact F1|]. eapply extends_then; [exact F2|].
      destruct (len (summaries (obs r)) <? 10); by apply extends_same.
    - destruct (len (summaries (obs r)) <? 10); cbn; [by rewrite O2, O1|]. rewrite O2, O1. by destruct (obs r). }
  set (ev := event_lit _ _ _ _ _ _ _ _). destruct (emit_extends ev r3 Hd) as (ts & F & Ho).
  set (r4 := emit H ev r3) in *. exists (stamp (operationID (obs r3)) ts ev). cbn [Kind AttemptNumber stamp ev event_lit].
  split_and!; [done|done|done|done|done| |eapply extends_before; [exact F3|]; eapply extends_then; [exact F|]| | |].
  - unfold o', ev. cbn. by destruct retryable.
  - destruct (attemptTelemetry _); by apply extends_same.
  - destruct (attemptTelemetry _); cbn; rewrite Ho, O3, O2, O1; done.
  - destruct (attemptTelemetry _); done.
  - destruct (attemptTelemetry _); cbn; rewrite Ho, O3; done.
Qed.

Lemma retry_observed d err r : finished (obs r) = false ->
  exists e, Kind e = ObserverEventKindRetryDelay /\ AttemptNumber e = Error_AttemptCount err /\ RetryDelay e = d /\
    Outcome e = ObserverOutcomeRetryableFailure /\ Event_ErrorCode e = Error_Code err /\
    Event_DeliveryState e = Error_DeliveryState err /\ Event_HTTPStatusClass e = statusOf (Some err) /\
    extends r [e] (retry H d (Some err) r) /\
    let o := obs (retry H d (Some err) r) in
    finished o = false /\ attemptNumber o = attemptNumber (obs r) /\ summaries o = summaries (obs r).
Proof.
  intros Hf. unfold retry. rewrite Hf. set (ev := event_lit _ _ _ _ _ _ _ _).
  destruct (emit_extends ev r) as (ts & F & Ho); [cbn; unfold MaxInt64; lia|].
  eexists. split_and!; [..|exact F| | |]; try done. all: by rewrite Ho.
Qed.

(** The last event of an operation that ended with [err]. *)
Definition concludes (err : option Error) (started : Z) (x : ObserverEvent) : Prop :=
  (Outcome x = outcomeForError err \/ errorCode err = ErrorCodeCancelled /\ Outcome x = ObserverOutcomeClosed) /\
  Event_ErrorCode x = errorCode err /\ Event_DeliveryState x = deliveryOf err /\
  Event_HTTPStatusClass x = statusOf err /\ OperationStartedAt x = started /\ OperationEndedAt x = Timestamp x /\
  Duration x = nonnegativeDuration (wrap64 (Timestamp x - started)).

Lemma outcome_value err r :
  (outcome H err r).1 = outcomeForError err \/
  errorCode err = ErrorCodeCancelled /\ (outcome H err r).1 = ObserverOutcomeClosed.
Proof.
  unfold outcome, eqb. destruct (bool_decide_reflect (errorCode err = ErrorCodeCancelled)); [|by left]. cbn.
  destruct (runtimeDone H _); auto.
Qed.

(** The end of an operation whose outcome is [o] is allowed in view [v]. *)
Definition mayEnd (o : ObserverOutcome) (err : option Error) (l : list AttemptSummary) (v : view) : Prop :=
  forall e, Kind e = ObserverEventKindOperationEnd -> Outcome e = o -> Event_ErrorCode e = errorCode err ->
    Event_DeliveryState e = deliveryOf err -> Event_HTTPStatusClass e = statusOf err ->
    AttemptSummaries e = take 10 l -> viewMove v e (VDone e).

Lemma announceCancel_observed o err r v l : quiet v = Some l ->
  exists es v1 t, extends r es (announceCancel H o err r) /\ viewRun v es v1 /\ mayEnd o err l v1 /\
    obs (announceCancel H o err r) = set_last t (obs r) /\ attemptEnds es = [].
Proof.
  intros Hv. unfold announceCancel, eqb. destruct (bool_decide_reflect (o = ObserverOutcomeCancelled)) as [->|Hne].
  - set (ev := event_lit _ _ _ _ _ _ _ _). destruct (emit_extends ev r) as (ts & F & Hx); [cbn; unfold MaxInt64; lia|].
    eexists _, _, ts. split_and!; [exact F|apply viewRun_one; by eapply view_cancel| |done|done].
    intros e Hk He Hc Hd Hs Hsum. by apply view_end_cancelled.
  - exists [], v, (lastTimestamp (obs r)). split_and!; [apply extends_refl|constructor| |by destruct (obs r)|done].
    intros e Hk He _ _ _ Hsum. eapply view_end; [done|done|by rewrite He|done].
Qed.

Lemma finish_observed err r v l :
  finished (obs r) = false -> attemptNumber (obs r) = 0 -> quiet v = Some l -> summaries (obs r) = take 10 l ->
  exists es x, extends r es (finish H err r) /\ viewRun v es (VDone x) /\ concludes err (startedAt (obs r)) x /\
    attemptEnds es = [].
Proof.
  intros Hf Hn Hv Hl. unfold finish. rewrite Hf. rewrite (endAttempt_idle H) by done. set (r0 := upd set_finished r).
  assert (extends r [] r0) as F0 by by apply extends_same.
  pose proof (outcome_value err r0) as Ho. destruct (outcome_extends err r0) as [F1 O1].
  destruct (outcome H err r0) as [o r1]. cbn in Ho, F1, O1.
  destruct (announceCancel_observed o err r1 v l Hv) as (es & v1 & t1 & F2 & R & Hend & O2 & Hno).
  set (r2 := announceCancel H o err r1) in *. clearbody r2.
  pose proof (sample_extends r2) as F3. pose proof (sample_obs r2) as O3.
  assert ((sample H r2).1 = lastTimestamp (obs (sample H r2).2)) as T3 by done.
  destruct (sample H r2) as [t r3]. cbn in F3, O3, T3. set (r4 := if telemetry _ then _ else _).
  assert (extends r es r4 /\ obs r4 = obs r3) as [F4 O4].
  { unfold r4. split; [|by destruct (telemetry _)].
    eapply extends_before; [exact F0|]. eapply extends_before; [exact F1|]. eapply extends_then; [exact F2|].
    eapply extends_then; [exact F3|]. destruct (telemetry _); [by apply extends_same|apply extends_refl]. }
  clearbody r4. pose proof (duration_range (t - startedAt (obs r3))) as Hd. set (ev := mkEvent _ _ _ _ _ _ _ _ _ _ _ _ _ _).
  exists (es ++ [stamp (operationID (obs r4)) t ev]), (stamp (operationID (obs r4)) t ev).
  assert (startedAt (obs r4) = startedAt (obs r)) as Hst by apply F4.
  split_and!.
  - eapply extends_trans; [exact F4|]. unfold emitAt. rewrite watched. split; cbn; [done|done|by apply Forall_singleton|].
    rewrite O4, <- T3. lia.
  - eapply viewRun_app; [exact R|]. apply viewRun_one, Hend; try done. cbn. by rewrite O4, O3, O2, O1.
  - unfold concludes. cbn. rewrite O4 in Hst. rewrite O4, Hst. by split_and!.
  - unfold attemptEnds in *. by rewrite List.filter_app, Hno.
Qed.

(** What the view knows in a phase of the protocol. *)
Definition seen (ph : phase) (v : view) (l : list AttemptSummary) (n : Z) : Prop :=
  match ph with
  | Waiting k _ => v = VReady k l /\ n = 0
  | Sending k _ _ | Judged k _ => v = VAttempt k l /\ n = k
  | Backing k _ e | Sampled k _ e =>
    n = 0 /\ exists x, v = VFailed k l x /\ Outcome x = ObserverOutcomeRetryableFailure /\ Event_ErrorCode x = Error_Code e /\
      Event_DeliveryState x = Error_DeliveryState e /\ Event_HTTPStatusClass x = statusOf (Some e) /\
      Error_AttemptCount e = k
  | Delayed k _ _ => v = VReady (k + 1) l /\ n = 0
  | Ended _ _ => v = VOver l /\ n = 0
  end.
Definition follows_view (ph : phase) (v : view) (r : report) : Prop :=
  exists l, len l = attempts ph - pending ph /\ seen ph v l (attemptNumber (obs r)) /\ finished (obs r) = false /\ summaries (obs r) = take 10 l.

Lemma take_summaries {A} (l : list A) x :
  (if len (take 10 l) <? 10 then take 10 l ++ [x] else take 10 l) = take 10 (l ++ [x]).
Proof.
  unfold len. rewrite length_take, firstn_app. destruct (Z.ltb_spec (Z.of_nat (10 `min` length l)) 10).
  - rewrite (firstn_all2 (n := 10) l) by lia. by rewrite (firstn_all2 (n := 10 - length l) [x]) by (cbn; lia).
  - replace (10 - length l)%nat with 0%nat by lia. by rewrite app_nil_r.
Qed.

Lemma follows_view_move E C id p f ph ev ph' v r :
  move E C id p ph ev ph' -> follows_view ph v r ->
  exists es v', extends r es (react H f r ev) /\ viewRun v es v' /\ follows_view ph' v' (react H f r ev).
Proof.
  intros Hm (l & Ha & Hs & Hf & Hl). pose proof (len_nonneg l) as Hnn.
  destruct Hm; cbn [react seen] in *.
  all: try (exists [], v; split_and!; [apply extends_refl|constructor|by exists l]).
  - destruct Hs as [-> Hn]. destruct (startAttempt_observed n r Hf) as (e & Hk & He & F & Hf' & Hn' & Hl').
    exists [e], (VAttempt n l). split_and!; [done|by apply viewRun_one; constructor|].
    exists l. cbn in *. rewrite Hl', Hn'. split_and!; auto. lia.
  - destruct Hs as [-> Hn]. cbn in Ha.
    destruct (endAttempt_observed e false r) as (x & Hk & He & Hc & Hd & Hh & Ho & F & Hf' & Hn' & Hl'); [lia|].
    exists [x], (VOver (l ++ [summaryOf x])). split_and!; [done| |].
    + apply viewRun_one, (view_last n); [done|congruence|]. intros HO. by apply Ho in HO.
    + exists (l ++ [summaryOf x]). cbn. rewrite Hf', Hn', Hl', Hl, take_summaries, len_app. change (len [summaryOf x]) with 1. split_and!; try done. lia.
  - destruct Hs as [-> Hn]. cbn in Ha.
    destruct (endAttempt_observed (Some e) true r) as (x & Hk & He & Hc & Hd & Hh & Ho & F & Hf' & Hn' & Hl'); [lia|].
    exists [x], (VFailed n (l ++ [summaryOf x]) x). split_and!; [done| |].
    + apply viewRun_one, view_failed; [done|congruence|by apply Ho].
    + exists (l ++ [summaryOf x]). cbn. rewrite Hf', Hn', Hl', Hl, take_summaries, len_app. change (len [summaryOf x]) with 1. split_and!; try done; [lia|].
      exists x. split_and!; try done. by apply Ho.
  - destruct Hs as [Hn (x & -> & Hx1 & Hx2 & Hx3 & Hx4 & Hx5)].
    destruct (retry_observed d e r Hf) as (y & Hk & He & Hd & H1 & H2 & H3 & H4 & F & Hf' & Hn' & Hl').
    exists [y], (VReady (n + 1) l). split_and!; [done| |].
    + apply viewRun_one, (view_retry n l x); [done|congruence|]. split_and!; congruence.
    + exists l. cbn [attempts pending seen react]. rewrite Hf', Hn', Hl'. split_and!; try done.
  - destruct Hs as [-> Hn]. exists [], (VReady (n + 1) l). split_and!; [apply extends_refl|constructor|].
    exists l. cbn in *. split_and!; try done. lia.
Qed.

Lemma follows_view_run E C id p f ph evs ph' : run E C id p ph evs ph' -> forall v r, follows_view ph v r ->
  exists es v', extends r es (reports H f evs r) /\ viewRun v es v' /\ follows_view ph' v' (reports H f evs r).
Proof.
  induction 1 as [ph|ph ev ph1 evs ph2 Hm _ IH]; intros v r Hv.
  { exists [], v. split_and!; [apply extends_refl|constructor|done]. }
  destruct (follows_view_move _ _ _ _ f _ _ _ _ _ Hm Hv) as (es & v1 & F & R & Hv1).
  destruct (IH _ _ Hv1) as (es' & v2 & F' & R' & Hv2).
  exists (es ++ es'), v2. split_and!; [by eapply extends_trans|by eapply viewRun_app|done].
Qed.

(** A resting phase can be ended. *)
Lemma follows_view_quiet ph v r : follows_view ph v r -> pending ph = 0 ->
  exists l, quiet v = Some l /\ attemptNumber (obs r) = 0 /\ summaries (obs r) = take 10 l /\ len l = attempts ph.
Proof.
  intros (l & Ha & Hs & _ & Hl) Hp. exists l. rewrite Hp, Z.sub_0_r in Ha. rewrite Ha. destruct ph; cbn in *; try done.
  all: destruct Hs as [Hs1 Hs2]; try (by subst v). all: by destruct Hs2 as (x & -> & _).
Qed.
End observed.

(** ** Spans

    Calls of the implementation: nothing, or a failed start, or one operation span in
    which attempt spans with increasing numbers start and end one after the other, and
    which ends last. *)
Inductive spanPhase :=
| SFresh | SUnavailable | SStarted | SOpen (n : Z) | SStartedAttempt (n : Z) | SAttempt (n : Z) | SClosed.
Definition spanNext (ph : spanPhase) (c : spanCall) : option spanPhase :=
  match ph, c with
  | SFresh, SpanStartOperation _ ok => Some (if ok then SStarted else SUnavailable)
  | SStarted, SpanContext _ => Some (SOpen 0)
  | SOpen k, SpanStartAttempt _ n ok => if k <? n then Some (if ok then SStartedAttempt n else SOpen n) else None
  | SStartedAttempt n, SpanHeaders _ => Some (SAttempt n)
  | SAttempt n, SpanEndAttempt _ _ _ _ _ => Some (SOpen n)
  | SOpen _, SpanEnd _ _ _ _ => Some SClosed
  | _, _ => None
  end.
Fixpoint spanRun (ph : spanPhase) (l : list spanCall) : option spanPhase :=
  match l with [] => Some ph | c :: l => match spanNext ph c with Some ph => spanRun ph l | None => None end end.
Definition countFailures (l : list spanCall) : nat := length (List.filter spanFailed l).

Lemma spanRun_snoc ph l c ph' : spanRun ph l = Some ph' -> spanRun ph (l ++ [c]) = spanNext ph' c.
Proof.
  revert ph. induction l as [|x l IH]; cbn; intros ph Hr.
  - injection Hr as ->. by destruct (spanNext ph' c).
  - destruct (spanNext ph x); [by apply IH|done].
Qed.

Section spanned.
Context (H : hooks) (s0 : runtimeState).

(** What the calls depend on; the clock and the observer do not change it. *)
Definition core (r : report) :=
  (spans r, diag r, telemetry (obs r), attemptTelemetry (obs r), attemptNumber (obs r), finished (obs r)).

Lemma core_sample r : core (sample H r).2 = core r.
Proof. done. Qed.
Lemma core_emit e r : core (emit H e r) = core r.
Proof. unfold emit, emitAt. by destruct (observerSet H). Qed.
Lemma core_outcome err r : core (outcome H err r).2 = core r.
Proof. unfold outcome. by destruct (_ ==? _). Qed.
Lemma core_announceCancel o err r : core (announceCancel H o err r) = core r.
Proof. unfold announceCancel. destruct (_ ==? _); [apply core_emit|done]. Qed.

(** What the calls so far have come to. *)
Definition counted (l : list spanCall) (s : runtimeState) : Prop :=
  s = Nat.iter (countFailures l) addTelemetryFailure s0.
Definition spanState (open inAttempt : bool) (n : Z) (sp : spanPhase) : Prop :=
  if open then if inAttempt then sp = SAttempt n else exists k, sp = SOpen k /\ 0 <= k <= n
  else inAttempt = false /\ (sp = SFresh \/ sp = SUnavailable).
Definition spanned (ph : phase) (r : report) : Prop :=
  let '(calls, s, open, inAttempt, number, ended) := core r in
  pending ph <= attempts ph /\ ended = false /\ counted calls s /\
  number = (if pending ph =? 0 then 0 else attempts ph) /\ (pending ph = 0 -> inAttempt = false) /\
  exists sp, spanRun SFresh calls = Some sp /\ spanState open inAttempt (attempts ph) sp.

Lemma counted_call l s c : counted l s -> counted (l ++ [c]) (if spanFailed c then addTelemetryFailure s else s).
Proof.
  unfold counted, countFailures. intros ->. rewrite List.filter_app, length_app. cbn.
  destruct (spanFailed c); cbn; [by rewrite Nat.add_comm|by rewrite Nat.add_0_r].
Qed.

Lemma startObservability_spans captured started id t :
  spanned (Waiting 1 false) (startObservability H captured started id t s0).
Proof.
  unfold startObservability. cbv zeta. set (r0 := emit H _ _).
  assert (core r0 = ([], s0, false, false, 0, false)) as C0 by by (unfold r0; rewrite core_emit).
  unfold core in C0. injection C0 as C1 C2 C3 C4 C5 C6.
  destruct (negb (telemetrySet H) || negb captured).
  { unfold spanned, core. rewrite C1, C2, C3, C4, C5, C6. split_and!; try done. exists SFresh. split; [done|by split; [|left]]. }
  destruct (hookStartOperation H (asked r0)); unfold spanned, core; cbn; rewrite C1, C2, C5, C6; cbn.
  - assert (spanState true false 0 (SOpen 0)) by by exists 0.
    destruct (hookOperationContext H _); split_and!; try done; by exists (SOpen 0).
  - split_and!; try done. exists SUnavailable. split; [done|by split; [|right]].
Qed.

Lemma startAttempt_spans n c r : spanned (Waiting n c) r -> spanned (Sending n c false) (startAttempt H n r).2.
Proof.
  unfold spanned at 1. unfold core. cbn. intros (Hp & Hf & Hc & Hn & Ha & sp & Hr & Hs). specialize (Ha eq_refl).
  unfold startAttempt. rewrite Hf. pose proof (core_sample r) as C1. destruct (sample H r) as [t r1]. cbn in C1.
  set (r2 := emit H _ (upd (set_attempt t n) r1)).
  assert (core r2 = (spans r, diag r, telemetry (obs r), false, n, false)) as C2.
  { unfold r2. rewrite core_emit. unfold core in *. cbn. injection C1 as -> -> -> -> _ ->. by rewrite Ha, Hf. }
  clearbody r2. unfold core in C2. injection C2 as E1 E2 E3 E4 E5 E6. rewrite E3.
  destruct (telemetry (obs r)) eqn:Et; cbn [negb].
  2:{ unfold spanned, core. cbn. rewrite E1, E2, E3, E4, E5, E6. split_and!; try done; [lia|].
      exists sp. split; [done|]. rewrite Ha in Hs. exact Hs. }
  rewrite Ha in Hs. destruct Hs as (k & -> & Hk).
  assert (forall ok, spanRun SFresh (spans r ++ [SpanStartAttempt t n ok]) = Some (if ok then SStartedAttempt n else SOpen n)) as Hrun.
  { intros ok. rewrite (spanRun_snoc _ _ _ _ Hr). cbn. by destruct (Z.ltb_spec k n); [|lia]. }
  set (ok := hookStartAttempt H (asked r2)). specialize (Hrun ok). destruct ok; cbn [negb snd].
  - unfold spanned, core. cbn -[counted]. rewrite E1, E2, E5, E6. split_and!; try done; [lia| |].
    + by apply (counted_call _ _ (SpanHeaders _)), (counted_call _ _ (SpanStartAttempt t n true)).
    + exists (SAttempt n). split; [|done]. by rewrite (spanRun_snoc _ _ _ _ Hrun).
  - unfold spanned, core. cbn -[counted]. rewrite E1, E2, E5, E6. split_and!; try done; [lia| |].
    + by apply (counted_call _ _ (SpanStartAttempt t n false)).
    + exists (SOpen n). split; [done|]. exists n. split; [done|lia].
Qed.

Lemma endAttempt_spans n c ph err retryable r :
  spanned (Judged n c) r -> attempts ph = n -> pending ph = 0 -> spanned ph (endAttempt H err retryable r).
Proof.
  unfold spanned at 1. unfold core. cbn. intros (Hp & Hf & Hc & Hn & _ & sp & Hr & Hs) Hat Hpe.
  unfold endAttempt. rewrite Hn. destruct (Z.eqb_spec n 0); [lia|].
  pose proof (core_sample r) as C1. destruct (sample H r) as [t r1]. cbn in C1.
  pose proof (core_outcome err r1) as C2. destruct (outcome H err r1) as [o r2]. cbn in C2.
  set (d := nonnegativeDuration _). set (o' := if retryable then _ else o).
  set (r3 := if len _ <? 10 then _ else r2). assert (core r3 = core r2) as C3 by (unfold r3; by destruct (len (summaries (obs r2)) <? 10)).
  set (r4 := emit H _ r3). assert (core r4 = core r) as C4 by (unfold r4; rewrite core_emit; congruence).
  clearbody r4 d o'. unfold core in C4. injection C4 as E1 E2 E3 E4 E5 E6.
  unfold spanned, core. rewrite Hpe, Hat. cbn -[counted]. destruct (attemptTelemetry (obs r4)) eqn:E; cbn -[counted];
    rewrite E1, E2, E3, E6, Hf; rewrite <- E4 in Hs.
  - split_and!; try done; [lia|by apply (counted_call _ _ (SpanEndAttempt _ _ _ _ _))|].
    destruct (telemetry (obs r)); cbn in Hs; [|by destruct Hs]. subst sp. exists (SOpen n).
    split; [by rewrite (spanRun_snoc _ _ _ _ Hr)|]. exists n. split; [done|lia].
  - split_and!; try done; [lia|]. by exists sp.
Qed.

Lemma finish_spans ph err r : spanned ph r -> pending ph = 0 ->
  counted (spans (finish H err r)) (diag (finish H err r)) /\
  exists sp, spanRun SFresh (spans (finish H err r)) = Some sp /\ (sp = SFresh \/ sp = SUnavailable \/ sp = SClosed).
Proof.
  unfold spanned, core. intros (Hp & Hf & Hc & Hn & Ha & sp & Hr & Hs) Hpe. specialize (Ha Hpe).
  rewrite Hpe in Hn. cbn in Hn. unfold finish. rewrite Hf. rewrite (endAttempt_idle H) by done.
  set (r0 := upd set_finished r).
  pose proof (core_outcome err r0) as C1. destruct (outcome H err r0) as [o r1]. cbn in C1.
  pose proof (core_announceCancel o err r1) as C2. set (r2 := announceCancel H o err r1) in *. clearbody r2.
  pose proof (core_sample r2) as C3. destruct (sample H r2) as [t r3]. cbn in C3.
  rewrite C2, C1 in C3. unfold core, r0 in C3. cbn in C3. injection C3 as E1 E2 E3 E4 E5 E6.
  set (r4 := if telemetry (obs r3) then _ else r3). assert (forall e, spans (emitAt H e t r4) = spans r4 /\ diag (emitAt H e t r4) = diag r4) as He.
  { intros e. unfold emitAt. by destruct (observerSet H). }
  set (e := mkEvent _ _ _ _ _ _ _ _ _ _ _ _ _ _). destruct (He e) as [-> ->]. unfold r4. rewrite E3, Ha in *.
  destruct (telemetry (obs r)); cbn -[counted]; rewrite E1, E2.
  - destruct Hs as (k & -> & _). split; [by apply (counted_call _ _ (SpanEnd _ _ _ _))|].
    exists SClosed. split; [by rewrite (spanRun_snoc _ _ _ _ Hr)|auto].
  - destruct Hs as [_ Hs]. split; [done|]. exists sp. split; [done|]. by destruct Hs; auto.
Qed.

Lemma retry_spans d e r : core (retry H d (Some e) r) = core r.
Proof. unfold retry. destruct (finished (obs r)); [done|]. apply core_emit. Qed.

Lemma spanned_move E C id p f ph ev ph' r :
  move E C id p ph ev ph' -> spanned ph r -> spanned ph' (react H f r ev).
Proof.
  intros Hm Hs. destruct Hm; cbn [react].
  all: try exact Hs.
  - by apply startAttempt_spans.
  - by eapply endAttempt_spans.
  - by eapply endAttempt_spans.
  - unfold spanned. rewrite retry_spans. exact Hs.
  - unfold spanned in *. destruct (core r) as [[[[[? ?] ?] ?] ?] ?]. cbn -[counted] in *. replace (n + 1 - 1) with n by lia. done.
Qed.

Lemma spanned_run E C id p f ph evs ph' : run E C id p ph evs ph' -> forall r, spanned ph r -> spanned ph' (reports H f evs r).
Proof.
  induction 1 as [|ph ev ph1 evs ph2 Hm _ IH]; intros r Hs; [done|]. cbn. by eapply IH, spanned_move.
Qed.
End spanned.

(** ** What a send reports *)
Section sends.
Context {K : Codec} (E : environment) (C : runtimeConfig).
Context (sticky : forall t t', (t <= t')%nat -> deadlineErr E t = true -> deadlineErr E t' = true).
Context (delays : 0 <= retryBaseDelay C /\ 0 <= retryMaxDelay C) (positive : 1 <= maxAttempts C).
Context (id : bytes) (schema : SchemaDescriptor) (group member : bytes) (inp : SendInput) (w : world).
Abbreviation call := (sendAdmitted E C id schema group member inp w).
Context (H : hooks) (captured : bool) (t0 : nat) (s0 : runtimeState).

(** The report of a send that did [evs] and ended with [f]; a send that ends before it
    starts reporting has none, and one that does not return has not finished its own. *)
Definition narrate (f : final) (evs : list event) : option report :=
  match f, evs with
  | Crashed, _ => None
  | _, EvOperationStart :: evs =>
    Some (reports H f evs (startObservability H captured (startedNanos (permit w)) id t0 s0))
  | _, _ => None
  end.

(** The shape of the trace of a send that reports. *)
Lemma narrated_run f w' evs rep : call = (inr f, w') -> trace w' = trace w ++ evs -> narrate f evs = Some rep ->
  exists p loop ph, run E C id p (Waiting 1 false) loop ph /\ pending ph = 0 /\
    rep = finish H (errorOf f) (reports H f loop (startObservability H captured (startedNanos (permit w)) id t0 s0)) /\
    evs = EvOperationStart :: loop ++ [EvOperationEnd].
Proof.
  intros Hc Ht Hn.
  destruct (call_served E C sticky delays positive id schema group member inp w f w' evs Hc Ht)
    as [[(e & -> & _ & [-> | ->])|(p & loop & ph & -> & _ & Hr & He)]|(-> & -> & _)].
  - done.
  - cbn in Hn. injection Hn as <-. exists (mkPrepared (Descriptor.mkEvent [] []) [] [] [] []), [], (Waiting 1 false).
    split_and!; [constructor|done..].
  - assert (f <> Crashed) as Hne by by intros ->.
    assert (rep = reports H f (loop ++ [EvOperationEnd]) (startObservability H captured (startedNanos (permit w)) id t0 s0)) as ->.
    { destruct f; try done; cbn in Hn; by injection Hn as <-. }
    exists p, loop, ph. split_and!; [done| |by unfold reports; rewrite fold_left_app|done].
    destruct f as [res|[e|]| |]; cbn in He; [|tauto|done..]. by destruct He as [[n ->] _].
  - done.
Qed.

(** The events of a send, against the protocol of an observed operation. *)
Lemma observed_run f w' evs rep :
  observerSet H = true -> call = (inr f, w') -> trace w' = trace w ++ evs -> narrate f evs = Some rep ->
  exists x last, viewRun VBefore (emitted rep) (VDone x) /\ concludes (errorOf f) (startedNanos (permit w)) x /\
    ascending (startedNanos (permit w)) (map Timestamp (emitted rep)) last /\
    Forall (fun e => SchemaVersion e = 1 /\ Event_OperationID e = id /\ 0 <= Duration e <= MaxInt64) (emitted rep) /\
    len (attemptEnds (emitted rep)) <= maxAttempts C.
Proof.
  intros Hw Hc Ht Hn. destruct (narrated_run _ _ _ _ Hc Ht Hn) as (p & loop & ph & Hr & Hp & -> & _).
  destruct (startObservability_observed H Hw captured (startedNanos (permit w)) id t0 s0) as (e & Hk & F0 & Hf & Ha & Hl).
  set (r0 := startObservability _ _ _ _ _ _) in *.
  assert (follows_view (Waiting 1 false) (VReady 1 []) r0) as Hv by by (exists []; cbn; rewrite Hf, Ha, Hl).
  destruct (follows_view_run H Hw E C id p f _ _ _ Hr _ _ Hv) as (es & v1 & F1 & R1 & Hv1).
  destruct (follows_view_quiet _ _ _ Hv1 Hp) as (l & Hq & Hn1 & Hl1 & Hlen).
  assert (finished (obs (reports H f loop r0)) = false) as Hf1 by by destruct Hv1 as (? & _ & _ & ? & _).
  destruct (finish_observed H Hw (errorOf f) _ v1 l Hf1 Hn1 Hq Hl1) as (es' & x & F2 & R2 & Hx & Hno).
  pose proof (extends_trans _ _ _ _ _ F0 (extends_trans _ _ _ _ _ F1 F2)) as [Em _ Fo Ti].
  rewrite (proj2 (ext_ids _ _ _ F1)), (proj2 (ext_ids _ _ _ F0)) in Hx. cbn in Em, Fo, Ti, Hx.
  exists x. eexists. rewrite Em. split_and!; [|exact Hx|exact Ti|exact Fo|].
  - econstructor; [by constructor|]. by eapply viewRun_app.
  - pose proof (viewRun_sums _ _ _ R1 ltac:(done)) as Hsum. assert (sumsOf v1 = l) as Hl' by (destruct v1; try done; by injection Hq as ->).
    assert (attemptEnds (e :: es ++ es') = attemptEnds es) as ->.
    { unfold attemptEnds in *. cbn. rewrite Hk, List.filter_app, Hno, app_nil_r. done. }
    assert (l = map summaryOf (attemptEnds es)) as El by (rewrite <- Hl'; destruct v1; done).
    unfold len in *. rewrite El, length_map in Hlen. rewrite Hlen. apply (run_attempts E C id p _ _ _ Hr). cbn. lia.
Qed.

(** C19. The events that a send hands to the observer follow the abstract protocol
    of an observed operation: one start, attempts numbered from one that each end
    before the next starts, exactly one announced delay with the error of the failed
    attempt between two attempts, a cancellation event if and only if the outcome is
    cancelled, and an end with the summaries of the first ten attempts and the
    outcome, code and delivery state of the returned error; all carry the operation
    id, their timestamps never decrease, whatever the clock does, and no duration is
    negative. *)
Theorem observed_events_tell_the_send f w' evs rep :
  observerSet H = true -> call = (inr f, w') -> trace w' = trace w ++ evs -> narrate f evs = Some rep ->
  exists x last, viewRun VBefore (emitted rep) (VDone x) /\ concludes (errorOf f) (startedNanos (permit w)) x /\
    ascending (startedNanos (permit w)) (map Timestamp (emitted rep)) last /\
    Forall (fun e => SchemaVersion e = 1 /\ Event_OperationID e = id /\ 0 <= Duration e <= MaxInt64) (emitted rep).
Proof.
  intros Hw Hc Ht Hn. destruct (observed_run f w' evs rep Hw Hc Ht Hn) as (x & last & H1 & H2 & H3 & H4 & _). by exists x, last.
Qed.

Lemma send_spans f w' evs rep :
  call = (inr f, w') -> trace w' = trace w ++ evs -> narrate f evs = Some rep ->
  diag rep = Nat.iter (countFailures (spans rep)) addTelemetryFailure s0 /\
  exists sp, spanRun SFresh (spans rep) = Some sp /\ (sp = SFresh \/ sp = SUnavailable \/ sp = SClosed).
Proof.
  intros Hc Ht Hn. destruct (narrated_run _ _ _ _ Hc Ht Hn) as (p & loop & ph & Hr & Hp & -> & _).
  eapply finish_spans; [|exact Hp]. eapply spanned_run; [exact Hr|]. apply startObservability_spans.
Qed.

(** C20. Whichever hooks of a telemetry implementation panic or return nil, a send
    uses it in brackets: after a start that failed no other hook is called, attempt
    spans start in increasing order and each that was started is ended before the
    next and before the operation span, which is ended exactly once and last; every
    failed hook call and nothing else is counted as a telemetry failure. *)
Theorem spans_are_bracketed f w' evs rep :
  call = (inr f, w') -> trace w' = trace w ++ evs -> narrate f evs = Some rep ->
  diag rep = Nat.iter (countFailures (spans rep)) addTelemetryFailure s0 /\
  exists sp, spanRun SFresh (spans rep) = Some sp /\ (sp = SFresh \/ sp = SUnavailable \/ sp = SClosed).
Proof. apply send_spans. Qed.
End sends.

(** The headers that are propagated: nothing, or one traceparent and perhaps one
    tracestate, each the first of its name that the implementation gave. *)
Lemma propagation_fold pairs acc :
  let named name (o : option HeaderField) :=
    match o with Some f => EqualFold (Name f) (B name) = true | None => True end in
  named "traceparent"%string acc.1 -> named "tracestate"%string acc.2 ->
  let acc' := fold_left propagationStep pairs acc in
  named "traceparent"%string acc'.1 /\ named "tracestate"%string acc'.2.
Proof.
  intros named. revert acc. induction pairs as [|pair pairs IH]; intros [tp ts] H1 H2; [done|].
  cbn [fold_left]. apply IH; unfold propagationStep; cbn;
    (destruct (EqualFold pair.1 (B "traceparent")) eqn:Ep; [destruct (unset tp)|]; cbn; try done);
    (destruct (EqualFold pair.1 (B "tracestate")) eqn:Es; [destruct (unset ts)|]; cbn; done).
Qed.

Lemma authorized_headers pairs :
  match authorizedPropagationHeaders pairs with
  | [] => True
  | [tp] => EqualFold (Name tp) (B "traceparent") = true
  | [tp; ts] => EqualFold (Name tp) (B "traceparent") = true /\ EqualFold (Name ts) (B "tracestate") = true
  | _ => False
  end.
Proof.
  unfold authorizedPropagationHeaders. pose proof (propagation_fold pairs (None, None)) as Hf. cbn in Hf.
  destruct (fold_left _ pairs _) as [[tp|] [ts|]]; cbn in *; [by apply Hf..|done|done].
Qed.

(** They are pairs that were injected. *)
Lemma authorized_values (P : bytes -> Prop) pairs : Forall (fun pair => P pair.2) pairs ->
  Forall (fun h => P (Value h)) (authorizedPropagationHeaders pairs).
Proof.
  intros Hp. unfold authorizedPropagationHeaders.
  assert (forall acc, (forall h, acc.1 = Some h -> P (Value h)) -> (forall h, acc.2 = Some h -> P (Value h)) ->
    (forall h, (fold_left propagationStep pairs acc).1 = Some h -> P (Value h)) /\
    (forall h, (fold_left propagationStep pairs acc).2 = Some h -> P (Value h))) as Hf.
  { induction Hp as [|pair pairs Hx _ IH]; intros acc H1 H2; [done|]. cbn [fold_left]. apply IH; unfold propagationStep;
      (destruct (_ && _); [|destruct (_ && _)]); cbn; intros h; try done || auto; by intros [= <-]. }
  destruct (Hf (None, None)) as [H1 H2]; [done..|]. destruct (fold_left _ pairs _) as [[tp|] ts]; [|done]. cbn in *.
  constructor; [by apply H1|]. destruct ts as [ts|]; constructor; [by apply H2|done].
Qed.

(** ** Witnesses *)
Module Demo.
Import Operation.Demo.
Definition H : hooks := mkHooks true true (fun t => Some (Z.of_nat t)) (fun _ => false) (fun _ => true)
  (fun _ => true) (fun _ => true) (fun t => Nat.leb t 6) (fun _ => Some [(B "traceparent", B "00")]) (fun _ => false).
Definition told : option report := narrate (B "op_1") start H true 0 (newRuntimeState 1 1000 10000000000)
  (match (send 2).1 with inr f => f | inl _ => Panicked end) (trace (send 2).2).
Definition reported : report := default (startObservability H true 0 [] 0 (newRuntimeState 1 1000 10000000000)) told.

Lemma observed_events_tell_the_send_witness :
  map Kind (emitted reported) =
    [ObserverEventKindOperationStart; ObserverEventKindAttemptStart; ObserverEventKindAttemptEnd; ObserverEventKindRetryDelay;
     ObserverEventKindAttemptStart; ObserverEventKindAttemptEnd; ObserverEventKindOperationEnd] /\
  exists x, viewRun VBefore (emitted reported) (VDone x).
Proof.
  split; [vm_compute; reflexivity|].
  assert (exists f, (send 2).1 = inr f) as [f Hf] by (eexists; vm_compute; reflexivity).
  destruct (observed_events_tell_the_send E (config 2) sticky (delays 2) ltac:(cbn; lia)
    (B "op_1") schema (B "g") (B "e") inp start H true 0 (newRuntimeState 1 1000 10000000000) f (send 2).2
    (trace (send 2).2) reported eq_refl) as (x & _ & Hx & _); [by apply send_ends|apply send_trace| |by exists x].
  assert (told = Some reported) as <- by (vm_compute; reflexivity). unfold told. by rewrite Hf.
Defined.

Lemma spans_are_bracketed_witness :
  length (spans reported) = 7%nat /\ countFailures (spans reported) = 3%nat /\
  exists sp, spanRun SFresh (spans reported) = Some sp.
Proof.
  split; [vm_compute; reflexivity|]. split; [vm_compute; reflexivity|].
  assert (exists f, (send 2).1 = inr f) as [f Hf] by (eexists; vm_compute; reflexivity).
  destruct (spans_are_bracketed E (config 2) sticky (delays 2) ltac:(cbn; lia)
    (B "op_1") schema (B "g") (B "e") inp start H true 0 (newRuntimeState 1 1000 10000000000) f (send 2).2
    (trace (send 2).2) reported) as (_ & sp & Hx & _); [by apply send_ends|apply send_trace| |by exists sp].
  assert (told = Some reported) as <- by (vm_compute; reflexivity). unfold told. by rewrite Hf.
Defined.
End Demo.
