(* ===== verification/Proxy.v ===== *)
(** * Proxy tunnels (internal/proxyconnect/proxyconnect.go)

    Opening a CONNECT tunnel: at most two exchanges, each on a fresh connection.  What
    the code meets, dialling, the writer and the bytes of each connection, the
    credentials provider, a cancellation that closes the connection while it is used,
    is a [tunnelEnv]; what it does is a list of [tunnelEvent]s. *)
From S2P Require Import Prelude GoText Response H1.

(** ** encoding/base64 *)

Definition base64Alphabet : bytes :=
  B "ABCDEFGHIJKLMNOPQRSTUVWXYZabcdefghijklmnopqrstuvwxyz0123456789+/".
Definition base64Char (i : Z) : Z := nth (Z.to_nat i) base64Alphabet 0.
Definition base64Pad : Z := 61.

(** [base64.StdEncoding.EncodeToString]. *)
Fixpoint EncodeToString (s : bytes) : bytes :=
  match s with
  | a :: b :: c :: s =>
    base64Char (a / 4) :: base64Char (a mod 4 * 16 + b / 16) :: base64Char (b mod 16 * 4 + c / 64) ::
    base64Char (c mod 64) :: EncodeToString s
  | [a; b] => [base64Char (a / 4); base64Char (a mod 4 * 16 + b / 16); base64Char (b mod 16 * 4); base64Pad]
  | [a] => [base64Char (a / 4); base64Char (a mod 4 * 16); base64Pad; base64Pad]
  | [] => []
  end.

(** Reading base64, as a proxy does (RFC 4648). *)
Definition base64Value (c : Z) : option Z :=
  if between 65 c 90 then Some (c - 65)
  else if between 97 c 122 then Some (c - 97 + 26)
  else if between 48 c 57 then Some (c - 48 + 52)
  else if c =? 43 then Some 62 else if c =? 47 then Some 63 else None.
Fixpoint DecodeString (s : bytes) : option bytes :=
  match s with
  | [] => Some []
  | c1 :: c2 :: c3 :: c4 :: s =>
    match base64Value c1, base64Value c2 with
    | Some v1, Some v2 =>
      let a := v1 * 4 + v2 / 16 in
      match base64Value c3 with
      | None => if (c3 =? base64Pad) && (c4 =? base64Pad) && (s ==? []) && (v2 mod 16 =? 0) then Some [a] else None
      | Some v3 =>
        let b := v2 mod 16 * 16 + v3 / 4 in
        match base64Value c4 with
        | None => if (c4 =? base64Pad) && (s ==? []) && (v3 mod 4 =? 0) then Some [a; b] else None
        | Some v4 =>
          match DecodeString s with Some r => Some (a :: b :: (v3 mod 4 * 64 + v4) :: r) | None => None end
        end
      end
    | _, _ => None
    end
  | _ => None
  end.

(** ** Reading the answer of the proxy *)

Definition maxHeaderLineBytes : Z := 8192.
Definition CRLF : bytes := [13; 10].

(** [strconv.Atoi]. *)
Definition Atoi (s : bytes) : option Z :=
  match s with
  | 45 :: d => match ParseUint10 d 64 with Some v => if v <=? 2 ^ 63 then Some (- v) else None | None => None end
  | 43 :: d | d => ParseUint10 d 63
  end.

(** proxyconnect.go, [readLine]: the line, the new total and what is left. *)
Definition readLine (total : Z) (s : bytes) : option (bytes * Z * bytes) :=
  match Wire.cutAfter 10 s with
  | None => None
  | Some (line, s) =>
    let total := total + len line in
    if (maxHeaderLineBytes <? len line) || (HeaderBytes <? total) ||
       negb (HasPrefix (rev line) (rev CRLF)) then None
    else Some (take (length line - 2) line, total, s)
  end.

(** proxyconnect.go, [readResponseHead], the status line. *)
Definition statusOfLine (line : bytes) : option Z :=
  let '(version, rest, found) := Cut line 32 in
  let '(code, _, _) := Cut rest 32 in
  if negb found || negb (version ==? B "HTTP/1.1") then None
  else match Atoi code with
       | None => None
       | Some status => if (status <? 100) || (999 <? status) then None else Some status
       end.

(** proxyconnect.go, [readResponseHead], the loop over fields. *)
Fixpoint skipFields (fuel : nat) (fields total : Z) (s : bytes) : option bytes :=
  match fuel with
  | O => None
  | S fuel =>
    match readLine total s with
    | None => None
    | Some (line, total, s) =>
      if line ==? [] then Some s
      else if (HeaderFields <=? fields) || negb (ContainsByte line 58) then None
      else skipFields fuel (fields + 1) total s
    end
  end.

(** proxyconnect.go, [readResponseHead]: the status and the bytes after the head. *)
Definition readResponseHead (s : bytes) : option (Z * bytes) :=
  match readLine 0 s with
  | None => None
  | Some (line, total, s) =>
    match statusOfLine line with
    | None => None
    | Some status =>
      match skipFields (S (length s)) 0 total s with Some rest => Some (status, rest) | None => None end
    end
  end.

(** ** Exchanges *)

Record Credentials := mkCredentials { Username : bytes; Password : bytes }.
Inductive FailureKind := FailureConnect | FailureAuthRequired | FailureCredentials.

(** For each of the two exchanges: whether the context is done when it starts, whether
    the dial succeeds, the answers of the writer (a count and whether an error came with
    it), the bytes that come back, and whether the context ends before the exchange is
    over, which closes the connection.  A provider answers [None] when it panics. *)
Record tunnelEnv := mkTunnelEnv {
  ctxDone : nat -> bool;
  dialOK : nat -> bool;
  connWrite : nat -> nat -> bytes -> Z * bool;
  incoming : nat -> bytes;
  interrupted : nat -> bool;
  provider : option (option (Credentials * bool))
}.

Inductive tunnelEvent := Dialed (k : nat) | Wrote (k : nat) (data : bytes) | ConnClosed (k : nat) | AskedCredentials.
(** [Crashed] is a slice out of range. *)
Inductive writeEnd := WriteDone | WriteError | WriteCrashed | WriteStuck.
Inductive exchange := ExchangeFailed | ExchangeCrashed | Answered (status : Z) (rest : bytes).
Inductive tunnelResult := Tunnel (k : nat) (rest : bytes) | Failure (kind : FailureKind) | Crashed.

Section connect.
Context (E : tunnelEnv).

(** proxyconnect.go, [writeAll] on connection [k] from call [i] on. *)
Fixpoint writeLoop (fuel k i : nat) (data : bytes) : list tunnelEvent * writeEnd :=
  match data with
  | [] => ([], WriteDone)
  | _ =>
    match fuel with
    | O => ([], WriteStuck)
    | S fuel =>
      let '(written, err) := connWrite E k i data in
      let wrote := Wrote k (take (Z.to_nat written) data) in
      if err then ([wrote], WriteError)
      else if written =? 0 then ([wrote], WriteError)
      else if (written <? 0) || (len data <? written) then ([wrote], WriteCrashed)
      else let '(log, r) := writeLoop fuel k (S i) (drop (Z.to_nat written) data) in (wrote :: log, r)
    end
  end.
Definition writeAll (k : nat) (data : bytes) : list tunnelEvent * writeEnd := writeLoop (length data) k 0 data.

(** proxyconnect.go, [connectOnce], the request. *)
Definition connectRequest (authority authorization : bytes) : bytes :=
  B "CONNECT " ++ authority ++ B " HTTP/1.1" ++ CRLF ++ B "host: " ++ authority ++ CRLF ++
  (if authorization ==? [] then [] else B "proxy-authorization: Basic " ++ authorization ++ CRLF) ++ CRLF.

(** proxyconnect.go, [connectOnce]. *)
Definition connectOnce (k : nat) (authority authorization : bytes) : list tunnelEvent * exchange :=
  if ctxDone E k then ([], ExchangeFailed)
  else if negb (dialOK E k) then ([], ExchangeFailed)
  else
    let cancelled := if interrupted E k then [ConnClosed k] else [] in
    let '(log, w) := writeAll k (connectRequest authority authorization) in
    match w with
    | WriteDone =>
      match readResponseHead (incoming E k) with
      | None => (Dialed k :: log ++ ConnClosed k :: cancelled, ExchangeFailed)
      | Some (status, rest) =>
        (Dialed k :: log ++ cancelled, if interrupted E k then ExchangeFailed else Answered status rest)
      end
    | WriteError => (Dialed k :: log ++ ConnClosed k :: cancelled, ExchangeFailed)
    | WriteCrashed | WriteStuck => (Dialed k :: log ++ cancelled, ExchangeCrashed)
    end.

(** proxyconnect.go, [callProvider]. *)
Definition callProvider (answer : option (Credentials * bool)) : option Credentials :=
  match answer with Some (c, true) => Some c | _ => None end.

Definition authorizationToken (c : Credentials) : bytes := EncodeToString (Username c ++ B ":" ++ Password c).

(** proxyconnect.go, [Connect], from the answer to the request without credentials. *)
Definition connectAgain (authority : bytes) : list tunnelEvent * tunnelResult :=
  match provider E with
  | None => ([], Failure FailureAuthRequired)
  | Some answer =>
    match callProvider answer with
    | None => ([AskedCredentials], Failure FailureCredentials)
    | Some credentials =>
      let '(log, r) := connectOnce 1 authority (authorizationToken credentials) in
      match r with
      | ExchangeFailed => (AskedCredentials :: log, Failure FailureConnect)
      | ExchangeCrashed => (AskedCredentials :: log, Crashed)
      | Answered status rest =>
        if status =? 200 then (AskedCredentials :: log, Tunnel 1 rest)
        else (AskedCredentials :: log ++ [ConnClosed 1],
              Failure (if status =? 407 then FailureAuthRequired else FailureConnect))
      end
    end
  end.

(** proxyconnect.go, [Connect]. *)
Definition Connect (authority : bytes) : list tunnelEvent * tunnelResult :=
  let '(log, r) := connectOnce 0 authority [] in
  match r with
  | ExchangeFailed => (log, Failure FailureConnect)
  | ExchangeCrashed => (log, Crashed)
  | Answered status rest =>
    if status =? 200 then (log, Tunnel 0 rest)
    else if negb (status =? 407) then (log ++ [ConnClosed 0], Failure FailureConnect)
    else let '(again, r) := connectAgain authority in (log ++ ConnClosed 0 :: again, r)
  end.
End connect.

(** ** base64 *)

Lemma base64_table i : 0 <= i < 64 -> base64Value (base64Char i) = Some i.
Proof.
  intros Hi. assert (forallb (fun n => base64Value (base64Char (Z.of_nat n)) ==? Some (Z.of_nat n)) (seq 0 64) = true) as Ht
    by by vm_compute.
  rewrite forallb_forall in Ht. specialize (Ht (Z.to_nat i)). rewrite in_seq, Z2Nat.id in Ht by lia.
  apply eqb_true_1, Ht. lia.
Qed.

Ltac sextets := rewrite !base64_table by (Z.div_mod_to_equations; lia).

(** What a proxy reads is what was encoded. *)
Lemma DecodeString_EncodeToString s : Forall is_byte s -> DecodeString (EncodeToString s) = Some s.
Proof.
  unfold is_byte. remember (length s) as n eqn:Hn. revert s Hn.
  induction n as [n IH] using (well_founded_induction lt_wf). intros s -> Hs.
  destruct s as [|a [|b [|c s]]]; [done|..]; decompose_Forall_hyps; cbn [EncodeToString DecodeString].
  - sextets. cbn [base64Value base64Pad Z.eqb]. change (base64Value base64Pad) with (@None Z). cbn.
    rewrite Z.mod_mul by lia. cbn. rewrite Z.div_mul by lia. do 2 f_equal. Z.div_mod_to_equations. lia.
  - sextets. change (base64Value base64Pad) with (@None Z). cbn. rewrite Z.mod_mul by lia. cbn.
    do 2 f_equal; [|f_equal]; Z.div_mod_to_equations; lia.
  - sextets. rewrite (IH (length s)) by (cbn; auto with lia). do 2 f_equal; [|f_equal; [|f_equal]]; Z.div_mod_to_equations; lia.
Qed.

Lemma base64Char_safe i : 0 <= i < 64 -> 43 <= base64Char i <= 122.
Proof.
  intros Hi. assert (forallb (fun n => between 43 (base64Char (Z.of_nat n)) 122) (seq 0 64) = true) as Ht by by vm_compute.
  rewrite forallb_forall in Ht. specialize (Ht (Z.to_nat i)). rewrite in_seq, Z2Nat.id in Ht by lia.
  unfold between in Ht. specialize (Ht ltac:(lia)). zlia.
Qed.

(** No character of a token can end a line. *)
Lemma EncodeToString_safe s : Forall is_byte s -> Forall (fun c => 43 <= c <= 122) (EncodeToString s).
Proof.
  unfold is_byte. remember (length s) as n eqn:Hn. revert s Hn.
  induction n as [n IH] using (well_founded_induction lt_wf). intros s -> Hs.
  destruct s as [|a [|b [|c s]]]; [done|..]; decompose_Forall_hyps; cbn [EncodeToString];
    repeat (constructor; [first [apply base64Char_safe; Z.div_mod_to_equations; lia|unfold base64Pad; lia]|]); [done..|].
  apply (IH (length s)); cbn; auto with lia.
Qed.

(** ** Heads of answers *)

Definition frame (lines : list bytes) : bytes := concat (map (fun l => l ++ CRLF) lines).
Definition lineOK (l : bytes) : Prop := (10 ∉ l) /\ len l + 2 <= maxHeaderLineBytes.

Lemma HasPrefix_rev_suffix line : HasPrefix (rev line) (rev CRLF) = true <-> exists l, line = l ++ CRLF.
Proof.
  change (rev CRLF) with [10; 13]. split.
  - intros Hp. rewrite <- (rev_involutive line). destruct (rev line) as [|x [|y r]]; cbn in Hp; [done| |].
    + by rewrite andb_false_r in Hp.
    + exists (rev r). destruct (Z.eqb_spec x 10), (Z.eqb_spec y 13); try done. subst. cbn. by rewrite <- app_assoc.
  - intros [l ->]. rewrite rev_app_distr. cbn. by destruct (rev l).
Qed.

Lemma readLine_spec total s l total' rest :
  readLine total s = Some (l, total', rest) <->
  s = l ++ CRLF ++ rest /\ lineOK l /\ total' = total + len l + 2 /\ total' <= HeaderBytes.
Proof.
  unfold readLine, lineOK. split.
  - destruct (Wire.cutAfter 10 s) as [[line s']|] eqn:Ec; [|done]. intros H.
    apply Wire.cutAfter_Some in Ec as (p & -> & Hp & ->).
    destruct (_ || _) eqn:Eb in H; [done|]. injection H as <- <- <-. destruct_bools.
    match goal with H : HasPrefix _ _ = true |- _ => apply HasPrefix_rev_suffix in H as [l Hl] end.
    change CRLF with ([13] ++ [10]) in Hl. rewrite app_assoc in Hl. apply app_inj_tail in Hl as [-> _].
    replace (take (length ((l ++ [13]) ++ [10]) - 2) ((l ++ [13]) ++ [10])) with l.
    2:{ rewrite !length_app. cbn [length]. rewrite <- app_assoc, take_app_le by lia. by rewrite firstn_all2 by lia. }
    unfold len in *. rewrite !length_app in *. cbn in *. zbool. rewrite elem_of_app in Hp.
    split_and!; [by norm_app|tauto|lia|lia|lia].
  - intros (-> & (Hl & Hlen) & -> & Ht).
    assert (Wire.cutAfter 10 (l ++ CRLF ++ rest) = Some (l ++ CRLF, rest)) as ->.
    { apply Wire.cutAfter_Some. exists (l ++ [13]). split_and!; [by norm_app| |by norm_app].
      rewrite elem_of_app, list_elem_of_singleton. intros [?|?]; [done|lia]. }
    assert (len (l ++ CRLF) = len l + 2) as Hn by (by rewrite len_app). rewrite Hn.
    destruct (Z.ltb_spec maxHeaderLineBytes (len l + 2)); [lia|]. destruct (Z.ltb_spec HeaderBytes (total + (len l + 2))); [lia|].
    rewrite (proj2 (HasPrefix_rev_suffix (l ++ CRLF))) by by exists l. cbn [orb negb]. rewrite length_app. cbn [length CRLF].
    rewrite take_app_le by lia. rewrite firstn_all2 by lia. do 3 f_equal. lia.
Qed.

Lemma ContainsByte_elem s c : ContainsByte s c = true <-> c ∈ s.
Proof.
  unfold ContainsByte. rewrite existsb_exists. split.
  - intros (x & Hx & ->%Z.eqb_eq). by apply list_elem_of_In.
  - intros H%list_elem_of_In. exists c. split; [done|]. apply Z.eqb_refl.
Qed.

(** Header fields as the reader skips them. *)
Definition fieldOK (l : bytes) : Prop := l <> [] /\ 58 ∈ l /\ lineOK l.

Lemma frame_cons l ls : frame (l :: ls) = l ++ CRLF ++ frame ls.
Proof. unfold frame. cbn. by rewrite <- app_assoc. Qed.

Lemma skipFields_spec fuel : forall fields total s rest, (length s < fuel)%nat -> 0 <= fields ->
  skipFields fuel fields total s = Some rest <->
  exists ls, s = frame (ls ++ [[]]) ++ rest /\ Forall fieldOK ls /\ fields + len ls <= Z.max fields HeaderFields /\
    total + len (frame (ls ++ [[]])) <= HeaderBytes.
Proof.
  induction fuel as [|fuel IH]; intros fields total s rest Hf H0; [lia|]. cbn [skipFields]. split.
  - destruct (readLine total s) as [[[line total'] s']|] eqn:Er; [|done].
    apply readLine_spec in Er as (-> & Hl & -> & Ht). destruct (line ==? []) eqn:El.
    { apply eqb_true_1 in El as ->. intros [= ->]. exists []. change (len []) with 0 in *. cbn in Ht |- *.
      split_and!; [done|done|lia|change (len [13; 10]) with 2; lia]. }
    destruct (_ || _) eqn:Eb; [done|]. destruct_bools. zbool. intros Hskip.
    match goal with H : ContainsByte _ _ = true |- _ => apply ContainsByte_elem in H end.
    rewrite !length_app in Hf. cbn in Hf. apply IH in Hskip as (ls & -> & Hls & Hn & Hb); [|lia..].
    exists (line :: ls). cbn [app]. rewrite frame_cons, !len_app. change (len CRLF) with 2. unfold len at 1. cbn [length].
    split_and!; [by rewrite <- !app_assoc|by constructor|unfold len in *; lia|lia].
  - intros (ls & -> & Hls & Hn & Hb). destruct ls as [|l ls].
    + cbn in Hb. assert (readLine total (frame ([] ++ [[]]) ++ rest) = Some ([], total + 2, rest)) as ->.
      { apply readLine_spec. split_and!; [done| |by change (len []) with 0; lia|change (len [13;10]) with 2 in Hb; lia].
        split; [apply not_elem_of_nil|]. by unfold maxHeaderLineBytes. }
      by rewrite eqb_refl.
    + inversion Hls as [|? ? (Hne & Hc & Hl) Hls']; subst. cbn [app] in *. rewrite frame_cons, !len_app in Hb. change (len CRLF) with 2 in Hb.
      assert (readLine total (frame (l :: ls ++ [[]]) ++ rest) = Some (l, total + len l + 2, frame (ls ++ [[]]) ++ rest)) as ->.
      { apply readLine_spec. rewrite frame_cons. split_and!; [by rewrite <- !app_assoc|done|lia|].
        pose proof (len_nonneg (frame (ls ++ [[]]))). lia. }
      apply eqb_false in Hne. rewrite Hne. unfold len in Hn. cbn [length] in Hn.
      destruct (Z.leb_spec HeaderFields fields); [lia|]. rewrite (proj2 (ContainsByte_elem l 58) Hc). cbn [orb negb].
      apply IH; [|lia|exists ls; split_and!; [done|done|unfold len; lia|lia]].
      rewrite frame_cons in Hf. rewrite !length_app in Hf. rewrite length_app. change (length CRLF) with 2%nat in Hf.
      lia.
Qed.

(** The answer of a proxy is accepted exactly when it starts with a well-formed
    status line, at most 100 lines with a colon and an empty line, each line within
    8192 bytes and all together within 64 KiB, and what follows stays in the reader. *)
Theorem readResponseHead_exact s status rest :
  readResponseHead s = Some (status, rest) <->
  exists line fields, s = frame (line :: fields ++ [[]]) ++ rest /\
    lineOK line /\ statusOfLine line = Some status /\ Forall fieldOK fields /\ len fields <= HeaderFields /\
    len (frame (line :: fields ++ [[]])) <= HeaderBytes.
Proof.
  unfold readResponseHead. split.
  - destruct (readLine 0 s) as [[[line total] s']|] eqn:Er; [|done]. apply readLine_spec in Er as (-> & Hl & -> & Ht).
    destruct (statusOfLine line) as [st|] eqn:Es; [|done]. destruct (skipFields _ _ _ _) as [r|] eqn:Ef; [|done].
    intros [= -> ->]. apply skipFields_spec in Ef as (ls & -> & Hls & Hn & Hb); [|lia..].
    exists line, ls. rewrite frame_cons, !len_app. change (len CRLF) with 2.
    split_and!; [by rewrite <- !app_assoc|done..|unfold HeaderFields in *; lia|lia].
  - intros (line & ls & -> & Hl & Hs & Hls & Hn & Hb). rewrite frame_cons, !len_app in Hb. change (len CRLF) with 2 in Hb.
    assert (readLine 0 (frame (line :: ls ++ [[]]) ++ rest) = Some (line, 0 + len line + 2, frame (ls ++ [[]]) ++ rest)) as ->.
    { apply readLine_spec. rewrite frame_cons. split_and!; [by rewrite <- !app_assoc|done|done|].
      pose proof (len_nonneg (frame (ls ++ [[]]))). lia. }
    rewrite Hs. assert (skipFields (S (length (frame (ls ++ [[]]) ++ rest))) 0 (0 + len line + 2) (frame (ls ++ [[]]) ++ rest) = Some rest) as ->;
      [|done].
    apply skipFields_spec; [lia..|]. exists ls. split_and!; [done..| |lia]. unfold HeaderFields in *. lia.
Qed.

(** ** The exchanges *)

(** The bytes written on connection [k]. *)
Definition written (k : nat) (log : list tunnelEvent) : bytes :=
  concat (omap (fun ev => match ev with Wrote j d => if (j =? k)%nat then Some d else None | _ => None end) log).
(** The connection an event is about. *)
Definition eventConn (ev : tunnelEvent) : option nat :=
  match ev with Dialed k | Wrote k _ | ConnClosed k => Some k | AskedCredentials => None end.

Lemma written_app k l1 l2 : written k (l1 ++ l2) = written k l1 ++ written k l2.
Proof. unfold written. by rewrite omap_app, concat_app. Qed.
Lemma written_other k log : Forall (fun ev => eventConn ev <> Some k) log -> written k log = [].
Proof.
  unfold written. induction 1 as [|ev log Hev _ IH]; [done|]. destruct ev as [j|j d|j|]; cbn in *; auto.
  destruct (Nat.eqb_spec j k); [by subst|done].
Qed.

Section spec.
Context (E : tunnelEnv) (authority : bytes).
(** The contract of [io.Writer]: a count between zero and the length of the data. *)
Context (counts : forall k i data, 0 <= (connWrite E k i data).1 <= len data).

Lemma tunnelWrite_spec fuel : forall k i data, (length data <= fuel)%nat ->
  let '(log, r) := writeLoop E fuel k i data in
  Forall (fun ev => exists d, ev = Wrote k d) log /\
  (r = WriteDone /\ written k log = data \/ r = WriteError /\ written k log `prefix_of` data).
Proof.
  assert (forall k d, written k [Wrote k d] = d) as Hone.
  { intros k d. unfold written. cbn. rewrite Nat.eqb_refl. apply app_nil_r. }
  induction fuel as [|fuel IH]; intros k i [|c data] Hf; cbn [writeLoop]; try (by (split; [constructor|left])); [cbn in Hf; lia|].
  pose proof (counts k i (c :: data)) as Hc. destruct (connWrite E k i (c :: data)) as [n err]. cbn [fst] in Hc.
  assert (take (Z.to_nat n) (c :: data) `prefix_of` c :: data) as Hp by (exists (drop (Z.to_nat n) (c :: data)); by rewrite take_drop).
  destruct err. { split; [by constructor; [eexists|]|]. right. by rewrite Hone. }
  destruct (Z.eqb_spec n 0). { split; [by constructor; [eexists|]|]. right. by rewrite Hone. }
  destruct (Z.ltb_spec n 0); [lia|]. destruct (Z.ltb_spec (len (c :: data)) n); [lia|]. cbn [orb].
  specialize (IH k (S i) (drop (Z.to_nat n) (c :: data))). destruct (writeLoop _ _ _ _ _) as [log r].
  destruct IH as [Hl Hr]. { rewrite length_drop. cbn in *. lia. }
  split; [by constructor; [eexists|]|].
  change (Wrote k ?d :: log) with ([Wrote k d] ++ log). rewrite written_app, Hone.
  destruct Hr as [[-> ->]|[-> [z Hz]]]; [left; by rewrite take_drop|right; split; [done|]].
  exists z. by rewrite <- app_assoc, <- Hz, take_drop.
Qed.

Record exchanged (k : nat) (request : bytes) (log : list tunnelEvent) (r : exchange) : Prop := {
  ex_own : Forall (fun ev => eventConn ev = Some k) log;
  ex_sent : written k log `prefix_of` request;
  ex_result : match r with
    | ExchangeCrashed => False
    | ExchangeFailed => Dialed k ∈ log -> ConnClosed k ∈ log
    | Answered status rest => Dialed k ∈ log /\ (ConnClosed k ∉ log) /\ written k log = request /\
        readResponseHead (incoming E k) = Some (status, rest)
    end
}.

Lemma connectOnce_spec k token :
  let '(log, r) := connectOnce E k authority token in exchanged k (connectRequest authority token) log r.
Proof.
  unfold connectOnce, writeAll. set (request := connectRequest authority token).
  assert (exchanged k request [] ExchangeFailed) as Hnone.
  { split; [done|apply prefix_nil|]. by intros ?%elem_of_nil. }
  destruct (ctxDone E k); [exact Hnone|]. destruct (dialOK E k); [cbn [negb]|exact Hnone].
  pose proof (tunnelWrite_spec (length request) k 0 request (le_n _)) as Hw.
  destruct (writeLoop E _ k 0 request) as [log w]. destruct Hw as [Hlog Hw].
  set (cancelled := if interrupted E k then [ConnClosed k] else []).
  assert (Forall (fun ev => eventConn ev = Some k) log) as Hown.
  { eapply Forall_impl; [exact Hlog|]. by intros ? [d ->]. }
  assert (forall l, (l = cancelled \/ l = ConnClosed k :: cancelled) ->
    Forall (fun ev => eventConn ev = Some k) (Dialed k :: log ++ l) /\ written k (Dialed k :: log ++ l) = written k log) as Hl.
  { intros l Hl. split.
    - constructor; [done|]. apply Forall_app. split; [done|]. unfold cancelled in Hl. destruct (interrupted E k), Hl as [-> | ->]; by repeat constructor.
    - change (Dialed k :: log ++ l) with ([Dialed k] ++ log ++ l). rewrite !written_app.
      assert (written k l = []) as -> by (unfold cancelled in Hl; destruct (interrupted E k), Hl as [-> | ->]; done).
      by rewrite app_nil_r. }
  assert (written k log `prefix_of` request) as Hpre by (destruct Hw as [[_ ->]|[_ ?]]; done).
  assert (exchanged k request (Dialed k :: log ++ ConnClosed k :: cancelled) ExchangeFailed) as Hclosed.
  { destruct (Hl (ConnClosed k :: cancelled) ltac:(by right)) as [H1 H2]. split; [done|by rewrite H2|].
    intros _. right. apply elem_of_app. right. left. }
  destruct Hw as [[-> Hwr]|[-> _]]; [|exact Hclosed].
  destruct (readResponseHead (incoming E k)) as [[status rest]|] eqn:Er; [|exact Hclosed].
  destruct (Hl cancelled ltac:(by left)) as [H1 H2]. split; [done|by rewrite H2|].
  unfold cancelled in *. destruct (interrupted E k).
  - intros _. right. apply elem_of_app. right. left.
  - split_and!; [left| |by rewrite H2|done]. rewrite app_nil_r. intros [?|Hin]%elem_of_cons; [done|].
    destruct (Forall_elem _ _ _ Hlog Hin) as [d ?]. done.
Qed.

(** Credentials that fit a request: the token is read back as them and cannot end a line. *)
Definition carries (c : Credentials) (request : bytes) : Prop :=
  exists token, request = connectRequest authority token /\
    DecodeString token = Some (Username c ++ B ":" ++ Password c) /\ Forall (fun x => 43 <= x <= 122) token.

(** The order of events: credentials are asked for once at most, after the first
    connection was closed, and the second dial follows them. *)
Definition challengeOrder (log : list tunnelEvent) : Prop :=
  forall l1 l2, log = l1 ++ AskedCredentials :: l2 ->
    Dialed 0 ∈ l1 /\ ConnClosed 0 ∈ l1 /\ Forall (fun ev => eventConn ev = Some 0%nat) l1 /\ Forall (fun ev => eventConn ev = Some 1%nat) l2.

Definition closedUnlessKept (k : nat) (log : list tunnelEvent) (r : tunnelResult) : Prop :=
  match r with
  | Crashed => False
  | Failure _ => Dialed k ∈ log -> ConnClosed k ∈ log
  | Tunnel j rest => j = k /\ Dialed k ∈ log /\ (ConnClosed k ∉ log) /\ readResponseHead (incoming E k) = Some (200, rest)
  end.

Context (text : forall c, provider E = Some (Some (c, true)) -> Forall is_byte (Username c) /\ Forall is_byte (Password c)).

Lemma token_carries c : provider E = Some (Some (c, true)) -> carries c (connectRequest authority (authorizationToken c)).
Proof.
  intros [Hu Hp]%text. assert (Forall is_byte (Username c ++ B ":" ++ Password c)) as Hb.
  { apply Forall_app. split; [done|]. apply Forall_app. split; [|done]. by repeat constructor. }
  exists (authorizationToken c). split_and!; [done|by apply DecodeString_EncodeToString|by apply EncodeToString_safe].
Qed.

Lemma connectAgain_spec :
  let '(log, r) := connectAgain E authority in
  (log = [] /\ exists kind, r = Failure kind) \/
  exists log', log = AskedCredentials :: log' /\ Forall (fun ev => eventConn ev = Some 1%nat) log' /\
    closedUnlessKept 1 log' r /\
    (log' = [] \/ exists c request, provider E = Some (Some (c, true)) /\ carries c request /\ written 1 log' `prefix_of` request).
Proof.
  pose proof token_carries as Hc. unfold connectAgain.
  destruct (provider E) as [answer|] eqn:Ep; [|by left; eauto].
  destruct answer as [[c []]|]; cbn [callProvider].
  2-3: right; exists []; split_and!; [done|done|by intros ?%elem_of_nil|by left].
  pose proof (connectOnce_spec 1 (authorizationToken c)) as Hx. specialize (Hc c eq_refl).
  destruct (connectOnce E 1 authority _) as [log x]. destruct Hx as [Hown Hsent Hres].
  destruct x as [| |status rest]; [|done|].
  - right. exists log. split_and!; try done. right. by eexists _, _.
  - destruct Hres as (Hd & Hcl & Hw & Hr). destruct (Z.eqb_spec status 200) as [->|].
    + right. exists log. split_and!; try done. right. by eexists _, _.
    + right. exists (log ++ [ConnClosed 1]). split_and!; [done| | |].
      * apply Forall_app. split; [done|by repeat constructor].
      * intros _. apply elem_of_app. right. by left.
      * right. eexists _, _. split_and!; [done..|]. rewrite written_app. cbn. by rewrite app_nil_r.
Qed.

Lemma foreign k j log : Forall (fun ev => eventConn ev = Some j) log -> j <> k ->
  (Dialed k ∉ log) /\ (ConnClosed k ∉ log) /\ written k log = [].
Proof.
  intros Hl Hne. split_and!.
  1-2: intros Hin; by pose proof (Forall_elem _ _ _ Hl Hin) as [= ?].
  apply written_other. eapply Forall_impl; [exact Hl|]. intros ev Hev. rewrite Hev. by intros [= ?].
Qed.
Lemma unasked k log : Forall (fun ev => eventConn ev = Some k) log -> AskedCredentials ∉ log.
Proof. intros Hl Hin. by pose proof (Forall_elem _ _ _ Hl Hin). Qed.

(** What a caller of [Connect] may rely on. *)
Record tunnelProtocol (log : list tunnelEvent) (r : tunnelResult) : Prop := {
  tp_returns : r <> Crashed;
  tp_closed : forall k, Dialed k ∈ log -> (k < 2)%nat /\ (ConnClosed k ∈ log <-> forall rest, r <> Tunnel k rest);
  tp_tunnel : forall k rest, r = Tunnel k rest -> Dialed k ∈ log /\ readResponseHead (incoming E k) = Some (200, rest);
  tp_anonymous : written 0 log `prefix_of` connectRequest authority [];
  tp_challenge : AskedCredentials ∈ log -> exists rest, readResponseHead (incoming E 0) = Some (407, rest);
  tp_order : challengeOrder log;
  tp_second : Dialed 1 ∈ log -> AskedCredentials ∈ log /\
    exists c request, provider E = Some (Some (c, true)) /\ carries c request /\ written 1 log `prefix_of` request
}.

(** The protocol when only the first connection was used. *)
Lemma protocol_single log r : Forall (fun ev => eventConn ev = Some 0%nat) log ->
  closedUnlessKept 0 log r -> written 0 log `prefix_of` connectRequest authority [] -> tunnelProtocol log r.
Proof.
  intros Hown Hk Hw. pose proof (unasked 0 _ Hown) as Hasked. split; try done.
  - by destruct r.
  - intros k Hd. pose proof (Forall_elem _ _ _ Hown Hd) as [= ->]. split; [lia|].
    destruct r as [j rest|kind|]; cbn in Hk; [|by split; auto|done]. destruct Hk as (-> & _ & Hc & _).
    split; [done|]. intros Hr. by destruct (Hr rest).
  - intros k rest ->. by destruct Hk as (-> & ? & _ & ?).
  - intros l1 l2 ->. destruct Hasked. apply elem_of_app. right. left.
  - intros Hd. by pose proof (Forall_elem _ _ _ Hown Hd).
Qed.

(** The protocol of the challenge: the first connection is closed, then [again]. *)
Lemma protocol_challenged log rest again r : Forall (fun ev => eventConn ev = Some 0%nat) log -> Dialed 0 ∈ log ->
  written 0 log = connectRequest authority [] -> readResponseHead (incoming E 0) = Some (407, rest) ->
  connectAgain E authority = (again, r) -> tunnelProtocol (log ++ ConnClosed 0 :: again) r.
Proof.
  intros Hown Hd Hw Hr Ha. pose proof connectAgain_spec as Hag. rewrite Ha in Hag.
  assert (Forall (fun ev => eventConn ev = Some 0%nat) (log ++ [ConnClosed 0])) as Hown1 by (apply Forall_app; split; [done|by repeat constructor]).
  replace (log ++ ConnClosed 0 :: again) with ((log ++ [ConnClosed 0]) ++ again) by by norm_app.
  assert (Dialed 0 ∈ log ++ [ConnClosed 0] /\ ConnClosed 0 ∈ log ++ [ConnClosed 0]) as [Hd1 Hc1].
  { rewrite !elem_of_app. split; [by left|right; by left]. }
  assert (written 0 (log ++ [ConnClosed 0]) = connectRequest authority []) as Hw1 by (rewrite written_app; cbn; by rewrite app_nil_r).
  set (l0 := log ++ [ConnClosed 0]) in *. clearbody l0.
  destruct Hag as [[-> [kind ->]]|(l' & -> & Hl' & Hk & Hc)].
  { rewrite app_nil_r. apply protocol_single; [done|by intros _|by rewrite Hw1]. }
  destruct (foreign 0 1 l' Hl' ltac:(done)) as (F1 & F2 & F3). destruct (foreign 1 0 l0 Hown1 ltac:(done)) as (G1 & G2 & G3).
  pose proof (unasked 0 _ Hown1) as U0. pose proof (unasked 1 _ Hl') as U1.
  split.
  - by destruct r.
  - intros k. rewrite !elem_of_app, !elem_of_cons. intros [Hin|[?|Hin]]; [|done|].
    + pose proof (Forall_elem _ _ _ Hown1 Hin) as [= ->]. split; [lia|]. split; [|by left].
      intros _ rst ->. by destruct Hk.
    + pose proof (Forall_elem _ _ _ Hl' Hin) as [= ->]. split; [lia|].
      destruct r as [j rst|kind|]; cbn in Hk; [|split; [by intros _ rst|right; right; auto]|done].
      destruct Hk as (-> & _ & Hnc & _). split; [intros [?|[?|?]]; done|]. intros Hx. by destruct (Hx rst).
  - intros k rst ->. destruct Hk as (-> & Hk & _ & Hh). split; [|done]. rewrite elem_of_app, elem_of_cons. auto.
  - change (AskedCredentials :: l') with ([AskedCredentials] ++ l'). rewrite !written_app, F3, Hw1. cbn. by rewrite app_nil_r.
  - intros _. by exists rest.
  - intros l1 l2 Heq. apply app_eq_inv in Heq as [(k & -> & Hk2)|(k & -> & Hk2)].
    + destruct k as [|x k]; simplify_eq/=; [rewrite app_nil_r in *; by split_and!|].
      destruct U0. apply elem_of_app. right. left.
    + destruct k as [|x k]; simplify_eq/=; [rewrite app_nil_r in *; by split_and!|].
      destruct U1. apply elem_of_app. right. left.
  - rewrite !elem_of_app, !elem_of_cons. intros Hin. split; [auto|]. destruct Hin as [?|[?|Hin]]; [done..|].
    destruct Hc as [-> | (c & request & Hp & Hcar & Hpre)]; [by apply elem_of_nil in Hin|]. exists c, request. split_and!; try done.
    change (AskedCredentials :: l') with ([AskedCredentials] ++ l'). rewrite !written_app, G3. done.
Qed.

(** C27. Connect returns with a tunnel or a failure whatever the proxy sends; it
    dials at most twice, and every connection that it dialled is closed unless it is
    the tunnel that is returned; a tunnel is a connection on which the head of a 200
    response was read; credentials are asked for only after a 407 to a request
    without them, when the first connection is closed, and what is written on the
    second connection is a prefix of a request with the base64 token of exactly
    these credentials. *)
Theorem proxy_tunnel_protocol : let '(log, r) := Connect E authority in tunnelProtocol log r.
Proof.
  unfold Connect. pose proof (connectOnce_spec 0 []) as Hx. destruct (connectOnce E 0 authority []) as [log x].
  destruct Hx as [Hown Hsent Hres]. destruct x as [| |status rest]; [by apply protocol_single|done|].
  destruct Hres as (Hd & Hcl & Hw & Hr). destruct (Z.eqb_spec status 200) as [->|]; [by apply protocol_single|].
  destruct (Z.eqb_spec status 407) as [->|]; cbn [negb].
  - destruct (connectAgain E authority) as [again r] eqn:Ea. by eapply protocol_challenged.
  - apply protocol_single; [apply Forall_app; split; [done|by repeat constructor]| |].
    + intros _. apply elem_of_app. right. by left.
    + rewrite written_app. cbn. by rewrite app_nil_r.
Qed.
End spec.

(** ** Witnesses *)
Module Demo.
Definition answer (status : String.string) : bytes := frame [B "HTTP/1.1 " ++ B status; B "proxy: p"; []].
Definition E : tunnelEnv := mkTunnelEnv (fun _ => false) (fun _ => true)
  (fun _ _ data => (Z.min 10 (len data), false))
  (fun k => match k with O => answer "407 Proxy Authentication Required" | _ => answer "200 OK" ++ B "TLS" end)
  (fun _ => false) (Some (Some (mkCredentials (B "user") (B "secret"), true))).

Lemma proxy_tunnel_protocol_witness :
  (Connect E (B "api.example:443")).2 = Tunnel 1 (B "TLS") /\
  tunnelProtocol E (B "api.example:443") (Connect E (B "api.example:443")).1 (Connect E (B "api.example:443")).2.
Proof.
  split; [vm_compute; reflexivity|].
  assert (forall k i data, 0 <= (connWrite E k i data).1 <= len data) as Hc.
  { intros k i data. cbn. pose proof (len_nonneg data). lia. }
  assert (forall c, provider E = Some (Some (c, true)) -> Forall is_byte (Username c) /\ Forall is_byte (Password c)) as Ht.
  { intros c [= <-]. split; by repeat constructor. }
  pose proof (proxy_tunnel_protocol E (B "api.example:443") Hc Ht) as H.
  destruct (Connect E (B "api.example:443")) as [log r]. exact H.
Defined.
End Demo.
