(* ===== verification/GoURL.v ===== *)
(** * net/url and net/netip

    What config.go, transport_options.go and transport_raw.go use of the standard
    library: [url.Parse], [URL.String], [URL.EscapedPath], [URL.Hostname], [URL.Port],
    [url.PathUnescape], [net.JoinHostPort], [netip.ParseAddr] and [Addr.String], as in
    Go 1.25, the version that go.mod names. *)
From S2P Require Import Prelude GoText.

(** ** strings *)

(** [strings.Split(s, sep)] for a one-byte separator. *)
Fixpoint Split (s : bytes) (sep : Z) : list bytes :=
  match s with
  | [] => [[]]
  | c :: s =>
    if c =? sep then [] :: Split s sep
    else match Split s sep with [] => [[c]] | l :: ls => (c :: l) :: ls end
  end.
(** [strings.Count(s, sep)] for a one-byte separator. *)
Definition Count (s : bytes) (sep : Z) : Z := len (List.filter (Z.eqb sep) s).
(** What is before and after the last [sep], [strings.LastIndex]. *)
Fixpoint LastCut (s : bytes) (sep : Z) : option (bytes * bytes) :=
  match s with
  | [] => None
  | c :: s' =>
    match LastCut s' sep with
    | Some (a, b) => Some (c :: a, b)
    | None => if c =? sep then Some ([], s') else None
    end
  end.
Definition HasSuffix (s suffix : bytes) : bool := HasPrefix (rev s) (rev suffix).
(** What is before and from the first occurrence of a text on, [strings.Index]. *)
Fixpoint IndexCut (s sub : bytes) : option (bytes * bytes) :=
  if HasPrefix s sub then Some ([], s)
  else match s with
       | [] => None
       | c :: s' => match IndexCut s' sub with Some (a, b) => Some (c :: a, b) | None => None end
       end.

(** ** Percent-encoding *)

Inductive encoding := encodePath | encodePathSegment | encodeHost | encodeZone | encodeUserPassword | encodeFragment.
#[export] Instance encoding_eq_dec : EqDecision encoding.
Proof. solve_decision. Defined.

Definition isAlnum (c : Z) : bool := between 97 c 122 || between 65 c 90 || between 48 c 57.

(** [url.shouldEscape]. *)
Definition shouldEscape (c : Z) (mode : encoding) : bool :=
  if isAlnum c then false
  else if ((mode ==? encodeHost) || (mode ==? encodeZone)) && ContainsByte ([34] ++ B "!$&'()*+,;=:[]<>") c then false
  else if ContainsByte (B "-_.~") c then false
  else if ContainsByte (B "$&+,/:;=?@") c &&
          match mode with encodeHost | encodeZone => false | _ => true end then
    match mode with
    | encodePath => c =? 63
    | encodePathSegment => ContainsByte (B "/;,?") c
    | encodeUserPassword => ContainsByte (B "@/?:") c
    | _ => false
    end
  else negb ((mode ==? encodeFragment) && ContainsByte (B "!()*") c).

Definition hexUpper (d : Z) : Z := if d <? 10 then 48 + d else 55 + d.

(** [url.escape]. *)
Definition escape (s : bytes) (mode : encoding) : bytes :=
  concat (map (fun c => if shouldEscape c mode then [37; hexUpper (c / 16); hexUpper (c mod 16)] else [c]) s).

(** [url.unescape]; [None] is an error. *)
Fixpoint unescape (s : bytes) (mode : encoding) : option bytes :=
  match s with
  | [] => Some []
  | c :: s' =>
    if c =? 37 then
      match s' with
      | h1 :: h2 :: s'' =>
        match hexDigit h1, hexDigit h2 with
        | Some d1, Some d2 =>
          let v := d1 * 16 + d2 in
          if (mode ==? encodeHost) && (d1 <? 8) && negb (v =? 37) then None
          else if (mode ==? encodeZone) && negb (v =? 37) && negb (v =? 32) && shouldEscape v encodeHost then None
          else match unescape s'' mode with Some r => Some (v :: r) | None => None end
        | _, _ => None
        end
      | _ => None
      end
    else if ((mode ==? encodeHost) || (mode ==? encodeZone)) && (c <? 128) && shouldEscape c mode then None
    else match unescape s' mode with Some r => Some (c :: r) | None => None end
  end.

(** [url.PathUnescape]. *)
Definition PathUnescape (s : bytes) : option bytes := unescape s encodePathSegment.

(** [url.validEncoded] for paths. *)
Definition validEncoded (s : bytes) : bool :=
  forallb (fun c => ContainsByte (B "!$&'()*+,;=:@[]%") c || negb (shouldEscape c encodePath)) s.

(** ** URLs *)

(** [url.URL]; of the user only whether there is one. *)
Record URL := mkURL {
  Scheme : bytes;
  Opaque : bytes;
  User : bool;
  Host : bytes;
  Path : bytes;
  RawPath : bytes;
  ForceQuery : bool;
  RawQuery : bytes;
  Fragment : bytes
}.

Definition isLetter (c : Z) : bool := between 97 c 122 || between 65 c 90.

(** [url.getScheme]: the scheme and the rest. *)
Fixpoint getScheme_from (first : bool) (s : bytes) : result unit (option (bytes * bytes)) :=
  match s with
  | [] => Ok None
  | c :: s =>
    let more := match getScheme_from false s with
                | Ok (Some (a, b)) => Ok (Some (c :: a, b))
                | r => r
                end in
    if isLetter c then more
    else if isDigit c || ContainsByte (B "+-.") c then (if first then Ok None else more)
    else if c =? 58 then (if first then Err tt else Ok (Some ([], s)))
    else Ok None
  end.
Definition getScheme (s : bytes) : result unit (bytes * bytes) :=
  match getScheme_from true s with
  | Err e => Err e
  | Ok None => Ok ([], s)
  | Ok (Some r) => Ok r
  end.

(** [url.validOptionalPort]. *)
Definition validOptionalPort (port : bytes) : bool :=
  match port with [] => true | c :: digits => (c =? 58) && forallb isDigit digits end.

(** [url.parseHost]. *)
Definition parseHost (host : bytes) : option bytes :=
  if HasPrefix host (B "[") then
    match LastCut host 93 with
    | None => None
    | Some (inside, colonPort) =>
      if negb (validOptionalPort colonPort) then None
      else match IndexCut inside (B "%25") with
           | Some (h1, h2) =>
             match unescape h1 encodeHost, unescape h2 encodeZone, unescape (93 :: colonPort) encodeHost with
             | Some a, Some b, Some c => Some (a ++ b ++ c)
             | _, _, _ => None
             end
           | None => unescape host encodeHost
           end
    end
  else match LastCut host 58 with
       | Some (_, digits) => if forallb isDigit digits then unescape host encodeHost else None
       | None => unescape host encodeHost
       end.

(** [url.validUserinfo]. *)
Definition validUserinfo (s : bytes) : bool := forallb (fun c => isAlnum c || ContainsByte (B "-._:~!$&'()*+,;=%@") c) s.

(** [url.parseAuthority]: whether there is a user, and the host. *)
Definition parseAuthority (authority : bytes) : option (bool * bytes) :=
  match LastCut authority 64 with
  | None => match parseHost authority with Some h => Some (false, h) | None => None end
  | Some (userinfo, host) =>
    match parseHost host with
    | None => None
    | Some h =>
      if negb (validUserinfo userinfo) then None
      else
        let '(name, password, _) := Cut userinfo 58 in
        match unescape name encodeUserPassword, unescape password encodeUserPassword with
        | Some _, Some _ => Some (true, h)
        | _, _ => None
        end
    end
  end.

(** [URL.setPath]: the path and the raw path. *)
Definition setPath (p : bytes) : option (bytes * bytes) :=
  match unescape p encodePath with
  | None => None
  | Some path => Some (path, if p ==? escape path encodePath then [] else p)
  end.

(** [url.parse] with viaRequest false, without the fragment. *)
Definition parse (rawURL : bytes) : option URL :=
  if existsb (fun c => (c <? 32) || (c =? 127)) rawURL then None
  else if rawURL ==? B "*" then Some (mkURL [] [] false [] (B "*") [] false [] [])
  else match getScheme rawURL with
  | Err _ => None
  | Ok (scheme, rest) =>
    let scheme := ToLower scheme in
    let force := HasSuffix rest (B "?") && (Count rest 63 =? 1) in
    let '(rest, query) :=
      if force then (take (length rest - 1) rest, []) else let '(a, b, _) := Cut rest 63 in (a, b) in
    let opaque := negb (HasPrefix rest (B "/")) in
    if opaque && negb (scheme ==? []) then Some (mkURL scheme rest false [] [] [] force query [])
    else if opaque && ContainsByte (Cut rest 47).1.1 58 then None
    else
      let hasAuthority := (negb (scheme ==? []) || negb (HasPrefix rest (B "///"))) && HasPrefix rest (B "//") in
      let authority := (Cut (drop 2 rest) 47).1.1 in
      let path := if hasAuthority then drop (2 + length authority) rest else rest in
      match (if hasAuthority then parseAuthority authority else Some (false, [])) with
      | None => None
      | Some (user, host) =>
        match setPath path with
        | None => None
        | Some (p, raw) => Some (mkURL scheme [] user host p raw force query [])
        end
      end
  end.

(** [url.Parse]. *)
Definition Parse (rawURL : bytes) : option URL :=
  let '(u, frag, _) := Cut rawURL 35 in
  match parse u with
  | None => None
  | Some url =>
    if frag ==? [] then Some url
    else match unescape frag encodeFragment with
         | None => None
         | Some f => Some (mkURL (Scheme url) (Opaque url) (User url) (Host url) (Path url) (RawPath url) (ForceQuery url) (RawQuery url) f)
         end
  end.

(** [URL.EscapedPath]. *)
Definition EscapedPath (u : URL) : bytes :=
  if negb (RawPath u ==? []) && validEncoded (RawPath u) && (unescape (RawPath u) encodePath ==? Some (Path u))
  then RawPath u
  else if Path u ==? B "*" then B "*" else escape (Path u) encodePath.

(** [URL.String], for a URL with a scheme and a host and without opaque part and user. *)
Definition URL_String (u : URL) : bytes :=
  let path := EscapedPath u in
  Scheme u ++ B "://" ++ escape (Host u) encodeHost ++
  (match path with c :: _ => if (c =? 47) then [] else B "/" | [] => [] end) ++ path ++
  (if ForceQuery u || negb (RawQuery u ==? []) then B "?" ++ RawQuery u else []) ++
  (if Fragment u ==? [] then [] else B "#" ++ escape (Fragment u) encodeFragment).

(** [url.splitHostPort], [URL.Hostname] and [URL.Port]. *)
Definition splitHostPort (hostPort : bytes) : bytes * bytes :=
  let '(host, port) := match LastCut hostPort 58 with
                       | Some (h, p) => if forallb isDigit p then (h, p) else (hostPort, [])
                       | None => (hostPort, [])
                       end in
  (if HasPrefix host (B "[") && HasSuffix host (B "]") then take (length host - 2) (drop 1 host) else host, port).
Definition Hostname (u : URL) : bytes := (splitHostPort (Host u)).1.
Definition Port (u : URL) : bytes := (splitHostPort (Host u)).2.

(** [net.JoinHostPort]. *)
Definition JoinHostPort (host port : bytes) : bytes :=
  if ContainsByte host 58 then B "[" ++ host ++ B "]:" ++ port else host ++ B ":" ++ port.

(** ** Addresses *)

(** [netip.Addr]: four octets, or eight groups of sixteen bits and a zone. *)
Inductive Addr := Addr4 (octets : list Z) | Addr6 (groups : list Z) (zone : bytes).

(** One octet of [netip.parseIPv4Fields]: no leading zero, at most 255. *)
Definition parseOctet (s : bytes) : option Z :=
  match s with
  | [] => None
  | c :: r =>
    if negb (forallb isDigit s) || ((c =? 48) && negb (r ==? [])) || (255 <? digits_value s) then None
    else Some (digits_value s)
  end.
(** [netip.parseIPv4Fields]. *)
Definition parseIPv4 (s : bytes) : option (list Z) :=
  match Split s 46 with
  | [a; b; c; d] =>
    match parseOctet a, parseOctet b, parseOctet c, parseOctet d with
    | Some a, Some b, Some c, Some d => Some [a; b; c; d]
    | _, _, _, _ => None
    end
  | _ => None
  end.

(** The hexadecimal digits that a text starts with: how many, their value, the rest. *)
Fixpoint hexRun (off : nat) (acc : Z) (s : bytes) : nat * Z * bytes :=
  match s with
  | c :: s' => match hexDigit c with Some d => hexRun (S off) (acc * 16 + d) s' | None => (off, acc, s) end
  | [] => (off, acc, [])
  end.

(** [netip.parseIPv6], the loop: the groups so far and where the ellipsis is. *)
Fixpoint parseGroups (fuel : nat) (groups : list Z) (ellipsis : option nat) (s : bytes)
    : option (list Z * option nat) :=
  match fuel with
  | O => if s ==? [] then Some (groups, ellipsis) else None
  | S fuel =>
    let '(off, acc, rest) := hexRun 0 0 s in
    if (4 <? off)%nat || (off =? 0)%nat then None
    else match rest with
    | 46 :: _ =>
      if (match ellipsis with None => negb (length groups =? 6)%nat | Some _ => false end) || (6 <? length groups)%nat then None
      else match parseIPv4 s with
           | Some [a; b; c; d] => Some (groups ++ [a * 256 + b; c * 256 + d], ellipsis)
           | _ => None
           end
    | [] => Some (groups ++ [acc], ellipsis)
    | 58 :: [] => None
    | 58 :: 58 :: s' =>
      match ellipsis with
      | Some _ => None
      | None =>
        let e := Some (S (length groups)) in
        if s' ==? [] then Some (groups ++ [acc], e) else parseGroups fuel (groups ++ [acc]) e s'
      end
    | 58 :: s' => parseGroups fuel (groups ++ [acc]) ellipsis s'
    | _ => None
    end
  end.

(** [netip.parseIPv6]. *)
Definition parseIPv6 (input : bytes) : option Addr :=
  let '(s, zone, found) := Cut input 37 in
  if found && (zone ==? []) then None
  else
    let leading := HasPrefix s (B "::") in
    let s := if leading then drop 2 s else s in
    if leading && (s ==? []) then Some (Addr6 (replicate 8 0) zone)
    else match parseGroups 8 [] (if leading then Some O else None) s with
    | None => None
    | Some (groups, ellipsis) =>
      let n := length groups in
      if (n <? 8)%nat then
        match ellipsis with
        | None => None
        | Some e => Some (Addr6 (take e groups ++ replicate (8 - n) 0 ++ drop e groups) zone)
        end
      else match ellipsis with Some _ => None | None => Some (Addr6 groups zone) end
    end.

(** [netip.ParseAddr]: the first dot, colon or percent sign decides. *)
Fixpoint addrKind (s : bytes) : option Z :=
  match s with
  | [] => None
  | c :: s => if (c =? 46) || (c =? 58) || (c =? 37) then Some c else addrKind s
  end.
Definition ParseAddr (s : bytes) : option Addr :=
  match addrKind s with
  | Some 46 => match parseIPv4 s with Some o => Some (Addr4 o) | None => None end
  | Some 58 => parseIPv6 s
  | _ => None
  end.

Definition Is4 (a : Addr) : bool := match a with Addr4 _ => true | Addr6 _ _ => false end.
Definition Is6 (a : Addr) : bool := negb (Is4 a).
Definition Is4In6 (a : Addr) : bool :=
  match a with Addr6 g _ => (take 5 g ==? replicate 5 0) && (nth 5 g 0 =? 65535) | Addr4 _ => false end.
Definition Zone (a : Addr) : bytes := match a with Addr6 _ z => z | Addr4 _ => [] end.

(** [netip.appendHex]. *)
Definition hexLower (d : Z) : Z := if d <? 10 then 48 + d else 87 + d.
Definition hexGroup (x : Z) : bytes :=
  (if 4096 <=? x then [hexLower (x / 4096)] else []) ++
  (if 256 <=? x then [hexLower (x / 256 mod 16)] else []) ++
  (if 16 <=? x then [hexLower (x / 16 mod 16)] else []) ++ [hexLower (x mod 16)].

(** [netip.Addr.appendTo6]: the longest run of zero groups. *)
Fixpoint zeroRun (l : list Z) : nat := match l with 0 :: l => S (zeroRun l) | _ => O end.
Fixpoint longestZeros (i : nat) (best : nat * nat) (l : list Z) : nat * nat :=
  match l with
  | [] => best
  | _ :: l' =>
    let r := zeroRun l in
    longestZeros (S i) (if (2 <=? r)%nat && (snd best <? r)%nat then (i, r) else best) l'
  end.
Fixpoint colonGroups (first : bool) (l : list Z) : bytes :=
  match l with [] => [] | x :: l => (if first then [] else [58]) ++ hexGroup x ++ colonGroups false l end.
Definition string6 (groups : list Z) : bytes :=
  let '(start, run) := longestZeros 0 (O, O) groups in
  if (run =? 0)%nat then colonGroups true groups
  else colonGroups true (take start groups) ++ [58; 58] ++ colonGroups true (drop (start + run) groups).
Definition string4 (octets : list Z) : bytes :=
  match octets with
  | [a; b; c; d] => Itoa a ++ B "." ++ Itoa b ++ B "." ++ Itoa c ++ B "." ++ Itoa d
  | _ => []
  end.
(** [netip.Addr.String], for addresses that are not IPv4 in IPv6. *)
Definition Addr_String (a : Addr) : bytes :=
  match a with
  | Addr4 o => string4 o
  | Addr6 g z => string6 g ++ (if z ==? [] then [] else B "%" ++ z)
  end.

(** ** Lemmas *)

Lemma Cut_shape s sep :
  let '(a, b, found) := Cut s sep in
  (sep ∉ a) /\ (if found then s = a ++ sep :: b else s = a /\ b = []).
Proof.
  induction s as [|c s IH]; cbn; [split; [apply not_elem_of_nil|done]|].
  destruct (Z.eqb_spec c sep) as [->|Hne]; [split; [apply not_elem_of_nil|done]|].
  destruct (Cut s sep) as [[a b] found]. destruct IH as [Hn Hs]. split.
  - rewrite elem_of_cons. intros [?|?]; [by subst|done].
  - destruct found; [by rewrite Hs|]. destruct Hs as [-> ->]. done.
Qed.
Lemma Cut_found a sep b : (sep ∉ a) -> Cut (a ++ sep :: b) sep = (a, b, true).
Proof.
  induction a as [|c a IH]; cbn; intros Hn; [by rewrite Z.eqb_refl|]. rewrite elem_of_cons in Hn.
  destruct (Z.eqb_spec c sep) as [->|]; [tauto|]. rewrite IH by tauto. done.
Qed.
Lemma Cut_none s sep : (sep ∉ s) -> Cut s sep = (s, [], false).
Proof.
  induction s as [|c s IH]; cbn; intros Hn; [done|]. rewrite elem_of_cons in Hn.
  destruct (Z.eqb_spec c sep) as [->|]; [tauto|]. rewrite IH by tauto. done.
Qed.

Lemma LastCut_found a sep b : (sep ∉ b) -> LastCut (a ++ sep :: b) sep = Some (a, b).
Proof.
  assert (forall l, (sep ∉ l) -> LastCut l sep = None) as Hnone.
  { induction l as [|c l IH]; cbn; [done|]. rewrite elem_of_cons. intros Hn. rewrite IH by tauto.
    by destruct (Z.eqb_spec c sep) as [->|]; [tauto|]. }
  intros Hb. induction a as [|c a IH]; cbn; [by rewrite Hnone, Z.eqb_refl|by rewrite IH].
Qed.
Lemma LastCut_none s sep : (sep ∉ s) -> LastCut s sep = None.
Proof.
  induction s as [|c l IH]; cbn; [done|]. rewrite elem_of_cons. intros Hn. rewrite IH by tauto.
  by destruct (Z.eqb_spec c sep) as [->|]; [tauto|].
Qed.

Lemma Split_nonempty s sep : Split s sep <> [].
Proof. destruct s as [|c s]; cbn; [done|]. destruct (c =? sep); [done|]. by destruct (Split s sep). Qed.
Lemma Split_app a sep b : Split (a ++ sep :: b) sep = Split a sep ++ Split b sep.
Proof.
  induction a as [|c a IH]; cbn; [by rewrite Z.eqb_refl|]. rewrite IH. destruct (c =? sep); [done|].
  by destruct (Split a sep) eqn:E; [destruct (Split_nonempty a sep)|].
Qed.
Lemma Split_chars (P : Z -> bool) s sep :
  forallb (forallb P) (Split s sep) = true -> forallb (fun c => P c || (c =? sep)) s = true.
Proof.
  induction s as [|c s IH]; cbn; [done|]. destruct (Z.eqb_spec c sep) as [->|]; cbn.
  - intros H. by rewrite orb_true_r, IH.
  - destruct (Split s sep) as [|l ls]; cbn in *.
    + rewrite !andb_true_r. intros ->. by rewrite IH.
    + intros H. destruct_bools. rewrite H. cbn. apply IH. by rewrite H1, H0.
Qed.

Lemma forallb_impl {A} (P Q : A -> bool) l : (forall x, P x = true -> Q x = true) -> forallb P l = true -> forallb Q l = true.
Proof. intros H. rewrite !forallb_forall. eauto. Qed.
Lemma forallb_elem {A} (P : A -> bool) l x : forallb P l = true -> x ∈ l -> P x = true.
Proof. rewrite forallb_forall. intros H Hx. by apply H, list_elem_of_In. Qed.
Lemma forallb_not_elem {A} (P : A -> bool) l x : forallb P l = true -> P x = false -> x ∉ l.
Proof. intros H Hx Hin. rewrite (forallb_elem P l x) in Hx; done. Qed.

(** Characters of hosts and ports that need no escape. *)
Definition hostChar (c : Z) : bool := isAlnum c || ContainsByte (B "-.:[]") c.

Lemma hostChar_plain c : hostChar c = true ->
  shouldEscape c encodeHost = false /\ 33 <= c <= 126 /\ c <> 37 /\ c <> 47 /\ c <> 64 /\ c <> 92 /\ c <> 63 /\ c <> 35.
Proof.
  intros Hc. assert (0 <= c < 128) as Hr.
  { unfold hostChar, isAlnum, between, ContainsByte in Hc. change (B "-.:[]") with [45; 46; 58; 91; 93] in Hc. cbn in Hc.
    repeat (apply orb_true_iff in Hc as [Hc|Hc]); zlia. }
  assert (forallb (fun n => negb (hostChar (Z.of_nat n)) || negb (shouldEscape (Z.of_nat n) encodeHost) &&
    between 33 (Z.of_nat n) 126 && forallb (fun x => negb (Z.of_nat n =? x)) [37; 47; 64; 92; 63; 35]) (seq 0 128) = true) as Ht
    by by vm_compute.
  rewrite forallb_forall in Ht. specialize (Ht (Z.to_nat c)). rewrite in_seq, Z2Nat.id in Ht by lia.
  specialize (Ht ltac:(lia)). rewrite Hc in Ht. cbn [forallb negb orb] in Ht. destruct_bools. unfold between in *. destruct_bools. zbool.
  split_and!; done.
Qed.

Lemma escape_plain s mode : forallb (fun c => negb (shouldEscape c mode)) s = true -> escape s mode = s.
Proof.
  unfold escape. induction s as [|c s IH]; cbn; [done|]. intros H. destruct_bools. rewrite H. cbn. by rewrite IH.
Qed.
Lemma escape_host s : forallb hostChar s = true -> escape s encodeHost = s.
Proof. intros H. apply escape_plain. eapply forallb_impl; [|exact H]. intros c (-> & _)%hostChar_plain. done. Qed.
Lemma unescape_host s : forallb hostChar s = true -> unescape s encodeHost = Some s.
Proof.
  induction s as [|c s IH]; [done|]. cbn [forallb unescape]. intros H. apply andb_true_iff in H as [Hc Hs].
  destruct (hostChar_plain c Hc) as (He & Hr & Hp & _). rewrite He, andb_false_r, (IH Hs).
  by destruct (Z.eqb_spec c 37).
Qed.

(** [hexRun] reads hexadecimal digits. *)
Definition isHex (c : Z) : bool := match hexDigit c with Some _ => true | None => false end.
Lemma hexRun_chars s : forall off acc,
  let '(_, _, rest) := hexRun off acc s in exists d, s = d ++ rest /\ forallb isHex d = true.
Proof.
  induction s as [|c s IH]; intros off acc; cbn; [by exists []|]. destruct (hexDigit c) as [v|] eqn:Ev; [|by exists []].
  specialize (IH (S off) (acc * 16 + v)). destruct (hexRun _ _ s) as [[o a] rest]. destruct IH as (d & -> & Hd).
  exists (c :: d). split; [done|]. cbn. unfold isHex at 1. by rewrite Ev.
Qed.

Definition addrChar (c : Z) : bool := isHex c || (c =? 58) || (c =? 46).

Lemma isDigit_hex c : isDigit c = true -> isHex c = true.
Proof. unfold isDigit, isHex, hexDigit. by intros ->. Qed.

Lemma parseOctet_digits s o : parseOctet s = Some o -> forallb isDigit s = true.
Proof. unfold parseOctet. destruct s as [|c r]; [done|]. destruct (forallb isDigit (c :: r)); done. Qed.

Lemma parseIPv4_chars s o : parseIPv4 s = Some o -> forallb (fun c => isDigit c || (c =? 46)) s = true.
Proof.
  unfold parseIPv4. intros H. apply Split_chars. destruct (Split s 46) as [|a [|b [|c [|d [|]]]]]; try done.
  destruct (parseOctet a) eqn:Ea, (parseOctet b) eqn:Eb, (parseOctet c) eqn:Ec, (parseOctet d) eqn:Ed; try done.
  apply parseOctet_digits in Ea, Eb, Ec, Ed. cbn. by rewrite Ea, Eb, Ec, Ed.
Qed.
Lemma parseIPv4_addr s o : parseIPv4 s = Some o -> forallb addrChar s = true.
Proof.
  intros H. eapply forallb_impl; [|by eapply parseIPv4_chars]. intros c [Hc|Hc]%orb_true_iff; unfold addrChar.
  - by rewrite (isDigit_hex _ Hc).
  - by rewrite Hc, orb_true_r.
Qed.

Lemma parseGroups_chars fuel : forall groups ellipsis s r,
  parseGroups fuel groups ellipsis s = Some r -> forallb addrChar s = true.
Proof.
  assert (forall d, forallb isHex d = true -> forallb addrChar d = true) as Hhex.
  { intros d. apply forallb_impl. intros c Hc. unfold addrChar. by rewrite Hc. }
  induction fuel as [|fuel IH]; intros groups ellipsis s r; cbn [parseGroups].
  { destruct (s ==? []) eqn:E; [|done]. by apply eqb_true_1 in E as ->. }
  pose proof (hexRun_chars s 0 0) as Hh. destruct (hexRun 0 0 s) as [[off acc] rest]. destruct Hh as (d & -> & Hd%Hhex).
  destruct (_ || _); [done|].
  assert (forall t, forallb addrChar t = true -> forallb addrChar (d ++ t) = true) as Happ.
  { intros t Ht. rewrite forallb_app. by rewrite Hd. }
  destruct rest as [|x rest]; [intros _; by apply Happ|].
  destruct (decide (x = 46)) as [->|H46].
  { destruct (_ || _); [done|]. destruct (parseIPv4 _) as [o|] eqn:E4; [|done]. intros _. by apply parseIPv4_addr in E4. }
  destruct (decide (x = 58)) as [->|H58].
  2:{ intros H. exfalso. revert H. destruct x as [|p|p]; try done.
      do 6 (destruct p as [p|p|]; try done). }
  destruct rest as [|y rest]; [done|]. destruct (decide (y = 58)) as [->|Hy].
  - destruct ellipsis; [done|]. destruct (rest ==? []) eqn:E; intros H; apply Happ; cbn.
    + by apply eqb_true_1 in E as ->.
    + by apply IH in H.
  - intros H. assert (parseGroups fuel (groups ++ [acc]) ellipsis (y :: rest) = Some r) as H'.
    { revert H. destruct y as [|p|p]; try done. do 6 (destruct p as [p|p|]; try done). }
    apply IH in H'. apply Happ. by cbn in *.
Qed.

Lemma parseIPv6_chars s g : parseIPv6 s = Some (Addr6 g []) -> forallb addrChar s = true.
Proof.
  unfold parseIPv6. pose proof (Cut_shape s 37) as Hs. destruct (Cut s 37) as [[t zone] found]. destruct Hs as [_ Hs].
  destruct found; [destruct (zone ==? []) eqn:Ez; [done|]|destruct Hs as [-> ->]]; cbn [andb].
  { apply eqb_false_1 in Ez. intros H. exfalso. destruct (_ && _); [congruence|]. destruct (parseGroups _ _ _ _) as [[gs e]|]; [|done].
    destruct (_ <? _)%nat, e; congruence. }
  assert (HasPrefix t (B "::") = true -> t = [58; 58] ++ drop 2 t) as Hpre.
  { change (B "::") with [58; 58]. destruct t as [|a [|b t]]; cbn; rewrite ?andb_false_r; try done. destruct (Z.eqb_spec a 58), (Z.eqb_spec b 58); try done. by subst. }
  destruct (HasPrefix t (B "::")); cbn [andb].
  - specialize (Hpre eq_refl). destruct (drop 2 t ==? []) eqn:Ed.
    { apply eqb_true_1 in Ed. intros _. by rewrite Hpre, Ed. }
    destruct (parseGroups 8 _ _ (drop 2 t)) as [[gs e]|] eqn:E; [|done]. intros _. apply parseGroups_chars in E.
    rewrite Hpre. cbn. exact E.
  - destruct (parseGroups 8 _ _ t) as [[gs e]|] eqn:E; [|done]. intros _. by apply parseGroups_chars in E.
Qed.

Lemma addrChar_host c : addrChar c = true -> hostChar c = true.
Proof.
  unfold addrChar, hostChar, isHex, hexDigit, isAlnum, ContainsByte.
  change (B "-.:[]") with [45; 46; 58; 91; 93]. cbn. unfold between.
  intros [[H|H]%orb_true_iff|H]%orb_true_iff; [|zbool; by subst..].
  destruct (48 <=? c) eqn:E1, (c <=? 57) eqn:E2; cbn in *; rewrite ?orb_true_r; try done.
  all: destruct (97 <=? c) eqn:E3, (c <=? 102) eqn:E4, (65 <=? c) eqn:E5, (c <=? 70) eqn:E6; cbn in *; try done.
  all: zbool; destruct (Z.leb_spec c 122), (Z.leb_spec c 90); cbn; rewrite ?orb_true_r; try done; lia.
Qed.

(** Parsing a URL without query and fragment: the scheme, the authority up to the first
    slash, the path. *)
Definition parsedAs (scheme authority path : bytes) : option URL :=
  match parseAuthority authority with
  | None => None
  | Some (user, host) =>
    match setPath path with
    | None => None
    | Some (p, raw) => Some (mkURL scheme [] user host p raw false [] [])
    end
  end.

Lemma HasSuffix_last s c : HasSuffix s [c] = true -> c ∈ s.
Proof.
  unfold HasSuffix. change (rev [c]) with [c]. intros H. apply list_elem_of_In. apply in_rev.
  destruct (rev s) as [|x l]; [done|]. cbn in H. destruct (Z.eqb_spec x c); [by left|done].
Qed.

Lemma Parse_plain scheme authority path :
  scheme = B "http" \/ scheme = B "https" ->
  (forall c, c ∈ authority ++ path -> 32 <= c /\ c <> 127 /\ c <> 35 /\ c <> 63) ->
  (47 ∉ authority) -> match path with [] => True | c :: _ => c = 47 end ->
  Parse (scheme ++ B "://" ++ authority ++ path) = parsedAs scheme authority path.
Proof.
  intros Hs Hc Ha Hp. set (r := authority ++ path).
  assert (forall c, c ∈ scheme ++ B "://" ++ r -> 32 <= c /\ c <> 127 /\ c <> 35 /\ c <> 63) as Hall.
  { intros c [Hin|[Hin|Hin]%elem_of_app]%elem_of_app; [| |by apply Hc].
    - assert (forallb (fun c => between 97 c 122) scheme = true) as Hf by (by destruct Hs as [-> | ->]).
      pose proof (forallb_elem _ _ _ Hf Hin) as Hb. unfold between in Hb. zbool. destruct_bools. zbool. lia.
    - assert (forallb (fun c => between 47 c 58) (B "://") = true) as Hf by done.
      pose proof (forallb_elem _ _ _ Hf Hin) as Hb. unfold between in Hb. destruct_bools. zbool. lia. }
  unfold Parse. rewrite Cut_none by (intros Hin; by destruct (Hall _ Hin) as (_ & _ & ? & _)).
  unfold parse. replace (existsb _ (scheme ++ B "://" ++ r)) with false.
  2:{ symmetry. apply not_true_iff_false. rewrite existsb_exists. intros (c & Hin%list_elem_of_In & Hb). apply Hall in Hin.
      apply orb_true_iff in Hb as [?|?]; zbool; lia. }
  assert (getScheme (scheme ++ B "://" ++ r) = Ok (scheme, 47 :: 47 :: r) /\ (scheme ++ B "://" ++ r ==? B "*") = false /\
    ToLower scheme = scheme /\ (scheme ==? []) = false) as (-> & -> & -> & ->).
  { destruct Hs as [-> | ->]; split_and!; try reflexivity. }
  assert (63 ∉ 47 :: 47 :: r) as Hq.
  { rewrite !elem_of_cons. intros [?|[?|Hin]]; [done..|]. destruct (Hall 63) as (_ & _ & _ & ?); [|done]. rewrite !elem_of_app. auto. }
  assert (HasSuffix (47 :: 47 :: r) (B "?") = false) as ->.
  { apply not_true_iff_false. intros H%HasSuffix_last. done. }
  cbn [andb]. rewrite Cut_none by done. unfold parsedAs, r.
  assert (Cut (drop 2 (47 :: 47 :: authority ++ path)) 47 = (authority, match path with [] => [] | _ :: p => p end, match path with [] => false | _ => true end)) as Hcut.
  { cbn [drop]. destruct path as [|c p]; [rewrite app_nil_r; by apply Cut_none|]. subst c. by apply Cut_found. }
  change (HasPrefix (47 :: 47 :: authority ++ path) (B "/")) with true.
  replace (HasPrefix (47 :: 47 :: authority ++ path) (B "//")) with true by (by destruct authority, path).
  cbn [negb andb orb]. rewrite Hcut. cbn [fst]. replace (drop (2 + length authority) (47 :: 47 :: authority ++ path)) with path.
  2:{ cbn. by rewrite drop_app_length. }
  destruct (parseAuthority authority) as [[user host]|]; [|done]. destruct (setPath path) as [[p raw]|]; done.
Qed.
