(* ===== verification/Config.v ===== *)
(** * Configuration (config.go, transport_options.go)

    What [NewRuntime] makes of the options of a client and the environment of the
    process: validated limits, a credential and one canonical endpoint.  Hooks and
    transports are only set or not; the snapshot copies the value of everything else. *)
From S2P Require Import Prelude Errors RuntimeState GoText GoURL Response Operation.

(** ** Data *)

Definition second : Z := 1000000000.
Definition millisecond : Z := 1000000.
Definition defaultConnectTimeout : Z := 10 * second.
Definition defaultAttemptTimeout : Z := 30 * second.
Definition defaultOperationTimeout : Z := 120 * second.
Definition defaultMaxAttempts : Z := 4.
Definition defaultRetryBaseDelay : Z := 250 * millisecond.
Definition defaultRetryMaxDelay : Z := 60 * second.
Definition defaultMaxInFlightOperations : Z := 256.
Definition defaultMaxBufferedBytes : Z := 67108864.
Definition maximumConfiguredDuration : Z := 9223372036854 * millisecond.
Definition defaultMaxConnectionsPerOrigin : Z := 32.
Definition defaultConnectionLifetime : Z := 300 * second.
Definition defaultConnectionIdleTimeout : Z := 120 * second.
Definition defaultAPIURL : bytes := B "https://api.repost.sh".
Definition VersionTLS12 : Z := 771.
Definition VersionTLS13 : Z := 772.

(** transport_options.go, [ClientCertificate], [TLSOptions], [ProxyOptions],
    [HTTPTransportOptions]; a nil pointer or slice is [None]. *)
Record ClientCertificate := mkCertificate { CertificatePEM : bytes; KeyPEM : bytes; Passphrase : bytes }.
Record TLSOptions := mkTLS {
  CACertificatesPEM : option (list bytes);
  MinVersion : Z;
  MaxVersion : Z;
  Ciphers : list Z;
  TLS_ClientCertificate : option ClientCertificate
}.
Record ProxyOptions := mkProxy { Proxy_URL : bytes; CredentialsProviderSet : bool }.
Record HTTPTransportOptions := mkTransportOptions {
  TLS : option TLSOptions;
  Proxy : option ProxyOptions;
  DNSResolverSet : bool;
  HTTP2 : option bool;
  MaxConnectionsPerOrigin : option Z;
  ConnectionLifetime : option Z;
  ConnectionIdleTimeout : option Z
}.

(** webhooks.go, [ClientOptions]: what [snapshotConfig] reads of it. *)
Record ClientOptions := mkOptions {
  Option_APIKey : bytes;
  apiKeySet : bool;
  APIKeyProviderSet : bool;
  APIURL : bytes;
  TransportSet : bool;
  Option_HTTP : option HTTPTransportOptions;
  ConnectTimeout : option Z;
  AttemptTimeout : option Z;
  OperationTimeout : option Z;
  MaxAttempts : option Z;
  RetryBaseDelay : option Z;
  RetryMaxDelay : option Z;
  MaxInFlightOperations : option Z;
  MaxBufferedBytes : option Z;
  UserAgentSuffix : option bytes;
  SchedulerSet : bool
}.

(** config.go, [runtimeConfig]: what the operation reads, and the rest. *)
Record configuration := mkConfiguration {
  operation : runtimeConfig;
  operationTimeout : Z;
  maxInFlightOperations : Z;
  maxBufferedBytes : Z;
  httpTransportOptions : HTTPTransportOptions
}.

(** ** Options of the transport *)

(** transport_options.go, [supportedTLSVersion]. *)
Definition supportedTLSVersion (v : Z) : bool := (v =? 0) || (v =? VersionTLS12) || (v =? VersionTLS13).

(** transport_options.go, [validConfiguredDuration]. *)
Definition validConfiguredDuration (v : Z) : bool :=
  (0 <? v) && (v <=? maximumConfiguredDuration) && (Z.rem v millisecond =? 0).

(** transport_options.go, [invalidHTTPTransportOptions]. *)
Definition invalidHTTPTransportOptions (code : ConfigurationIssueCode) : Error :=
  configurationError code [ClientOptionKeyHTTPTransportOptions].

(** transport_options.go, [snapshotHTTPTransportOptions], lines 104 to 126. *)
Definition snapshotTLS (input : TLSOptions) : result Error TLSOptions :=
  let minVersion := if MinVersion input =? 0 then VersionTLS12 else MinVersion input in
  if negb (supportedTLSVersion minVersion) || negb (supportedTLSVersion (MaxVersion input)) ||
     (negb (MaxVersion input =? 0) && (MaxVersion input <? minVersion))
  then Err (invalidHTTPTransportOptions ConfigurationIssueCodeUnsupported)
  else if match CACertificatesPEM input with Some [] => true | _ => false end
  then Err (invalidHTTPTransportOptions ConfigurationIssueCodeInvalidValue)
  else if match TLS_ClientCertificate input with
          | Some c => (CertificatePEM c ==? []) || (KeyPEM c ==? [])
          | None => false
          end
  then Err (invalidHTTPTransportOptions ConfigurationIssueCodeInvalidValue)
  else Ok (mkTLS (CACertificatesPEM input) minVersion (MaxVersion input) (Ciphers input) (TLS_ClientCertificate input)).

(** transport_options.go, [snapshotHTTPTransportOptions], lines 127 to 135. *)
Definition snapshotProxy (input : ProxyOptions) : result Error ProxyOptions :=
  match Parse (Proxy_URL input) with
  | Some u =>
    if negb (Scheme u ==? B "http") || (Host u ==? []) || User u || negb (Path u ==? []) ||
       negb (RawQuery u ==? []) || negb (Fragment u ==? [])
    then Err (invalidHTTPTransportOptions ConfigurationIssueCodeInvalidValue)
    else Ok input
  | None => Err (invalidHTTPTransportOptions ConfigurationIssueCodeInvalidValue)
  end.

(** A section that may be missing. *)
Definition optionally {A} (f : A -> result Error A) (o : option A) : result Error (option A) :=
  match o with None => Ok None | Some a => match f a with Ok b => Ok (Some b) | Err e => Err e end end.

(** transport_options.go, [snapshotHTTPTransportOptions]. *)
Definition snapshotHTTPTransportOptions (input : HTTPTransportOptions) : result Error HTTPTransportOptions :=
  let outOfRange := Err (invalidHTTPTransportOptions ConfigurationIssueCodeOutOfRange) in
  let maxConnections := default defaultMaxConnectionsPerOrigin (MaxConnectionsPerOrigin input) in
  let lifetime := default defaultConnectionLifetime (ConnectionLifetime input) in
  let idle := default defaultConnectionIdleTimeout (ConnectionIdleTimeout input) in
  if (maxConnections <? 1) || (65536 <? maxConnections) then outOfRange
  else if negb (validConfiguredDuration lifetime) then outOfRange
  else if negb (validConfiguredDuration idle) then outOfRange
  else
    tls ← optionally snapshotTLS (TLS input);
    proxy ← optionally snapshotProxy (Proxy input);
    Ok (mkTransportOptions tls proxy (DNSResolverSet input) (Some (default true (HTTP2 input)))
          (Some maxConnections) (Some lifetime) (Some idle)).

(** ** Endpoints *)

(** config.go, [printableASCII]. *)
Definition printableASCII (v : bytes) : bool := forallb (fun c => between 33 c 126) v.

(** config.go, [splitAuthority]: host, port, whether bracketed, whether a port is
    present; [None] when it is not valid. *)
Definition splitAuthority (authority : bytes) : option (bytes * bytes * bool * bool) :=
  if HasPrefix authority (B "[") then
    let '(before, rest, found) := Cut authority 93 in
    let host := drop 1 before in
    if negb found then None
    else match rest with
         | [] => if host ==? [] then None else Some (host, [], true, false)
         | c :: port => if negb (c =? 58) || (host ==? []) then None else Some (host, port, true, true)
         end
  else if 1 <? Count authority 58 then None
  else let '(host, port, present) := Cut authority 58 in
       if host ==? [] then None else Some (host, port, false, present).

(** config.go, [validPort]. *)
Definition validPort (port : bytes) (present : bool) : bool :=
  if negb present then true
  else match port with
  | [] => false
  | c :: r =>
    if negb (r ==? []) && (c =? 48) then false
    else if negb (forallb isDigit port) then false
    else match ParseUint10 port 63 with Some n => between 1 n 65535 | None => false end
  end.

(** config.go, [validDNSName]. *)
Definition validLabel (label : bytes) : bool :=
  match label with
  | [] => false
  | c :: _ => (len label <=? 63) && negb (c =? 45) && negb (List.last label 0 =? 45) &&
              forallb (fun b => isAlnum b || (b =? 45)) label
  end.
Definition validDNSName (host : bytes) : bool :=
  if (host ==? []) || (253 <? len host) || HasSuffix host (B ".") then false
  else forallb validLabel (Split host 46).

(** config.go, [validHost]; [strings.Trim(host, digits and dot) == ""] says that every
    character is one of them. *)
Definition validHost (scheme host : bytes) (bracketed : bool) : bool :=
  if bracketed then
    match ParseAddr host with
    | None => false
    | Some a =>
      if negb (Is6 a) || Is4In6 a || negb (Zone a ==? []) || negb (Addr_String a ==? host) then false
      else if scheme ==? B "http" then host ==? B "::1" else true
    end
  else match ParseAddr host with
  | Some a =>
    if negb (Is4 a) || negb (Addr_String a ==? host) then false
    else (scheme ==? B "https") || match a with Addr4 (o :: _) => o =? 127 | _ => false end
  | None =>
    if scheme ==? B "http" then host ==? B "localhost"
    else if forallb (fun c => isDigit c || (c =? 46)) host then false
    else validDNSName host
  end.

(** config.go, [isPChar], [upperHex], [unhex]. *)
Definition isPChar (b : Z) : bool := isAlnum b || ContainsByte (B "-._~!$&'()*+,;=:@") b.
Definition upperHex (b : Z) : bool := between 48 b 57 || between 65 b 70.
Definition unhex (b : Z) : Z := if b <=? 57 then b - 48 else b - 65 + 10.

(** config.go, [validBasePath], the first loop. *)
Fixpoint basePathChars (path : bytes) : bool :=
  match path with
  | [] => true
  | b :: r =>
    if (b =? 47) || isPChar b then basePathChars r
    else match r with
         | h1 :: h2 :: r' =>
           if negb (b =? 37) || negb (upperHex h1) || negb (upperHex h2) then false
           else let decoded := unhex h1 * 16 + unhex h2 in
                if (decoded =? 47) || (decoded =? 92) then false else basePathChars r'
         | _ => false
         end
  end.
(** config.go, [validBasePath], the second loop. *)
Definition segmentOK (segment : bytes) : bool :=
  match PathUnescape segment with
  | None => false
  | Some decoded => negb (decoded ==? B ".") && negb (decoded ==? B "..")
  end.
Definition validBasePath (path : bytes) : bool :=
  match path with c :: _ => c =? 47 | [] => true end && basePathChars path && forallb segmentOK (Split path 47).

(** [strings.TrimRight(s, "/")]. *)
Fixpoint trimSlashes (reversed : bytes) : bytes :=
  match reversed with c :: r => if c =? 47 then trimSlashes r else reversed | [] => [] end.
Definition TrimRightSlash (s : bytes) : bytes := rev (trimSlashes (rev s)).

Definition messagesPath : bytes := B "/v1/messages".
(** config.go, [canonicalEndpoint], lines 334 to 340. *)
Definition endpointPath (path : bytes) : bytes :=
  let trimmed := TrimRightSlash path in
  if HasSuffix trimmed messagesPath then trimmed else trimmed ++ messagesPath.

(** config.go, [canonicalEndpoint]. *)
Definition canonicalEndpoint (raw : bytes) : option bytes :=
  if (raw ==? []) || (2048 <? len raw) || negb (printableASCII raw) || existsb (ContainsByte raw) [92; 63; 35] then None
  else if negb (HasPrefix raw (B "https://")) && negb (HasPrefix raw (B "http://")) then None
  else match Parse raw with
  | None => None
  | Some u =>
    if negb (URL_String u ==? raw) || negb (Opaque u ==? []) || User u || (Host u ==? []) ||
       negb (RawQuery u ==? []) || negb (Fragment u ==? []) then None
    else if 512 <? len (Host u) then None
    else match splitAuthority (Host u) with
    | None => None
    | Some (host, port, bracketed, portPresent) =>
      if negb (validPort port portPresent) || negb (validHost (Scheme u) host bracketed) then None
      else
        let path := EscapedPath u in
        if (1536 <? len path) || negb (validBasePath path) then None
        else
          let trimmedPath := endpointPath path in
          let endpoint := Scheme u ++ B "://" ++ Host u ++ trimmedPath in
          if (2048 <? len trimmedPath) || (4096 <? len endpoint) then None else Some endpoint
    end
  end.

(** config.go, [baseURIPortIssue], lines 190 to 222: the port of the authority. *)
Definition rawPort (raw : bytes) : option bytes :=
  let after := if HasPrefix raw (B "https://") then Some (drop 8 raw)
               else if HasPrefix raw (B "http://") then Some (drop 7 raw) else None in
  match after with
  | None => None
  | Some rest =>
    let authority := (Cut rest 47).1.1 in
    if ContainsByte authority 64 then None
    else if HasPrefix authority (B "[") then
      let '(_, rest, found) := Cut authority 93 in
      if negb found then None else match rest with c :: port => if c =? 58 then Some port else None | [] => None end
    else if Count authority 58 =? 1 then Some (Cut authority 58).1.2 else None
  end.
(** config.go, [baseURIPortIssue], lines 223 to 242. *)
Definition portIssue (port : bytes) : option ConfigurationIssueCode :=
  match port with
  | [] => Some ConfigurationIssueCodeInvalidValue
  | c :: r =>
    if (c =? 43) || ((1 <? len port) && (c =? 48)) then Some ConfigurationIssueCodeInvalidValue
    else
      let digits := if c =? 45 then r else port in
      if (c =? 45) && (digits ==? []) then Some ConfigurationIssueCodeInvalidValue
      else if negb (forallb isDigit digits) then Some ConfigurationIssueCodeInvalidValue
      else match ParseUint10 digits 16 with
           | None => Some ConfigurationIssueCodeOutOfRange
           | Some n => if (c =? 45) || (n <? 1) || (65535 <? n) then Some ConfigurationIssueCodeOutOfRange else None
           end
  end.
(** config.go, [baseURIPortIssue]. *)
Definition baseURIPortIssue (raw : bytes) : option ConfigurationIssueCode :=
  match rawPort raw with None => None | Some port => portIssue port end.

(** ** The snapshot *)

(** config.go, [resolveDuration] and [resolveInt]: the target, given or default. *)
Definition resolveDuration (o : option Z) (target : Z) (key : ClientOptionKey) : result Error Z :=
  match o with
  | None => Ok target
  | Some v => if validConfiguredDuration v then Ok v else Err (configurationError ConfigurationIssueCodeOutOfRange [key])
  end.
Definition resolveInt (o : option Z) (target minimum maximum : Z) (key : ClientOptionKey) : result Error Z :=
  match o with
  | None => Ok target
  | Some v => if (v <? minimum) || (maximum <? v) then Err (configurationError ConfigurationIssueCodeOutOfRange [key]) else Ok v
  end.

(** config.go, [validUserAgentSuffix]. *)
Definition validUserAgentSuffix (v : bytes) : bool :=
  match v with
  | [] => false
  | c :: _ => (len v <=? 256) && negb (c =? 32) && negb (List.last v 0 =? 32) && forallb (fun b => between 32 b 126) v
  end.

(** [if cond { return nil, err }]. *)
Definition reject (cond : bool) (e : Error) : result Error unit := if cond then Err e else Ok tt.

Section snapshot.
(** The environment of the process. *)
Context (getenv : bytes -> option bytes).

(** config.go, [snapshotConfig], lines 97 to 109: the credential, when there is one. *)
Definition lookupCredential (options : ClientOptions) : option bytes :=
  if negb (Option_APIKey options ==? []) || apiKeySet options then Some (Option_APIKey options)
  else match getenv (B "REPOST_SEND_API_KEY") with
       | Some v => Some v
       | None => getenv (B "REPOST_TOKEN")
       end.
Definition resolveCredential (options : ClientOptions) : result Error bytes :=
  if APIKeyProviderSet options then Ok []
  else match lookupCredential options with
       | None => Ok []
       | Some key =>
         if validCredential key then Ok key
         else Err (configurationError ConfigurationIssueCodeInvalidValue [ClientOptionKeyAPIKey])
       end.

(** config.go, [snapshotConfig], lines 111 to 126: the endpoint. *)
Definition resolveEndpoint (options : ClientOptions) : result Error bytes :=
  let baseURI := if APIURL options ==? [] then default defaultAPIURL (getenv (B "REPOST_API_URL")) else APIURL options in
  match baseURIPortIssue baseURI with
  | Some issue => Err (configurationError issue [ClientOptionKeyBaseURI])
  | None =>
    match canonicalEndpoint baseURI with
    | None => Err (configurationError ConfigurationIssueCodeInvalidValue [ClientOptionKeyBaseURI])
    | Some endpoint => Ok endpoint
    end
  end.

(** config.go, [snapshotConfig]. *)
Definition snapshotConfig (options : ClientOptions) : result Error configuration :=
  _ ← reject ((negb (Option_APIKey options ==? []) || apiKeySet options) && APIKeyProviderSet options)
        (configurationError ConfigurationIssueCodeConflict [ClientOptionKeyAPIKey; ClientOptionKeyAPIKeyProvider]);
  _ ← reject (TransportSet options && match Option_HTTP options with Some _ => true | None => false end)
        (configurationError ConfigurationIssueCodeConflict [ClientOptionKeyHTTPTransportOptions; ClientOptionKeyTransport]);
  http ← snapshotHTTPTransportOptions
           (default (mkTransportOptions None None false None None None None) (Option_HTTP options));
  key ← resolveCredential options;
  endpoint ← resolveEndpoint options;
  connect ← resolveDuration (ConnectTimeout options) defaultConnectTimeout ClientOptionKeyConnectTimeout;
  attempt ← resolveDuration (AttemptTimeout options) defaultAttemptTimeout ClientOptionKeyAttemptTimeout;
  operation ← resolveDuration (OperationTimeout options) defaultOperationTimeout ClientOptionKeyOperationTimeout;
  attempts ← resolveInt (MaxAttempts options) defaultMaxAttempts 1 10 ClientOptionKeyMaxAttempts;
  base ← resolveDuration (RetryBaseDelay options) defaultRetryBaseDelay ClientOptionKeyRetryBaseDelay;
  maximum ← resolveDuration (RetryMaxDelay options) defaultRetryMaxDelay ClientOptionKeyRetryMaxDelay;
  _ ← reject (match RetryBaseDelay options, RetryMaxDelay options with Some _, Some _ => maximum <? base | _, _ => false end)
        (configurationError ConfigurationIssueCodeConflict [ClientOptionKeyRetryBaseDelay; ClientOptionKeyRetryMaxDelay]);
  inFlight ← resolveInt (MaxInFlightOperations options) defaultMaxInFlightOperations 1 65536 ClientOptionKeyMaxInFlightOperations;
  buffered ← resolveInt (MaxBufferedBytes options) defaultMaxBufferedBytes 4194304 1073741824 ClientOptionKeyMaxBufferedBytes;
  _ ← reject (match UserAgentSuffix options with Some v => negb (validUserAgentSuffix v) | None => false end)
        (configurationError ConfigurationIssueCodeInvalidValue [ClientOptionKeyUserAgentSuffix]);
  Ok (mkConfiguration
        (mkConfig endpoint key connect attempt attempts base maximum (default [] (UserAgentSuffix options))
           (negb (SchedulerSet options)) (negb (TransportSet options)))
        operation inFlight buffered http).
End snapshot.

(** ** Paths *)

(** What is needed of the characters of a path. *)
Definition pathByte (c : Z) : bool :=
  (ContainsByte (B "!$&'()*+,;=:@[]%") c || negb (shouldEscape c encodePath)) && between 33 c 126 &&
  forallb (fun x => negb (c =? x)) [92; 63; 35].

(** A decidable fact about ASCII characters, by cases. *)
Lemma ascii_fact (P Q : Z -> bool) c :
  forallb (fun n => negb (P (Z.of_nat n)) || Q (Z.of_nat n)) (seq 0 128) = true -> 0 <= c < 128 -> P c = true -> Q c = true.
Proof.
  intros Ht Hc HP. rewrite forallb_forall in Ht. specialize (Ht (Z.to_nat c)). rewrite in_seq, Z2Nat.id in Ht by lia.
  specialize (Ht ltac:(lia)). by rewrite HP in Ht.
Qed.

Lemma isAlnum_range c : isAlnum c = true -> 0 <= c < 128.
Proof. unfold isAlnum, between. intros H. repeat (apply orb_true_iff in H as [H|H]); zlia. Qed.
Lemma isPChar_range c : isPChar c = true -> 0 <= c < 128.
Proof.
  unfold isPChar. intros [H%isAlnum_range|H]%orb_true_iff; [done|]. unfold ContainsByte in H.
  apply existsb_exists in H as (x & Hx%list_elem_of_In & ->%Z.eqb_eq).
  assert (forallb (fun c => between 0 c 127) (B "-._~!$&'()*+,;=:@") = true) as Hf by by vm_compute.
  pose proof (forallb_elem _ _ _ Hf Hx) as Hb. unfold between in Hb. zlia.
Qed.
Lemma upperHex_range c : upperHex c = true -> 0 <= c < 128.
Proof. unfold upperHex, between. intros [H|H]%orb_true_iff; zlia. Qed.

Lemma pathByte_char c : (c =? 47) || isPChar c = true -> pathByte c = true /\ c <> 37.
Proof.
  intros H. assert (0 <= c < 128) as Hr by (apply orb_true_iff in H as [H|H]; [zbool; lia|by apply isPChar_range]).
  split; [by apply (ascii_fact (fun c => (c =? 47) || isPChar c) pathByte)|].
  apply (ascii_fact (fun c => (c =? 47) || isPChar c) (fun c => negb (c =? 37))) in H; [zlia|by vm_compute|done].
Qed.
Lemma pathByte_hex c : upperHex c = true -> pathByte c = true /\ exists d, hexDigit c = Some d.
Proof.
  intros H. pose proof (upperHex_range _ H). split; [by apply (ascii_fact upperHex pathByte)|].
  assert ((fun c => isHex c) c = true) as Hx by by apply (ascii_fact upperHex isHex).
  unfold isHex in Hx. destruct (hexDigit c); [by eexists|done].
Qed.

(** Induction along the escapes of a path. *)
Lemma basePath_ind (P : bytes -> Prop) :
  P [] -> (forall c r, ((c =? 47) || isPChar c = true) -> basePathChars r = true -> P r -> P (c :: r)) ->
  (forall h1 h2 r, upperHex h1 = true -> upperHex h2 = true -> basePathChars r = true -> P r -> P (37 :: h1 :: h2 :: r)) ->
  forall p, basePathChars p = true -> P p.
Proof.
  intros H0 H1 H2 p. remember (length p) as n eqn:Hn. revert p Hn.
  induction n as [n IH] using (well_founded_induction lt_wf). intros p -> Hp.
  destruct p as [|c r]; [done|]. cbn [basePathChars] in Hp. destruct ((c =? 47) || isPChar c) eqn:Ec.
  { apply H1; [done..|]. apply (IH (length r)); [cbn; lia|done..]. }
  destruct r as [|h1 [|h2 r]]; [done..|]. destruct (negb (c =? 37) || negb (upperHex h1) || negb (upperHex h2)) eqn:Eh; [done|]. destruct (_ || _) eqn:Ed in Hp; [done|].
  apply orb_false_iff in Eh as [[Eb%negb_false_iff E1%negb_false_iff]%orb_false_iff E2%negb_false_iff].
  apply Z.eqb_eq in Eb as ->. apply H2; [done..|]. apply (IH (length r)); [cbn; lia|done..].
Qed.

Lemma basePath_bytes p : basePathChars p = true -> forallb pathByte p = true.
Proof.
  intros H. pattern p. eapply basePath_ind; [done| | |exact H]; cbn [forallb].
  - intros c r Hc _ ->. by destruct (pathByte_char c Hc) as [-> _].
  - intros h1 h2 r H1 H2 _ ->. destruct (pathByte_hex _ H1) as [-> _], (pathByte_hex _ H2) as [-> _]. done.
Qed.

Lemma basePath_unescape p mode : mode = encodePath \/ mode = encodePathSegment -> basePathChars p = true ->
  exists d, unescape p mode = Some d /\ match p with 47 :: _ => exists d', d = 47 :: d' | _ => True end.
Proof.
  intros Hm H. assert ((mode ==? encodeHost) = false /\ (mode ==? encodeZone) = false) as [Eh Ez] by (by destruct Hm as [-> | ->]).
  pattern p. eapply basePath_ind; [by exists []| | |exact H]; cbn [unescape].
  - intros c r Hc _ (d & -> & _). destruct (pathByte_char c Hc) as [_ Hne]. rewrite Eh, Ez. cbn [orb andb].
    destruct (Z.eqb_spec c 37); [done|]. exists (c :: d). split; [done|]. destruct (decide (c = 47)) as [->|]; [by eexists|].
    destruct c as [|q|q]; try done. by do 6 (destruct q as [q|q|]; try done).
  - intros h1 h2 r H1 H2 _ (d & Hd & _). destruct (pathByte_hex _ H1) as [_ [d1 ->]], (pathByte_hex _ H2) as [_ [d2 ->]].
    rewrite Eh, Ez, Hd. cbn. by eexists.
Qed.

Lemma basePathChars_app a b : basePathChars (a ++ 47 :: b) = basePathChars a && basePathChars b.
Proof.
  remember (length a) as n eqn:Hn. revert a Hn.
  induction n as [n IH] using (well_founded_induction lt_wf). intros a ->.
  destruct a as [|c r]; [done|]. cbn [app basePathChars]. destruct ((c =? 47) || isPChar c).
  { apply (IH (length r)); [cbn; lia|done]. }
  destruct r as [|h1 [|h2 r]]; cbn [app].
  - destruct b as [|h2 b]; [done|]. by rewrite orb_true_r.
  - by rewrite orb_true_r.
  - destruct (_ || _); [done|]. cbv zeta. destruct (_ || _); [done|]. apply (IH (length r)); [cbn; lia|done].
Qed.

Lemma validBasePath_spec p : validBasePath p = true <->
  match p with c :: _ => c = 47 | [] => True end /\ basePathChars p = true /\ forallb segmentOK (Split p 47) = true.
Proof.
  unfold validBasePath. rewrite !andb_true_iff. destruct p as [|c p]; [tauto|]. rewrite Z.eqb_eq. tauto.
Qed.

(** Trailing slashes. *)
Lemma TrimRightSlash_shape s : exists n, s = TrimRightSlash s ++ replicate n 47.
Proof.
  unfold TrimRightSlash. assert (forall l, exists n, l = replicate n 47 ++ trimSlashes l) as Hl.
  { induction l as [|c l [n IH]]; [by exists O|]. cbn. destruct (Z.eqb_spec c 47) as [->|].
    - exists (S n). cbn. by rewrite <- IH.
    - by exists O. }
  destruct (Hl (rev s)) as [n Hn]. exists n. rewrite <- (rev_involutive s) at 1. rewrite Hn at 1. rewrite rev_app_distr. f_equal.
  clear. induction n as [|n IH]; [done|]. cbn. rewrite IH. clear. induction n; [done|]. cbn. by f_equal.
Qed.
Lemma TrimRightSlash_last s c : c <> 47 -> TrimRightSlash (s ++ [c]) = s ++ [c].
Proof.
  intros Hc. unfold TrimRightSlash. rewrite rev_app_distr. cbn. destruct (Z.eqb_spec c 47); [done|].
  cbn. by rewrite rev_involutive.
Qed.

(** Text that ends in a path of the service. *)
Lemma HasSuffix_shape s suffix : HasSuffix s suffix = true <-> exists a, s = a ++ suffix.
Proof.
  unfold HasSuffix. assert (forall l pre, HasPrefix l pre = true <-> exists b, l = pre ++ b) as Hp.
  { induction l as [|c l IH]; intros [|p pre]; cbn.
    - split; [by exists []|done].
    - split; [done|by intros [? ?]].
    - split; [by eexists|done].
    - rewrite andb_true_iff, Z.eqb_eq, IH. split; [intros [-> [b ->]]; by eexists|intros [b [= -> ->]]; by eauto]. }
  rewrite Hp. split; intros [b Hb].
  - exists (rev b). by rewrite <- (rev_involutive s), Hb, rev_app_distr, rev_involutive.
  - exists (rev b). rewrite Hb. by rewrite rev_app_distr.
Qed.

Lemma endpointPath_shape p : exists a, endpointPath p = a ++ messagesPath /\
  (exists n, p = a ++ replicate n 47 \/ p = a ++ messagesPath ++ replicate n 47).
Proof.
  unfold endpointPath. destruct (TrimRightSlash_shape p) as [n Hn]. destruct (HasSuffix _ _) eqn:E.
  - apply HasSuffix_shape in E as [a Ha]. exists a. split; [done|]. exists n. right. by rewrite Hn at 1; rewrite Ha, <- app_assoc.
  - exists (TrimRightSlash p). split; [done|]. exists n. by left.
Qed.

Lemma endpointPath_idempotent p : endpointPath (endpointPath p) = endpointPath p.
Proof.
  destruct (endpointPath_shape p) as (a & -> & _). unfold endpointPath.
  assert (TrimRightSlash (a ++ messagesPath) = a ++ messagesPath) as ->.
  { change messagesPath with (B "/v1/message" ++ [115]). rewrite app_assoc. by apply TrimRightSlash_last. }
  by rewrite (proj2 (HasSuffix_shape (a ++ messagesPath) messagesPath)) by by exists a.
Qed.

Lemma validBasePath_app a b : match a with [] => True | c :: _ => c = 47 end ->
  validBasePath (a ++ 47 :: b) = true <->
  basePathChars a = true /\ basePathChars b = true /\ forallb segmentOK (Split a 47) = true /\ forallb segmentOK (Split b 47) = true.
Proof.
  intros Ha. rewrite validBasePath_spec, basePathChars_app, Split_app, forallb_app, !andb_true_iff.
  destruct a as [|c a]; cbn [app]; tauto.
Qed.

(** A canonical path is valid when the path it is made of is. *)
Lemma endpointPath_valid p : validBasePath p = true -> validBasePath (endpointPath p) = true.
Proof.
  intros Hp. destruct (endpointPath_shape p) as (a & -> & n & Hsh).
  assert (match a with [] => True | c :: _ => c = 47 end) as Ha.
  { apply validBasePath_spec in Hp as [Hc _]. destruct a as [|c a]; [done|]. by destruct Hsh as [-> | ->]. }
  assert (basePathChars a = true /\ forallb segmentOK (Split a 47) = true) as [H1 H2].
  { destruct Hsh as [-> | ->].
    - destruct n as [|n]; [rewrite app_nil_r in Hp; apply validBasePath_spec in Hp; tauto|].
      cbn [replicate] in Hp. apply validBasePath_app in Hp; tauto.
    - change (messagesPath ++ replicate n 47) with (47 :: (B "v1/messages" ++ replicate n 47)) in Hp.
      apply validBasePath_app in Hp; tauto. }
  change messagesPath with (47 :: B "v1/messages"). apply validBasePath_app; [done|]. split_and!; done.
Qed.

(** The path comes back from [url.Parse] as it was written. *)
Lemma path_survives p scheme user host : validBasePath p = true ->
  exists d raw, setPath p = Some (d, raw) /\ EscapedPath (mkURL scheme [] user host d raw false [] []) = p.
Proof.
  intros (Hc & Hb & _)%validBasePath_spec. destruct (basePath_unescape p encodePath (or_introl eq_refl) Hb) as (d & Hd & Hs).
  unfold setPath. rewrite Hd. eexists _, _. split; [done|]. unfold EscapedPath. cbn [RawPath Path].
  destruct (p ==? escape d encodePath) eqn:E.
  - apply eqb_true_1 in E. cbn. rewrite E. destruct (d ==? B "*") eqn:Es; [|done]. exfalso. apply eqb_true_1 in Es as ->.
    by rewrite E in Hc.
  - assert (validEncoded p = true) as ->.
    { unfold validEncoded. eapply forallb_impl; [|by apply basePath_bytes]. unfold pathByte. by intros c [[? _]%andb_true_iff _]%andb_true_iff. }
    rewrite Hd, eqb_refl. destruct (p ==? []) eqn:Ep; [|done]. apply eqb_true_1 in Ep as ->. injection Hd as <-.
    by apply eqb_false_1 in E.
Qed.

(** ** Authorities *)

(** The authority that a host and a port make. *)
Definition joinAuthority (host port : bytes) (bracketed present : bool) : bytes :=
  (if bracketed then [91] ++ host ++ [93] else host) ++ (if present then 58 :: port else []).

Lemma splitAuthority_shape authority host port bracketed present :
  splitAuthority authority = Some (host, port, bracketed, present) ->
  authority = joinAuthority host port bracketed present /\ host <> [] /\ (present = false -> port = []).
Proof.
  unfold splitAuthority, joinAuthority. destruct (HasPrefix authority (B "[")) eqn:Ep.
  - destruct authority as [|c authority]; [done|]. change (B "[") with [91] in Ep. cbn in Ep.
    destruct (Z.eqb_spec c 91) as [->|]; [|done]. pose proof (Cut_shape (91 :: authority) 93) as Hs.
    destruct (Cut (91 :: authority) 93) as [[before rest] found]. destruct Hs as [Hn Hs]. destruct found; [|done].
    destruct before as [|x before]; [by injection Hs|]. injection Hs as <- ->. cbn [drop negb]. rewrite drop_0. destruct rest as [|y p].
    + destruct (before ==? []) eqn:Eh; [done|]. intros [= <- <- <- <-]. apply eqb_false_1 in Eh. split_and!; [|done..]. by rewrite app_nil_r.
    + destruct (Z.eqb_spec y 58) as [->|]; [|done]. cbn [negb orb]. destruct (before ==? []) eqn:Eh; [done|].
      intros [= <- <- <- <-]. apply eqb_false_1 in Eh. split_and!; [by norm_app|done|done].
  - destruct (1 <? Count authority 58); [done|]. pose proof (Cut_shape authority 58) as Hs.
    destruct (Cut authority 58) as [[h p] found]. destruct Hs as [Hn Hs]. destruct (h ==? []) eqn:Eh; [done|].
    intros [= <- <- <- <-]. apply eqb_false_1 in Eh. destruct found; [by split_and!|]. destruct Hs as [-> ->]. by rewrite app_nil_r.
Qed.

Definition nameChar (c : Z) : bool := isAlnum c || (c =? 45) || (c =? 46).

Lemma nameChar_host c : nameChar c = true -> hostChar c = true.
Proof.
  unfold nameChar, hostChar. intros [[->|H]%orb_true_iff|H]%orb_true_iff; [done|zbool; by subst..].
Qed.

Lemma validHost_chars scheme host bracketed : validHost scheme host bracketed = true ->
  if bracketed then forallb addrChar host = true else forallb nameChar host = true.
Proof.
  unfold validHost. destruct bracketed.
  - destruct (ParseAddr host) as [a|] eqn:Ea; [|done]. destruct (_ || _) eqn:E; [done|]. intros _. destruct_bools.
    destruct a as [o|g z]; [done|]. match goal with H : Zone _ = [] |- _ => cbn in H; subst z end.
    unfold ParseAddr in Ea. destruct (addrKind host) as [k|]; [|done].
    destruct (decide (k = 46)) as [->|]; [by destruct (parseIPv4 host)|]. destruct (decide (k = 58)) as [->|].
    + by eapply parseIPv6_chars.
    + destruct k as [|q|q]; try done. by do 6 (destruct q as [q|q|]; try done).
  - destruct (ParseAddr host) as [a|] eqn:Ea.
    + destruct (_ || _) eqn:E; [done|]. intros _. destruct_bools. destruct a as [o|g z]; [|done].
      unfold ParseAddr in Ea. destruct (addrKind host) as [k|]; [|done].
      assert (parseIPv4 host = Some o \/ parseIPv6 host = Some (Addr4 o)) as [H4|H6].
      { destruct k as [|q|q]; try done. do 6 (destruct q as [q|q|]; try done); first [by right|left; destruct (parseIPv4 host); congruence]. }
      * eapply forallb_impl; [|by eapply parseIPv4_chars]. intros c [Hc|Hc]%orb_true_iff; unfold nameChar, isAlnum.
        -- unfold isDigit in Hc. by rewrite Hc, orb_true_r.
        -- by rewrite Hc, orb_true_r.
      * exfalso. revert H6. unfold parseIPv6. destruct (Cut host 37) as [[s z] found]. destruct (_ && _); [done|].
        destruct (_ && _); [done|]. destruct (parseGroups _ _ _ _) as [[gs e]|]; [|done]. destruct (_ <? _)%nat, e; done.
    + destruct (scheme ==? B "http").
      { intros H%eqb_true_1. by subst host. }
      destruct (forallb _ host); [done|]. unfold validDNSName. destruct (_ || _); [done|]. intros Hl.
      assert (forallb (forallb (fun c => isAlnum c || (c =? 45))) (Split host 46) = true) as Hc.
      { eapply forallb_impl; [|exact Hl]. intros l. unfold validLabel. destruct l; [done|]. by intros [_ ?]%andb_true_iff. }
      apply Split_chars in Hc. exact Hc.
Qed.

Lemma validPort_digits port present : validPort port present = true -> present = true -> forallb isDigit port = true.
Proof.
  unfold validPort. intros H ->. cbn [negb] in H. destruct port as [|c r]; [done|]. destruct (_ && _); [done|].
  by destruct (forallb isDigit (c :: r)).
Qed.

Lemma isDigit_host c : isDigit c = true -> hostChar c = true.
Proof. intros H. unfold hostChar, isAlnum. unfold isDigit in H. by rewrite H, orb_true_r. Qed.

(** A valid authority is read back by [url.Parse] as it was written. *)
Lemma authority_survives scheme authority host port bracketed present :
  splitAuthority authority = Some (host, port, bracketed, present) -> validPort port present = true ->
  validHost scheme host bracketed = true ->
  forallb hostChar authority = true /\ parseAuthority authority = Some (false, authority).
Proof.
  intros Hs Hp Hh. destruct (splitAuthority_shape _ _ _ _ _ Hs) as (Ha & Hne & _).
  pose proof (validHost_chars _ _ _ Hh) as Hc.
  assert (forallb hostChar (if present then 58 :: port else []) = true /\
          validOptionalPort (if present then 58 :: port else []) = true /\ (93 ∉ (if present then 58 :: port else []))) as (Ht & Hv & Hn).
  { destruct present; [|split_and!; [done..|apply not_elem_of_nil]]. pose proof (validPort_digits _ _ Hp eq_refl) as Hd. cbn. split_and!; [|done|].
    - eapply forallb_impl; [|exact Hd]. apply isDigit_host.
    - apply (forallb_not_elem (fun c => isDigit c || (c =? 58))); [|done]. cbn. eapply forallb_impl; [|exact Hd]. by intros c ->. }
  assert (forallb hostChar authority = true) as Hall.
  { rewrite Ha. unfold joinAuthority. rewrite forallb_app, Ht, andb_true_r. destruct bracketed.
    - rewrite !forallb_app. change (forallb hostChar [91]) with true. change (forallb hostChar [93]) with true.
      rewrite andb_true_r. eapply forallb_impl; [|exact Hc]. apply addrChar_host.
    - eapply forallb_impl; [|exact Hc]. apply nameChar_host. }
  split; [done|]. unfold parseAuthority.
  rewrite LastCut_none by by apply (forallb_not_elem hostChar). assert (parseHost authority = Some authority) as ->; [|done].
  pose proof (unescape_host _ Hall) as Hu. unfold parseHost. destruct bracketed.
  - assert (HasPrefix authority (B "[") = true) as ->. { rewrite Ha. cbn. by destruct host, port. }
    assert (LastCut authority 93 = Some (91 :: host, if present then 58 :: port else [])) as ->.
    { rewrite Ha. unfold joinAuthority. rewrite <- !app_assoc. cbn [app]. by apply (LastCut_found (91 :: host)). }
    rewrite Hv. cbn [negb]. assert (IndexCut (91 :: host) (B "%25") = None) as ->; [|done].
    change (B "%25") with [37; 50; 53]. assert (forall l, (37 ∉ l) -> IndexCut l [37; 50; 53] = None) as Hi.
    { induction l as [|c l IH]; [done|]. intros [Hx Hl]%not_elem_of_cons. cbn. destruct (Z.eqb_spec c 37); [done|]. cbn. by rewrite IH. }
    apply Hi. rewrite elem_of_cons. intros [?|Hin]; [done|]. revert Hin. by apply (forallb_not_elem addrChar).
  - assert (HasPrefix authority (B "[") = false) as ->.
    { rewrite Ha. unfold joinAuthority. destruct host as [|c host]; [done|]. change (B "[") with [91]. cbn in Hc |- *.
      destruct (Z.eqb_spec c 91) as [->|]; done. }
    assert (58 ∉ host) as H58 by by apply (forallb_not_elem nameChar).
    rewrite Ha in *. unfold joinAuthority in *. destruct present.
    + rewrite (LastCut_found host 58 port). 2:{ apply (forallb_not_elem isDigit); [by eapply validPort_digits|done]. }
      by rewrite (validPort_digits _ _ Hp eq_refl).
    + rewrite app_nil_r in *. by rewrite LastCut_none.
Qed.

(** ** Canonical endpoints *)

(** What a base URI must be, and the endpoint it stands for. *)
Definition endpointParts (scheme authority path raw endpoint : bytes) : Prop :=
  (scheme = B "http" \/ scheme = B "https") /\ raw = scheme ++ B "://" ++ authority ++ path /\
  (exists host port bracketed present, splitAuthority authority = Some (host, port, bracketed, present) /\
     validPort port present = true /\ validHost scheme host bracketed = true) /\
  validBasePath path = true /\ len raw <= 2048 /\ len authority <= 512 /\ len path <= 1536 /\
  len (endpointPath path) <= 2048 /\ endpoint = scheme ++ B "://" ++ authority ++ endpointPath path.

(** [url.Parse] on the parts of an endpoint. *)
Lemma Parse_endpoint scheme authority path :
  scheme = B "http" \/ scheme = B "https" ->
  (exists host port bracketed present, splitAuthority authority = Some (host, port, bracketed, present) /\
     validPort port present = true /\ validHost scheme host bracketed = true) ->
  validBasePath path = true ->
  exists d raw, Parse (scheme ++ B "://" ++ authority ++ path) = Some (mkURL scheme [] false authority d raw false [] []) /\
    EscapedPath (mkURL scheme [] false authority d raw false [] []) = path /\ forallb hostChar authority = true /\ authority <> [].
Proof.
  intros Hs (host & port & br & pr & Hsp & Hp & Hh) Hb. destruct (authority_survives _ _ _ _ _ _ Hsp Hp Hh) as [Hc Ha].
  pose proof (splitAuthority_shape _ _ _ _ _ Hsp) as (Hj & Hne & _).
  assert (authority <> []) as Hnil. { rewrite Hj. unfold joinAuthority. destruct br; [done|]. by destruct host. }
  destruct (path_survives path scheme false authority Hb) as (d & raw & Hset & Hesc). exists d, raw. split_and!; [|done..].
  pose proof Hb as (Hsl & Hch & _)%validBasePath_spec.
  rewrite Parse_plain; [unfold parsedAs; by rewrite Ha, Hset|done| |by apply (forallb_not_elem hostChar)|done].
  intros c [Hin|Hin]%elem_of_app.
  - pose proof (forallb_elem _ _ _ Hc Hin) as (_ & Hx)%hostChar_plain. lia.
  - pose proof (forallb_elem _ _ _ (basePath_bytes _ Hch) Hin) as Hx. unfold pathByte in Hx. cbn [forallb] in Hx. destruct_bools.
    unfold between in *. destruct_bools. zbool. lia.
Qed.

(** Characters of an endpoint. *)
Lemma endpoint_printable scheme authority path : scheme = B "http" \/ scheme = B "https" ->
  forallb hostChar authority = true -> basePathChars path = true ->
  printableASCII (scheme ++ B "://" ++ authority ++ path) = true /\
  existsb (ContainsByte (scheme ++ B "://" ++ authority ++ path)) [92; 63; 35] = false.
Proof.
  intros Hs Ha Hp%basePath_bytes.
  assert (forallb (fun c => between 33 c 126 && forallb (fun x => negb (c =? x)) [92; 63; 35]) (scheme ++ B "://" ++ authority ++ path) = true) as Hf.
  { rewrite !forallb_app. assert (forall l, l = scheme \/ l = B "://" -> forallb (fun c => between 33 c 126 && forallb (fun x => negb (c =? x)) [92; 63; 35]) l = true) as Hl.
    { intros l [-> | ->]; [destruct Hs as [-> | ->]|]; by vm_compute. }
    rewrite !Hl by auto. cbn [andb]. apply andb_true_iff. split.
    - eapply forallb_impl; [|exact Ha]. intros c (_ & H)%hostChar_plain. cbn [forallb]. unfold between. rewrite !andb_true_iff, !negb_true_iff, !Z.eqb_neq, !Z.leb_le. tauto.
    - eapply forallb_impl; [|exact Hp]. unfold pathByte. intros c [[_ H1]%andb_true_iff H2]%andb_true_iff. by rewrite H1, H2. }
  split.
  - eapply forallb_impl; [|exact Hf]. by intros c [? _]%andb_true_iff.
  - apply not_true_iff_false. rewrite existsb_exists. intros (x & Hx & Hc). unfold ContainsByte in Hc.
    apply existsb_exists in Hc as (c & Hin%list_elem_of_In & ->%Z.eqb_eq). pose proof (forallb_elem _ _ _ Hf Hin) as [_ H]%andb_true_iff.
    rewrite forallb_forall in H. apply H in Hx. by rewrite Z.eqb_refl in Hx.
Qed.

Lemma canonicalEndpoint_complete scheme authority path raw endpoint :
  endpointParts scheme authority path raw endpoint -> canonicalEndpoint raw = Some endpoint.
Proof.
  intros (Hs & -> & Hau & Hb & Hl1 & Hl2 & Hl3 & Hl4 & ->). pose proof Hau as (host & port & br & pr & Hsp & Hp & Hh).
  destruct (Parse_endpoint _ _ _ Hs Hau Hb) as (d & raw & HP & HE & Hc & Hne).
  pose proof Hb as (Hsl & Hch & _)%validBasePath_spec. destruct (endpoint_printable _ _ _ Hs Hc Hch) as [H1 H2].
  unfold canonicalEndpoint. rewrite H1, H2, HP. rewrite (proj2 (Z.ltb_ge _ _) Hl1).
  assert ((scheme ++ B "://" ++ authority ++ path ==? []) = false) as -> by (by destruct Hs as [-> | ->]).
  assert (negb (HasPrefix (scheme ++ B "://" ++ authority ++ path) (B "https://")) &&
          negb (HasPrefix (scheme ++ B "://" ++ authority ++ path) (B "http://")) = false) as ->.
  { destruct Hs as [-> | ->]; destruct authority; try done; by rewrite ?andb_false_r. }
  cbn [negb orb andb Opaque User Host RawQuery Fragment Scheme].
  assert (URL_String (mkURL scheme [] false authority d raw false [] []) = scheme ++ B "://" ++ authority ++ path) as ->.
  { unfold URL_String. rewrite HE. cbn [Scheme Host ForceQuery RawQuery Fragment]. rewrite (escape_host _ Hc). cbn. rewrite !app_nil_r.
    destruct path as [|c p]; [done|]. by subst c. }
  rewrite !eqb_refl. assert ((authority ==? []) = false) as -> by by apply eqb_false. cbn [negb orb].
  rewrite (proj2 (Z.ltb_ge _ _) Hl2), Hsp, Hp, Hh. cbn [negb orb]. rewrite HE, (proj2 (Z.ltb_ge _ _) Hl3), Hb. cbn [negb orb].
  rewrite (proj2 (Z.ltb_ge _ _) Hl4). cbn [orb]. rewrite (proj2 (Z.ltb_ge 4096 _)); [done|].
  rewrite !len_app. assert (len scheme <= 5) by (by destruct Hs as [-> | ->]; vm_compute). change (len (B "://")) with 3. lia.
Qed.

(** [url.Parse] on a text that starts with a scheme and has neither query nor fragment. *)
Lemma Parse_scheme raw u : printableASCII raw = true -> existsb (ContainsByte raw) [92; 63; 35] = false ->
  negb (HasPrefix raw (B "https://")) && negb (HasPrefix raw (B "http://")) = false -> Parse raw = Some u ->
  (Scheme u = B "http" \/ Scheme u = B "https") /\ Opaque u = [] /\ ForceQuery u = false /\ RawQuery u = [] /\ Fragment u = [].
Proof.
  intros Hp He Hs HP.
  assert (exists scheme r, (scheme = B "http" \/ scheme = B "https") /\ raw = scheme ++ B "://" ++ r) as (scheme & r & Hsc & ->).
  { assert (forall pre, HasPrefix raw pre = true -> exists b, raw = pre ++ b) as Hpre.
    { intros pre H. assert (HasSuffix (rev raw) (rev pre) = true) as Hx by (unfold HasSuffix; by rewrite !rev_involutive).
      apply HasSuffix_shape in Hx as [a Ha]. exists (rev a). by rewrite <- (rev_involutive raw), Ha, rev_app_distr, rev_involutive. }
    apply andb_false_iff in Hs as [[b Hb]%negb_false_iff%Hpre|[b Hb]%negb_false_iff%Hpre]; [exists (B "https"), b|exists (B "http"), b]; auto. }
  pose proof (Cut_shape r 47) as Hc. destruct (Cut r 47) as [[a b] found]. destruct Hc as [Ha Hr].
  assert (r = a ++ (if found then 47 :: b else [])) as ->. { destruct found; [done|]. destruct Hr as [-> ->]. by rewrite app_nil_r. }
  rewrite Parse_plain in HP; [|done| |done|by destruct found].
  - unfold parsedAs in HP. destruct (parseAuthority a) as [[user host]|]; [|done]. destruct (setPath _) as [[p rw]|]; [|done].
    injection HP as <-. by split_and!.
  - intros c Hin. assert (c ∈ scheme ++ B "://" ++ a ++ (if found then 47 :: b else [])) as Hin' by (rewrite !elem_of_app in *; tauto).
    pose proof (forallb_elem _ _ _ Hp Hin') as Hx. unfold between in Hx. cbn [existsb] in He. rewrite !orb_false_iff in He.
    destruct He as (_ & H63 & H35 & _). assert (c <> 63 /\ c <> 35) as [? ?]; [|zlia].
    split; intros ->; [revert H63|revert H35]; rewrite <- not_true_iff_false; unfold ContainsByte; rewrite existsb_exists; intros H; apply H;
      eexists; (split; [by apply list_elem_of_In|done]).
Qed.

Lemma canonicalEndpoint_sound raw endpoint : canonicalEndpoint raw = Some endpoint ->
  exists scheme authority path, endpointParts scheme authority path raw endpoint.
Proof.
  unfold canonicalEndpoint. destruct (_ || _ || _ || _) eqn:E0; [done|]. destruct (negb _ && negb _) eqn:E1; [done|].
  apply orb_false_iff in E0 as [[[_ E0]%orb_false_iff Ea%negb_false_iff]%orb_false_iff Eb].
  destruct (Parse raw) as [u|] eqn:EP; [|done]. destruct (Parse_scheme _ _ Ea Eb E1 EP) as (Hs & Ho & Hf & Hq & Hg).
  destruct (_ || _ || _ || _ || _ || _) eqn:E2; [done|]. do 5 apply orb_false_iff in E2 as [E2 _]. apply negb_false_iff, eqb_true_1 in E2.
  destruct (512 <? len (Host u)) eqn:E3; [done|]. destruct (splitAuthority (Host u)) as [[[[host port] br] pr]|] eqn:Es; [|done].
  destruct (negb (validPort port pr) || negb _) eqn:E4; [done|]. cbv zeta.
  destruct ((1536 <? _) || _) eqn:E5; [done|]. destruct ((2048 <? _) || (4096 <? _)) eqn:E6; [done|].
  intros Heq. injection Heq as <-. destruct_bools. zbool. exists (Scheme u), (Host u), (EscapedPath u).
  destruct (authority_survives (Scheme u) (Host u) host port br pr) as [Hc _]; [done..|].
  split_and!; try done; [|by exists host, port, br, pr].
  rewrite <- E2 at 1. unfold URL_String. rewrite (escape_host _ Hc), Hf, Hq, Hg. cbn. rewrite !app_nil_r.
  assert (validBasePath (EscapedPath u) = true) as (Hsl & _)%validBasePath_spec by done.
  destruct (EscapedPath u) as [|c p]; [done|]. by subst c.
Qed.

(** A host that stays on the machine. *)
Definition loopback (host : bytes) (bracketed : bool) : Prop :=
  if bracketed then host = B "::1"
  else host = B "localhost" \/ exists o, ParseAddr host = Some (Addr4 (127 :: o)).

(** Plain HTTP is only spoken to the machine itself. *)
Lemma http_host_is_loopback host bracketed : validHost (B "http") host bracketed = true -> loopback host bracketed.
Proof.
  unfold validHost, loopback. destruct bracketed.
  - destruct (ParseAddr host) as [a|]; [|done]. destruct (_ || _); [done|]. change (B "http" ==? B "http") with true. cbn iota.
    by intros H%eqb_true_1.
  - destruct (ParseAddr host) as [a|].
    + destruct (_ || _); [done|]. change (B "http" ==? B "https") with false. cbn [orb]. destruct a as [[|o l]|]; try done.
      intros ->%Z.eqb_eq. right. by eexists.
    + change (B "http" ==? B "http") with true. cbn iota. intros H%eqb_true_1. by left.
Qed.

(** An endpoint is its own canonical form. *)
Lemma endpointParts_again scheme authority path raw endpoint : endpointParts scheme authority path raw endpoint ->
  len endpoint <= 1536 -> endpointParts scheme authority (endpointPath path) endpoint endpoint.
Proof.
  intros (Hs & -> & Ha & Hb & _ & Hl2 & _ & Hl4 & He) Hl. unfold endpointParts. rewrite endpointPath_idempotent.
  assert (len (endpointPath path) <= len endpoint).
  { rewrite He, !len_app. pose proof (len_nonneg scheme). pose proof (len_nonneg authority). pose proof (len_nonneg (B "://")). lia. }
  split_and!; try done; [by apply endpointPath_valid|lia|lia].
Qed.

(** An accepted endpoint that uses plain HTTP names the loopback host, as
    localhost, an address of 127.0.0.0/8 or [::1]. *)
Theorem plain_http_stays_local raw endpoint :
  canonicalEndpoint raw = Some endpoint -> HasPrefix endpoint (B "http://") = true ->
  exists authority path host port bracketed present, endpoint = B "http://" ++ authority ++ path /\
    splitAuthority authority = Some (host, port, bracketed, present) /\ loopback host bracketed.
Proof.
  intros (scheme & authority & path & Hs & _ & (host & port & br & pr & Hsp & _ & Hh) & _ & _ & _ & _ & _ & ->)%canonicalEndpoint_sound Hp.
  destruct Hs as [-> | ->]; [|by destruct authority].
  exists authority, (endpointPath path), host, port, br, pr. split_and!; [done..|]. by apply http_host_is_loopback.
Qed.

(** An endpoint is its own canonical form, so a configured endpoint can be given again
    as a base URI. *)
Theorem canonicalEndpoint_idempotent raw endpoint :
  canonicalEndpoint raw = Some endpoint -> len endpoint <= 1536 -> canonicalEndpoint endpoint = Some endpoint.
Proof.
  intros (scheme & authority & path & H)%canonicalEndpoint_sound Hl. eapply canonicalEndpoint_complete.
  by eapply endpointParts_again.
Qed.

(** ** Snapshots *)

(** The limits that a snapshot keeps. *)
Record validOperation (c : runtimeConfig) : Prop := {
  vo_endpoint : exists raw, canonicalEndpoint raw = Some (endpoint c);
  vo_key : apiKey c = [] \/ validCredential (apiKey c) = true;
  vo_durations : Forall (fun d => validConfiguredDuration d = true)
    [connectTimeout c; attemptTimeout c; retryBaseDelay c; retryMaxDelay c];
  vo_attempts : 1 <= maxAttempts c <= 10;
  vo_suffix : userAgentSuffix c = [] \/ validUserAgentSuffix (userAgentSuffix c) = true
}.
Record validTransport (t : HTTPTransportOptions) : Prop := {
  vt_connections : exists n, MaxConnectionsPerOrigin t = Some n /\ 1 <= n <= 65536;
  vt_durations : exists a b, ConnectionLifetime t = Some a /\ ConnectionIdleTimeout t = Some b /\
    validConfiguredDuration a = true /\ validConfiguredDuration b = true;
  vt_http2 : exists b, HTTP2 t = Some b;
  vt_tls : forall o, TLS t = Some o -> (MinVersion o = VersionTLS12 \/ MinVersion o = VersionTLS13) /\
    (MaxVersion o = 0 \/ MinVersion o <= MaxVersion o <= VersionTLS13) /\ CACertificatesPEM o <> Some [];
  vt_proxy : forall o, Proxy t = Some o -> exists u, Parse (Proxy_URL o) = Some u /\ Scheme u = B "http" /\ Host u <> [] /\ User u = false
}.

Lemma resolveDuration_valid o target key d : validConfiguredDuration target = true ->
  resolveDuration o target key = Ok d -> validConfiguredDuration d = true.
Proof. unfold resolveDuration. destruct o as [v|]; [destruct (validConfiguredDuration v) eqn:E|]; congruence. Qed.
Lemma resolveInt_range o target lo hi key d : lo <= target <= hi -> resolveInt o target lo hi key = Ok d -> lo <= d <= hi.
Proof. unfold resolveInt. destruct o as [v|]; [destruct (_ || _) eqn:E|]; intros H [= <-]; zlia. Qed.

Lemma snapshotTLS_valid t o : snapshotTLS t = Ok o ->
  (MinVersion o = VersionTLS12 \/ MinVersion o = VersionTLS13) /\
  (MaxVersion o = 0 \/ MinVersion o <= MaxVersion o <= VersionTLS13) /\ CACertificatesPEM o <> Some [].
Proof.
  unfold snapshotTLS. set (m := if MinVersion t =? 0 then _ else _).
  assert (m <> 0) as Hm by (unfold m, VersionTLS12; destruct (Z.eqb_spec (MinVersion t) 0); lia).
  destruct (_ || _ || _) eqn:E; [done|]. destruct (match CACertificatesPEM t with Some [] => true | _ => false end) eqn:Ec; [done|].
  set (b := match TLS_ClientCertificate t with Some c => _ | None => _ end). destruct b; [done|]. intros [= <-]. cbn. unfold supportedTLSVersion in E.
  apply orb_false_iff in E as [[E1%negb_false_iff E2%negb_false_iff]%orb_false_iff E3].
  rewrite !orb_true_iff, !Z.eqb_eq in E1, E2. unfold VersionTLS12, VersionTLS13 in *. split_and!; [lia| |by intros Hx; rewrite Hx in Ec].
  destruct (Z.eqb_spec (MaxVersion t) 0); [by left|]. cbn in E3. zlia.
Qed.

Lemma snapshotProxy_valid p o : snapshotProxy p = Ok o ->
  exists u, Parse (Proxy_URL o) = Some u /\ Scheme u = B "http" /\ Host u <> [] /\ User u = false.
Proof.
  unfold snapshotProxy. destruct (Parse (Proxy_URL p)) as [u|] eqn:E; [|done]. destruct (_ || _) eqn:Eb; [done|].
  intros [= <-]. destruct_bools. by exists u.
Qed.

Lemma optionally_some {A} (f : A -> result Error A) o r x : optionally f o = Ok r -> r = Some x -> exists a, f a = Ok x.
Proof.
  unfold optionally. intros Ho ->. destruct o as [a|]; [|done]. exists a. destruct (f a); congruence.
Qed.

Lemma snapshotHTTPTransportOptions_valid input t : snapshotHTTPTransportOptions input = Ok t -> validTransport t.
Proof.
  unfold snapshotHTTPTransportOptions. set (n := default _ (MaxConnectionsPerOrigin input)).
  set (l := default _ (ConnectionLifetime input)). set (i := default _ (ConnectionIdleTimeout input)).
  destruct (_ || _) eqn:En; [done|]. destruct (validConfiguredDuration l) eqn:El; [|done].
  destruct (validConfiguredDuration i) eqn:Ei; [|done]. cbn [negb].
  intros (tls & Ht & (proxy & Hp & [= <-])%bind_ok)%bind_ok. split; cbn.
  - exists n. split; [done|zlia].
  - by exists l, i.
  - by eexists.
  - intros o Ho. destruct (optionally_some _ _ _ _ Ht Ho) as [a Ha]. by eapply snapshotTLS_valid.
  - intros o Ho. destruct (optionally_some _ _ _ _ Hp Ho) as [a Ha]. by eapply snapshotProxy_valid.
Qed.

Lemma resolveCredential_valid getenv options key : resolveCredential getenv options = Ok key ->
  key = [] \/ validCredential key = true.
Proof.
  unfold resolveCredential. destruct (APIKeyProviderSet options); [by intros [= <-]; left|].
  destruct (lookupCredential getenv options) as [k|]; [|by intros [= <-]; left].
  destruct (validCredential k) eqn:E; [|done]. intros [= <-]. by right.
Qed.
Lemma resolveEndpoint_valid getenv options e : resolveEndpoint getenv options = Ok e -> exists raw, canonicalEndpoint raw = Some e.
Proof.
  unfold resolveEndpoint. set (b := if APIURL options ==? [] then _ else _). destruct (baseURIPortIssue b); [done|].
  destruct (canonicalEndpoint b) as [x|] eqn:E; [|done]. intros [= <-]. by exists b.
Qed.
Lemma reject_ok c e u : reject c e = Ok u -> c = false.
Proof. unfold reject. by destruct c. Qed.

Lemma snapshotConfig_valid getenv options c : snapshotConfig getenv options = Ok c ->
  validOperation (operation c) /\ validConfiguredDuration (operationTimeout c) = true /\
  1 <= maxInFlightOperations c <= 65536 /\ 4194304 <= maxBufferedBytes c <= 1073741824 /\ validTransport (httpTransportOptions c).
Proof.
  unfold snapshotConfig. intros H. apply bind_ok in H as (_ & _ & H). apply bind_ok in H as (_ & _ & H).
  apply bind_ok in H as (http & Hhttp & H). apply bind_ok in H as (key & Hkey & H). apply bind_ok in H as (e & He & H).
  apply bind_ok in H as (d1 & H1 & H). apply bind_ok in H as (d2 & H2 & H). apply bind_ok in H as (d3 & H3 & H).
  apply bind_ok in H as (n & Hn & H). apply bind_ok in H as (d4 & H4 & H). apply bind_ok in H as (d5 & H5 & H).
  apply bind_ok in H as (_ & _ & H). apply bind_ok in H as (m & Hm & H). apply bind_ok in H as (b & Hb & H).
  apply bind_ok in H as (? & Hu%reject_ok & [= <-]). cbn.
  apply resolveDuration_valid in H1, H2, H3, H4, H5; [|reflexivity..].
  apply resolveInt_range in Hn, Hm, Hb; try (unfold defaultMaxAttempts, defaultMaxInFlightOperations, defaultMaxBufferedBytes; lia).
  split_and!; try done; try lia; [|by eapply snapshotHTTPTransportOptions_valid]. split; cbn; [by eapply resolveEndpoint_valid| |by repeat constructor|done|].
  - by eapply resolveCredential_valid.
  - destruct (UserAgentSuffix options) as [v|]; cbn; [right|by left]. by apply negb_false_iff in Hu.
Qed.

Lemma validDuration_positive d : validConfiguredDuration d = true -> 0 < d <= MaxInt64.
Proof. unfold validConfiguredDuration, maximumConfiguredDuration, millisecond, MaxInt64. zlia. Qed.

(** A configuration that the snapshot accepts keeps every limit in its
    documented range, the runtime state made from it admits a first operation, and
    every send under it returns along the retry protocol. *)
Theorem configured_runtime_works {K : Codec} getenv options c : snapshotConfig getenv options = Ok c ->
  (validOperation (operation c) /\ validConfiguredDuration (operationTimeout c) = true /\
   1 <= maxInFlightOperations c <= 65536 /\ 4194304 <= maxBufferedBytes c <= 1073741824 /\ validTransport (httpTransportOptions c)) /\
  (forall started until, exists s p,
     admitOperation (newRuntimeState (maxInFlightOperations c) (maxBufferedBytes c) (operationTimeout c)) false (Some started) until = (s, Ok p)) /\
  (forall E, (forall t t', (t <= t')%nat -> deadlineErr E t = true -> deadlineErr E t' = true) ->
   forall id schema group member inp w, ~ overflows schema group member inp -> exists r w' evs,
     sendAdmitted E (operation c) id schema group member inp w = (inr r, w') /\ trace w' = trace w ++ evs /\
     returned E (operation c) id schema group member inp evs r).
Proof.
  intros Hc. apply snapshotConfig_valid in Hc as (Ho & Ht & Hf & Hb & Hv). split; [done|]. split.
  - intros started until. unfold admitOperation, newRuntimeState. cbn.
    destruct (Z.leb_spec (maxInFlightOperations c) 0); [lia|]. unfold initialOperationReservationBytes, requestWorkspaceBytes, responseWorkspaceBytes, parserScratchBytes.
    match goal with |- context [?a <? 0] => destruct (Z.ltb_spec a 0); [lia|] end. by eexists _, _.
  - intros E sticky id schema group member inp w Hends. pose proof (vo_durations _ Ho) as Hd. decompose_Forall_hyps.
    repeat match goal with H : validConfiguredDuration _ = true |- _ => apply validDuration_positive in H end.
    pose proof (vo_attempts _ Ho) as Ha.
    pose proof (sendAdmitted_serves E (operation c) sticky ltac:(lia) ltac:(lia) id schema group member inp w) as Hs.
    unfold wp in Hs. destruct (sendAdmitted _ _ _ _ _ _ _ w) as [[a|r] w']; [done|]. destruct Hs as (evs & Htr & [Hs|(_ & _ & ?)]); [|done].
    by exists r, w', evs.
Qed.

(** The base of the retry delay may exceed its maximum: the two are compared only when
    both are given.  The back-off still stays below the maximum, because it is capped. *)
Lemma retry_base_may_exceed_maximum : exists options c,
  snapshotConfig (fun _ => None) options = Ok c /\ retryMaxDelay (operation c) < retryBaseDelay (operation c).
Proof.
  exists (mkOptions [] false false [] false None None None None None (Some (120 * second)) None None None None false).
  eexists. split; [vm_compute; reflexivity|]. reflexivity.
Qed.

(** ** Witnesses *)
Module Demo.
Definition options : ClientOptions :=
  mkOptions (B "secret") false false (B "http://127.0.0.1:8080/base//") false None (Some second) None None (Some 3) None None None None
    (Some (B "shop/1.0")) false.
Definition base : bytes := B "http://127.0.0.1:8080/base//".
Definition canonical : bytes := B "http://127.0.0.1:8080/base/v1/messages".

Lemma plain_http_stays_local_witness :
  canonicalEndpoint base = Some canonical /\ HasPrefix canonical (B "http://") = true /\
  exists host bracketed, loopback host bracketed.
Proof.
  assert (canonicalEndpoint base = Some canonical) as Hc by (vm_compute; reflexivity).
  assert (HasPrefix canonical (B "http://") = true) as Hp by (vm_compute; reflexivity).
  split_and!; [exact Hc|exact Hp|].
  destruct (plain_http_stays_local base canonical Hc Hp) as (a & p & h & po & br & pr & _ & _ & Hl). by exists h, br.
Defined.

Lemma canonicalEndpoint_idempotent_witness : canonicalEndpoint canonical = Some canonical.
Proof. apply (canonicalEndpoint_idempotent base); [vm_compute; reflexivity|vm_compute; discriminate]. Defined.

Lemma configured_runtime_works_witness :
  exists c, snapshotConfig (fun _ => None) options = Ok c /\ maxAttempts (operation c) = 3 /\ validOperation (operation c).
Proof.
  assert (exists c, snapshotConfig (fun _ => None) options = Ok c /\ maxAttempts (operation c) = 3) as (c & Hc & Hm).
  { eexists. split; [vm_compute; reflexivity|reflexivity]. }
  exists c. split_and!; [exact Hc|exact Hm|].
  destruct (@configured_runtime_works Operation.Demo.codec (fun _ => None) options c Hc) as [[Hv _] _]. exact Hv.
Defined.
End Demo.
