(* ===== verification/Endpoint.v ===== *)
(** * The grammar of base URIs (config.go, [canonicalEndpoint])

    What a base URI is and which endpoint it stands for, as a grammar that does not
    mention the functions of the program, and the theorem that [canonicalEndpoint]
    accepts exactly that grammar.  Addresses are those of the package netip. *)
From S2P Require Import Prelude GoText GoURL Config.

(** ** The grammar *)

Definition digit (c : Z) : Prop := 48 <= c <= 57.
Definition letter (c : Z) : Prop := 65 <= c <= 90 \/ 97 <= c <= 122.

(** Texts joined by dots. *)
Fixpoint dotted (texts : list bytes) : bytes :=
  match texts with
  | [] => []
  | [t] => t
  | t :: ts => t ++ 46 :: dotted ts
  end.

(** A name of labels of letters, digits and inner hyphens, of at most 253 bytes, that
    could not be mistaken for an address. *)
Definition label (l : bytes) : Prop :=
  1 <= len l <= 63 /\ Forall (fun c => letter c \/ digit c \/ c = 45) l /\ head l <> Some 45 /\ last l <> Some 45.
Definition dnsName (host : bytes) : Prop :=
  exists labels, labels <> [] /\ Forall label labels /\ host = dotted labels /\ len host <= 253 /\
    Exists (fun c => ~ digit c /\ c <> 46) host.

(** Four numbers up to 255 in plain decimal notation. *)
Definition ipv4 (octets : list Z) (host : bytes) : Prop :=
  length octets = 4%nat /\ Forall (fun o => 0 <= o <= 255) octets /\ host = dotted (map Itoa octets).
(** The canonical text of an IPv6 address without a zone that is not an IPv4 address. *)
Definition ipv6 (groups : list Z) (host : bytes) : Prop :=
  ParseAddr host = Some (Addr6 groups []) /\ Addr_String (Addr6 groups []) = host /\
  ~ (take 5 groups = [0; 0; 0; 0; 0] /\ nth 5 groups 0 = 65535).

(** Plain http only reaches the machine itself. *)
Inductive plainHost : bytes -> bytes -> Prop :=
| host_name host : dnsName host -> plainHost (B "https") host
| host_localhost : plainHost (B "http") (B "localhost")
| host_ipv4 scheme octets host : ipv4 octets host -> scheme = B "https" \/ head octets = Some 127 -> plainHost scheme host.
Inductive hostText (scheme : bytes) : bytes -> Prop :=
| host_plain host : plainHost scheme host -> hostText scheme host
| host_ipv6 groups host : ipv6 groups host -> scheme = B "https" \/ groups = [0; 0; 0; 0; 0; 0; 0; 1] ->
    hostText scheme (B "[" ++ host ++ B "]").

Inductive authorityText (scheme : bytes) : bytes -> Prop :=
| authority_host host : hostText scheme host -> authorityText scheme host
| authority_port host n : hostText scheme host -> 1 <= n <= 65535 -> authorityText scheme (host ++ B ":" ++ Itoa n).

(** Path characters of RFC 3986, with upper case escapes of anything but slashes and
    backslashes, and what they stand for. *)
Definition pathChar (c : Z) : Prop :=
  letter c \/ digit c \/ c ∈ B "-._~" \/ c ∈ B "!$&'()*+,;=" \/ c = 58 \/ c = 64.
Definition hexUpper (c v : Z) : Prop := digit c /\ v = c - 48 \/ 65 <= c <= 70 /\ v = c - 55.
Inductive spells : bytes -> bytes -> Prop :=
| spells_nil : spells [] []
| spells_char c t d : pathChar c -> spells t d -> spells (c :: t) (c :: d)
| spells_escape h1 h2 v1 v2 t d : hexUpper h1 v1 -> hexUpper h2 v2 -> v1 * 16 + v2 <> 47 -> v1 * 16 + v2 <> 92 ->
    spells t d -> spells (37 :: h1 :: h2 :: t) (v1 * 16 + v2 :: d).
Definition segment (s : bytes) : Prop := exists d, spells s d /\ d <> B "." /\ d <> B "..".
Definition basePath (path : bytes) : Prop :=
  exists segments, path = concat (map (cons 47) segments) /\ Forall segment segments.

(** The path of the endpoint: without the slashes at the end, and with the path of the
    service, unless it is there. *)
Inductive completed (path : bytes) : bytes -> Prop :=
| completed_already p n : path = p ++ B "/v1/messages" ++ replicate n 47 -> completed path (p ++ B "/v1/messages")
| completed_now p n : path = p ++ replicate n 47 -> last p <> Some 47 -> (forall q, p <> q ++ B "/v1/messages") ->
    completed path (p ++ B "/v1/messages").

Definition baseURI (raw endpoint : bytes) : Prop :=
  exists scheme authority path path',
    scheme ∈ [B "http"; B "https"] /\ raw = scheme ++ B "://" ++ authority ++ path /\
    authorityText scheme authority /\ basePath path /\ len raw <= 2048 /\ len authority <= 512 /\ len path <= 1536 /\
    completed path path' /\ endpoint = scheme ++ B "://" ++ authority ++ path'.

(** ** Numbers *)

Lemma digitP c : isDigit c = true <-> digit c.
Proof. unfold isDigit, digit. apply betweenP. Qed.
Lemma alnumP c : isAlnum c = true <-> letter c \/ digit c.
Proof. unfold isAlnum, letter, digit. rewrite !orb_true_iff, !betweenP. lia. Qed.

Lemma Itoa_spec n : 0 <= n -> forallb isDigit (Itoa n) = true /\ Itoa n <> [] /\ digits_value (Itoa n) = n.
Proof.
  intros Hn. apply decimal_spec; [done| |by right]. rewrite Nat2Z.inj_succ, Z2Nat.id by apply Z.log2_nonneg.
  destruct (decide (n = 0)) as [->|]; [done|]. apply Z.log2_spec. lia.
Qed.
Lemma digits_value_nonneg s : forallb isDigit s = true -> 0 <= digits_value s.
Proof.
  induction s as [|c s IH] using rev_ind; [done|]. rewrite forallb_app, digits_value_snoc. cbn. rewrite andb_true_r.
  intros [H1%IH H2%digitP]%andb_true_iff. unfold digit in H2. lia.
Qed.
(** A number without leading zeros is the plain decimal notation of its value. *)
Definition plainNumber (s : bytes) : Prop := forallb isDigit s = true /\ s <> [] /\ (head s = Some 48 -> s = [48]).
Lemma plainNumber_positive s : plainNumber s -> s <> [48] -> 0 < digits_value s.
Proof.
  intros (Hd & Hne & Hz) H48. destruct s as [|c s]; [done|]. assert (c <> 48) as Hc by (intros ->; by apply H48, Hz).
  clear Hz H48 Hne. induction s as [|x s IH] using rev_ind.
  - cbn in Hd. rewrite andb_true_r in Hd. apply digitP in Hd. unfold digit in Hd. unfold digits_value. cbn. lia.
  - rewrite app_comm_cons, forallb_app in Hd. apply andb_true_iff in Hd as [H1%IH H2]. cbn in H2. rewrite andb_true_r in H2.
    apply digitP in H2. unfold digit in H2. rewrite app_comm_cons, digits_value_snoc. lia.
Qed.
Lemma plain_decimal fuel : forall s, plainNumber s -> digits_value s < 2 ^ Z.of_nat fuel -> fuel <> O -> s = decimal fuel (digits_value s).
Proof.
  induction fuel as [|fuel IH]; [done|]. intros s Hp Hlt _. pose proof Hp as (Hd & Hne & Hz). rewrite Nat2Z.inj_succ, Z.pow_succ_r in Hlt by lia.
  destruct s as [|c s] using rev_ind; [done|]. clear IHs. rewrite forallb_app in Hd. apply andb_true_iff in Hd as [Hd Hc]. cbn in Hc.
  rewrite andb_true_r in Hc. apply digitP in Hc. unfold digit in Hc. pose proof (digits_value_nonneg _ Hd) as Hv. rewrite digits_value_snoc in *. cbn [decimal].
  destruct s as [|x s].
  - replace (digits_value [] * 10 + (c - 48)) with (c - 48) by (change (digits_value []) with 0; lia). rewrite (proj2 (Z.ltb_lt (c - 48) 10)) by lia. cbn. f_equal. lia.
  - assert (plainNumber (x :: s)) as Hs. { split_and!; [done|done|]. cbn in *. intros H%Hz. by destruct s. }
    assert (0 < digits_value (x :: s)) as Hpos.
    { apply plainNumber_positive; [done|]. intros E. rewrite E in Hz. by specialize (Hz eq_refl). }
    rewrite (proj2 (Z.ltb_ge _ 10)) by lia.
    replace ((digits_value (x :: s) * 10 + (c - 48)) / 10) with (digits_value (x :: s)) by (apply (Z.div_unique _ _ _ (c - 48)); lia).
    replace ((digits_value (x :: s) * 10 + (c - 48)) mod 10) with (c - 48) by (apply (Z.mod_unique _ _ (digits_value (x :: s))); lia).
    rewrite <- (IH (x :: s)); [f_equal; f_equal; lia|done|lia|]. destruct fuel; [|done]. change (2 ^ Z.of_nat 0) with 1 in Hlt. lia.
Qed.
Lemma plain_Itoa s : plainNumber s -> s = Itoa (digits_value s).
Proof.
  intros Hs. apply plain_decimal; [done| |done]. rewrite Nat2Z.inj_succ, Z2Nat.id by apply Z.log2_nonneg.
  destruct Hs as (Hd & _). pose proof (digits_value_nonneg _ Hd). destruct (decide (digits_value s = 0)) as [->|]; [done|]. apply Z.log2_spec. lia.
Qed.
Lemma decimal_head fuel : forall n, 0 < n -> n < 2 ^ Z.of_nat fuel -> head (decimal fuel n) <> Some 48.
Proof.
  induction fuel as [|fuel IH]; intros n Hn Hlt; [done|]. rewrite Nat2Z.inj_succ, Z.pow_succ_r in Hlt by lia. cbn [decimal].
  destruct (Z.ltb_spec n 10) as [|Hge]; [cbn; intros [=]; lia|].
  pose proof (Z.div_mod n 10 ltac:(lia)). pose proof (Z.mod_pos_bound n 10 ltac:(lia)).
  assert (0 < n / 10 < 2 ^ Z.of_nat fuel) as Hd by lia. specialize (IH (n / 10) ltac:(lia) ltac:(lia)).
  destruct (decimal_spec fuel (n / 10)) as (_ & Hne & _); [lia|lia|lia|]. by destruct (decimal fuel (n / 10)).
Qed.
Lemma Itoa_plain n : 0 <= n -> plainNumber (Itoa n).
Proof.
  intros Hn. destruct (Itoa_spec n Hn) as (H1 & H2 & H3). split_and!; [done..|]. destruct (decide (n = 0)) as [->|]; [done|].
  intros Hz. exfalso. revert Hz. apply decimal_head; [lia|]. rewrite Nat2Z.inj_succ, Z2Nat.id by apply Z.log2_nonneg. apply Z.log2_spec. lia.
Qed.
Lemma Itoa_no n c : 0 <= n -> ~ digit c -> c ∉ Itoa n.
Proof. intros Hn Hc. apply (forallb_not_elem isDigit); [by apply Itoa_spec|]. apply not_true_iff_false. by rewrite digitP. Qed.

(** ** Ports *)

Lemma validPort_exact port present : validPort port present = true <-> present = false \/ exists n, 1 <= n <= 65535 /\ port = Itoa n.
Proof.
  unfold validPort. destruct present; cbn [negb]; [|by split; auto]. split.
  - destruct port as [|c r]; [done|]. destruct (negb (r ==? []) && (c =? 48)) eqn:Ez; [done|].
    destruct (forallb isDigit (c :: r)) eqn:Ed; [|done]. cbn [negb]. unfold ParseUint10. rewrite Ed. cbn [negb orb].
    destruct (_ <? _); [|done]. intros Hb%betweenP. right. exists (digits_value (c :: r)). split; [done|]. apply plain_Itoa. split_and!; [done..|].
    cbn. intros [= ->]. rewrite Z.eqb_refl, andb_true_r in Ez. by apply negb_false_iff, eqb_true_1 in Ez as ->.
  - intros [?|(n & Hn & ->)]; [done|]. destruct (Itoa_plain n) as (Hd & Hne & Hz); [lia|].
    pose proof (ParseUint10_Itoa n 63 ltac:(lia)) as Hp. destruct (Itoa n) as [|c r] eqn:E; [done|].
    assert (negb (r ==? []) && (c =? 48) = false) as ->.
    { destruct (Z.eqb_spec c 48) as [->|]; [|by rewrite andb_false_r]. specialize (Hz eq_refl). by simplify_eq. }
    rewrite Hd, Hp. cbn [negb]. by apply betweenP.
Qed.

(** ** Hosts *)

Lemma Split_none s sep : (sep ∉ s) -> Split s sep = [s].
Proof.
  induction s as [|c s IH]; cbn; [done|]. rewrite not_elem_of_cons. intros [Hc Hs]. destruct (Z.eqb_spec c sep); [done|]. by rewrite IH.
Qed.
Lemma Split_dotted ts : ts <> [] -> Forall (fun t => 46 ∉ t) ts -> Split (dotted ts) 46 = ts.
Proof.
  induction ts as [|t [|t2 ts] IH]; intros Hne Hts; [done|by inv Hts; apply Split_none|]. inv Hts.
  change (dotted (t :: t2 :: ts)) with (t ++ 46 :: dotted (t2 :: ts)). rewrite Split_app, Split_none, IH by done. done.
Qed.
Lemma dotted_Split s : dotted (Split s 46) = s.
Proof.
  induction s as [|c s IH]; [done|]. cbn. pose proof (Split_nonempty s 46). destruct (Z.eqb_spec c 46) as [->|].
  - destruct (Split s 46); [done|]. cbn in *. by rewrite IH.
  - destruct (Split s 46) as [|l [|l2 ls]]; [done| |]; cbn in *; by rewrite IH.
Qed.

Lemma last_List (l : bytes) c : l <> [] -> last l = Some c <-> List.last l 0 = c.
Proof. intros H. destruct l as [|x l] using rev_ind; [done|]. rewrite last_snoc, List.last_last. split; congruence. Qed.
Lemma validLabel_exact l : validLabel l = true <-> label l.
Proof.
  unfold validLabel, label. destruct l as [|c l]; [split; [done|intros [[H _] _]; by vm_compute in H]|].
  assert (1 <= len (c :: l)) by (unfold len; cbn; lia).
  rewrite !andb_true_iff, !negb_true_iff, Z.leb_le, !Z.eqb_neq, last_List by done. cbn [head].
  assert (forallb (fun b => isAlnum b || (b =? 45)) (c :: l) = true <-> Forall (fun c => letter c \/ digit c \/ c = 45) (c :: l)) as ->.
  { rewrite forallb_forall, Forall_forall. split; intros Hf x Hx.
    - specialize (Hf x (proj1 (list_elem_of_In _ _) Hx)). apply orb_true_iff in Hf as [Hf%alnumP|Hf%Z.eqb_eq]; tauto.
    - specialize (Hf x (proj2 (list_elem_of_In _ _) Hx)). apply orb_true_iff. rewrite alnumP, Z.eqb_eq. tauto. }
  split; [intros (((? & ?) & ?) & ?); split_and!; try done; congruence|intros (? & ? & ? & ?); split_and!; try done; [lia|congruence]].
Qed.

Lemma label_no_dot l : label l -> 46 ∉ l.
Proof. intros (_ & Hf & _) H. rewrite Forall_forall in Hf. specialize (Hf 46 H). cbn in Hf. unfold letter, digit in Hf. lia. Qed.
Lemma label_nil : ~ label [].
Proof. intros [[H _] _]. by vm_compute in H. Qed.
Lemma validLabels_exact ls : forallb validLabel ls = true <-> Forall label ls.
Proof.
  rewrite forallb_forall, Forall_forall. split; intros H x Hx.
  - apply validLabel_exact, H. by apply list_elem_of_In.
  - apply validLabel_exact, H. by apply list_elem_of_In.
Qed.
Lemma validDNSName_exact host : validDNSName host = true <->
  exists labels, labels <> [] /\ Forall label labels /\ host = dotted labels /\ len host <= 253.
Proof.
  unfold validDNSName. split.
  - destruct (_ || _) eqn:E; [done|]. apply orb_false_iff in E as [[_ E%Z.ltb_ge]%orb_false_iff _]. intros H%validLabels_exact.
    exists (Split host 46). split_and!; [apply Split_nonempty|done|by rewrite dotted_Split|lia].
  - intros (labels & Hne & Hl & -> & Hlen).
    assert (Split (dotted labels) 46 = labels) as Hs.
    { apply Split_dotted; [done|]. eapply Forall_impl; [exact Hl|]. apply label_no_dot. }
    assert ((dotted labels ==? []) = false) as ->.
    { apply eqb_false. intros E. rewrite E in Hs. cbn in Hs. subst labels. inv Hl. by eapply label_nil. }
    rewrite (proj2 (Z.ltb_ge _ _) Hlen). assert (HasSuffix (dotted labels) (B ".") = false) as ->; [|cbn [orb]; rewrite Hs; by apply validLabels_exact].
    apply not_true_iff_false. intros [a Ha]%HasSuffix_shape. rewrite Ha in Hs. change (B ".") with [46] in Hs. rewrite Split_app in Hs. cbn in Hs.
    rewrite <- Hs in Hl. apply Forall_app in Hl as [_ Hl]. inv Hl. by eapply label_nil.
Qed.

Lemma parseOctet_range t a : parseOctet t = Some a -> 0 <= a <= 255.
Proof.
  unfold parseOctet. destruct t as [|c r]; [done|]. destruct (_ || _) eqn:E; [done|]. intros [= <-].
  apply orb_false_iff in E as [[Hd%negb_false_iff _]%orb_false_iff Hb%Z.ltb_ge]. split; [by apply digits_value_nonneg|done].
Qed.
Lemma parseOctet_Itoa a : 0 <= a <= 255 -> parseOctet (Itoa a) = Some a.
Proof.
  intros Ha. destruct (Itoa_plain a) as (Hd & Hne & Hz); [lia|]. destruct (Itoa_spec a) as (_ & _ & Hv); [lia|].
  unfold parseOctet. rewrite Hd, Hv. destruct (Itoa a) as [|c r] eqn:E; [done|].
  assert ((c =? 48) && negb (r ==? []) = false) as ->.
  { destruct (Z.eqb_spec c 48) as [->|]; [|done]. specialize (Hz eq_refl). by simplify_eq. }
  by rewrite (proj2 (Z.ltb_ge 255 a)) by lia.
Qed.
Lemma ipv4_exact o host : parseIPv4 host = Some o /\ string4 o = host <-> ipv4 o host.
Proof.
  split.
  - unfold parseIPv4. intros [H Hs]. destruct (Split host 46) as [|a [|b [|c [|d [|]]]]]; try done.
    destruct (parseOctet a) as [oa|] eqn:Ea, (parseOctet b) as [ob|] eqn:Eb, (parseOctet c) as [oc|] eqn:Ec, (parseOctet d) as [od|] eqn:Ed; try done.
    injection H as <-. apply parseOctet_range in Ea, Eb, Ec, Ed. split; [done|]. split; [by rewrite !Forall_cons, Forall_nil|by rewrite <- Hs].
  - intros (Hl & Hr & ->). destruct o as [|a [|b [|c [|d [|]]]]]; try done. split; [|done]. unfold parseIPv4.
    rewrite !Forall_cons in Hr. destruct Hr as (Ha & Hb & Hc & Hd & _). rewrite Split_dotted; [|done|].
    + cbn [map]. by rewrite !parseOctet_Itoa by done.
    + cbn [map]. rewrite !Forall_cons, Forall_nil. split_and!; try done; apply Itoa_no; unfold digit; lia.
Qed.
Lemma addrKind_dot l r : forallb isDigit l = true -> addrKind (l ++ 46 :: r) = Some 46.
Proof.
  induction l as [|c l IH]; [done|]. cbn. intros [Hc%digitP Hl]%andb_true_iff. unfold digit in Hc.
  rewrite !(proj2 (Z.eqb_neq _ _)) by lia. by apply IH.
Qed.
Lemma ParseAddr_4 host o : ParseAddr host = Some (Addr4 o) -> parseIPv4 host = Some o.
Proof.
  unfold ParseAddr. destruct (addrKind host) as [k|]; [|done]. intros Ea.
  assert (parseIPv4 host = Some o \/ parseIPv6 host = Some (Addr4 o)) as [H4|H6]; [|done|].
  { destruct k as [|q|q]; try done. do 6 (destruct q as [q|q|]; try done); first [by right|left; destruct (parseIPv4 host); congruence]. }
  exfalso. revert H6. unfold parseIPv6. destruct (Cut host 37) as [[s z] found]. destruct (_ && _); [done|].
  destruct (_ && _); [done|]. destruct (parseGroups _ _ _ _) as [[gs e]|]; [|done]. destruct (_ <? _)%nat, e; done.
Qed.
Lemma ipv4_ParseAddr o host : ParseAddr host = Some (Addr4 o) /\ Addr_String (Addr4 o) = host <-> ipv4 o host.
Proof.
  split; [intros [H%ParseAddr_4 Hs]; by apply ipv4_exact|]. intros H. pose proof (proj2 (ipv4_exact _ _) H) as [Hp Hs]. split; [|done].
  destruct H as (Hl & Hr & ->). destruct o as [|a [|b [|c [|d [|]]]]]; try done. unfold ParseAddr.
  rewrite Hp. inv Hr. change (dotted (map Itoa [a; b; c; d])) with (Itoa a ++ 46 :: dotted (map Itoa [b; c; d])). rewrite addrKind_dot; [done|].
  apply Itoa_spec. lia.
Qed.

(** A name is no address. *)
Lemma dnsName_no_addr host : dnsName host -> ParseAddr host = None.
Proof.
  intros (labels & Hne & Hl & -> & _ & Hex). unfold ParseAddr.
  assert (forall c, c ∈ dotted labels -> letter c \/ digit c \/ c = 45 \/ c = 46) as Hc.
  { clear Hex. induction Hl as [|l [|l2 ls] Hl1 Hl IH]; [done| |]; intros c Hin.
    - destruct Hl1 as (_ & Hf & _). rewrite Forall_forall in Hf. specialize (Hf c Hin). tauto.
    - change (dotted (l :: l2 :: ls)) with (l ++ 46 :: dotted (l2 :: ls)) in Hin. apply elem_of_app in Hin as [Hin|[->|Hin]%elem_of_cons]; [|tauto|by apply IH].
      destruct Hl1 as (_ & Hf & _). rewrite Forall_forall in Hf. specialize (Hf c Hin). tauto. }
  assert (addrKind (dotted labels) = None \/ addrKind (dotted labels) = Some 46) as [-> | ->]; [|done|].
  { clear Hex. induction (dotted labels) as [|c l IH]; [by left|]. cbn.
    assert (letter c \/ digit c \/ c = 45 \/ c = 46) as Hx by (apply Hc; by left). unfold letter, digit in Hx.
    destruct (decide (c = 46)) as [->|]; [by right|]. rewrite !(proj2 (Z.eqb_neq _ _)) by lia. apply IH. intros x Hin. apply Hc. by right. }
  destruct (parseIPv4 (dotted labels)) as [o|] eqn:E; [|done]. exfalso. apply parseIPv4_chars in E.
  apply Exists_exists in Hex as (c & Hin & Hd & Hdot). pose proof (forallb_elem _ _ _ E Hin) as [H%digitP|H%Z.eqb_eq]%orb_true_iff; tauto.
Qed.

Lemma validHost_plain scheme host : scheme ∈ [B "http"; B "https"] -> validHost scheme host false = true <-> plainHost scheme host.
Proof.
  intros Hscheme. unfold validHost. split.
  - destruct (ParseAddr host) as [a|] eqn:Ea.
    + destruct (_ || _) eqn:E; [done|]. apply orb_false_iff in E as [E1%negb_false_iff E2%negb_false_iff%eqb_true_1].
      destruct a as [o|]; [|done]. assert (ipv4 o host) as Ho by by apply ipv4_ParseAddr.
      intros H. eapply host_ipv4; [exact Ho|]. apply orb_true_iff in H as [H%eqb_true_1|H]; [by left|right].
      destruct o; [done|]. apply Z.eqb_eq in H as ->. done.
    + destruct (scheme ==? B "http") eqn:Es; [apply eqb_true_1 in Es as ->; intros ->%eqb_true_1; constructor|].
      destruct (forallb _ host) eqn:Ef; [done|]. intros (labels & Hne & Hl & He & Hlen)%validDNSName_exact.
      apply eqb_false_1 in Es. assert (scheme = B "https") as -> by (rewrite !elem_of_cons, elem_of_nil in Hscheme; tauto).
      constructor. exists labels. split_and!; [done..|]. apply not_true_iff_false in Ef. destruct (decide (Forall (fun c => isDigit c || (c =? 46) = true) host)) as [Hf|Hf].
      * exfalso. apply Ef. rewrite forallb_forall. rewrite Forall_forall in Hf. intros x Hx. apply Hf. by apply list_elem_of_In.
      * apply not_Forall_Exists in Hf; [|intros x; apply _]. eapply Exists_impl; [exact Hf|]. cbn. intros c Hc. rewrite <- digitP.
        split; intros H; apply Hc; rewrite orb_true_iff, ?Z.eqb_eq; tauto.
  - intros [host' Hd| |scheme' o host' Ho Hs].
    + rewrite (dnsName_no_addr _ Hd). change (B "https" ==? B "http") with false. cbn iota.
      destruct Hd as (labels & Hne & Hl & He & Hlen & Hex). assert (forallb (fun c => isDigit c || (c =? 46)) host' = false) as ->.
      { apply not_true_iff_false. intros Hf. apply Exists_exists in Hex as (c & Hin & Hdg & Hdot).
        pose proof (forallb_elem _ _ _ Hf Hin) as [H%digitP|H%Z.eqb_eq]%orb_true_iff; tauto. }
      apply validDNSName_exact. eauto.
    + by vm_compute.
    + pose proof (proj2 (ipv4_ParseAddr _ _) Ho) as [-> ->]. cbn [Is4 negb]. rewrite eqb_refl. cbn [negb orb].
      destruct Hs as [-> |Hs]; [by rewrite eqb_refl|]. destruct o as [|x o]; [done|]. injection Hs as ->. by rewrite orb_true_r.
Qed.
Lemma validHost_bracketed scheme host : scheme ∈ [B "http"; B "https"] -> validHost scheme host true = true <->
  exists groups, ipv6 groups host /\ (scheme = B "https" \/ groups = [0; 0; 0; 0; 0; 0; 0; 1]).
Proof.
  intros Hscheme. unfold validHost, ipv6. split.
  - destruct (ParseAddr host) as [a|] eqn:Ea; [|done]. destruct (_ || _) eqn:E; [done|].
    apply orb_false_iff in E as [[[E1%negb_false_iff E2]%orb_false_iff E3%negb_false_iff%eqb_true_1]%orb_false_iff E4%negb_false_iff%eqb_true_1].
    destruct a as [o|g z]; [done|]. cbn in E3. subst z. intros H. exists g. split; [split_and!; [done..|]|].
    + intros [H1 H2]. cbn in E2. rewrite H1, H2 in E2. by vm_compute in E2.
    + destruct (scheme ==? B "http") eqn:Es.
      * right. apply eqb_true_1 in H as ->. vm_compute in Ea. by injection Ea.
      * left. apply eqb_false_1 in Es. rewrite !elem_of_cons, elem_of_nil in Hscheme. tauto.
  - intros (g & (-> & Ht & Hm) & Hs). cbn [Is6 Is4 negb Zone orb]. rewrite Ht, !eqb_refl. cbn [negb orb]. rewrite !orb_false_r.
    assert (Is4In6 (Addr6 g []) = false) as ->.
    { apply not_true_iff_false. cbn. intros [H1%eqb_true_1 H2%Z.eqb_eq]%andb_true_iff. by apply Hm. }
    destruct Hs as [-> | ->]; [done|]. destruct (scheme ==? B "http"); [|done]. rewrite <- Ht. by vm_compute.
Qed.

(** ** Authorities *)

Lemma Count_none s sep : (sep ∉ s) -> Count s sep = 0.
Proof.
  unfold Count. induction s as [|c s IH]; cbn; [done|]. rewrite not_elem_of_cons. intros [Hc Hs]. destruct (Z.eqb_spec sep c); [done|]. by apply IH.
Qed.
Lemma Count_one a sep b : (sep ∉ a) -> (sep ∉ b) -> Count (a ++ sep :: b) sep = 1.
Proof.
  intros Ha Hb. pose proof (Count_none a sep Ha) as H1. pose proof (Count_none b sep Hb) as H2. unfold Count, len in *.
  rewrite List.filter_app. cbn. rewrite Z.eqb_refl, length_app. cbn. lia.
Qed.
Lemma splitAuthority_join (host port : bytes) (bracketed present : bool) : host <> [] -> (58 ∉ port) -> (present = false -> port = []) ->
  (if bracketed then 93 ∉ host else (58 ∉ host) /\ 91 ∉ host) ->
  splitAuthority (joinAuthority host port bracketed present) = Some (host, port, bracketed, present).
Proof.
  intros Hne Hp Hnone Hh. unfold splitAuthority, joinAuthority. assert ((host ==? []) = false) as He by by apply eqb_false. destruct bracketed.
  - cbn [app]. replace (91 :: (host ++ [93]) ++ (if present then 58 :: port else [])) with
      ((91 :: host) ++ 93 :: (if present then 58 :: port else [])) by (by cbn; rewrite <- app_assoc).
    assert (HasPrefix ((91 :: host) ++ 93 :: (if present then 58 :: port else [])) (B "[") = true) as -> by by destruct host.
    rewrite Cut_found by (rewrite not_elem_of_cons; split; [lia|done]). cbn [drop negb]. rewrite drop_0, He.
    destruct present; [by rewrite Z.eqb_refl|by rewrite (Hnone eq_refl)].
  - destruct Hh as [H58 H91]. assert (forall r : bytes, HasPrefix (host ++ r) (B "[") = false) as ->.
    { intros r. destruct host as [|c host]; [done|]. change (B "[") with [91]. cbn. destruct (Z.eqb_spec c 91) as [->|]; [|done].
      by apply not_elem_of_cons in H91 as [? _]. }
    destruct present.
    + rewrite Count_one by done. cbn [Z.ltb Z.compare Pos.compare]. rewrite Cut_found, He by done. done.
    + rewrite app_nil_r, Count_none, Cut_none, He by done. by rewrite (Hnone eq_refl).
Qed.

(** A valid authority, as the program checks it. *)
Definition authorityChecks (scheme authority : bytes) : Prop :=
  exists host port bracketed present, splitAuthority authority = Some (host, port, bracketed, present) /\
    validPort port present = true /\ validHost scheme host bracketed = true.
Lemma authority_checks scheme host port bracketed present : validHost scheme host bracketed = true -> validPort port present = true ->
  (present = false -> port = []) -> authorityChecks scheme (joinAuthority host port bracketed present).
Proof.
  intros Hh Hp Hnone. exists host, port, bracketed, present. split_and!; [|done..]. pose proof (validHost_chars _ _ _ Hh) as Hc.
  assert (host <> []) as Hne by (intros ->; revert Hh; by destruct bracketed, (scheme ==? B "http") eqn:E; unfold validHost; cbn; rewrite ?E).
  apply splitAuthority_join; [done| |done|].
  - destruct present; [|rewrite (Hnone eq_refl); apply not_elem_of_nil]. apply (forallb_not_elem isDigit); [by eapply validPort_digits|done].
  - destruct bracketed; [by apply (forallb_not_elem addrChar)|]. split; by apply (forallb_not_elem nameChar).
Qed.
Lemma authority_exact scheme authority : scheme ∈ [B "http"; B "https"] ->
  authorityChecks scheme authority <-> authorityText scheme authority.
Proof.
  intros Hscheme. split.
  - intros (host & port & br & pr & (Ha & Hne & Hnone)%splitAuthority_shape & Hp & Hh).
    assert (hostText scheme (if br then [91] ++ host ++ [93] else host)) as Ht.
    { destruct br; [apply validHost_bracketed in Hh as (g & Hg & Hs); [by eapply host_ipv6|done]|]. constructor. by apply validHost_plain. }
    rewrite Ha. unfold joinAuthority. apply validPort_exact in Hp as [-> |(n & Hn & ->)]; [rewrite app_nil_r; by constructor|].
    destruct pr; [by apply authority_port|rewrite app_nil_r; by constructor].
  - assert (forall host port present, hostText scheme host -> validPort port present = true -> (present = false -> port = []) ->
      authorityChecks scheme (host ++ (if present then 58 :: port else []))) as Hgo.
    { intros host port present [h Hh|g h Hg Hs] Hp Hnone.
      - apply (authority_checks scheme h port false present); [by apply validHost_plain|done|done].
      - apply (authority_checks scheme h port true present); [apply validHost_bracketed; eauto|done|done]. }
    intros [host Hh|host n Hh Hn].
    + rewrite <- (app_nil_r host). by apply (Hgo host [] false).
    + apply (Hgo host (Itoa n) true); [done| |done]. apply validPort_exact. eauto.
Qed.

(** ** Paths *)

Lemma pathCharP c : isPChar c = true <-> pathChar c.
Proof.
  unfold isPChar, pathChar. rewrite orb_true_iff, alnumP.
  assert (ContainsByte (B "-._~!$&'()*+,;=:@") c = true <-> c ∈ B "-._~" ++ B "!$&'()*+,;=" ++ [58; 64]) as ->.
  { change (B "-._~!$&'()*+,;=:@") with (B "-._~" ++ B "!$&'()*+,;=" ++ [58; 64]). unfold ContainsByte.
    generalize (B "-._~" ++ B "!$&'()*+,;=" ++ [58; 64]) as l. intros l. rewrite existsb_exists. split.
    - intros (x & Hx & ->%Z.eqb_eq). by apply list_elem_of_In.
    - intros H%list_elem_of_In. exists c. split; [done|by rewrite Z.eqb_refl]. }
  rewrite !elem_of_app, !(elem_of_cons _ c), elem_of_nil. tauto.
Qed.
Lemma hexUpperP c : upperHex c = true <-> hexUpper c (unhex c).
Proof.
  unfold upperHex, hexUpper, unhex, digit. rewrite orb_true_iff, !betweenP. destruct (Z.leb_spec c 57); lia.
Qed.
Lemma hexUpper_unhex c v : hexUpper c v -> v = unhex c.
Proof. unfold hexUpper, unhex, digit. destruct (Z.leb_spec c 57); lia. Qed.
Lemma hexUpper_digit c v : hexUpper c v -> hexDigit c = Some v.
Proof.
  unfold hexUpper, hexDigit, digit. intros [[H ->]|[H ->]]; [by rewrite (proj2 (betweenP 48 c 57)) by lia|].
  assert (between 48 c 57 = false) as -> by (apply not_true_iff_false; rewrite betweenP; lia).
  assert (between 97 c 102 = false) as -> by (apply not_true_iff_false; rewrite betweenP; lia).
  rewrite (proj2 (betweenP 65 c 70)) by lia. f_equal. lia.
Qed.
Lemma pathChar_not c : pathChar c -> c <> 37 /\ c <> 47.
Proof.
  intros H%pathCharP. destruct (pathByte_char c) as [_ H37]; [by rewrite H, orb_true_r|]. split; [done|]. intros ->. by vm_compute in H.
Qed.

Lemma spells_unescape s d : spells s d -> PathUnescape s = Some d.
Proof.
  unfold PathUnescape. induction 1 as [|c t d Hc _ IH|h1 h2 v1 v2 t d H1 H2 _ _ _ IH]; [done| |]; cbn [unescape].
  - destruct (pathChar_not c Hc) as [Hn _]. rewrite (proj2 (Z.eqb_neq c 37) Hn). cbn. by rewrite IH.
  - rewrite Z.eqb_refl, (hexUpper_digit _ _ H1), (hexUpper_digit _ _ H2). cbn. by rewrite IH.
Qed.
Lemma spells_chars s d : spells s d -> basePathChars s = true /\ 47 ∉ s.
Proof.
  induction 1 as [|c t d Hc _ [IH Hn]|h1 h2 v1 v2 t d H1 H2 H47 H92 _ [IH Hn]]; [split; [done|apply not_elem_of_nil]| |].
  - split; [cbn [basePathChars]; by rewrite (proj2 (pathCharP c) Hc), orb_true_r|]. rewrite not_elem_of_cons. split; [|done].
    by apply not_eq_sym, pathChar_not.
  - rewrite (hexUpper_unhex _ _ H1), (hexUpper_unhex _ _ H2) in H47, H92.
    assert (upperHex h1 = true /\ upperHex h2 = true) as [U1 U2].
    { rewrite !hexUpperP, <- (hexUpper_unhex _ _ H1), <- (hexUpper_unhex _ _ H2). done. }
    split.
    + cbn [basePathChars]. change ((37 =? 47) || isPChar 37) with false. cbn iota. rewrite U1, U2, Z.eqb_refl. cbn [negb orb].
      rewrite (proj2 (Z.eqb_neq _ _) H47), (proj2 (Z.eqb_neq _ _) H92). done.
    + assert (forall h v, hexUpper h v -> 47 <> h) as Hh by (unfold hexUpper, digit; lia).
      rewrite !not_elem_of_cons. split_and!; [lia|by eapply Hh..|done].
Qed.
Lemma chars_spells s : basePathChars s = true -> (47 ∉ s) -> exists d, spells s d.
Proof.
  remember (length s) as n eqn:Hn. revert s Hn. induction n as [n IH] using (well_founded_induction lt_wf). intros s -> Hc H47.
  destruct s as [|c r]; [exists []; constructor|]. cbn [basePathChars] in Hc. apply not_elem_of_cons in H47 as [Hc47 H47].
  rewrite (proj2 (Z.eqb_neq c 47)) in Hc by done. cbn [orb] in Hc. destruct (isPChar c) eqn:Ep.
  { destruct (IH (length r)) with (s := r) as [d Hd]; [cbn; lia|done..|]. exists (c :: d). constructor; [by apply pathCharP|done]. }
  destruct r as [|h1 [|h2 r]]; [done..|]. destruct (negb (c =? 37) || negb (upperHex h1) || negb (upperHex h2)) eqn:Eh; [done|].
  apply orb_false_iff in Eh as [[->%negb_false_iff%Z.eqb_eq E1%negb_false_iff%hexUpperP]%orb_false_iff E2%negb_false_iff%hexUpperP].
  destruct (_ || _) eqn:Ed in Hc; [done|]. apply orb_false_iff in Ed as [D1%Z.eqb_neq D2%Z.eqb_neq].
  rewrite !not_elem_of_cons in H47. destruct (IH (length r)) with (s := r) as [d Hd]; [cbn; lia|done|done|tauto|].
  eexists. by apply (spells_escape h1 h2 _ _ r d E1 E2).
Qed.
Lemma segment_exact s : (47 ∉ s) -> basePathChars s && segmentOK s = true <-> segment s.
Proof.
  intros H47. unfold segmentOK, segment. rewrite andb_true_iff. split.
  - intros [Hc Hs]. destruct (chars_spells s Hc H47) as [d Hd]. exists d. rewrite (spells_unescape _ _ Hd) in Hs. split; [done|].
    by apply andb_true_iff in Hs as [?%negb_true_iff%eqb_false_1 ?%negb_true_iff%eqb_false_1].
  - intros (d & Hd & H1 & H2). split; [by eapply spells_chars|]. rewrite (spells_unescape _ _ Hd). apply andb_true_iff. split; by apply negb_true_iff, eqb_false.
Qed.

Lemma Split_parts s sep : Forall (fun t => sep ∉ t) (Split s sep).
Proof.
  induction s as [|c s IH]; cbn; [constructor; [apply not_elem_of_nil|done]|]. destruct (Z.eqb_spec c sep) as [->|Hc].
  - constructor; [apply not_elem_of_nil|done].
  - destruct (Split s sep) as [|l ls]; [constructor; [|done]|inv IH; constructor; [|done]].
    + rewrite not_elem_of_cons. split; [done|apply not_elem_of_nil].
    + by rewrite not_elem_of_cons.
Qed.
Lemma slashed_Split q : 47 :: q = concat (map (cons 47) (Split q 47)).
Proof.
  induction q as [|c q IH]; [done|]. cbn. destruct (Z.eqb_spec c 47) as [->|]; cbn; [by rewrite <- IH|].
  pose proof (Split_nonempty q 47). destruct (Split q 47) as [|l ls]; [done|]. cbn in *. by injection IH as <-.
Qed.
Lemma Split_slashed segments : Forall (fun t => 47 ∉ t) segments -> segments <> [] ->
  exists q, concat (map (cons 47) segments) = 47 :: q /\ Split q 47 = segments.
Proof.
  induction segments as [|t [|t2 ts] IH]; intros Ht Hne; [done| |]; inv Ht.
  - exists t. cbn. rewrite app_nil_r. split; [done|by apply Split_none].
  - destruct IH as (q & Hq & Hs); [done..|]. exists (t ++ 47 :: q). cbn [map concat] in *. rewrite Hq. split; [done|].
    by rewrite Split_app, Hs, Split_none.
Qed.
Lemma basePathChars_Split q : basePathChars q = forallb basePathChars (Split q 47).
Proof.
  assert (forall ts, ts <> [] -> Forall (fun t => 47 ∉ t) ts -> basePathChars (drop 1 (concat (map (cons 47) ts))) = forallb basePathChars ts) as H.
  { induction ts as [|t [|t2 ts] IH]; intros Hne Ht; [done| |]; inv Ht.
    - cbn. by rewrite drop_0, app_nil_r, andb_true_r.
    - change (drop 1 (concat (map (cons 47) (t :: t2 :: ts)))) with (drop 0 (t ++ 47 :: drop 1 (concat (map (cons 47) (t2 :: ts))))).
      rewrite drop_0, basePathChars_app, IH by done. done. }
  rewrite <- H, <- slashed_Split; [cbn; by rewrite drop_0|apply Split_nonempty|apply Split_parts].
Qed.
Lemma basePath_exact path : validBasePath path = true <-> basePath path.
Proof.
  rewrite validBasePath_spec. unfold basePath. split.
  - destruct path as [|c q]; [intros _; exists []; split; [done|constructor]|]. intros (-> & Hc & Hs). exists (Split q 47). split; [apply slashed_Split|].
    change (basePathChars (47 :: q)) with (basePathChars q) in Hc. rewrite basePathChars_Split in Hc. change (Split (47 :: q) 47) with ([] :: Split q 47) in Hs.
    cbn in Hs. pose proof (Split_parts q 47) as Hp. rewrite Forall_forall in *. intros t Ht. apply segment_exact; [by apply Hp|].
    by rewrite (forallb_elem _ _ _ Hc Ht), (forallb_elem _ _ _ Hs Ht).
  - intros (segments & -> & Hs).
    assert (Forall (fun t => (47 ∉ t) /\ basePathChars t && segmentOK t = true) segments) as Hall.
    { eapply Forall_impl; [exact Hs|]. intros t Ht. pose proof Ht as (d & Hd & _). apply spells_chars in Hd as [_ Hn]. split; [done|by apply segment_exact]. }
    destruct (decide (segments = [])) as [->|Hne]; [done|].
    destruct (Split_slashed segments) as (q & -> & Hq); [eapply Forall_impl; [exact Hall|]; by intros t [? _]|done|]. split; [done|].
    change (basePathChars (47 :: q)) with (basePathChars q). rewrite basePathChars_Split. change (Split (47 :: q) 47) with ([] :: Split q 47). cbn [forallb].
    rewrite Hq. change (segmentOK []) with true. cbn [andb].
    split; apply forallb_forall; intros t Ht%list_elem_of_In; rewrite Forall_forall in Hall; specialize (Hall t Ht); cbn in Hall;
      destruct Hall as [_ [? ?]%andb_true_iff]; done.
Qed.

(** ** The path of the endpoint *)

Lemma TrimRightSlash_cut p n : last p <> Some 47 -> TrimRightSlash (p ++ replicate n 47) = p.
Proof.
  intros Hp. assert (TrimRightSlash (p ++ replicate n 47) = TrimRightSlash p) as ->.
  { unfold TrimRightSlash. f_equal. rewrite rev_app_distr. induction n as [|n IH]; [done|]. replace (replicate (S n) 47) with (replicate n 47 ++ [47]).
    - rewrite rev_app_distr. cbn. exact IH.
    - symmetry. apply replicate_S_end. }
  destruct p as [|c p] using rev_ind; [done|]. rewrite last_snoc in Hp. apply TrimRightSlash_last. congruence.
Qed.
Lemma TrimRightSlash_end s : last (TrimRightSlash s) <> Some 47.
Proof.
  unfold TrimRightSlash. induction (rev s) as [|c l IH]; [done|]. cbn. destruct (Z.eqb_spec c 47); [done|]. cbn. rewrite last_snoc. congruence.
Qed.
Lemma completed_exact path path' : completed path path' <-> path' = endpointPath path.
Proof.
  split.
  - intros [p n ->|p n -> Hl Hno]; unfold endpointPath; cbv zeta.
    + rewrite app_assoc, TrimRightSlash_cut; [by rewrite (proj2 (HasSuffix_shape _ _)) by by eexists|].
      change (B "/v1/messages") with (B "/v1/message" ++ [115]). rewrite app_assoc, last_snoc. done.
    + rewrite TrimRightSlash_cut by done. destruct (HasSuffix p messagesPath) eqn:E; [|done]. apply HasSuffix_shape in E as [q Hq]. by destruct (Hno q).
  - intros ->. unfold endpointPath. cbv zeta. destruct (TrimRightSlash_shape path) as [n Hn]. destruct (HasSuffix _ _) eqn:E.
    + apply HasSuffix_shape in E as [q Hq]. rewrite Hq. apply (completed_already _ _ n). rewrite app_assoc. change (B "/v1/messages") with messagesPath. by rewrite <- Hq.
    + apply (completed_now _ _ n); [done|apply TrimRightSlash_end|]. intros q Hq. apply not_true_iff_false in E. apply E, HasSuffix_shape. by exists q.
Qed.
Lemma completed_len path path' : completed path path' -> len path' <= len path + 12.
Proof.
  intros [p n ->|p n -> _ _]; rewrite !len_app; change (len (B "/v1/messages")) with 12; pose proof (len_nonneg (replicate n 47)); lia.
Qed.

(** C28. A base URI is accepted exactly when it is, within the length limits, https
    or http, a host, perhaps a port in plain decimal from 1 to 65535, and perhaps a
    path of valid characters and upper-case escapes without dot segments; the host
    is a DNS name, an IPv4 address or a canonical IPv6 address in brackets, and for
    http one of localhost, 127.x.y.z and ::1; the endpoint is the same URI with
    trailing slashes cut and /v1/messages at its end once. The language is given by
    a grammar of its own, not by the checks of the code. *)
Theorem canonicalEndpoint_exact raw endpoint : canonicalEndpoint raw = Some endpoint <-> baseURI raw endpoint.
Proof.
  split.
  - intros (scheme & authority & path & Hs & Hraw & Ha & Hb & Hl1 & Hl2 & Hl3 & _ & He)%canonicalEndpoint_sound.
    assert (scheme ∈ [B "http"; B "https"]) as Hin by (rewrite !elem_of_cons; tauto).
    exists scheme, authority, path, (endpointPath path). split_and!; try done; [by apply authority_exact|by apply basePath_exact|by apply completed_exact].
  - intros (scheme & authority & path & path' & Hs & Hraw & Ha & Hb & Hl1 & Hl2 & Hl3 & Hc & He).
    apply (canonicalEndpoint_complete scheme authority path). pose proof (completed_len _ _ Hc) as Hlen. apply completed_exact in Hc as ->.
    split_and!; try done; [|by apply authority_exact|by apply basePath_exact|lia]. rewrite !elem_of_cons, elem_of_nil in Hs. tauto.
Qed.
