(* ===== verification/RawTransport.v ===== *)
(** * The built-in transport (transport_raw.go, transport_errors.go)

    One attempt over HTTP/1.1 or HTTP/2: the endpoint and the request that are made of
    an [AttemptRequest], the lease of a connection, an exchange, a replay on a fresh
    connection when a reused one turns out to be stale, and the outcome that is reported
    to the operation.  A Go error is what [errors.Is] and [errors.As] find in it.
    Dialling, the TLS handshake, the bytes of a connection and the answers of an HTTP/2
    session come from the environment. *)
From S2P Require Import Prelude Errors GoText Response Descriptor Operation H1 H2Frame H2Session Proxy GoURL.

(** ** Errors *)

(** What [classifyCertificateError] looks for; an invalid certificate may have expired,
    and then may not be valid yet. *)
Record certView := mkCertView {
  asHostname : bool;
  asInvalid : option (bool * bool);
  asUnknownAuthority : bool;
  asSystemRoots : bool
}.
Definition noCert : certView := mkCertView false None false false.

Record goError := mkGoError {
  isDeadlineExceeded : bool;
  isCanceled : bool;
  asDNS : option (bool * bool);
  asVerification : option certView;
  asCertificate : certView;
  asRecordHeader : bool;
  asAlert : bool;
  isRefused : bool;
  isReset : bool;
  isPipe : bool;
  isEOF : bool;
  isUnexpectedEOF : bool;
  isClosedPipe : bool;
  isNetClosed : bool;
  netTimeout : bool;
  asTLSNegotiation : bool;
  asProxy : option FailureKind;
  isWire : option Wire.h1Error;
  asSession : option sessionError
}.
Definition plainError : goError :=
  mkGoError false false None None noCert false false false false false false false false false false false None None None.
Definition eofError : goError :=
  mkGoError false false None None noCert false false false false false true false false false false false None None None.
Definition unexpectedEOFError : goError :=
  mkGoError false false None None noCert false false false false false false true false false false false None None None.
Definition wireError (e : Wire.h1Error) : goError :=
  mkGoError false false None None noCert false false false false false false false false false false false None (Some e) None.
Definition proxyError (k : FailureKind) : goError :=
  mkGoError false false None None noCert false false false false false false false false false false false (Some k) None None.
(** transport_raw.go, [rawTLSNegotiationError]. *)
Definition rawTLSNegotiationError : goError :=
  mkGoError false false None None noCert false false false false false false false false false false true None None None.

(** A context: whether its deadline has been reached, and its error. *)
Record ctxView := mkCtxView { deadlineReached : bool; ctxError : option contextError }.

(** transport_errors.go, [classifyCertificateError]. *)
Definition classifyCertificateError (v : certView) : FailureReason * bool :=
  if asHostname v then (FailureReasonTLSHostnameMismatch, true)
  else match asInvalid v with
  | Some (expired, notYet) =>
    if expired then (if notYet then FailureReasonTLSCertificateNotYetValid else FailureReasonTLSCertificateExpired, true)
    else (FailureReasonTLSUntrusted, true)
  | None =>
    if asUnknownAuthority v then (FailureReasonTLSUntrusted, true)
    else if asSystemRoots v then (FailureReasonTLSUntrusted, true)
    else (FailureReasonTLSUntrusted, false)
  end.

(** transport_errors.go, [classifyTransportCause]. *)
Definition classifyTransportCause (ctx : ctxView) (err : goError) : ErrorCode * FailureReason :=
  if deadlineReached ctx || (ctxError ctx ==? Some DeadlineExceeded) || isDeadlineExceeded err
  then (ErrorCodeAttemptTimeout, FailureReasonUnknown)
  else if (ctxError ctx ==? Some Canceled) || isCanceled err then (ErrorCodeCancelled, FailureReasonUnknown)
  else match asDNS err with
  | Some (timeout, notFound) =>
    (ErrorCodeDNS, if timeout then FailureReasonDNSTimeout else if notFound then FailureReasonDNSNotFound else FailureReasonUnknown)
  | None =>
    match asVerification err with
    | Some inner => (ErrorCodeTLS, (classifyCertificateError inner).1)
    | None =>
      let '(reason, ok) := classifyCertificateError (asCertificate err) in
      if ok then (ErrorCodeTLS, reason)
      else if asRecordHeader err then (ErrorCodeTLS, FailureReasonTLSNegotiation)
      else if asAlert err then (ErrorCodeTLS, FailureReasonTLSNegotiation)
      else if isRefused err then (ErrorCodeConnect, FailureReasonConnectRefused)
      else if isReset err || isPipe err then (ErrorCodeIO, FailureReasonConnectionReset)
      else if isEOF err then (ErrorCodeIO, FailureReasonConnectionReset)
      else if isUnexpectedEOF err || isClosedPipe err || isNetClosed err then (ErrorCodeIO, FailureReasonConnectionClosed)
      else if netTimeout err then (ErrorCodeConnect, FailureReasonConnectTimeout)
      else (ErrorCodeIO, FailureReasonUnknown)
    end
  end.

(** transport_raw.go, [rawFailure]. *)
Definition rawFailure (code : ErrorCode) (reason : FailureReason) (committed : bool) : AttemptOutcome :=
  mkOutcome None (Some (mkFailure code reason committed CauseCategoryNone)).

(** transport_raw.go, [dialFailure]. *)
Definition dialFailure (ctx : ctxView) (err : goError) : AttemptOutcome :=
  if asTLSNegotiation err then rawFailure ErrorCodeTLS FailureReasonTLSNegotiation false
  else match asProxy err with
  | Some FailureCredentials =>
    mkOutcome None (Some (mkFailure ErrorCodeConfiguration FailureReasonUnknown false CauseCategoryProxyCredentialProvider))
  | Some FailureAuthRequired => rawFailure ErrorCodeProxy FailureReasonProxyAuthRequired false
  | Some FailureConnect => rawFailure ErrorCodeProxy FailureReasonProxyConnectFailed false
  | None =>
    if (ctxError ctx ==? None) && isDeadlineExceeded err
    then rawFailure ErrorCodeConnect FailureReasonConnectTimeout false
    else let '(code, reason) := classifyTransportCause ctx err in rawFailure code reason false
  end.

(** transport_raw.go, [staleH1Failure]. *)
Definition staleH1Failure (err : goError) : bool := isEOF err || isUnexpectedEOF err || isNetClosed err || isReset err.

(** ** Endpoints and requests *)

Record rawEndpoint := mkEndpoint {
  ep_scheme : bytes;
  ep_authority : bytes;
  ep_target : bytes;
  ep_dialAddress : bytes;
  ep_serverName : bytes
}.

(** transport_raw.go, [addressWithDefaultPort]. *)
Definition addressWithDefaultPort (host port fallback : bytes) : bytes :=
  JoinHostPort host (if port ==? [] then fallback else port).

(** transport_raw.go, [parseRawEndpoint]. *)
Definition parseRawEndpoint (raw : bytes) : option rawEndpoint :=
  match Parse raw with
  | None => None
  | Some u =>
    if User u || (Host u ==? []) || negb (Fragment u ==? []) || negb (Opaque u ==? []) ||
       (negb (GoURL.Scheme u ==? B "http") && negb (GoURL.Scheme u ==? B "https")) then None
    else
      let path := EscapedPath u in
      let target := (if path ==? [] then B "/" else path) ++ (if RawQuery u ==? [] then [] else B "?" ++ RawQuery u) in
      if existsb (fun it => (start_byte it <=? 32) || (start_byte it =? 127)) (range target) then None
      else Some (mkEndpoint (GoURL.Scheme u) (Host u) target
             (addressWithDefaultPort (Hostname u) (Port u) (if GoURL.Scheme u ==? B "https" then B "443" else B "80")) (Hostname u))
  end.

(** transport_raw.go, [makeH1Request]; [None] is [ErrInvalidRequest]. *)
Definition makeH1Request (ep : rawEndpoint) (r : AttemptRequest) : option Wire.Request :=
  match Request_Headers r with
  | authorization :: contentType :: acceptEncoding :: userAgent :: idempotency :: more =>
    if negb (EqualFold (Name authorization) (B "authorization")) || negb (EqualFold (Name contentType) (B "content-type")) ||
       negb (EqualFold (Name acceptEncoding) (B "accept-encoding")) || negb (EqualFold (Name userAgent) (B "user-agent")) ||
       negb (EqualFold (Name idempotency) (B "idempotency-key")) then None
    else if negb (Value contentType ==? B "application/json") || negb (Value acceptEncoding ==? B "gzip") then None
    else
      let make traceparent tracestate :=
        Some (Wire.mkRequest (ep_target ep) (ep_authority ep) (Value authorization) (Value userAgent) (Value idempotency)
                traceparent tracestate (Request_Body r)) in
      match more with
      | [] => make [] []
      | [tp] => if EqualFold (Name tp) (B "traceparent") then make (Value tp) [] else None
      | [tp; ts] =>
        if EqualFold (Name tp) (B "traceparent") && EqualFold (Name ts) (B "tracestate") then make (Value tp) (Value ts) else None
      | _ => None
      end
  | _ => None
  end.

(** transport_raw.go, [makeH2Request], without its callbacks. *)
Definition makeH2Request (ep : rawEndpoint) (r : Wire.Request) : H2Frame.Request :=
  mkRequest2 (ep_scheme ep) (ep_authority ep) (ep_target ep) (Wire.Authorization r) (Wire.UserAgent r) (Wire.IdempotencyKey r)
    (Wire.Traceparent r) (Wire.Tracestate r) (Wire.RequestBody r).

(** ** Outcomes *)

(** transport_raw.go, [responseHeaderSnapshot] and [capture]. *)
Record headerSnapshot := mkSnapshot { snap_at : Z; snap_set : bool; snap_failed : bool }.
Definition noSnapshot : headerSnapshot := mkSnapshot zeroTime false false.
Definition capture (wall : option (Z * bool)) (status : Z) (headers : list HeaderField) (s : headerSnapshot) : headerSnapshot :=
  let '(at_, set, failed) := snapshotResponseWallTime wall status headers in
  if negb set && negb failed then s else mkSnapshot at_ set failed.

Definition h1Headers (hs : list Wire.Header) : list HeaderField := map (fun h => mkHeader (Wire.Name h) (Wire.Value h)) hs.
Definition h2Headers (hs : list H2Frame.Header) : list HeaderField := map (fun h => mkHeader (Name2 h) (Value2 h)) hs.

(** transport_raw.go, [h1Outcome] and [h2Outcome]: the response they build. *)
Definition rawResponse (status : Z) (headers : list HeaderField) (body : bytes) (compressed decompressed : Z) (truncated : bool)
    (s : headerSnapshot) : AttemptResponse :=
  let strange := (status <? 100) || (599 <? status) in
  mkResponse (if strange then 202 else status) (Some headers) (Some (if strange then [] else body)) compressed decompressed truncated
    (snap_at s) (snap_set s) (snap_failed s) false false false false false ErrorCodeNone FailureReasonNone false None.
Definition h1Response (r : Wire.Response) (s : headerSnapshot) : AttemptResponse :=
  rawResponse (Wire.Status r) (h1Headers (Wire.Headers r)) (default [] (Wire.Body r)) (Wire.CompressedBytes r)
    (Wire.DecompressedBytes r) (Wire.Truncated r) s.
Definition h2Response (r : H2Frame.Response) (s : headerSnapshot) : AttemptResponse :=
  rawResponse (Status2 r) (h2Headers (Headers2 r)) (Body2 r) (CompressedBytes2 r) (DecompressedBytes2 r) (Truncated2 r) s.
Definition answered (r : AttemptResponse) : AttemptOutcome := mkOutcome (Some r) None.

(** Assignments to single fields. *)
Definition set_incomplete (r : AttemptResponse) : AttemptResponse :=
  let '(mkResponse s h b cb db t ha hs hf pv lv _ rf hl fc fr nm cl) := r in
  mkResponse s h b cb db t ha hs hf pv lv true rf hl fc fr nm cl.
Definition set_attemptFailure (code : ErrorCode) (reason : FailureReason) (r : AttemptResponse) : AttemptResponse :=
  let '(mkResponse s h b cb db t ha hs hf pv lv ic rf hl _ _ nm cl) := r in
  mkResponse s h b cb db t ha hs hf pv lv ic rf hl code reason nm cl.

(** transport_raw.go, [markBodyLimitViolation]. *)
Definition markBodyLimitViolation (r : AttemptResponse) : AttemptResponse :=
  if (responseContentEncoding (headers_of r)).1 ==? B "gzip" then set_protocolViolation r else set_limitViolation r.

Record rawExchange := mkExchange {
  ex_response : Wire.Response;
  ex_snapshot : headerSnapshot;
  ex_responseBytes : Z;
  ex_requestWrote : bool;
  ex_committed : bool;
  ex_err : option goError
}.

(** transport_raw.go, [h1ErrorOutcome]. *)
Definition h1ErrorResponse (x : rawExchange) : AttemptResponse :=
  h1Response (Wire.set_Truncated false (Wire.set_Body [] (ex_response x))) (ex_snapshot x).

Definition unsuccessful (status : Z) : bool := (status <? 200) || (300 <=? status).

(** transport_raw.go, [mapH1Exchange]. *)
Definition mapH1Exchange (ctx : ctxView) (x : rawExchange) : AttemptOutcome :=
  let status := Wire.Status (ex_response x) in
  match ex_err x with
  | None => answered (h1Response (ex_response x) (ex_snapshot x))
  | Some err =>
    match isWire err with
    | Some Wire.ErrBodyTooLarge =>
      answered (set_retryForbidden (unsuccessful status) (markBodyLimitViolation (h1ErrorResponse x)))
    | Some Wire.ErrExpansionRatio =>
      answered (set_retryForbidden (unsuccessful status) (set_protocolViolation (h1ErrorResponse x)))
    | Some Wire.ErrHeaderLimit =>
      answered (set_headerLimitViolation (set_retryForbidden true (set_limitViolation (h1ErrorResponse x))))
    | Some Wire.ErrProtocol =>
      answered (set_retryForbidden (unsuccessful status) (set_protocolViolation (h1ErrorResponse x)))
    | Some Wire.ErrIncompleteBody => answered (set_incomplete (h1Response (ex_response x) (ex_snapshot x)))
    | _ =>
      let '(code, reason) := classifyTransportCause ctx err in
      if (code ==? ErrorCodeAttemptTimeout) && between 100 status 599
      then answered (set_attemptFailure code reason (h1Response (ex_response x) (ex_snapshot x)))
      else rawFailure code reason (ex_committed x)
    end
  end.

(** transport_raw.go, [mapH2Exchange]; [tracker] is what the commit tracker says. *)
Definition mapH2Exchange (ctx : ctxView) (r : H2Frame.Response) (err : option goError) (s : headerSnapshot) (tracker : bool)
    : AttemptOutcome :=
  match err with
  | None => answered (h2Response r s)
  | Some err =>
    match asSession err with
    | Some (ResponseError ErrResponseTooLarge) =>
      answered (set_retryForbidden (unsuccessful (Status2 r)) (markBodyLimitViolation (h2Response r s)))
    | Some (ResponseError ErrResponseProtocol) =>
      answered (set_retryForbidden (unsuccessful (Status2 r)) (set_protocolViolation (h2Response r s)))
    | Some (GoAwayError _ _) => rawFailure ErrorCodeIO FailureReasonConnectionClosed false
    | Some (StreamResetError _) => rawFailure ErrorCodeIO FailureReasonConnectionReset tracker
    | _ =>
      let '(code, reason) := classifyTransportCause ctx err in
      if (code ==? ErrorCodeAttemptTimeout) && between 100 (Status2 r) 599
      then answered (set_attemptFailure code reason (h2Response r s))
      else rawFailure code reason tracker
    end
  end.

(** [unicode.IsSpace]. *)
Definition isSpace (r : Z) : bool :=
  between 9 r 13 || (r =? 32) || (r =? 133) || (r =? 160) || (r =? 5760) || between 8192 r 8202 ||
  (r =? 8232) || (r =? 8233) || (r =? 8239) || (r =? 8287) || (r =? 12288).
Fixpoint dropSpace (rs : list Z) : list Z :=
  match rs with r :: rs' => if isSpace r then dropSpace rs' else rs | [] => [] end.
(** [strings.EqualFold(strings.TrimSpace(token), "close")], on the runes of the token. *)
Definition closeToken (token : bytes) : bool :=
  map fold_rune (rev (dropSpace (rev (dropSpace (map rune (range token)))))) ==? B "close".

(** transport_raw.go, [responseClosesConnection]. *)
Definition responseClosesConnection (hs : list Wire.Header) : bool :=
  existsb (fun h => EqualFold (Wire.Name h) (B "connection") && existsb closeToken (Split (Wire.Value h) 44)) hs.

(** ** One exchange over HTTP/1.1 *)

(** A connection: whether the server asked for a client certificate; the error of
    [SetDeadline]; its writer and the error that comes with a failed write; the bytes to
    come, what follows them and the other errors of reading; the size of the buffer and
    the bytes that the exchange took from the network. *)
Record rawH1Connection := mkH1Connection {
  clientCertificateRequested : bool;
  setDeadlineError : option goError;
  connWriter : nat -> bytes -> Z * bool;
  writeError : goError;
  stream : bytes;
  streamEnding : Wire.readError;
  readErrors : nat -> goError;
  bufferSize : nat;
  receivedBytes : Z
}.

(** The error that [WriteRequest] or [ReadResponseWithHeaders] returns. *)
Definition exchangeError (c : rawH1Connection) (e : Wire.h1Error) : goError :=
  match e with
  | Wire.ReadFailed Wire.EOF => eofError
  | Wire.ReadFailed Wire.ErrUnexpectedEOF => unexpectedEOFError
  | Wire.ReadFailed (Wire.OtherReadError n) => readErrors c n
  | Wire.WriteFailed => writeError c
  | e => wireError e
  end.

Definition marksCommit (ev : Wire.wireEvent) : bool := match ev with Wire.Committed => true | Wire.Wrote _ => false end.

Section exchange.
Context {G : Wire.Gzip}.

(** transport_raw.go, [exchangeH1]; [wall] is what the wall clock of the request answers. *)
Definition exchangeH1 (c : rawH1Connection) (wall : option (Z * bool)) (request : Wire.Request) : rawExchange :=
  match setDeadlineError c with
  | Some e => mkExchange Wire.emptyResponse noSnapshot 0 false false (Some e)
  | None =>
    let '(evs, err) := Wire.WriteRequest (connWriter c) request true in
    let committed := existsb marksCommit evs in
    match err with
    | Some e => mkExchange Wire.emptyResponse noSnapshot 0 false committed (Some (exchangeError c e))
    | None =>
      let '(heads, (response, res)) := Wire.readFinalResponse (bufferSize c) (streamEnding c) (stream c) in
      let snapshot := fold_left (fun s h => capture wall (Wire.Status h) (h1Headers (Wire.Headers h)) s) heads noSnapshot in
      mkExchange response snapshot (receivedBytes c) true committed
        (match res with Ok _ => None | Err e => Some (exchangeError c e) end)
    end
  end.

(** ** One attempt *)

(** operation.go, [callWallClock]; a clock answers [None] when it panics. *)
Definition callWallClock (clock : option Z) : Z * bool := match clock with Some t => (t, true) | None => (zeroTime, false) end.

(** What a lease or a dial gives: an HTTP/1.1 connection or an HTTP/2 session, with the
    answer of [Do] and whether the session can be used again. *)
Record h2Answer := mkH2Answer {
  answer_response : H2Frame.Response;
  answer_err : option goError;
  answer_snapshot : headerSnapshot;
  answer_reusable : bool
}.
Inductive resource := H1Resource (c : rawH1Connection) | H2Resource (send : H2Frame.Request -> h2Answer).

(** The environment of an attempt: the context and the wall clock, asked again at every
    use, the pool, the second dial, and what the commit tracker says at the end. *)
Record transportEnv := mkTransportEnv {
  ctxAt : nat -> ctxView;
  wallClock : nat -> option Z;
  acquire : bytes -> result goError (resource * bool);
  dialAgain : result goError resource;
  trackerCommitted : bool
}.

(** What happens to connections: a lease is taken or given back, a connection of the
    attempt's own is opened or closed, and an exchange writes to a connection. *)
Inductive connEvent :=
| LeaseTaken | LeaseReleased (reusable : bool) | FreshOpened | FreshClosed
| Exchanged (written : list Wire.wireEvent).

(** What an exchange writes. *)
Definition written (c : rawH1Connection) (request : Wire.Request) : list Wire.wireEvent :=
  match setDeadlineError c with Some _ => [] | None => (Wire.WriteRequest (connWriter c) request true).1 end.

(** transport_raw.go, [sendH1]: its events and its outcome. *)
Definition sendH1 (E : transportEnv) (request : Wire.Request) (reused : bool) (c : rawH1Connection)
    : list connEvent * AttemptOutcome :=
  let x := exchangeH1 c (Some (callWallClock (wallClock E 0))) request in
  let first := Exchanged (written c request) in
  match ex_err x with
  | Some err =>
    if clientCertificateRequested c then ([first; LeaseReleased false], rawFailure ErrorCodeTLS FailureReasonTLSNegotiation false)
    else if reused && ex_requestWrote x && (ex_responseBytes x =? 0) && staleH1Failure err then
      match dialAgain E with
      | Err dialErr =>
        let failure := match Outcome_Failure (dialFailure (ctxAt E 0) dialErr) with
                       | Some f => Some (mkFailure (Failure_Code f) (Failure_FailureReason f) (ex_committed x) (Failure_causeCategory f))
                       | None => None
                       end in
        ([first; LeaseReleased false], mkOutcome None failure)
      | Ok (H2Resource _) =>
        ([first; LeaseReleased false; FreshOpened; FreshClosed], rawFailure ErrorCodeIO FailureReasonUnknown (ex_committed x))
      | Ok (H1Resource fresh) =>
        let z := exchangeH1 fresh (Some (callWallClock (wallClock E 1))) request in
        let y := mkExchange (ex_response z) (ex_snapshot z) (ex_responseBytes z) (ex_requestWrote z)
                   (ex_committed x || ex_committed z) (ex_err z) in
        ([first; LeaseReleased false; FreshOpened; Exchanged (written fresh request); FreshClosed], mapH1Exchange (ctxAt E 1) y)
      end
    else ([first; LeaseReleased false], mapH1Exchange (ctxAt E 1) x)
  | None =>
    let reusable := (ctxError (ctxAt E 0) ==? None) && (200 <=? Wire.Status (ex_response x)) &&
                    negb (responseClosesConnection (Wire.Headers (ex_response x))) in
    ([first; LeaseReleased reusable], mapH1Exchange (ctxAt E 1) x)
  end.

(** transport_raw.go, [Send]. *)
Definition Send (E : transportEnv) (r : AttemptRequest) : list connEvent * AttemptOutcome :=
  let invalid := ([], rawFailure ErrorCodeIO FailureReasonUnknown false) in
  match parseRawEndpoint (Request_APIURL r) with
  | None => invalid
  | Some ep =>
    match makeH1Request ep r with
    | None => invalid
    | Some h1Request =>
      match acquire E (ep_scheme ep ++ B "://" ++ ep_authority ep) with
      | Err err => ([], dialFailure (ctxAt E 0) err)
      | Ok (H1Resource c, reused) =>
        let '(evs, o) := sendH1 E h1Request reused c in (LeaseTaken :: evs, o)
      | Ok (H2Resource send, _) =>
        let a := send (makeH2Request ep h1Request) in
        ([LeaseTaken; LeaseReleased (answer_reusable a)],
         mapH2Exchange (ctxAt E 0) (answer_response a) (answer_err a) (answer_snapshot a) (trackerCommitted E))
      end
    end
  end.
End exchange.

(** ** Dialling *)

(** What a dial meets: the TCP connection or, through a proxy, the tunnel; the TLS
    handshake with the protocol it negotiates, and whether the server asked for a
    certificate during it; the start of an HTTP/2 session. *)
Record dialEnv := mkDialEnv {
  tcp : option goError;
  tunnel : option tunnelEnv;
  hasCertificate : bool;
  certificateAsked : bool;
  handshake : result goError bytes;
  newSession : option goError
}.
Inductive poolMode := Exclusive | Shared.
Inductive dialEvent := ConnectionOpened | ConnectionClosed.
(** An HTTP/1.1 connection that knows whether it was asked for a certificate, or an HTTP/2
    session. *)
Inductive dialled := DialledH1 (certificateRequested : bool) | DialledH2.

(** How a connection is made: [ConnPanicked] is a slice out of range in the tunnel. *)
Inductive connected := ConnOpen | ConnFailed (e : goError) | ConnPanicked.

(** transport_raw.go, [dialProxy]. *)
Definition dialProxy (T : tunnelEnv) (dialAddress : bytes) : connected :=
  match (Connect T dialAddress).2 with Tunnel _ _ => ConnOpen | Failure k => ConnFailed (proxyError k) | Crashed => ConnPanicked end.

(** transport_raw.go, [dial]; an error is [None] for a panic. *)
Definition dial (D : dialEnv) (ep : rawEndpoint) : list dialEvent * result (option goError * poolMode) (dialled * poolMode) :=
  match match tunnel D with
        | None => match tcp D with Some e => ConnFailed e | None => ConnOpen end
        | Some T => dialProxy T (ep_dialAddress ep)
        end with
  | ConnPanicked => ([], Err (None, Exclusive))
  | ConnFailed e => ([], Err (Some e, Exclusive))
  | ConnOpen =>
    if negb (ep_scheme ep ==? B "https") then ([ConnectionOpened], Ok (DialledH1 false, Exclusive))
    else
      let requested := negb (hasCertificate D) && certificateAsked D in
      match handshake D with
      | Err e => ([ConnectionOpened; ConnectionClosed], Err (Some (if requested then rawTLSNegotiationError else e), Exclusive))
      | Ok protocol =>
        if protocol ==? B "h2" then
          match newSession D with
          | Some e => ([ConnectionOpened; ConnectionClosed], Err (Some (if requested then rawTLSNegotiationError else e), Shared))
          | None => ([ConnectionOpened], Ok (DialledH2, Shared))
          end
        else ([ConnectionOpened], Ok (DialledH1 requested, Exclusive))
      end
  end.

(** ** Lemmas *)

Section facts.
Context {G : Wire.Gzip}.

Lemma marks_commits evs : existsb marksCommit evs = (0 <? Wire.commits evs).
Proof.
  assert (forall l, 0 <= Wire.commits l) as Hn by (intros l; induction l as [|[] l IH]; cbn; lia).
  induction evs as [|[d|] evs IH]; cbn; [done|done|]. symmetry. apply Z.ltb_lt. specialize (Hn evs). lia.
Qed.

(** The body is reached when more is written than the header. *)
Definition reachesBody (q : Wire.Request) (w : list Wire.wireEvent) : bool :=
  len (Wire.requestHeader q) <? len (Wire.taken w).

Lemma exchangeH1_committed c wall q : ex_committed (exchangeH1 c wall q) = reachesBody q (written c q).
Proof.
  unfold exchangeH1, written, reachesBody. destruct (setDeadlineError c).
  { symmetry. apply Z.ltb_ge. apply len_nonneg. }
  destruct (Wire.WriteRequest (connWriter c) q true) as [evs err] eqn:Ew. pose proof (Wire.WriteRequest_spec _ _ _ _ Ew) as (_ & _ & Hc & _).
  assert (existsb marksCommit evs = (len (Wire.requestHeader q) <? len (Wire.taken evs))) as H.
  { rewrite marks_commits, Hc. by destruct (_ <? _). }
  destruct err; [done|]. by destruct (Wire.readFinalResponse _ _ _) as [heads [response res]].
Qed.

(** An exchange that wrote its request wrote the whole of it. *)
Lemma exchangeH1_wrote c wall q : ex_requestWrote (exchangeH1 c wall q) = true ->
  Wire.taken (written c q) = Wire.requestHeader q ++ Wire.RequestBody q /\
  exists heads res, Wire.readFinalResponse (bufferSize c) (streamEnding c) (stream c) = (heads, (ex_response (exchangeH1 c wall q), res)) /\
    (ex_err (exchangeH1 c wall q) = None <-> is_ok res = true) /\ ex_responseBytes (exchangeH1 c wall q) = receivedBytes c.
Proof.
  unfold exchangeH1, written. destruct (setDeadlineError c); [done|].
  destruct (Wire.WriteRequest (connWriter c) q true) as [evs err] eqn:Ew.
  pose proof (Wire.WriteRequest_spec _ _ _ _ Ew) as (_ & (tail & Ht & Hn) & _). destruct err; [done|].
  rewrite (Hn eq_refl), app_nil_r in Ht. destruct (Wire.readFinalResponse _ _ _) as [heads [response res]]. intros _. split; [done|].
  exists heads, res. split_and!; [done|by destruct res|done].
Qed.
Lemma exchangeH1_ok c wall q : ex_err (exchangeH1 c wall q) = None -> ex_requestWrote (exchangeH1 c wall q) = true.
Proof.
  unfold exchangeH1. destruct (setDeadlineError c); [done|]. destruct (Wire.WriteRequest _ _ _) as [evs [e|]]; [done|].
  by destruct (Wire.readFinalResponse _ _ _) as [heads [response res]].
Qed.

(** The codes of a classification, and of a failure. *)
Lemma classifyTransportCause_code ctx err :
  (classifyTransportCause ctx err).1 ∈ [ErrorCodeAttemptTimeout; ErrorCodeCancelled; ErrorCodeDNS; ErrorCodeTLS; ErrorCodeConnect; ErrorCodeIO].
Proof.
  unfold classifyTransportCause. destruct (_ || _ || _); [by repeat constructor|]. destruct (_ || _); [by repeat constructor|].
  destruct (asDNS err) as [[]|]; [by repeat constructor|]. destruct (asVerification err); [by repeat constructor|].
  destruct (classifyCertificateError _) as [? []]; [by repeat constructor|].
  repeat match goal with |- context [if ?b then _ else _] => destruct b; [by repeat constructor|] end. by repeat constructor.
Qed.

Lemma rawFailure_valid code reason committed :
  code ∈ [ErrorCodeAttemptTimeout; ErrorCodeCancelled; ErrorCodeDNS; ErrorCodeTLS; ErrorCodeConnect; ErrorCodeIO; ErrorCodeProxy] ->
  validAttemptFailure (Outcome_Failure (rawFailure code reason committed)) = true.
Proof. intros H. cbn. rewrite !elem_of_cons, elem_of_nil in H. by destruct H as [->|[->|[->|[->|[->|[->|[->|[]]]]]]]]. Qed.

Lemma classified_valid ctx err committed : let '(code, reason) := classifyTransportCause ctx err in
  validAttemptFailure (Outcome_Failure (rawFailure code reason committed)) = true.
Proof.
  pose proof (classifyTransportCause_code ctx err) as H. destruct (classifyTransportCause ctx err) as [code reason].
  apply rawFailure_valid. cbn in H. rewrite !elem_of_cons in *. tauto.
Qed.

Lemma dialFailure_valid ctx err : exists f, dialFailure ctx err = mkOutcome None (Some f) /\ validAttemptFailure (Some f) = true /\
  Failure_Committed f = false.
Proof.
  unfold dialFailure. destruct (asTLSNegotiation err); [by eexists|]. destruct (asProxy err) as [[]|]; [by eexists..|].
  destruct (_ && _); [by eexists|]. pose proof (classified_valid ctx err false) as H.
  destruct (classifyTransportCause ctx err) as [code reason]. by eexists.
Qed.

(** *** Shapes *)

(** A response that the transport builds: its status, its fields, a body, sizes that
    are not negative, and the time of a snapshot. *)
Record built (status : Z) (headers : list HeaderField) (s : headerSnapshot) (a : AttemptResponse) : Prop := {
  built_status : Status a = status;
  built_headers : Headers a = Some headers;
  built_body : exists b, Body a = Some b;
  built_sizes : 0 <= CompressedBytes a /\ 0 <= DecompressedBytes a;
  built_code : attemptFailureCode a = ErrorCodeNone \/ attemptFailureCode a = ErrorCodeAttemptTimeout;
  built_time : HeadersReceivedAt a = snap_at s /\ HeadersReceivedAtSet a = snap_set s /\ HeaderClockFailed a = snap_failed s
}.

Lemma built_marks status headers s a : built status headers s a ->
  built status headers s (set_protocolViolation a) /\ built status headers s (set_limitViolation a) /\
  built status headers s (set_headerLimitViolation a) /\ built status headers s (set_incomplete a) /\
  (forall v, built status headers s (set_retryForbidden v a)) /\ (forall b, built status headers s (set_Body b a)) /\
  (forall reason, built status headers s (set_attemptFailure ErrorCodeAttemptTimeout reason a)).
Proof.
  intros [H1 H2 H3 H4 H5 H6]. destruct a. cbn in *. split_and!; intros; split; cbn; try done; by eexists || by right.
Qed.
Lemma built_bodyLimit status headers s a : built status headers s a -> built status headers s (markBodyLimitViolation a).
Proof. intros H%built_marks. unfold markBodyLimitViolation. destruct (_ ==? _); tauto. Qed.

Lemma built_snapshot status headers s a : built status headers s a ->
  exists a', snapshotAttemptResponse (Some a) = Some a' /\ built status headers s a'.
Proof.
  intros H. pose proof (built_marks _ _ _ _ H) as (Hp & Hl & _ & _ & Hrf & Hb & _). pose proof (built_headers _ _ _ _ H) as Hh.
  destruct (validateResponseHeaders headers) as [[f n] []] eqn:Ev.
  - rewrite snapshot_headers_valid; [|unfold headers_pass, headers_valid; by rewrite Hh, Ev].
    eexists. split; [done|]. unfold check_sizes. destruct (_ && _ && _ && _); [|done]. by destruct (_ ==? _).
  - rewrite (snapshot_headers_invalid _ _ f n Hh Ev). eexists. split; [done|]. unfold markResponseHeaderViolation.
    destruct (responseHeadersExceedLimit _ _ _); [|apply built_marks in Hp; apply Hp]. apply built_marks in Hl as (_ & _ & _ & _ & Hl & _).
    specialize (Hl true). apply built_marks in Hl as (_ & _ & Hl & _). apply built_marks in Hl. apply Hl.
Qed.

(** Its shape is judged by the time alone. *)
Lemma built_shape status headers s a : built status headers s a -> 100 <= status <= 599 ->
  validAttemptResponseShape a =
  negb (negb (eqb (snap_set s) (negb (snap_at s =? zeroTime))) ||
        (snap_failed s && (snap_set s || negb (snap_at s =? zeroTime))) ||
        ((snap_set s || snap_failed s) && negb (responseNeedsWallSnapshotForStatus status headers)) ||
        (responseNeedsWallSnapshotForStatus status headers && negb (snap_set s) && negb (snap_failed s))).
Proof.
  intros [H1 H2 [b H3] [H4 H5] H6 (H7 & H8 & H9)] Hs. unfold validAttemptResponseShape. rewrite H1, H2, H3, H7, H8, H9.
  assert ((status <? 100) || (599 <? status) || (CompressedBytes a <? 0) || (DecompressedBytes a <? 0) ||
          (negb (attemptFailureCode a ==? ErrorCodeNone) && negb (attemptFailureCode a ==? ErrorCodeAttemptTimeout)) = false) as ->; [|done].
  destruct H6 as [-> | ->]; cbn; rewrite ?orb_false_r; repeat (apply orb_false_iff; split); apply Z.ltb_ge; lia.
Qed.

Lemma built_raw status headers body compressed decompressed truncated s : 0 <= compressed -> 0 <= decompressed ->
  built (if (status <? 100) || (599 <? status) then 202 else status) headers s
    (rawResponse status headers body compressed decompressed truncated s).
Proof. intros H1 H2. split; cbn; try done; [by eexists|by left]. Qed.

(** An HTTP/1.1 exchange ends with a built response, or with a failure that tells
    whether the exchange was committed. *)
Lemma mapH1Exchange_shape ctx x : 0 <= Wire.CompressedBytes (ex_response x) -> 0 <= Wire.DecompressedBytes (ex_response x) ->
  let st := Wire.Status (ex_response x) in
  (exists a, mapH1Exchange ctx x = mkOutcome (Some a) None /\
     built (if (st <? 100) || (599 <? st) then 202 else st) (h1Headers (Wire.Headers (ex_response x))) (ex_snapshot x) a) \/
  (exists f, mapH1Exchange ctx x = mkOutcome None (Some f) /\ validAttemptFailure (Some f) = true /\ Failure_Committed f = ex_committed x).
Proof.
  intros Hc Hd st. assert (built (if (st <? 100) || (599 <? st) then 202 else st) (h1Headers (Wire.Headers (ex_response x))) (ex_snapshot x)
    (h1Response (ex_response x) (ex_snapshot x))) as Hb by by apply built_raw.
  assert (built (if (st <? 100) || (599 <? st) then 202 else st) (h1Headers (Wire.Headers (ex_response x))) (ex_snapshot x)
    (h1ErrorResponse x)) as He. { unfold h1ErrorResponse, h1Response. destruct (ex_response x); by apply built_raw. }
  pose proof (built_bodyLimit _ _ _ _ He) as Hm. apply built_marks in Hm as (_ & _ & _ & _ & Hm & _).
  pose proof (built_marks _ _ _ _ He) as (Hep & Hel & _). apply built_marks in Hep as (_ & _ & _ & _ & Hep & _).
  apply built_marks in Hel as (_ & _ & _ & _ & Hel & _). specialize (Hel true). apply built_marks in Hel as (_ & _ & Hel & _).
  pose proof (built_marks _ _ _ _ Hb) as (_ & _ & _ & Hi & _ & _ & Ht).
  unfold mapH1Exchange. destruct (ex_err x) as [err|]; [|left; by eexists].
  pose proof (classified_valid ctx err (ex_committed x)) as Hv. destruct (classifyTransportCause ctx err) as [code reason].
  assert ((exists a, (if (code ==? ErrorCodeAttemptTimeout) && between 100 st 599
      then answered (set_attemptFailure code reason (h1Response (ex_response x) (ex_snapshot x)))
      else rawFailure code reason (ex_committed x)) = mkOutcome (Some a) None /\
     built (if (st <? 100) || (599 <? st) then 202 else st) (h1Headers (Wire.Headers (ex_response x))) (ex_snapshot x) a) \/
    (exists f, (if (code ==? ErrorCodeAttemptTimeout) && between 100 st 599
      then answered (set_attemptFailure code reason (h1Response (ex_response x) (ex_snapshot x)))
      else rawFailure code reason (ex_committed x)) = mkOutcome None (Some f) /\ validAttemptFailure (Some f) = true /\
      Failure_Committed f = ex_committed x)) as Hrest.
  { destruct (_ && _) eqn:E; [left|right; by eexists]. apply andb_true_iff in E as [->%eqb_true_1 _]. by eexists. }
  destruct (isWire err) as [[]|]; try exact Hrest; left; by eexists.
Qed.

End facts.

(** ** Theorems *)

Section theorems.
Context {G : Wire.Gzip} {L : Wire.GzipLaws G}.

(** What [operation.go] makes of an outcome before it judges it. *)
Definition judged (o : AttemptOutcome) : AttemptOutcome :=
  mkOutcome (snapshotAttemptResponse (Outcome_Response o)) (Outcome_Failure o).

(** The heads that were read completely. *)
Definition headsSeen (c : rawH1Connection) : list Wire.Response :=
  (Wire.readFinalResponse (bufferSize c) (streamEnding c) (stream c)).1.

(** The time of the head is known when a head is complete. *)
Lemma exchangeH1_snapshot c clock q : (0 < bufferSize c)%nat -> clock <> Some zeroTime ->
  let x := exchangeH1 c (Some (callWallClock clock)) q in
  0 <= Wire.CompressedBytes (ex_response x) /\ 0 <= Wire.DecompressedBytes (ex_response x) /\
  (ex_snapshot x = noSnapshot /\ (headsSeen c = [] \/ Wire.Headers (ex_response x) = []) \/
   200 <= Wire.Status (ex_response x) <= 599 /\
   ex_snapshot x = capture (Some (callWallClock clock)) (Wire.Status (ex_response x)) (h1Headers (Wire.Headers (ex_response x))) noSnapshot) /\
  (headsSeen c = [] -> ex_snapshot x = noSnapshot).
Proof.
  intros Hsize Hclock x. unfold x, exchangeH1, headsSeen. destruct (setDeadlineError c); [cbn; split_and!; auto; lia|].
  destruct (Wire.WriteRequest _ _ _) as [evs [e|]]; [cbn; split_and!; auto; lia|].
  destruct (Wire.readFinalResponse _ _ _) as [heads [response res]] eqn:Er. cbn.
  pose proof (Wire.readFinalResponse_bounded _ _ _ _ _ _ Hsize Er) as (_ & _ & H1 & H2 & _).
  destruct (Wire.readFinalResponse_seen _ _ _ _ _ _ Hsize Er) as [-> | [-> Hst]]; cbn; split_and!; try lia; try done; [by auto|].
  right. split; [lia|done].
Qed.

Lemma capture_shape clock status headers a : clock <> Some zeroTime -> 100 <= status <= 599 ->
  built status headers (capture (Some (callWallClock clock)) status headers noSnapshot) a -> validAttemptResponseShape a = true.
Proof.
  intros Hc Hs Hb. rewrite (built_shape _ _ _ _ Hb Hs). unfold capture, snapshotResponseWallTime.
  destruct (responseNeedsWallSnapshotForStatus status headers); [|by rewrite !eqb_refl].
  unfold callWallClock. destruct clock as [t|]; cbn; [|done].
  destruct (Z.eqb_spec t zeroTime) as [->|]; [done|]. done.
Qed.

Lemma noSnapshot_shape status headers a : 100 <= status <= 599 -> built status headers noSnapshot a ->
  validAttemptResponseShape a = negb (responseNeedsWallSnapshotForStatus status headers).
Proof.
  intros Hs Hb. rewrite (built_shape _ _ _ _ Hb Hs). cbn. by destruct (responseNeedsWallSnapshotForStatus _ _).
Qed.

(** C26. The outcome that an HTTP/1.1 exchange is mapped to passes the checks of the
    operation on outcomes, except exactly when the head of the response was not read
    to its end although the fields read so far hold a Retry-After date for a
    retryable status. *)
Theorem h1_outcome_malformed_exactly ctx c clock q : (0 < bufferSize c)%nat -> clock <> Some zeroTime ->
  let x := exchangeH1 c (Some (callWallClock clock)) q in
  let o := mapH1Exchange ctx x in
  malformedOutcome (judged o) = true <->
  exists a, Outcome_Response o = Some a /\ headsSeen c = [] /\
    responseNeedsWallSnapshotForStatus (Status a) (headers_of a) = true.
Proof.
  intros Hsize Hclock x o. destruct (exchangeH1_snapshot c clock q Hsize Hclock) as (H1 & H2 & H3 & H5). fold x in H1, H2, H3, H5.
  pose proof (mapH1Exchange_shape ctx x H1 H2) as Hm. cbv zeta in Hm. fold o in Hm. set (st := Wire.Status (ex_response x)) in *.
  destruct Hm as [(a & Ho & Hb)|(f & Ho & Hv & _)]; rewrite Ho; cbn [Outcome_Response Outcome_Failure judged].
  2:{ unfold judged, malformedOutcome. cbn [Outcome_Response Outcome_Failure snapshotAttemptResponse]. rewrite Hv. split; [done|]. by intros (a & [=] & _). }
  destruct (built_snapshot _ _ _ _ Hb) as (a' & Hs & Hb'). unfold judged, malformedOutcome. cbn [Outcome_Response Outcome_Failure]. rewrite Hs.
  assert (100 <= (if (st <? 100) || (599 <? st) then 202 else st) <= 599) as Hrange.
  { destruct (_ || _) eqn:E; [lia|]. apply orb_false_iff in E as [E1 E2]. zbool. lia. }
  assert (headers_of a = h1Headers (Wire.Headers (ex_response x))) as Hh by (unfold headers_of; by rewrite (built_headers _ _ _ _ Hb)).
  destruct H3 as [[H3 Hseen]|[H3 H4]].
  - rewrite H3 in Hb'. rewrite (noSnapshot_shape _ _ _ Hrange Hb'), negb_involutive. split.
    + intros Hn. exists a. rewrite (built_status _ _ _ _ Hb), Hh. destruct Hseen as [Hseen|Hseen]; [done|].
      exfalso. revert Hn. rewrite Hseen. unfold responseNeedsWallSnapshotForStatus. by rewrite andb_false_r.
    + intros (? & [= <-] & _ & Hn). by rewrite (built_status _ _ _ _ Hb), Hh in Hn.
  - assert ((if (st <? 100) || (599 <? st) then 202 else st) = st) as Est.
    { rewrite (proj2 (Z.ltb_ge st 100)), (proj2 (Z.ltb_ge 599 st)) by lia. done. }
    rewrite Est, H4 in Hb'. rewrite (capture_shape clock st _ _ Hclock ltac:(lia) Hb'). split; [done|].
    intros (? & [= <-] & Hn%H5 & Hneeds). rewrite H4 in Hb, Hn. rewrite (built_status _ _ _ _ Hb), Hh, Est in Hneeds.
    revert Hn. unfold capture, snapshotResponseWallTime. fold st in Hneeds. rewrite Hneeds. cbn [negb].
    unfold callWallClock. by destruct clock as [t|]; cbn; intros [=].
Qed.
(** A complete exchange: the request was taken to its last byte and the response was
    read to its end. *)
Definition completeExchange (c : rawH1Connection) (q : Wire.Request) (response : Wire.Response) : Prop :=
  Wire.taken (written c q) = Wire.requestHeader q ++ Wire.RequestBody q /\
  exists heads rest, Wire.readFinalResponse (bufferSize c) (streamEnding c) (stream c) = (heads, (response, Ok rest)).
(** And the response does not close the connection. *)
Definition wholeExchange (c : rawH1Connection) (q : Wire.Request) : Prop :=
  exists response, completeExchange c q response /\
    200 <= Wire.Status response /\ responseClosesConnection (Wire.Headers response) = false.

(** The requests are repeated only for a connection that was reused, took the whole
    request and answered nothing. *)
Definition mayReplay (c : rawH1Connection) (q : Wire.Request) (reused : bool) : Prop :=
  reused = true /\ Wire.taken (written c q) = Wire.requestHeader q ++ Wire.RequestBody q /\ receivedBytes c = 0.

Inductive attemptTrace (E : transportEnv) (c : rawH1Connection) (q : Wire.Request) (reused : bool) : list connEvent -> Prop :=
| trace_once b : (b = true -> wholeExchange c q) ->
    attemptTrace E c q reused [LeaseTaken; Exchanged (written c q); LeaseReleased b]
| trace_refused send : mayReplay c q reused -> dialAgain E = Ok (H2Resource send) ->
    attemptTrace E c q reused [LeaseTaken; Exchanged (written c q); LeaseReleased false; FreshOpened; FreshClosed]
| trace_replayed fresh : mayReplay c q reused -> dialAgain E = Ok (H1Resource fresh) ->
    attemptTrace E c q reused
      [LeaseTaken; Exchanged (written c q); LeaseReleased false; FreshOpened; Exchanged (written fresh q); FreshClosed].

(** A byte of the body reached a connection. *)
Definition bodyReached (q : Wire.Request) (evs : list connEvent) : bool :=
  existsb (fun ev => match ev with Exchanged w => reachesBody q w | _ => false end) evs.

Lemma mapH1Exchange_committed ctx x f : Outcome_Failure (mapH1Exchange ctx x) = Some f -> Failure_Committed f = ex_committed x.
Proof.
  unfold mapH1Exchange. destruct (ex_err x) as [err|]; [|done]. destruct (classifyTransportCause ctx err) as [code reason].
  destruct (isWire err) as [[]|]; cbn; try done; (destruct (_ && _); [done|]); by intros [= <-].
Qed.

Lemma sendH1_accounts E q reused c evs o : sendH1 E q reused c = (evs, o) ->
  attemptTrace E c q reused (LeaseTaken :: evs) /\
  (forall f, Outcome_Failure o = Some f ->
     if clientCertificateRequested c then f = mkFailure ErrorCodeTLS FailureReasonTLSNegotiation false CauseCategoryNone
     else Failure_Committed f = bodyReached q (LeaseTaken :: evs)) /\
  (clientCertificateRequested c = true ->
     (exists b, (LeaseTaken :: evs) = [LeaseTaken; Exchanged (written c q); LeaseReleased b]) /\
     forall a, Outcome_Response o = Some a -> exists response s, completeExchange c q response /\ a = h1Response response s).
Proof.
  unfold sendH1. set (x := exchangeH1 c _ q). pose proof (exchangeH1_committed c (Some (callWallClock (wallClock E 0))) q) as Hx. fold x in Hx.
  pose proof (exchangeH1_wrote c (Some (callWallClock (wallClock E 0))) q) as Hw. fold x in Hw.
  pose proof (exchangeH1_ok c (Some (callWallClock (wallClock E 0))) q) as Hk. fold x in Hk.
  assert (forall b evs', bodyReached q (LeaseTaken :: Exchanged (written c q) :: LeaseReleased b :: evs') = ex_committed x || bodyReached q evs') as Hb
    by (intros b evs'; cbn; by rewrite Hx).
  destruct (ex_err x) as [err|] eqn:Ex.
  2:{ destruct (Hw (Hk eq_refl)) as (Ht & heads & res & Hr & Hok & _).
      destruct res as [rest|]; [|by destruct Hok as [Hok _]; specialize (Hok eq_refl)].
      assert (completeExchange c q (ex_response x)) as Hce by (split; eauto).
      assert (mapH1Exchange (ctxAt E 1) x = answered (h1Response (ex_response x) (ex_snapshot x))) as Hm by (unfold mapH1Exchange; by rewrite Ex).
      intros [= <- <-]. rewrite Hm. split; [constructor|split; [done|]].
      - intros Hb'. rewrite !andb_true_iff, negb_true_iff, Z.leb_le in Hb'. exists (ex_response x). tauto.
      - intros _. split; [by eexists|]. cbn. intros a [= <-]. eauto. }
  destruct (clientCertificateRequested c).
  { intros [= <- <-]. split; [by constructor|]. split; [by intros f [= <-]|]. intros _. split; [by eexists|done]. }
  destruct (reused && ex_requestWrote x && (ex_responseBytes x =? 0) && staleH1Failure err) eqn:Er.
  2:{ intros [= <- <-]. split; [by constructor|]. split; [|done]. intros f Hf%mapH1Exchange_committed. by rewrite Hb, Hf, orb_false_r. }
  assert (mayReplay c q reused) as Hm.
  { rewrite !andb_true_iff, Z.eqb_eq in Er. destruct Er as [[[-> Hwr] Hzero] _]. destruct (Hw Hwr) as (Ht & _ & _ & _ & _ & He). split_and!; try done. congruence. }
  destruct (dialAgain E) as [[fresh|send]|err'] eqn:Ed.
  - intros [= <- <-]. split; [by econstructor|]. split; [|done]. intros f Hf%mapH1Exchange_committed. rewrite Hb, Hf. cbn.
    by rewrite (exchangeH1_committed fresh), orb_false_r.
  - intros [= <- <-]. split; [by econstructor|]. split; [|done]. cbn. intros f [= <-]. cbn. by rewrite Hx, orb_false_r.
  - destruct (dialFailure_valid (ctxAt E 0) err') as (f' & -> & _). cbn. intros [= <- <-]. split; [by constructor|]. split; [|done].
    cbn. intros f [= <-]. cbn. by rewrite Hx, orb_false_r.
Qed.

(** C23. An attempt over HTTP/1.1 gives its lease back exactly once and closes every
    connection of its own; a connection is given back as reusable only after it took
    the whole request and its whole response was read and does not close it; the
    request is repeated at most once, and only when a reused connection took all of
    it and answered nothing. When the leased connection was asked for a client
    certificate, the request is not repeated, every failure is the TLS negotiation
    failure, not committed, and a response is one of a complete exchange; otherwise
    a failure says that the request was committed exactly when a byte of the body
    reached a connection, also when the connection of the repetition was asked for a
    certificate. *)
Theorem http1_attempts_account_for_their_bytes E r ep q c reused evs o :
  parseRawEndpoint (Request_APIURL r) = Some ep -> makeH1Request ep r = Some q ->
  acquire E (ep_scheme ep ++ B "://" ++ ep_authority ep) = Ok (H1Resource c, reused) -> Send E r = (evs, o) ->
  attemptTrace E c q reused evs /\
  (forall f, Outcome_Failure o = Some f ->
     if clientCertificateRequested c then f = mkFailure ErrorCodeTLS FailureReasonTLSNegotiation false CauseCategoryNone
     else Failure_Committed f = bodyReached q evs) /\
  (clientCertificateRequested c = true ->
     (exists b, evs = [LeaseTaken; Exchanged (written c q); LeaseReleased b]) /\
     forall a, Outcome_Response o = Some a -> exists response s, completeExchange c q response /\ a = h1Response response s).
Proof.
  intros Hp Hq Ha. unfold Send. rewrite Hp, Hq, Ha. destruct (sendH1 E q reused c) as [evs' o'] eqn:Es. intros [= <- <-].
  by apply sendH1_accounts.
Qed.

(** A dial keeps a connection open exactly when it returns it, and blames a missing client
    certificate for every failure after the server asked for one. *)
Lemma dial_keeps_only_what_it_returns D ep evs res : dial D ep = (evs, res) ->
  match res with
  | Ok (d, mode) => evs = [ConnectionOpened] /\ (mode = Shared <-> d = DialledH2) /\
      (d = DialledH2 -> ep_scheme ep = B "https" /\ handshake D = Ok (B "h2")) /\
      (forall b, d = DialledH1 b -> b = true -> hasCertificate D = false /\ certificateAsked D = true)
  | Err (e, _) => (evs = [] \/ evs = [ConnectionOpened; ConnectionClosed]) /\
      (evs <> [] -> negb (hasCertificate D) && certificateAsked D = true -> e = Some rawTLSNegotiationError)
  end.
Proof.
  unfold dial. match goal with |- match ?m with _ => _ end = _ -> _ => destruct m end.
  2,3: intros [= <- <-]; (split; [by left|done]).
  destruct (ep_scheme ep ==? B "https") eqn:Es; cbn [negb].
  2:{ intros [= <- <-]. split_and!; try done. by intros b [= <-]. }
  apply eqb_true_1 in Es. destruct (handshake D) as [p|e].
  2:{ intros [= <- <-]. split; [by right|]. intros _ ->. done. }
  destruct (p ==? B "h2") eqn:Ep.
  - apply eqb_true_1 in Ep as ->. destruct (newSession D); intros [= <- <-]; [split; [by right|]; intros _ ->; done|]. split_and!; done.
  - intros [= <- <-]. split_and!; try done. intros b [= <-] Hb. by apply andb_true_iff in Hb as [Hb%negb_true_iff ?].
Qed.
End theorems.

(** ** Witnesses and corner cases *)
Module Demo.
#[local] Existing Instances Wire.noGzip Wire.noGzip_laws.

Definition headers : list HeaderField :=
  [mkHeader (B "authorization") (B "Bearer k"); mkHeader (B "content-type") (B "application/json");
   mkHeader (B "accept-encoding") (B "gzip"); mkHeader (B "user-agent") (B "u"); mkHeader (B "idempotency-key") (B "i")].
Definition request : AttemptRequest := mkRequest (B "op") (B "https://api.example/v1/messages") headers (B "{}") 1 0 0.
Definition ep : rawEndpoint :=
  mkEndpoint (B "https") (B "api.example") (B "/v1/messages") (B "api.example:443") (B "api.example").
Definition q : Wire.Request :=
  Wire.mkRequest (B "/v1/messages") (B "api.example") (B "Bearer k") (B "u") (B "i") [] [] (B "{}").
Definition all (_ : nat) (data : bytes) : Z * bool := (len data, false).
(** A connection that takes everything and answers with the given bytes. *)
Definition conn (asked : bool) (answer : bytes) (received : Z) : rawH1Connection :=
  mkH1Connection asked None all plainError answer Wire.EOF (fun _ => plainError) 4096 received.
Definition env (c : rawH1Connection) (reused : bool) (again : result goError resource) : transportEnv :=
  mkTransportEnv (fun _ => mkCtxView false None) (fun _ => Some 1000) (fun _ => Ok (H1Resource c, reused)) again true.
Definition crlf : bytes := Wire.CRLF.
Definition accepted : bytes := B "HTTP/1.1 202 Accepted" ++ crlf ++ B "content-length: 2" ++ crlf ++ crlf ++ B "ok".
Definition broken : bytes :=
  B "HTTP/1.1 503 Busy" ++ crlf ++ B "retry-after: Sun, 06 Nov 1994 08:49:37 GMT" ++ crlf ++ B "bad line" ++ crlf ++ crlf.
Definition dnsError : goError :=
  mkGoError false false (Some (false, true)) None noCert false false false false false false false false false false false None None None.

(** A stale connection, then a fresh one that answers. *)
Lemma http1_attempts_account_for_their_bytes_witness :
  exists evs o, Send (env (conn false [] 0) true (Ok (H1Resource (conn false accepted 9)))) request = (evs, o) /\
    bodyReached q evs = true /\ is_Some (Outcome_Response o) /\
    attemptTrace (env (conn false [] 0) true (Ok (H1Resource (conn false accepted 9)))) (conn false [] 0) q true evs.
Proof.
  eexists _, _. split; [vm_compute; reflexivity|]. split; [vm_compute; reflexivity|]. split; [eexists; reflexivity|].
  eapply (http1_attempts_account_for_their_bytes
    (env (conn false [] 0) true (Ok (H1Resource (conn false accepted 9)))) request ep q (conn false [] 0) true);
    [vm_compute; reflexivity|vm_compute; reflexivity|reflexivity|vm_compute; reflexivity].
Defined.

(** A head that breaks off after the date of a Retry-After field: the operation refuses
    the outcome, and reports neither the status nor the violation. *)
Lemma h1_outcome_malformed_exactly_witness : exists a,
  Outcome_Response (mapH1Exchange (mkCtxView false None) (exchangeH1 (conn false broken 9) (Some (callWallClock (Some 1000))) q)) = Some a /\
  headsSeen (conn false broken 9) = [] /\ responseNeedsWallSnapshotForStatus (Status a) (headers_of a) = true.
Proof.
  apply (h1_outcome_malformed_exactly (mkCtxView false None) (conn false broken 9) (Some 1000) q);
    [cbn; lia|vm_compute; discriminate|vm_compute; reflexivity].
Defined.

(** A server that asked for a certificate accepts the request and breaks off in the body
    of its answer: the request was written, and is reported as not sent. *)
Lemma asked_certificate_hides_a_written_request :
  let broken := B "HTTP/1.1 202 Accepted" ++ crlf ++ B "content-length: 5" ++ crlf ++ crlf ++ B "ok" in
  exists evs o, Send (env (conn true broken 9) false (Err plainError)) request = (evs, o) /\ bodyReached q evs = true /\
    Error_DeliveryState (classifyAttemptFailure (Outcome_Failure o) (attemptCommitted true o)) = DeliveryStateNotSent.
Proof. eexists _, _. split; [vm_compute; reflexivity|]. split; vm_compute; reflexivity. Qed.

(** A replay that fails to dial: the request was written on the first connection, the
    failure says so, and the operation does not raise its floor. *)
Lemma failed_replay_forgets_the_first_request :
  exists evs f, Send (env (conn false [] 0) true (Err dnsError)) request = (evs, mkOutcome None (Some f)) /\
    bodyReached q evs = true /\ Failure_Committed f = true /\ attemptCommitted true (mkOutcome None (Some f)) = false.
Proof. eexists _, _. split; [vm_compute; reflexivity|]. split_and!; vm_compute; reflexivity. Qed.

(** Bytes that follow an answer stay in the buffer of the connection, which is given back
    as reusable, and answer the next request before the server sends anything. *)
Lemma leftover_answers_the_next_request :
  let forged := B "HTTP/1.1 202 Accepted" ++ crlf ++ B "content-length: 4" ++ crlf ++ crlf ++ B "fake" in
  (exists heads response, Wire.readFinalResponse 4096 Wire.EOF (accepted ++ forged) = (heads, (response, Ok forged))) /\
  (exists evs o, Send (env (conn false (accepted ++ forged) 9) false (Err plainError)) request = (evs, o) /\ LeaseReleased true ∈ evs) /\
  exists evs a, Send (env (conn false forged 0) true (Err plainError)) request = (evs, mkOutcome (Some a) None) /\
    Status a = 202 /\ Body a = Some (B "fake").
Proof.
  intros forged. split_and!.
  - eexists _, _. vm_compute. reflexivity.
  - eexists _, _. split; [vm_compute; reflexivity|]. repeat constructor.
  - eexists _, _. split; [vm_compute; reflexivity|]. split; reflexivity.
Qed.
End Demo.
