(* ===== verification/EndToEnd.v ===== *)
(** * From the options of a client to the bytes of a request

    The configuration, the operation, the telemetry and the built-in transport put
    together: every request that a send of a configured runtime hands to the transport
    is one that the transport can write. *)
From S2P Require Import Prelude Errors RuntimeState GoText Response Descriptor Operation H1 H2Frame GoURL Config Telemetry RawTransport.
Import Operation.Protocol.

(** ** Characters *)

Definition printable (c : Z) : bool := between 32 c 126.

Lemma printable_wire s : forallb printable s = true -> Wire.validWireValue s = true.
Proof.
  intros H. unfold Wire.validWireValue. eapply forallb_impl; [|exact H]. unfold printable, between, Wire.wire_char. intros c Hc.
  apply andb_true_iff in Hc as [H1 H2]. zbool.
  destruct (Z.eqb_spec c 13), (Z.eqb_spec c 10), (Z.eqb_spec c 0); (lia || done).
Qed.

Lemma validCredential_chars v : validCredential v = true -> v <> [] /\ forallb printable v = true.
Proof.
  unfold validCredential. destruct (_ || _) eqn:E; [done|]. apply orb_false_iff in E as [E _].
  intros [H _]%andb_true_iff. split; [by apply eqb_false|done].
Qed.
Lemma validIdempotencyKey_chars v : validIdempotencyKey v = true -> v <> [] /\ forallb printable v = true.
Proof.
  unfold validIdempotencyKey. destruct v as [|c v]; [done|]. destruct (_ || _); [done|].
  rewrite (range_ascii (fun c => between 32 c 126)); [done|]. unfold between. intros x Hx. zlia.
Qed.
Lemma userAgent_chars suffix : suffix = [] \/ validUserAgentSuffix suffix = true ->
  operationUserAgent suffix <> [] /\ forallb printable (operationUserAgent suffix) = true.
Proof.
  unfold operationUserAgent. intros H. destruct (suffix ==? []) eqn:E; [split; [done|by vm_compute]|].
  split; [done|]. rewrite !forallb_app. destruct H as [->|H]; [done|]. unfold validUserAgentSuffix in H. destruct suffix; [done|].
  apply andb_true_iff in H as [_ H]. unfold printable. rewrite H. by vm_compute.
Qed.

(** ** Endpoints *)

(** The transport reads an endpoint of a configuration back into its parts. *)
Lemma parseRawEndpoint_canonical raw e : canonicalEndpoint raw = Some e -> exists ep, parseRawEndpoint e = Some ep /\
  e = ep_scheme ep ++ B "://" ++ ep_authority ep ++ ep_target ep /\ len (ep_target ep) <= 2048 /\
  (exists t, ep_target ep = 47 :: t) /\ ep_authority ep <> [] /\ forallb printable (ep_authority ep) = true /\ forallb printable (ep_target ep) = true /\
  (ep_scheme ep = B "http" \/ ep_scheme ep = B "https") /\ ContainsByte (ep_target ep) 35 = false.
Proof.
  intros (scheme & authority & path & Hs & _ & Ha & Hb & _ & _ & _ & Hl & ->)%canonicalEndpoint_sound.
  pose proof (endpointPath_valid _ Hb) as Hv. destruct (Parse_endpoint _ _ _ Hs Ha Hv) as (d & rw & HP & HE & Hc & Hne).
  pose proof Hv as (Hsl & Hch & _)%validBasePath_spec. destruct (endpointPath_shape path) as (a & Hshape & _).
  assert (exists t, endpointPath path = 47 :: t) as [t Ht].
  { destruct (endpointPath path) as [|c t]; [by destruct a|]. subst c. by eexists. }
  assert (forallb (fun c => between 33 c 126) (endpointPath path) = true) as Hpr.
  { eapply forallb_impl; [|apply (basePath_bytes _ Hch)]. unfold pathByte. by intros c [[_ H]%andb_true_iff _]%andb_true_iff. }
  unfold parseRawEndpoint. rewrite HP, HE. cbn [User Host Fragment Opaque GoURL.Scheme RawQuery].
  assert ((authority ==? []) = false) as -> by by apply eqb_false. rewrite eqb_refl. cbn [orb negb].
  assert (negb (scheme ==? B "http") && negb (scheme ==? B "https") = false) as -> by by destruct Hs as [-> | ->].
  cbn iota. rewrite app_nil_r. assert ((endpointPath path ==? []) = false) as -> by (rewrite Ht; by apply eqb_false).
  assert (existsb (fun it => (start_byte it <=? 32) || (start_byte it =? 127)) (range (endpointPath path)) = false) as ->.
  { rewrite <- (range_ascii (fun c => between 33 c 126)) in Hpr; [|unfold between; intros x Hx; zlia]. rewrite forallb_forall in Hpr.
    apply not_true_iff_false. rewrite existsb_exists. intros (it & Hin & Hbad). specialize (Hpr it Hin). cbn in Hpr. unfold between in Hpr.
    apply orb_true_iff in Hbad as [Hbad|Hbad]; zlia. }
  eexists. split; [done|]. cbn. split_and!; try done; [by exists t| | |].
  - eapply forallb_impl; [|exact Hc]. intros c (_ & H & _)%hostChar_plain. unfold printable, between. rewrite andb_true_iff, !Z.leb_le. lia.
  - eapply forallb_impl; [|exact Hpr]. unfold printable, between. intros c H. rewrite andb_true_iff, !Z.leb_le in *. lia.
  - apply not_true_iff_false. unfold ContainsByte. rewrite existsb_exists. intros (c & Hin%list_elem_of_In & Heq%Z.eqb_eq).
    subst c. pose proof (forallb_elem _ _ _ (basePath_bytes _ Hch) Hin) as Hx. by vm_compute in Hx.
Qed.

(** ** Requests *)

(** What an implementation of telemetry may inject: values that are not empty and
    have no line breaks. *)
Definition wirePairs (pairs : list (bytes * bytes)) : Prop :=
  Forall (fun pair => pair.2 <> [] /\ Wire.validWireValue pair.2 = true) pairs.

(** A request that can be put on the wire of either protocol. *)
Definition writable (e : bytes) (a : AttemptRequest) : Prop :=
  exists ep q, parseRawEndpoint (Request_APIURL a) = Some ep /\ makeH1Request ep a = Some q /\ Wire.validRequest q = true /\
    requestFields (makeH2Request ep q) <> None /\
    e = ep_scheme ep ++ B "://" ++ Wire.Authority q ++ Wire.Target q /\ Wire.RequestBody q = Request_Body a /\
    mkHeader (B "authorization") (Wire.Authorization q) ∈ Request_Headers a /\
    mkHeader (B "idempotency-key") (Wire.IdempotencyKey q) ∈ Request_Headers a.

Lemma makeH1Request_propagated C p pairs ep id e body n ct at_ :
  exists tp ts, makeH1Request ep (mkRequest id e (requestHeaders C p ++ authorizedPropagationHeaders pairs) body n ct at_) =
    Some (Wire.mkRequest (ep_target ep) (ep_authority ep) (B "Bearer " ++ prepared_apiKey p)
            (operationUserAgent (userAgentSuffix C)) (prepared_key p) tp ts body) /\
    (wirePairs pairs -> (tp = [] /\ ts = []) \/ tp <> [] /\ Wire.validWireValue tp = true /\ (ts = [] \/ Wire.validWireValue ts = true)).
Proof.
  unfold makeH1Request, requestHeaders. cbn [app Request_Headers Request_Body].
  cbn [Name Value]. change (EqualFold (B "authorization") (B "authorization")) with true.
  change (EqualFold (B "content-type") (B "content-type")) with true. change (EqualFold (B "accept-encoding") (B "accept-encoding")) with true.
  change (EqualFold (B "user-agent") (B "user-agent")) with true. change (EqualFold (B "idempotency-key") (B "idempotency-key")) with true.
  rewrite !eqb_refl. cbn [negb orb].
  pose proof (authorized_headers pairs) as Hn. pose proof (authorized_values (fun v => v <> [] /\ Wire.validWireValue v = true) pairs) as Hv.
  destruct (authorizedPropagationHeaders pairs) as [|tp [|ts [|]]]; [| | |done].
  - exists [], []. split; [done|]. by left.
  - rewrite Hn. exists (Value tp), []. split; [done|]. intros H%Hv. decompose_Forall_hyps. right. tauto.
  - destruct Hn as [-> ->]. exists (Value tp), (Value ts). split; [done|]. intros H%Hv. decompose_Forall_hyps. right. tauto.
Qed.

Definition fine (v : bytes) : Prop := v <> [] /\ forallb printable v = true.

Lemma validRequest_parts target authority authorization agent key tp ts body :
  (exists t, target = 47 :: t) -> len target <= 2048 -> forallb printable target = true -> fine authority -> fine authorization ->
  fine agent -> fine key -> len body <= maxPayloadBytes ->
  ((tp = [] /\ ts = []) \/ tp <> [] /\ Wire.validWireValue tp = true /\ (ts = [] \/ Wire.validWireValue ts = true)) ->
  Wire.validRequest (Wire.mkRequest target authority authorization agent key tp ts body) = true.
Proof.
  intros [t ->] Hl Ht [Ha1 Ha2] [Hb1 Hb2] [Hc1 Hc2] [Hd1 Hd2] Hbody Hp. unfold Wire.validRequest.
  cbn [Wire.Target Wire.Authority Wire.Authorization Wire.UserAgent Wire.IdempotencyKey Wire.Traceparent Wire.Tracestate Wire.RequestBody].
  rewrite !printable_wire by done. repeat match goal with H : ?v <> [] |- _ => apply eqb_false in H; rewrite H; clear H end.
  rewrite (proj2 (Z.leb_le _ Wire.maxTargetBytes) Hl), (proj2 (Z.leb_le _ BodyBytes) Hbody). cbn [negb andb Z.eqb Pos.eqb].
  destruct Hp as [[-> ->]|(Hn & H1 & H2)]; [done|]. apply eqb_false in Hn. rewrite Hn, H1. cbn [negb andb]. rewrite orb_true_r, andb_true_r.
  by destruct H2 as [-> | ->].
Qed.

(** What HTTP/1.1 accepts, HTTP/2 accepts. *)
Lemma invalidValue_wire v : Wire.validWireValue v = true -> invalidValue v = false.
Proof.
  unfold Wire.validWireValue, invalidValue. induction v as [|c v IH]; [done|]. cbn [forallb existsb]. intros [H1 H2]%andb_true_iff.
  rewrite (IH H2). unfold Wire.wire_char in H1. apply negb_true_iff in H1. by destruct (c =? 13), (c =? 10), (c =? 0).
Qed.

Lemma requestFields_valid ep q : Wire.validRequest q = true -> Wire.Target q = ep_target ep -> Wire.Authority q = ep_authority ep ->
  (ep_scheme ep = B "http" \/ ep_scheme ep = B "https") -> ContainsByte (ep_target ep) 35 = false ->
  requestFields (makeH2Request ep q) <> None.
Proof.
  intros Hv Ht Ha Hs H35. unfold Wire.validRequest in Hv. destruct (Wire.Target q) as [|c t]; [done|]. rewrite !andb_true_iff, !negb_true_iff in Hv.
  destruct Hv as ((((((((((((((_ & Hc) & Hna) & Hbody) & Vt) & Va) & Vauth) & Nauth) & Vua) & Nua) & Vk) & Nk) & Vtp) & Vts) & Hts).
  apply Z.eqb_eq in Hc as ->. rewrite Ha in Va, Hna. unfold requestFields, makeH2Request.
  cbn [H2Frame.Scheme H2Frame.Authority H2Frame.Path H2Frame.Authorization H2Frame.UserAgent H2Frame.IdempotencyKey TraceParent TraceState RequestBody existsb].
  rewrite <- Ht in H35 |- *.
  rewrite H35, Hna, Nauth, Nua, Nk, !invalidValue_wire by done. assert (HasPrefix (47 :: t) (B "/") = true) as -> by by destruct t. cbn [orb negb].
  assert (negb (ep_scheme ep ==? B "https") && negb (ep_scheme ep ==? B "http") = false) as -> by by destruct Hs as [-> | ->].
  assert (negb (Wire.Tracestate q ==? []) && (Wire.Traceparent q ==? []) = false) as ->.
  { apply orb_true_iff in Hts as [-> | Hx]; [done|]. apply negb_true_iff in Hx. rewrite Hx. apply andb_false_r. }
  destruct (Z.ltb_spec BodyBytes (len (Wire.RequestBody q))) as [Hl|]; [zbool; lia|done].
Qed.

(** C22. Whatever a client was configured with, every request that a send hands to
    the built-in transport is accepted by it and by both wire formats: its endpoint
    is read back into the configured scheme, authority and target, it carries the
    prepared body, credential and idempotency key, and every field is valid,
    provided that telemetry injects no empty values and no line breaks. *)
Theorem configured_requests_are_writable {K : Codec} getenv options c E id schema group member inp w r w' evs :
  snapshotConfig getenv options = Ok c ->
  (forall t t', (t <= t')%nat -> deadlineErr E t = true -> deadlineErr E t' = true) ->
  (forall t, exists pairs, propagation E t = authorizedPropagationHeaders pairs /\ wirePairs pairs) ->
  sendAdmitted E (operation c) id schema group member inp w = (inr r, w') -> trace w' = trace w ++ evs ->
  Forall (writable (endpoint (operation c))) (sent evs).
Proof.
  intros (Ho & _)%snapshotConfig_valid sticky Hprop Hc Ht. pose proof (vo_durations _ Ho) as Hd. decompose_Forall_hyps.
  repeat match goal with H : validConfiguredDuration _ = true |- _ => apply validDuration_positive in H end. pose proof (vo_attempts _ Ho) as Ha.
  destruct (requests_prepared E (operation c) sticky ltac:(lia) ltac:(lia) id schema group member inp w r w' evs Hc Ht)
    as [_ [->|(p & (_ & Hcred & Hkey & _ & Hbody & _) & Hall)]]; [constructor|].
  assert (prepared_apiKey p <> [] /\ forallb printable (prepared_apiKey p) = true) as [_ Hapi].
  { destruct Hcred as [[Heq Hne]|Hv]; [|by apply validCredential_chars]. destruct (vo_key _ Ho) as [Hk|Hk]; [congruence|].
    rewrite Heq. by apply validCredential_chars. }
  apply validIdempotencyKey_chars in Hkey as [Hkn Hkey]. destruct (userAgent_chars _ (vo_suffix _ Ho)) as [Hun Hua].
  destruct (vo_endpoint _ Ho) as [raw Hend]. destruct (parseRawEndpoint_canonical _ _ Hend) as (ep & Hep & He & Hl & [t Htarget] & Han & Hac & Htc & Hsch & H35).
  eapply Forall_impl; [exact Hall|]. clear Hall. intros a [(_ & Hurl & Hb & _ & _ & tick & Hh) _].
  destruct (Hprop tick) as (pairs & Hp & Hwire). destruct a as [aid url hs body n ct at_]. cbn in *. rewrite Hp in Hh. subst url hs body.
  destruct (makeH1Request_propagated (operation c) p pairs ep aid (endpoint (operation c)) (prepared_body p) n ct at_) as (tp & ts & Hm & Hv).
  assert (Wire.validRequest (Wire.mkRequest (ep_target ep) (ep_authority ep) (B "Bearer " ++ prepared_apiKey p)
    (operationUserAgent (userAgentSuffix (operation c))) (prepared_key p) tp ts (prepared_body p)) = true) as Hvalid.
  { apply validRequest_parts; try done; [by exists t|by apply Hv]. }
  exists ep. eexists. split_and!; [done|done|done|by apply requestFields_valid|done|done|by repeat constructor|by repeat constructor].
Qed.

(** ** Witness *)
Module Demo.
Lemma configured_requests_are_writable_witness : exists c r w',
  snapshotConfig (fun _ => None) Config.Demo.options = Ok c /\
  @sendAdmitted Operation.Demo.codec Operation.Demo.E (operation c) (B "op_1") Operation.Demo.schema (B "g") (B "e") Operation.Demo.inp
    Operation.Demo.start = (inr r, w') /\ len (sent (trace w')) = 2 /\ Forall (writable (endpoint (operation c))) (sent (trace w')).
Proof.
  eexists _, _, _. split; [vm_compute; reflexivity|]. split; [vm_compute; reflexivity|]. split; [vm_compute; reflexivity|].
  eapply (@configured_requests_are_writable Operation.Demo.codec (fun _ => None) Config.Demo.options _ Operation.Demo.E (B "op_1")
    Operation.Demo.schema (B "g") (B "e") Operation.Demo.inp Operation.Demo.start).
  - vm_compute; reflexivity.
  - intros t t' _ H. exact H.
  - intros t. exists []. split; [reflexivity|constructor].
  - vm_compute; reflexivity.
  - reflexivity.
Defined.
End Demo.
