(* ===== verification/Runtime.v ===== *)
(** * The runtime (runtime.go)

    [Send] puts the parts together: a send is admitted, runs its operation and gives its
    permit back.  The operation is shown to use
    its permit and the shared state only as [RuntimeState.Concurrent] lets it, so every
    send is a path of that system.  What the telemetry and the observer of a send do to the
    counters is in [Telemetry] and [Observer]; [Close] is in [Closing]. *)
From S2P Require Import Prelude Errors Observer Telemetry RuntimeState GoText Response Descriptor Operation.

(** ** How an operation uses its permit *)

(** From a world to a later one, the runtime state and the permit at place [i] move along
    steps of the concurrent system. *)
Definition moves (sh : bool) (w : world) (sh' : bool) (w' : world) : Prop :=
  forall sl c i, sl !! i = Some (Concurrent.mkSlot (permit w) sh Concurrent.Held) ->
    rtc Concurrent.step (Concurrent.mkSystem (state w) sl c)
      (Concurrent.mkSystem (state w') (<[i := Concurrent.mkSlot (permit w') sh' Concurrent.Held]> sl) c).

Definition unreleased (w : world) : Prop := releaseRequested (permit w) = false /\ 0 <= activeCalls (permit w).

(** The permit stays with the operation, and the calls that it had are not ended. *)
Definition keeps (sh : bool) (w : world) (sh' : bool) (w' : world) : Prop :=
  moves sh w sh' w' /\ unreleased w' /\ activeCalls (permit w) <= activeCalls (permit w').

Definition orderly {A} (sh sh' : bool) (m : M A) : Prop :=
  forall w, unreleased w -> match m w with
    | (inl _, w') => keeps sh w sh' w'
    | (inr _, w') => exists sh'', keeps sh w sh'' w'
    end.

Lemma moves_trans a b c w1 w2 w3 : moves a w1 b w2 -> moves b w2 c w3 -> moves a w1 c w3.
Proof.
  intros H1 H2 sl k i Hi. etransitivity; [by apply H1|].
  pose proof (H2 (<[i := Concurrent.mkSlot (permit w2) b Concurrent.Held]> sl) k i) as H. rewrite list_insert_insert_eq in H.
  apply H. apply list_lookup_insert_eq. by eapply lookup_lt_Some.
Qed.
Lemma keeps_trans a b c w1 w2 w3 : keeps a w1 b w2 -> keeps b w2 c w3 -> keeps a w1 c w3.
Proof. intros (H1 & _ & L1) (H2 & U & L2). split_and!; [by eapply moves_trans|done|lia]. Qed.

(** Nothing changes but time, trace and closed responses. *)
Lemma keeps_same sh w w' : permit w' = permit w -> state w' = state w -> unreleased w -> keeps sh w sh w'.
Proof.
  intros Hp Hs U. unfold keeps, unreleased in *. rewrite Hp. split_and!; try tauto; [|lia]. intros sl c i Hi. rewrite Hp, Hs.
  rewrite list_insert_id by done. reflexivity.
Qed.

Section orderly.
Context {A : Type}.
Implicit Types m : M A.

Lemma orderly_ret sh a : orderly sh sh (ret a : M A).
Proof. intros w U. by apply keeps_same. Qed.
Lemma orderly_leave sh sh' r : orderly sh sh' (leave r : M A).
Proof. intros w U. exists sh. by apply keeps_same. Qed.
Lemma orderly_bind {D} sh1 sh2 sh3 m (f : A -> M D) : orderly sh1 sh2 m -> (forall a, orderly sh2 sh3 (f a)) -> orderly sh1 sh3 (bind m f).
Proof.
  intros Hm Hf w U. specialize (Hm w U). unfold bind. destruct (m w) as [[a|r] w1]; [|done].
  specialize (Hf a w1 (proj1 (proj2 Hm))). destruct (f a w1) as [[d|r] w2]; [by eapply keeps_trans|].
  destruct Hf as [sh'' Hf]. exists sh''. by eapply keeps_trans.
Qed.
End orderly.


(** A call that holds a share of the permit. *)
Lemma keeps_beginCall sh w : unreleased w -> keeps sh w sh (mkWorld (tick w) (trace w) (beginCall (permit w)) (state w) (closed w)).
Proof.
  intros [U1 U2]. split_and!; [|split; cbn; [done|lia]|cbn; lia]. intros sl c i Hi. apply rtc_once. by eapply Concurrent.step_beginCall.
Qed.
Lemma keeps_endCall sh w : unreleased w -> 0 < activeCalls (permit w) ->
  moves sh w sh (mkWorld (tick w) (trace w) (endCall (permit w)).1 (state w) (closed w)) /\
  releaseRequested (endCall (permit w)).1 = false /\ activeCalls (endCall (permit w)).1 = activeCalls (permit w) - 1.
Proof.
  intros [U1 U2] Ha. split_and!; [|done|done]. intros sl c i Hi. apply rtc_once. cbn [permit state].
  pose proof (Concurrent.step_endCall (state w) sl c i (permit w) sh Concurrent.Held (endCall (permit w)).1 (endCall (permit w)).2 Hi Ha
    (surjective_pairing _)) as H.
  assert ((endCall (permit w)).2 = false) as Hf by (cbn; rewrite U1; by rewrite andb_false_r). rewrite Hf in H. exact H.
Qed.

(** A computation that may end one call. *)
Definition ending {A} (sh : bool) (m : M A) : Prop :=
  forall w, unreleased w -> 0 < activeCalls (permit w) -> let w' := (m w).2 in
    moves sh w sh w' /\ unreleased w' /\ activeCalls (permit w) - 1 <= activeCalls (permit w').

(** No step of an operation but the shrinking of its request changes the flag, so in most
    computations it stays on every way out. *)
Definition tame {A} (m : M A) : Prop :=
  forall sh w, unreleased w -> let w' := (m w).2 in keeps sh w sh w'.

Lemma tame_orderly {A} sh (m : M A) : tame m -> orderly sh sh m.
Proof. intros H w U. specialize (H sh w U). cbv zeta in H. destruct (m w) as [[a|r] w']; [done|by exists sh]. Qed.

Lemma tame_ret {A} (a : A) : tame (ret a).
Proof. intros sh w U. by apply keeps_same. Qed.
Lemma tame_leave {A} r : tame (leave r : M A).
Proof. intros sh w U. by apply keeps_same. Qed.
Lemma tame_observe {A} (f : nat -> A) : tame (observe f).
Proof. intros sh w U. by apply keeps_same. Qed.
Lemma tame_emit ev : tame (emit ev).
Proof. intros sh w U. by apply keeps_same. Qed.
Lemma tame_getPermit : tame getPermit.
Proof. intros sh w U. by apply keeps_same. Qed.
Lemma tame_bind {A D} (m : M A) (f : A -> M D) : tame m -> (forall a, tame (f a)) -> tame (bind m f).
Proof.
  intros Hm Hf sh w U. specialize (Hm sh w U). unfold bind. destruct (m w) as [[a|r] w1]; [|done].
  eapply keeps_trans; [exact Hm|]. apply Hf. apply Hm.
Qed.
Lemma tame_closeResponse E r : tame (closeResponse E r).
Proof.
  intros sh w U. unfold closeResponse. destruct r as [r|]; [|by apply keeps_same]. destruct (closer r) as [c|]; [|by apply keeps_same].
  cbn. destruct (bool_decide _); by apply keeps_same.
Qed.
Lemma tame_modState f : (forall s sl c, Concurrent.step (Concurrent.mkSystem s sl c) (Concurrent.mkSystem (f s) sl c)) -> tame (modState f).
Proof.
  intros Hf sh w U. split_and!; [|done|cbn; lia]. intros sl c i Hi. cbn. rewrite list_insert_id by done. apply rtc_once, Hf.
Qed.
Lemma tame_headerLimit : tame (modState recordResponseHeaderLimitFailure).
Proof. apply tame_modState. constructor. Qed.
Lemma tame_closeFailure : tame (modState recordResponseCloseFailure).
Proof. apply tame_modState. constructor. Qed.

Lemma ending_tame {A} sh (m : M A) : tame m -> ending sh m.
Proof. intros H w U Ha. destruct (H sh w U) as (M1 & U1 & L1). split_and!; [done|apply U1..|cbv zeta in *; lia]. Qed.
Lemma ending_bind {A D} sh (m : M A) (f : A -> M D) : tame m -> (forall a, ending sh (f a)) -> ending sh (bind m f).
Proof.
  intros Hm Hf w U Ha. specialize (Hm sh w U). unfold bind. cbv zeta in Hm. destruct (m w) as [[a|r] w1]; destruct Hm as (M1 & U1 & L1); cbn in *.
  - destruct (Hf a w1 U1 ltac:(lia)) as (M2 & U2 & L2). split_and!; [by eapply moves_trans|apply U2..|lia].
  - split_and!; [done|apply U1..|lia].
Qed.
Lemma ending_endCall {D} sh (f : unit -> M D) : (forall a, tame (f a)) -> ending sh (bind (modPermit (fun p => (endCall p).1)) f).
Proof.
  intros Hf w U Ha. unfold bind, modPermit. destruct (keeps_endCall sh w U Ha) as (M1 & R1 & A1).
  assert (unreleased (mkWorld (tick w) (trace w) (endCall (permit w)).1 (state w) (closed w))) as U1 by (split; cbn [permit]; [done|lia]).
  destruct (Hf tt sh _ U1) as (M2 & U2 & L2). split_and!; [by eapply moves_trans|apply U2..|]. cbn [permit] in L2. lia.
Qed.
Lemma tame_call {A D} (call : M A) (k : A -> M D) : tame call -> (forall a sh, ending sh (k a)) ->
  tame (bind (modPermit beginCall) (fun _ => bind call k)).
Proof.
  intros Hc Hk sh w U. unfold bind at 1. unfold modPermit. destruct (keeps_beginCall sh w U) as (M1 & U1 & L1).
  destruct (ending_bind sh call k Hc (fun a => Hk a sh) _ U1) as (M2 & U2 & L2); [destruct U; cbn; lia|].
  split_and!; [by eapply moves_trans|apply U2..|]. cbn in L2. cbv zeta in *. lia.
Qed.

Create HintDb tame.
#[export] Hint Resolve tame_ret tame_leave tame_observe tame_emit tame_getPermit tame_closeResponse tame_headerLimit tame_closeFailure : tame.
Ltac tame := repeat first [solve [eauto with tame] | match goal with
  | |- tame (bind _ _) => apply tame_bind; [|intros ?]
  | |- tame (guard _) => apply tame_bind; [|intros ?]
  | |- tame (failWith _) => apply tame_leave
  | |- tame (let '_ := ?x in _) => destruct x
  | |- tame (match ?x with _ => _ end) => destruct x
  end | progress intros].

Section operation.
Context {K : Codec} (E : environment) (C : runtimeConfig).

Lemma tame_preAttemptTerminal c n o k : tame (preAttemptTerminal E c n o k).
Proof. unfold preAttemptTerminal, callMonotonicClock. tame. Qed.
Lemma tame_deadlineTerminal c n o k : tame (deadlineTerminal E c n o k).
Proof. unfold deadlineTerminal, callMonotonicClock. tame. Qed.
Lemma tame_boundedPermitCall {A} (call : M A) : tame call -> tame (boundedPermitCall E call).
Proof.
  intros H. unfold boundedPermitCall. apply tame_bind; [tame|]. intros d. destruct d; [tame|]. apply tame_call; [done|]. intros v sh. apply ending_bind; [tame|]. intros b.
  destruct (_ && _); [apply ending_tame; tame|]. apply ending_endCall. tame.
Qed.
Lemma tame_boundedAttemptCall call : tame call -> tame (boundedAttemptCall E call).
Proof.
  intros H. unfold boundedAttemptCall. apply tame_bind; [tame|]. intros d. destruct d; [tame|]. apply tame_call; [done|]. intros v sh. apply ending_bind; [tame|]. intros [[od ad] first].
  destruct (_ || _); [apply ending_endCall; tame|]. destruct ad; [|apply ending_tame; tame].
  apply ending_bind; [tame|]. intros s. destruct (_ && _); [apply ending_tame; tame|]. apply ending_endCall. tame.
Qed.
Lemma tame_attempt r : tame (attempt E r).
Proof. unfold attempt. tame. Qed.
Lemma tame_closeAndRecord r : tame (closeAndRecord E r).
Proof. unfold closeAndRecord. tame. Qed.
#[local] Hint Resolve tame_preAttemptTerminal tame_deadlineTerminal tame_boundedPermitCall tame_boundedAttemptCall tame_attempt
  tame_closeAndRecord : tame.
Lemma tame_boundedHook {A} (call : M A) o k : tame call -> tame (boundedHook E call o k).
Proof. intros H. unfold boundedHook, hookValue. tame. Qed.
Lemma tame_boundedSerialization (call : M (serialization payload)) o k : tame call -> tame (boundedSerialization E call o k).
Proof. intros H. unfold boundedSerialization, hookValue. tame. Qed.
Lemma tame_afterSleep last n c s : tame (afterSleep E last n c s).
Proof. unfold afterSleep. tame. Qed.
Lemma tame_schedulerCall d : tame (schedulerCall E d).
Proof. unfold schedulerCall. tame. Qed.
#[local] Hint Resolve tame_boundedHook tame_afterSleep tame_schedulerCall : tame.
Lemma tame_backoff last r n c : tame (backoff E C last r n c).
Proof. unfold backoff, backoffSleep, callMonotonicClock. tame. Qed.
Lemma tame_endWith {A} e : tame (endWith e : M A).
Proof. unfold endWith, endAttempt. tame. Qed.
#[local] Hint Resolve tame_backoff : tame.
#[local] Hint Extern 1 (tame (endWith _)) => apply tame_endWith : tame.
Lemma tame_retryOrFail last r n c : tame (retryOrFail E C last r n c).
Proof. unfold retryOrFail, endAttempt. tame. Qed.
#[local] Hint Resolve tame_retryOrFail : tame.
Lemma tame_handleOutcome o p cu n c t oc : tame (handleOutcome E C o p cu n c t oc).
Proof. unfold handleOutcome, handleResponse, handleFailure. cbv zeta. tame. Qed.
#[local] Hint Resolve tame_handleOutcome : tame.
Lemma tame_attemptTurn o p cu n c : tame (attemptTurn E C o p cu n c).
Proof. unfold attemptTurn, callMonotonicClock. cbv zeta. tame. Qed.
#[local] Hint Resolve tame_attemptTurn : tame.
Lemma tame_attemptLoop fuel : forall o p cu n c, tame (attemptLoop E C fuel o p cu n c).
Proof. induction fuel as [|fuel IH]; intros; cbn [attemptLoop]; tame. Qed.
Lemma tame_resolveAPIKey o : tame (resolveAPIKey E C o).
Proof. unfold resolveAPIKey. cbv zeta. tame. Qed.
Lemma tame_resolveIdempotencyKey o k : tame (resolveIdempotencyKey E o k).
Proof. unfold resolveIdempotencyKey. tame. Qed.
#[local] Hint Resolve tame_attemptLoop tame_resolveAPIKey tame_resolveIdempotencyKey : tame.

(** The request is shrunk once, at the end of the preparation. *)
Lemma orderly_shrink n : orderly false true (fun w =>
  let '(p, s) := shrinkRequest n (permit w) (state w) in (inl tt, mkWorld (tick w) (trace w) p s (closed w)) : (unit + final) * world).
Proof.
  intros w [U1 U2]. destruct (shrinkRequest n (permit w) (state w)) as [p s] eqn:Es.
  assert (releaseRequested p = false /\ activeCalls p = activeCalls (permit w)) as [Hr Ha].
  { unfold shrinkRequest in Es. destruct (_ || _); injection Es as <- <-; done. }
  split_and!; [|split; cbn; [done|lia]|cbn; lia]. intros sl c i Hi. apply rtc_once. by eapply Concurrent.step_shrink.
Qed.
Lemma orderly_prepare o schema group member inp : orderly false true (prepare E C o schema group member inp).
Proof.
  unfold prepare. cbv zeta.
  eapply orderly_bind; [apply tame_orderly; tame|intros _]. eapply orderly_bind; [apply tame_orderly; tame|intros event].
  eapply orderly_bind; [apply tame_orderly; tame|intros key]. eapply orderly_bind; [apply tame_orderly; tame|intros _].
  eapply orderly_bind; [apply tame_orderly; tame|intros idem]. eapply orderly_bind; [apply tame_orderly; tame|intros _].
  eapply orderly_bind; [apply tame_orderly; tame|intros [now ok]]. destruct (negb ok); [apply orderly_leave|].
  eapply orderly_bind; [apply tame_orderly; tame|intros _].
  eapply orderly_bind; [apply tame_orderly; apply tame_boundedSerialization; unfold serializeOperation; tame|intros [[data|e]| |]]; [|apply orderly_leave..].
  eapply orderly_bind; [apply tame_orderly; tame|intros _].
  eapply orderly_bind; [apply tame_orderly; tame|intros [body|]]; [|apply orderly_leave]. destruct (_ <? _); [apply orderly_leave|].
  eapply orderly_bind; [apply orderly_shrink|intros _]. eapply orderly_bind; [apply tame_orderly; tame|intros _]. apply orderly_ret.
Qed.

Lemma orderly_sendAdmitted o schema group member inp : orderly false true (sendAdmitted E C o schema group member inp).
Proof.
  unfold sendAdmitted. eapply orderly_bind; [apply tame_orderly; tame|intros _]. eapply orderly_bind; [apply tame_orderly; tame|intros _].
  assert (forall A sh sh' (m : M A), orderly sh sh' m -> orderly sh sh' (deferEnd m)) as Hd.
  { intros A sh sh' m Hm w U. specialize (Hm w U). unfold deferEnd. destruct (m w) as [[a|r] w'].
    - eapply keeps_trans; [exact Hm|]; apply keeps_same; [done..|apply Hm].
    - destruct Hm as [sh'' Hm]. assert (exists sh1, keeps sh w sh1 (mkWorld (tick w') (trace w' ++ [EvOperationEnd]) (permit w') (state w') (closed w'))) as He.
      { exists sh''. eapply keeps_trans; [exact Hm|]; apply keeps_same; [done..|apply Hm]. }
      destruct r; exact He. }
  apply Hd. eapply orderly_bind; [apply orderly_prepare|]. intros p. apply tame_orderly. tame.
Qed.

(** ** The end of the process

    A computation that ends the process only if [crash], and otherwise gives a value with
    [P] or leaves. *)
Definition upright (crash : Prop) {A} (P : A -> Prop) (m : M A) : Prop :=
  forall w, match (m w).1 with inl a => P a | inr Crashed => crash | inr _ => True end.
Lemma upright_bind {A D} crash (P : A -> Prop) (Q : D -> Prop) (m : M A) (f : A -> M D) :
  upright crash P m -> (forall a, P a -> upright crash Q (f a)) -> upright crash Q (bind m f).
Proof. intros Hm Hf w. specialize (Hm w). unfold bind. destruct (m w) as [[a|r] w']; [by apply Hf|done]. Qed.
Lemma upright_ret {A} crash (P : A -> Prop) a : P a -> upright crash P (ret a).
Proof. by intros H w. Qed.
Lemma upright_leave {A} crash (P : A -> Prop) r : (r = Crashed -> crash) -> upright crash P (leave r).
Proof. intros H w. cbn. destruct r; auto. Qed.
Lemma upright_some {A} crash (m : M A) : (forall w, exists a, (m w).1 = inl a) -> upright crash (fun _ => True) m.
Proof. intros H w. by destruct (H w) as [a ->]. Qed.
Lemma upright_closeResponse crash r : upright crash (fun _ => True) (closeResponse E r).
Proof. apply upright_some. intros w. unfold closeResponse. destruct r as [r|]; [destruct (closer r)|]; by eexists. Qed.
#[local] Hint Resolve upright_closeResponse : tame.
Ltac upright := repeat first [solve [eauto with tame] | match goal with
  | |- upright _ _ (bind _ _) => apply (upright_bind _ (fun _ => True)); [|intros ? _]
  | |- upright _ _ (guard _) => apply (upright_bind _ (fun _ => True)); [|intros ? _]
  | |- upright _ _ (ret _) => by apply upright_ret
  | |- upright _ _ (leave _) => by apply upright_leave
  | |- upright _ _ (failWith _) => by apply upright_leave
  | |- upright _ _ (observe _) => apply upright_some; by eexists
  | |- upright _ _ (emit _) => apply upright_some; by eexists
  | |- upright _ _ getPermit => apply upright_some; by eexists
  | |- upright _ _ (modPermit _) => apply upright_some; by eexists
  | |- upright _ _ (modState _) => apply upright_some; by eexists
  | |- upright _ _ (let '_ := ?x in _) => destruct x
  | |- upright _ _ (match ?x with _ => _ end) => destruct x
  end | progress intros].
#[local] Abbreviation up crash := (upright crash (fun _ => True)).
Lemma upright_preAttemptTerminal crash c n o k : up crash (preAttemptTerminal E c n o k).
Proof. unfold preAttemptTerminal, callMonotonicClock. upright. Qed.
Lemma upright_deadlineTerminal crash c n o k : up crash (deadlineTerminal E c n o k).
Proof. unfold deadlineTerminal, callMonotonicClock. upright. Qed.
Lemma upright_boundedPermitCall crash {A} (call : M A) P : upright crash P call ->
  upright crash (fun v => match v with Some a => P a | None => True end) (boundedPermitCall E call).
Proof.
  intros H. unfold boundedPermitCall. apply (upright_bind _ (fun _ => True)); [upright|intros d _]. destruct d; [by apply upright_ret|].
  apply (upright_bind _ (fun _ => True)); [upright|intros _ _]. eapply upright_bind; [exact H|intros v Hv].
  apply (upright_bind _ (fun _ => True)); [upright|intros b _]. destruct (_ && _); [by apply upright_ret|].
  apply (upright_bind _ (fun _ => True)); [upright|intros _ _]. by apply upright_ret.
Qed.
Lemma upright_boundedCall crash {A} (call : M A) : up crash call -> up crash (boundedPermitCall E call).
Proof. intros H w. pose proof (upright_boundedPermitCall crash call _ H w) as Hc. by destruct (boundedPermitCall E call w).1. Qed.
#[local] Hint Resolve upright_preAttemptTerminal upright_deadlineTerminal upright_boundedCall : tame.
Lemma upright_hookValue crash {A} (v : option A) (P : A -> Prop) o k : (forall a, v = Some a -> P a) -> upright crash P (hookValue E v o k).
Proof.
  intros H. unfold hookValue. destruct v as [v|]; apply (upright_bind _ (fun _ => True)); [upright|intros _ _; by apply upright_ret, H|upright|intros e _; by apply upright_leave].
Qed.
Lemma upright_boundedHook crash {A} (call : M A) o k : up crash call -> up crash (boundedHook E call o k).
Proof. intros H. unfold boundedHook. apply (upright_bind _ (fun _ => True)); [by apply upright_boundedCall|]. intros v _. by apply upright_hookValue. Qed.
Lemma upright_boundedSerialization crash call o k : upright crash (fun v => v = SerializerOverflows -> crash) call ->
  upright crash (fun v => v = SerializerOverflows -> crash) (boundedSerialization E call o k).
Proof.
  intros H. unfold boundedSerialization. eapply upright_bind; [by apply upright_boundedPermitCall|]. cbn. intros v Hv.
  destruct v as [[]|]; try (by apply upright_hookValue; intros a [= <-]). by apply upright_leave; auto.
Qed.
Ltac calls := repeat first [progress upright | apply upright_boundedCall | apply upright_boundedHook].
Lemma upright_attempts crash fuel : forall o p cu n c, up crash (attemptLoop E C fuel o p cu n c).
Proof.
  assert (forall A e, upright crash (fun _ => True) (endWith e : M A)) by (intros; unfold endWith, endAttempt; upright).
  assert (forall last r n c, up crash (backoff E C last r n c)) by (intros; unfold backoff, backoffSleep, afterSleep, schedulerCall, callMonotonicClock; calls).
  assert (forall last r n c, up crash (retryOrFail E C last r n c)) by (intros; unfold retryOrFail, endAttempt; upright).
  assert (forall o p cu n c t oc, up crash (handleOutcome E C o p cu n c t oc)) by (intros; unfold handleOutcome, handleResponse, handleFailure, closeAndRecord; cbv zeta; upright).
  assert (forall o p cu n c, up crash (attemptTurn E C o p cu n c)) by (intros; unfold attemptTurn, boundedAttemptCall, attempt, closeAndRecord, callMonotonicClock; cbv zeta; upright).
  induction fuel as [|fuel IH]; intros; cbn [attemptLoop]; upright.
Qed.
(** Only a serializer that overflows the stack ends the process. *)
Lemma crash_overflows o schema group member inp w : (sendAdmitted E C o schema group member inp w).1 = inr Crashed -> overflows schema group member inp.
Proof.
  set (crash := overflows schema group member inp). enough (upright crash (fun _ => True) (sendAdmitted E C o schema group member inp)) as Hu.
  { intros Hc. specialize (Hu w). by rewrite Hc in Hu. }
  pose proof (upright_preAttemptTerminal crash). pose proof (upright_attempts crash).
  assert (forall A (m : M A), upright crash (fun _ => True) m -> upright crash (fun _ => True) (deferEnd m)) as Hdefer.
  { intros A m Hm v. specialize (Hm v). unfold deferEnd. by destruct (m v) as [[a|[]] w']. }
  unfold sendAdmitted. apply (upright_bind _ (fun _ => True)); [calls|intros _ _]. apply (upright_bind _ (fun _ => True)); [calls|intros _ _].
  apply Hdefer. apply (upright_bind _ (fun _ => True)); [|upright]. unfold prepare, resolveAPIKey, resolveIdempotencyKey. cbv zeta.
  apply (upright_bind _ (fun _ => True)); [calls|intros _ _].
  apply (upright_bind _ (fun event => exists members, Webhooks schema !! group = Some members /\ members !! member = Some event)).
  { destruct (Webhooks schema !! group) as [members|] eqn:Eg; [|by apply upright_leave]. destruct (members !! member) as [event|] eqn:Em; [|by apply upright_leave]. by apply upright_ret; eauto. }
  intros event (members & Hg & Hm). do 5 (apply (upright_bind _ (fun _ => True)); [calls|intros ? _]).
  destruct a3 as [now ok]. destruct (negb ok); [calls|]. apply (upright_bind _ (fun _ => True)); [calls|intros _ _].
  eapply upright_bind; [apply upright_boundedSerialization|].
  - intros v. cbn. intros Hv. by exists members, event, (tick v), now.
  - intros [[data|e]| |] Hv; cbn beta; [|upright|upright|apply upright_leave; auto].
    do 2 (apply (upright_bind _ (fun _ => True)); [calls|intros ? _]). upright. apply upright_some. intros v. destruct (shrinkRequest _ _ _). by eexists.
Qed.

(** ** Send *)

(** runtime.go, [operationDeadlineContext]: the time until the deadline. *)
Definition operationDeadline (timeout : Z) (untilParent : option Z) : Z :=
  match untilParent with Some until => Z.min timeout (Z.max until 0) | None => timeout end.

(** runtime.go, [Send]: the result, the events, the runtime state and what is left of the
    permit. *)
Record sendReturn := mkSendReturn {
  ret_final : final;
  ret_trace : list event;
  ret_state : runtimeState;
  ret_permit : option operationPermit
}.

(** [untilParent] is the time until the deadline of the caller, if there is one, when the
    context is made and when the operation is admitted, [elapsed] the time in between.
    [None]: it does not return, because the process has ended. *)
Definition Send (H : hooks) (t : nat) (elapsed : Z) (clock : option Z) (untilParent : option (Z * Z))
    (operationID : bytes) (schema : SchemaDescriptor) (group member : bytes) (inp : SendInput) (s : runtimeState) : option sendReturn :=
  let deadlineExpired := operationDeadline (operationTimeout s) (fst <$> untilParent) <=? elapsed in
  match admitOperation s deadlineExpired clock (snd <$> untilParent) with
  | (s, Err e) => Some (mkSendReturn (Failed (Some e)) [] s None)
  | (s, Ok p) =>
    let '(r, w) := sendAdmitted E C operationID schema group member inp (mkWorld 0 [] p (captureTelemetry H t s).2 []) in
    let '(p, finalize) := release (permit w) in
    match r with
    | inr Crashed => None
    | _ => Some (mkSendReturn (match r with inl res => Accepted res | inr f => f end) (trace w)
             (if finalize then wgDone (finishRelease p (state w)) else state w) (Some p))
    end
  end.
End operation.

(** What a send leaves behind in the concurrent system. *)
Definition leaves (y : Concurrent.system) (r : sendReturn) (y' : Concurrent.system) : Prop :=
  Concurrent.sys_state y' = ret_state r /\ Concurrent.sys_closer y' = Concurrent.sys_closer y /\
  match ret_permit r with
  | None => Concurrent.sys_slots y' = Concurrent.sys_slots y
  | Some p => releaseRequested p = true /\ exists sh,
      Concurrent.sys_slots y' = Concurrent.sys_slots y ++
        [Concurrent.mkSlot p sh (if activeCalls p =? 0 then Concurrent.Done else Concurrent.Held)]
  end.

(** Giving back a permit that is held. *)
Lemma release_leaves mo mb s sl c p sh : Concurrent.inv mo mb (Concurrent.mkSystem s (sl ++ [Concurrent.mkSlot p sh Concurrent.Held]) c) ->
  let '(p', finalize) := release p in
  rtc Concurrent.step (Concurrent.mkSystem s (sl ++ [Concurrent.mkSlot p sh Concurrent.Held]) c)
    (Concurrent.mkSystem (if finalize then wgDone (finishRelease p' s) else s)
       (sl ++ [Concurrent.mkSlot p' sh (if activeCalls p' =? 0 then Concurrent.Done else Concurrent.Held)]) c).
Proof.
  intros Hinv. assert (forall x, (sl ++ [x]) !! length sl = Some x) as Hlast.
  { intros x. rewrite lookup_app_r by lia. by rewrite Nat.sub_diag. }
  assert (forall x y, <[length sl := y]> (sl ++ [x]) = sl ++ [y]) as Hins.
  { intros x y. rewrite insert_app_r_alt by lia. by rewrite Nat.sub_diag. }
  pose proof (Concurrent.inv_slots _ _ _ Hinv) as Hok. cbn in Hok. apply Forall_app in Hok as [_ Hok].
  apply Forall_cons in Hok as [(_ & Hrel & _) _]. cbn in Hrel.
  destruct (release p) as [p' fin] eqn:Er. pose proof (Concurrent.step_release s _ c _ p sh Concurrent.Held p' fin (Hlast _) Er) as Hs. rewrite Hins in Hs.
  unfold release in Er. rewrite Hrel in Er. cbn [negb] in Er. rewrite andb_true_r in Er. injection Er as <- <-. cbn [activeCalls].
  destruct (activeCalls p =? 0); [|by apply rtc_once].
  eapply rtc_l; [exact Hs|]. eapply rtc_l; [by eapply Concurrent.step_finishRelease|]. rewrite Hins. apply rtc_once.
  match goal with |- Concurrent.step (Concurrent.mkSystem ?s (?l ++ [?x]) _) _ => pose proof (Concurrent.step_wgDone s (l ++ [x]) c _ _ sh (Hlast _)) as Hw end.
  by rewrite Hins in Hw.
Qed.

Lemma Send_leaves {K : Codec} mo mb E C H t elapsed clock until id schema group member inp y ret : Concurrent.inv mo mb y ->
  Send E C H t elapsed clock until id schema group member inp (Concurrent.sys_state y) = Some ret ->
  exists y', rtc Concurrent.step y y' /\ leaves y ret y'.
Proof.
  destruct y as [s sl c]. cbn [Concurrent.sys_state]. intros Hinv. unfold Send. set (dl := _ <=? elapsed).
  destruct (admitOperation s dl clock (snd <$> until)) as [s1 [p|e]] eqn:Ea.
  2:{ intros [= <-]. eexists. split; [apply rtc_once; by eapply Concurrent.step_reject|]. by split_and!. }
  pose proof (Concurrent.admit_ok_inv _ _ _ _ _ _ Ea) as (_ & _ & _ & _ & _ & Hac & Hrr & _).
  set (w0 := mkWorld 0 [] p (captureTelemetry H t s1).2 []).
  assert (unreleased w0) as U by (split; cbn; [done|lia]).
  assert (rtc Concurrent.step (Concurrent.mkSystem s sl c) (Concurrent.mkSystem (state w0) (sl ++ [Concurrent.mkSlot p false Concurrent.Held]) c)) as P0.
  { eapply rtc_l; [by eapply Concurrent.step_admit|]. unfold w0, captureTelemetry. cbn [state].
    destruct (negb _); [reflexivity|]. destruct (hookContext H t); [reflexivity|]. apply rtc_once. constructor. }
  pose proof (orderly_sendAdmitted E C id schema group member inp w0 U) as Hk.
  assert (permit w0 = p) as Hp0 by done.
  destruct (sendAdmitted E C id schema group member inp w0) as [r w] eqn:Es. clearbody w0.
  assert (exists sh, keeps false w0 sh w) as (sh & Hm & _) by (destruct r; [by exists true|done]).
  assert (forall x, (sl ++ [x]) !! length sl = Some x) as Hlast. { intros x. rewrite lookup_app_r by lia. by rewrite Nat.sub_diag. }
  specialize (Hm (sl ++ [Concurrent.mkSlot (permit w0) false Concurrent.Held]) c (length sl) (Hlast _)).
  rewrite insert_app_r_alt, Nat.sub_diag, Hp0 in Hm by lia. cbn in Hm.
  assert (rtc Concurrent.step (Concurrent.mkSystem s sl c)
    (Concurrent.mkSystem (state w) (sl ++ [Concurrent.mkSlot (permit w) sh Concurrent.Held]) c)) as P1 by by etransitivity.
  assert (Concurrent.inv mo mb (Concurrent.mkSystem (state w) (sl ++ [Concurrent.mkSlot (permit w) sh Concurrent.Held]) c)) as Hinv1.
  { eapply rtc_invariant; [exact Hinv| |exact P1]. intros a b Hi Hs. by eapply Concurrent.inv_step. }
  pose proof (release_leaves _ _ _ _ _ _ _ Hinv1) as P2. destruct (release (permit w)) as [p' fin] eqn:Er.
  set (out := mkSendReturn _ _ _ _). intros Hret. assert (ret = out) as -> by (subst out; destruct r as [|[]]; congruence). subst out.
  eexists. split; [by etransitivity|]. unfold leaves. cbn. split_and!; try done; [|by exists sh].
  unfold release in Er. by injection Er as <- _.
Qed.

Lemma Send_ends {K : Codec} E C H t elapsed clock until id schema group member inp s :
  Send E C H t elapsed clock until id schema group member inp s = None -> overflows schema group member inp.
Proof.
  unfold Send. destruct (admitOperation _ _ _ _) as [s1 [p|e]]; [|done].
  pose proof (crash_overflows E C id schema group member inp (mkWorld 0 [] p (captureTelemetry H t s1).2 [])) as Hc.
  destruct (sendAdmitted _ _ _ _ _ _ _ _) as [[res|[]] w]; destruct (release (permit w)); try done. intros _. by apply Hc.
Qed.

(** What the live operations hold. *)
Lemma usage_of mo mb y : Concurrent.inv mo mb y ->
  InFlightOperations (diagnostics (Concurrent.sys_state y)) = zsum Concurrent.slot_ops (Concurrent.sys_slots y) /\
  BufferedBytes (diagnostics (Concurrent.sys_state y)) = zsum Concurrent.slot_bytes (Concurrent.sys_slots y) /\
  wg (Concurrent.sys_state y) = zsum Concurrent.slot_wg (Concurrent.sys_slots y).
Proof. intros [_ _ H1 H2 H3 _ _ _ _]. done. Qed.

(** C4. A send returns, unless the serializer overflows the stack on its input and
    ends the process; when it returns, it has used the runtime state and its permit
    only by the steps of the concurrent system, on every path, and leaves its permit
    released; when no call of it is left behind, the operations in flight, the
    reserved bytes and the wait group are what they were before. *)
Theorem send_returns_its_reservation {K : Codec} mo mb timeout E C H t elapsed clock until id schema group member inp y :
  Concurrent.reachable mo mb timeout y ->
  match Send E C H t elapsed clock until id schema group member inp (Concurrent.sys_state y) with
  | Some r =>
    (exists y', rtc Concurrent.step y y' /\ leaves y r y') /\
    (match ret_permit r with Some p => activeCalls p = 0 | None => True end ->
     InFlightOperations (diagnostics (ret_state r)) = InFlightOperations (diagnostics (Concurrent.sys_state y)) /\
     BufferedBytes (diagnostics (ret_state r)) = BufferedBytes (diagnostics (Concurrent.sys_state y)) /\
     wg (ret_state r) = wg (Concurrent.sys_state y))
  | None => overflows schema group member inp
  end.
Proof.
  intros Hr%Concurrent.inv_reachable. destruct (Send _ _ _ _ _ _ _ _ _ _ _ _ _) as [r|] eqn:Hsend; [|by eapply Send_ends].
  destruct (Send_leaves mo mb E C H t elapsed clock until id schema group member inp y r Hr Hsend) as (y' & Hp & Hl).
  split; [by exists y'|]. intros Hidle.
  assert (Concurrent.inv mo mb y') as (U1 & U2 & U3)%usage_of.
  { eapply rtc_invariant; [exact Hr| |exact Hp]. intros a b Hi Hs. by eapply Concurrent.inv_step. }
  apply usage_of in Hr as (V1 & V2 & V3). destruct Hl as (Hst & _ & Hsl). rewrite Hst in U1, U2, U3. rewrite U1, U2, U3, V1, V2, V3.
  destruct (ret_permit r) as [p|]; [|by rewrite Hsl]. destruct Hsl as (_ & sh & ->). rewrite Hidle, !zsum_app. cbn. lia.
Qed.

(** ** Runs *)
Module Demo.
Import Operation.Demo.
Definition idle : Concurrent.system := Concurrent.initial 1 initialOperationReservationBytes 10000000000.
Definition sent (n : Z) : option sendReturn :=
  Send E (config n) Telemetry.Demo.H 0 0 (Some 0) None (B "op_1") schema (B "g") (B "e") inp (Concurrent.sys_state idle).

Lemma send_returns_its_reservation_witness :
  exists r, sent 2 = Some r /\ (match ret_permit r with Some p => activeCalls p | None => -1 end) = 0 /\ 0 < len (ret_trace r) /\
    InFlightOperations (diagnostics (ret_state r)) = 0.
Proof.
  assert (exists r, sent 2 = Some r /\ (match ret_permit r with Some p => activeCalls p | None => -1 end) = 0 /\ 0 < len (ret_trace r)) as (r & Hr & Hp & Ht).
  { eexists. split_and!; vm_compute; reflexivity. }
  exists r. split_and!; [exact Hr|exact Hp|exact Ht|].
  pose proof (send_returns_its_reservation 1 initialOperationReservationBytes 10000000000 E (config 2) Telemetry.Demo.H 0 0 (Some 0) None
    (B "op_1") schema (B "g") (B "e") inp idle ltac:(by constructor)) as H. fold (sent 2) in H. rewrite Hr in H. destruct H as [_ H].
  apply H. by destruct (ret_permit r).
Defined.
End Demo.
