(* ===== verification/Closing.v ===== *)
(** * Closing the runtime (runtime.go, [Close])

    The runtime state with its operations, the observer dispatcher and any number of
    callers of [Close], among them the observer callback itself, as one step relation:
    the two systems of [RuntimeState.Concurrent] and [Observer] run side by side on the
    same counters, and [Close] drives the closing steps of both.  A runtime without an
    observer has no dispatcher to wait for; it is the case in which no event is emitted. *)
From S2P Require Import Prelude Errors Observer RuntimeState.

(** Where a call of [Close] stands; [InObserver] and [LostInObserver] are in [close] of the
    dispatcher, as its caller number [k]. *)
Inductive place :=
| CloseCalled | Won | Cancelled | Drained | InObserver (k : nat) | ObserverClosed | TransportClosed
| Lost | LostInObserver (k : nat) | Returned.
(** [self]: the call comes from the observer callback. *)
Record caller := mkCaller { self : bool; at_ : place }.

(** [transportCloses] counts the calls of [closeIdleConnections]. *)
Record closingSystem := mkClosing {
  con : Concurrent.system;
  obs : Observer.system;
  cancelled : bool;
  transportCloses : Z;
  callers : list caller
}.

Definition with_state (s : runtimeState) (o : Observer.system) : Observer.system :=
  Observer.mkSystem (disp o) s (due o) (run o) (closers o) (flushers o) (accepted o) (handled o) (refused o).
Definition with_sys (s : runtimeState) (y : Concurrent.system) : Concurrent.system :=
  Concurrent.mkSystem s (Concurrent.sys_slots y) (Concurrent.sys_closer y).
Definition counted (s : runtimeState) : Z := DroppedObserverEvents (diagnostics s).

Definition set_con (y : Concurrent.system) (σ : closingSystem) : closingSystem :=
  mkClosing y (with_state (Concurrent.sys_state y) (obs σ)) (cancelled σ) (transportCloses σ) (callers σ).
Definition set_obs (o : Observer.system) (σ : closingSystem) : closingSystem :=
  mkClosing (with_sys (Observer.state o) (con σ)) o (cancelled σ) (transportCloses σ) (callers σ).
Definition set_at (i : nat) (c : caller) (σ : closingSystem) : closingSystem :=
  mkClosing (con σ) (obs σ) (cancelled σ) (transportCloses σ) (<[i := c]> (callers σ)).
Definition set_cancelled (σ : closingSystem) : closingSystem := mkClosing (con σ) (obs σ) true (transportCloses σ) (callers σ).

(** The callback waits for its own call. *)
Definition waitsForSelf (σ : closingSystem) : Prop := exists p, mkCaller true p ∈ callers σ /\ p <> Returned.

Section steps.
(** [ownsTransport]: the transport is the built-in one. *)
Context (ownsTransport : bool).

(** runtime.go, [Close], one call step by step. *)
Inductive closeCall (σ : closingSystem) : closingSystem -> Prop :=
| call_enter b : (b = true -> run (obs σ) = RunCallback /\ ~ waitsForSelf σ) ->
    closeCall σ (mkClosing (con σ) (obs σ) (cancelled σ) (transportCloses σ) (callers σ ++ [mkCaller b CloseCalled]))
| call_win i b s : callers σ !! i = Some (mkCaller b CloseCalled) -> beginClose (Concurrent.sys_state (con σ)) = (s, true) ->
    closeCall σ (set_at i (mkCaller b Won)
      (set_con (Concurrent.mkSystem s (Concurrent.sys_slots (con σ)) Concurrent.CloserWaiting) σ))
| call_lose i b s : callers σ !! i = Some (mkCaller b CloseCalled) -> beginClose (Concurrent.sys_state (con σ)) = (s, false) ->
    closeCall σ (set_at i (mkCaller b (if b then Returned else Lost)) σ)
| call_cancel i b : callers σ !! i = Some (mkCaller b Won) -> closeCall σ (set_at i (mkCaller b Cancelled) (set_cancelled σ))
| call_drained i b : callers σ !! i = Some (mkCaller b Cancelled) -> waitForOperations (Concurrent.sys_state (con σ)) = true ->
    closeCall σ (set_at i (mkCaller b Drained)
      (set_con (Concurrent.mkSystem (Concurrent.sys_state (con σ)) (Concurrent.sys_slots (con σ)) Concurrent.CloserDrained) σ))
| call_observer i o : callers σ !! i = Some (mkCaller false Drained) -> closeStep (obs σ) o ->
    closers o = closers (obs σ) ++ [CloseEntered] ->
    closeCall σ (set_at i (mkCaller false (InObserver (length (closers (obs σ))))) (set_obs o σ))
| call_observer_done i k : callers σ !! i = Some (mkCaller false (InObserver k)) -> closers (obs σ) !! k = Some CloseReturned ->
    closeCall σ (set_at i (mkCaller false ObserverClosed) σ)
| call_observer_self i o : callers σ !! i = Some (mkCaller true Drained) -> closeStep (obs σ) o -> closers o = closers (obs σ) ->
    closeCall σ (set_at i (mkCaller true ObserverClosed) (set_obs o σ))
| call_transport i b : callers σ !! i = Some (mkCaller b ObserverClosed) ->
    closeCall σ (mkClosing (con σ) (obs σ) (cancelled σ) (transportCloses σ + if ownsTransport then 1 else 0)
      (<[i := mkCaller b TransportClosed]> (callers σ)))
| call_finish i b s : callers σ !! i = Some (mkCaller b TransportClosed) -> finishClose (Concurrent.sys_state (con σ)) = Some s ->
    closeCall σ (set_at i (mkCaller b Returned)
      (set_con (Concurrent.mkSystem s (Concurrent.sys_slots (con σ)) Concurrent.CloserFinished) σ))
| call_lost i o : callers σ !! i = Some (mkCaller false Lost) -> waitUntilClosed (Concurrent.sys_state (con σ)) = true ->
    closeStep (obs σ) o -> closers o = closers (obs σ) ++ [CloseEntered] ->
    closeCall σ (set_at i (mkCaller false (LostInObserver (length (closers (obs σ))))) (set_obs o σ))
| call_lost_done i k : callers σ !! i = Some (mkCaller false (LostInObserver k)) -> closers (obs σ) !! k = Some CloseReturned ->
    closeCall σ (set_at i (mkCaller false Returned) σ).

(** Operations, the dispatcher and callers inside its [close] and [flush] go on by
    themselves. *)
Inductive step (σ : closingSystem) : closingSystem -> Prop :=
| step_operation y : Concurrent.step (con σ) y -> Concurrent.sys_closer y = Concurrent.sys_closer (con σ) ->
    counted (Concurrent.sys_state y) = counted (Concurrent.sys_state (con σ)) -> step σ (set_con y σ)
| step_emit o : emitStep (obs σ) o -> step σ (set_obs o σ)
| step_run o : runStep (obs σ) o -> (run (obs σ) = RunCallback -> ~ waitsForSelf σ) -> step σ (set_obs o σ)
| step_flush o : flushStep (obs σ) o -> step σ (set_obs o σ)
| step_inside o : closeStep (obs σ) o -> length (closers o) = length (closers (obs σ)) -> closers o <> closers (obs σ) ->
    step σ (set_obs o σ)
| step_close σ' : closeCall σ σ' -> step σ σ'.

Definition initial (maxOps maxBytes timeout : Z) : closingSystem :=
  let y := Concurrent.initial maxOps maxBytes timeout in
  mkClosing y (Observer.initial (Concurrent.sys_state y)) false 0 [].
Definition reachable (maxOps maxBytes timeout : Z) (σ : closingSystem) : Prop := rtc step (initial maxOps maxBytes timeout) σ.
End steps.

(** ** The invariant *)

(** The call that won [beginClose], as long as it is under way. *)
Definition winning (c : caller) : Z :=
  match at_ c with Won | Cancelled | Drained | InObserver _ | ObserverClosed | TransportClosed => 1 | _ => 0 end.
Definition atTransport (c : caller) : Z := match at_ c with TransportClosed => 1 | _ => 0 end.

(** What a call knows at its place, of the closing state [cl] of the runtime and of the
    dispatcher. *)
Record placed (cl : Concurrent.closer) (cancelled : bool) (o : Observer.system) (c : caller) : Prop := {
  pl_self : self c = true -> at_ c <> Returned -> run o = RunCallback;
  pl_place : match at_ c with
    | CloseCalled => True
    | Won => cl = Concurrent.CloserWaiting
    | Cancelled => cl = Concurrent.CloserWaiting /\ cancelled = true
    | Drained => cl = Concurrent.CloserDrained
    | InObserver k => self c = false /\ cl = Concurrent.CloserDrained /\ (k < length (closers o))%nat
    | ObserverClosed | TransportClosed =>
        cl = Concurrent.CloserDrained /\ Observer.closing (disp o) = true /\ (self c = false -> done (disp o) = true)
    | Lost => self c = false /\ cl <> Concurrent.CloserIdle
    | LostInObserver k => self c = false /\ cl = Concurrent.CloserFinished /\ (k < length (closers o))%nat
    | Returned => self c = false -> cl = Concurrent.CloserFinished /\ done (disp o) = true
    end
}.

Section invariant.
Context (ownsTransport : bool) (mo mb timeout : Z).
Abbreviation step := (step ownsTransport).
Abbreviation s0 := (newRuntimeState mo mb timeout).

Record inv (σ : closingSystem) : Prop := {
  inv_con : Concurrent.inv mo mb (con σ);
  inv_obs : Observer.inv s0 (obs σ);
  inv_state : Observer.state (obs σ) = Concurrent.sys_state (con σ);
  inv_winner : zsum winning (callers σ) =
    match Concurrent.sys_closer (con σ) with Concurrent.CloserWaiting | Concurrent.CloserDrained => 1 | _ => 0 end;
  inv_places : Forall (placed (Concurrent.sys_closer (con σ)) (cancelled σ) (obs σ)) (callers σ);
  inv_cancelled : Concurrent.sys_closer (con σ) = Concurrent.CloserDrained \/ Concurrent.sys_closer (con σ) = Concurrent.CloserFinished ->
    cancelled σ = true;
  inv_finished : Concurrent.sys_closer (con σ) = Concurrent.CloserFinished -> Observer.closing (disp (obs σ)) = true;
  inv_transport : transportCloses σ = (if ownsTransport then 1 else 0) *
    (zsum atTransport (callers σ) + match Concurrent.sys_closer (con σ) with Concurrent.CloserFinished => 1 | _ => 0 end)
}.

(** The dispatcher only goes forward. *)
Record forward (o o' : Observer.system) : Prop := {
  fw_done : done (disp o) = true -> done (disp o') = true;
  fw_closing : Observer.closing (disp o) = true -> Observer.closing (disp o') = true;
  fw_closers : (length (closers o) <= length (closers o'))%nat
}.

Lemma emit_flags e d d' b : emit e d = (d', b) -> done d' = done d /\ Observer.closing d' = Observer.closing d.
Proof. unfold emit. destruct (Observer.closing d) eqn:Ec; [by intros [= <- _]|]. destruct (_ <? _); by intros [= <- _]. Qed.
Lemma forward_emit o o' : emitStep o o' -> forward o o' /\ run o' = run o.
Proof.
  intros [e d He|e d He|]; [apply emit_flags in He as [H1 H2]..|]; (split; [split; cbn; try congruence; lia|done]).
Qed.
Lemma forward_flush o o' : flushStep o o' -> forward o o' /\ run o' = run o.
Proof. intros []; (split; [split|]; cbn; done || lia). Qed.
Lemma forward_close o o' : closeStep o o' -> forward o o' /\ run o' = run o.
Proof. intros []; (split; [split|]; cbn; rewrite ?length_app, ?length_insert; try done; lia). Qed.
Lemma forward_run o o' : runStep o o' -> forward o o'.
Proof.
  intros [].
  all: try (split; cbn; done || lia).
  all: try (match goal with H : claimDelivery _ = _ |- _ => unfold claimDelivery in H; destruct (Observer.closing (disp o)) eqn:Ec; injection H as <-; try done end;
            split; cbn; done || congruence || lia).
  all: try (match goal with H : complete _ _ = _ |- _ => unfold complete in H; injection H as <- <- end; cbn; destruct (_ =? _);
            split; cbn; rewrite ?length_map; done || lia).
  all: split; cbn; rewrite ?length_map; done || lia.
Qed.

Lemma placed_forward cl cn cn' o o' c : placed cl cn o c -> (cn = true -> cn' = true) -> forward o o' ->
  (run o = RunCallback -> self c = true -> at_ c <> Returned -> run o' = RunCallback) -> placed cl cn' o' c.
Proof.
  intros [Hs Hp] Hc [F1 F2 F3] Hr. split; [auto|]. destruct (at_ c); try tauto; try (destruct Hp as (? & ? & ?); split_and!; auto; lia).
Qed.

(** *** The two systems on the same counters *)

Lemma obs_with_state s o : Observer.inv s0 o -> counted s = counted (Observer.state o) -> Observer.inv s0 (with_state s o).
Proof.
  intros [[I1 I2 I3 I4 I5 I6 I7 I8 I9 I10 I11 I12 I13 I14] S] Hs. split; [|done]. constructor; try done. cbn.
  unfold counted in Hs. unfold counter. rewrite Hs. exact I11.
Qed.

Lemma s0_counter : 0 <= counter s0 <= maximumDiagnosticCounter.
Proof. cbn. unfold maximumDiagnosticCounter. lia. Qed.
Lemma obs_step o o' : Observer.inv s0 o -> Observer.step o o' -> Observer.inv s0 o'.
Proof.
  pose proof s0_counter. intros Hi [Hs|Hs|Hs|Hs];
    [by eapply inv_emitStep|by eapply inv_runStep|by eapply inv_closeStep|by eapply inv_flushStep].
Qed.

(** What a step of the dispatcher does to the counters is a step of the runtime state. *)
Lemma obs_counts o o' y : Observer.inv s0 o -> Observer.step o o' -> Observer.state o = Concurrent.sys_state y ->
  rtc Concurrent.step y (with_sys (Observer.state o') y).
Proof.
  intros [Hb _] Hs Hst. destruct y as [s sl c]. cbn in Hst. subst s. unfold with_sys. cbn.
  assert (forall n, 0 <= n <= observerQueueCapacity -> Concurrent.step (Concurrent.mkSystem (Observer.state o) sl c)
    (Concurrent.mkSystem (addDroppedObserverEvents n (Observer.state o)) sl c)) as Hd.
  { intros n Hn. constructor. unfold in_int64, MinInt64, MaxInt64, observerQueueCapacity in *. lia. }
  assert (0 <= 1 <= observerQueueCapacity) as H1 by (unfold observerQueueCapacity; lia).
  destruct Hs as [Hs|Hs|Hs|Hs]; [destruct Hs| |destruct Hs|destruct Hs]; try reflexivity; [by apply rtc_once, Hd|].
  destruct Hs; try reflexivity; cbn; try (by apply rtc_once, Hd); try (by apply rtc_once; constructor).
  - destruct b; reflexivity.
  - apply rtc_once, Hd. pose proof (inv_hand _ _ Hb) as (Hh & _ & Hk). rewrite H in *. cbn in Hh, Hk. specialize (Hk I).
    pose proof (len_nonneg (events (disp o))). lia.
  - destruct b; reflexivity.
Qed.

Lemma con_steps y y' : Concurrent.inv mo mb y -> rtc Concurrent.step y y' -> Concurrent.inv mo mb y'.
Proof. intros H. apply rtc_invariant; [done|]. intros a b Ha Hs. by eapply Concurrent.inv_step. Qed.

(** The dispatcher moves, and perhaps the call at place [i]. *)
Lemma inv_set_obs σ o : inv σ -> Observer.step (obs σ) o ->
  (run (obs σ) = RunCallback -> run o = RunCallback \/ ~ waitsForSelf σ) -> forward (obs σ) o -> inv (set_obs o σ).
Proof.
  intros [I1 I2 I3 I4 I5 I6 I7 I8] Hs Hr Hf. constructor; cbn; try done.
  - eapply con_steps; [exact I1|]. by eapply obs_counts.
  - by eapply obs_step.
  - apply Forall_forall. intros c Hc. pose proof (Forall_elem _ _ _ I5 Hc) as Hp. eapply placed_forward; [done|done|done|].
    intros Hcb Hself Hne. destruct (Hr Hcb) as [?|Hno]; [done|]. destruct Hno. exists (at_ c). split; [|done]. destruct c; cbn in *; by subst.
  - intros H. apply Hf, I7, H.
Qed.

Lemma placed_state cl cn s o l : Forall (placed cl cn o) l -> Forall (placed cl cn (with_state s o)) l.
Proof. intros H. eapply Forall_impl; [exact H|]. intros c [Hs Hp]. by split. Qed.

(** The runtime state moves. *)
Lemma inv_set_con σ y : inv σ -> rtc Concurrent.step (con σ) y -> Concurrent.sys_closer y = Concurrent.sys_closer (con σ) ->
  counted (Concurrent.sys_state y) = counted (Concurrent.sys_state (con σ)) -> inv (set_con y σ).
Proof.
  intros [I1 I2 I3 I4 I5 I6 I7 I8] Hs Hc Hn. constructor; cbn; rewrite ?Hc; try done.
  - by eapply con_steps.
  - apply obs_with_state; [done|]. by rewrite I3.
  - by apply placed_state.
Qed.

(** *** Callers *)

Lemma winner_unique l i c : zsum winning l = 1 -> l !! i = Some c -> winning c = 1 ->
  forall j d, j <> i -> l !! j = Some d -> winning d = 0.
Proof.
  intros Hz Hi Hc j d Hne Hj. assert (forall x, 0 <= winning x) as Hnn by (intros []; unfold winning; cbn; destruct at_0; lia).
  assert (zsum winning (<[i := mkCaller false CloseCalled]> l) = 0) as H0 by (rewrite (zsum_insert _ _ _ _ _ Hi); cbn; lia).
  eapply zsum_zero; [by intros x _|exact H0|]. eapply list_elem_of_lookup_2. by rewrite list_lookup_insert_ne.
Qed.

(** The call at place [i] moves, and with it the closing state. *)
Lemma places_insert (P : caller -> Prop) (Q : caller -> Prop) l i c : Forall P l -> Q c ->
  (forall j d, j <> i -> l !! j = Some d -> P d -> Q d) -> Forall Q (<[i := c]> l).
Proof.
  intros Hl Hc Hd. apply Forall_lookup. intros j d Hj. destruct (decide (j = i)) as [->|Hne].
  - apply list_lookup_insert_Some in Hj as [(_ & <- & _)|[? _]]; [done|congruence].
  - rewrite list_lookup_insert_ne in Hj by done. eapply Hd; [done|done|]. by eapply Forall_lookup_1.
Qed.

(** A call moves and nothing else does. *)
Lemma inv_set_at σ i c c' : inv σ -> callers σ !! i = Some c -> winning c' = winning c -> atTransport c' = atTransport c ->
  placed (Concurrent.sys_closer (con σ)) (cancelled σ) (obs σ) c' -> inv (set_at i c' σ).
Proof.
  intros [I1 I2 I3 I4 I5 I6 I7 I8] Hi Hw Ht Hp. constructor; cbn; try done.
  - rewrite (zsum_insert _ _ _ _ _ Hi). lia.
  - by eapply places_insert.
  - rewrite (zsum_insert _ _ _ _ _ Hi). rewrite I8. f_equal. lia.
Qed.

(** The winner moves the closing state from [cl] on to [cl']. *)
Lemma inv_advance σ i c c' s cl' : inv σ -> callers σ !! i = Some c ->
  Concurrent.step (con σ) (Concurrent.mkSystem s (Concurrent.sys_slots (con σ)) cl') ->
  counted s = counted (Concurrent.sys_state (con σ)) ->
  winning c' - winning c = match cl' with Concurrent.CloserWaiting | Concurrent.CloserDrained => 1 | _ => 0 end -
                           match Concurrent.sys_closer (con σ) with Concurrent.CloserWaiting | Concurrent.CloserDrained => 1 | _ => 0 end ->
  atTransport c' + match cl' with Concurrent.CloserFinished => 1 | _ => 0 end =
  atTransport c + match Concurrent.sys_closer (con σ) with Concurrent.CloserFinished => 1 | _ => 0 end ->
  placed cl' (cancelled σ) (obs σ) c' ->
  (forall j d, j <> i -> callers σ !! j = Some d -> placed (Concurrent.sys_closer (con σ)) (cancelled σ) (obs σ) d -> placed cl' (cancelled σ) (obs σ) d) ->
  (cl' = Concurrent.CloserDrained \/ cl' = Concurrent.CloserFinished -> cancelled σ = true) ->
  (cl' = Concurrent.CloserFinished -> Observer.closing (disp (obs σ)) = true) ->
  inv (set_at i c' (set_con (Concurrent.mkSystem s (Concurrent.sys_slots (con σ)) cl') σ)).
Proof.
  intros [I1 I2 I3 I4 I5 I6 I7 I8] Hi Hs Hn Hw Ht Hp Hothers Hcan Hfin. constructor; cbn; try done.
  - by eapply con_steps, rtc_once.
  - apply obs_with_state; [done|]. by rewrite I3.
  - rewrite (zsum_insert _ _ _ _ _ Hi). lia.
  - apply placed_state. by eapply places_insert.
  - rewrite (zsum_insert _ _ _ _ _ Hi), I8. f_equal. lia.
Qed.

(** A call that is not the winner does not notice that the winner goes on. *)
Lemma placed_onward cl cl' cn o d : placed cl cn o d -> winning d = 0 -> cl' <> Concurrent.CloserIdle ->
  (cl = Concurrent.CloserFinished -> cl' = Concurrent.CloserFinished) -> placed cl' cn o d.
Proof.
  intros [Hs Hp] Hw Hne Hf. split; [done|]. unfold winning in Hw. destruct (at_ d); try done; try tauto.
Qed.

(** A call inside [close] of the dispatcher. *)
Lemma inv_obs_close σ o : inv σ -> closeStep (obs σ) o -> inv (set_obs o σ).
Proof.
  intros Hinv Hs. destruct (forward_close _ _ Hs) as [Hf Hr]. apply inv_set_obs; [done|by apply step_of_close|rewrite Hr; by left|done].
Qed.

(** A call wins [beginClose]. *)
Lemma inv_call_win σ i b s : inv σ -> callers σ !! i = Some (mkCaller b CloseCalled) ->
  beginClose (Concurrent.sys_state (con σ)) = (s, true) ->
  inv (set_at i (mkCaller b Won) (set_con (Concurrent.mkSystem s (Concurrent.sys_slots (con σ)) Concurrent.CloserWaiting) σ)).
Proof.
  intros Hinv Hi Hs. pose proof (inv_places _ Hinv) as I5. pose proof (Concurrent.inv_closer _ _ _ (inv_con _ Hinv)) as (Hcl & _).
  pose proof Hs as Hb. unfold beginClose in Hb. destruct (closing _ || Closed _) eqn:Ec; [done|]. injection Hb as Hb.
  apply orb_false_iff in Ec as [Ec _]. destruct (Concurrent.sys_closer (con σ)) eqn:Ecl; try congruence.
  eapply inv_advance; rewrite ?Ecl; try done.
  - destruct (con σ) as [s1 sl c]. cbn in *. subst c. by apply Concurrent.step_beginClose.
  - by subst s.
  - split; [|done]. intros ? _. by apply (pl_self _ _ _ _ (Forall_lookup_1 _ _ _ _ I5 Hi)).
  - intros j d _ _ [Hd1 Hd2]. split; [done|]. destruct (at_ d); try done; try (by destruct Hd2); try (by destruct Hd2 as (? & ? & ?)).
    intros H. by destruct (Hd2 H).
  - by intros [?|?].
Qed.

(** The winner ends the closing. *)
Lemma inv_call_finish σ i b s : inv σ -> callers σ !! i = Some (mkCaller b TransportClosed) ->
  finishClose (Concurrent.sys_state (con σ)) = Some s ->
  inv (set_at i (mkCaller b Returned) (set_con (Concurrent.mkSystem s (Concurrent.sys_slots (con σ)) Concurrent.CloserFinished) σ)).
Proof.
  intros Hinv Hi Hs. pose proof Hinv as [I1 I2 I3 I4 I5 I6 I7 I8].
  pose proof (Forall_lookup_1 _ _ _ _ I5 Hi) as [_ Hp]. cbn in Hp. destruct Hp as (Hp & Hcg & Hd).
  assert (counted s = counted (Concurrent.sys_state (con σ))) as Hn.
  { unfold finishClose in Hs. destruct (Closed _); [by injection Hs as <-|]. destruct (RuntimeState.closeDone _); [done|]. by injection Hs as <-. }
  eapply inv_advance; rewrite ?Hp; try done; [|split; [done|intros ?; split; [done|by apply Hd]]| |by auto].
  - destruct (con σ) as [s1 sl c]. cbn in *. subst c. by apply Concurrent.step_finishClose.
  - intros j d Hne Hj Hd'. eapply placed_onward; [done| |done|done]. rewrite Hp in I4. exact (winner_unique _ _ _ I4 Hi eq_refl j d Hne Hj).
Qed.

Lemma inv_closeCall σ σ' : inv σ -> closeCall ownsTransport σ σ' -> inv σ'.
Proof.
  intros Hinv Hc. pose proof Hinv as [I1 I2 I3 I4 I5 I6 I7 I8].
  assert (forall i c, callers σ !! i = Some c -> placed (Concurrent.sys_closer (con σ)) (cancelled σ) (obs σ) c) as Hat by (intros i c; by apply Forall_lookup_1).
  pose proof (Concurrent.inv_closer _ _ _ I1) as (Hcl & Hclosed & Hdone & _).
  destruct Hc as [b Hb|i b s Hi Hs|i b s Hi Hs|i b Hi|i b Hi Hs|i o Hi Hs Ho|i k Hi Hk|i o Hi Hs Ho|i b Hi|i b s Hi Hs|i o Hi Hw Hs Ho|i k Hi Hk];
    [|by apply inv_call_win| | | | | | | |by apply inv_call_finish|..];
    try (pose proof (Hat _ _ Hi) as [Hself Hp]; cbn in Hself, Hp).
  - constructor; cbn; try done.
    + rewrite zsum_app. cbn. lia.
    + apply Forall_app. split; [done|]. constructor; [|done]. split; [|done]. cbn. intros ->. by destruct Hb.
    + rewrite zsum_app. cbn. rewrite I8. f_equal. lia.
  - destruct b; eapply inv_set_at; try done; (split; [|]); cbn; try done. split; [done|]. intros E.
    unfold beginClose in Hs. rewrite Hcl, Hclosed, E in Hs. done.
  - assert (inv (set_cancelled σ)) as Hinv'.
    { constructor; cbn; try done. eapply Forall_impl; [exact I5|]. intros d Hd. eapply placed_forward; [done|done| |done]. by split. }
    apply (inv_set_at (set_cancelled σ) i (mkCaller b Won)); try done. split; [|done]. intros ? _. by apply Hself.
  - destruct Hp as [Hp Hcan]. eapply inv_advance; rewrite ?Hp; try done.
    + destruct (con σ) as [s1 sl c]. cbn in *. subst c. by apply Concurrent.step_drained.
    + split; [|done]. intros ? _. by apply Hself.
    + intros j d Hne Hj Hd. eapply placed_onward; [done| |done|done]. rewrite Hp in I4. exact (winner_unique _ _ _ I4 Hi eq_refl j d Hne Hj).
  - apply (inv_set_at (set_obs o σ) i (mkCaller false Drained)); try done; [by apply inv_obs_close|]. split; [done|]. cbn.
    split_and!; [done..|]. rewrite Ho, length_app. cbn. lia.
  - eapply inv_set_at; [done|done|done|done|]. split; [done|]. cbn.
    destruct I2 as [Hb _]. pose proof (inv_returned _ _ Hb (list_elem_of_lookup_2 _ _ _ Hk)) as Hd.
    split_and!; [tauto| |done]. apply (inv_stop _ _ Hb). apply (inv_stopping _ _ Hb). apply (inv_done _ _ Hb) in Hd. by rewrite Hd.
  - pose proof (forward_close _ _ Hs) as [_ Hr].
    apply (inv_set_at (set_obs o σ) i (mkCaller true Drained)); try done; [by apply inv_obs_close|].
    split; [cbn; intros; rewrite Hr; by apply Hself|]. cbn. split_and!; [done| |done]. destruct Hs; cbn in *; try done.
    + apply (f_equal length) in Ho. rewrite length_app in Ho. cbn in Ho. lia.
    + apply (inv_waiting _ _ (proj1 I2)). by eapply list_elem_of_lookup_2.
  - constructor; cbn; try done.
    + rewrite (zsum_insert _ _ _ _ _ Hi). cbn. lia.
    + eapply places_insert; [done| |done]. split; [intros ? _; by apply Hself|done].
    + rewrite (zsum_insert _ _ _ _ _ Hi). cbn. rewrite I8. destruct ownsTransport; lia.
  - apply (inv_set_at (set_obs o σ) i (mkCaller false Lost)); try done; [by apply inv_obs_close|]. split; [done|]. cbn.
    split_and!; [done| |rewrite Ho, length_app; cbn; lia].
    unfold waitUntilClosed in Hw. rewrite Hdone, Hclosed in Hw. by destruct (Concurrent.sys_closer (con σ)).
  - eapply inv_set_at; [done|done|done|done|]. split; [done|]. cbn. intros _. split; [tauto|].
    by apply (inv_returned _ _ (proj1 I2)), (list_elem_of_lookup_2 _ _ _ Hk).
Qed.

Lemma closing_inv_step σ σ' : inv σ -> step σ σ' -> inv σ'.
Proof.
  intros Hinv [y Hs Hc Hn|o Hs|o Hs Hr|o Hs|o Hs _ _|σ1 Hs].
  - by apply inv_set_con; [|apply rtc_once|..].
  - destruct (forward_emit _ _ Hs) as [Hf Hr]. apply inv_set_obs; [done|by apply step_of_emit|rewrite Hr; by left|done].
  - apply inv_set_obs; [done|by apply step_of_run|by right; auto|by apply forward_run].
  - destruct (forward_flush _ _ Hs) as [Hf Hr]. apply inv_set_obs; [done|by apply step_of_flush|rewrite Hr; by left|done].
  - by apply inv_obs_close.
  - by eapply inv_closeCall.
Qed.

Lemma closing_inv_reachable σ : reachable ownsTransport mo mb timeout σ -> inv σ.
Proof.
  apply rtc_invariant; [|intros a b Ha Hs; by eapply closing_inv_step].
  constructor; cbn; try done; [apply Concurrent.inv_initial|apply (observer_inv s0 s0_counter); constructor| |by destruct ownsTransport].
  by intros [?|?].
Qed.

(** The reservations of a drained runtime. *)
Lemma drained_usage y : Concurrent.inv mo mb y -> wg (Concurrent.sys_state y) = 0 ->
  InFlightOperations (diagnostics (Concurrent.sys_state y)) = 0 /\ BufferedBytes (diagnostics (Concurrent.sys_state y)) = 0.
Proof.
  intros Hi Hw. pose proof (Concurrent.inv_wg _ _ _ Hi) as Hz. rewrite Hw in Hz.
  assert (forall x, x ∈ Concurrent.sys_slots y -> Concurrent.slot_phase x = Concurrent.Done) as Hd.
  { intros x [k Hk]%list_elem_of_lookup. by eapply Concurrent.drained_no_slot. }
  rewrite (Concurrent.inv_ops _ _ _ Hi), (Concurrent.inv_bytes _ _ _ Hi).
  split; apply zsum_all_zero; intros x Hx; [unfold Concurrent.slot_ops|unfold Concurrent.slot_bytes]; by rewrite (Hd x Hx).
Qed.

(** The transport is closed by the winner, after the operations have drained. *)
Lemma transport_at σ : inv σ -> transportCloses σ <= 1 /\
  (transportCloses σ = 1 -> ownsTransport = true /\
    (Concurrent.sys_closer (con σ) = Concurrent.CloserDrained \/ Concurrent.sys_closer (con σ) = Concurrent.CloserFinished)).
Proof.
  intros [I1 I2 I3 I4 I5 I6 I7 ->].
  assert (zsum atTransport (callers σ) <= zsum winning (callers σ)) as Hle.
  { clear. induction (callers σ) as [|[b []] l IH]; cbn in *; lia. }
  assert (0 <= zsum atTransport (callers σ)) as H0 by (apply zsum_nonneg; intros [b []] _; cbn; lia).
  assert (Concurrent.sys_closer (con σ) <> Concurrent.CloserDrained -> zsum atTransport (callers σ) = 0) as Hz.
  { intros Hne. apply zsum_all_zero. intros c Hc. pose proof (Forall_elem _ _ _ I5 Hc) as [_ Hp]. unfold atTransport. destruct (at_ c); try done. by destruct Hp. }
  rewrite I4 in Hle. destruct (Concurrent.sys_closer (con σ)); try rewrite (Hz ltac:(done)) in *; destruct ownsTransport; split; try lia; auto.
Qed.

(** Once a call has returned to another goroutine, nothing starts again. *)
Lemma closed_stays σ σ' : inv σ -> Concurrent.sys_closer (con σ) = Concurrent.CloserFinished -> done (disp (obs σ)) = true ->
  step σ σ' -> Concurrent.sys_closer (con σ') = Concurrent.CloserFinished /\ done (disp (obs σ')) = true.
Proof.
  intros [I1 I2 I3 I4 I5 I6 I7 I8] Hf Hd Hs. pose proof (Concurrent.inv_closer _ _ _ I1) as (Hcl & _). rewrite Hf in Hcl.
  destruct Hs as [y Hs Hc Hn|o Hs|o Hs Hr|o Hs|o Hs _ _|σ1 Hs]; cbn; rewrite ?Hc; try (split; [done|]).
  - done.
  - by apply (fw_done _ _ (proj1 (forward_emit _ _ Hs))).
  - by apply (fw_done _ _ (forward_run _ _ Hs)).
  - by apply (fw_done _ _ (proj1 (forward_flush _ _ Hs))).
  - by apply (fw_done _ _ (proj1 (forward_close _ _ Hs))).
  - destruct Hs; cbn; try done.
    + match goal with H : beginClose _ = _ |- _ => unfold beginClose in H; rewrite Hcl in H; done end.
    + match goal with H : callers σ !! _ = Some _ |- _ => destruct (Forall_lookup_1 _ _ _ _ I5 H) as [_ [Hx _]]; cbn in Hx; congruence end.
    + split; [done|]. by match goal with H : closeStep _ _ |- _ => apply forward_close in H as [[] _]; auto end.
    + split; [done|]. by match goal with H : closeStep _ _ |- _ => apply forward_close in H as [[] _]; auto end.
    + split; [done|]. by match goal with H : closeStep _ _ |- _ => apply forward_close in H as [[] _]; auto end.
Qed.

(** C2. In every interleaving of operations, observer events and calls of Close,
    among them calls from the observer callback: the transport that the runtime owns
    is closed at most once, after the operations were cancelled and have drained;
    and when a call of Close has returned to another goroutine, the runtime is
    closed, nothing is in flight or reserved, later sends are refused, the transport
    is closed, and the dispatcher has ended and stays so. *)
Theorem close_leaves_nothing_running σ : reachable ownsTransport mo mb timeout σ ->
  let s := Concurrent.sys_state (con σ) in
  transportCloses σ <= 1 /\ (transportCloses σ = 1 -> ownsTransport = true /\ InFlightOperations (diagnostics s) = 0 /\ cancelled σ = true) /\
  (mkCaller false Returned ∈ callers σ ->
   Closed (diagnostics s) = true /\ InFlightOperations (diagnostics s) = 0 /\ BufferedBytes (diagnostics s) = 0 /\
   cancelled σ = true /\ transportCloses σ = (if ownsTransport then 1 else 0) /\
   (forall expired clock until, exists e, admitOperation s expired clock until = (s, Err e) /\ Error_Code e = ErrorCodeClosed) /\
   run (obs σ) = RunDone /\ forall σ', step σ σ' -> run (obs σ') = RunDone).
Proof.
  intros Hr%closing_inv_reachable s. pose proof Hr as [I1 I2 I3 I4 I5 I6 I7 I8]. pose proof (Concurrent.inv_closer _ _ _ I1) as (Hcl & Hclosed & _ & Hwg).
  destruct (transport_at σ Hr) as [Ht1 Ht2]. split_and!; [done|..].
  - intros [Ho Hc]%Ht2. split_and!; [done| |by apply I6]. apply (drained_usage (con σ) I1). by destruct Hc as [Hc|Hc]; rewrite Hc in Hwg.
  - intros Hin. destruct (Forall_elem _ _ _ I5 Hin) as [_ Hp]. cbn in Hp. destruct (Hp eq_refl) as [Hf Hd]. rewrite Hf in *.
    destruct (drained_usage (con σ) I1 Hwg) as [U1 U2]. split_and!; try done.
    + by apply I6; right.
    + assert (zsum atTransport (callers σ) = 0) as Hz.
      { apply zsum_all_zero. intros c Hc. pose proof (Forall_elem _ _ _ I5 Hc) as [_ Hq]. unfold atTransport. destruct (at_ c); try done. by destruct Hq. }
      rewrite I8, Hz. destruct ownsTransport; done.
    + intros. unfold admitOperation. subst s. rewrite Hcl. cbn. by eexists.
    + by apply (inv_done _ _ (proj1 I2)).
    + intros σ' Hs. destruct (closed_stays _ _ Hr Hf Hd Hs) as [_ Hd']. by apply (inv_done _ _ (proj1 (inv_obs _ (closing_inv_step _ _ Hr Hs)))).
Qed.

(** ** Every call of [Close] can return *)

Definition placeWeight (p : place) : Z :=
  match p with
  | CloseCalled => 20 | Won => 18 | Cancelled => 16 | Drained => 14 | InObserver _ => 8 | ObserverClosed => 6 | TransportClosed => 4
  | Lost => 14 | LostInObserver _ => 6 | Returned => 0
  end.
Definition closingMeasure (σ : closingSystem) : Z :=
  zsum Concurrent.slot_rank (Concurrent.sys_slots (con σ)) + measure (obs σ) + zsum (fun c => placeWeight (at_ c)) (callers σ).
Lemma closingMeasure_nonneg σ : 0 <= closingMeasure σ.
Proof.
  unfold closingMeasure. pose proof (measure_nonneg (obs σ)).
  assert (0 <= zsum Concurrent.slot_rank (Concurrent.sys_slots (con σ))) by (apply zsum_nonneg; intros; apply Concurrent.slot_rank_nonneg).
  assert (0 <= zsum (fun c => placeWeight (at_ c)) (callers σ)) by (apply zsum_nonneg; intros [b []] _; cbn; lia). lia.
Qed.

(** A step that brings the calls under way closer to their return. *)
Definition closer_to_return (σ : closingSystem) : Prop :=
  exists σ', step σ σ' /\ closingMeasure σ' < closingMeasure σ /\ length (callers σ') = length (callers σ) /\
    Forall Concurrent.slot_finished (Concurrent.sys_slots (con σ')).

(** A call that waits for nobody else. *)
Definition ready (σ : closingSystem) (c : caller) : Prop :=
  match at_ c with
  | CloseCalled | Won | Cancelled | Drained | ObserverClosed | TransportClosed => True
  | Lost => Concurrent.sys_closer (con σ) = Concurrent.CloserFinished
  | InObserver k | LostInObserver k => closers (obs σ) !! k = Some CloseReturned
  | Returned => False
  end.

Lemma at_weight σ σ' i c c' : callers σ !! i = Some c -> callers σ' = <[i := c']> (callers σ) ->
  Concurrent.sys_slots (con σ') = Concurrent.sys_slots (con σ) ->
  measure (obs σ') + placeWeight (at_ c') < measure (obs σ) + placeWeight (at_ c) ->
  Forall Concurrent.slot_finished (Concurrent.sys_slots (con σ)) ->
  closingMeasure σ' < closingMeasure σ /\ length (callers σ') = length (callers σ) /\
    Forall Concurrent.slot_finished (Concurrent.sys_slots (con σ')).
Proof.
  intros Hi Hc Hs Hm Hf. unfold closingMeasure. rewrite Hs, Hc, (zsum_insert _ _ _ _ _ Hi), length_insert. split_and!; [lia|done..].
Qed.

Lemma measure_enter o : measure (set_closers (disp o) (closers o ++ [CloseEntered]) o) = measure o + 2.
Proof. unfold measure. cbn. rewrite zsum_app. cbn. lia. Qed.

Lemma ready_progress σ i c : inv σ -> Forall Concurrent.slot_finished (Concurrent.sys_slots (con σ)) ->
  zsum Concurrent.slot_rank (Concurrent.sys_slots (con σ)) = 0 -> callers σ !! i = Some c -> ready σ c -> closer_to_return σ.
Proof.
  intros [I1 I2 I3 I4 I5 I6 I7 I8] Hfin Hrank Hi Hready. pose proof (Forall_lookup_1 _ _ _ _ I5 Hi) as [Hself Hp].
  pose proof (Concurrent.inv_closer _ _ _ I1) as (Hcl & Hclosed & Hdone & Hwg).
  assert (forall σ' c', closeCall ownsTransport σ σ' -> callers σ' = <[i := c']> (callers σ) ->
    Concurrent.sys_slots (con σ') = Concurrent.sys_slots (con σ) ->
    measure (obs σ') + placeWeight (at_ c') < measure (obs σ) + placeWeight (at_ c) -> closer_to_return σ) as Hgo.
  { intros σ' c' Hs Hc Hsl Hm. exists σ'. split; [by apply step_close|]. by eapply at_weight. }
  destruct c as [b p]. unfold ready in Hready. cbn [at_ self] in *.
  destruct p; try done.
  - destruct (beginClose (Concurrent.sys_state (con σ))) as [s [|]] eqn:Eb.
    + eapply Hgo; [by eapply call_win|done|done|]. cbn. change (measure (with_state s (obs σ))) with (measure (obs σ)). lia.
    + eapply Hgo; [by eapply call_lose|done|done|]. destruct b; cbn; lia.
  - eapply Hgo; [by eapply call_cancel|done|done|]. cbn. lia.
  - assert (waitForOperations (Concurrent.sys_state (con σ)) = true) as Hw.
    { unfold waitForOperations. rewrite (Concurrent.inv_wg _ _ _ I1). apply Z.eqb_eq, zsum_all_zero. intros x Hx.
      assert (Concurrent.slot_rank x = 0) as Hx0 by (eapply zsum_zero; [intros; apply Concurrent.slot_rank_nonneg|exact Hrank|done]).
      unfold Concurrent.slot_rank, Concurrent.slot_wg in *. by destruct (Concurrent.slot_phase x). }
    eapply Hgo; [by eapply call_drained|done|done|]. cbn.
    match goal with |- measure (with_state ?s _) + _ < _ => change (measure (with_state s (obs σ))) with (measure (obs σ)) end. lia.
  - destruct b.
    + specialize (Hself eq_refl ltac:(done)). destruct (Observer.closing (disp (obs σ))) eqn:Ec.
      * eapply Hgo; [eapply call_observer_self; [done|by apply close_self_second|done]|done|done|]. cbn. lia.
      * eapply Hgo; [eapply call_observer_self; [done|by apply close_self|done]|done|done|]. cbn. unfold measure. cbn. lia.
    + eapply Hgo; [eapply call_observer; [done|by apply close_enter|done]|done|done|]. cbn. rewrite measure_enter. lia.
  - destruct Hp as [-> _]. eapply Hgo; [by eapply call_observer_done|done|done|]. cbn. lia.
  - eapply Hgo; [by eapply call_transport|done|done|]. cbn. lia.
  - destruct Hp as (Hp & _). assert (finishClose (Concurrent.sys_state (con σ)) <> None) as Hs.
    { unfold finishClose. by rewrite Hdone, Hclosed, Hp. }
    destruct (finishClose _) as [s|] eqn:Es; [|done]. eapply Hgo; [by eapply call_finish|done|done|]. cbn.
    change (measure (with_state s (obs σ))) with (measure (obs σ)). lia.
  - destruct Hp as (-> & _). eapply Hgo; [eapply call_lost; [done| |by apply close_enter|done]|done|done|cbn; rewrite measure_enter; lia].
    unfold waitUntilClosed. by rewrite Hdone, Hclosed, Hready.
  - destruct Hp as (-> & _). eapply Hgo; [by eapply call_lost_done|done|done|]. cbn. lia.
Qed.

(** A step of the dispatcher that brings it closer to rest is one of the system, unless
    the callback waits for its own call. *)
Lemma dispatcher_step σ o : Observer.step (obs σ) o -> measure o < measure (obs σ) -> ~ waitsForSelf σ -> step σ (set_obs o σ).
Proof.
  intros [Hs|Hs|Hs|Hs] Hm Hno; [by apply step_emit|by apply step_run| |by apply step_flush].
  apply step_inside; [done|..]; destruct Hs; cbn in *; rewrite ?length_insert; try done; try (rewrite measure_enter in Hm; lia);
    unfold measure in Hm; cbn in Hm; intros ?; try lia.
  all: match goal with H : <[_ := _]> _ = _ |- _ => rewrite H in Hm; lia end.
Qed.

Lemma dispatcher_progress σ k : inv σ -> Forall Concurrent.slot_finished (Concurrent.sys_slots (con σ)) -> ~ waitsForSelf σ ->
  (k < length (closers (obs σ)))%nat -> closers (obs σ) !! k <> Some CloseReturned -> closer_to_return σ.
Proof.
  intros [I1 I2 I3 I4 I5 I6 I7 I8] Hfin Hno Hk Hne.
  assert (exists o, Observer.step (obs σ) o /\ measure o < measure (obs σ)) as (o & Hs & Hm).
  { destruct (run_progress s0 (obs σ) I2) as [Hp|(o & Hs & Hm)]; [|exists o; split; [by apply step_of_run|done]].
    destruct (parked_progress s0 (obs σ) I2 Hp) as [[Hset _]|?]; [|done].
    destruct (closers (obs σ) !! k) as [c|] eqn:Ek; [|by apply lookup_ge_None in Ek; lia].
    rewrite Forall_lookup in Hset. rewrite (Hset k c Ek) in Hne. done. }
  exists (set_obs o σ). split_and!; [by apply dispatcher_step| |done|done]. unfold closingMeasure. cbn. lia.
Qed.

Lemma winner_exists σ : inv σ -> zsum winning (callers σ) = 1 -> exists i c, callers σ !! i = Some c /\ winning c = 1.
Proof.
  intros _. induction (callers σ) as [|c l IH]; cbn; [done|]. intros H. destruct (decide (winning c = 1)) as [E|E]; [by exists 0%nat, c|].
  assert (winning c = 0) as E0 by (destruct c as [b []]; cbn in *; congruence).
  destruct IH as (i & d & Hi & Hd); [lia|]. by exists (S i), d.
Qed.

(** A call that is under way is ready, or the dispatcher has something to do for it. *)
Lemma waiting_progress σ i c : inv σ -> Forall Concurrent.slot_finished (Concurrent.sys_slots (con σ)) ->
  zsum Concurrent.slot_rank (Concurrent.sys_slots (con σ)) = 0 -> (self c = true \/ ~ waitsForSelf σ) -> at_ c <> Lost ->
  callers σ !! i = Some c -> at_ c <> Returned -> closer_to_return σ.
Proof.
  intros Hinv Hfin Hrank Hself Hlost Hi Hne. destruct (Forall_lookup_1 _ _ _ _ (inv_places _ Hinv) Hi) as [_ Hp].
  assert (ready σ c \/ exists k, self c = false /\ (k < length (closers (obs σ)))%nat /\ closers (obs σ) !! k <> Some CloseReturned) as [Hr|(k & Hs & Hk & Hn)].
  { unfold ready. destruct (at_ c) as [| | | |k| | | |k|]; try done; try (by left);
      destruct Hp as (Hs & _ & Hk); destruct (closers (obs σ) !! k) as [[]|] eqn:Ek; try (by left); right; exists k; by rewrite Ek. }
  - by eapply ready_progress.
  - destruct Hself as [?|Hno]; [congruence|]. by eapply dispatcher_progress.
Qed.

#[local] Instance place_eq_dec : EqDecision place.
Proof. solve_decision. Defined.
#[local] Instance runtime_closer_eq_dec : EqDecision Concurrent.closer.
Proof. solve_decision. Defined.

Lemma close_progress σ : inv σ -> Forall Concurrent.slot_finished (Concurrent.sys_slots (con σ)) ->
  Forall (fun c => at_ c = Returned) (callers σ) \/ closer_to_return σ.
Proof.
  intros Hinv Hfin. destruct (decide (Forall (fun c => at_ c = Returned) (callers σ))) as [?|Hn]; [by left|right].
  assert (0 <= zsum Concurrent.slot_rank (Concurrent.sys_slots (con σ))) as Hge by (apply zsum_nonneg; intros; apply Concurrent.slot_rank_nonneg).
  destruct (decide (zsum Concurrent.slot_rank (Concurrent.sys_slots (con σ)) = 0)) as [Hrank|Hrank].
  2:{ destruct (Concurrent.settle_progress mo mb (con σ) (inv_con _ Hinv) Hfin ltac:(lia)) as (y & Hs & Hf & Hlt & Hc & Hd).
      exists (set_con y σ). split_and!; [by apply step_operation| |done|done]. unfold closingMeasure. cbn.
      change (measure (with_state _ (obs σ))) with (measure (obs σ)). lia. }
  destruct (decide (Exists (fun c => self c = true /\ at_ c <> Returned) (callers σ))) as [Hex|Hex].
  { apply Exists_exists in Hex as (c & [i Hi]%list_elem_of_lookup & Hs & Hr). eapply (waiting_progress σ i c); try done; [by left|].
    intros El. destruct (Forall_lookup_1 _ _ _ _ (inv_places _ Hinv) Hi) as [_ Hp]. rewrite El in Hp. destruct Hp; congruence. }
  assert (~ waitsForSelf σ) as Hno by (intros (p & Hp & Hpr); apply Hex, Exists_exists; by exists (mkCaller true p)).
  destruct (not_all _ _ Hn) as (i & c & Hi & Hr). destruct (decide (at_ c = Lost)) as [El|El]; [|by eapply (waiting_progress σ i c); auto].
  destruct (decide (Concurrent.sys_closer (con σ) = Concurrent.CloserFinished)) as [Ef|Ef].
  { eapply ready_progress; try done. unfold ready. by rewrite El. }
  destruct (winner_exists σ Hinv) as (j & d & Hj & Hd).
  { destruct (Forall_lookup_1 _ _ _ _ (inv_places _ Hinv) Hi) as [_ Hp]. rewrite El in Hp. destruct Hp as [_ Hp].
    rewrite (inv_winner _ Hinv). by destruct (Concurrent.sys_closer (con σ)). }
  eapply (waiting_progress σ j d); auto; intros E; unfold winning in Hd; by rewrite E in Hd.
Qed.

Lemma close_returns σ : inv σ -> Forall Concurrent.slot_finished (Concurrent.sys_slots (con σ)) ->
  exists σ', rtc step σ σ' /\ length (callers σ') = length (callers σ) /\ Forall (fun c => at_ c = Returned) (callers σ').
Proof.
  remember (Z.to_nat (closingMeasure σ)) as n eqn:En. revert σ En. induction (lt_wf n) as [n _ IH]. intros σ -> Hinv Hfin.
  destruct (close_progress σ Hinv Hfin) as [Hall|(σ1 & Hs & Hm & Hl & Hf1)]; [by exists σ|].
  pose proof (closingMeasure_nonneg σ1). destruct (IH (Z.to_nat (closingMeasure σ1)) ltac:(lia) σ1 eq_refl) as (σ2 & Hr & Hl2 & Ha); [|done|].
  - by eapply closing_inv_step.
  - exists σ2. split_and!; [by eapply rtc_l|congruence|done].
Qed.

(** C3. From every reachable state in which the admitted operations have been
    released, a finite sequence of steps lets every call of Close under way return,
    whoever won the race to close, and with a callback that is closing the runtime
    itself. *)
Theorem every_close_can_return σ : reachable ownsTransport mo mb timeout σ ->
  Forall Concurrent.slot_finished (Concurrent.sys_slots (con σ)) ->
  exists σ', rtc step σ σ' /\ length (callers σ') = length (callers σ) /\ Forall (fun c => at_ c = Returned) (callers σ').
Proof. intros Hr Hfin. apply close_returns; [by apply closing_inv_reachable|done]. Qed.
End invariant.

(** ** Runs *)
Module Demo.
Definition mb : Z := initialOperationReservationBytes.
Definition start : closingSystem := initial 1 mb 10.
Abbreviation reach := (reachable true 1 mb 10).

(** One operation has been admitted and released, and two goroutines have called
    [Close]. *)
Definition running : closingSystem :=
  let s := newRuntimeState 1 mb 10 in
  match admitOperation s false (Some 0) None with
  | (s, Ok p) =>
    let y := Concurrent.mkSystem s [Concurrent.mkSlot (release p).1 false Concurrent.Finalizing] Concurrent.CloserIdle in
    mkClosing y (Observer.initial s) false 0 [mkCaller false CloseCalled; mkCaller false CloseCalled]
  | _ => start
  end.
Lemma running_reachable : reach running.
Proof.
  unfold reachable, running.
  destruct (admitOperation (newRuntimeState 1 mb 10) false (Some 0) None) as [s r] eqn:E. vm_compute in E. injection E as <- <-.
  eapply rtc_l; [apply step_operation; [by eapply (Concurrent.step_admit _ _ _ false (Some 0) None)|done|done]|].
  eapply rtc_l; [apply step_operation; [by eapply (Concurrent.step_release _ _ _ 0)|done|done]|].
  eapply rtc_l; [by apply step_close, (call_enter _ _ false)|]. eapply rtc_l; [by apply step_close, (call_enter _ _ false)|]. reflexivity.
Qed.

Lemma every_close_can_return_witness : length (callers running) = 2%nat /\
  exists σ b c, rtc (step true) running σ /\ callers σ = [mkCaller b Returned; mkCaller c Returned].
Proof.
  split; [reflexivity|].
  destruct (every_close_can_return true 1 mb 10 running running_reachable) as (σ & Hr & Hl & Ha); [by repeat constructor|].
  destruct (callers σ) as [|[b p] [|[c q] [|]]] eqn:Ec; try done. exists σ, b, c. rewrite Ec.
  apply Forall_cons in Ha as [Hp [Hq _]%Forall_cons]. cbn in Hp, Hq. by subst.
Defined.

(** A goroutine closes a runtime that has sent nothing. *)
Definition stage (d : dispatcher) (r : runState) (cs : list closer) (tc : Z) (p : place) : closingSystem :=
  let s := (beginClose (newRuntimeState 1 mb 10)).1 in
  mkClosing (Concurrent.mkSystem s [] Concurrent.CloserDrained) (Observer.mkSystem d s 0 r cs [] [] [] 0) true tc [mkCaller false p].
Definition stopped : dispatcher := closeStop newDispatcher.
Definition nearlyClosed : closingSystem := stage (Observer.closeDone stopped) RunDone [CloseReturned] 1 TransportClosed.
Lemma to_step σ σ' τ : step true σ σ' -> σ' = τ -> step true σ τ.
Proof. by intros H <-. Qed.
Lemma nearlyClosed_reachable : reach nearlyClosed.
Proof.
  unfold reachable. transitivity (stage newDispatcher RunTop [] 0 Drained).
  { eapply rtc_l; [by apply step_close, (call_enter _ _ false)|]. eapply rtc_l; [by apply step_close, (call_win _ _ 0 false)|].
    eapply rtc_l; [by apply step_close, (call_cancel _ _ 0 false)|]. eapply rtc_l; [by apply step_close, (call_drained _ _ 0 false)|]. reflexivity. }
  apply (rtc_l _ _ (stage newDispatcher RunTop [CloseEntered] 0 (InObserver 0))).
  { apply step_close. by apply (call_observer true (stage newDispatcher RunTop [] 0 Drained) 0 _ eq_refl (close_enter _)). }
  apply (rtc_l _ _ (stage stopped RunTop [CloseWaitDone] 0 (InObserver 0))).
  { eapply to_step; [apply step_inside; [by apply (close_stop _ 0 CloseEntered); [|left|]|done|done]|reflexivity]. }
  apply (rtc_l _ _ (stage stopped (RunDropping 0) [CloseWaitDone] 0 (InObserver 0))).
  { eapply to_step; [by apply step_run; [apply run_top_stop|]|reflexivity]. }
  apply (rtc_l _ _ (stage (Observer.closeDone stopped) RunDone [CloseWaitDone] 0 (InObserver 0))).
  { eapply to_step; [by apply step_run; [apply run_drained_none|]|reflexivity]. }
  apply (rtc_l _ _ (stage (Observer.closeDone stopped) RunDone [CloseReturned] 0 (InObserver 0))).
  { eapply to_step; [by apply step_inside; [apply (close_return _ 0)|..]|reflexivity]. }
  apply (rtc_l _ _ (stage (Observer.closeDone stopped) RunDone [CloseReturned] 0 ObserverClosed)).
  { eapply to_step; [by apply step_close, (call_observer_done _ _ 0 0)|reflexivity]. }
  apply rtc_once. by apply step_close, (call_transport true (stage (Observer.closeDone stopped) RunDone [CloseReturned] 0 ObserverClosed) 0 false).
Qed.
Definition closed : closingSystem :=
  match finishClose (Concurrent.sys_state (con nearlyClosed)) with
  | Some s => set_at 0 (mkCaller false Returned) (set_con (Concurrent.mkSystem s [] Concurrent.CloserFinished) nearlyClosed)
  | None => nearlyClosed
  end.
Lemma closed_reachable : reach closed.
Proof.
  eapply rtc_r; [apply nearlyClosed_reachable|]. apply step_close. by apply (call_finish true nearlyClosed 0 false).
Qed.

Lemma close_leaves_nothing_running_witness : mkCaller false Returned ∈ callers closed /\
  Closed (diagnostics (Concurrent.sys_state (con closed))) = true /\ transportCloses closed = 1 /\ run (obs closed) = RunDone.
Proof.
  assert (mkCaller false Returned ∈ callers closed) as Hc by by left. split; [done|].
  destruct (close_leaves_nothing_running true 1 mb 10 closed closed_reachable) as (_ & _ & H).
  destruct (H Hc) as (H1 & _ & _ & _ & H2 & _ & H3 & _). done.
Defined.
End Demo.
