(* ===== verification/Tlsx.v ===== *)
(** * TLS set-up and dialling (internal/tlsx/tlsx.go, parts of transport_raw.go)

    Client keys, TLS configurations and the construction of the raw transport; and the
    race of the dials to the addresses of a host, as a step relation.  encoding/asn1,
    encoding/pem, crypto/x509, PBKDF2 and AES are classes; CBC and the padding are
    written out. *)
From S2P Require Import Prelude Errors GoText GoURL Config RawTransport Pool.

(** ** Encrypted private keys *)

(** tlsx.go, [algorithmIdentifier]: [Parameters] are the [FullBytes] of the raw value. *)
Record algorithmIdentifier := mkAlgorithm { Algorithm : list Z; Parameters : bytes }.
Record encryptedPrivateKeyInfo := mkKeyInfo { EncryptionAlgorithm : algorithmIdentifier; EncryptedData : bytes }.
Record pbes2Parameters := mkPBES2 { KeyDerivationFunc : algorithmIdentifier; EncryptionScheme : algorithmIdentifier }.
Record pbkdf2Parameters := mkPBKDF2 { Salt : bytes; IterationCount : Z; KeyLength : Z; PRF : algorithmIdentifier }.

Definition oidPBES2 : list Z := [1; 2; 840; 113549; 1; 5; 13].
Definition oidPBKDF2 : list Z := [1; 2; 840; 113549; 1; 5; 12].
Definition oidHMACWithSHA256 : list Z := [1; 2; 840; 113549; 2; 9].
Definition oidHMACWithSHA384 : list Z := [1; 2; 840; 113549; 2; 10].
Definition oidHMACWithSHA512 : list Z := [1; 2; 840; 113549; 2; 11].
Definition oidAES128CBC : list Z := [2; 16; 840; 1; 101; 3; 4; 1; 2].
Definition oidAES192CBC : list Z := [2; 16; 840; 1; 101; 3; 4; 1; 22].
Definition oidAES256CBC : list Z := [2; 16; 840; 1; 101; 3; 4; 1; 42].

Inductive hash := SHA256 | SHA384 | SHA512.

(** [asn1.Unmarshal] at the four types, with the rest of the input; [pbkdf2.Key]; the
    block cipher of [aes.NewCipher]. *)
Class Cryptography := {
  unmarshalInfo : bytes -> option (encryptedPrivateKeyInfo * bytes);
  unmarshalPBES2 : bytes -> option (pbes2Parameters * bytes);
  unmarshalPBKDF2 : bytes -> option (pbkdf2Parameters * bytes);
  unmarshalOctets : bytes -> option (bytes * bytes);
  pbkdf2Key : hash -> bytes -> bytes -> Z -> Z -> option bytes;
  aesEncrypt : bytes -> bytes -> bytes;
  aesDecrypt : bytes -> bytes -> bytes
}.

Definition BlockSize : nat := 16.
Definition block (b : bytes) : Prop := length b = BlockSize /\ Forall is_byte b.

(** Octet strings hold bytes, a derived key has the length that was asked for, and AES
    under a key is a permutation of the blocks. *)
Class CryptographyLaws `{Cryptography} : Prop := {
  info_bytes d i r : unmarshalInfo d = Some (i, r) -> Forall is_byte (EncryptedData i);
  octets_bytes d o r : unmarshalOctets d = Some (o, r) -> Forall is_byte o;
  key_length h p s n k key : pbkdf2Key h p s n k = Some key -> len key = k;
  encrypt_block k b : block b -> block (aesEncrypt k b);
  decrypt_block k b : block b -> block (aesDecrypt k b);
  decrypt_encrypt k b : block b -> aesDecrypt k (aesEncrypt k b) = b;
  encrypt_decrypt k b : block b -> aesEncrypt k (aesDecrypt k b) = b
}.

(** tlsx.go, [aesKeyBytes]. *)
Definition aesKeyBytes (oid : list Z) : option Z :=
  if oid ==? oidAES128CBC then Some 16
  else if oid ==? oidAES192CBC then Some 24
  else if oid ==? oidAES256CBC then Some 32
  else None.

(** tlsx.go, [pbkdf2Hash]. *)
Definition pbkdf2Hash (oid : list Z) : option hash :=
  if oid ==? oidHMACWithSHA256 then Some SHA256
  else if oid ==? oidHMACWithSHA384 then Some SHA384
  else if oid ==? oidHMACWithSHA512 then Some SHA512
  else None.

Inductive keyError :=
| UnsupportedKey | InvalidPBES2Parameters | InvalidPBKDF2Parameters | UnsupportedCipher | UnsupportedHash
| InvalidCiphertext | InvalidKeySize | InvalidPadding.

Definition xorBytes (a b : bytes) : bytes := zip_with Z.lxor a b.

Section keys.
Context {Cr : Cryptography}.

(** [cipher.NewCBCDecrypter] and its inverse, on [n] blocks. *)
Fixpoint cbcDecrypt (n : nat) (key previous data : bytes) : bytes :=
  match n with
  | O => []
  | S n => xorBytes (aesDecrypt key (take BlockSize data)) previous ++ cbcDecrypt n key (take BlockSize data) (drop BlockSize data)
  end.
Fixpoint cbcEncrypt (n : nat) (key previous data : bytes) : bytes :=
  match n with
  | O => []
  | S n => let c := aesEncrypt key (xorBytes (take BlockSize data) previous) in c ++ cbcEncrypt n key c (drop BlockSize data)
  end.
Definition blocks (data : bytes) : nat := (length data / BlockSize)%nat.

(** tlsx.go, [decryptPKCS8], the padding of [plaintext]. *)
Definition stripPadding (plaintext : bytes) : result keyError bytes :=
  let padding := List.last plaintext 0 in
  if (padding <? 1) || (16 <? padding) || (len plaintext <? padding) then Err InvalidPadding
  else
    let kept := (length plaintext - Z.to_nat padding)%nat in
    if forallb (Z.eqb padding) (drop kept plaintext) then Ok (take kept plaintext) else Err InvalidPadding.

(** tlsx.go, [decryptPKCS8]. *)
Definition decryptPKCS8 (data passphrase : bytes) : result keyError bytes :=
  match unmarshalInfo data with
  | Some (info, []) =>
    if negb (Algorithm (EncryptionAlgorithm info) ==? oidPBES2) then Err UnsupportedKey else
    match unmarshalPBES2 (Parameters (EncryptionAlgorithm info)) with
    | Some (pbes2, []) =>
      if negb (Algorithm (KeyDerivationFunc pbes2) ==? oidPBKDF2) then Err InvalidPBES2Parameters else
      match unmarshalPBKDF2 (Parameters (KeyDerivationFunc pbes2)) with
      | Some (derivation, []) =>
        if (len (Salt derivation) =? 0) || (1024 <? len (Salt derivation)) || (IterationCount derivation <? 1) ||
           (10000000 <? IterationCount derivation) then Err InvalidPBKDF2Parameters else
        match aesKeyBytes (Algorithm (EncryptionScheme pbes2)) with
        | None => Err UnsupportedCipher
        | Some keyBytes =>
          if negb (KeyLength derivation =? 0) && negb (KeyLength derivation =? keyBytes) then Err UnsupportedCipher else
          match pbkdf2Hash (Algorithm (PRF derivation)) with
          | None => Err UnsupportedHash
          | Some hashFactory =>
            match unmarshalOctets (Parameters (EncryptionScheme pbes2)) with
            | Some (iv, []) =>
              if negb (len iv =? 16) || (len (EncryptedData info) =? 0) || negb (Z.rem (len (EncryptedData info)) 16 =? 0)
              then Err InvalidCiphertext else
              match pbkdf2Key hashFactory passphrase (Salt derivation) (IterationCount derivation) keyBytes with
              | None => Err InvalidPBKDF2Parameters
              | Some key =>
                if negb ((len key =? 16) || (len key =? 24) || (len key =? 32)) then Err InvalidKeySize
                else stripPadding (cbcDecrypt (blocks (EncryptedData info)) key iv (EncryptedData info))
              end
            | _ => Err InvalidCiphertext
            end
          end
        end
      | _ => Err InvalidPBKDF2Parameters
      end
    | _ => Err InvalidPBES2Parameters
    end
  | _ => Err UnsupportedKey
  end.

(** *** CBC is a bijection *)

Lemma lxor_byte a b : is_byte a -> is_byte b -> is_byte (Z.lxor a b).
Proof.
  unfold is_byte. intros Ha Hb. assert (0 <= Z.lxor a b) as H0 by (apply Z.lxor_nonneg; lia). split; [done|].
  destruct (decide (Z.lxor a b = 0)) as [->|Hne]; [lia|]. apply Z.log2_lt_pow2 with (b := 8); [lia|].
  eapply Z.le_lt_trans; [apply Z.log2_lxor; lia|]. apply Z.max_lub_lt; [destruct (decide (a = 0)) as [->|]|destruct (decide (b = 0)) as [->|]];
    try done; apply Z.log2_lt_pow2; lia.
Qed.
Lemma xorBytes_length a b : length a = length b -> length (xorBytes a b) = length b.
Proof. intros H. unfold xorBytes. rewrite length_zip_with, H. lia. Qed.
Lemma xorBytes_cancel a b : length a = length b -> xorBytes (xorBytes a b) b = a.
Proof.
  revert b. induction a as [|x a IH]; intros [|y b]; cbn; try done. intros [= H]. f_equal; [|by apply IH].
  by rewrite Z.lxor_assoc, Z.lxor_nilpotent, Z.lxor_0_r.
Qed.
Lemma xorBytes_block a b : block a -> block b -> block (xorBytes a b).
Proof.
  intros [La Ba] [Lb Bb]. split; [rewrite xorBytes_length by congruence; done|].
  apply Forall_lookup. intros i z (x & y & -> & Hx & Hy)%lookup_zip_with_Some. rewrite Forall_lookup in Ba, Bb. apply lxor_byte; eauto.
Qed.
Lemma head_block n data : length data = (S n * BlockSize)%nat -> Forall is_byte data ->
  block (take BlockSize data) /\ length (drop BlockSize data) = (n * BlockSize)%nat /\ Forall is_byte (drop BlockSize data).
Proof.
  intros Hl Hb. unfold block. rewrite length_take, length_drop. unfold BlockSize in *. split_and!; [lia|by apply Forall_take|lia|by apply Forall_drop].
Qed.
Lemma cut_block (a b : bytes) : length a = BlockSize -> take BlockSize (a ++ b) = a /\ drop BlockSize (a ++ b) = b.
Proof. intros H. rewrite <- H. split; [apply take_app_length|apply drop_app_length]. Qed.

Context {CL : CryptographyLaws}.

Lemma cbc_inverse n key : forall iv data, block iv -> length data = (n * BlockSize)%nat -> Forall is_byte data ->
  cbcEncrypt n key iv (cbcDecrypt n key iv data) = data /\ cbcDecrypt n key iv (cbcEncrypt n key iv data) = data.
Proof.
  induction n as [|n IH]; intros iv data Hiv Hl Hb; [by destruct data|].
  destruct (head_block n data Hl Hb) as (Hh & Hl' & Hb'). cbn [cbcEncrypt cbcDecrypt].
  pose proof (decrypt_block key _ Hh) as Hd. pose proof (encrypt_block key _ (xorBytes_block _ _ Hh Hiv)) as He.
  assert (length (xorBytes (aesDecrypt key (take BlockSize data)) iv) = BlockSize) as Hx by (apply xorBytes_block; done).
  destruct (cut_block _ (cbcDecrypt n key (take BlockSize data) (drop BlockSize data)) Hx) as [-> ->].
  destruct (cut_block _ (cbcEncrypt n key (aesEncrypt key (xorBytes (take BlockSize data) iv)) (drop BlockSize data)) (proj1 He)) as [-> ->].
  rewrite (xorBytes_cancel (aesDecrypt key _)) by (rewrite (proj1 Hd); symmetry; apply Hiv).
  rewrite encrypt_decrypt by done. rewrite (decrypt_encrypt key) by (by apply xorBytes_block).
  rewrite xorBytes_cancel by (rewrite (proj1 Hh); symmetry; apply Hiv).
  rewrite (proj1 (IH _ _ Hh Hl' Hb')), (proj2 (IH _ _ He Hl' Hb')). by rewrite take_drop.
Qed.
Lemma cbc_length n key : forall iv data, block iv -> length data = (n * BlockSize)%nat -> Forall is_byte data ->
  (length (cbcDecrypt n key iv data) = (n * BlockSize)%nat /\ Forall is_byte (cbcDecrypt n key iv data)) /\
  length (cbcEncrypt n key iv data) = (n * BlockSize)%nat.
Proof.
  induction n as [|n IH]; intros iv data Hiv Hl Hb; [done|].
  destruct (head_block n data Hl Hb) as (Hh & Hl' & Hb'). cbn [cbcEncrypt cbcDecrypt].
  pose proof (xorBytes_block _ _ (decrypt_block key _ Hh) Hiv) as Hd. pose proof (encrypt_block key _ (xorBytes_block _ _ Hh Hiv)) as He.
  rewrite !length_app, (proj1 Hd), (proj1 He). destruct (IH _ _ Hh Hl' Hb') as [[-> Hf] _]. rewrite (proj2 (IH _ _ He Hl' Hb')).
  split_and!; [done| |done]. apply Forall_app. split; [apply Hd|done].
Qed.

(** *** The padding *)

(** The padding of PKCS #7: as many bytes as are missing to a whole block, each of them
    that number. *)
Definition padLength (plain : bytes) : Z := 16 - len plain mod 16.
Definition pkcs7 (plain : bytes) : bytes := plain ++ replicate (Z.to_nat (padLength plain)) (padLength plain).

Lemma padLength_range plain : 1 <= padLength plain <= 16.
Proof. unfold padLength. pose proof (Z.mod_pos_bound (len plain) 16). lia. Qed.
Lemma padLength_unique plain k n : 1 <= k <= 16 -> len plain + k = n * 16 -> padLength plain = k.
Proof.
  intros Hk Hl. unfold padLength. rewrite <- (Z.mod_unique (len plain) 16 (n - 1) (16 - k)); lia.
Qed.
Lemma pkcs7_blocks plain : length (pkcs7 plain) = (Z.to_nat (len plain / 16 + 1) * BlockSize)%nat.
Proof.
  unfold pkcs7, padLength, BlockSize. rewrite length_app, length_replicate. pose proof (Z.mod_pos_bound (len plain) 16).
  pose proof (Z_div_mod_eq_full (len plain) 16). unfold len in *. lia.
Qed.
Lemma pkcs7_bytes plain : Forall is_byte (pkcs7 plain) <-> Forall is_byte plain.
Proof.
  unfold pkcs7. rewrite Forall_app. split; [by intros []|]. intros H. split; [done|]. apply Forall_replicate.
  pose proof (padLength_range plain). unfold is_byte. lia.
Qed.

Lemma replicate_of l k : forallb (Z.eqb k) l = true <-> l = replicate (length l) k.
Proof.
  induction l as [|x l IH]; cbn; [done|]. rewrite andb_true_iff, IH, Z.eqb_eq. split; [by intros [-> <-]|]. by intros [= -> <-].
Qed.

Lemma stripPadding_exact p plain n : length p = (n * BlockSize)%nat -> stripPadding p = Ok plain <-> p = pkcs7 plain.
Proof.
  intros Hn. split.
  - unfold stripPadding. set (k := List.last p 0). destruct (_ || _) eqn:Eb; [done|]. zbool. destruct (forallb _ _) eqn:Ef; [|done].
    intros [= <-]. apply replicate_of in Ef. rewrite length_drop in Ef. unfold len in *.
    assert (length p - (length p - Z.to_nat k) = Z.to_nat k)%nat as Hk by lia. rewrite Hk in Ef.
    assert (padLength (take (length p - Z.to_nat k) p) = k) as Hpad.
    { apply (padLength_unique _ _ (Z.of_nat n)); [lia|]. unfold len. rewrite length_take. unfold BlockSize in Hn. lia. }
    unfold pkcs7. rewrite Hpad, <- Ef. by rewrite take_drop.
  - intros ->. pose proof (padLength_range plain) as Hr. unfold stripPadding, pkcs7.
    assert (List.last (plain ++ replicate (Z.to_nat (padLength plain)) (padLength plain)) 0 = padLength plain) as ->.
    { destruct (Z.to_nat (padLength plain)) as [|m] eqn:Em; [lia|]. rewrite replicate_S_end, app_assoc. by apply List.last_last. }
    rewrite !length_app, length_replicate. unfold len. rewrite length_app, length_replicate.
    assert ((padLength plain <? 1) || (16 <? padLength plain) || (Z.of_nat (length plain + Z.to_nat (padLength plain)) <? padLength plain) = false) as ->
      by (repeat (apply orb_false_iff; split); apply Z.ltb_ge; lia).
    replace (length plain + Z.to_nat (padLength plain) - Z.to_nat (padLength plain))%nat with (length plain) by lia.
    rewrite drop_app_length, take_app_length. assert (forallb (Z.eqb (padLength plain)) (replicate (Z.to_nat (padLength plain)) (padLength plain)) = true) as ->
      by (apply replicate_of; by rewrite length_replicate). done.
Qed.

(** *** What a key file must say *)

(** PBES2 with PBKDF2 and AES in CBC mode, in the limits of the reader: [data] is the
    private key [plain], padded and encrypted under [passphrase]. *)
Record pbes2File (data passphrase plain : bytes) (info : encryptedPrivateKeyInfo) (pbes2 : pbes2Parameters)
    (derivation : pbkdf2Parameters) (keyBytes : Z) (h : hash) (iv key : bytes) : Prop := {
  file_info : unmarshalInfo data = Some (info, []) /\ Algorithm (EncryptionAlgorithm info) = oidPBES2;
  file_pbes2 : unmarshalPBES2 (Parameters (EncryptionAlgorithm info)) = Some (pbes2, []) /\
    Algorithm (KeyDerivationFunc pbes2) = oidPBKDF2;
  file_pbkdf2 : unmarshalPBKDF2 (Parameters (KeyDerivationFunc pbes2)) = Some (derivation, []) /\
    1 <= len (Salt derivation) <= 1024 /\ 1 <= IterationCount derivation <= 10000000;
  file_cipher : aesKeyBytes (Algorithm (EncryptionScheme pbes2)) = Some keyBytes /\
    (KeyLength derivation = 0 \/ KeyLength derivation = keyBytes);
  file_hash : pbkdf2Hash (Algorithm (PRF derivation)) = Some h;
  file_iv : unmarshalOctets (Parameters (EncryptionScheme pbes2)) = Some (iv, []) /\ len iv = 16;
  file_key : pbkdf2Key h passphrase (Salt derivation) (IterationCount derivation) keyBytes = Some key;
  file_data : Forall is_byte plain /\ EncryptedData info = cbcEncrypt (blocks (pkcs7 plain)) key iv (pkcs7 plain)
}.

Lemma aesKeyBytes_sizes oid k : aesKeyBytes oid = Some k -> k = 16 \/ k = 24 \/ k = 32.
Proof. unfold aesKeyBytes. repeat (destruct (_ ==? _); [intros [= <-]; auto|]). done. Qed.
Lemma key_size_ok oid h p s n k key : aesKeyBytes oid = Some k -> pbkdf2Key h p s n k = Some key ->
  negb ((len key =? 16) || (len key =? 24) || (len key =? 32)) = false.
Proof. intros Hk ->%key_length. by destruct (aesKeyBytes_sizes _ _ Hk) as [->|[->| ->]]. Qed.

Lemma blocks_of n data : length data = (n * BlockSize)%nat -> blocks data = n.
Proof. intros H. unfold blocks. rewrite H. apply Nat.div_mul. done. Qed.

(** What is decrypted and stripped is what was padded and encrypted. *)
Lemma decrypted_exact key iv data plain : block iv -> Forall is_byte data -> len data <> 0 -> Z.rem (len data) 16 = 0 ->
  stripPadding (cbcDecrypt (blocks data) key iv data) = Ok plain <->
  Forall is_byte plain /\ data = cbcEncrypt (blocks (pkcs7 plain)) key iv (pkcs7 plain).
Proof.
  intros Hiv Hb Hne Hrem. assert (length data = (blocks data * BlockSize)%nat) as Hl.
  { unfold blocks, BlockSize, len in *. apply Z.rem_divide in Hrem as [q Hq]; [|done].
    assert (length data = Z.to_nat q * 16)%nat as Hn by lia. rewrite Hn, Nat.div_mul by done. lia. }
  destruct (cbc_length _ key iv data Hiv Hl Hb) as [[Hdl Hdb] _]. destruct (cbc_inverse _ key iv data Hiv Hl Hb) as [Hinv _].
  rewrite (stripPadding_exact _ _ _ Hdl). split.
  - intros Hp. rewrite <- Hp. rewrite (blocks_of _ _ Hdl). split; [|done]. rewrite Hp in Hdb. by apply pkcs7_bytes.
  - intros [Hpb ->]. pose proof (pkcs7_blocks plain) as Hpl. rewrite (blocks_of _ _ Hpl) in *.
    apply pkcs7_bytes in Hpb. destruct (cbc_length _ key iv _ Hiv Hpl Hpb) as [_ Hel]. rewrite (blocks_of _ _ Hel).
    by apply cbc_inverse.
Qed.

Lemma cbc_nonempty key iv plain : block iv -> Forall is_byte plain -> let data := cbcEncrypt (blocks (pkcs7 plain)) key iv (pkcs7 plain) in
  len data <> 0 /\ Z.rem (len data) 16 = 0.
Proof.
  intros Hiv Hb data. pose proof (pkcs7_blocks plain) as Hpl. subst data. rewrite (blocks_of _ _ Hpl).
  apply pkcs7_bytes in Hb. destruct (cbc_length _ key iv _ Hiv Hpl Hb) as [_ Hel]. unfold len at 1 3. rewrite Hel. unfold BlockSize.
  pose proof (Z.div_pos (len plain) 16 (len_nonneg plain)). split; [lia|]. apply Z.rem_divide; [done|]. exists (len plain / 16 + 1). lia.
Qed.

(** C25. decryptPKCS8 returns a key exactly when the file is that key, padded by
    PKCS #7 and encrypted with AES in CBC mode under the key that PBKDF2 derives
    from the passphrase, with the algorithms and in the limits that are supported. *)
Theorem decryptPKCS8_exact data passphrase plain : decryptPKCS8 data passphrase = Ok plain <->
  exists info pbes2 derivation keyBytes h iv key, pbes2File data passphrase plain info pbes2 derivation keyBytes h iv key.
Proof.
  assert (forall iv r d, unmarshalOctets d = Some (iv, r) -> len iv = 16 -> block iv) as Hivb.
  { intros iv r d Hd Hl. split; [unfold len in Hl; unfold BlockSize; lia|by eapply octets_bytes]. }
  split.
  - unfold decryptPKCS8. intros Hd.
    destruct (unmarshalInfo data) as [[info []]|] eqn:E1; try done. destruct (_ ==? oidPBES2) eqn:E2; cbn [negb] in Hd; [|done].
    destruct (unmarshalPBES2 _) as [[pbes2 []]|] eqn:E3; try done. destruct (_ ==? oidPBKDF2) eqn:E4; cbn [negb] in Hd; [|done].
    destruct (unmarshalPBKDF2 _) as [[derivation []]|] eqn:E5; try done. destruct (_ || _) eqn:E6 in Hd; [done|].
    destruct (aesKeyBytes _) as [keyBytes|] eqn:E7; [|done]. destruct (_ && _) eqn:E8 in Hd; [done|].
    destruct (pbkdf2Hash _) as [h|] eqn:E9; [|done]. destruct (unmarshalOctets _) as [[iv []]|] eqn:E10; try done.
    destruct (_ || _) eqn:E11 in Hd; [done|]. destruct (pbkdf2Key _ _ _ _ _) as [key|] eqn:E12; [|done].
    destruct (negb _) eqn:E13 in Hd; [done|].
    assert (KeyLength derivation = 0 \/ KeyLength derivation = keyBytes) as HK by (apply andb_false_iff in E8 as [E8|E8]; zlia).
    apply bool_decide_eq_true in E2, E4. destruct_bools. zbool.
    pose proof (len_nonneg (Salt derivation)).
    apply decrypted_exact in Hd as [Hp He]; [|by eapply Hivb|by eapply info_bytes|done..].
    exists info, pbes2, derivation, keyBytes, h, iv, key. constructor; split_and?; done || lia.
  - intros (info & pbes2 & derivation & keyBytes & h & iv & key & [[E1 E2] [E3 E4] (E5 & S1 & S2) [E6 E7] E8 [E9 E10] E11 [E12 E13]]).
    destruct (cbc_nonempty key iv plain (Hivb _ _ _ E9 E10) E12) as [N1 N2]. rewrite <- E13 in N1, N2.
    unfold decryptPKCS8. rewrite E1, E2, E3, E4, E5, E6, E8, E9, E10, E11. rewrite !eqb_refl. cbn [negb orb].
    rewrite (key_size_ok _ _ _ _ _ _ _ E6 E11), N2. cbn [negb orb Z.eqb].
    assert ((len (Salt derivation) =? 0) || (1024 <? len (Salt derivation)) || (IterationCount derivation <? 1) || (10000000 <? IterationCount derivation) = false) as ->
      by zlia.
    assert (negb (KeyLength derivation =? 0) && negb (KeyLength derivation =? keyBytes) = false) as -> by (destruct E7 as [-> | ->]; [done|rewrite Z.eqb_refl; apply andb_false_r]).
    rewrite (proj2 (Z.eqb_neq _ _) N1). cbn. apply decrypted_exact; [by eapply Hivb|by eapply info_bytes|done..].
Qed.
End keys.

(** ** Configurations *)

(** [pem.Block]; its headers are a map. *)
Record pemBlock := mkBlock { Block_Type : bytes; Headers : list (bytes * bytes); Block_Bytes : bytes }.
Definition header (b : pemBlock) (key : bytes) : bytes := default [] (snd <$> List.find (fun h => h.1 ==? key) (Headers b)).

(** [pem.Decode] with the rest of the input, [pem.EncodeToMemory], the certificates that
    [AppendCertsFromPEM] adds to a pool, and [tls.X509KeyPair]. *)
Class X509 := {
  pemDecode : bytes -> option (pemBlock * bytes);
  pemEncode : pemBlock -> bytes;
  certificatesOf : bytes -> list bytes;
  tlsCertificate : Type;
  X509KeyPair : bytes -> bytes -> option tlsCertificate
}.

Inductive tlsError :=
| MissingConfiguration | UnsupportedVersion | MinimumExceedsMaximum | EmptyCASet | InvalidCACertificate
| IncompleteCertificate | InvalidKeyPEM | PassphraseRequired | InvalidEncryptedKey | LegacyEncryptedKey | InvalidClientCertificate.

(** tlsx.go, [Config]. *)
Record tlsInput := mkInput {
  Input_CACertificatesPEM : option (list bytes);
  Input_MinVersion : Z;
  Input_MaxVersion : Z;
  Input_Ciphers : list Z;
  Input_ClientCertificate : option ClientCertificate;
  Input_ServerName : bytes;
  Input_HTTP2 : bool
}.

(** tlsx.go, [supportedVersion]. *)
Definition supportedVersion (version : Z) : bool := (version =? VersionTLS12) || (version =? VersionTLS13).

(** tlsx.go, [legacyEncryptedPEM]. *)
Definition legacyEncryptedPEM (b : pemBlock) : bool :=
  EqualFold (List.filter (fun c => negb (c =? 32)) (header b (B "Proc-Type"))) (B "4,ENCRYPTED") ||
  negb (header b (B "DEK-Info") ==? []).

Section configurations.
Context {Cr : Cryptography} {X : X509}.

(** [tls.Config], what is set of it. *)
Record tlsConfig := mkConfig {
  Config_MinVersion : Z;
  Config_MaxVersion : Z;
  CipherSuites : list Z;
  ServerName : bytes;
  NextProtos : list bytes;
  RootCAs : option (list bytes);
  Certificates : list tlsCertificate
}.

(** tlsx.go, [loadClientCertificate]. *)
Definition loadClientCertificate (input : ClientCertificate) : result tlsError tlsCertificate :=
  if (len (CertificatePEM input) =? 0) || (len (KeyPEM input) =? 0) then Err IncompleteCertificate else
  match pemDecode (KeyPEM input) with
  | Some (b, []) =>
    let pair key := match X509KeyPair (CertificatePEM input) key with Some c => Ok c | None => Err InvalidClientCertificate end in
    if Block_Type b ==? B "ENCRYPTED PRIVATE KEY" then
      if len (Passphrase input) =? 0 then Err PassphraseRequired
      else match decryptPKCS8 (Block_Bytes b) (Passphrase input) with
           | Err _ => Err InvalidEncryptedKey
           | Ok decrypted => pair (pemEncode (mkBlock (B "PRIVATE KEY") [] decrypted))
           end
    else if legacyEncryptedPEM b then Err LegacyEncryptedKey
    else pair (KeyPEM input)
  | _ => Err InvalidKeyPEM
  end.

(** tlsx.go, [BuildConfig], the roots: the loop over the certificates. *)
Fixpoint appendRoots (roots : list bytes) (pems : list bytes) : option (list bytes) :=
  match pems with
  | [] => Some roots
  | p :: pems => if (len p =? 0) || (len (certificatesOf p) =? 0) then None else appendRoots (roots ++ certificatesOf p) pems
  end.

(** tlsx.go, [BuildConfig]. *)
Definition BuildConfig (input : option tlsInput) : result tlsError tlsConfig :=
  match input with
  | None => Err MissingConfiguration
  | Some input =>
    let minimum := if Input_MinVersion input =? 0 then VersionTLS12 else Input_MinVersion input in
    if negb (supportedVersion minimum) || (negb (Input_MaxVersion input =? 0) && negb (supportedVersion (Input_MaxVersion input)))
    then Err UnsupportedVersion
    else if negb (Input_MaxVersion input =? 0) && (Input_MaxVersion input <? minimum) then Err MinimumExceedsMaximum
    else
      roots ← match Input_CACertificatesPEM input with
              | None => Ok None
              | Some [] => Err EmptyCASet
              | Some pems => match appendRoots [] pems with Some roots => Ok (Some roots) | None => Err InvalidCACertificate end
              end;
      certificates ← match Input_ClientCertificate input with
                     | None => Ok []
                     | Some c => certificate ← loadClientCertificate c; Ok [certificate]
                     end;
      Ok (mkConfig (if minimum =? VersionTLS13 then VersionTLS13 else VersionTLS12) (Input_MaxVersion input) (Input_Ciphers input)
            (Input_ServerName input) (if Input_HTTP2 input then [B "h2"; B "http/1.1"] else [B "http/1.1"]) roots certificates)
  end.

(** transport_raw.go, [buildRawTLSConfig]; [None] is the panic of a nil pointer. *)
Definition buildRawTLSConfig (options : HTTPTransportOptions) : option (result tlsError tlsConfig) :=
  match HTTP2 options with
  | None => None
  | Some http2 =>
    Some (BuildConfig (Some (match TLS options with
      | None => mkInput None 0 0 [] None [] http2
      | Some t => mkInput (CACertificatesPEM t) (MinVersion t) (MaxVersion t) (Ciphers t) (TLS_ClientCertificate t) [] http2
      end)))
  end.

(** transport_raw.go, [rawTransport]: the TLS configuration, the options of the pool and
    the address of the proxy. *)
Record rawTransport := mkTransport { transport_tls : tlsConfig; transport_pool : Pool.Options; proxyAddress : bytes }.

(** transport_raw.go, [newRawTransportFromSnapshot] and [newRawTransport]; [None] is the
    panic of a nil pointer. *)
Definition newRawTransportFromSnapshot (options : HTTPTransportOptions) : option (result Error rawTransport) :=
  match buildRawTLSConfig options with
  | None => None
  | Some (Err _) => Some (Err (invalidHTTPTransportOptions ConfigurationIssueCodeInvalidValue))
  | Some (Ok tls) =>
    match MaxConnectionsPerOrigin options, ConnectionLifetime options, ConnectionIdleTimeout options with
    | Some maxConnections, Some lifetime, Some idle =>
      let make address := Some (Ok (mkTransport tls (Pool.mkOptions maxConnections lifetime idle) address)) in
      match Proxy options with
      | None => make []
      | Some p => match Parse (Proxy_URL p) with
                  | Some u => make (addressWithDefaultPort (Hostname u) (Port u) (B "80"))
                  | None => None
                  end
      end
    | _, _, _ => None
    end
  end.
Definition newRawTransport (input : HTTPTransportOptions) : option (result Error rawTransport) :=
  match snapshotHTTPTransportOptions input with
  | Err e => Some (Err e)
  | Ok options => newRawTransportFromSnapshot options
  end.
End configurations.

(** ** Construction *)

Section construction.
Context {Cr : Cryptography} {X : X509}.

Lemma appendRoots_spec pems : forall roots, appendRoots roots pems =
  if forallb (fun p => negb (len p =? 0) && negb (len (certificatesOf p) =? 0)) pems then Some (roots ++ concat (map certificatesOf pems)) else None.
Proof.
  induction pems as [|p pems IH]; intros roots; cbn; [by rewrite app_nil_r|]. destruct (len p =? 0); [done|].
  destruct (len (certificatesOf p) =? 0); [done|]. cbn. rewrite IH. destruct (forallb _ _); [|done]. by rewrite app_assoc.
Qed.

(** The certificates and the key of the options can be read. *)
Definition loadableRoots (t : TLSOptions) : Prop :=
  forall pems, CACertificatesPEM t = Some pems -> Forall (fun p => p <> [] /\ certificatesOf p <> []) pems.
Definition loadableCertificate (t : TLSOptions) (cs : list tlsCertificate) : Prop :=
  match TLS_ClientCertificate t with None => cs = [] | Some c => exists x, loadClientCertificate c = Ok x /\ cs = [x] end.
Definition loadable (options : HTTPTransportOptions) : Prop :=
  forall t, TLS options = Some t -> loadableRoots t /\ exists cs, loadableCertificate t cs.

(** What is made of the options. *)
Record constructed (options : HTTPTransportOptions) (t : rawTransport) : Prop := {
  made_versions : VersionTLS12 <= Config_MinVersion (transport_tls t) <= VersionTLS13 /\
    (Config_MaxVersion (transport_tls t) = 0 \/ Config_MinVersion (transport_tls t) <= Config_MaxVersion (transport_tls t) <= VersionTLS13);
  made_protocols : B "http/1.1" ∈ NextProtos (transport_tls t) /\
    (B "h2" ∈ NextProtos (transport_tls t) <-> HTTP2 options = Some true);
  made_roots : RootCAs (transport_tls t) = (o ← TLS options; pems ← CACertificatesPEM o; Some (concat (map certificatesOf pems)));
  made_certificates : match TLS options with None => Certificates (transport_tls t) = [] | Some o => loadableCertificate o (Certificates (transport_tls t)) end;
  made_pool : 1 <= Pool.MaxConnections (transport_pool t) <= 65536 /\ 0 < Pool.Lifetime (transport_pool t) /\ 0 < Pool.IdleTimeout (transport_pool t)
}.

Lemma len_is_zero {A} (l : list A) : (len l =? 0) = true <-> l = [].
Proof. rewrite Z.eqb_eq. unfold len. destruct l; cbn; split; done || lia. Qed.

Lemma loadableRoots_decides t pems : CACertificatesPEM t = Some pems ->
  forallb (fun p => negb (len p =? 0) && negb (len (certificatesOf p) =? 0)) pems = true <-> loadableRoots t.
Proof.
  intros Hp. unfold loadableRoots. rewrite forallb_forall. setoid_rewrite andb_true_iff. setoid_rewrite negb_true_iff.
  assert (forall A (l : list A), (len l =? 0) = false <-> l <> []) as Hz.
  { intros A l. rewrite <- not_true_iff_false, len_is_zero. done. }
  split.
  - intros H ps E. rewrite Hp in E. injection E as <-. apply Forall_forall. intros x Hx. rewrite <- !Hz. apply H. by apply list_elem_of_In.
  - intros H x Hx. specialize (H pems Hp). rewrite Forall_forall in H. rewrite !Hz. apply H. by apply list_elem_of_In.
Qed.

(** With versions that the snapshot accepts, a configuration is built exactly when the
    certificates can be read. *)
Lemma BuildConfig_snapshot o http2 name : (MinVersion o = VersionTLS12 \/ MinVersion o = VersionTLS13) ->
  (MaxVersion o = 0 \/ MinVersion o <= MaxVersion o <= VersionTLS13) -> CACertificatesPEM o <> Some [] ->
  match BuildConfig (Some (mkInput (CACertificatesPEM o) (MinVersion o) (MaxVersion o) (Ciphers o) (TLS_ClientCertificate o) name http2)) with
  | Ok c => Config_MinVersion c = MinVersion o /\ Config_MaxVersion c = MaxVersion o /\
      NextProtos c = (if http2 then [B "h2"; B "http/1.1"] else [B "http/1.1"]) /\
      RootCAs c = (pems ← CACertificatesPEM o; Some (concat (map certificatesOf pems))) /\ loadableRoots o /\ loadableCertificate o (Certificates c)
  | Err _ => ~ (loadableRoots o /\ exists cs, loadableCertificate o cs)
  end.
Proof.
  intros Hmin Hmax Hca. unfold BuildConfig. cbn [Input_MinVersion Input_MaxVersion Input_CACertificatesPEM Input_ClientCertificate Input_Ciphers Input_ServerName Input_HTTP2].
  assert ((MinVersion o =? 0) = false) as -> by (destruct Hmin as [-> | ->]; done).
  assert (supportedVersion (MinVersion o) = true) as -> by (destruct Hmin as [-> | ->]; done). cbn [negb orb].
  assert (negb (MaxVersion o =? 0) && negb (supportedVersion (MaxVersion o)) = false) as ->.
  { unfold supportedVersion, VersionTLS12, VersionTLS13 in *. destruct Hmax as [->|Hmax]; [done|]. assert (MaxVersion o = 771 \/ MaxVersion o = 772) as [-> | ->] by lia; done. }
  assert (negb (MaxVersion o =? 0) && (MaxVersion o <? MinVersion o) = false) as -> by (destruct Hmax as [->|Hmax]; [done|]; apply andb_false_iff; right; zlia).
  assert ((if MinVersion o =? VersionTLS13 then VersionTLS13 else VersionTLS12) = MinVersion o) as Hm by (destruct Hmin as [-> | ->]; done).
  assert (forall roots, match (certificates ← match TLS_ClientCertificate o with None => Ok [] | Some c => certificate ← loadClientCertificate c; Ok [certificate] end;
      Ok (mkConfig (if MinVersion o =? VersionTLS13 then VersionTLS13 else VersionTLS12) (MaxVersion o) (Ciphers o) name
            (if http2 then [B "h2"; B "http/1.1"] else [B "http/1.1"]) roots certificates)) : result tlsError tlsConfig with
    | Ok c => Config_MinVersion c = MinVersion o /\ Config_MaxVersion c = MaxVersion o /\
        NextProtos c = (if http2 then [B "h2"; B "http/1.1"] else [B "http/1.1"]) /\ RootCAs c = roots /\ loadableCertificate o (Certificates c)
    | Err _ => ~ exists cs, loadableCertificate o cs
    end) as Hc.
  { intros roots. rewrite Hm. unfold loadableCertificate. destruct (TLS_ClientCertificate o) as [c|]; [|by cbn].
    destruct (loadClientCertificate c) as [x|e]; cbn; [split_and!; try done; by exists x|]. by intros (cs & x & ? & _). }
  destruct (CACertificatesPEM o) as [[|p ps]|] eqn:Eca; [done| |].
  - rewrite appendRoots_spec. pose proof (loadableRoots_decides o (p :: ps) Eca) as Hd.
    destruct (forallb _ _) eqn:Ef; cbn [mbind result_bind]; [|intros [Hl _]; apply Hd in Hl; congruence].
    specialize (Hc (Some ([] ++ concat (map certificatesOf (p :: ps))))).
    match type of Hc with match ?x with _ => _ end => destruct x end; [destruct Hc as (H1 & H2 & H3 & H4 & H5); split_and!; try done; by apply Hd|tauto].
  - assert (loadableRoots o) as Hl by (intros ps Hps; congruence). cbn [mbind result_bind]. specialize (Hc None).
    match type of Hc with match ?x with _ => _ end => destruct x end; [destruct Hc as (H1 & H2 & H3 & H4 & H5); by split_and!|tauto].
Qed.

(** The options for TLS that are meant when there are none. *)
Definition defaultTLS : TLSOptions := mkTLS None VersionTLS12 0 [] None.

Lemma buildRawTLSConfig_valid options : validTransport options -> exists r, buildRawTLSConfig options = Some r /\
  match r with
  | Err _ => ~ loadable options
  | Ok c => loadable options /\ forall pool address, 1 <= Pool.MaxConnections pool <= 65536 -> 0 < Pool.Lifetime pool -> 0 < Pool.IdleTimeout pool ->
      constructed options (mkTransport c pool address)
  end.
Proof.
  intros [_ _ [http2 Hh] Ht _]. unfold buildRawTLSConfig. rewrite Hh. eexists. split; [done|].
  set (o := default defaultTLS (TLS options)).
  assert ((MinVersion o = VersionTLS12 \/ MinVersion o = VersionTLS13) /\ (MaxVersion o = 0 \/ MinVersion o <= MaxVersion o <= VersionTLS13) /\
    CACertificatesPEM o <> Some []) as (H1 & H2 & H3).
  { subst o. destruct (TLS options) as [o|]; [by apply Ht|]. cbn. auto. }
  assert (loadable options <-> loadableRoots o /\ exists cs, loadableCertificate o cs) as Hl.
  { unfold loadable. subst o. destruct (TLS options) as [o|]; cbn.
    - split; [intros H; by apply H|]. by intros H t [= <-].
    - split; [|done]. intros _. split; [done|by exists []]. }
  assert (forall A (f : option tlsInput -> A), f (Some match TLS options with None => mkInput None 0 0 [] None [] http2
    | Some t => mkInput (CACertificatesPEM t) (MinVersion t) (MaxVersion t) (Ciphers t) (TLS_ClientCertificate t) [] http2 end) =
    f (Some (mkInput (CACertificatesPEM o) (match TLS options with None => 0 | _ => MinVersion o end) (MaxVersion o) (Ciphers o) (TLS_ClientCertificate o) [] http2))) as ->
    by (intros; subst o; by destruct (TLS options)).
  assert (BuildConfig (Some (mkInput (CACertificatesPEM o) (match TLS options with None => 0 | _ => MinVersion o end) (MaxVersion o) (Ciphers o)
    (TLS_ClientCertificate o) [] http2)) = BuildConfig (Some (mkInput (CACertificatesPEM o) (MinVersion o) (MaxVersion o) (Ciphers o) (TLS_ClientCertificate o) [] http2))) as ->
    by (subst o; by destruct (TLS options)).
  pose proof (BuildConfig_snapshot o http2 [] H1 H2 H3) as Hb. destruct (BuildConfig _) as [c|e]; [|by rewrite Hl].
  destruct Hb as (M1 & M2 & M3 & M4 & M5 & M6). split; [apply Hl; split; [done|by exists (Certificates c)]|].
  intros pool address P1 P2 P3. constructor; cbn [transport_tls transport_pool]; try done.
  - rewrite M1, M2. unfold VersionTLS12, VersionTLS13 in *. destruct H1 as [E|E]; rewrite E in *; split; lia || done.
  - rewrite M3, Hh. assert (B "h2" <> B "http/1.1") as Hne by (vm_compute; done).
    destruct http2; split; [set_solver|split; [done|set_solver]|set_solver|]. split; [|done]. intros H%list_elem_of_singleton. done.
  - rewrite M4. subst o. by destruct (TLS options).
  - subst o. by destruct (TLS options).
Qed.

(** From a snapshot, the construction never dereferences a nil pointer; it fails exactly
    when a certificate or key cannot be read. *)
Lemma newRawTransportFromSnapshot_valid options : validTransport options -> exists r, newRawTransportFromSnapshot options = Some r /\
  match r with
  | Ok t => loadable options /\ constructed options t
  | Err e => ~ loadable options /\ e = invalidHTTPTransportOptions ConfigurationIssueCodeInvalidValue
  end.
Proof.
  intros Hv. destruct (buildRawTLSConfig_valid options Hv) as (r & Hr & Hb).
  destruct Hv as [(n & Hn & Hn') (a & b & Ha & Hbb & Va & Vb) _ _ Hp]. apply validDuration_positive in Va, Vb.
  unfold newRawTransportFromSnapshot. rewrite Hr. destruct r as [c|e]; [|by eexists].
  rewrite Hn, Ha, Hbb. destruct Hb as [Hl Hc]. destruct (Proxy options) as [p|]; [destruct (Hp p eq_refl) as (u & -> & _)|];
    (eexists; split; [done|]; split; [done|apply Hc; cbn; lia]).
Qed.

(** The construction from given options: it fails exactly when the options are refused or a
    certificate or key of theirs cannot be read. *)
Lemma newRawTransport_total input : exists r, newRawTransport input = Some r /\
  match r with
  | Ok t => exists options, snapshotHTTPTransportOptions input = Ok options /\ loadable options /\ constructed options t
  | Err e => snapshotHTTPTransportOptions input = Err e \/
      exists options, snapshotHTTPTransportOptions input = Ok options /\ ~ loadable options /\
        e = invalidHTTPTransportOptions ConfigurationIssueCodeInvalidValue
  end.
Proof.
  unfold newRawTransport. destruct (snapshotHTTPTransportOptions input) as [options|e] eqn:Es; [|eexists; split; [done|by left]].
  destruct (newRawTransportFromSnapshot_valid options) as (r & -> & Hr); [by eapply snapshotHTTPTransportOptions_valid|].
  exists r. split; [done|]. destruct r as [t|e]; [by exists options|right; by exists options].
Qed.
End construction.

(** ** A key file *)
Module Demo.
(** Octets are read as bytes, the parameters are fixed, and the cipher reverses blocks. *)
#[local] Instance reversing : Cryptography := {|
  unmarshalInfo d := Some (mkKeyInfo (mkAlgorithm oidPBES2 []) (map (fun c => c mod 256) d), []);
  unmarshalPBES2 _ := Some (mkPBES2 (mkAlgorithm oidPBKDF2 []) (mkAlgorithm oidAES128CBC []), []);
  unmarshalPBKDF2 _ := Some (mkPBKDF2 [1] 2048 16 (mkAlgorithm oidHMACWithSHA512 []), []);
  unmarshalOctets _ := Some (replicate 16 7, []);
  pbkdf2Key _ _ _ _ k := if k <? 0 then None else Some (replicate (Z.to_nat k) 0);
  aesEncrypt _ b := rev b;
  aesDecrypt _ b := rev b
|}.
Lemma reversed_block b : block b -> block (rev b).
Proof. intros [Hl Hb]. split; [by rewrite length_rev|by apply Forall_rev]. Qed.
#[local] Instance reversing_laws : CryptographyLaws.
Proof.
  constructor.
  - intros d i r [= <- _]. cbn. apply Forall_forall. intros x (y & -> & _)%list_elem_of_fmap. unfold is_byte. apply Z.mod_pos_bound. lia.
  - intros d o r [= <- _]. apply (Forall_replicate is_byte 16 7). unfold is_byte. lia.
  - intros h p s n k key. cbn. destruct (Z.ltb_spec k 0); [done|]. intros [= <-]. unfold len. rewrite length_replicate. lia.
  - intros k b. apply reversed_block.
  - intros k b. apply reversed_block.
  - intros k b _. apply rev_involutive.
  - intros k b _. apply rev_involutive.
Qed.

Definition secret : bytes := B "a private key of the client".
Definition file : bytes := cbcEncrypt (blocks (pkcs7 secret)) (replicate 16 0) (replicate 16 7) (pkcs7 secret).
Lemma decryptPKCS8_exact_witness : len file = 32 /\ decryptPKCS8 file (B "passphrase") = Ok secret.
Proof.
  split; [vm_compute; reflexivity|]. apply decryptPKCS8_exact.
  exists (mkKeyInfo (mkAlgorithm oidPBES2 []) file), (mkPBES2 (mkAlgorithm oidPBKDF2 []) (mkAlgorithm oidAES128CBC [])),
    (mkPBKDF2 [1] 2048 16 (mkAlgorithm oidHMACWithSHA512 [])), 16, SHA512, (replicate 16 7), (replicate 16 0).
  assert (Forall is_byte secret) by (unfold is_byte; apply (bool_decide_unpack _); vm_compute; done).
  constructor; split_and?; try done; try (cbn; auto); vm_compute; done.
Defined.
End Demo.
