(* ===== verification/Dial.v ===== *)
(** * Dialling (internal/tlsx/tlsx.go, [DialTCP], [dialResolved], [Client], [DialTLS])

    The addresses that a dial tries, and the race of the dials: a goroutine per address
    that sends its result to a channel with room for all of them, and the caller that
    keeps the first connection and closes the others, as a step relation. *)
From S2P Require Import Prelude GoText GoURL RawTransport.

(** ** Addresses *)

(** [net.SplitHostPort]. *)
Definition SplitHostPort (hostport : bytes) : option (bytes * bytes) :=
  match LastCut hostport 58 with
  | None => None
  | Some (before, port) =>
    if HasPrefix hostport (B "[") then
      let '(inside, after, found) := Cut hostport 93 in
      if negb found || negb (length before =? S (length inside))%nat then None
      else if ContainsByte (drop 1 hostport) 91 || ContainsByte after 93 then None
      else Some (drop 1 inside, port)
    else if ContainsByte before 58 || ContainsByte hostport 91 || ContainsByte hostport 93 then None
    else Some (before, port)
  end.

(** What [DialTCP] does: it fails, leaves the name to the dialer, or dials addresses. *)
Inductive dialPlan := PlanFails (e : goError) | PlanName (address : bytes) | PlanRace (addresses : list bytes).

(** [net.DNSError] of a host without addresses. *)
Definition noAddresses : goError :=
  mkGoError false false (Some (false, true)) None noCert false false false false false false false false false false false None None None.

Section dial.
(** [net.DefaultResolver.LookupNetIP]. *)
Context (LookupNetIP : bytes -> result goError (list Addr)).

(** tlsx.go, [resolve]. *)
Definition resolve (host : bytes) (resolver : option (bytes -> result goError (list Addr))) : result goError (list Addr) :=
  match ParseAddr host with
  | Some a => Ok [a]
  | None => match resolver with Some f => f host | None => LookupNetIP host end
  end.

(** tlsx.go, [DialTCP]. *)
Definition DialTCP (address : bytes) (resolver : option (bytes -> result goError (list Addr))) : dialPlan :=
  match SplitHostPort address with
  | None => PlanFails plainError
  | Some (host, port) =>
    if match resolver, ParseAddr host with None, None => true | _, _ => false end then PlanName address
    else match resolve host resolver with
         | Err e => PlanFails e
         | Ok [] => PlanFails noAddresses
         | Ok addresses => PlanRace (map (fun a => JoinHostPort (Addr_String a) port) addresses)
         end
  end.
End dial.

(** ** The race *)

(** tlsx.go, [dialResolved]: which goroutines still dial, the channel [results] with the
    number of the address and the error if there is one, what the loop has found, and the
    history of the connections: a connection has the number of its address. *)
Record race := mkRace {
  dialling : list bool;
  results : list (nat * option goError);
  received : nat;
  winner : option nat;
  lastErr : option goError;
  dialsCancelled : bool;
  opened : list nat;
  closed : list nat;
  returned : option (result (option goError) nat)
}.

(** tlsx.go, [dialResolved], one turn of the loop. *)
Definition receive (i : nat) (err : option goError) (q : list (nat * option goError)) (σ : race) : race :=
  match err with
  | None =>
    match winner σ with
    | None => mkRace (dialling σ) q (S (received σ)) (Some i) (lastErr σ) true (opened σ) (closed σ) (returned σ)
    | Some w => mkRace (dialling σ) q (S (received σ)) (Some w) (lastErr σ) (dialsCancelled σ) (opened σ) (closed σ ++ [i]) (returned σ)
    end
  | Some e => mkRace (dialling σ) q (S (received σ)) (winner σ) (Some e) (dialsCancelled σ) (opened σ) (closed σ) (returned σ)
  end.

(** tlsx.go, [dialResolved], after the loop; [ctxErr] is the error of the context. *)
Definition raceResult (ctxErr : option goError) (σ : race) : result (option goError) nat :=
  match winner σ with
  | Some w => Ok w
  | None => Err (match ctxErr with Some e => Some e | None => lastErr σ end)
  end.

(** A dial may also succeed after [cancel]. *)
Inductive raceStep (σ : race) : race -> Prop :=
| race_dialled i : dialling σ !! i = Some true ->
    raceStep σ (mkRace (<[i := false]> (dialling σ)) (results σ ++ [(i, None)]) (received σ) (winner σ) (lastErr σ) (dialsCancelled σ)
      (opened σ ++ [i]) (closed σ) (returned σ))
| race_failed i e : dialling σ !! i = Some true ->
    raceStep σ (mkRace (<[i := false]> (dialling σ)) (results σ ++ [(i, Some e)]) (received σ) (winner σ) (lastErr σ) (dialsCancelled σ)
      (opened σ) (closed σ) (returned σ))
| race_receive i err q : results σ = (i, err) :: q -> (received σ < length (dialling σ))%nat -> raceStep σ (receive i err q σ)
| race_return ctxErr : received σ = length (dialling σ) -> returned σ = None ->
    raceStep σ (mkRace (dialling σ) (results σ) (received σ) (winner σ) (lastErr σ) (dialsCancelled σ) (opened σ) (closed σ)
      (Some (raceResult ctxErr σ))).

Definition raceStart (n : nat) : race := mkRace (replicate n true) [] 0 None None false [] [] None.
Definition raceReachable (n : nat) (σ : race) : Prop := rtc raceStep (raceStart n) σ.

(** *** The invariant *)

Definition running (b : bool) : Z := if b then 1 else 0.
Definition arrived (x : nat * option goError) : list nat := match x.2 with None => [x.1] | Some _ => [] end.
Definition kept (w : option nat) : list nat := match w with Some w => [w] | None => [] end.

Record raceInv (n : nat) (σ : race) : Prop := {
  race_size : length (dialling σ) = n;
  race_count : zsum running (dialling σ) + len (results σ) + Z.of_nat (received σ) = Z.of_nat n;
  race_opened : opened σ ≡ₚ concat (map arrived (results σ)) ++ closed σ ++ kept (winner σ);
  race_once : NoDup (opened σ) /\ Forall (fun i => dialling σ !! i = Some false) (opened σ);
  race_closed : winner σ = None -> closed σ = [] /\ (received σ = 0%nat \/ lastErr σ <> None);
  race_returned : returned σ = None \/ received σ = n /\ exists ctxErr, returned σ = Some (raceResult ctxErr σ)
}.

Lemma running_update (l : list bool) i : l !! i = Some true -> zsum running (<[i := false]> l) = zsum running l - 1.
Proof. intros H. rewrite (zsum_insert _ _ _ _ _ H). cbn. lia. Qed.
Lemma opened_update (l : list bool) i os : l !! i = Some true -> NoDup os /\ Forall (fun j => l !! j = Some false) os ->
  i ∉ os /\ Forall (fun j => <[i := false]> l !! j = Some false) os.
Proof.
  intros Hi [_ Hf]. rewrite Forall_forall in Hf. split; [intros H; specialize (Hf _ H); cbn in Hf; congruence|].
  apply Forall_forall. intros j Hj. destruct (decide (j = i)) as [->|Hne]; [apply list_lookup_insert_eq; by eapply lookup_lt_Some|].
  rewrite list_lookup_insert_ne by done. by apply Hf.
Qed.

Lemma raceInv_step n σ σ' : raceInv n σ -> raceStep σ σ' -> raceInv n σ'.
Proof.
  intros [I1 I2 I3 I4 I5 I6] Hs.
  assert (forall i, dialling σ !! i = Some true -> zsum running (<[i := false]> (dialling σ)) + (len (results σ) + 1) + Z.of_nat (received σ) = Z.of_nat n) as Hc.
  { intros i Hi. rewrite (running_update _ _ Hi). lia. }
  destruct Hs as [i Hi|i e Hi|i err q Hq Hr|ctxErr Hr Hn].
  - destruct (opened_update _ _ _ Hi I4) as [H1 H2]. constructor; cbn; rewrite ?length_insert; try done.
    + unfold len in *. rewrite length_app. cbn. specialize (Hc i Hi). lia.
    + rewrite map_app, concat_app, I3. cbn. solve_Permutation.
    + split; [apply NoDup_app; split_and!; [apply I4| |apply NoDup_singleton]; intros x Hx ->%list_elem_of_singleton; done|].
      apply Forall_app. split; [done|]. constructor; [|done]. apply list_lookup_insert_eq. by eapply lookup_lt_Some.
  - destruct (opened_update _ _ _ Hi I4) as [H1 H2]. constructor; cbn; rewrite ?length_insert; try done.
    + unfold len in *. rewrite length_app. cbn. specialize (Hc i Hi). lia.
    + rewrite map_app, concat_app. cbn. by rewrite app_nil_r.
    + split; [apply I4|done].
  - rewrite Hq in I2, I3. unfold len in I2. cbn in I2, I3.
    assert (returned σ = None) as Hret by (destruct I6 as [?|[? _]]; [done|lia]).
    destruct err as [e|]; [|destruct (winner σ) as [w|] eqn:Ew]; cbn [receive]; rewrite ?Ew; constructor; cbn; try done; try (unfold len; lia); try (by left).
    + intros H. specialize (I5 H). split; [apply I5|by right].
    + rewrite I3. cbn. solve_Permutation.
    + destruct (I5 eq_refl) as [Hcl _]. rewrite I3, Hcl. cbn. solve_Permutation.
  - constructor; cbn; try done. right. split; [congruence|]. by exists ctxErr.
Qed.

Lemma raceInv_reachable n σ : raceReachable n σ -> raceInv n σ.
Proof.
  apply rtc_invariant; [|intros a b; apply raceInv_step]. constructor; cbn; try done.
  - by rewrite length_replicate.
  - induction n as [|n IH]; [done|]. cbn [replicate zsum running]. unfold len in *. cbn in *. lia.
  - split; [apply NoDup_nil_2|done].
  - intros _. split; [done|by left].
  - by left.
Qed.

(** ** The race ends, with at most one connection *)

Definition raceMeasure (σ : race) : Z :=
  2 * zsum running (dialling σ) + len (results σ) + match returned σ with None => 1 | Some _ => 0 end.

Lemma running_nonneg l : 0 <= zsum running l.
Proof. apply zsum_nonneg. intros []; cbn; lia. Qed.
Lemma running_none l : zsum running l = 0 -> Forall (fun b => b = false) l.
Proof.
  intros H. apply Forall_forall. intros b Hb. assert (running b = 0) as E.
  { eapply zsum_zero; [intros [] _; cbn; lia|exact H|done]. }
  by destruct b.
Qed.
Lemma running_some l : 0 < zsum running l -> exists i, l !! i = Some true.
Proof.
  induction l as [|[] l IH]; cbn; [done|by exists 0%nat|]. intros [i Hi]%IH. by exists (S i).
Qed.

(** Every step of anyone brings the call nearer to its end, so no run goes on for ever. *)
Lemma raceStep_measure σ σ' : raceStep σ σ' -> raceMeasure σ' < raceMeasure σ.
Proof.
  unfold raceMeasure. intros [i Hi|i e Hi|i err q Hq Hr|ctxErr Hr Hn]; cbn.
  - rewrite (running_update _ _ Hi). unfold len. rewrite length_app. cbn. lia.
  - rewrite (running_update _ _ Hi). unfold len. rewrite length_app. cbn. lia.
  - rewrite Hq. unfold receive, len. destruct err; [|destruct (winner σ)]; cbn; lia.
  - rewrite Hn. lia.
Qed.
Lemma raceMeasure_nonneg σ : 0 <= raceMeasure σ.
Proof. unfold raceMeasure, len. pose proof (running_nonneg (dialling σ)). destruct (returned σ); lia. Qed.
Lemma race_length k σ σ' : nsteps raceStep k σ σ' -> Z.of_nat k + raceMeasure σ' <= raceMeasure σ.
Proof. induction 1 as [|k σ1 σ2 σ3 Hs%raceStep_measure _ IH]; lia. Qed.
Lemma raceMeasure_start n : raceMeasure (raceStart n) = 2 * Z.of_nat n + 1.
Proof.
  unfold raceMeasure, raceStart, len. cbn. replace (zsum running (replicate n true)) with (Z.of_nat n); [lia|].
  induction n as [|n IH]; [done|]. cbn [replicate zsum running]. lia.
Qed.

(** A call that has not returned goes on: a dial ends, or the caller takes a result, or it
    returns. *)
Lemma race_progress n σ : raceInv n σ -> returned σ = None -> exists σ', raceStep σ σ'.
Proof.
  intros [I1 I2 I3 I4 I5 I6] Er. pose proof (running_nonneg (dialling σ)). destruct (decide (zsum running (dialling σ) = 0)) as [Hz|Hz].
  - destruct (results σ) as [|[i err] q] eqn:Eq; unfold len in *; cbn in *.
    + eexists. apply (race_return σ None); [lia|done].
    + eexists. eapply race_receive; [done|lia].
  - destruct (running_some (dialling σ)) as [i Hi]; [lia|]. eexists. by apply (race_dialled σ i).
Qed.

(** C24. In every interleaving of the dials to the n addresses of a host and the
    caller that collects them, the call takes at most 2n+1 steps, and as long as it
    has not returned there is a next one, so that it comes to an end once every dial
    does; when it has ended no dial is under way and nothing is left in the channel;
    it returns a connection exactly when a dial succeeded, and every other
    connection that was opened, before or after the cancellation, has been closed
    once. *)
Theorem dials_keep_one_connection n k σ : nsteps raceStep k (raceStart n) σ ->
  (k <= 2 * n + 1)%nat /\ (returned σ = None -> exists σ', raceStep σ σ') /\
  (forall r, returned σ = Some r ->
   Forall (fun b => b = false) (dialling σ) /\ results σ = [] /\ NoDup (opened σ) /\
   match r with
   | Ok w => opened σ ≡ₚ w :: closed σ
   | Err e => opened σ = [] /\ closed σ = [] /\ ((0 < n)%nat -> e <> None)
   end).
Proof.
  intros Hk. split.
  { pose proof (race_length _ _ _ Hk). pose proof (raceMeasure_nonneg σ). pose proof (raceMeasure_start n). lia. }
  assert (raceReachable n σ) as Hr%raceInv_reachable by (apply rtc_nsteps; eauto).
  split; [by eapply race_progress|]. intros r Hret. destruct Hr as [I1 I2 I3 I4 I5 I6].
  destruct I6 as [I6|[I6 [ctxErr I7]]]; [congruence|]. rewrite I7 in Hret. injection Hret as <-. pose proof (running_nonneg (dialling σ)) as Hz.
  assert (results σ = []) as Hq by (destruct (results σ); [done|unfold len in *; cbn in *; lia]). rewrite Hq in *. cbn in *.
  split_and!; [apply running_none; unfold len in *; cbn in *; lia|done|apply I4|]. unfold raceResult.
  destruct (winner σ) as [w|]; cbn in *; [rewrite I3; by rewrite Permutation_app_comm|].
  destruct (I5 eq_refl) as [Hc He]. rewrite Hc in *. cbn in *. split_and!; [by apply Permutation_nil_r|done|].
  intros Hn. destruct ctxErr; [done|]. destruct He as [?|?]; [lia|done].
Qed.

(** ** What is dialled *)

Lemma contains_false s c : ContainsByte s c = false <-> c ∉ s.
Proof.
  unfold ContainsByte. rewrite <- not_true_iff_false, existsb_exists. split.
  - intros H Hin. apply H. exists c. split; [by apply list_elem_of_In|apply Z.eqb_refl].
  - intros H (x & Hx & <-%Z.eqb_eq). apply H. by apply list_elem_of_In.
Qed.

(** A host without brackets and a port without brackets or colons come back. *)
Lemma SplitHostPort_join host port : (91 ∉ host) -> (93 ∉ host) -> (91 ∉ port) -> (93 ∉ port) -> (58 ∉ port) ->
  SplitHostPort (JoinHostPort host port) = Some (host, port).
Proof.
  intros H1 H2 P1 P2 P3. unfold SplitHostPort, JoinHostPort. destruct (ContainsByte host 58) eqn:Ec.
  - change (B "[") with [91]. change (B "]:") with [93; 58]. cbn [app].
    replace (91 :: host ++ 93 :: 58 :: port) with ((91 :: host ++ [93]) ++ 58 :: port) at 1 by (cbn; by rewrite <- app_assoc).
    rewrite LastCut_found by done. cbn [HasPrefix Z.eqb Pos.eqb].
    replace (91 :: host ++ 93 :: 58 :: port) with ((91 :: host) ++ 93 :: 58 :: port) by done.
    rewrite (Cut_found (91 :: host)) by (rewrite not_elem_of_cons; split; [lia|done]). cbn [negb orb length]. rewrite length_app. cbn [length].
    replace (S (length host + 1) =? S (S (length host)))%nat with true by (symmetry; apply Nat.eqb_eq; lia). cbn [negb app drop]. rewrite !drop_0, andb_true_l.
    assert (HasPrefix (host ++ 93 :: 58 :: port) [] = true) as -> by by destruct host.
    assert (ContainsByte (host ++ 93 :: 58 :: port) 91 = false) as -> by (apply contains_false; rewrite not_elem_of_app, !not_elem_of_cons; split_and!; done || lia).
    assert (ContainsByte (58 :: port) 93 = false) as -> by (apply contains_false; rewrite not_elem_of_cons; split; [lia|done]). done.
  - change (B ":") with [58]. cbn [app]. rewrite LastCut_found by done.
    assert (forall c, c <> 58 -> (c ∉ host) -> (c ∉ port) -> c ∉ host ++ 58 :: port) as Hn
      by (intros c Hc Hh Hp; rewrite not_elem_of_app, not_elem_of_cons; done).
    assert (HasPrefix (host ++ 58 :: port) (B "[") = false) as ->.
    { change (B "[") with [91]. destruct host as [|c h]; [done|]. cbn. apply not_elem_of_cons in H1 as [H1 _]. destruct (Z.eqb_spec c 91); [lia|done]. }
    rewrite Ec, (proj2 (contains_false _ 91)), (proj2 (contains_false _ 93)) by (by apply Hn). done.
Qed.

(** A host that is an address is dialled as it is, whatever the resolver; other names go to
    the resolver that is configured, or to the dialer. *)
Lemma DialTCP_join lookup host port resolver : (91 ∉ host) -> (93 ∉ host) -> (91 ∉ port) -> (93 ∉ port) -> (58 ∉ port) ->
  DialTCP lookup (JoinHostPort host port) resolver =
  match ParseAddr host, resolver with
  | Some a, _ => PlanRace [JoinHostPort (Addr_String a) port]
  | None, None => PlanName (JoinHostPort host port)
  | None, Some f => match f host with
                    | Err e => PlanFails e
                    | Ok [] => PlanFails noAddresses
                    | Ok l => PlanRace (map (fun a => JoinHostPort (Addr_String a) port) l)
                    end
  end.
Proof.
  intros H1 H2 P1 P2 P3. unfold DialTCP. rewrite SplitHostPort_join by done. unfold resolve.
  destruct (ParseAddr host) as [a|], resolver as [f|]; try done.
Qed.

(** ** TLS *)

(** tlsx.go, [Client] and [DialTLS]: the connection is closed when the handshake fails. *)
Definition Client (handshake : option goError) : result goError unit :=
  match handshake with Some e => Err e | None => Ok tt end.
Definition DialTLS (connection : result goError nat) (handshake : option goError) : list dialEvent * result goError nat :=
  match connection with
  | Err e => ([], Err e)
  | Ok c => match Client handshake with
            | Err e => ([ConnectionOpened; ConnectionClosed], Err e)
            | Ok _ => ([ConnectionOpened], Ok c)
            end
  end.

(** ** Runs *)
Module Demo.
Definition e1 : goError := plainError.
(** Two dials connect, one after the other, and a third fails. *)
Definition raced : race := mkRace [false; false; false] [] 3 (Some 1%nat) (Some e1) true [1; 0]%nat [0]%nat (Some (Ok 1%nat)).
Lemma raced_run : nsteps raceStep 7 (raceStart 3) raced.
Proof.
  eapply nsteps_l; [by apply (race_dialled _ 1)|]. eapply nsteps_l; [by apply (race_receive _ 1 None []); [|cbn; lia]|].
  eapply nsteps_l; [by apply (race_failed _ 2 e1)|]. eapply nsteps_l; [by apply (race_dialled _ 0)|].
  eapply nsteps_l; [by eapply race_receive; [|cbn; lia]|]. eapply nsteps_l; [by eapply race_receive; [|cbn; lia]|].
  eapply nsteps_l; [by apply (race_return _ None)|]. apply nsteps_O.
Qed.
Lemma dials_keep_one_connection_witness : returned raced = Some (Ok 1%nat) /\ opened raced ≡ₚ 1%nat :: closed raced.
Proof.
  split; [reflexivity|]. destruct (dials_keep_one_connection 3 7 raced raced_run) as (_ & _ & H). by destruct (H _ eq_refl) as (_ & _ & _ & Hp).
Defined.
End Demo.
