(* ===== verification/Construct.v ===== *)
(** * Construction (runtime.go, transport.go, config.go)

    [NewRuntime] and [NewHTTPTransport], which put the parts together: the snapshot of the
    options, the raw transport, the runtime state and the dispatcher; and the entropy that
    a client draws from when it is given none. *)
From S2P Require Import Prelude Errors RuntimeState GoText StrictJson Response Operation Observer Telemetry GoURL Config RawTransport Pool Tlsx.

(** ** Transports *)

Section construct.
Context {Cr : Cryptography} {X : X509}.

(** transport.go: a transport of the caller's own, the built-in one, and what
    [NewHTTPTransport] makes of options that it cannot use. *)
Inductive Transport :=
| CustomTransport
| HTTPTransport (t : rawTransport)
| invalidHTTPTransport (err : Error).

(** transport.go, [NewHTTPTransport]; [None] is a panic. *)
Definition NewHTTPTransport (options : HTTPTransportOptions) : option Transport :=
  match newRawTransport options with
  | None => None
  | Some (Err e) => Some (invalidHTTPTransport e)
  | Some (Ok t) => Some (HTTPTransport t)
  end.

(** transport.go, [constructionError]: whether the interface is there, and the error. *)
Definition constructionError (t : Transport) : option Error :=
  match t with invalidHTTPTransport e => Some e | _ => None end.

(** ** The runtime *)

(** runtime.go, [Runtime]; its pool is part of the transport. *)
Record Runtime := mkRuntime {
  runtime_config : configuration;
  runtime_transport : Transport;
  runtime_ownsTransport : bool;
  runtime_state : runtimeState;
  runtime_observer : option dispatcher
}.

Definition emptyOptions : ClientOptions :=
  Config.mkOptions [] false false [] false None None None None None None None None None None false.

(** runtime.go, [NewRuntime]: [given] is the value of the transport when one is set,
    [observer] whether there is an observer.  [None] is a panic. *)
Definition NewRuntime (getenv : bytes -> option bytes) (options : option ClientOptions) (given : Transport) (observer : bool)
    : option (result Error Runtime) :=
  let options := default emptyOptions options in
  match snapshotConfig getenv options with
  | Err e => Some (Err e)
  | Ok config =>
    let make transport :=
      Some (Ok (mkRuntime config transport (ownsTransport (operation config))
        (newRuntimeState (maxInFlightOperations config) (maxBufferedBytes config) (operationTimeout config))
        (if observer then Some newDispatcher else None))) in
    if TransportSet options then
      match constructionError given with Some e => Some (Err e) | None => make given end
    else
      match newRawTransportFromSnapshot (httpTransportOptions config) with
      | None => None
      | Some (Err e) => Some (Err e)
      | Some (Ok t) => make (HTTPTransport t)
      end
  end.

(** runtime.go, [Diagnostics]. *)
Definition Diagnostics (r : Runtime) : RuntimeDiagnostics := snapshot (runtime_state r).

(** ** What is refused *)

(** Durations that are accepted: whole milliseconds, from one up to what fits in 64 bits of
    nanoseconds. *)
Definition durationInRange (v : Z) : Prop := exists ms, v = ms * 1000000 /\ 1 <= ms <= 9223372036854.
Definition durationOptions (o : ClientOptions) : list (option Z * ClientOptionKey) :=
  [(ConnectTimeout o, ClientOptionKeyConnectTimeout); (AttemptTimeout o, ClientOptionKeyAttemptTimeout);
   (OperationTimeout o, ClientOptionKeyOperationTimeout); (RetryBaseDelay o, ClientOptionKeyRetryBaseDelay);
   (RetryMaxDelay o, ClientOptionKeyRetryMaxDelay)].
(** Numbers with their ranges. *)
Definition numberOptions (o : ClientOptions) : list (option Z * (Z * Z) * ClientOptionKey) :=
  [(MaxAttempts o, (1, 10), ClientOptionKeyMaxAttempts);
   (MaxInFlightOperations o, (1, 65536), ClientOptionKeyMaxInFlightOperations);
   (MaxBufferedBytes o, (4194304, 1073741824), ClientOptionKeyMaxBufferedBytes)].

(** The value of the first of two variables that is set. *)
Definition environmentKey (getenv : bytes -> option bytes) : option bytes :=
  union (getenv (B "REPOST_SEND_API_KEY")) (getenv (B "REPOST_TOKEN")).
Definition baseURI (getenv : bytes -> option bytes) (o : ClientOptions) : bytes :=
  if APIURL o ==? [] then default defaultAPIURL (getenv (B "REPOST_API_URL")) else APIURL o.

(** The faults of options, with the issue and the options that each is reported for. *)
Inductive fault (getenv : bytes -> option bytes) (o : ClientOptions) : ConfigurationIssueCode -> list ClientOptionKey -> Prop :=
| fault_credentials : Option_APIKey o <> [] \/ apiKeySet o = true -> APIKeyProviderSet o = true ->
    fault getenv o ConfigurationIssueCodeConflict [ClientOptionKeyAPIKey; ClientOptionKeyAPIKeyProvider]
| fault_transports : TransportSet o = true -> Option_HTTP o <> None ->
    fault getenv o ConfigurationIssueCodeConflict [ClientOptionKeyHTTPTransportOptions; ClientOptionKeyTransport]
| fault_http issue : snapshotHTTPTransportOptions (default (mkTransportOptions None None false None None None None) (Option_HTTP o)) =
      Err (invalidHTTPTransportOptions issue) -> fault getenv o issue [ClientOptionKeyHTTPTransportOptions]
| fault_key key : APIKeyProviderSet o = false ->
    (Option_APIKey o <> [] \/ apiKeySet o = true) /\ key = Option_APIKey o \/
    (Option_APIKey o = [] /\ apiKeySet o = false) /\ environmentKey getenv = Some key ->
    validCredential key = false -> fault getenv o ConfigurationIssueCodeInvalidValue [ClientOptionKeyAPIKey]
| fault_port issue : baseURIPortIssue (baseURI getenv o) = Some issue -> fault getenv o issue [ClientOptionKeyBaseURI]
| fault_endpoint : canonicalEndpoint (baseURI getenv o) = None -> fault getenv o ConfigurationIssueCodeInvalidValue [ClientOptionKeyBaseURI]
| fault_duration v key : (Some v, key) ∈ durationOptions o -> ~ durationInRange v -> fault getenv o ConfigurationIssueCodeOutOfRange [key]
| fault_number v lo hi key : (Some v, (lo, hi), key) ∈ numberOptions o -> ~ lo <= v <= hi -> fault getenv o ConfigurationIssueCodeOutOfRange [key]
| fault_delays base maximum : RetryBaseDelay o = Some base -> RetryMaxDelay o = Some maximum -> maximum < base ->
    fault getenv o ConfigurationIssueCodeConflict [ClientOptionKeyRetryBaseDelay; ClientOptionKeyRetryMaxDelay]
| fault_agent v : UserAgentSuffix o = Some v -> validUserAgentSuffix v = false ->
    fault getenv o ConfigurationIssueCodeInvalidValue [ClientOptionKeyUserAgentSuffix].

(** A step of the snapshot: it fails with a fault, and when it does not there was none of
    the faults that it looks for. *)
Section faults.
Context (getenv : bytes -> option bytes) (o : ClientOptions).
Definition blames {A} (m : result Error A) : Prop :=
  forall e, m = Err e -> exists issue keys, e = configurationError issue keys /\ fault getenv o issue keys.

Lemma blames_bind {A C} (m : result Error A) (f : A -> result Error C) : blames m -> (forall x, m = Ok x -> blames (f x)) -> blames (m ≫= f).
Proof. intros Hm Hf e. destruct m as [x|e']; cbn; [by apply Hf|]. intros [= <-]. by apply Hm. Qed.
Lemma blames_ok {A} (x : A) : blames (Ok x).
Proof. done. Qed.
Lemma blames_reject c issue keys : (c = true -> fault getenv o issue keys) -> blames (reject c (configurationError issue keys)).
Proof. intros Hc e. unfold reject. destruct c; [|done]. intros [= <-]. exists issue, keys. auto. Qed.

Lemma validConfiguredDuration_range v : validConfiguredDuration v = true <-> durationInRange v.
Proof.
  unfold validConfiguredDuration, durationInRange, maximumConfiguredDuration, millisecond. rewrite !andb_true_iff, Z.ltb_lt, Z.leb_le, Z.eqb_eq. split.
  - intros [[H1 H2] H3]. exists (Z.quot v 1000000). pose proof (Z.quot_rem' v 1000000). split; lia.
  - intros (ms & -> & H). split; [lia|]. rewrite Z.rem_mul by lia. done.
Qed.
Lemma blames_duration v target key : (v, key) ∈ durationOptions o -> blames (resolveDuration v target key).
Proof.
  intros Hin e. unfold resolveDuration. destruct v as [v|]; [|done]. destruct (validConfiguredDuration v) eqn:Hv; [done|]. intros [= <-].
  do 2 eexists. split; [done|]. eapply fault_duration; [exact Hin|]. rewrite <- validConfiguredDuration_range. congruence.
Qed.
Lemma blames_number v target lo hi key : (v, (lo, hi), key) ∈ numberOptions o -> blames (resolveInt v target lo hi key).
Proof.
  intros Hin e. unfold resolveInt. destruct v as [v|]; [|done]. destruct (_ || _) eqn:Hv; [|done]. intros [= <-].
  do 2 eexists. split; [done|]. eapply fault_number; [exact Hin|]. zlia.
Qed.

Lemma snapshotHTTPTransportOptions_issue input e : snapshotHTTPTransportOptions input = Err e -> exists issue, e = invalidHTTPTransportOptions issue.
Proof.
  unfold snapshotHTTPTransportOptions. cbv zeta. repeat (destruct (_ : bool); [intros [= <-]; by eexists|]).
  assert (forall A (f : A -> result Error A) x e, (forall a e, f a = Err e -> exists issue, e = invalidHTTPTransportOptions issue) ->
    optionally f x = Err e -> exists issue, e = invalidHTTPTransportOptions issue) as Hopt.
  { intros A f [a|] e0 Hf; cbn; [|done]. destruct (f a) eqn:E; [done|]. intros [= <-]. by eapply Hf. }
  intros [H|(tls & _ & [H|(proxy & _ & H)]%bind_err)]%bind_err; [| |done]; (eapply Hopt; [|exact H]).
  - intros t e0. unfold snapshotTLS. cbv zeta. repeat (destruct (_ : bool); [intros [= <-]; by eexists|]). done.
  - intros t e0. unfold snapshotProxy. destruct (Parse _); [destruct (_ : bool)|]; try done; intros [= <-]; by eexists.
Qed.

Lemma lookupCredential_cases key : lookupCredential getenv o = Some key ->
  (Option_APIKey o <> [] \/ apiKeySet o = true) /\ key = Option_APIKey o \/
  (Option_APIKey o = [] /\ apiKeySet o = false) /\ environmentKey getenv = Some key.
Proof.
  unfold lookupCredential, environmentKey. destruct (Option_APIKey o ==? []) eqn:Ek; cbn.
  - apply eqb_true_1 in Ek. destruct (apiKeySet o) eqn:Es; [intros [= <-]; left; auto|]. intros H. right. split; [by split|].
    by destruct (getenv (B "REPOST_SEND_API_KEY")); destruct (getenv (B "REPOST_TOKEN")).
  - apply eqb_false in Ek. intros [= <-]. left. auto.
Qed.
Lemma snapshotConfig_blames : blames (snapshotConfig getenv o).
Proof.
  unfold snapshotConfig. apply blames_bind; [apply blames_reject|intros _ _].
  { intros [H Hp]%andb_true_iff. constructor; [|done]. apply orb_true_iff in H as [H|H]; [|by right]. apply negb_true_iff, eqb_false in H. by left. }
  apply blames_bind; [apply blames_reject|intros _ _].
  { intros [H Hp]%andb_true_iff. constructor; [done|]. by destruct (Option_HTTP o). }
  apply blames_bind; [|intros http Hhttp].
  { intros e He. destruct (snapshotHTTPTransportOptions_issue _ _ He) as [issue ->]. do 2 eexists. split; [done|]. by constructor. }
  apply blames_bind; [|intros key Hkey].
  { intros e. unfold resolveCredential. destruct (APIKeyProviderSet o) eqn:Ep; [done|]. destruct (lookupCredential getenv o) as [k|] eqn:El; [|done].
    destruct (validCredential k) eqn:Ev; [done|]. intros [= <-]. do 2 eexists. split; [done|]. eapply fault_key; [done|by apply lookupCredential_cases|done]. }
  apply blames_bind; [|intros endpoint Hendpoint].
  { intros e. unfold resolveEndpoint. fold (baseURI getenv o). destruct (baseURIPortIssue _) as [issue|] eqn:Ei.
    - intros [= <-]. do 2 eexists. split; [done|]. by constructor.
    - destruct (canonicalEndpoint _) eqn:Ee; [done|]. intros [= <-]. do 2 eexists. split; [done|]. by constructor. }
  do 3 (apply blames_bind; [apply blames_duration; set_solver|intros ? _]).
  apply blames_bind; [apply blames_number; set_solver|intros ? _].
  apply blames_bind; [apply blames_duration; set_solver|intros base Hbase].
  apply blames_bind; [apply blames_duration; set_solver|intros maximum Hmaximum].
  apply blames_bind; [apply blames_reject|intros _ _].
  { destruct (RetryBaseDelay o) as [b|] eqn:Eb; [|done]. destruct (RetryMaxDelay o) as [m|] eqn:Em; [|done].
    unfold resolveDuration in Hbase, Hmaximum. intros Hlt%Z.ltb_lt. destruct (validConfiguredDuration b), (validConfiguredDuration m); try done.
    simplify_eq. by econstructor. }
  do 2 (apply blames_bind; [apply blames_number; set_solver|intros ? _]).
  apply blames_bind; [apply blames_reject|by intros _ _].
  destruct (UserAgentSuffix o) as [v|] eqn:Ev; [|done]. intros H%negb_true_iff. by econstructor.
Qed.

(** What is accepted has none of the faults. *)
Lemma snapshotConfig_faultless c issue keys : snapshotConfig getenv o = Ok c -> ~ fault getenv o issue keys.
Proof.
  unfold snapshotConfig. intros (_ & R1%reject_ok & H)%bind_ok. apply bind_ok in H as (_ & R2%reject_ok & H).
  apply bind_ok in H as (http & Hhttp & H). apply bind_ok in H as (key & Hkey & H). apply bind_ok in H as (e & He & H).
  apply bind_ok in H as (d1 & D1 & H). apply bind_ok in H as (d2 & D2 & H). apply bind_ok in H as (d3 & D3 & H).
  apply bind_ok in H as (n1 & N1 & H). apply bind_ok in H as (d4 & D4 & H). apply bind_ok in H as (d5 & D5 & H).
  apply bind_ok in H as (_ & R3%reject_ok & H). apply bind_ok in H as (n2 & N2 & H). apply bind_ok in H as (n3 & N3 & H).
  apply bind_ok in H as (_ & R4%reject_ok & _).
  assert (forall v target key d, resolveDuration (Some v) target key = Ok d -> durationInRange v /\ d = v) as Hd.
  { intros v target k d. unfold resolveDuration. destruct (validConfiguredDuration v) eqn:Ev; [|done]. intros [= <-]. by rewrite <- validConfiguredDuration_range. }
  assert (forall v target lo hi key d, resolveInt (Some v) target lo hi key = Ok d -> lo <= v <= hi) as Hn.
  { intros v target lo hi k d. unfold resolveInt. destruct ((v <? lo) || (hi <? v)) eqn:Ev; [discriminate|]. intros _. zlia. }
  intros [Hs Hp|Hs Hh|i Hi|k Hp Hk Hv|i Hi|Hi|v k Hin Hv|v lo hi k Hin Hv|b m Hb Hm Hlt|v Hv Hbad].
  - rewrite Hp, andb_true_r in R1. apply orb_false_iff in R1 as [R1%negb_false_iff%eqb_true_1 R1']. destruct Hs; congruence.
  - rewrite Hs in R2. by destruct (Option_HTTP o).
  - congruence.
  - unfold resolveCredential, lookupCredential in Hkey. rewrite Hp in Hkey. destruct Hk as [[Hs ->]|[[Hs Hs'] He']].
    + assert (negb (Option_APIKey o ==? []) || apiKeySet o = true) as Ho. { apply orb_true_iff. destruct Hs as [Hs| ->]; [left|by right]. by apply negb_true_iff, eqb_false. }
      rewrite Ho, Hv in Hkey. done.
    + rewrite Hs, Hs', eqb_refl in Hkey. cbn in Hkey. unfold environmentKey in He'.
      destruct (getenv (B "REPOST_SEND_API_KEY")) as [x|], (getenv (B "REPOST_TOKEN")) as [y|]; cbn in He'; try discriminate He'; injection He' as He'; subst; by rewrite Hv in Hkey.
  - unfold resolveEndpoint in He. fold (baseURI getenv o) in He. by rewrite Hi in He.
  - unfold resolveEndpoint in He. fold (baseURI getenv o) in He. rewrite Hi in He. by destruct (baseURIPortIssue _).
  - apply Hv. unfold durationOptions in Hin. rewrite !elem_of_cons in Hin.
    destruct Hin as [[= Ev _]|[[= Ev _]|[[= Ev _]|[[= Ev _]|[[= Ev _]|[]%elem_of_nil]]]]];
      [rewrite <- Ev in D1|rewrite <- Ev in D2|rewrite <- Ev in D3|rewrite <- Ev in D4|rewrite <- Ev in D5]; by eapply Hd.
  - apply Hv. unfold numberOptions in Hin. rewrite !elem_of_cons in Hin.
    destruct Hin as [[= Ev -> -> _]|[[= Ev -> -> _]|[[= Ev -> -> _]|[]%elem_of_nil]]];
      [rewrite <- Ev in N1|rewrite <- Ev in N2|rewrite <- Ev in N3]; by eapply Hn.
  - rewrite Hb in D4. rewrite Hm in D5. rewrite Hb, Hm in R3. apply Hd in D4 as [_ ->]. apply Hd in D5 as [_ ->]. apply Z.ltb_ge in R3. lia.
  - rewrite Hv in R4. by rewrite Hbad in R4.
Qed.
End faults.

(** ** What is made *)

Lemma NewHTTPTransport_refuses input e : NewHTTPTransport input = Some (invalidHTTPTransport e) ->
  exists issue, e = configurationError issue [ClientOptionKeyHTTPTransportOptions].
Proof.
  unfold NewHTTPTransport. destruct (newRawTransport_total input) as (r & -> & Hr). destruct r as [t|e']; [done|]. intros [= <-].
  destruct Hr as [Hr|(o & _ & _ & ->)]; [by eapply snapshotHTTPTransportOptions_issue|by eexists].
Qed.

(** A runtime that has just been made. *)
Record fresh `{Codec} (owned : bool) (rt : Runtime) : Prop := {
  fresh_limits : validOperation (operation (runtime_config rt)) /\ validConfiguredDuration (operationTimeout (runtime_config rt)) = true /\
    1 <= maxInFlightOperations (runtime_config rt) <= 65536 /\ 4194304 <= maxBufferedBytes (runtime_config rt) <= 1073741824;
  fresh_transport : runtime_ownsTransport rt = owned /\
    if owned then exists t, runtime_transport rt = HTTPTransport t /\ loadable (httpTransportOptions (runtime_config rt)) /\
                    constructed (httpTransportOptions (runtime_config rt)) t
    else constructionError (runtime_transport rt) = None;
  fresh_state : Diagnostics rt = mkDiagnostics 0 0 0 0 0 0 0 0 0 false;
  fresh_admits started until : exists s p, admitOperation (runtime_state rt) false (Some started) until = (s, Ok p);
  fresh_sends E id schema group member inp w : (forall t t', (t <= t')%nat -> deadlineErr E t = true -> deadlineErr E t' = true) ->
    ~ overflows schema group member inp -> exists r w' evs, sendAdmitted E (operation (runtime_config rt)) id schema group member inp w = (inr r, w') /\ trace w' = trace w ++ evs /\
      returned E (operation (runtime_config rt)) id schema group member inp evs r
}.

Lemma made_fresh `{Codec} getenv o c transport owned observer : snapshotConfig getenv o = Ok c -> ownsTransport (operation c) = owned ->
  (if owned then exists t, transport = HTTPTransport t /\ loadable (httpTransportOptions c) /\ constructed (httpTransportOptions c) t
   else constructionError transport = None) ->
  fresh owned (mkRuntime c transport (ownsTransport (operation c))
    (newRuntimeState (maxInFlightOperations c) (maxBufferedBytes c) (operationTimeout c)) observer).
Proof.
  intros Hc Ho Ht. destruct (configured_runtime_works getenv o c Hc) as ((H1 & H2 & H3 & H4 & _) & Ha & Hs).
  split; cbn; [done|by rewrite Ho|done|apply Ha|intros; by apply Hs].
Qed.

Lemma snapshotConfig_owns getenv o c : snapshotConfig getenv o = Ok c -> ownsTransport (operation c) = negb (TransportSet o).
Proof. unfold snapshotConfig. intros H. repeat (apply bind_ok in H as (? & _ & H)). by injection H as <-. Qed.

End construct.

(** ** The default entropy *)

(** [cryptorand.Int] on the random bytes to come: a panic for a bound that is not
    positive, no answer when the bytes run out, or a number and the bytes left. *)
Inductive drawn := DrawPanic | DrawStarved | Drawn (v : Z) (rest : bytes).

Definition BitLen (n : Z) : Z := if n <=? 0 then 0 else Z.log2 n + 1.
Definition SetBytes (bs : bytes) : Z := fold_left (fun n b => n * 256 + b) bs 0.
(** The first byte keeps the bits that the largest answer has in it. *)
Definition maskFirst (bits : Z) (bs : bytes) : bytes :=
  match bs with [] => [] | b :: bs => Z.land b (Z.ones bits) :: bs end.

(** Every turn uses up at least one byte, so that there are no more turns than bytes. *)
Fixpoint intLoop (turns k : nat) (bits max : Z) (random : bytes) : drawn :=
  match turns with
  | O => DrawStarved
  | S turns =>
    if (length random <? k)%nat then DrawStarved
    else let n := SetBytes (maskFirst bits (take k random)) in
         if n <? max then Drawn n (drop k random) else intLoop turns k bits max (drop k random)
  end.
Definition Int (max : Z) (random : bytes) : drawn :=
  if max <=? 0 then DrawPanic
  else
    let bitLen := BitLen (max - 1) in
    if bitLen =? 0 then Drawn 0 random
    else
      let k := (bitLen + 7) / 8 in
      let b := bitLen mod 8 in
      intLoop (length random) (Z.to_nat k) (if b =? 0 then 8 else b) max random.

(** config.go, [NextInt64] of [cryptoRetryEntropy], whose panic is that of [Int]: an error
    of the reader ends the program. *)
Definition cryptoNextInt64 (exclusiveBound : Z) (random : bytes) : drawn := Int exclusiveBound random.

(** The answer to a draw of [k] bytes: what is left of the number below a power of two. *)
Definition draw (max : Z) (bs : bytes) : Z := SetBytes bs mod 2 ^ BitLen (max - 1).
Definition drawBytes (max : Z) : nat := Z.to_nat ((BitLen (max - 1) + 7) / 8).

Lemma SetBytes_acc bs : forall n, fold_left (fun n b => n * 256 + b) bs n = n * 256 ^ len bs + SetBytes bs.
Proof.
  unfold SetBytes. induction bs as [|b bs IH]; intros n; cbn [fold_left]; [change (256 ^ len []) with 1; lia|]. rewrite IH, (IH (0 * 256 + b)).
  unfold len. cbn [length]. rewrite Nat2Z.inj_succ, Z.pow_succ_r by lia. ring.
Qed.
Lemma SetBytes_cons b bs : SetBytes (b :: bs) = b * 256 ^ len bs + SetBytes bs.
Proof. unfold SetBytes. cbn [fold_left]. rewrite SetBytes_acc. cbn. done. Qed.
Lemma SetBytes_range bs : Forall is_byte bs -> 0 <= SetBytes bs < 256 ^ len bs.
Proof.
  induction 1 as [|b bs Hb _ IH]; [done|]. rewrite SetBytes_cons. unfold len in *. cbn [length]. rewrite Nat2Z.inj_succ, Z.pow_succ_r by lia.
  unfold is_byte in Hb. nia.
Qed.

Lemma BitLen_positive n : 0 < n -> 0 < BitLen n /\ 2 ^ (BitLen n - 1) <= n < 2 ^ BitLen n.
Proof.
  intros Hn. unfold BitLen. destruct (Z.leb_spec n 0); [lia|]. pose proof (Z.log2_nonneg n). pose proof (Z.log2_spec n Hn) as [H1 H2].
  replace (Z.log2 n + 1 - 1) with (Z.log2 n) by lia. rewrite <- Z.add_1_r in H2. lia.
Qed.

(** Masking the first byte takes the number modulo the power of two. *)
Lemma masked_draw bits bs : Forall is_byte bs -> bs <> [] -> 1 <= bits <= 8 ->
  SetBytes (maskFirst bits bs) = SetBytes bs mod 2 ^ (bits + 8 * (len bs - 1)).
Proof.
  intros Hb Hne Hbits. destruct Hb as [|b bs Hb Hbs]; [done|]. cbn [maskFirst]. rewrite !SetBytes_cons, Z.land_ones by lia.
  pose proof (SetBytes_range bs Hbs) as Hr. unfold len in *. cbn [length]. rewrite Nat2Z.inj_succ.
  replace (Z.succ (Z.of_nat (length bs)) - 1) with (Z.of_nat (length bs)) by lia.
  rewrite Z.pow_add_r, (Z.pow_mul_r 2 8) by lia. change (2 ^ 8) with 256. set (q := 256 ^ Z.of_nat (length bs)) in *.
  assert (0 < 2 ^ bits) as Hp by (apply Z.pow_pos_nonneg; lia). assert (0 < q) by lia.
  pose proof (Z.div_mod b (2 ^ bits) ltac:(lia)) as Hd. pose proof (Z.mod_pos_bound b (2 ^ bits) Hp) as Hm.
  apply (Zmod_unique _ _ (b / 2 ^ bits)); [nia|]. rewrite Hd at 1. ring.
Qed.

Definition chunk (k i : nat) (random : bytes) : bytes := take k (drop (i * k) random).

Lemma chunk_drop k i random : chunk k i (drop k random) = chunk k (S i) random.
Proof. unfold chunk. by rewrite drop_drop. Qed.

(** The loop answers with the first draw below the bound. *)
Lemma intLoop_first bits max k i : (0 < k)%nat -> forall turns random, (i < turns)%nat -> (i * k + k <= length random)%nat ->
  let value j := SetBytes (maskFirst bits (chunk k j random)) in
  (forall j, (j < i)%nat -> max <= value j) -> value i < max ->
  intLoop turns k bits max random = Drawn (value i) (drop (S i * k) random).
Proof.
  intros Hk. induction i as [|i IH]; intros turns random Ht Hl value Hj Hi; (destruct turns as [|turns]; [lia|]); cbn [intLoop].
  - destruct (Nat.ltb_spec (length random) k); [lia|]. change (take k random) with (chunk k 0 random). fold (value 0%nat).
    destruct (Z.ltb_spec (value 0%nat) max); [|lia]. by rewrite <- (Nat.add_0_r k) at 1.
  - destruct (Nat.ltb_spec (length random) k); [lia|]. change (take k random) with (chunk k 0 random). fold (value 0%nat).
    pose proof (Hj 0%nat ltac:(lia)). destruct (Z.ltb_spec (value 0%nat) max); [lia|].
    rewrite (IH turns (drop k random)); [|lia|rewrite length_drop; lia| |].
    + rewrite chunk_drop, drop_drop. done.
    + intros j Hji. rewrite chunk_drop. apply (Hj (S j)). lia.
    + by rewrite chunk_drop.
Qed.

(** What the loop gives is below the bound. *)
Lemma intLoop_below turns k bits max : forall random v rest, 0 <= bits -> Forall is_byte random ->
  intLoop turns k bits max random = Drawn v rest -> 0 <= v < max.
Proof.
  induction turns as [|turns IH]; intros random v rest Hb Hr; cbn [intLoop]; [done|]. destruct (_ <? _)%nat; [done|].
  destruct (Z.ltb_spec (SetBytes (maskFirst bits (take k random))) max); [|by apply IH; [|apply Forall_drop]]. intros [= <- _]. split; [|done].
  assert (Forall is_byte (maskFirst bits (take k random))) as Hm; [|pose proof (SetBytes_range _ Hm); lia].
  assert (Forall is_byte (take k random)) as Ht by by apply Forall_take. destruct Ht as [|b bs Hx Hbs]; [done|]. constructor; [|done].
  unfold is_byte in *. rewrite Z.land_ones by done. pose proof (Z.mod_le b (2 ^ bits) ltac:(lia) ltac:(by apply Z.pow_pos_nonneg)).
  pose proof (Z.mod_pos_bound b (2 ^ bits) ltac:(by apply Z.pow_pos_nonneg)). lia.
Qed.

(** The bits of the first byte and the bytes make up the length. *)
Lemma draw_split n : 0 < n -> let bits := if n mod 8 =? 0 then 8 else n mod 8 in
  1 <= bits <= 8 /\ 0 < (n + 7) / 8 /\ bits + 8 * ((n + 7) / 8 - 1) = n.
Proof. intros Hn bits. unfold bits. destruct (Z.eqb_spec (n mod 8) 0); Z.div_mod_to_equations; lia. Qed.

(** The default entropy answers with the first draw below the bound, so that the runtime
    takes it, and more than half of the draws are below the bound. *)
Theorem default_entropy_is_the_first_draw max random : 0 < max -> Forall is_byte random ->
  (forall v rest, cryptoNextInt64 max random = Drawn v rest -> sampleRetryEntropy (Some v) max = (v, true, false)) /\
  (forall i, ((S i) * drawBytes max <= length random)%nat ->
     (forall j, (j < i)%nat -> max <= draw max (chunk (drawBytes max) j random)) -> draw max (chunk (drawBytes max) i random) < max ->
     1 < max -> cryptoNextInt64 max random = Drawn (draw max (chunk (drawBytes max) i random)) (drop (S i * drawBytes max) random)) /\
  2 ^ BitLen (max - 1) < 2 * max.
Proof.
  intros Hm Hr. unfold cryptoNextInt64, Int. destruct (Z.leb_spec max 0); [lia|]. cbv zeta.
  destruct (Z.eqb_spec (BitLen (max - 1)) 0) as [Hz|Hz].
  - assert (max = 1) as -> by (destruct (decide (max = 1)); [done|]; destruct (BitLen_positive (max - 1)); lia).
    split_and!; [by intros ? ? [= <- _]|intros; lia|done].
  - assert (1 < max) as H1. { destruct (decide (max = 1)) as [->|]; [done|lia]. }
    destruct (BitLen_positive (max - 1) ltac:(lia)) as (Hb & Hlo & Hhi). destruct (draw_split _ Hb) as (S1 & S2 & S3). set (bits := if _ =? 0 then 8 else _) in *.
    split_and!.
    + intros v rest Hv. apply intLoop_below in Hv; [|lia|done]. unfold sampleRetryEntropy. by replace ((0 <=? v) && (v <? max)) with true by lia.
    + intros i Hl Hj Hi _. fold (drawBytes max).
      assert (forall j, (j <= i)%nat -> SetBytes (maskFirst bits (chunk (drawBytes max) j random)) = draw max (chunk (drawBytes max) j random)) as Hd.
      { intros j Hji. assert (length (chunk (drawBytes max) j random) = drawBytes max) as Hc by (unfold chunk; rewrite length_take, length_drop; nia).
        assert (0 < drawBytes max)%nat by (unfold drawBytes; lia).
        rewrite masked_draw; [|unfold chunk; by apply Forall_take, Forall_drop|intros E; rewrite E in Hc; cbn in Hc; lia|done].
        unfold draw. do 2 f_equal. unfold len. rewrite Hc. unfold drawBytes. rewrite Z2Nat.id by lia. lia. }
      assert (0 < drawBytes max)%nat by (unfold drawBytes; lia).
      rewrite (intLoop_first bits max (drawBytes max) i); [by rewrite Hd|done|nia|lia|intros j Hji; rewrite Hd by lia; by apply Hj|by rewrite Hd].
    + replace (BitLen (max - 1)) with (Z.succ (BitLen (max - 1) - 1)) by lia. rewrite Z.pow_succ_r by lia. lia.
Qed.

(** ** A runtime *)
Module Demo.
(** No key is encrypted, and a certificate is its own file. *)
#[local] Instance plain : Cryptography := {|
  unmarshalInfo _ := None; unmarshalPBES2 _ := None; unmarshalPBKDF2 _ := None; unmarshalOctets _ := None;
  pbkdf2Key _ _ _ _ _ := None; aesEncrypt _ b := b; aesDecrypt _ b := b
|}.
#[local] Instance files : X509 := {|
  pemDecode _ := None; pemEncode _ := []; certificatesOf p := [p]; tlsCertificate := bytes; X509KeyPair c _ := Some c
|}.
(** A proxy that is no URL. *)
Definition badOptions : HTTPTransportOptions := mkTransportOptions None (Some (mkProxy (B "ftp://proxy") false)) false None None None None.
Definition withTransport : ClientOptions :=
  Config.mkOptions [] false false [] true None None None None None None None None None None false.


(** A bound of 300 takes two bytes: 0x03ff is 511 below 512, which is rejected; 0x0105 is 261. *)
Example drawn_261 : cryptoNextInt64 300 [3; 255; 1; 5; 7] = Drawn 261 [7].
Proof. reflexivity. Qed.
End Demo.
