(* ===== verification/ManualTime.v ===== *)
(** * The manual clock and scheduler (reposttest/manual.go)

    A clock that moves only by [Advance], and schedulers whose sleeps last until the clock
    has passed them.  Each critical section is a function; the step relation has any
    number of calls of [Advance], [Sleep] and [AwaitSleepCount].  A call of [Sleep] holds
    the scheduler while it reads the clock, and [Advance] moves the clock before it
    releases the schedulers one by one, so the two overlap.  Times are 64-bit integers that
    wrap around; a state remembers whether a sum has. *)
From stdpp Require Import sorting.
From S2P Require Import Prelude.

(** ** Data *)

(** manual.go, [sleepWaiter]; its channel is named by the scheduler and the number. *)
Record sleepWaiter := mkWaiter { w_id : Z; w_due : Z }.
#[export] Instance sleepWaiter_eq_dec : EqDecision sleepWaiter.
Proof. solve_decision. Defined.

(** manual.go, [ManualScheduler]; [changed] counts the channels that were put there. *)
Record ManualScheduler := mkScheduler {
  nextID : Z;
  waiters : list sleepWaiter;
  sleeps : list Z;
  changed : nat
}.
Definition NewManualScheduler : ManualScheduler := mkScheduler 0 [] [] 0.

(** manual.go, [signalLocked]. *)
Definition signalLocked (s : ManualScheduler) : ManualScheduler :=
  mkScheduler (nextID s) (waiters s) (sleeps s) (S (changed s)).

(** manual.go, [Sleep], from the reading of the clock to [Unlock]; no waiter when the
    duration is zero. *)
Definition registerSleep (now duration : Z) (s : ManualScheduler) : ManualScheduler * option sleepWaiter :=
  if duration =? 0
  then (signalLocked (mkScheduler (nextID s) (waiters s) (sleeps s ++ [duration]) (changed s)), None)
  else
    let id := wrap64 (nextID s + 1) in
    let waiter := mkWaiter id (wrap64 (now + duration)) in
    (signalLocked (mkScheduler id (waiters s ++ [waiter]) (sleeps s ++ [duration]) (changed s)), Some waiter).

(** The order of [release]: by the time that is due, then by the number. *)
Definition waiterLess (a b : sleepWaiter) : bool :=
  if w_due a =? w_due b then w_id a <? w_id b else w_due a <? w_due b.

(** [sort.SliceStable]. *)
Fixpoint insertStable (w : sleepWaiter) (l : list sleepWaiter) : list sleepWaiter :=
  match l with
  | [] => [w]
  | x :: l' => if waiterLess x w then x :: insertStable w l' else w :: l
  end.
Definition sortStable (l : list sleepWaiter) : list sleepWaiter := foldr insertStable [] l.

(** manual.go, [release], the loop: what is due at the front, and the rest. *)
Fixpoint dueFront (now : Z) (l : list sleepWaiter) : list sleepWaiter * list sleepWaiter :=
  match l with
  | w :: l' => if w_due w <=? now then let '(a, b) := dueFront now l' in (w :: a, b) else ([], l)
  | [] => ([], [])
  end.
(** manual.go, [release]: the scheduler, and the waiters whose channels are closed in
    order. *)
Definition release (now : Z) (s : ManualScheduler) : ManualScheduler * list sleepWaiter :=
  let '(due, rest) := dueFront now (sortStable (waiters s)) in
  (mkScheduler (nextID s) rest (sleeps s) (changed s), due).

(** manual.go, [remove]. *)
Fixpoint removeWaiter (id : Z) (l : list sleepWaiter) : list sleepWaiter :=
  match l with [] => [] | w :: l => if w_id w =? id then l else w :: removeWaiter id l end.
Definition remove (id : Z) (s : ManualScheduler) : ManualScheduler :=
  mkScheduler (nextID s) (removeWaiter id (waiters s)) (sleeps s) (changed s).

(** manual.go, [Advance], under the mutex of the clock; [None] is the panic. *)
Definition advanceClock (duration elapsed : Z) : option Z :=
  if duration <? 0 then None else Some (wrap64 (elapsed + duration)).
(** manual.go, [WallNow]. *)
Definition WallNow (base elapsed : Z) : Z := base + elapsed.

(** manual.go, [AwaitSleepCount], under the mutex: done, or the channel to wait for. *)
Definition checkSleepCount (count : Z) (s : ManualScheduler) : option nat :=
  if count <=? len (sleeps s) then None else Some (changed s).

(** ** Goroutines *)

(** A call of [Sleep] that has registered: when it is due, whether its channel is open,
    and where it stands. *)
Inductive sleepState := SleepWaiting | SleepCancelling | SleepNil | SleepErr.
Record sleepCall := mkCall { call_due : Z; call_open : bool; call_state : sleepState }.

(** A call of [AwaitSleepCount]: before the check, or at the select on a channel. *)
Inductive awaitState := AwaitCheck | AwaitSelect (generation : nat) | AwaitNil | AwaitErr.
Record awaitCall := mkAwait { await_scheduler : nat; await_count : Z; await_state : awaitState }.

(** [holding]: a call of [Sleep] that holds the scheduler and has read the clock, with
    that time and its duration.  [advances]: the calls of [Advance] past the clock, with
    the schedulers that they still have to release.  [panicked]: a channel was closed
    twice.  [wrapped]: a sum of 64 bits has wrapped around, the time of the clock, the
    time that a sleep is due, or the number of a sleep; it is history only. *)
Record clockSystem := mkClock {
  elapsed : Z;
  schedulers : list ManualScheduler;
  holding : list (option (Z * Z));
  advances : list (Z * list nat);
  calls : gmap (nat * Z) sleepCall;
  awaits : list awaitCall;
  panicked : bool;
  wrapped : bool
}.
Definition fits64 (z : Z) : bool := (MinInt64 <=? z) && (z <=? MaxInt64).
Definition set_scheduler (k : nat) (s : ManualScheduler) (h : option (Z * Z)) (σ : clockSystem) : clockSystem :=
  mkClock (elapsed σ) (<[k := s]> (schedulers σ)) (<[k := h]> (holding σ)) (advances σ) (calls σ) (awaits σ) (panicked σ) (wrapped σ).
Definition set_calls (m : gmap (nat * Z) sleepCall) (p : bool) (σ : clockSystem) : clockSystem :=
  mkClock (elapsed σ) (schedulers σ) (holding σ) (advances σ) m (awaits σ) (panicked σ || p) (wrapped σ).
Definition set_advances (l : list (Z * list nat)) (σ : clockSystem) : clockSystem :=
  mkClock (elapsed σ) (schedulers σ) (holding σ) l (calls σ) (awaits σ) (panicked σ) (wrapped σ).
Definition set_await (i : nat) (a : awaitCall) (σ : clockSystem) : clockSystem :=
  mkClock (elapsed σ) (schedulers σ) (holding σ) (advances σ) (calls σ) (<[i := a]> (awaits σ)) (panicked σ) (wrapped σ).

(** [close(waiter.ch)], one after the other. *)
Fixpoint closeChannels (k : nat) (l : list sleepWaiter) (m : gmap (nat * Z) sleepCall) : gmap (nat * Z) sleepCall * bool :=
  match l with
  | [] => (m, false)
  | w :: l =>
    match m !! (k, w_id w) with
    | Some c =>
      if call_open c then closeChannels k l (<[(k, w_id w) := mkCall (call_due c) false (call_state c)]> m) else (m, true)
    | None => (m, true)
    end
  end.

(** Durations are those of 64 bits that are not negative. *)
Definition set_wrapped (b : bool) (σ : clockSystem) : clockSystem :=
  mkClock (elapsed σ) (schedulers σ) (holding σ) (advances σ) (calls σ) (awaits σ) (panicked σ) (wrapped σ || b).
Inductive clockStep (σ : clockSystem) : clockSystem -> Prop :=
| clock_scheduler :
    clockStep σ (mkClock (elapsed σ) (schedulers σ ++ [NewManualScheduler]) (holding σ ++ [None]) (advances σ) (calls σ) (awaits σ) (panicked σ) (wrapped σ))
| clock_advance d now : in_int64 d -> advanceClock d (elapsed σ) = Some now ->
    clockStep σ (set_wrapped (negb (fits64 (elapsed σ + d))) (mkClock now (schedulers σ) (holding σ) (advances σ ++ [(now, seq 0 (length (schedulers σ)))]) (calls σ) (awaits σ) (panicked σ) (wrapped σ)))
| clock_release j now before k after s s' l m p : advances σ !! j = Some (now, before ++ k :: after) ->
    schedulers σ !! k = Some s -> holding σ !! k = Some None -> release now s = (s', l) -> closeChannels k l (calls σ) = (m, p) ->
    clockStep σ (set_calls m p (set_scheduler k s' None (set_advances (<[j := (now, before ++ after)]> (advances σ)) σ)))
| clock_sleep k s d : schedulers σ !! k = Some s -> holding σ !! k = Some None -> 0 <= d <= MaxInt64 ->
    clockStep σ (set_scheduler k s (Some (elapsed σ, d)) σ)
| clock_register k s now d s' w : schedulers σ !! k = Some s -> holding σ !! k = Some (Some (now, d)) ->
    registerSleep now d s = (s', Some w) ->
    clockStep σ (set_wrapped (negb (fits64 (now + d) && fits64 (nextID s + 1)))
      (set_calls (<[(k, w_id w) := mkCall (w_due w) true SleepWaiting]> (calls σ)) false (set_scheduler k s' None σ)))
| clock_zero k s now d s' : schedulers σ !! k = Some s -> holding σ !! k = Some (Some (now, d)) ->
    registerSleep now d s = (s', None) -> clockStep σ (set_scheduler k s' None σ)
| clock_wake key c : calls σ !! key = Some c -> call_state c = SleepWaiting -> call_open c = false ->
    clockStep σ (set_calls (<[key := mkCall (call_due c) false SleepNil]> (calls σ)) false σ)
| clock_cancel key c : calls σ !! key = Some c -> call_state c = SleepWaiting ->
    clockStep σ (set_calls (<[key := mkCall (call_due c) (call_open c) SleepCancelling]> (calls σ)) false σ)
| clock_remove k id c s : calls σ !! (k, id) = Some c -> call_state c = SleepCancelling ->
    schedulers σ !! k = Some s -> holding σ !! k = Some None ->
    clockStep σ (set_calls (<[(k, id) := mkCall (call_due c) (call_open c) SleepErr]> (calls σ)) false (set_scheduler k (remove id s) None σ))
| clock_await k n : (k < length (schedulers σ))%nat -> 0 <= n ->
    clockStep σ (mkClock (elapsed σ) (schedulers σ) (holding σ) (advances σ) (calls σ) (awaits σ ++ [mkAwait k n AwaitCheck]) (panicked σ) (wrapped σ))
| clock_await_check i k n s : awaits σ !! i = Some (mkAwait k n AwaitCheck) -> schedulers σ !! k = Some s -> holding σ !! k = Some None ->
    clockStep σ (set_await i (mkAwait k n (match checkSleepCount n s with None => AwaitNil | Some g => AwaitSelect g end)) σ)
| clock_await_changed i k n g s : awaits σ !! i = Some (mkAwait k n (AwaitSelect g)) -> schedulers σ !! k = Some s ->
    (g < changed s)%nat -> clockStep σ (set_await i (mkAwait k n AwaitCheck) σ)
| clock_await_done i k n g : awaits σ !! i = Some (mkAwait k n (AwaitSelect g)) -> clockStep σ (set_await i (mkAwait k n AwaitErr) σ).

(** manual.go, [NewManualClock]. *)
Definition NewManualClock : clockSystem := mkClock 0 [] [] [] ∅ [] false false.
Definition clockReachable (σ : clockSystem) : Prop := rtc clockStep NewManualClock σ.

(** ** What [release] releases *)

Definition waiterLe (a b : sleepWaiter) : Prop := w_due a < w_due b \/ w_due a = w_due b /\ w_id a <= w_id b.
#[export] Instance waiterLe_trans : Transitive waiterLe.
Proof. intros a b c. unfold waiterLe. lia. Qed.

Lemma insertStable_perm w l : insertStable w l ≡ₚ w :: l.
Proof. induction l as [|x l IH]; cbn; [done|]. destruct (waiterLess x w); [|done]. rewrite IH. apply Permutation_swap. Qed.
Lemma sortStable_perm l : sortStable l ≡ₚ l.
Proof. induction l as [|w l IH]; cbn; [done|]. by rewrite insertStable_perm, IH. Qed.

Lemma waiterLess_spec a b : if waiterLess a b then waiterLe a b else waiterLe b a.
Proof. unfold waiterLess, waiterLe. destruct (w_due a =? w_due b) eqn:E; [destruct (w_id a <? w_id b) eqn:F|destruct (w_due a <? w_due b) eqn:F]; zbool; lia. Qed.
Lemma insertStable_sorted w l : StronglySorted waiterLe l -> StronglySorted waiterLe (insertStable w l).
Proof.
  induction 1 as [|x l Hl IH Hx]; cbn; [by repeat constructor|]. pose proof (waiterLess_spec x w) as Hw. destruct (waiterLess x w).
  - constructor; [done|]. rewrite insertStable_perm. by constructor.
  - constructor; [by constructor|]. constructor; [done|]. eapply Forall_impl; [exact Hx|]. intros y Hy. by etrans.
Qed.
Lemma sortStable_sorted l : StronglySorted waiterLe (sortStable l).
Proof. induction l as [|w l IH]; cbn; [constructor|]. by apply insertStable_sorted. Qed.

Lemma dueFront_spec now l a b : StronglySorted waiterLe l -> dueFront now l = (a, b) ->
  l = a ++ b /\ Forall (fun w => w_due w <= now) a /\ Forall (fun w => now < w_due w) b.
Proof.
  intros Hs. revert a b. induction Hs as [|w l Hl IH Hw]; cbn; intros a b.
  - intros [= <- <-]. done.
  - destruct (Z.leb_spec (w_due w) now) as [Hd|Hd].
    + destruct (dueFront now l) as [a' b'] eqn:E. intros [= <- <-]. destruct (IH _ _ eq_refl) as (-> & H1 & H2). split_and!; [done|by constructor|done].
    + intros [= <- <-]. split_and!; [done|done|]. constructor; [done|]. eapply Forall_impl; [exact Hw|]. intros x Hx. unfold waiterLe in Hx. lia.
Qed.

(** Exactly the waiters that are due are released, the earliest first. *)
Lemma release_spec now s s' l : release now s = (s', l) ->
  waiters s ≡ₚ l ++ waiters s' /\ Forall (fun w => w_due w <= now) l /\ Forall (fun w => now < w_due w) (waiters s') /\
  StronglySorted waiterLe l /\ nextID s' = nextID s /\ sleeps s' = sleeps s /\ changed s' = changed s.
Proof.
  unfold release. destruct (dueFront now (sortStable (waiters s))) as [a b] eqn:E. intros [= <- <-].
  pose proof (sortStable_sorted (waiters s)) as Hs. destruct (dueFront_spec _ _ _ _ Hs E) as (Happ & H1 & H2). cbn.
  split_and!; try done; [rewrite <- Happ; symmetry; apply sortStable_perm|]. rewrite Happ in Hs. by apply StronglySorted_app_1_l in Hs.
Qed.

Lemma removeWaiter_spec id l w : NoDup (w_id <$> l) -> (w ∈ removeWaiter id l <-> w ∈ l /\ w_id w <> id).
Proof.
  induction l as [|x l IH]; cbn; [set_solver|]. intros [Hx Hl]%NoDup_cons. destruct (Z.eqb_spec (w_id x) id) as [<-|Hne].
  - rewrite elem_of_cons. split; [|by intros [[-> | ?] ?]]. intros Hw. split; [by right|]. intros E. apply Hx. rewrite <- E.
    by apply list_elem_of_fmap_2.
  - rewrite !elem_of_cons, IH by done. split; [intros [-> | []]; auto|]. intros [[-> | ?] ?]; auto.
Qed.
Lemma removeWaiter_nodup id l : NoDup (w_id <$> l) -> NoDup (w_id <$> removeWaiter id l).
Proof.
  induction l as [|x l IH]; cbn; [done|]. intros [Hx Hl]%NoDup_cons. destruct (w_id x =? id); [done|]. cbn. apply NoDup_cons. split; [|auto].
  intros (y & E & Hy)%list_elem_of_fmap. apply removeWaiter_spec in Hy as [Hy _]; [|done]. apply Hx. rewrite E. by apply list_elem_of_fmap_2.
Qed.

(** ** The invariant *)

(** A sleep that is due is about to be released by a call of [Advance]. *)
Definition owed (e : Z) (advs : list (Z * list nat)) (k : nat) (due : Z) : Prop :=
  due <= e -> exists now ks, (now, ks) ∈ advs /\ k ∈ ks /\ due <= now.

Lemma owed_release e advs j now before k after k' due : advs !! j = Some (now, before ++ k :: after) ->
  (k' = k -> now < due) -> owed e advs k' due -> owed e (<[j := (now, before ++ after)]> advs) k' due.
Proof.
  intros Hj Hk Ho Hd. destruct (Ho Hd) as (n & ks & Hin & Hks & Hn). apply list_elem_of_lookup in Hin as [i Hi].
  destruct (decide (i = j)) as [->|Hne].
  - rewrite Hj in Hi. injection Hi as <- <-. destruct (decide (k' = k)) as [Ek|Ek]; [specialize (Hk Ek); lia|].
    exists now, (before ++ after). split_and!; [|set_solver|done]. eapply list_elem_of_lookup_2, list_lookup_insert_eq, lookup_lt_Some, Hj.
  - exists n, ks. split_and!; [|done|done]. eapply list_elem_of_lookup_2. by rewrite list_lookup_insert_ne.
Qed.

Definition waiter_ok (e : Z) (advs : list (Z * list nat)) (m : gmap (nat * Z) sleepCall) (k : nat) (w : sleepWaiter) : Prop :=
  owed e advs k (w_due w) /\ exists c, m !! (k, w_id w) = Some c /\ call_due c = w_due w /\ call_open c = true /\
    (call_state c = SleepWaiting \/ call_state c = SleepCancelling).

Definition await_ok (n : Z) (st : awaitState) (s : ManualScheduler) : Prop :=
  match st with
  | AwaitSelect g => (g <= changed s)%nat /\ (g = changed s -> len (sleeps s) < n)
  | AwaitNil => n <= len (sleeps s)
  | _ => True
  end.

Record scheduler_ok (e : Z) (advs : list (Z * list nat)) (m : gmap (nat * Z) sleepCall) (k : nat) (s : ManualScheduler) (h : option (Z * Z)) : Prop := {
  so_nodup : NoDup (w_id <$> waiters s);
  so_waiters : Forall (waiter_ok e advs m k) (waiters s);
  so_next : 0 <= nextID s <= MaxInt64;
  so_ids : forall id c, m !! (k, id) = Some c -> id <= nextID s;
  so_open : forall id c, m !! (k, id) = Some c -> call_open c = true -> call_state c <> SleepErr -> mkWaiter id (call_due c) ∈ waiters s;
  so_holding : match h with
    | Some (now, d) => 0 <= now /\ 0 <= d /\ (0 < d -> owed e advs k (now + d))
    | None => True
    end
}.

Definition call_ok (e : Z) (c : sleepCall) : Prop :=
  (call_open c = false -> call_due c <= e) /\ (call_state c = SleepNil -> call_open c = false).

Record clockInv (σ : clockSystem) : Prop := {
  ci_lengths : length (holding σ) = length (schedulers σ);
  ci_elapsed : 0 <= elapsed σ <= MaxInt64;
  ci_advances : Forall (fun a => a.1 <= elapsed σ) (advances σ);
  ci_schedulers : forall k s h, schedulers σ !! k = Some s -> holding σ !! k = Some h ->
    scheduler_ok (elapsed σ) (advances σ) (calls σ) k s h;
  ci_calls : forall k id c, calls σ !! (k, id) = Some c -> call_ok (elapsed σ) c /\ (k < length (schedulers σ))%nat;
  ci_awaits : forall i k n st, awaits σ !! i = Some (mkAwait k n st) -> exists s, schedulers σ !! k = Some s /\ await_ok n st s;
  ci_panicked : panicked σ = false
}.

Lemma closeChannels_spec k l : forall m m' p, NoDup (w_id <$> l) ->
  Forall (fun w => exists c, m !! (k, w_id w) = Some c /\ call_open c = true) l -> closeChannels k l m = (m', p) ->
  p = false /\ forall key, m' !! key =
    if bool_decide (key.1 = k /\ key.2 ∈ (w_id <$> l)) then (fun c => mkCall (call_due c) false (call_state c)) <$> (m !! key) else m !! key.
Proof.
  induction l as [|w l IH]; intros m m' p; cbn [fmap list_fmap].
  - intros _ _ [= <- <-]. split; [done|]. intros key. rewrite bool_decide_eq_false_2; [done|]. intros [_ H]. by apply elem_of_nil in H.
  - intros [Hw Hn]%NoDup_cons [(c & Hc & Ho) Hf]%Forall_cons. cbn. rewrite Hc, Ho. intros Hcl.
    destruct (fun F => IH (<[(k, w_id w) := mkCall (call_due c) false (call_state c)]> m) _ _ Hn F Hcl) as [-> Hm'].
    { apply Forall_forall. intros x Hx. rewrite Forall_forall in Hf. destruct (Hf x Hx) as (c' & Hc' & Ho'). exists c'.
      rewrite lookup_insert_ne; [done|]. intros [= E]. apply Hw. rewrite E. by apply list_elem_of_fmap_2. }
    split; [done|]. intros [k' id]. rewrite Hm'. cbn. destruct (decide (k' = k)) as [->|Hk].
    2:{ rewrite !bool_decide_eq_false_2 by (intros [? _]; done). rewrite lookup_insert_ne; [done|]. intros [= ? ?]. congruence. }
    destruct (decide (id = w_id w)) as [->|Hid].
    + rewrite bool_decide_eq_false_2 by (intros [_ ?]; done). rewrite bool_decide_eq_true_2 by (split; [done|by left]). by rewrite lookup_insert_eq, Hc.
    + rewrite lookup_insert_ne by congruence. destruct (decide (id ∈ (w_id <$> l))) as [Hin|Hin].
      * rewrite !bool_decide_eq_true_2; [done|split; [done|by right]|done].
      * rewrite !bool_decide_eq_false_2; [done|intros [_ [?|?]%elem_of_cons]; done|by intros [_ ?]].
Qed.

Lemma scheduler_ok_frame e advs m e' advs' m' k s h : scheduler_ok e advs m k s h -> (forall id, m' !! (k, id) = m !! (k, id)) ->
  (forall due, owed e advs k due -> owed e' advs' k due) -> scheduler_ok e' advs' m' k s h.
Proof.
  intros [S1 S2 S3 S4 S5 S6] Hm Ho. constructor; try done.
  - eapply Forall_impl; [exact S2|]. intros w (H1 & H2). split; [auto|]. by rewrite Hm.
  - intros id c. rewrite Hm. apply S4.
  - intros id c. rewrite Hm. apply S5.
  - destruct h as [[now d]|]; [|done]. destruct S6 as (? & ? & ?). split_and!; auto; tauto.
Qed.

(** A step at the scheduler [k]. *)
Lemma inv_at σ k s s' h' advs' m' : clockInv σ -> schedulers σ !! k = Some s ->
  (forall k' due, k' <> k -> owed (elapsed σ) (advances σ) k' due -> owed (elapsed σ) advs' k' due) ->
  Forall (fun a => a.1 <= elapsed σ) advs' -> (forall k' id, k' <> k -> m' !! (k', id) = calls σ !! (k', id)) ->
  scheduler_ok (elapsed σ) advs' m' k s' h' -> (forall id c, m' !! (k, id) = Some c -> call_ok (elapsed σ) c) ->
  (forall n st, await_ok n st s -> await_ok n st s') ->
  clockInv (mkClock (elapsed σ) (<[k := s']> (schedulers σ)) (<[k := h']> (holding σ)) advs' m' (awaits σ) (panicked σ) (wrapped σ)).
Proof.
  intros [I1 I2 I3 I4 I5 I6 I7] Hk Ho Ha Hm Hs Hc Hw. pose proof (lookup_lt_Some _ _ _ Hk) as Hlt. constructor; cbn; rewrite ?length_insert; try done.
  - intros k' t h Ht Hh. destruct (decide (k' = k)) as [->|Hne].
    + rewrite list_lookup_insert_eq in Ht by done. rewrite list_lookup_insert_eq in Hh by lia. injection Ht as <-. injection Hh as <-. done.
    + rewrite list_lookup_insert_ne in Ht by done. rewrite list_lookup_insert_ne in Hh by done. eapply scheduler_ok_frame; [by apply I4|by intros; apply Hm|by intros; apply Ho].
  - intros k' id c H. destruct (decide (k' = k)) as [->|Hne]; [split; [by eapply Hc|done]|]. rewrite Hm in H by done. by eapply I5.
  - intros i k' n st Hi. destruct (I6 _ _ _ _ Hi) as (t & Ht & Hok). destruct (decide (k' = k)) as [->|Hne].
    + exists s'. rewrite list_lookup_insert_eq by done. split; [done|]. apply Hw. congruence.
    + exists t. by rewrite list_lookup_insert_ne by done.
Qed.

(** A call moves on, at its scheduler. *)
Lemma call_moves e advs m k s h id c c' : scheduler_ok e advs m k s h -> m !! (k, id) = Some c ->
  call_due c' = call_due c -> call_open c' = call_open c -> (call_state c' = SleepNil -> call_open c = false) ->
  (call_state c <> SleepErr /\ call_state c <> SleepNil) -> call_state c' <> SleepErr -> scheduler_ok e advs (<[(k, id) := c']> m) k s h.
Proof.
  intros [S1 S2 S3 S4 S5 S6] Hc Hd Ho Hnil Hst Hne. constructor; try done.
  - eapply Forall_impl; [exact S2|]. intros w (H1 & x & Hx & H2 & H3 & H4). split; [done|]. destruct (decide (w_id w = id)) as [<-|Hid].
    + exists c'. rewrite lookup_insert_eq. rewrite Hc in Hx. injection Hx as <-. split_and!; [done|congruence|congruence|].
      destruct (call_state c'); auto; try done. specialize (Hnil eq_refl). congruence.
    + exists x. rewrite lookup_insert_ne by congruence. done.
  - intros i x. destruct (decide (i = id)) as [->|Hid]; [intros _; by eapply S4|]. rewrite lookup_insert_ne by congruence. apply S4.
  - intros i x. destruct (decide (i = id)) as [->|Hid]; [|rewrite lookup_insert_ne by congruence; apply S5].
    rewrite lookup_insert_eq. intros [= <-] Hop _. rewrite Hd. apply (S5 _ _ Hc); [congruence|tauto].
Qed.

(** *** [Advance] *)

Lemma inv_clock_advance σ d now : clockInv σ -> advanceClock d (elapsed σ) = Some now -> in_int64 (elapsed σ + d) ->
  clockInv (mkClock now (schedulers σ) (holding σ) (advances σ ++ [(now, seq 0 (length (schedulers σ)))]) (calls σ) (awaits σ) (panicked σ) (wrapped σ)).
Proof.
  intros [I1 I2 I3 I4 I5 I6 I7] Hadv Hr. unfold advanceClock in Hadv. destruct (Z.ltb_spec d 0); [done|]. rewrite wrap64_id in Hadv by done. injection Hadv as <-.
  assert (forall k due, (k < length (schedulers σ))%nat -> owed (elapsed σ + d) (advances σ ++ [(elapsed σ + d, seq 0 (length (schedulers σ)))]) k due) as Ho.
  { intros k due Hk Hd. exists (elapsed σ + d), (seq 0 (length (schedulers σ))). split_and!; [set_solver|apply elem_of_seq; lia|done]. }
  constructor; cbn; try done.
  - unfold in_int64 in Hr. lia.
  - apply Forall_app. split; [eapply Forall_impl; [exact I3|]; cbn; lia|]. constructor; [cbn; lia|done].
  - intros k s h Hs Hh. eapply scheduler_ok_frame; [by apply I4|done|]. intros due _. apply Ho. by eapply lookup_lt_Some.
  - intros k id c Hc. destruct (I5 _ _ _ Hc) as [[C1 C2] Hl]. split; [|done]. split; [intros H'; specialize (C1 H'); lia|done].
Qed.

Lemma inv_clock_release σ j now before k after s s' l m p : clockInv σ -> advances σ !! j = Some (now, before ++ k :: after) ->
  schedulers σ !! k = Some s -> holding σ !! k = Some None -> release now s = (s', l) -> closeChannels k l (calls σ) = (m, p) ->
  clockInv (set_calls m p (set_scheduler k s' None (set_advances (<[j := (now, before ++ after)]> (advances σ)) σ))).
Proof.
  intros Hinv Hj Hs Hh Hr Hc. pose proof Hinv as [I1 I2 I3 I4 I5 I6 I7]. destruct (I4 _ _ _ Hs Hh) as [S1 S2 S3 S4 S5 S6].
  destruct (release_spec _ _ _ _ Hr) as (Hp & Hdue & Hrest & _ & Hn & Hsl & Hch).
  assert (now <= elapsed σ) as Hnow by exact (Forall_lookup_1 _ _ _ _ I3 Hj).
  rewrite Hp in S1, S2. rewrite fmap_app in S1. apply NoDup_app in S1 as (N1 & N2 & N3). apply Forall_app in S2 as [W1 W2].
  destruct (fun F => closeChannels_spec _ _ _ _ _ N1 F Hc) as [-> Hm].
  { eapply Forall_impl; [exact W1|]. intros w (_ & c & ? & _ & ? & _). by exists c. }
  unfold set_calls, set_scheduler, set_advances. cbn. rewrite orb_false_r. eapply inv_at; [done|exact Hs|..].
  - intros k' due Hne. by eapply owed_release.
  - apply Forall_insert; [done|]. cbn. done.
  - intros k' id Hne. rewrite Hm. rewrite bool_decide_eq_false_2; [done|]. by intros [? _].
  - constructor; rewrite ?Hn; try done.
    + apply Forall_forall. intros w Hw. rewrite Forall_forall in W2, Hrest. destruct (W2 w Hw) as (Ho & c & Hx).
      split; [eapply owed_release; [done|intros _; by apply Hrest|done]|]. exists c. rewrite Hm, bool_decide_eq_false_2; [done|].
      intros [_ Hin]. apply (N2 _ Hin). cbn. by apply list_elem_of_fmap_2.
    + intros id c. rewrite Hm. case_bool_decide as Hb; [intros (x & Hx & _)%fmap_Some; by eapply S4|apply S4].
    + intros id c. rewrite Hm. case_bool_decide as Hb; [intros (x & _ & ->)%fmap_Some; done|]. intros Hx Ho Hst.
      specialize (S5 _ _ Hx Ho Hst). rewrite Hp in S5. apply elem_of_app in S5 as [S5|S5]; [|done].
      destruct Hb. split; [done|]. by apply (list_elem_of_fmap_2 w_id) in S5.
  - intros id c. rewrite Hm. case_bool_decide as Hb; [|apply I5]. intros (x & Hx & ->)%fmap_Some. destruct (I5 _ _ _ Hx) as [[C1 C2] _].
    split; [|done]. cbn. intros _. destruct Hb as [_ (w & Ew & Hw)%list_elem_of_fmap]. cbn in Ew. rewrite Forall_forall in W1, Hdue.
    destruct (W1 w Hw) as (_ & y & Hy & E & _). rewrite <- Ew in Hy. rewrite Hx in Hy. injection Hy as <-. specialize (Hdue w Hw). cbn in Hdue. lia.
  - intros n st. unfold await_ok. by rewrite Hsl, Hch.
Qed.

(** *** [Sleep] *)

Lemma inv_clock_register σ k s now d s' w : clockInv σ -> schedulers σ !! k = Some s -> holding σ !! k = Some (Some (now, d)) ->
  registerSleep now d s = (s', Some w) -> in_int64 (now + d) -> in_int64 (nextID s + 1) ->
  clockInv (set_calls (<[(k, w_id w) := mkCall (w_due w) true SleepWaiting]> (calls σ)) false (set_scheduler k s' None σ)).
Proof.
  intros Hinv Hs Hh Hr Hin Hid. pose proof Hinv as [I1 I2 I3 I4 I5 I6 I7]. destruct (I4 _ _ _ Hs Hh) as [S1 S2 S3 S4 S5 (Hnow & Hd & Ho)].
  assert (nextID s < MaxInt64) as Hlt by (unfold in_int64 in Hid; lia).
  unfold registerSleep in Hr. destruct (Z.eqb_spec d 0); [done|]. rewrite !wrap64_id in Hr by (done || unfold in_int64, MinInt64, MaxInt64 in *; lia). injection Hr as <- <-.
  assert (calls σ !! (k, nextID s + 1) = None) as Hnew.
  { destruct (calls σ !! (k, nextID s + 1)) as [c|] eqn:E; [|done]. specialize (S4 _ _ E). lia. }
  assert (forall x, x ∈ waiters s -> w_id x <> nextID s + 1) as Hfresh.
  { intros x Hx E. rewrite Forall_forall in S2. destruct (S2 x Hx) as (_ & c & Hc & _). rewrite E in Hc. congruence. }
  unfold set_calls, set_scheduler. cbn. rewrite orb_false_r. eapply inv_at; [done|exact Hs|done|done|..].
  - intros k' id Hne. rewrite lookup_insert_ne; [done|]. congruence.
  - constructor; cbn.
    + rewrite fmap_app. apply NoDup_app. split_and!; [done| |apply NoDup_singleton]. intros x (y & -> & Hy)%list_elem_of_fmap E%list_elem_of_singleton.
      by apply (Hfresh y Hy).
    + apply Forall_app. split.
      * apply Forall_forall. intros x Hx. rewrite Forall_forall in S2. destruct (S2 x Hx) as (H1 & c & H2). split; [done|]. exists c.
        rewrite lookup_insert_ne; [done|]. intros [= E]. by apply (Hfresh x Hx).
      * constructor; [|done]. split; [apply Ho; lia|]. eexists. rewrite lookup_insert_eq. split; [done|]. auto.
    + lia.
    + intros id c. destruct (decide (id = nextID s + 1)) as [->|Hne]; [lia|]. rewrite lookup_insert_ne by congruence. intros Hc. specialize (S4 _ _ Hc). lia.
    + intros id c. destruct (decide (id = nextID s + 1)) as [->|Hne].
      * rewrite lookup_insert_eq. intros [= <-] _ _. apply elem_of_app. right. by apply list_elem_of_singleton.
      * rewrite lookup_insert_ne by congruence. intros H1 H2 H3. apply elem_of_app. left. eauto.
    + done.
  - intros id c. destruct (decide (id = nextID s + 1)) as [->|Hne]; [|rewrite lookup_insert_ne by congruence; apply I5].
    rewrite lookup_insert_eq. intros [= <-]. by split.
  - intros n' st. unfold await_ok. cbn. unfold len. rewrite length_app. cbn. destruct st; try done; intros; [split; lia|lia].
Qed.

Lemma inv_clock_hold σ k s d : clockInv σ -> schedulers σ !! k = Some s -> holding σ !! k = Some None -> 0 <= d ->
  clockInv (set_scheduler k s (Some (elapsed σ, d)) σ).
Proof.
  intros Hinv Hs Hh Hd. pose proof Hinv as [I1 I2 I3 I4 I5 I6 I7]. destruct (I4 _ _ _ Hs Hh) as [S1 S2 S3 S4 S5 _].
  unfold set_scheduler. eapply inv_at; try done. - constructor; try done. split_and!; [lia|done|]. intros Hp Hle. lia.
  - intros id c Hc. by apply I5 in Hc as [? _].
Qed.

Lemma inv_clock_zero σ k s now d s' : clockInv σ -> schedulers σ !! k = Some s -> holding σ !! k = Some (Some (now, d)) ->
  registerSleep now d s = (s', None) -> clockInv (set_scheduler k s' None σ).
Proof.
  intros Hinv Hs Hh Hr. pose proof Hinv as [I1 I2 I3 I4 I5 I6 I7]. destruct (I4 _ _ _ Hs Hh) as [S1 S2 S3 S4 S5 _].
  unfold registerSleep in Hr. destruct (d =? 0); [|done]. injection Hr as <-. unfold set_scheduler. eapply inv_at; try done.
  - intros id c Hc. by apply I5 in Hc as [? _].
  - intros n st. unfold await_ok. cbn. unfold len. rewrite length_app. cbn. destruct st; try done; intros; [split; lia|lia].
Qed.

(** A call that neither registers nor leaves. *)
Lemma inv_clock_call σ k id c c' : clockInv σ -> calls σ !! (k, id) = Some c -> call_due c' = call_due c -> call_open c' = call_open c ->
  call_state c = SleepWaiting -> (call_state c' = SleepNil /\ call_open c = false \/ call_state c' = SleepCancelling) ->
  clockInv (set_calls (<[(k, id) := c']> (calls σ)) false σ).
Proof.
  intros Hinv Hc Hd Ho Hst Hst'. pose proof Hinv as [I1 I2 I3 I4 I5 I6 I7]. destruct (I5 _ _ _ Hc) as [[C1 C2] Hlt].
  destruct (lookup_lt_is_Some_2 _ _ Hlt) as [s Hs]. rewrite <- I1 in Hlt. destruct (lookup_lt_is_Some_2 _ _ Hlt) as [h Hh].
  unfold set_calls. rewrite orb_false_r. rewrite <- (list_insert_id (schedulers σ) k s Hs), <- (list_insert_id (holding σ) k h Hh).
  eapply inv_at; try done.
  - intros k' i Hne. rewrite lookup_insert_ne; [done|]. congruence.
  - eapply call_moves; [by apply I4|done|done|done|..]; [destruct Hst' as [[_ ?]|E]; [done|congruence]|by rewrite Hst|destruct Hst' as [[E _]|E]; by rewrite E].
  - intros i x. destruct (decide (i = id)) as [->|Hne]; [|rewrite lookup_insert_ne by congruence; apply I5].
    rewrite lookup_insert_eq. intros [= <-]. split; [rewrite Ho, Hd; done|]. rewrite Ho. destruct Hst' as [[_ ?]|E]; [done|congruence].
Qed.

Lemma inv_clock_remove σ k id c s : clockInv σ -> calls σ !! (k, id) = Some c -> call_state c = SleepCancelling ->
  schedulers σ !! k = Some s -> holding σ !! k = Some None ->
  clockInv (set_calls (<[(k, id) := mkCall (call_due c) (call_open c) SleepErr]> (calls σ)) false (set_scheduler k (remove id s) None σ)).
Proof.
  intros Hinv Hc Hst Hs Hh. pose proof Hinv as [I1 I2 I3 I4 I5 I6 I7]. destruct (I4 _ _ _ Hs Hh) as [S1 S2 S3 S4 S5 _].
  unfold set_calls, set_scheduler. cbn. rewrite orb_false_r. eapply inv_at; [done|exact Hs|done|done|..].
  - intros k' i Hne. rewrite lookup_insert_ne; [done|]. congruence.
  - constructor; cbn; try done.
    + by apply removeWaiter_nodup.
    + apply Forall_forall. intros w [Hw Hne]%removeWaiter_spec; [|done]. rewrite Forall_forall in S2. destruct (S2 w Hw) as (H1 & x & H2).
      split; [done|]. exists x. rewrite lookup_insert_ne; [done|]. congruence.
    + intros i x. destruct (decide (i = id)) as [->|Hne]; [intros _; by eapply S4|]. rewrite lookup_insert_ne by congruence. apply S4.
    + intros i x. destruct (decide (i = id)) as [->|Hne]; [rewrite lookup_insert_eq; by intros [= <-]|]. rewrite lookup_insert_ne by congruence.
      intros H1 H2 H3. apply removeWaiter_spec; [done|]. split; [by apply S5|done].
  - intros i x. destruct (decide (i = id)) as [->|Hne]; [|rewrite lookup_insert_ne by congruence; apply I5].
    rewrite lookup_insert_eq. intros [= <-]. destruct (I5 _ _ _ Hc) as [[C1 _] _]. by split.
  - done.
Qed.

(** *** [AwaitSleepCount] *)

Lemma inv_clock_await σ aw : clockInv σ ->
  (forall i k n st, aw !! i = Some (mkAwait k n st) -> exists s, schedulers σ !! k = Some s /\ await_ok n st s) ->
  clockInv (mkClock (elapsed σ) (schedulers σ) (holding σ) (advances σ) (calls σ) aw (panicked σ) (wrapped σ)).
Proof. intros [I1 I2 I3 I4 I5 I6 I7] H. by constructor. Qed.
Lemma inv_clock_await_at σ i k n st0 st : clockInv σ -> awaits σ !! i = Some (mkAwait k n st0) ->
  (forall s, schedulers σ !! k = Some s -> await_ok n st s) -> clockInv (set_await i (mkAwait k n st) σ).
Proof.
  intros Hinv Hi Hok. apply inv_clock_await; [done|]. intros j k' n' st'.
  intros [(-> & E & _)|[_ Hj]]%list_lookup_insert_Some; [|by eapply ci_awaits]. injection E as <- <- <-.
  destruct (ci_awaits _ Hinv _ _ _ _ Hi) as (s & Hs & _). exists s. auto.
Qed.

Lemma fits64P z : fits64 z = true <-> in_int64 z.
Proof. unfold fits64, in_int64. rewrite andb_true_iff, !Z.leb_le. done. Qed.
Lemma inv_wrapped σ b : clockInv σ -> clockInv (set_wrapped b σ).
Proof. intros [I1 I2 I3 I4 I5 I6 I7]. by constructor. Qed.
Lemma clockStep_wrapped σ σ' : clockStep σ σ' -> wrapped σ' = false -> wrapped σ = false.
Proof. intros Hs Hw. destruct Hs; cbn in Hw; first [done|by apply orb_false_iff in Hw as [? _]]. Qed.

Lemma clockInv_step σ σ' : clockInv σ -> clockStep σ σ' -> wrapped σ' = false -> clockInv σ'.
Proof.
  intros Hinv Hs Hwr. destruct Hs as [|d now Hd Ha|j now before k after s s' l m p Hj Hs Hh Hr Hc|k s d Hs Hh Hd|k s now d s' w Hs Hh Hr|k s now d s' Hs Hh Hr
    |[k id] c Hc Hst Ho|[k id] c Hc Hst|k id c s Hc Hst Hs Hh|k n Hk Hn|i k n s Hi Hs Hh|i k n g s Hi Hs Hg|i k n g Hi].
  - pose proof Hinv as [I1 I2 I3 I4 I5 I6 I7]. constructor; cbn; rewrite ?length_app; try done; [cbn; lia|..].
    + intros k s h Hs Hh. apply lookup_app_Some in Hs as [Hs|[Hk Hs]].
      { apply I4; [done|]. apply lookup_app_Some in Hh as [Hh|[Hk _]]; [done|]. apply lookup_lt_Some in Hs. lia. }
      apply list_lookup_singleton_Some in Hs as [Hk' <-]. apply lookup_app_Some in Hh as [Hh|[_ Hh]]; [apply lookup_lt_Some in Hh; lia|].
      apply list_lookup_singleton_Some in Hh as [_ <-]. constructor; cbn; try done.
      * apply NoDup_nil_2.
      * intros id c Hc. apply I5 in Hc as [_ ?]. lia.
      * intros id c Hc. apply I5 in Hc as [_ ?]. lia.
    + intros k id c Hc. destruct (I5 _ _ _ Hc). split; [done|lia].
    + intros i k n st Hi. destruct (I6 _ _ _ _ Hi) as (s & Hs & Hok). exists s. by rewrite (lookup_app_l_Some _ _ _ _ Hs).
  - cbn in Hwr. apply orb_false_iff in Hwr as [_ Hf%negb_false_iff%fits64P]. by apply inv_wrapped, inv_clock_advance with d.
  - by eapply inv_clock_release.
  - apply inv_clock_hold; [done|done|done|lia].
  - cbn in Hwr. apply orb_false_iff in Hwr as [_ [H1%fits64P H2%fits64P]%negb_false_iff%andb_true_iff]. by eapply inv_wrapped, inv_clock_register.
  - by eapply inv_clock_zero.
  - eapply inv_clock_call; try done. by left.
  - eapply inv_clock_call; try done. by right.
  - by apply inv_clock_remove.
  - apply inv_clock_await; [done|]. intros i k' n' st [Hi|[_ Hi]]%lookup_app_Some; [by eapply ci_awaits|].
    apply list_lookup_singleton_Some in Hi as [_ [= <- <- <-]]. destruct (lookup_lt_is_Some_2 _ _ Hk) as [s Hs]. by exists s.
  - eapply inv_clock_await_at; [done|done|]. intros t Ht. rewrite Hs in Ht. injection Ht as <-. unfold checkSleepCount.
    destruct (Z.leb_spec n (len (sleeps s))); cbn; done.
  - by eapply inv_clock_await_at.
  - by eapply inv_clock_await_at.
Qed.

Lemma clockInv_reachable σ : clockReachable σ -> wrapped σ = false -> clockInv σ.
Proof.
  unfold clockReachable. intros H. revert σ H. apply (rtc_ind_r (fun σ => wrapped σ = false -> clockInv σ)); [by constructor|].
  intros σ1 σ2 _ Hs IH Hw. eapply clockInv_step; [apply IH; by eapply clockStep_wrapped|done|done].
Qed.


(** ** Runs *)
Module Demo.
(** A sleep of five, an [Advance] of seven that has moved the clock and not yet released the
    scheduler. *)
Definition waiting : clockSystem :=
  mkClock 7 [mkScheduler 1 [mkWaiter 1 5] [5] 1] [None] [(7, [0%nat])] {[(0%nat, 1) := mkCall 5 true SleepWaiting]} [] false false.
Definition woken : clockSystem :=
  mkClock 7 [mkScheduler 1 [] [5] 1] [None] [(7, [])] {[(0%nat, 1) := mkCall 5 false SleepWaiting]} [] false false.
Lemma woken_reachable : clockReachable woken.
Proof.
  unfold clockReachable. transitivity waiting.
  - eapply rtc_l; [apply clock_scheduler|]. eapply rtc_l; [by apply (clock_sleep _ 0 NewManualScheduler 5)|].
    eapply rtc_l; [by eapply (clock_register _ 0)|]. eapply rtc_l; [by apply (clock_advance _ 7 7)|].
    match goal with |- rtc _ ?x _ => replace x with waiting by (vm_compute; reflexivity) end. apply rtc_refl.
  - eapply rtc_l; [by eapply (clock_release waiting 0 7 [] 0 [])|].
    match goal with |- rtc _ ?x _ => replace x with woken by (vm_compute; reflexivity) end. apply rtc_refl.
Qed.

(** The longest sleep, after the clock has moved by one: the time it is due wraps around
    to the smallest number, and the next [Advance], even of nothing, ends the sleep. *)
Lemma longest_sleep_returns_early : exists σ c, clockReachable σ /\ elapsed σ = 1 /\ (exists s, schedulers σ !! 0%nat = Some s /\ sleeps s = [MaxInt64]) /\
  calls σ !! (0%nat, 1) = Some c /\ call_state c = SleepNil.
Proof.
  eexists _, _. split; [unfold clockReachable|].
  - eapply rtc_l; [apply clock_scheduler|]. eapply rtc_l; [by apply (clock_advance _ 1 1); vm_compute|].
    eapply rtc_l; [by apply (clock_sleep _ 0 NewManualScheduler MaxInt64)|].
    eapply rtc_l; [by eapply (clock_register _ 0)|]. eapply rtc_l; [by apply (clock_advance _ 0 1); vm_compute|].
    eapply rtc_l; [by eapply (clock_release _ 1 1 [] 0 []); vm_compute|]. eapply rtc_l; [by eapply (clock_wake _ (0%nat, 1)); vm_compute|]. apply rtc_refl.
  - split; [reflexivity|]. split; [eexists; split; reflexivity|]. split; [vm_compute; reflexivity|reflexivity].
Qed.
End Demo.
