(* ===== verification/Recorder.v ===== *)
(** * The recording observer (reposttest/observer.go)

    The recorder with its callback, any number of sends whose events reach it in any
    interleaving, and any number of callers of [AwaitNext] and [AwaitQuiescence], as a
    step relation.  Events are immutable here, so that the copies which the code makes are
    the events themselves. *)
From S2P Require Import Prelude Errors Observer Telemetry.

(** observer.go, [RecordingObserver]; [rec_changed] counts the channels put there. *)
Record RecordingObserver := mkRecorder {
  rec_events : list ObserverEvent;
  rec_unread : list ObserverEvent;
  rec_active : Z;
  rec_changed : nat
}.
Definition NewRecordingObserver : RecordingObserver := mkRecorder [] [] 0 0.

(** observer.go, the callback of [Observer], with [signalLocked]. *)
Definition recordEvent (e : ObserverEvent) (r : RecordingObserver) : RecordingObserver :=
  mkRecorder (rec_events r ++ [e]) (rec_unread r ++ [e])
    (match Kind e with
     | ObserverEventKindOperationStart => rec_active r + 1
     | ObserverEventKindOperationEnd => if 0 <? rec_active r then rec_active r - 1 else rec_active r
     | _ => rec_active r
     end) (S (rec_changed r)).

(** observer.go, [AwaitNext], under the mutex. *)
Definition takeNext (r : RecordingObserver) : option (ObserverEvent * RecordingObserver) :=
  match rec_unread r with
  | [] => None
  | e :: q => Some (e, mkRecorder (rec_events r) q (rec_active r) (rec_changed r))
  end.

(** observer.go, [AwaitQuiescence], under the mutex. *)
Definition quiescent (r : RecordingObserver) : bool :=
  match last (rec_events r) with
  | None => false
  | Some e => (rec_active r =? 0) && (Kind e ==? ObserverEventKindOperationEnd)
  end.

(** ** Goroutines *)

Inductive waitKind := WaitNext | WaitQuiescence.
Inductive waitState := WaitCheck | WaitSelect (generation : nat) | WaitGot | WaitErr.
Record waitCall := mkWait { wait_kind : waitKind; wait_state : waitState }.

(** What a call would return at once. *)
Definition satisfied (k : waitKind) (r : RecordingObserver) : Prop :=
  match k with WaitNext => rec_unread r <> [] | WaitQuiescence => quiescent r = true end.

(** [sends]: how far the events of each send have got; [consumed]: what [AwaitNext] has
    returned, in order. *)
Record recSystem := mkRec {
  recd : RecordingObserver;
  sends : list view;
  consumed : list ObserverEvent;
  waits : list waitCall
}.

Inductive recStep (σ : recSystem) : recSystem -> Prop :=
| rec_send : recStep σ (mkRec (recd σ) (sends σ ++ [VBefore]) (consumed σ) (waits σ))
| rec_event i v e v' : sends σ !! i = Some v -> viewMove v e v' ->
    recStep σ (mkRec (recordEvent e (recd σ)) (<[i := v']> (sends σ)) (consumed σ) (waits σ))
| rec_await k : recStep σ (mkRec (recd σ) (sends σ) (consumed σ) (waits σ ++ [mkWait k WaitCheck]))
| rec_next i e r : waits σ !! i = Some (mkWait WaitNext WaitCheck) -> takeNext (recd σ) = Some (e, r) ->
    recStep σ (mkRec r (sends σ) (consumed σ ++ [e]) (<[i := mkWait WaitNext WaitGot]> (waits σ)))
| rec_quiescent i : waits σ !! i = Some (mkWait WaitQuiescence WaitCheck) -> quiescent (recd σ) = true ->
    recStep σ (mkRec (recd σ) (sends σ) (consumed σ) (<[i := mkWait WaitQuiescence WaitGot]> (waits σ)))
| rec_block i k : waits σ !! i = Some (mkWait k WaitCheck) -> ~ satisfied k (recd σ) ->
    recStep σ (mkRec (recd σ) (sends σ) (consumed σ) (<[i := mkWait k (WaitSelect (rec_changed (recd σ)))]> (waits σ)))
| rec_wake i k g : waits σ !! i = Some (mkWait k (WaitSelect g)) -> (g < rec_changed (recd σ))%nat ->
    recStep σ (mkRec (recd σ) (sends σ) (consumed σ) (<[i := mkWait k WaitCheck]> (waits σ)))
| rec_done i k g : waits σ !! i = Some (mkWait k (WaitSelect g)) ->
    recStep σ (mkRec (recd σ) (sends σ) (consumed σ) (<[i := mkWait k WaitErr]> (waits σ))).

Definition recReachable (σ : recSystem) : Prop := rtc recStep (mkRec NewRecordingObserver [] [] []) σ.

(** ** The invariant *)

(** An operation has started and not ended. *)
Definition underWay (v : view) : Z := match v with VBefore | VDone _ => 0 | _ => 1 end.

Record recInv (σ : recSystem) : Prop := {
  ri_events : rec_events (recd σ) = consumed σ ++ rec_unread (recd σ);
  ri_active : rec_active (recd σ) = zsum underWay (sends σ);
  ri_last : match last (rec_events (recd σ)) with
    | None => Forall (fun v => v = VBefore) (sends σ)
    | Some e => Kind e <> ObserverEventKindOperationEnd -> 0 < zsum underWay (sends σ)
    end;
  ri_waits : forall i k g, waits σ !! i = Some (mkWait k (WaitSelect g)) ->
    (g <= rec_changed (recd σ))%nat /\ (g = rec_changed (recd σ) -> ~ satisfied k (recd σ))
}.

Lemma underWay_nonneg v : 0 <= underWay v.
Proof. destruct v; cbn; lia. Qed.

(** What an event does to the count of operations under way. *)
Lemma viewMove_counts v e v' : viewMove v e v' ->
  underWay v' = underWay v + match Kind e with
                             | ObserverEventKindOperationStart => 1
                             | ObserverEventKindOperationEnd => -1
                             | _ => 0
                             end /\ (Kind e = ObserverEventKindOperationEnd <-> underWay v' = 0) /\
  (Kind e = ObserverEventKindOperationStart <-> underWay v = 0).
Proof.
  intros Hm. destruct Hm; repeat match goal with H : Kind _ = _ |- _ => rewrite H end; try (by cbn; split_and!; done).
  all: match goal with H : quiet ?v = Some _ |- _ => destruct v; try done end.
Qed.

Lemma recInv_event σ i v e v' : recInv σ -> sends σ !! i = Some v -> viewMove v e v' ->
  recInv (mkRec (recordEvent e (recd σ)) (<[i := v']> (sends σ)) (consumed σ) (waits σ)).
Proof.
  intros [I1 I2 I3 I4] Hi Hm. destruct (viewMove_counts _ _ _ Hm) as (Hc & Hend & Hstart). constructor; cbn.
  - by rewrite I1, app_assoc.
  - rewrite (zsum_insert _ _ _ _ _ Hi), Hc, I2. assert (underWay v <= zsum underWay (sends σ)) as Hle.
    { apply zsum_elem_le; [intros ? _; apply underWay_nonneg|]. by eapply list_elem_of_lookup_2. }
    pose proof (underWay_nonneg v'). destruct (Kind e) eqn:Ek; try lia. destruct (Z.ltb_spec 0 (zsum underWay (sends σ))); lia.
  - rewrite last_snoc. intros Hk. assert (underWay v' <> 0) by tauto. pose proof (underWay_nonneg v').
    assert (underWay v' <= zsum underWay (<[i := v']> (sends σ))); [|lia]. apply zsum_elem_le; [intros ? _; apply underWay_nonneg|].
    eapply list_elem_of_lookup_2, list_lookup_insert_eq. by eapply lookup_lt_Some.
  - intros j k g Hj. destruct (I4 _ _ _ Hj) as [H1 _]. split; [lia|]. intros ->. lia.
Qed.

(** A call moves, and the recorder keeps its events. *)
Lemma recInv_wait σ r c i w : recInv σ -> rec_events r = c ++ rec_unread r -> rec_events r = rec_events (recd σ) ->
  rec_active r = rec_active (recd σ) -> rec_changed r = rec_changed (recd σ) -> (rec_unread r <> [] -> rec_unread (recd σ) <> []) ->
  (forall k g, w = mkWait k (WaitSelect g) -> (g <= rec_changed r)%nat /\ (g = rec_changed r -> ~ satisfied k r)) ->
  recInv (mkRec r (sends σ) c (<[i := w]> (waits σ))).
Proof.
  intros [I1 I2 I3 I4] Hr He Ha Hc Hu Hw. constructor; cbn; rewrite ?He, ?Ha, ?Hc; [congruence|done|done|].
  intros j k g [(-> & -> & _)|[_ Hj]]%list_lookup_insert_Some; [rewrite <- Hc; by apply Hw|]. destruct (I4 _ _ _ Hj) as [H1 H2]. split; [done|].
  intros Hg. specialize (H2 Hg). destruct k; cbn in *; [auto|]. unfold quiescent in *. by rewrite He, Ha.
Qed.

Lemma recInv_step σ σ' : recInv σ -> recStep σ σ' -> recInv σ'.
Proof.
  intros Hinv Hs. pose proof Hinv as [I1 I2 I3 I4]. destruct Hs as [|i v e v' Hi Hm|k|i e r Hi Ht|i Hi Hq|i k Hi Hn|i k g Hi Hg|i k g Hi].
  - constructor; cbn; try done; rewrite zsum_app; cbn.
    + lia.
    + destruct (last (rec_events (recd σ))) as [e|]; [intros Hk; specialize (I3 Hk); lia|]. apply Forall_app. split; [done|]. by constructor.
  - by eapply recInv_event.
  - constructor; cbn; try done. intros i k' g [Hi|[_ Hi]]%lookup_app_Some; [by eapply I4|]. by apply list_lookup_singleton_Some in Hi as [_ ?].
  - unfold takeNext in Ht. destruct (rec_unread (recd σ)) as [|x q] eqn:Eu; [done|]. injection Ht as <- <-.
    apply recInv_wait; cbn; try done; [by rewrite I1, <- app_assoc|by rewrite Eu].
  - by apply recInv_wait.
  - apply recInv_wait; try done. intros k' g [= <- <-]. done.
  - by apply recInv_wait.
  - by apply recInv_wait.
Qed.

Lemma recInv_reachable σ : recReachable σ -> recInv σ.
Proof. apply rtc_invariant; [|intros a b; apply recInv_step]. constructor; cbn; try done; constructor. Qed.

(** The recorder keeps the events of every interleaving of sends in order and hands each
    out once; it is quiescent exactly when there were sends and all of them are over; and a
    call that could return has a signal to wake it. *)
Theorem recorder_tells_when_sends_are_over σ : recReachable σ ->
  rec_events (recd σ) = consumed σ ++ rec_unread (recd σ) /\
  (quiescent (recd σ) = true <->
   rec_events (recd σ) <> [] /\ Forall (fun v => v = VBefore \/ exists x, v = VDone x) (sends σ)) /\
  (forall i k g, waits σ !! i = Some (mkWait k (WaitSelect g)) -> satisfied k (recd σ) -> (g < rec_changed (recd σ))%nat).
Proof.
  intros [I1 I2 I3 I4]%recInv_reachable. split_and!; [done| |].
  - assert (Forall (fun v => v = VBefore \/ exists x, v = VDone x) (sends σ) <-> zsum underWay (sends σ) = 0) as Hz.
    { rewrite Forall_forall. split.
      - intros H. apply zsum_all_zero. intros v Hv. destruct (H v Hv) as [->|[x ->]]; done.
      - intros H v Hv. assert (underWay v = 0) as E by (eapply zsum_zero; [intros ? _; apply underWay_nonneg|exact H|done]).
        destruct v; try done; [by left|right; eauto]. }
    rewrite Hz, <- I2. unfold quiescent. destruct (last (rec_events (recd σ))) as [e|] eqn:El.
    + rewrite andb_true_iff, Z.eqb_eq. assert (rec_events (recd σ) <> []) as Hne by (intros E; by rewrite E in El). split; [tauto|]. intros [_ H0].
      split; [done|]. apply bool_decide_eq_true_2. destruct (decide (Kind e = ObserverEventKindOperationEnd)) as [|Hk]; [done|]. specialize (I3 Hk). lia.
    + apply last_None in El. rewrite El. split; [done|]. by intros [? _].
  - intros i k g Hi Hsat. destruct (I4 _ _ _ Hi) as [H1 H2]. destruct (decide (g = rec_changed (recd σ))) as [E|E]; [by destruct (H2 E)|lia].
Qed.

(** ** Recorded sends *)

(** The events of a send, one after the other. *)
Lemma record_run v es v' : viewRun v es v' -> forall σ i, sends σ !! i = Some v ->
  rtc recStep σ (mkRec (foldl (fun r e => recordEvent e r) (recd σ) es) (<[i := v']> (sends σ)) (consumed σ) (waits σ)).
Proof.
  induction 1 as [v|v e v1 es v2 Hm Hr IH]; intros σ i Hi.
  - rewrite list_insert_id by done. destruct σ. reflexivity.
  - eapply rtc_l; [by eapply rec_event|]. specialize (IH (mkRec (recordEvent e (recd σ)) (<[i := v1]> (sends σ)) (consumed σ) (waits σ)) i).
    cbn in *. rewrite list_insert_insert_eq in IH. apply IH. apply list_lookup_insert_eq. by eapply lookup_lt_Some.
Qed.

Module Demo.
Definition event (k : ObserverEventKind) : ObserverEvent :=
  mkEvent 1 k (B "op_1") 0 0 0 ObserverOutcomeAccepted ErrorCodeNone DeliveryStateNone HTTPStatusClassNone 0 0 0 [].
Definition started : ObserverEvent := event ObserverEventKindOperationStart.
Definition ended : ObserverEvent := event ObserverEventKindOperationEnd.
Definition over : recSystem :=
  mkRec (recordEvent ended (recordEvent started NewRecordingObserver)) [VDone ended; VBefore] [] [].
Lemma over_reachable : recReachable over.
Proof.
  eapply rtc_l; [apply rec_send|]. eapply rtc_l; [apply rec_send|]. etransitivity.
  - apply (record_run VBefore [started; ended] (VDone ended)) with (i := 0%nat); [|done].
    econstructor; [by apply view_start|]. econstructor; [by apply (view_end _ [])|]. constructor.
  - reflexivity.
Qed.
Lemma recorder_tells_when_sends_are_over_witness : quiescent (recd over) = true /\ length (sends over) = 2%nat.
Proof.
  split; [|reflexivity]. destruct (recorder_tells_when_sends_are_over over over_reachable) as (_ & H & _).
  apply H. split; [done|]. constructor; [right; by eexists|]. constructor; [by left|done].
Defined.
End Demo.
