(* ===== verification/Scripted.v ===== *)
(** * The scripted transport and its controls (reposttest/transport.go, controls.go)

    The transport that answers attempts from a list of scripts and records what it was
    sent; responses that are settled by hand while a send waits for them, as a step
    relation of the goroutines that settle, send and cancel; sequences of generated
    values. *)
From S2P Require Import Prelude Errors Telemetry RuntimeState GoText Response Descriptor Operation.

(** ** Recorded requests *)

(** transport.go, [RecordedRequest]. *)
Record RecordedRequest := mkRecorded {
  Recorded_URL : bytes;
  Recorded_Headers : list (bytes * bytes);
  Recorded_Body : bytes;
  Recorded_AttemptNumber : Z;
  Recorded_IdempotencyKey : bytes;
  Recorded_ConnectTimeout : Z;
  Recorded_AttemptTimeout : Z;
  CaptureSequence : Z
}.

(** transport.go, [captureRequest], one turn of its loop, and the whole. *)
Definition captureHeader (acc : list (bytes * bytes) * bytes) (h : HeaderField) : list (bytes * bytes) * bytes :=
  if EqualFold (Name h) (B "authorization") then acc
  else (acc.1 ++ [(Name h, Value h)], if EqualFold (Name h) (B "idempotency-key") then Value h else acc.2).
Definition captureRequest (r : AttemptRequest) (sequence : Z) : RecordedRequest :=
  let '(headers, key) := fold_left captureHeader (Request_Headers r) ([], []) in
  mkRecorded (Request_APIURL r) headers (Request_Body r) (Request_AttemptNumber r) key (Request_ConnectTimeout r)
    (Request_AttemptTimeout r) sequence.

(** transport.go, [responseOutcome]. *)
Definition responseOutcome (status : Z) (body : bytes) (headers : list (bytes * bytes)) : AttemptOutcome :=
  mkOutcome (Some (mkResponse status (Some (map (fun h => mkHeader h.1 h.2) headers)) (Some body) (len body) (len body)
    false zeroTime false false false false false false false ErrorCodeNone FailureReasonNone false None)) None.
(** transport.go, [EnqueueFailure], [Fail]: the outcome, and that of [Cancel]. *)
Definition failureOutcome (code : ErrorCode) (reason : FailureReason) (committed : bool) : AttemptOutcome :=
  mkOutcome None (Some (mkFailure code reason committed CauseCategoryNone)).
Definition cancelOutcome : AttemptOutcome := failureOutcome ErrorCodeCancelled FailureReasonUnknown false.

(** ** The transport *)

(** A script is an outcome, or a response that is settled later. *)
Inductive script := ScriptOutcome (o : AttemptOutcome) | ScriptPending (c : nat).

(** transport.go, [ScriptedTransport]. *)
Record ScriptedTransport := mkScripted { scripts : list script; requests : list RecordedRequest; sequence : Z }.
Definition NewScriptedTransport : ScriptedTransport := mkScripted [] [] 0.

(** transport.go, [enqueue]. *)
Definition enqueue (next : script) (t : ScriptedTransport) : ScriptedTransport :=
  mkScripted (scripts t ++ [next]) (requests t) (sequence t).

(** transport.go, [Send], under the mutex: the script to run; [None] when there is none
    left, and the outcome is empty. *)
Definition takeScript (r : AttemptRequest) (t : ScriptedTransport) : ScriptedTransport * option script :=
  let n := sequence t + 1 in
  let recorded := requests t ++ [captureRequest r n] in
  match scripts t with
  | [] => (mkScripted [] recorded n, None)
  | next :: rest => (mkScripted rest recorded n, Some next)
  end.

(** ** Controlled responses *)

(** transport.go, [ControlledResponse]: [chan] is its channel of capacity one; [settled] is
    the history: the outcome that was settled. *)
Record ControlledResponse := mkControlled { ctl_done : bool; chan : option AttemptOutcome; settled : option AttemptOutcome }.
Definition newControlled : ControlledResponse := mkControlled false None None.

(** transport.go, [settle]; [None] when the send on the channel blocks with the mutex
    held. *)
Definition settle (o : AttemptOutcome) (c : ControlledResponse) : option (ControlledResponse * bool) :=
  if ctl_done c then Some (c, false)
  else match chan c with
       | Some _ => None
       | None => Some (mkControlled true (Some o) (Some o), true)
       end.

(** A call of [wait]: at the select; chosen [ctx.Done()]; after [Cancel], at the receive;
    returned. *)
Inductive waiting := AtSelect | AtCancel | AtReceive | Answered (o : AttemptOutcome).

(** [enqueued] and [taken] are the scripts so far. *)
Record kit := mkKit {
  transport : ScriptedTransport;
  controlled : list ControlledResponse;
  waits : list (nat * waiting);
  enqueued : list script;
  taken : list script
}.

Inductive kitStep (σ : kit) : kit -> Prop :=
| kit_outcome o : kitStep σ (mkKit (enqueue (ScriptOutcome o) (transport σ)) (controlled σ) (waits σ) (enqueued σ ++ [ScriptOutcome o]) (taken σ))
| kit_pending : let s := ScriptPending (length (controlled σ)) in
    kitStep σ (mkKit (enqueue s (transport σ)) (controlled σ ++ [newControlled]) (waits σ) (enqueued σ ++ [s]) (taken σ))
| kit_send_none r t : takeScript r (transport σ) = (t, None) -> kitStep σ (mkKit t (controlled σ) (waits σ) (enqueued σ) (taken σ))
| kit_send_outcome r t o : takeScript r (transport σ) = (t, Some (ScriptOutcome o)) ->
    kitStep σ (mkKit t (controlled σ) (waits σ) (enqueued σ) (taken σ ++ [ScriptOutcome o]))
| kit_send_pending r t c : takeScript r (transport σ) = (t, Some (ScriptPending c)) ->
    kitStep σ (mkKit t (controlled σ) (waits σ ++ [(c, AtSelect)]) (enqueued σ) (taken σ ++ [ScriptPending c]))
| kit_settle k c o c' b : controlled σ !! k = Some c -> settle o c = Some (c', b) ->
    kitStep σ (mkKit (transport σ) (<[k := c']> (controlled σ)) (waits σ) (enqueued σ) (taken σ))
| kit_receive i k st c o : waits σ !! i = Some (k, st) -> st = AtSelect \/ st = AtReceive -> controlled σ !! k = Some c -> chan c = Some o ->
    kitStep σ (mkKit (transport σ) (<[k := mkControlled (ctl_done c) None (settled c)]> (controlled σ)) (<[i := (k, Answered o)]> (waits σ))
      (enqueued σ) (taken σ))
| kit_ctx_done i k : waits σ !! i = Some (k, AtSelect) ->
    kitStep σ (mkKit (transport σ) (controlled σ) (<[i := (k, AtCancel)]> (waits σ)) (enqueued σ) (taken σ))
| kit_cancel i k c c' b : waits σ !! i = Some (k, AtCancel) -> controlled σ !! k = Some c -> settle cancelOutcome c = Some (c', b) ->
    kitStep σ (mkKit (transport σ) (<[k := c']> (controlled σ)) (<[i := (k, AtReceive)]> (waits σ)) (enqueued σ) (taken σ)).

Definition kitReachable (σ : kit) : Prop := rtc kitStep (mkKit NewScriptedTransport [] [] [] []) σ.

(** ** Sequences of values *)

(** controls.go, [stringSequence], one call: [None] is the panic. *)
Definition stringSequence (copied : list bytes) : list bytes * option bytes :=
  match copied with [] => ([], None) | v :: rest => (rest, Some v) end.
(** controls.go, [SequenceIdempotencyKeys], one call: the key, and whether there is an
    error. *)
Definition SequenceIdempotencyKeys (remaining : list bytes) : list bytes * (bytes * bool) :=
  match remaining with [] => ([], ([], true)) | v :: rest => (rest, (v, false)) end.

(** controls.go, [entropy] and [NextInt64]: [None] is a panic; a value outside the bound is
    used up. *)
Record entropy := mkEntropy { ent_values : list Z; ent_zero : bool }.
Definition ZeroEntropy : entropy := mkEntropy [] true.
Definition SequenceEntropy (values : list Z) : entropy := mkEntropy values false.
Definition NextInt64 (exclusiveBound : Z) (e : entropy) : entropy * option Z :=
  if exclusiveBound <=? 0 then (e, None)
  else if ent_zero e then (e, Some 0)
  else match ent_values e with
       | [] => (e, None)
       | v :: rest => (mkEntropy rest false, if (v <? 0) || (exclusiveBound <=? v) then None else Some v)
       end.

(** ** The invariant *)

Definition pendingOf (s : script) : list nat := match s with ScriptPending c => [c] | ScriptOutcome _ => [] end.
Definition awaited (l : list script) : list nat := concat (map pendingOf l).

(** The responses that a script or a send knows, each once. *)
Definition owners (σ : kit) : list nat := awaited (scripts (transport σ)) ++ map fst (waits σ).

Definition hidden (r : RecordedRequest) : Prop := Forall (fun h => EqualFold h.1 (B "authorization") = false) (Recorded_Headers r).

(** What was settled is in the channel, or the send that waited for it has got it. *)
Definition controlled_ok (ws : list (nat * waiting)) (k : nat) (c : ControlledResponse) : Prop :=
  (ctl_done c = true <-> settled c <> None) /\
  ((exists o, (k, Answered o) ∈ ws /\ settled c = Some o /\ chan c = None) \/
   chan c = settled c /\ forall o, (k, Answered o) ∉ ws).

Record kitInv (σ : kit) : Prop := {
  ki_owners : NoDup (owners σ) /\ Forall (fun k => (k < length (controlled σ))%nat) (owners σ);
  ki_scripts : enqueued σ = taken σ ++ scripts (transport σ);
  ki_requests : map CaptureSequence (requests (transport σ)) = map Z.of_nat (seq 1 (length (requests (transport σ)))) /\
    sequence (transport σ) = len (requests (transport σ)) /\ Forall hidden (requests (transport σ));
  ki_controlled : forall k c, controlled σ !! k = Some c -> controlled_ok (waits σ) k c;
  ki_receive : forall k, (k, AtReceive) ∈ waits σ -> exists c, controlled σ !! k = Some c /\ ctl_done c = true
}.

Lemma captureHeader_fold hs : forall acc, Forall (fun h => EqualFold h.1 (B "authorization") = false) acc.1 ->
  Forall (fun h => EqualFold h.1 (B "authorization") = false) (fold_left captureHeader hs acc).1.
Proof.
  induction hs as [|h hs IH]; intros acc Ha; cbn; [done|]. apply IH. unfold captureHeader.
  destruct (EqualFold (Name h) (B "authorization")) eqn:E; [done|]. cbn. apply Forall_app. split; [done|]. by constructor.
Qed.
Lemma captureRequest_hidden r n : hidden (captureRequest r n) /\ CaptureSequence (captureRequest r n) = n.
Proof.
  unfold captureRequest, hidden. pose proof (captureHeader_fold (Request_Headers r) ([], []) ltac:(constructor)) as H.
  by destruct (fold_left _ _ _).
Qed.

(** A request is recorded. *)
Lemma takeScript_spec r t t' s : takeScript r t = (t', s) -> scripts t = option_list s ++ scripts t' /\
  requests t' = requests t ++ [captureRequest r (sequence t + 1)] /\ sequence t' = sequence t + 1.
Proof. unfold takeScript. destruct (scripts t) as [|x l]; by intros [= <- <-]. Qed.
Lemma requests_recorded r t t' s : takeScript r t = (t', s) ->
  map CaptureSequence (requests t) = map Z.of_nat (seq 1 (length (requests t))) /\ sequence t = len (requests t) /\ Forall hidden (requests t) ->
  map CaptureSequence (requests t') = map Z.of_nat (seq 1 (length (requests t'))) /\ sequence t' = len (requests t') /\ Forall hidden (requests t').
Proof.
  intros (_ & -> & ->)%takeScript_spec (H1 & H2 & H3). destruct (captureRequest_hidden r (sequence t + 1)) as [Hh Hs]. unfold len in *.
  rewrite length_app. cbn [length]. split_and!.
  - rewrite Nat.add_1_r, seq_S, !map_app, H1. cbn. rewrite Hs, H2. repeat f_equal. lia.
  - lia.
  - apply Forall_app. split; [done|]. by constructor.
Qed.

(** Settling does not block, and the first settlement stays. *)
Lemma settle_total ws k c o : controlled_ok ws k c -> exists c' b, settle o c = Some (c', b) /\ controlled_ok ws k c' /\ ctl_done c' = true /\
  (forall x, settled c = Some x -> settled c' = Some x).
Proof.
  intros Hok. pose proof Hok as [Hd Hc]. unfold settle. destruct (ctl_done c) eqn:Ed; [exists c, false; by split_and!|].
  assert (settled c = None) as Hs by (destruct (settled c); [|done]; destruct Hd as [_ Hd]; by specialize (Hd ltac:(done))).
  destruct Hc as [(x & _ & Hx & _)|[Hc Hn]]; [congruence|]. rewrite Hc, Hs. eexists _, _. split; [done|]. split_and!; [|done|done].
  split; [done|]. right. done.
Qed.

Lemma controlled_waits ws ws' k c : controlled_ok ws k c -> (forall o, (k, Answered o) ∈ ws <-> (k, Answered o) ∈ ws') -> controlled_ok ws' k c.
Proof.
  intros [H1 H2] Hw. split; [done|]. destruct H2 as [(o & Ho & H2)|[H2 H3]]; [left; exists o; by rewrite <- Hw|right; split; [done|]; intros o; by rewrite <- Hw].
Qed.

(** A call of [wait] that has not been answered moves on. *)
Lemma answered_insert (ws : list (nat * waiting)) i k st st' : ws !! i = Some (k, st) -> (forall o, st <> Answered o) -> (forall o, st' <> Answered o) ->
  forall k' o, (k', Answered o) ∈ ws <-> (k', Answered o) ∈ <[i := (k, st')]> ws.
Proof.
  intros Hi H1 H2 k' o. rewrite !list_elem_of_lookup. split; intros [j Hj]; exists j.
  - rewrite list_lookup_insert_ne; [done|]. intros ->. rewrite Hi in Hj. injection Hj as _ ->. by apply (H1 o).
  - apply list_lookup_insert_Some in Hj as [(_ & [= _ E] & _)|[_ Hj]]; [by destruct (H2 o)|done].
Qed.
Lemma map_insert_same {A B} (f : A -> B) l i x y : l !! i = Some x -> f y = f x -> map f (<[i := y]> l) = map f l.
Proof. intros Hi E. change (map f) with (fmap (M := list) f). rewrite list_fmap_insert, E. apply list_insert_id. by rewrite list_lookup_fmap, Hi. Qed.

Lemma waits_unique (ws : list (nat * waiting)) k a b : NoDup (map fst ws) -> (k, a) ∈ ws -> (k, b) ∈ ws -> a = b.
Proof.
  intros Hn [i Hi]%list_elem_of_lookup [j Hj]%list_elem_of_lookup. assert (i = j) as ->; [|congruence].
  eapply NoDup_lookup; [exact Hn| |]; change (map fst) with (fmap (M := list) (@fst nat waiting)); rewrite list_lookup_fmap; [by rewrite Hi|by rewrite Hj].
Qed.
Lemma owners_waits σ : NoDup (owners σ) -> NoDup (map fst (waits σ)).
Proof. intros H. by apply NoDup_app in H as (_ & _ & ?). Qed.
Lemma waits_controlled σ k st : kitInv σ -> (k, st) ∈ waits σ -> exists c, controlled σ !! k = Some c.
Proof.
  intros [[_ Hl] _ _ _ _] Hk. apply lookup_lt_is_Some_2. rewrite Forall_forall in Hl. apply Hl. apply elem_of_app. right.
  by apply (list_elem_of_fmap_2 fst _ _ Hk).
Qed.

Lemma awaited_app a b : awaited (a ++ b) = awaited a ++ awaited b.
Proof. unfold awaited. by rewrite map_app, concat_app. Qed.
Lemma elem_update {A} (l : list A) i x y : y ∈ <[i := x]> l -> y = x \/ y ∈ l.
Proof.
  intros [j H]%list_elem_of_lookup. apply list_lookup_insert_Some in H as [(_ & <- & _)|[_ H]]; [by left|right]. by eapply list_elem_of_lookup_2.
Qed.

(** A response and the calls that wait for it move, and nothing else. *)
Lemma kitInv_waits σ ctl ws : kitInv σ -> length ctl = length (controlled σ) -> map fst ws = map fst (waits σ) ->
  (forall k c, ctl !! k = Some c -> controlled_ok ws k c) ->
  (forall k, (k, AtReceive) ∈ ws -> exists c, ctl !! k = Some c /\ ctl_done c = true) ->
  kitInv (mkKit (transport σ) ctl ws (enqueued σ) (taken σ)).
Proof. intros [I1 I2 I3 I4 I5] Hl Hm Hc Hr. constructor; try done. unfold owners in *. cbn. by rewrite Hl, Hm. Qed.

Lemma kitInv_send σ r t s ws tk : kitInv σ -> takeScript r (transport σ) = (t, s) -> tk = option_list s ->
  (ws = waits σ /\ awaited (option_list s) = [] \/ exists c, s = Some (ScriptPending c) /\ ws = waits σ ++ [(c, AtSelect)]) ->
  kitInv (mkKit t (controlled σ) ws (enqueued σ) (taken σ ++ tk)).
Proof.
  intros [[I1 I1'] I2 I3 I4 I5] Ht -> Hws. pose proof (takeScript_spec _ _ _ _ Ht) as (Hs & _ & _).
  assert (awaited (scripts t) ++ map fst ws ≡ₚ owners σ) as Hp.
  { unfold owners. rewrite Hs, awaited_app. destruct Hws as [[-> ->]|(c & -> & ->)]; [done|]. rewrite map_app. cbn. solve_Permutation. }
  assert (forall k st, st <> AtSelect -> (k, st) ∈ ws -> (k, st) ∈ waits σ) as Hold.
  { intros k st Hne. destruct Hws as [[-> _]|(c & _ & ->)]; [done|]. intros [?|H]%elem_of_app; [done|]. apply list_elem_of_singleton in H as [= _ ->]. by destruct Hne. }
  constructor; cbn.
  - unfold owners. cbn. rewrite Hp. done.
  - rewrite I2, Hs. by rewrite app_assoc.
  - by eapply requests_recorded.
  - intros k c Hk. eapply controlled_waits; [by apply I4|]. intros o. split; [|by apply Hold].
    destruct Hws as [[-> _]|(c' & _ & ->)]; [done|]. intros H. apply elem_of_app. by left.
  - intros k Hk. apply I5, Hold; done.
Qed.

Lemma kitInv_receive σ i k st c o : kitInv σ -> waits σ !! i = Some (k, st) -> st = AtSelect \/ st = AtReceive -> controlled σ !! k = Some c ->
  chan c = Some o ->
  kitInv (mkKit (transport σ) (<[k := mkControlled (ctl_done c) None (settled c)]> (controlled σ)) (<[i := (k, Answered o)]> (waits σ)) (enqueued σ) (taken σ)).
Proof.
  intros Hinv Hi Hst Hk Hch. pose proof Hinv as [[I1 I1'] I2 I3 I4 I5]. apply owners_waits in I1 as Hn.
  destruct (I4 _ _ Hk) as [Hd Hc]. assert (settled c = Some o) as Hs by (destruct Hc as [(x & _ & _ & ?)|[? _]]; congruence).
  apply kitInv_waits; [done|by rewrite length_insert|by eapply map_insert_same|..].
  - intros k' c' H'. apply list_lookup_insert_Some in H' as [(-> & <- & _)|[Hne H']].
    + split; [done|]. left. exists o. split; [|done]. eapply list_elem_of_lookup_2, list_lookup_insert_eq. by eapply lookup_lt_Some.
    + eapply controlled_waits; [by apply I4|]. intros x. rewrite !list_elem_of_lookup. split; intros [j Hj]; exists j.
      * rewrite list_lookup_insert_ne; [done|]. intros ->. rewrite Hi in Hj. congruence.
      * apply list_lookup_insert_Some in Hj as [(_ & [= ? _] & _)|[_ Hj]]; [congruence|done].
  - intros k' [?|Hr]%elem_update; [done|]. destruct (I5 _ Hr) as (x & Hx & Hxd). destruct (decide (k' = k)) as [->|Hne].
    + rewrite Hk in Hx. injection Hx as <-. eexists. split; [apply list_lookup_insert_eq; by eapply lookup_lt_Some|done].
    + exists x. by rewrite list_lookup_insert_ne.
Qed.

Lemma kitInv_step σ σ' : kitInv σ -> kitStep σ σ' -> kitInv σ'.
Proof.
  intros Hinv Hs. pose proof Hinv as [[I1 I1'] I2 I3 I4 I5]. destruct Hs as [o| |r t Ht|r t o Ht|r t c Ht|k c o c' b Hk Hs|i k st c o Hi Hst Hk Hc|i k Hi|i k c c' b Hi Hk Hs].
  - constructor; try done; [|cbn; by rewrite I2, app_assoc]. unfold owners, enqueue in *. cbn [transport scripts waits controlled]. by rewrite awaited_app, app_nil_r.
  - assert (owners (mkKit (enqueue s (transport σ)) (controlled σ ++ [newControlled]) (waits σ) (enqueued σ ++ [s]) (taken σ)) ≡ₚ length (controlled σ) :: owners σ) as Hp.
    { unfold owners, enqueue. cbn [transport scripts waits controlled]. rewrite awaited_app. cbn. solve_Permutation. }
    constructor; cbn; try done.
    + rewrite Hp. split.
      * apply NoDup_cons. split; [|done]. intros H. rewrite Forall_forall in I1'. specialize (I1' _ H). cbn in I1'. lia.
      * rewrite length_app. cbn. constructor; [lia|]. eapply Forall_impl; [exact I1'|]. cbn. lia.
    + by rewrite I2, app_assoc.
    + intros k c [Hk|[Hl Hk]]%lookup_app_Some; [by apply I4|]. apply list_lookup_singleton_Some in Hk as [Hk <-].
      split; [done|]. right. split; [done|]. intros o Ho. destruct (waits_controlled σ k (Answered o) Hinv Ho) as [x Hx%lookup_lt_Some]. lia.
    + intros k Hk. destruct (I5 k Hk) as (c & Hc & Hd). exists c. by rewrite (lookup_app_l_Some _ _ _ _ Hc).
  - rewrite <- (app_nil_r (taken σ)). eapply kitInv_send; [done|exact Ht|done|]. by left.
  - eapply kitInv_send; [done|exact Ht|done|]. by left.
  - eapply kitInv_send; [done|exact Ht|done|]. right. by exists c.
  - destruct (settle_total (waits σ) k c o (I4 _ _ Hk)) as (x & y & Hx & Hok & Hd & _). rewrite Hs in Hx. injection Hx as <- <-.
    apply kitInv_waits; [done|by rewrite length_insert|done|..].
    + intros k' z [(-> & <- & _)|[_ H]]%list_lookup_insert_Some; [done|by apply I4].
    + intros k' Hr. destruct (I5 _ Hr) as (z & Hz & Hzd). destruct (decide (k' = k)) as [->|Hne].
      * exists c'. split; [apply list_lookup_insert_eq; by eapply lookup_lt_Some|done].
      * exists z. by rewrite list_lookup_insert_ne.
  - by eapply kitInv_receive.
  - apply kitInv_waits; [done|done|by eapply map_insert_same|..].
    + intros k' c Hk. eapply controlled_waits; [by apply I4|]. by apply (answered_insert _ i k AtSelect).
    + intros k' [?|Hr]%elem_update; [done|]. by apply I5.
  - destruct (settle_total (waits σ) k c cancelOutcome (I4 _ _ Hk)) as (x & y & Hx & Hok & Hd & _). rewrite Hs in Hx. injection Hx as <- <-.
    apply kitInv_waits; [done|by rewrite length_insert|by eapply map_insert_same|..].
    + intros k' z H. eapply controlled_waits; [|by apply (answered_insert _ i k AtCancel)].
      apply list_lookup_insert_Some in H as [(-> & <- & _)|[_ H]]; [done|by apply I4].
    + intros k' Hr. destruct (decide (k' = k)) as [->|Hne]; [exists c'; split; [apply list_lookup_insert_eq; by eapply lookup_lt_Some|done]|].
      apply elem_update in Hr as [[= ?]|Hr]; [done|]. destruct (I5 _ Hr) as (z & Hz & Hzd). exists z. by rewrite list_lookup_insert_ne.
Qed.

Lemma kitInv_reachable σ : kitReachable σ -> kitInv σ.
Proof. apply rtc_invariant; [|intros a b; apply kitInv_step]. constructor; cbn; try done; [split; [apply NoDup_nil_2|done]|by intros ? ?%elem_of_nil]. Qed.

Lemma settled_stays σ σ' k c o : kitInv σ -> kitStep σ σ' -> controlled σ !! k = Some c -> settled c = Some o ->
  exists c', controlled σ' !! k = Some c' /\ settled c' = Some o.
Proof.
  intros Hinv Hs Hk Ho. pose proof (ki_controlled _ Hinv) as I4.
  assert (forall k' x x', controlled σ !! k' = Some x -> (forall y, settled x = Some y -> settled x' = Some y) ->
    exists c', <[k' := x']> (controlled σ) !! k = Some c' /\ settled c' = Some o) as Hup.
  { intros k' x x' Hx Hy. destruct (decide (k' = k)) as [->|Hne].
    - exists x'. split; [apply list_lookup_insert_eq; by eapply lookup_lt_Some|]. apply Hy. congruence.
    - exists c. by rewrite list_lookup_insert_ne. }
  destruct Hs as [| | | | |k' x y x' b Hx Hset| | |i k' x x' b Hi Hx Hset]; cbn; try (by exists c).
  - exists c. by rewrite (lookup_app_l_Some _ _ _ _ Hk).
  - destruct (settle_total _ _ _ y (I4 _ _ Hx)) as (z & ? & Hz & _ & _ & Hst). rewrite Hset in Hz. injection Hz as <- _. by eapply Hup.
  - by eapply Hup.
  - destruct (settle_total _ _ _ cancelOutcome (I4 _ _ Hx)) as (z & ? & Hz & _ & _ & Hst). rewrite Hset in Hz. injection Hz as <- _. by eapply Hup.
Qed.

(** C40. In every interleaving of sends, settlements and cancellations: scripts are
    taken in the order in which they were put in; requests are numbered from one and
    recorded without their credential; settling never blocks; a send whose context
    is done finds an answer to receive; what a send received is what was settled,
    and the first settlement stays. *)
Theorem scripted_answers_are_settled_once σ : kitReachable σ ->
  enqueued σ = taken σ ++ scripts (transport σ) /\
  map CaptureSequence (requests (transport σ)) = map Z.of_nat (seq 1 (length (requests (transport σ)))) /\ Forall hidden (requests (transport σ)) /\
  (forall k c o, controlled σ !! k = Some c -> settle o c <> None) /\
  (forall k, (k, AtReceive) ∈ waits σ -> exists c o, controlled σ !! k = Some c /\ chan c = Some o) /\
  (forall k o, (k, Answered o) ∈ waits σ -> exists c, controlled σ !! k = Some c /\ settled c = Some o /\ chan c = None) /\
  (forall σ' k c o, kitStep σ σ' -> controlled σ !! k = Some c -> settled c = Some o -> exists c', controlled σ' !! k = Some c' /\ settled c' = Some o).
Proof.
  intros Hinv%kitInv_reachable. pose proof Hinv as [[I1 I1'] I2 (I3 & _ & I3') I4 I5]. apply owners_waits in I1 as Hn.
  split_and!; try done.
  - intros k c o Hk. destruct (settle_total _ _ _ o (I4 _ _ Hk)) as (? & ? & -> & _). done.
  - intros k Hk. destruct (I5 _ Hk) as (c & Hc & Hd). exists c. destruct (I4 _ _ Hc) as [Hd' [(o & Ho & _)|[Hch _]]].
    + pose proof (waits_unique _ _ _ _ Hn Hk Ho). done.
    + apply Hd' in Hd. rewrite Hch. destruct (settled c) as [o|]; [by exists o|done].
  - intros k o Hk. destruct (waits_controlled σ k _ Hinv Hk) as [c Hc]. exists c. split; [done|].
    destruct (I4 _ _ Hc) as [_ [(x & Hx & Hs & Hch)|[_ Hno]]]; [|by destruct (Hno o)]. pose proof (waits_unique _ _ _ _ Hn Hk Hx) as [= ->]. done.
  - intros σ' k c o. by apply settled_stays.
Qed.

(** ** What a send makes of it *)

(** An exhausted transport answers with an empty outcome, which a send reports as a defect
    of the custom transport that is not to be retried. *)
Lemma exhausted_script_ends_the_send E C id p customer n before tracker w : ownsTransport C = false ->
  exists e w', handleOutcome E C id p customer n before tracker (mkOutcome None None) w = (inr (Failed (Some e)), w') /\
    Error_Retryable e = false /\ Error_Code e = ErrorCodeIO /\ Error_CauseCategory e = CauseCategoryCustomTransport.
Proof. intros Ho. unfold handleOutcome. cbn. rewrite Ho. by do 2 eexists. Qed.

(** What an entropy of the kit returns is taken by the runtime; every other call panics. *)
Lemma NextInt64_in_bounds bound e v : (NextInt64 bound e).2 = Some v -> sampleRetryEntropy (Some v) bound = (v, true, false).
Proof.
  unfold NextInt64, sampleRetryEntropy. destruct (bound <=? 0) eqn:Hb; [done|]. destruct (ent_zero e); cbn.
  - intros [= <-]. by replace (0 <? bound) with true by lia.
  - destruct (ent_values e) as [|x l]; [done|]. cbn. destruct ((x <? 0) || (bound <=? x)) eqn:Hx; [done|]. intros [= <-].
    by replace ((0 <=? x) && (x <? bound)) with true by lia.
Qed.

(** The values come in order, each once: a call after [used] others gives the next. *)
Lemma sequences_in_order l used : (stringSequence (drop used l)).2 = l !! used /\
  (SequenceIdempotencyKeys (drop used l)).2 = match l !! used with Some v => (v, false) | None => ([], true) end.
Proof. rewrite <- (Nat.add_0_r used) at 2 4. rewrite <- lookup_drop. by destruct (drop used l). Qed.

(** ** Runs *)
Module Demo.
Definition request : AttemptRequest :=
  mkRequest (B "op_1") (B "http://localhost") [mkHeader (B "Authorization") (B "Bearer k"); mkHeader (B "idempotency-key") (B "i")] [] 1 1 1.
Definition accepted : AttemptOutcome := responseOutcome 202 (B "{}") [].
(** A send is cancelled, and the response is completed before its own [Cancel]. *)
Definition answered : kit :=
  mkKit (mkScripted [] [captureRequest request 1] 1) [mkControlled true None (Some accepted)] [(0%nat, Answered accepted)]
    [ScriptPending 0] [ScriptPending 0].
Lemma settled_run : kitReachable answered.
Proof.
  eapply rtc_l; [apply kit_pending|]. eapply rtc_l; [by apply (kit_send_pending _ request)|].
  eapply rtc_l; [by apply (kit_ctx_done _ 0 0)|]. eapply rtc_l; [by eapply (kit_settle _ 0 newControlled accepted)|].
  eapply rtc_l; [by eapply (kit_cancel _ 0 0)|]. eapply rtc_l; [by eapply (kit_receive _ 0 0 AtReceive); [|right| |]|]. apply rtc_refl.
Qed.
Lemma scripted_answers_are_settled_once_witness : waits answered = [(0%nat, Answered accepted)] /\
  exists c, controlled answered !! 0%nat = Some c /\ settled c = Some accepted.
Proof.
  split; [reflexivity|]. destruct (scripted_answers_are_settled_once answered settled_run) as (_ & _ & _ & _ & _ & H & _).
  destruct (H 0%nat accepted) as (c & Hc & Hs & _); [by left|]. by exists c.
Defined.
End Demo.
