(* ===== verification/Otel.v ===== *)
(** * The OpenTelemetry bridge (otel/bridge.go)

    What the bridge tells the OpenTelemetry SDK: the calls of the tracing bridge on its
    spans, and the measurements that the metrics observer makes of the events of a send.
    The SDK is a parameter: a tracer gives contexts and spans, a meter may refuse an
    instrument, and the W3C propagator writes two fields. *)
From Stdlib Require Import SpecFloat.
From S2P Require Import Prelude Errors RuntimeState GoText Response Descriptor Operation Observer.
Import Operation.Protocol.
From S2P Require Import Telemetry.

(** ** Names *)

(** errors.go, observer.go: the strings of the codes. *)
Definition errorCodeString (c : ErrorCode) : bytes :=
  match c with
  | ErrorCodeConfiguration => B "CONFIGURATION" | ErrorCodeClosed => B "CLOSED" | ErrorCodeValidation => B "VALIDATION"
  | ErrorCodeSerialization => B "SERIALIZATION" | ErrorCodeRequestTooLarge => B "REQUEST_TOO_LARGE" | ErrorCodeDNS => B "DNS"
  | ErrorCodeConnect => B "CONNECT" | ErrorCodeProxy => B "PROXY" | ErrorCodeTLS => B "TLS" | ErrorCodeIO => B "IO"
  | ErrorCodeAttemptTimeout => B "ATTEMPT_TIMEOUT" | ErrorCodeOperationDeadline => B "OPERATION_DEADLINE"
  | ErrorCodeCancelled => B "CANCELLED" | ErrorCodeOverloaded => B "OVERLOADED" | ErrorCodeRateLimited => B "RATE_LIMITED"
  | ErrorCodeHTTPRejected => B "HTTP_REJECTED" | ErrorCodeServerFailure => B "SERVER_FAILURE"
  | ErrorCodeResponseTooLarge => B "RESPONSE_TOO_LARGE" | ErrorCodeResponseProtocol => B "RESPONSE_PROTOCOL"
  | ErrorCodeDescriptorVersion => B "DESCRIPTOR_VERSION" | ErrorCodeOther s => s
  end.
Definition deliveryStateString (d : DeliveryState) : bytes :=
  match d with
  | DeliveryStateNotSent => B "NOT_SENT" | DeliveryStatePossiblySent => B "POSSIBLY_SENT" | DeliveryStateAccepted => B "ACCEPTED"
  | DeliveryStateRejected => B "REJECTED" | DeliveryStateCancelledUnknown => B "CANCELLED_UNKNOWN" | DeliveryStateNone => []
  end.
Definition outcomeString (o : ObserverOutcome) : bytes :=
  match o with
  | ObserverOutcomeNone => [] | ObserverOutcomeAccepted => B "ACCEPTED" | ObserverOutcomeRetryableFailure => B "RETRYABLE_FAILURE"
  | ObserverOutcomeRejected => B "REJECTED" | ObserverOutcomeFailed => B "FAILED" | ObserverOutcomeCancelled => B "CANCELLED"
  | ObserverOutcomeClosed => B "CLOSED"
  end.
Definition statusClassString (s : HTTPStatusClass) : bytes :=
  match s with
  | HTTPStatusClassNone => [] | HTTPStatusClassSuccess => B "SUCCESS" | HTTPStatusClassRedirection => B "REDIRECTION"
  | HTTPStatusClassClientError => B "CLIENT_ERROR" | HTTPStatusClassServerError => B "SERVER_ERROR"
  end.

Definition operationsName : bytes := B "repost.client.operations".
Definition operationDurationName : bytes := B "repost.client.operation.duration".
Definition attemptsName : bytes := B "repost.client.attempts".
Definition attemptDurationName : bytes := B "repost.client.attempt.duration".
Definition retryDelayName : bytes := B "repost.client.retry.delay".

(** ** Metrics *)

(** bridge.go, [metricValue]. *)
Definition metricValue (v : bytes) : bytes := if v ==? [] then B "none" else ToLower v.

(** bridge.go, [metricAttributes]. *)
Definition metricAttributes (o : ObserverOutcome) (c : ErrorCode) (d : DeliveryState) (s : HTTPStatusClass) : list (bytes * bytes) :=
  [(B "outcome", metricValue (outcomeString o)); (B "error.code", metricValue (errorCodeString c));
   (B "delivery.state", metricValue (deliveryStateString d)); (B "http.status.class", metricValue (statusClassString s))].

(** bridge.go, [milliseconds]: a 64-bit float, rounded to nearest by the conversion and by
    the division. *)
Definition float64 (n : Z) : spec_float := binary_normalize 53 1024 n 0 false.
Definition milliseconds (d : Z) : spec_float := SFdiv 53 1024 (float64 d) (float64 1000000).

(** A call of a counter or of a histogram. *)
Inductive measurement :=
| Added (instrument : bytes) (n : Z) (attributes : list (bytes * bytes))
| Recorded (instrument : bytes) (v : spec_float) (attributes : list (bytes * bytes)).

Definition summaryMeasurements (s : AttemptSummary) : list measurement :=
  let attrs := metricAttributes (Summary_Outcome s) (Summary_ErrorCode s) (Summary_DeliveryState s) (Summary_HTTPStatusClass s) in
  [Added attemptsName 1 attrs; Recorded attemptDurationName (milliseconds (Summary_Duration s)) attrs].

(** bridge.go, [MetricsObserver], the callback. *)
Definition observeMetrics (e : ObserverEvent) : list measurement :=
  match Kind e with
  | ObserverEventKindRetryDelay =>
    [Recorded retryDelayName (milliseconds (RetryDelay e))
       (metricAttributes ObserverOutcomeRetryableFailure (Event_ErrorCode e) (Event_DeliveryState e) (Event_HTTPStatusClass e))]
  | ObserverEventKindOperationEnd =>
    let attrs := metricAttributes (Outcome e) (Event_ErrorCode e) (Event_DeliveryState e) (Event_HTTPStatusClass e) in
    [Added operationsName 1 attrs; Recorded operationDurationName (milliseconds (Duration e)) attrs] ++
    concat (map summaryMeasurements (AttemptSummaries e))
  | _ => []
  end.

(** bridge.go, [MetricsObserver], the instruments: [None] is a panic, when the meter
    refuses one; otherwise they are made in this order. *)
Definition instruments : list bytes := [operationsName; operationDurationName; attemptsName; attemptDurationName; retryDelayName].
Definition makeInstruments (refuses : bytes -> bool) : option (list bytes) :=
  if existsb refuses instruments then None else Some instruments.

(** ** Spans *)

Inductive attribute := AttrString (key v : bytes) | AttrInt (key : bytes) (n : Z).

(** A call on a span; a span and a context are named by numbers. *)
Inductive sdkCall :=
| SpanStart (parent : nat) (name : bytes) (at_ : Z) (attributes : list attribute)
| SpanSetAttribute (span : nat) (a : attribute)
| SpanSetError (span : nat)
| SpanFinish (span : nat) (at_ : Z).

(** bridge.go, [setError]. *)
Definition setError (span : nat) (o : ObserverOutcome) (c : ErrorCode) : list sdkCall :=
  (if errorCodeString c ==? [] then [] else [SpanSetAttribute span (AttrString (B "error.type") (ToLower (errorCodeString c)))]) ++
  (if o ==? ObserverOutcomeAccepted then [] else [SpanSetError span]).

(** bridge.go, [operation] and [attempt]: the context, the span and the start. *)
Record bridgeSpan := mkBridgeSpan { bridge_ctx : nat; bridge_span : nat; bridge_startedAt : Z }.

Section tracer.
(** [Tracer.Start], the k-th call: the context and the span that it makes, and the time. *)
Context (tracerStart : nat -> nat * nat) (timeNow : nat -> Z).

(** bridge.go, [StartOperation]. *)
Definition StartOperation (k ctx : nat) : list sdkCall * bridgeSpan :=
  let '(ctx', span) := tracerStart k in
  ([SpanStart ctx (B "repost.send") (timeNow k) []], mkBridgeSpan ctx' span (timeNow k)).

(** bridge.go, [StartAttempt]. *)
Definition StartAttempt (k : nat) (op : bridgeSpan) (n : Z) : list sdkCall * bridgeSpan :=
  let '(ctx', span) := tracerStart k in
  ([SpanStart (bridge_ctx op) (B "repost.send.attempt") (timeNow k)
      [AttrString (B "http.request.method") (B "POST"); AttrInt (B "repost.retry.attempt") n; AttrString (B "network.protocol.name") (B "http")]],
   mkBridgeSpan ctx' span (timeNow k)).

(** bridge.go, [End] of an operation and of an attempt. *)
Definition EndOperation (op : bridgeSpan) (o : ObserverOutcome) (c : ErrorCode) (duration : Z) : list sdkCall :=
  setError (bridge_span op) o c ++ [SpanFinish (bridge_span op) (bridge_startedAt op + duration)].
Definition EndAttempt (at_ : bridgeSpan) (o : ObserverOutcome) (c : ErrorCode) (s : HTTPStatusClass) (duration : Z) : list sdkCall :=
  (match s with HTTPStatusClassSuccess => [SpanSetAttribute (bridge_span at_) (AttrInt (B "http.response.status_code") 202)] | _ => [] end) ++
  setError (bridge_span at_) o c ++ [SpanFinish (bridge_span at_) (bridge_startedAt at_ + duration)].

(** The calls that the runtime makes on the bridge, with the handles that it keeps. *)
Record bridge := mkBridge { br_starts : nat; br_operation : option bridgeSpan; br_attempt : option bridgeSpan; br_calls : list sdkCall }.
Definition bridgeCall (ctx : nat) (b : bridge) (c : spanCall) : bridge :=
  let say calls := br_calls b ++ calls in
  match c, br_operation b, br_attempt b with
  | SpanStartOperation _ _, _, _ =>
    let '(calls, op) := StartOperation (br_starts b) ctx in mkBridge (S (br_starts b)) (Some op) None (say calls)
  | SpanStartAttempt _ n _, Some op, _ =>
    let '(calls, at_) := StartAttempt (br_starts b) op n in mkBridge (S (br_starts b)) (Some op) (Some at_) (say calls)
  | SpanEndAttempt s o c d _, Some op, Some at_ => mkBridge (br_starts b) (Some op) None (say (EndAttempt at_ o c s d))
  | SpanEnd o c d _, Some op, _ => mkBridge (br_starts b) None None (say (EndOperation op o c d))
  | _, _, _ => b
  end.
Definition bridgeRun (ctx : nat) (calls : list spanCall) : list sdkCall :=
  br_calls (fold_left (bridgeCall ctx) calls (mkBridge 0 None None [])).

End tracer.

(** bridge.go, [PropagationHeaders]: [inject] is what the propagator writes for a
    context. *)
Definition PropagationHeaders (inject : nat -> list (bytes * bytes)) (at_ : bridgeSpan) : list (bytes * bytes) :=
  let carrier k := default [] (snd <$> List.find (fun p => p.1 ==? k) (inject (bridge_ctx at_))) in
  if carrier (B "traceparent") ==? [] then []
  else (B "traceparent", carrier (B "traceparent")) ::
       (if carrier (B "tracestate") ==? [] then [] else [(B "tracestate", carrier (B "tracestate"))]).

(** ** What is to be told of a send

    The calls of the SDK and the measurements, from the trace of the send and the error
    that it returns, without the functions of the bridge. *)

(** The attempts of a send that ended: the number, the error if there is one, and whether
    another attempt follows; and the delays that it announced. *)
Fixpoint attemptsOf (open : option Z) (evs : list event) : list (Z * option Error * bool) :=
  match evs with
  | [] => []
  | EvStartAttempt n :: evs => attemptsOf (Some n) evs
  | EvEndAttempt err again :: evs =>
    match open with Some n => (n, err, again) :: attemptsOf None evs | None => attemptsOf None evs end
  | _ :: evs => attemptsOf open evs
  end.
Definition delaysOf (evs : list event) : list (Z * Error) :=
  omap (fun ev => match ev with EvRetry d e => Some (d, e) | _ => None end) evs.

(** The texts of attributes. *)
Definition codeName (c : ErrorCode) : bytes :=
  match c with
  | ErrorCodeConfiguration => B "configuration" | ErrorCodeClosed => B "closed" | ErrorCodeValidation => B "validation"
  | ErrorCodeSerialization => B "serialization" | ErrorCodeRequestTooLarge => B "request_too_large" | ErrorCodeDNS => B "dns"
  | ErrorCodeConnect => B "connect" | ErrorCodeProxy => B "proxy" | ErrorCodeTLS => B "tls" | ErrorCodeIO => B "io"
  | ErrorCodeAttemptTimeout => B "attempt_timeout" | ErrorCodeOperationDeadline => B "operation_deadline"
  | ErrorCodeCancelled => B "cancelled" | ErrorCodeOverloaded => B "overloaded" | ErrorCodeRateLimited => B "rate_limited"
  | ErrorCodeHTTPRejected => B "http_rejected" | ErrorCodeServerFailure => B "server_failure"
  | ErrorCodeResponseTooLarge => B "response_too_large" | ErrorCodeResponseProtocol => B "response_protocol"
  | ErrorCodeDescriptorVersion => B "descriptor_version" | ErrorCodeOther [] => B "none" | ErrorCodeOther s => ToLower s
  end.
Definition deliveryName (d : DeliveryState) : bytes :=
  match d with
  | DeliveryStateNotSent => B "not_sent" | DeliveryStatePossiblySent => B "possibly_sent" | DeliveryStateAccepted => B "accepted"
  | DeliveryStateRejected => B "rejected" | DeliveryStateCancelledUnknown => B "cancelled_unknown" | DeliveryStateNone => B "none"
  end.
Definition statusName (status : Z) : bytes :=
  match status / 100 with
  | 2 => B "success" | 3 => B "redirection" | 4 => B "client_error" | 5 => B "server_error" | _ => B "none"
  end.
(** The outcome of an attempt or, with [again] false, of a send; a cancellation may be the
    closing of the runtime. *)
Inductive outcomeName : option Error -> bool -> bytes -> Prop :=
| named_accepted : outcomeName None false (B "accepted")
| named_retryable e : outcomeName (Some e) true (B "retryable_failure")
| named_cancelled e : Error_Code e = ErrorCodeCancelled -> outcomeName (Some e) false (B "cancelled")
| named_closing e : Error_Code e = ErrorCodeCancelled -> outcomeName (Some e) false (B "closed")
| named_closed e : Error_Code e = ErrorCodeClosed -> outcomeName (Some e) false (B "closed")
| named_rejected e : Error_Code e <> ErrorCodeCancelled -> Error_Code e <> ErrorCodeClosed ->
    Error_DeliveryState e = DeliveryStateRejected -> outcomeName (Some e) false (B "rejected")
| named_failed e : Error_Code e <> ErrorCodeCancelled -> Error_Code e <> ErrorCodeClosed ->
    Error_DeliveryState e <> DeliveryStateRejected -> outcomeName (Some e) false (B "failed").

Definition attributesOf (name : bytes) (err : option Error) : list (bytes * bytes) :=
  match err with
  | None => [(B "outcome", name); (B "error.code", B "none"); (B "delivery.state", B "accepted"); (B "http.status.class", B "success")]
  | Some e => [(B "outcome", name); (B "error.code", codeName (Error_Code e)); (B "delivery.state", deliveryName (Error_DeliveryState e));
               (B "http.status.class", statusName (Error_HTTPStatus e))]
  end.
(** Nanoseconds in milliseconds, as a 64-bit float. *)
Definition inMilliseconds (d : Z) : spec_float :=
  SFdiv 53 1024 (binary_normalize 53 1024 d 0 false) (binary_normalize 53 1024 1000000 0 false).

Definition delayMeasurement (x : Z * Error) : measurement :=
  Recorded (B "repost.client.retry.delay") (inMilliseconds x.1) (attributesOf (B "retryable_failure") (Some x.2)).
Definition endMeasurements (counter histogram name : bytes) (err : option Error) (d : Z) : list measurement :=
  [Added counter 1 (attributesOf name err); Recorded histogram (inMilliseconds d) (attributesOf name err)].
Definition attemptMeasurements (a : Z * option Error * bool) (x : bytes * Z) : list measurement :=
  endMeasurements (B "repost.client.attempts") (B "repost.client.attempt.duration") x.1 a.1.2 x.2.

(** The durations that the runtime has measured: those that it hands to the spans of a
    telemetry implementation, and those of the events of an observer. *)
Definition attemptDurations (calls : list spanCall) : list Z := omap (fun c => match c with SpanEndAttempt _ _ _ d _ => Some d | _ => None end) calls.
Definition operationDurations (calls : list spanCall) : list Z := omap (fun c => match c with SpanEnd _ _ d _ => Some d | _ => None end) calls.
Definition durationsOf (k : ObserverEventKind) (es : list ObserverEvent) : list Z :=
  omap (fun e => if Kind e ==? k then Some (Duration e) else None) es.
(** A duration is not negative. *)
Definition durationOK (d : Z) : Prop := 0 <= d <= MaxInt64.

Section calls.
Context (tracerStart : nat -> nat * nat) (timeNow : nat -> Z).

(** The calls that say how a span ended. *)
Definition failureCalls (span : nat) (err : option Error) : list sdkCall :=
  match err with
  | None => []
  | Some e => (if decide (Error_Code e = ErrorCodeOther []) then []
               else [SpanSetAttribute span (AttrString (B "error.type") (codeName (Error_Code e)))]) ++ [SpanSetError span]
  end.
Definition statusCalls (span : nat) (err : option Error) : list sdkCall :=
  if match err with None => true | Some e => Error_HTTPStatus e / 100 =? 2 end
  then [SpanSetAttribute span (AttrInt (B "http.response.status_code") 202)] else [].
(** The span of an attempt, the k-th one that is started, in the context of the send. *)
Definition attemptCalls (parent k : nat) (a : Z * option Error * bool) (d : Z) : list sdkCall :=
  SpanStart parent (B "repost.send.attempt") (timeNow k)
    [AttrString (B "http.request.method") (B "POST"); AttrInt (B "repost.retry.attempt") a.1.1; AttrString (B "network.protocol.name") (B "http")] ::
  statusCalls (tracerStart k).2 a.1.2 ++ failureCalls (tracerStart k).2 a.1.2 ++ [SpanFinish (tracerStart k).2 (timeNow k + d)].
Fixpoint allAttemptCalls (parent k : nat) (l : list (Z * option Error * bool)) (ds : list Z) : list sdkCall :=
  match l, ds with a :: l, d :: ds => attemptCalls parent k a d ++ allAttemptCalls parent (S k) l ds | _, _ => [] end.
(** The span of a send, with those of its attempts inside. *)
Definition sendCalls (ctx : nat) (l : list (Z * option Error * bool)) (ds : list Z) (err : option Error) (d : Z) : list sdkCall :=
  SpanStart ctx (B "repost.send") (timeNow 0) [] :: allAttemptCalls (tracerStart 0).1 1 l ds ++
  failureCalls (tracerStart 0).2 err ++ [SpanFinish (tracerStart 0).2 (timeNow 0 + d)].
End calls.

(** *** Outcomes *)

(** What the observability of a send makes of an error. *)
Definition gives (err : option Error) (again : bool) (o : ObserverOutcome) : Prop :=
  if again then err <> None /\ o = ObserverOutcomeRetryableFailure
  else o = outcomeForError err \/ errorCode err = ErrorCodeCancelled /\ o = ObserverOutcomeClosed.
Lemma gives_name err again o : gives err again o -> outcomeName err again (metricValue (outcomeString o)).
Proof.
  unfold gives. destruct again; [intros [Hne ->]; destruct err; [constructor|done]|].
  destruct err as [e|]; cbn; [|intros [-> |[? _]]; [constructor|done]].
  intros [-> |[Hc ->]]; [|by apply named_closing].
  destruct (Error_Code e) eqn:Ec; try (by apply named_cancelled); try (by apply named_closed);
    unfold eqb; case_bool_decide as Hd; first [by apply named_rejected; rewrite ?Ec|by apply named_failed; rewrite ?Ec].
Qed.
Lemma gives_accepted err again o : gives err again o -> (o ==? ObserverOutcomeAccepted) = match err with None => true | Some _ => false end.
Proof.
  unfold gives. destruct again; [intros [? ->]; by destruct err|]. destruct err as [e|]; cbn; [|by intros [-> |[? _]]].
  intros [-> |[_ ->]]; [|done]. destruct (Error_Code e); try done; by destruct (Error_DeliveryState e ==? DeliveryStateRejected).
Qed.
Lemma codeNameP c : metricValue (errorCodeString c) = codeName c.
Proof. destruct c as [| | | | | | | | | | | | | | | | | | | |s]; [vm_compute; reflexivity..|]. by destruct s. Qed.
Lemma codeName_text c : errorCodeString c <> [] -> ToLower (errorCodeString c) = codeName c.
Proof. intros H. rewrite <- codeNameP. unfold metricValue. by rewrite (proj2 (eqb_false _ _) H). Qed.
Lemma codeString_empty c : errorCodeString c = [] <-> c = ErrorCodeOther [].
Proof. destruct c as [| | | | | | | | | | | | | | | | | | | |s]; cbn; split; try done; congruence. Qed.
Lemma statusNameP status : metricValue (statusClassString (httpStatusClass status)) = statusName status.
Proof.
  unfold httpStatusClass, statusName.
  destruct (Z.leb_spec 200 status), (Z.ltb_spec status 300); cbn [andb];
    [replace (status / 100) with 2 by (apply (Z.div_unique _ _ _ (status - 200)); lia); done|..];
  destruct (Z.leb_spec 300 status), (Z.ltb_spec status 400); cbn [andb]; try lia;
    try (replace (status / 100) with 3 by (apply (Z.div_unique _ _ _ (status - 300)); lia); done);
  destruct (Z.leb_spec 400 status), (Z.ltb_spec status 500); cbn [andb]; try lia;
    try (replace (status / 100) with 4 by (apply (Z.div_unique _ _ _ (status - 400)); lia); done);
  destruct (Z.leb_spec 500 status), (Z.ltb_spec status 600); cbn [andb]; try lia;
    try (replace (status / 100) with 5 by (apply (Z.div_unique _ _ _ (status - 500)); lia); done).
  all: pose proof (Z.div_mod status 100 ltac:(lia)) as Hd; pose proof (Z.mod_pos_bound status 100 ltac:(lia)) as Hm;
    destruct (status / 100) as [|[[[]|[]|]|[[]|[]|]|]|]; try done; lia.
Qed.
Lemma attributes_exact err o name : metricValue (outcomeString o) = name ->
  metricAttributes o (errorCode err) (deliveryOf err) (statusOf err) = attributesOf name err.
Proof.
  intros <-. unfold metricAttributes, attributesOf. destruct err as [e|]; [|done]. cbn. rewrite codeNameP, statusNameP. by destruct (Error_DeliveryState e).
Qed.
Lemma setError_exact span err again o : gives err again o -> setError span o (errorCode err) = failureCalls span err.
Proof.
  intros Hg. unfold setError. rewrite (gives_accepted _ _ _ Hg). destruct err as [e|]; cbn [errorCode failureCalls]; [|done]. f_equal.
  destruct (decide (Error_Code e = ErrorCodeOther [])) as [E|E].
  - rewrite E. done.
  - assert (errorCodeString (Error_Code e) <> []) as Hne by by rewrite codeString_empty. by rewrite (proj2 (eqb_false _ _) Hne), codeName_text.
Qed.
Lemma status_exact span err :
  match statusOf err with HTTPStatusClassSuccess => [SpanSetAttribute span (AttrInt (B "http.response.status_code") 202)] | _ => [] end = statusCalls span err.
Proof.
  unfold statusCalls. destruct err as [e|]; cbn; [|done]. unfold httpStatusClass.
  destruct (Z.eqb_spec (Error_HTTPStatus e / 100) 2) as [Hs|Hs].
  - pose proof (Z.div_mod (Error_HTTPStatus e) 100 ltac:(lia)). pose proof (Z.mod_pos_bound (Error_HTTPStatus e) 100 ltac:(lia)).
    destruct (Z.leb_spec 200 (Error_HTTPStatus e)), (Z.ltb_spec (Error_HTTPStatus e) 300); try lia. done.
  - destruct (Z.leb_spec 200 (Error_HTTPStatus e)), (Z.ltb_spec (Error_HTTPStatus e) 300); cbn [andb]; try (by repeat case_match).
    exfalso. apply Hs. symmetry. apply (Z.div_unique _ _ _ (Error_HTTPStatus e - 200)); lia.
Qed.

(** *** The span calls of a send *)

Section spans.
Context (H : hooks).

(** The calls for an attempt, and those for several, one after the other. *)
Definition spanGroup (a : Z * option Error * bool) (d : Z) (g : list spanCall) : Prop :=
  durationOK d /\ exists t o, gives a.1.2 a.2 o /\
    g = [SpanStartAttempt t a.1.1 true; SpanHeaders true; SpanEndAttempt (statusOf a.1.2) o (errorCode a.1.2) d true].
Inductive spanGroups : list (Z * option Error * bool) -> list Z -> list spanCall -> Prop :=
| groups_nil : spanGroups [] [] []
| groups_cons a d g l ds gs : spanGroup a d g -> spanGroups l ds gs -> spanGroups (a :: l) (d :: ds) (g ++ gs).

(** The calls so far when no hook has failed: [gs] for the attempts that have ended, and
    the start of the one that is under way. *)
Definition tells (started : Z) (r : report) (gs : list spanCall) (open : option Z) : Prop :=
  telemetry (obs r) = true /\ finished (obs r) = false /\ attemptNumber (obs r) = default 0 open /\
  attemptTelemetry (obs r) = (match open with Some _ => true | None => false end) /\
  exists tail, spans r = SpanStartOperation started true :: SpanContext true :: gs ++ tail /\
    match open with None => tail = [] | Some n => n <> 0 /\ exists t, tail = [SpanStartAttempt t n true; SpanHeaders true] end.
Definition openOf (ph : phase) : option Z := if pending ph =? 0 then None else Some (attempts ph).

Lemma countFailures_app l l' : countFailures (l ++ l') = (countFailures l + countFailures l')%nat.
Proof. unfold countFailures. by rewrite List.filter_app, length_app. Qed.
Lemma core_spans r r' : core r' = core r -> spans r' = spans r.
Proof. unfold core. by intros [=]. Qed.

(** Calls are only added. *)
Lemma startAttempt_spans_grow n r : spans r `prefix_of` spans (startAttempt H n r).2.
Proof.
  unfold startAttempt. destruct (finished (obs r)); [done|]. destruct (sample H r) as [t r1] eqn:Es. set (r2 := emit H _ _).
  assert (spans r2 = spans r) as E2.
  { unfold r2. rewrite (core_spans _ _ (core_emit H _ _)). cbn. injection Es as _ <-. done. }
  clearbody r2. destruct (negb _); [by rewrite <- E2|]. destruct (negb _); cbn; rewrite E2, <- ?app_assoc; by apply prefix_app_r.
Qed.
Lemma endAttempt_spans_grow err again r : spans r `prefix_of` spans (endAttempt H err again r).
Proof.
  unfold endAttempt. destruct (_ =? 0); [done|]. destruct (sample H r) as [t r1] eqn:Es. destruct (outcome H err r1) as [o r2] eqn:Eo. cbn [fst snd].
  assert (spans r2 = spans r) as E2.
  { replace r2 with (outcome H err r1).2 by by rewrite Eo. rewrite (core_spans _ _ (core_outcome H _ _)). by injection Es as _ <-. }
  set (r3 := if len _ <? 10 then _ else r2). assert (spans r3 = spans r) as E3 by (unfold r3; by destruct (len (summaries (obs r2)) <? 10)).
  set (r4 := emit H _ r3). assert (spans r4 = spans r) as E4 by (unfold r4; by rewrite (core_spans _ _ (core_emit H _ _))).
  clearbody r4. destruct (attemptTelemetry (obs r4)); cbn; rewrite E4; [by apply prefix_app_r|done].
Qed.
Lemma finish_spans_grow err r : spans r `prefix_of` spans (finish H err r).
Proof.
  unfold finish. destruct (finished (obs r)); [done|]. pose proof (endAttempt_spans_grow err false (upd set_finished r)) as H1.
  change (spans (upd set_finished r)) with (spans r) in H1. set (r1 := endAttempt H err false (upd set_finished r)) in *. clearbody r1.
  destruct (outcome H err r1) as [o r2] eqn:Eo. assert (spans r2 = spans r1) as E2.
  { replace r2 with (outcome H err r1).2 by by rewrite Eo. apply core_spans, core_outcome. }
  set (r3 := announceCancel H o err r2). assert (spans r3 = spans r1) as E3 by (unfold r3; by rewrite (core_spans _ _ (core_announceCancel H _ _ _))).
  clearbody r3. destruct (sample H r3) as [t r4] eqn:Es. assert (spans r4 = spans r1) as E4 by by injection Es as _ <-.
  set (r5 := if telemetry (obs r4) then _ else r4). assert (spans r `prefix_of` spans r5) as H5.
  { unfold r5. destruct (telemetry (obs r4)); cbn; rewrite E4; [by apply prefix_app_r|done]. }
  clearbody r5. unfold emitAt. by destruct (observerSet H).
Qed.
Lemma react_spans_grow f r ev : spans r `prefix_of` spans (react H f r ev).
Proof.
  destruct ev; cbn [react]; try done; [apply startAttempt_spans_grow|apply endAttempt_spans_grow| |apply finish_spans_grow].
  by rewrite (core_spans _ _ (retry_spans H _ _ r)).
Qed.
Lemma reports_spans_grow f evs : forall r, spans r `prefix_of` spans (reports H f evs r).
Proof. induction evs as [|ev evs IH]; intros r; [done|]. cbn. etrans; [apply react_spans_grow|apply IH]. Qed.
Lemma no_failures_before l l' : l `prefix_of` l' -> countFailures l' = 0%nat -> countFailures l = 0%nat.
Proof. intros [k ->]. rewrite countFailures_app. lia. Qed.

Lemma startObservability_tells captured started id t s : telemetrySet H = true -> captured = true ->
  let r := startObservability H captured started id t s in countFailures (spans r) = 0%nat -> tells started r [] None.
Proof.
  intros Ht -> r. unfold r, startObservability. rewrite Ht. cbn [negb orb]. set (r0 := emit H _ _).
  assert (core r0 = ([], s, false, false, 0, false)) as C0 by by (unfold r0; rewrite core_emit).
  clearbody r0. unfold core in C0. injection C0 as C1 C2 C3 C4 C5 C6.
  destruct (hookStartOperation H (asked r0)); [|cbn; rewrite C1; done].
  destruct (hookOperationContext H _); cbn; rewrite C1; cbn; [|done]. intros _. split_and!; cbn; try done; exists []; split; [|done]. by rewrite C1.
Qed.
Lemma startAttempt_tells started n r gs : tells started r gs None -> n <> 0 ->
  countFailures (spans (startAttempt H n r).2) = 0%nat -> tells started (startAttempt H n r).2 gs (Some n).
Proof.
  intros (Ht & Hf & Hn & Ha & tail & Hsp & ->) Hne. rewrite app_nil_r in Hsp. unfold startAttempt. rewrite Hf. destruct (sample H r) as [t r1] eqn:Es.
  set (r2 := emit H _ _). assert (core r2 = (spans r, diag r, true, false, n, false)) as C2.
  { unfold r2. rewrite core_emit. injection Es as _ <-. unfold core. cbn. by rewrite Ht, Ha, Hf. }
  clearbody r2. unfold core in C2. injection C2 as E1 E2 E3 E4 E5 E6. rewrite E3. cbn [negb].
  destruct (hookStartAttempt H (asked r2)); cbn [negb snd]; cbn -[countFailures]; rewrite E1; [|rewrite countFailures_app; unfold countFailures at 2; cbn; lia].
  destruct (hookHeaders H _); cbn -[countFailures]; rewrite <- app_assoc, countFailures_app; unfold countFailures at 2; cbn; [|lia]. intros _.
  split_and!; try done. eexists. split; [|split; [done|by eexists]]. cbn. rewrite E1, Hsp. by norm_app.
Qed.
Lemma endAttempt_tells started n err again r gs : tells started r gs (Some n) -> (again = true -> err <> None) ->
  countFailures (spans (endAttempt H err again r)) = 0%nat ->
  exists d g, spanGroup (n, err, again) d g /\ tells started (endAttempt H err again r) (gs ++ g) None.
Proof.
  intros (Ht & Hf & Hn & Ha & tail & Hsp & Hne & ts & ->) Hag. cbn in Hn. unfold endAttempt. rewrite Hn. destruct (Z.eqb_spec n 0); [done|].
  destruct (sample H r) as [t r1] eqn:Es. pose proof (duration_range (t - attemptStartedAt (obs r1))) as Hd. set (d := nonnegativeDuration _) in *. clearbody d.
  pose proof (outcome_value H err r1) as Ho. destruct (outcome H err r1) as [o r2] eqn:Eo. cbn [fst] in Ho.
  assert (core r2 = core r) as C2. { replace r2 with (outcome H err r1).2 by by rewrite Eo. rewrite core_outcome. by injection Es as _ <-. }
  set (o' := if again then ObserverOutcomeRetryableFailure else o).
  assert (gives err again o') as Hg by (unfold gives, o'; destruct again; [split; [by apply Hag|done]|exact Ho]).
  set (r3 := if len _ <? 10 then _ else r2). assert (core r3 = core r2) as C3 by (unfold r3; by destruct (len (summaries (obs r2)) <? 10)).
  set (r4 := emit H _ r3). assert (core r4 = core r) as C4 by (unfold r4; rewrite core_emit; congruence). clearbody r4 o'.
  unfold core in C4. injection C4 as E1 E2 E3 E4 E5 E6. rewrite E4, Ha. cbn -[countFailures]. rewrite E1, countFailures_app. intros Hfail.
  assert (hookEnd H (asked r4) = true) as Hend. { destruct (hookEnd H (asked r4)); [done|]. unfold countFailures at 2 in Hfail. cbn in Hfail. lia. }
  rewrite Hend. exists d. eexists. split; [split; [done|]; exists ts, o'; split; [exact Hg|reflexivity]|].
  split_and!; cbn; try congruence. exists []. split; [|done]. rewrite E1, Hsp. cbn. by norm_app.
Qed.
Lemma finish_tells started err r gs : tells started r gs None -> countFailures (spans (finish H err r)) = 0%nat ->
  exists o d, gives err false o /\ durationOK d /\
    spans (finish H err r) = SpanStartOperation started true :: SpanContext true :: gs ++ [SpanEnd o (errorCode err) d true].
Proof.
  intros (Ht & Hf & Hn & Ha & tail & Hsp & ->). rewrite app_nil_r in Hsp. unfold finish. rewrite Hf, (endAttempt_idle H) by done.
  set (r0 := upd set_finished r). pose proof (outcome_value H err r0) as Ho. destruct (outcome H err r0) as [o r1] eqn:Eo. cbn [fst] in Ho.
  assert (core r1 = core r0) as C1. { replace r1 with (outcome H err r0).2 by by rewrite Eo. apply core_outcome. }
  pose proof (core_announceCancel H o err r1) as C2. set (r2 := announceCancel H o err r1) in *. clearbody r2.
  destruct (sample H r2) as [t r3] eqn:Es. assert (core r3 = core r0) as C3 by (injection Es as _ <-; change (core r2 = core r0); congruence).
  unfold core, r0 in C3. cbn in C3. injection C3 as E1 E2 E3 E4 E5 E6. rewrite E3, Ht.
  pose proof (duration_range (t - startedAt (obs r3))) as Hd. set (d := nonnegativeDuration _) in *. clearbody d.
  set (r4 := call _ r3). assert (forall e, spans (emitAt H e t r4) = spans r4) as -> by (intros e; unfold emitAt; by destruct (observerSet H)).
  unfold r4. cbn -[countFailures]. rewrite E1, countFailures_app. intros Hfail.
  assert (hookEnd H (asked r3) = true) as Hend. { destruct (hookEnd H (asked r3)); [done|]. unfold countFailures at 2 in Hfail. cbn in Hfail. lia. }
  exists o, d. split_and!; [exact Ho|done|]. by rewrite Hsp, Hend.
Qed.

Lemma run_tells E C id p f started ph evs ph' : run E C id p ph evs ph' -> 0 <= attempts ph -> forall r gs, tells started r gs (openOf ph) ->
  countFailures (spans (reports H f evs r)) = 0%nat ->
  exists ds gs', spanGroups (attemptsOf (openOf ph) evs) ds gs' /\ tells started (reports H f evs r) (gs ++ gs') (openOf ph').
Proof.
  induction 1 as [ph|ph ev ph1 evs ph2 Hm _ IH]; intros Hn r gs Hr Hfail.
  { exists [], []. rewrite app_nil_r. split; [constructor|done]. }
  cbn [reports fold_left] in *. fold (reports H f evs (react H f r ev)) in *.
  assert (countFailures (spans (react H f r ev)) = 0%nat) as Hfail1 by (eapply no_failures_before; [apply reports_spans_grow|exact Hfail]).
  destruct Hm; cbn [attempts] in *.
  all: try (apply (IH ltac:(cbn; lia) _ gs Hr Hfail)).
  - apply (IH ltac:(cbn; lia) _ gs); [|done]. apply startAttempt_tells; [done|lia|done].
  - destruct (endAttempt_tells started n e false r gs) as (d & g & Hg & Hr1); [done|done|done|].
    destruct (IH ltac:(cbn; lia) _ (gs ++ g) Hr1 Hfail) as (ds & gs' & Hgs & Hr2). exists (d :: ds), (g ++ gs').
    split; [by constructor|]. by rewrite app_assoc.
  - destruct (endAttempt_tells started n (Some e) true r gs) as (d & g & Hg & Hr1); [done|done|done|].
    destruct (IH ltac:(cbn; lia) _ (gs ++ g) Hr1 Hfail) as (ds & gs' & Hgs & Hr2). exists (d :: ds), (g ++ gs').
    split; [by constructor|]. by rewrite app_assoc.
  - apply (IH ltac:(cbn; lia) _ gs); [|done]. unfold tells in *. pose proof (retry_spans H d e r) as Hc. cbn [react] in *. set (r' := retry H d (Some e) r) in *. clearbody r'.
    unfold core in Hc. injection Hc as -> _ -> -> -> ->. done.
Qed.

(** The calls for attempts hand over their durations, and none for the send. *)
Lemma groups_durations l ds gs : spanGroups l ds gs -> attemptDurations gs = ds /\ operationDurations gs = [].
Proof.
  induction 1 as [|a d g l ds gs (_ & t & o & _ & ->) _ [IH1 IH2]]; [done|]. unfold attemptDurations, operationDurations in *.
  rewrite !omap_app, IH1, IH2. done.
Qed.
Lemma send_durations l ds gs t o c d : spanGroups l ds gs ->
  let calls := SpanStartOperation t true :: SpanContext true :: gs ++ [SpanEnd o c d true] in attemptDurations calls = ds /\ operationDurations calls = [d].
Proof.
  intros [H1 H2]%groups_durations calls. unfold attemptDurations, operationDurations in *.
  assert (forall f : spanCall -> option Z, f (SpanStartOperation t true) = None -> f (SpanContext true) = None ->
    omap f calls = omap f gs ++ omap f [SpanEnd o c d true]) as Hc.
  { intros f E1 E2. rewrite <- omap_app. unfold calls. cbn. by rewrite E1, E2. }
  rewrite !Hc, H1, H2 by done. split; [apply app_nil_r|done].
Qed.
End spans.

(** *** The bridge on them *)

Section bridged.
Context (tracerStart : nat -> nat * nat) (timeNow : nat -> Z).
#[local] Abbreviation step := (bridgeCall tracerStart timeNow).

Lemma EndAttempt_exact b_ctx span start a d o again : gives a again o ->
  EndAttempt (mkBridgeSpan b_ctx span start) o (errorCode a) (statusOf a) d =
  statusCalls span a ++ failureCalls span a ++ [SpanFinish span (start + d)].
Proof. intros Hg. unfold EndAttempt. cbn [bridge_span bridge_startedAt]. by rewrite status_exact, (setError_exact _ _ _ _ Hg). Qed.
Lemma bridge_groups ctx op l ds gs : spanGroups l ds gs -> forall k calls,
  fold_left (step ctx) gs (mkBridge k (Some op) None calls) =
  mkBridge (k + length l) (Some op) None (calls ++ allAttemptCalls tracerStart timeNow (bridge_ctx op) k l ds).
Proof.
  induction 1 as [|[[n err] again] d g l ds gs (_ & t & o & Hg & ->) _ IH]; intros k calls; cbn [length allAttemptCalls].
  { by rewrite Nat.add_0_r, app_nil_r. }
  cbn [app fold_left bridgeCall br_operation br_attempt br_starts br_calls fst snd]. destruct (tracerStart k) as [c sp] eqn:Et. unfold StartAttempt. rewrite ?Et.
  cbn [bridgeCall br_operation br_attempt br_starts br_calls]. cbn [fst snd] in Hg. rewrite (EndAttempt_exact _ _ _ _ _ _ _ Hg), IH.
  f_equal; [lia|]. unfold attemptCalls. rewrite Et. cbn [fst snd]. by norm_app.
Qed.
Lemma bridge_send ctx l ds gs err o d ts : spanGroups l ds gs -> gives err false o ->
  bridgeRun tracerStart timeNow ctx (SpanStartOperation ts true :: SpanContext true :: gs ++ [SpanEnd o (errorCode err) d true]) =
  sendCalls tracerStart timeNow ctx l ds err d.
Proof.
  intros Hgs Hg. unfold bridgeRun. cbn [fold_left bridgeCall br_operation br_attempt br_starts br_calls]. unfold StartOperation.
  unfold sendCalls. destruct (tracerStart 0) as [c sp] eqn:Et. cbn [bridgeCall br_operation br_attempt br_starts br_calls fst snd app].
  rewrite fold_left_app, (bridge_groups ctx _ l ds gs Hgs). cbn [fold_left bridgeCall br_operation br_attempt br_starts br_calls]. unfold EndOperation.
  cbn [bridge_span bridge_startedAt bridge_ctx]. rewrite (setError_exact _ _ _ _ Hg). by norm_app.
Qed.
End bridged.

(** *** The measurements of a send *)

Section measured.
Context (H : hooks) (watched : observerSet H = true).

Definition measurementsOf (es : list ObserverEvent) : list measurement := concat (map observeMetrics es).
Lemma measured_extends r es r' : extends r es r' -> measurementsOf (emitted r') = measurementsOf (emitted r) ++ measurementsOf es.
Proof. intros [-> _ _ _]. unfold measurementsOf. by rewrite map_app, concat_app. Qed.
Lemma durations_extends k r es r' : extends r es r' -> durationsOf k (emitted r') = durationsOf k (emitted r) ++ durationsOf k es.
Proof. intros [-> _ _ _]. unfold durationsOf. by rewrite omap_app. Qed.
Lemma durations_other k r e r' : extends r [e] r' -> Kind e <> k -> durationsOf k (emitted r') = durationsOf k (emitted r).
Proof.
  intros He Hk. rewrite (durations_extends _ _ _ _ He). unfold durationsOf at 2. cbn. rewrite (proj2 (eqb_false _ _) Hk). apply app_nil_r.
Qed.
(** An event that is neither a delay nor the end is not measured. *)
Lemma measured_other r e r' : extends r [e] r' -> Kind e <> ObserverEventKindRetryDelay -> Kind e <> ObserverEventKindOperationEnd ->
  measurementsOf (emitted r') = measurementsOf (emitted r).
Proof.
  intros He H1 H2. rewrite (measured_extends _ _ _ He). unfold measurementsOf at 2. cbn. unfold observeMetrics. destruct (Kind e); by rewrite ?app_nil_r.
Qed.

(** The summary of an attempt. *)
Definition summarised (a : Z * option Error * bool) (d : Z) (s : AttemptSummary) : Prop :=
  durationOK d /\ exists o, gives a.1.2 a.2 o /\ s = mkSummary a.1.1 o (errorCode a.1.2) (deliveryOf a.1.2) (statusOf a.1.2) d.

Lemma endAttempt_summary n err again r : attemptNumber (obs r) = n -> n <> 0 -> (again = true -> err <> None) -> len (summaries (obs r)) < 10 ->
  exists d s, summarised (n, err, again) d s /\ summaries (obs (endAttempt H err again r)) = summaries (obs r) ++ [s].
Proof.
  intros Hn Hne Hag Hlen. unfold endAttempt. rewrite Hn, (proj2 (Z.eqb_neq _ _) Hne). destruct (sample H r) as [t r1] eqn:Es.
  assert (summaries (obs r1) = summaries (obs r)) as S1 by by injection Es as _ <-.
  pose proof (duration_range (t - attemptStartedAt (obs r1))) as Hd. set (d := nonnegativeDuration _) in *. clearbody d.
  pose proof (outcome_value H err r1) as Ho. destruct (outcome_extends H err r1) as [_ O2]. destruct (outcome H err r1) as [o r2]. cbn in Ho, O2.
  rewrite O2, S1, (proj2 (Z.ltb_lt _ _) Hlen). set (o' := if again then ObserverOutcomeRetryableFailure else o).
  assert (gives err again o') as Hg by (unfold gives, o'; destruct again; [split; [by apply Hag|done]|exact Ho]). clearbody o'.
  set (ev := event_lit _ _ _ _ _ _ _ _). set (r3 := upd _ r2). destruct (emit_extends H watched ev r3) as (ts & _ & O4); [exact Hd|].
  exists d. eexists. split; [split; [exact Hd|]; exists o'; split; [exact Hg|reflexivity]|].
  destruct (attemptTelemetry _); cbn; by rewrite O4.
Qed.
Lemma finish_measures err r : finished (obs r) = false -> attemptNumber (obs r) = 0 ->
  exists o d, gives err false o /\ durationOK d /\ measurementsOf (emitted (finish H err r)) = measurementsOf (emitted r) ++
    [Added operationsName 1 (metricAttributes o (errorCode err) (deliveryOf err) (statusOf err));
     Recorded operationDurationName (milliseconds d) (metricAttributes o (errorCode err) (deliveryOf err) (statusOf err))] ++
    concat (map summaryMeasurements (summaries (obs r))) /\
  durationsOf ObserverEventKindAttemptEnd (emitted (finish H err r)) = durationsOf ObserverEventKindAttemptEnd (emitted r) /\
  durationsOf ObserverEventKindOperationEnd (emitted (finish H err r)) = durationsOf ObserverEventKindOperationEnd (emitted r) ++ [d].
Proof.
  intros Hf Hn. unfold finish. rewrite Hf, (endAttempt_idle H) by done. set (r0 := upd set_finished r).
  pose proof (outcome_value H err r0) as Ho. destruct (outcome_extends H err r0) as [F1 O1]. destruct (outcome H err r0) as [o r1]. cbn in Ho, F1, O1.
  assert (measurementsOf (emitted r1) = measurementsOf (emitted r)) as M1 by (rewrite (measured_extends _ _ _ F1); apply app_nil_r).
  assert (measurementsOf (emitted (announceCancel H o err r1)) = measurementsOf (emitted r) /\
          summaries (obs (announceCancel H o err r1)) = summaries (obs r) /\
          forall k, k <> ObserverEventKindOperationCancel -> durationsOf k (emitted (announceCancel H o err r1)) = durationsOf k (emitted r)) as (M2 & S2 & D2).
  { assert (forall k, durationsOf k (emitted r1) = durationsOf k (emitted r)) as D1 by (intros k; rewrite (durations_extends _ _ _ _ F1); apply app_nil_r).
    unfold announceCancel. destruct (o ==? ObserverOutcomeCancelled); [|by rewrite O1].
    set (ev := event_lit _ _ _ _ _ _ _ _). destruct (emit_extends H watched ev r1) as (ts & F & Hx); [cbn; unfold MaxInt64; lia|].
    rewrite (measured_other _ _ _ F), Hx, O1 by done. split_and!; [done|done|]. intros k Hk. by rewrite (durations_other _ _ _ _ F), D1. }
  set (r2 := announceCancel H o err r1) in *. clearbody r2. pose proof (sample_extends H r2) as F3. destruct (sample H r2) as [t r3] eqn:Es. cbn [snd] in F3.
  assert (summaries (obs r3) = summaries (obs r)) as S3 by by injection Es as _ <-.
  assert (measurementsOf (emitted r3) = measurementsOf (emitted r)) as M3 by (rewrite (measured_extends _ _ _ F3), M2; apply app_nil_r).
  assert (forall k, k <> ObserverEventKindOperationCancel -> durationsOf k (emitted r3) = durationsOf k (emitted r)) as D3
    by (intros k Hk; rewrite (durations_extends _ _ _ _ F3), D2 by done; apply app_nil_r).
  pose proof (duration_range (t - startedAt (obs r3))) as Hd. set (d := nonnegativeDuration _) in *. clearbody d.
  set (r4 := if telemetry (obs r3) then _ else r3). assert (emitted r4 = emitted r3 /\ obs r4 = obs r3) as [E4 O4] by (unfold r4; by destruct (telemetry (obs r3))).
  clearbody r4. exists o, d. split; [exact Ho|]. split; [exact Hd|]. unfold emitAt. rewrite watched. cbn [emitted]. unfold measurementsOf, durationsOf in *. rewrite map_app, concat_app, !omap_app, E4, M3, !D3 by done.
  split_and!; [|apply app_nil_r|done]. f_equal. cbn. by rewrite O4, S3, app_nil_r.
Qed.

Definition counts (r : report) (ms : list measurement) (sums : list AttemptSummary) (open : option Z) : Prop :=
  finished (obs r) = false /\ attemptNumber (obs r) = default 0 open /\ measurementsOf (emitted r) = ms /\ summaries (obs r) = sums /\
  durationsOf ObserverEventKindAttemptEnd (emitted r) = map Summary_Duration sums /\ durationsOf ObserverEventKindOperationEnd (emitted r) = [].
Lemma counts_ended r r' ms sums s x : extends r [x] r' -> Kind x = ObserverEventKindAttemptEnd -> measurementsOf (emitted r) = ms ->
  durationsOf ObserverEventKindAttemptEnd (emitted r) = map Summary_Duration sums -> durationsOf ObserverEventKindOperationEnd (emitted r) = [] ->
  finished (obs r') = false -> attemptNumber (obs r') = 0 -> summaries (obs r') = sums ++ [s] -> s = summaryOf x -> counts r' ms (sums ++ [s]) None.
Proof.
  intros F Hk HM HD HO Hf Hn Hs ->. split_and!; try done.
  - by rewrite (measured_other _ _ _ F) by congruence.
  - rewrite (durations_extends _ _ _ _ F), HD, map_app. f_equal. unfold durationsOf. cbn. by rewrite Hk.
  - by rewrite (durations_other _ _ _ _ F) by congruence.
Qed.
Inductive summarisedAll : list (Z * option Error * bool) -> list Z -> list AttemptSummary -> Prop :=
| summarised_nil : summarisedAll [] [] []
| summarised_cons a d s l ds ss : summarised a d s -> summarisedAll l ds ss -> summarisedAll (a :: l) (d :: ds) (s :: ss).

Lemma run_counts E C id p f ph evs ph' : run E C id p ph evs ph' -> maxAttempts C <= 10 -> 0 <= attempts ph ->
  (pending ph = 1 -> attempts ph <= maxAttempts C) ->
  forall r ms sums, counts r ms sums (openOf ph) -> len sums = attempts ph - pending ph ->
  exists ds ss, summarisedAll (attemptsOf (openOf ph) evs) ds ss /\
    counts (reports H f evs r) (ms ++ map delayMeasurement (delaysOf evs)) (sums ++ ss) (openOf ph').
Proof.
  intros Hrun Hmax. induction Hrun as [ph|ph ev ph1 evs ph2 Hm _ IH]; intros Hn Hat r ms sums Hr Hlen.
  { exists [], []. rewrite !app_nil_r. split; [constructor|done]. }
  cbn [reports fold_left] in *. fold (reports H f evs (react H f r ev)).
  pose proof (len_nonneg sums) as Hnn. destruct Hm; cbn [attempts pending] in *.
  all: try (apply (IH ltac:(cbn; lia) ltac:(cbn; lia) r ms sums Hr ltac:(cbn; lia))).
  - destruct Hr as (Hf & Hnum & HM & HS & HD & HO). destruct (startAttempt_observed H watched n r Hf) as (e & Hk & He & F & Hf' & Hn' & Hl').
    apply (IH ltac:(cbn; lia) ltac:(cbn; lia) _ ms sums); [|cbn; lia]. cbn [react].
    split_and!; [done|done|by rewrite (measured_other _ _ _ F), HM by congruence|congruence|by rewrite (durations_other _ _ _ _ F) by congruence..].
  - destruct Hr as (Hf & Hnum & HM & HS & HD & HO). cbn in Hnum.
    destruct (endAttempt_observed H watched e false r) as (x & Hk & He & _ & _ & _ & _ & F & Hf' & Hn' & Hx); [lia|].
    destruct (endAttempt_summary n e false r) as (d & s & Hs & HS'); [done|lia|done|rewrite HS; lia|].
    destruct (IH ltac:(cbn; lia) ltac:(cbn; lia) (endAttempt H e false r) ms (sums ++ [s])) as (ds & ss & Hss & Hr2).
    { apply (counts_ended r _ ms sums s x); try done; [congruence..|].
      rewrite HS', HS, (proj2 (Z.ltb_lt _ _)) in Hx by lia. by simplify_list_eq. }
    { rewrite len_app. cbn [attempts pending]. change (len [s]) with 1. lia. }
    exists (d :: ds), (s :: ss). split; [by constructor|]. rewrite <- app_assoc in Hr2. exact Hr2.
  - destruct Hr as (Hf & Hnum & HM & HS & HD & HO). cbn in Hnum.
    destruct (endAttempt_observed H watched (Some e) true r) as (x & Hk & He & _ & _ & _ & _ & F & Hf' & Hn' & Hx); [lia|].
    destruct (endAttempt_summary n (Some e) true r) as (d & s & Hs & HS'); [done|lia|done|rewrite HS; lia|].
    destruct (IH ltac:(cbn; lia) ltac:(cbn; lia) (endAttempt H (Some e) true r) ms (sums ++ [s])) as (ds & ss & Hss & Hr2).
    { apply (counts_ended r _ ms sums s x); try done; [congruence..|].
      rewrite HS', HS, (proj2 (Z.ltb_lt _ _)) in Hx by lia. by simplify_list_eq. }
    { rewrite len_app. cbn [attempts pending]. change (len [s]) with 1. lia. }
    exists (d :: ds), (s :: ss). split; [by constructor|]. rewrite <- app_assoc in Hr2. exact Hr2.
  - destruct Hr as (Hf & Hnum & HM & HS & HD & HO).
    destruct (retry_observed H watched d e r Hf) as (y & Hk & _ & Hd & _ & H2 & H3 & H4 & F & Hf' & Hn' & Hl').
    destruct (IH ltac:(cbn; lia) ltac:(cbn; lia) (retry H d (Some e) r) (ms ++ [delayMeasurement (d, e)]) sums) as (ds & ss & Hss & Hr2); [|cbn; lia|].
    { split_and!; [done|by rewrite Hn', Hnum| |congruence|by rewrite (durations_other _ _ _ _ F) by congruence..]. rewrite (measured_extends _ _ _ F), HM. f_equal. unfold measurementsOf. cbn. rewrite app_nil_r.
      unfold observeMetrics. rewrite Hk, Hd, H2, H3, H4. unfold delayMeasurement. cbn [fst snd]. do 2 f_equal.
      by apply (attributes_exact (Some e)). }
    exists ds, ss. split; [exact Hss|]. rewrite <- app_assoc in Hr2. exact Hr2.
Qed.

Lemma summaries_exact l ds ss : summarisedAll l ds ss ->
  exists xs, Forall2 (fun a x => outcomeName a.1.2 a.2 x.1 /\ durationOK x.2) l xs /\
    map snd xs = map Summary_Duration ss /\ concat (map summaryMeasurements ss) = concat (zip_with attemptMeasurements l xs).
Proof.
  induction 1 as [|[[n err] again] d s l ds ss (Hd & o & Hg & ->) _ (xs & Hxs & Hds & Hm)]; [exists []; split; [constructor|done]|].
  cbn [fst snd] in *. exists ((metricValue (outcomeString o), d) :: xs). split; [constructor; [|done]; split; [by apply gives_name|done]|]. split; [cbn; by rewrite Hds|].
  cbn [map concat zip_with]. rewrite Hm. unfold summaryMeasurements, attemptMeasurements, endMeasurements. cbn [fst snd].
  cbn [Summary_Outcome Summary_ErrorCode Summary_DeliveryState Summary_HTTPStatusClass Summary_Duration].
  by rewrite (attributes_exact err o _ eq_refl).
Qed.
End measured.

(** Without an implementation or without its context no hook is called. *)
Definition silent (r : report) : Prop := telemetry (obs r) = false /\ attemptTelemetry (obs r) = false /\ spans r = [].
Lemma silent_core r r' : core r' = core r -> silent r -> silent r'.
Proof. unfold core, silent. by intros [= -> _ -> -> _ _]. Qed.
Lemma endAttempt_silent H err again r : silent r -> silent (endAttempt H err again r).
Proof.
  intros (S1 & S2 & S3). unfold endAttempt. destruct (_ =? 0); [done|]. destruct (sample H r) as [t r1] eqn:Es. destruct (outcome H err r1) as [o r2] eqn:Eo.
  assert (core r2 = core r) as C2. { replace r2 with (outcome H err r1).2 by by rewrite Eo. rewrite core_outcome. by injection Es as _ <-. }
  set (r3 := if len _ <? 10 then _ else r2). assert (core r3 = core r2) as C3 by (unfold r3; by destruct (len (summaries (obs r2)) <? 10)).
  set (r4 := emit H _ r3). assert (core r4 = core r) as C4 by (unfold r4; rewrite core_emit; congruence). clearbody r4.
  unfold core in C4. injection C4 as E1 E2 E3 E4 E5 E6. rewrite E4, S2. unfold silent. cbn. by rewrite E1, E3.
Qed.
Lemma react_silent H f r ev : silent r -> silent (react H f r ev).
Proof.
  intros Hs. destruct ev as [|n| | | |err again| |d e| | |]; cbn [react]; try done.
  - unfold startAttempt. destruct (finished (obs r)); [done|]. destruct (sample H r) as [t r1] eqn:Es. set (r2 := emit H _ _).
    assert (silent r2) as S2. { eapply silent_core; [apply core_emit|]. injection Es as _ <-. exact Hs. }
    clearbody r2. by rewrite (proj1 S2).
  - by apply endAttempt_silent.
  - eapply silent_core; [apply retry_spans|done].
  - unfold finish. destruct (finished (obs r)); [done|]. set (r1 := endAttempt _ _ _ _). assert (silent r1) as S1 by by apply endAttempt_silent.
    clearbody r1. destruct (outcome H (errorOf f) r1) as [o r2] eqn:Eo. set (r3 := announceCancel H o (errorOf f) r2).
    assert (silent r3) as S3. { eapply silent_core; [|exact S1]. unfold r3. rewrite core_announceCancel. replace r2 with (outcome H (errorOf f) r1).2 by by rewrite Eo. apply core_outcome. }
    clearbody r3. destruct (sample H r3) as [t r4] eqn:Es. assert (silent r4) as S4 by (injection Es as _ <-; exact S3). rewrite (proj1 S4).
    unfold emitAt. by destruct (observerSet H).
Qed.
Lemma reports_silent H f evs : forall r, silent r -> silent (reports H f evs r).
Proof. induction evs as [|ev evs IH]; intros r Hr; [done|]. cbn. by apply IH, react_silent. Qed.
Lemma startObservability_silent H captured started id t s : telemetrySet H && captured = false -> silent (startObservability H captured started id t s).
Proof.
  intros Htc. unfold startObservability. rewrite <- negb_andb, Htc. cbn [negb]. eapply silent_core; [apply core_emit|done].
Qed.

Lemma attemptsOf_end open l : attemptsOf open (l ++ [EvOperationEnd]) = attemptsOf open l.
Proof. revert open. induction l as [|ev l IH]; intros open; [done|]. destruct ev; cbn; by rewrite ?IH. Qed.
Lemma delaysOf_end l : delaysOf (l ++ [EvOperationEnd]) = delaysOf l.
Proof. unfold delaysOf. rewrite omap_app. cbn. apply app_nil_r. Qed.

Section sent.
Context {K : Codec} (E : environment) (C : runtimeConfig).
Context (sticky : forall t t', (t <= t')%nat -> deadlineErr E t = true -> deadlineErr E t' = true).
Context (delays : 0 <= retryBaseDelay C /\ 0 <= retryMaxDelay C) (positive : 1 <= maxAttempts C <= 10).
Context (id : bytes) (schema : SchemaDescriptor) (group member : bytes) (inp : SendInput) (w : world).
Context (H : hooks) (captured : bool) (t0 : nat) (s0 : runtimeState).

End sent.

(** The fields that the bridge injects are those that a request carries. *)
Lemma bridge_headers_are_sent inject a :
  authorizedPropagationHeaders (PropagationHeaders inject a) = map (fun h => mkHeader h.1 h.2) (PropagationHeaders inject a).
Proof.
  unfold PropagationHeaders. destruct (_ ==? []); [done|]. by destruct (_ ==? []).
Qed.

(** Every status of the class is reported as 202, also one that the runtime refuses. *)
Lemma success_statuses_reported_as_202 at_ status o c d : 200 <= status < 300 ->
  SpanSetAttribute (bridge_span at_) (AttrInt (B "http.response.status_code") 202) ∈ EndAttempt at_ o c (httpStatusClass status) d.
Proof. intros Hs. unfold httpStatusClass. replace ((200 <=? status) && (status <? 300)) with true by lia. by left. Qed.

(** ** A measured send *)
Module Demo.
Import Operation.Demo.
(** The tracer counts, and the hooks never fail. *)
Definition tracer (k : nat) : nat * nat := (S k, S k).
Definition H : hooks := mkHooks true true (fun t => Some (Z.of_nat t)) (fun _ => false) (fun _ => true)
  (fun _ => true) (fun _ => true) (fun _ => true) (fun _ => Some [(B "traceparent", B "00")]) (fun _ => true).
Definition narrated : option report := narrate (B "op_1") start H true 0 (newRuntimeState 1 1000 10000000000)
  (match (send 2).1 with inr f => f | inl _ => Panicked end) (trace (send 2).2).
Definition reported : report := default (startObservability H true 0 [] 0 (newRuntimeState 1 1000 10000000000)) narrated.

End Demo.
